(* ===== verification/_CoqProject ===== *)
-Q . S2P
Prelude.v
GoLib.v
GoIO.v
GoNet.v
Sha.v
HashRing.v
Placement.v
Rebalance.v
Chunk.v
Storage.v
LocalFS.v
DiskRace.v
S3.v
SigV4.v
S3Store.v
Membership.v
Replication.v
WorkerPool.v
Recovery.v
Server.v
ColdTier.v
Node.v
Main.v
Cluster.v
Goroutines.v
System.v
Downloads.v
Availability.v
Phases.v
Healing.v
