(* ===== verification/Prelude.v ===== *)
(** * A verification development for the p2p container-chunk distribution node

    The program (src/, in Go) is a node of a cluster that stores blobs cut into chunks.  A
    chunk is named by its SHA-256; a consistent-hash ring gives every chunk three replica
    nodes; the node that takes an upload pushes the chunks to them; heartbeats find dead
    peers, whose departure from the ring starts a repair; a download fetches every chunk
    from the own disk, the replicas or a cold tier on S3, and verifies it.

    ** Files, in dependency order, and the sources they model

    - Prelude (this file): lists, sums, tactics.  GoLib, GoIO, GoNet: the functions of Go's
      library the sources call (errors, sort, strings, hex, time; readers and writers;
      URLs, query values, headers, requests).  Sha: SHA-1, SHA-256 and HMAC, executable,
      with test vectors.
    - HashRing, Placement: internal/hashring.  [Ring] is the struct; [AddNode],
      [RemoveNode], [GetN], [Get], [Nodes] its methods.  [ring_repr r S] says that [r] is
      the ring of the set [S]; Placement relates [GetN] to the clockwise [preference] list.
    - Rebalance: benchmarks/rebalance, the counts of its scenarios.
    - Chunk: pkg/chunk.  [Split], [Reassemble], [ID], [Verify]; [chop] is the reference.
    - Storage, LocalFS, DiskRace: internal/storage/storage.go.  The Go interface is the
      class [Backend], its contract [BackendSpec]; [Memory] and, on a model of the file
      system, [LocalFS] are instances; [Copy] and the runs of operations are proved
      against the contract.  These take a call as one step; DiskRace has [Put]s that run at
      the same time, as the system calls they make on inodes ([race_step]).
    - S3, SigV4, S3Store: internal/storage/s3.go.  S3 is the client, down to the request it
      sends; SigV4 the specification of the signature and the proof that requests pass it;
      S3Store the contract of the service ([S3Service]) and the refinement to a map.
    - Membership: internal/cluster.  The table with its operations as transitions
      ([mstep]), each one the code between a Lock and its Unlock; [verdict] is the
      specification of the detector.
    - Replication, WorkerPool: internal/replication.  Pushes with retry and replica sets,
      over the classes [Transport], [AddrResolver] and [Waiting] with the contract
      [TransportSpec]; and the channel with its workers as an interleaving machine
      ([pool_step]).
    - Recovery: internal/recovery.  The callbacks, and the repair pass in an environment
      that may change at every iteration.
    - Server: internal/api.  The handlers, [fetchChunk], the routes and [ServeHTTP], over
      the classes [Backend] and [HTTPGetter].  ColdTier: the server with the S3 client.
    - Node, Main: cmd/node.  The peers flag, the address resolver, the callbacks
      ([run_call]); the flags and [main_setup], all that main builds.
    - Cluster: nodes by address.  A push of one node is a request to another's handler
      ([View] is an instance of [TransportSpec]), a fetch one to another's as well; a
      request and its handler are one step.
    - Goroutines: a node under way.  Uploads, handlers of pushes, workers, callbacks, repair
      passes and the shutdown of main as small-step programs ([upload_next],
      [handle_next], [worker_next], [callback_next], [repair_next], [main_step]), run in
      any order by [proc_step]; calls on the disk can fail ([fault_next]), and a chunk whose
      [Put]s overlap, or that the disk damages, is recorded as damaged and may from then
      on hold anything ([overlap], [pr_damaged]).
    - System: the nodes over a network that delays, repeats and loses requests and answers,
      with crashes, restarts and lost disks ([sys_step]); the specification is a [Ledger].
    - Downloads: the system with download threads ([world_step]), each a small-step program
      of [handleDownloadBlob] with [fetchChunk] and [Reassemble] in it ([download_next],
      [fetch_next]) that keeps a history of what it met.
    - Availability, Phases: benchmarks/availability.  The cluster it starts, its uploads,
      its kills ([killScheduler]) and its reads; and its counters as a machine of readers
      and changes of phase ([bench_step]).
    - Healing: the life of a cluster ([life]): uploads and outages, each noticed and repaired
      by the survivors in heartbeat rounds ([heal]) whose pings are requests to the others.

    ** What the theorems show

    - Placement: the ring depends on its members only, not on the history; replica sets
      are distinct members, as many as asked for or all; a join or a departure changes
      them minimally; the benchmark's counts are exactly the keys of the node that moved.
    - Data: splitting is cutting in pieces of the chunk size; reassembly gives the blob
      back; whatever is fetched, what is written is a prefix of the blob.  The disk store
      is equivalent to the in-memory one for every run of operations one after the other,
      and a Put that crashes leaves the old or the new data.  Of Puts that run at the same
      time, those of different chunks, and those of one chunk that do not overlap, act
      like Puts one after the other; two of one chunk that overlap can confirm a torn one
      ([confirmed_put_torn]).
    - The S3 client: keys survive the escaping, every request is signed as specified,
      whatever the order of the header map; listings are read back; against a service with
      S3's contract the client is a map.
    - Detection and repair: the state of a peer is a function of what was heard of it
      ([verdict]); a crash is detected in time; the callbacks follow the deaths and returns
      of a peer, which alternate, but for returns by a manual mark; the ring of a node
      is that of the peers it does not hold dead; a repair pass re-enqueues every chunk
      the node is responsible for, also in a changing environment.
    - Replication: the schedule of a push and its bounds, also under a cancelled context;
      the queue loses and duplicates no job; Stop drains it and terminates.
    - The node: each handler on each branch; stores hold data under their SHA-256 only,
      whatever requests come; downloads succeed as long as every chunk has one readable
      copy, be it a replica or the cold tier; main brings up a node that is ready.
    - The cluster: an uploaded blob survives any failures that leave each chunk a replica.
      For the cluster of the benchmark that is a statement without a condition on the
      state: uploads succeed, and so do the reads after any two kills, if the replication
      is done when the benchmark stops waiting for it and the reads are answered before
      their client's timeout.  Over its life a
      connected cluster loses nothing that was uploaded to a node that is still there,
      however many nodes fail in all, if no outage takes more than two and each is noticed
      and repaired by heartbeats before the next; that it always can be is a lemma.
    - Interleavings: every run of the system is one of the ledger - chunks come from
      clients, under their SHA-256 but for damage, go with a lost disk only, and a push is
      confirmed only where it is stored; the chunks of an indexed manifest are on their way
      to the whole of the replica set that the node looked up, and stay where they
      arrived; a worker takes at most 55 steps per job; every target has an address in
      every order of the callbacks.
    - Downloads: in every interleaving a client receives a prefix of a body uploaded under
      the name, all of it if the download is complete; a download that fails met a damaged
      file, a client that left, or, for one chunk, no copy at any place it asked, each for a
      reason that is recorded; it takes boundedly many steps of its own, and all it can
      wait for is the answer to a request, for which the code sets no time limit.
    - The benchmark's report: the totals of a run are those of its phases and what the
      resets of the counters overwrote.

    ** Conventions, bounds and fuel

    Integers are [Z] or [N] with their wrap-around written out ([wrap64], 64-bit sums and
    products; [time_Sub] saturates); hash positions are [N] below 2^64.  A loop of the
    source that is not structural has a fuel argument and a lemma that the given fuel is
    enough: the readers' [rd_measure], the length of the ring for [GetN], the number of
    bytes for [Split], the length of the text for [parseListKeys].  Errors are values
    ([result], option); panics are [Panics] or [None].  Locks make their critical sections
    atomic steps.  The clock, the answers of the network, the order of a range over a map
    and the outcome of a select are inputs.

    Two grains of the cluster: Goroutines, System and Downloads interleave everything, and
    their theorems hold whatever overlaps; Cluster, Availability and Healing run one
    request, job or pass after the other on stores that are maps - which is what LocalFS
    is in such histories - and can therefore say that something succeeds.

    Collisions: theorems on the ring assume [distinct_points] (no two virtual nodes of the
    nodes at hand share a position), a decidable condition the witnesses evaluate; those on
    data assume of the chunks at hand that SHA-256 does not identify them with other data.

    ** Not modelled

    The listener, signals, the log, the text of a command line and the reports of the
    benchmarks (process I/O and floating point); of benchmarks/availability the starting of
    processes, the polling of their health and the lengths of its sleeps; the JSON encoders
    (parameters); the bodies of redirects, and requests that write dot segments as escapes,
    which the mux does not clean; in System, a crash of the machine that loses what the
    operating system had not written (a crash there is one of the process), other than as
    a damaged file or a lost disk;
    the failure of the Go runtime on a concurrent access to the unguarded map of manifests
    ([manifests_race] exhibits the access; the machine takes it as atomic); in Healing, the
    return of a node and what overlaps an outage (Goroutines, System and Downloads have
    both, with the weaker statements that hold then); the contents of
    the file system beyond files and directories (permissions, links); in URLs, IPv6
    literals and escapes in the authority. *)

From stdpp Require Export prelude gmap strings pretty sorting.
From Stdlib Require Export Strings.Byte.

#[export] Set Warnings "-clear-no-such-hyp".

(** Go's [[]byte]. *)
Abbreviation bytes := (list byte).

#[export] Instance byte_eq_dec : EqDecision byte := Byte.byte_eq_dec.

Declare Scope go_scope.
Delimit Scope go_scope with go.

(** ** First occurrences

    [uniq l] keeps the first occurrence of every element of [l].  Filtering
    commutes with it, which is what the placement theorems of the ring rest on. *)
Fixpoint uniq `{EqDecision A} (l : list A) : list A :=
  match l with
  | [] => []
  | x :: l => x :: filter (λ y, y ≠ x) (uniq l)
  end.

(** The number of elements of [l] that satisfy [P]. *)
Definition count {A} (P : A → Prop) `{∀ x, Decision (P x)} (l : list A) : nat :=
  length (filter P l).

(** The sum of a list of integers. *)
Definition Zsum (l : list Z) : Z := foldr Z.add 0%Z l.

(** ** Tactics *)

(** Splits a hypothesis-laden boolean guard into propositions. *)
Ltac bool_prop :=
  repeat match goal with
  | H : (_ && _) = true |- _ => apply andb_true_iff in H as [? ?]
  | H : (_ && _) = false |- _ => apply andb_false_iff in H
  | H : (_ || _) = false |- _ => apply orb_false_iff in H as [? ?]
  | H : (_ <? _)%Z = true |- _ => apply Z.ltb_lt in H
  | H : (_ <? _)%Z = false |- _ => apply Z.ltb_ge in H
  | H : (_ <=? _)%Z = true |- _ => apply Z.leb_le in H
  | H : (_ <=? _)%Z = false |- _ => apply Z.leb_gt in H
  | H : (_ =? _)%Z = true |- _ => apply Z.eqb_eq in H
  | H : (_ =? _)%Z = false |- _ => apply Z.eqb_neq in H
  | H : (_ <? _)%N = true |- _ => apply N.ltb_lt in H
  | H : (_ <? _)%N = false |- _ => apply N.ltb_ge in H
  | H : (_ <=? _)%N = true |- _ => apply N.leb_le in H
  | H : (_ <=? _)%N = false |- _ => apply N.leb_gt in H
  | H : (_ <? _)%nat = true |- _ => apply Nat.ltb_lt in H
  | H : (_ <? _)%nat = false |- _ => apply Nat.ltb_ge in H
  | H : bool_decide _ = true |- _ => apply bool_decide_eq_true in H
  | H : bool_decide _ = false |- _ => apply bool_decide_eq_false in H
  end.

(** Case analysis on every [match] and [decide] in the goal, then the
    library's simplifier. *)
Ltac crush :=
  repeat (case_match || case_decide); simplify_eq/=; try done; eauto.

(** ** Lemmas on lists *)

Section filter_lemmas.
Context {A : Type}.
Implicit Types (P Q : A → Prop) (l : list A).

Lemma filter_filter_comm P Q `{∀ x, Decision (P x), ∀ x, Decision (Q x)} l :
  filter P (filter Q l) = filter Q (filter P l).
Proof. rewrite !list_filter_filter. apply list_filter_iff. naive_solver. Qed.

(** Two predicates that agree on the elements of [l] filter it alike. *)
Lemma filter_ext_in P Q `{∀ x, Decision (P x), ∀ x, Decision (Q x)} l :
  (∀ x, x ∈ l → P x ↔ Q x) → filter P l = filter Q l.
Proof.
  induction l as [|x l IH]; intros HPQ; [done|].
  rewrite !filter_cons, IH by set_solver.
  assert (P x ↔ Q x) by set_solver. repeat case_decide; naive_solver.
Qed.

Lemma filter_all P `{∀ x, Decision (P x)} l :
  (∀ x, x ∈ l → P x) → filter P l = l.
Proof.
  intros HP. induction l as [|x l IH]; [done|].
  rewrite filter_cons, decide_True by set_solver. f_equal. apply IH. set_solver.
Qed.

Lemma filter_none P `{∀ x, Decision (P x)} l :
  (∀ x, x ∈ l → ¬ P x) → filter P l = [].
Proof.
  intros HP. induction l as [|x l IH]; [done|].
  rewrite filter_cons, decide_False by set_solver. apply IH. set_solver.
Qed.

Lemma take_filter_prefix P `{∀ x, Decision (P x)} l n :
  take n (filter P (take n l)) `prefix_of` take n (filter P l).
Proof.
  rewrite <-(take_drop n l) at 2. rewrite filter_app, take_app.
  by apply prefix_app_r.
Qed.
End filter_lemmas.

Lemma NoDup_omap_inj {A B} (f : A → option B) l :
  NoDup l → (∀ x y z, x ∈ l → y ∈ l → f x = Some z → f y = Some z → x = y) → NoDup (omap f l).
Proof.
  induction 1 as [|x l Hx Hl IH]; intros Hinj; [constructor|]. cbn.
  assert (NoDup (omap f l)) by (apply IH; intros ? ? z ??; apply Hinj; by right).
  destruct (f x) as [z|] eqn:Hf; [|done]. constructor; [|done].
  rewrite list_elem_of_omap. intros (y&Hy&Hfy). apply Hx.
  rewrite (Hinj x y z); [done|by left|by right|done..].
Qed.

Lemma Zsum_app l k : Zsum (l ++ k) = (Zsum l + Zsum k)%Z.
Proof. induction l as [|x l IH]; simpl; [done|]. unfold Zsum in *. simpl. lia. Qed.

Lemma Zsum_nonneg l : Forall (λ x, 0 ≤ x)%Z l → (0 ≤ Zsum l)%Z.
Proof. induction 1; simpl; [done|]. unfold Zsum in *. simpl. lia. Qed.

(** ** Lemmas on [uniq] *)

Section uniq_lemmas.
Context `{EqDecision A}.
Implicit Types (l : list A).

Lemma elem_of_uniq l x : x ∈ uniq l ↔ x ∈ l.
Proof.
  induction l as [|y l IH]; simpl; [done|].
  rewrite !elem_of_cons, list_elem_of_filter, IH. destruct (decide (x = y)); naive_solver.
Qed.

Lemma NoDup_uniq l : NoDup (uniq l).
Proof.
  induction l as [|y l IH]; simpl; constructor.
  - rewrite list_elem_of_filter. naive_solver.
  - by apply NoDup_filter.
Qed.

Lemma filter_uniq (P : A → Prop) `{∀ x, Decision (P x)} l :
  filter P (uniq l) = uniq (filter P l).
Proof.
  induction l as [|x l IH]; [done|].
  simpl uniq at 1. rewrite !filter_cons. case_decide; simpl; rewrite <-IH.
  - by rewrite filter_filter_comm.
  - apply list_filter_filter_l. naive_solver.
Qed.

Lemma uniq_NoDup_id l : NoDup l → uniq l = l.
Proof.
  induction 1 as [|x l Hx Hl IH]; [done|]. simpl. rewrite IH. f_equal.
  apply filter_all. naive_solver.
Qed.

(** The accumulating step of a keep-first loop. *)
Lemma filter_uniq_cons (P : A → Prop) `{∀ x, Decision (P x)} x l :
  filter P (uniq (x :: l)) =
  if decide (P x) then x :: filter (λ y, P y ∧ y ≠ x) (uniq l) else filter P (uniq l).
Proof.
  simpl. rewrite filter_cons. case_decide as HP.
  - f_equal. induction (uniq l) as [|y k IH]; [done|].
    rewrite !filter_cons. rewrite <-IH.
    destruct (decide (y ≠ x)) as [|Hy]; rewrite ?filter_cons; repeat case_decide; naive_solver.
  - apply list_filter_filter_l. naive_solver.
Qed.
End uniq_lemmas.
