(* ===== verification/GoLib.v ===== *)
(** * The Go standard library, as far as the node uses it

    Values and functions of packages [errors], [fmt], [io], [sort], [strings],
    [strconv], [time], [encoding/hex] and [encoding/binary] that appear in the
    sources under src/.  Strings are byte strings ([String.string]), byte slices
    are [bytes], [uint64] is [N] kept below 2^64, [int] and [int64] are [Z]. *)
From S2P Require Import Prelude.
From Stdlib Require Import Strings.Ascii.

(** ** errors and results *)

(** A Go [error] value: [errors.New], [fmt.Errorf] without and with a %w verb.
    The wrapped error of the third is what [errors.Unwrap] returns. *)
Inductive error :=
| errors_New (msg : string)
| fmt_Errorf (msg : string)
| fmt_Errorf_w (msg : string) (wrapped : error).

(** The pair [(value, err)] of a Go function whose caller looks at the value
    only when [err == nil]. *)
Inductive result (A : Type) :=
| Ok (a : A)
| Err (e : error).
Arguments Ok {A} a.
Arguments Err {A} e.

#[export] Instance error_eq_dec : EqDecision error.
Proof. solve_decision. Defined.

#[export] Instance result_eq_dec `{EqDecision A} : EqDecision (result A).
Proof. solve_decision. Defined.

(** [errors.Is(err, target)]: the chain of wrapped errors holds the target. *)
Fixpoint errors_Is (err target : error) : bool :=
  bool_decide (err = target) ||
  match err with fmt_Errorf_w _ w => errors_Is w target | _ => false end.

(** [err.Error()]; in the sources a %w verb comes last, after a colon. *)
Fixpoint error_String (err : error) : string :=
  match err with
  | errors_New msg | fmt_Errorf msg => msg
  | fmt_Errorf_w msg w => msg +:+ ": " +:+ error_String w
  end.

Definition io_EOF : error := errors_New "EOF".
Definition io_ErrUnexpectedEOF : error := errors_New "unexpected EOF".

(** The sequencing of [if err != nil { return err }]. *)
Definition result_bind {A B} (m : result A) (f : A → result B) : result B :=
  match m with Ok a => f a | Err e => Err e end.

Notation "'let?' x ':=' c1 'in' c2" := (result_bind c1 (λ x, c2))
  (at level 10, x pattern, c1 at level 200, c2 at level 200) : go_scope.

(** ** sort *)

(** [sort.Search(n, f)]: the loop halves [i, j); [fuel] bounds its iterations,
    and [n] of them are enough because every one shrinks the interval. *)
Fixpoint Search_loop (f : nat → bool) (fuel i j : nat) : nat :=
  match fuel with
  | O => i
  | S fuel =>
      if (i <? j)%nat then
        let h := ((i + j) / 2)%nat in
        if negb (f h) then Search_loop f fuel (h + 1)%nat j else Search_loop f fuel i h
      else i
  end.

Definition sort_Search (n : nat) (f : nat → bool) : nat := Search_loop f n 0 n.

(** [sort.Slice] on a slice of [uint64] by [<], and [sort.Strings]: the order is
    total and antisymmetric, so every sorting algorithm gives this list. *)
Definition sort_uint64 (l : list N) : list N := merge_sort N.le l.
Definition sort_Strings (l : list string) : list string := merge_sort String.le l.

(** ** strconv and fmt: the decimal text a %d verb prints *)
Definition Itoa (z : Z) : string := pretty z.

(** ** strings *)

Definition bytes_of (s : string) : bytes := String.list_byte_of_string s.
Definition string_of (b : bytes) : string := String.string_of_list_byte b.

(** [strings.TrimPrefix(s, prefix)] and the test it makes. *)
Fixpoint HasPrefix (s prefix : string) {struct prefix} : bool :=
  match prefix, s with
  | EmptyString, _ => true
  | String a p, String b t => bool_decide (a = b) && HasPrefix t p
  | String _ _, EmptyString => false
  end.

Definition TrimPrefix (s prefix : string) : string :=
  if HasPrefix s prefix
  then String.substring (String.length prefix) (String.length s - String.length prefix) s
  else s.

(** [strings.Split(s, c)] for a separator of one byte. *)
Fixpoint Split_char (c : ascii) (s : string) : list string :=
  match s with
  | EmptyString => [""]
  | String a t =>
      if decide (a = c) then "" :: Split_char c t
      else match Split_char c t with
           | [] => [String a ""]
           | x :: xs => String a x :: xs
           end
  end.

(** [strings.TrimSpace], for ASCII text. *)
Definition is_space (c : ascii) : bool :=
  bool_decide (c ∈ (["009"; "010"; "011"; "012"; "013"; " "]%char : list ascii)).

Fixpoint TrimLeft (s : string) : string :=
  match s with
  | EmptyString => EmptyString
  | String c t => if is_space c then TrimLeft t else s
  end.

Fixpoint TrimRight (s : string) : string :=
  match s with
  | EmptyString => EmptyString
  | String c t =>
      match TrimRight t with
      | EmptyString => if is_space c then EmptyString else String c EmptyString
      | t' => String c t'
      end
  end.

Definition TrimSpace (s : string) : string := TrimRight (TrimLeft s).

(** [strings.SplitN(s, c, 2)]: the two parts, or none if the separator does not occur. *)
Fixpoint SplitN2 (c : ascii) (s : string) : option (string * string) :=
  match s with
  | EmptyString => None
  | String a t =>
      if decide (a = c) then Some ("", t)
      else match SplitN2 c t with Some (x, y) => Some (String a x, y) | None => None end
  end.

(** Whether a byte occurs in a string. *)
Fixpoint has_char (c : ascii) (s : string) : bool :=
  match s with
  | EmptyString => false
  | String a t => bool_decide (a = c) || has_char c t
  end.

(** ** encoding/hex and encoding/binary *)

Definition hex_digit (n : N) : ascii :=
  if (n <? 10)%N then ascii_of_N (48 + n) else ascii_of_N (87 + n).

Fixpoint hex_EncodeToString (b : bytes) : string :=
  match b with
  | [] => ""
  | x :: b =>
      String (hex_digit (N.shiftr (Byte.to_N x) 4))
        (String (hex_digit (N.land (Byte.to_N x) 15)) (hex_EncodeToString b))
  end.

(** Big-endian value of a byte list; [binary.BigEndian.Uint64] on eight bytes. *)
Definition be_value (b : bytes) : N :=
  foldl (λ acc x, N.lor (N.shiftl acc 8) (Byte.to_N x)) 0%N b.
Definition BigEndian_Uint64 (b : bytes) : N := be_value (take 8 b).

(** ** time *)

(** A [time.Time] is its monotonic reading in nanoseconds; [t.Sub(u)] saturates
    at the ends of [int64]. *)
Definition min_int64 : Z := (- 2 ^ 63)%Z.
Definition max_int64 : Z := (2 ^ 63 - 1)%Z.
Definition time_Sub (t u : Z) : Z := (min_int64 `max` (max_int64 `min` (t - u)))%Z.
Definition Millisecond : Z := 1000000%Z.
Definition Second : Z := 1000000000%Z.

(** Two's-complement wrap of a 64-bit signed result. *)
Definition wrap64 (z : Z) : Z := ((z + 2 ^ 63) mod 2 ^ 64 - 2 ^ 63)%Z.

(** ** Lemmas *)

Lemma result_bind_Ok {A B} (m : result A) (f : A → result B) b :
  result_bind m f = Ok b ↔ ∃ a, m = Ok a ∧ f a = Ok b.
Proof. destruct m; naive_solver. Qed.

Lemma errors_Is_refl e : errors_Is e e = true.
Proof. destruct e; cbn [errors_Is]; by rewrite bool_decide_eq_true_2. Qed.

Section search.
Variables (f : nat → bool) (n : nat).
Hypothesis f_mono : ∀ i j, i ≤ j → j < n → f i = true → f j = true.

Lemma Search_loop_spec fuel i j r :
  i ≤ j → j ≤ n → j - i ≤ fuel → (∀ k, k < i → f k = false) → r = Search_loop f fuel i j →
  (i ≤ r ∧ r ≤ j) ∧ (∀ k, k < r → f k = false) ∧ (∀ k, r ≤ k → k < j → f k = true).
Proof.
  revert i j. induction fuel as [|fuel IH]; intros i j Hij Hjn Hfuel Hlo; cbn [Search_loop].
  { intros ->. split_and!; [lia..|done|lia]. }
  destruct (Nat.ltb_spec i j) as [Hlt|Hge]; [|intros ->; split_and!; [lia..|done|lia]].
  set (h := ((i + j) `div` 2)%nat).
  assert (i ≤ h < j) as [Hih Hhj].
  { unfold h. pose proof (Nat.div_mod_eq (i + j) 2).
    pose proof (Nat.mod_upper_bound (i + j) 2). lia. }
  destruct (f h) eqn:Hf; cbn [negb]; intros Hr.
  - destruct (IH i h) as ([??]&?&Htrue); [lia..|done|done|].
    split_and!; [lia..|done|]. intros k Hrk Hkj.
    destruct (decide (k < h)); [by apply Htrue|]. apply f_mono with h; [lia..|done].
  - destruct (IH (h + 1)%nat j) as ([??]&?&?); [lia..| |done|split_and!; [lia..|done|done]].
    intros k Hk. destruct (f k) eqn:Hfk; [|done].
    rewrite (f_mono k h) in Hf; [done|lia..|done].
Qed.

(** [sort.Search] returns the least index with [f], or [n]. *)
Lemma sort_Search_spec :
  sort_Search n f ≤ n ∧
  (∀ k, k < sort_Search n f → f k = false) ∧
  (∀ k, sort_Search n f ≤ k → k < n → f k = true).
Proof.
  destruct (Search_loop_spec n 0 n (sort_Search n f)) as ([??]&?&?); [lia..|done|done].
Qed.
End search.

Lemma sort_uint64_perm l : sort_uint64 l ≡ₚ l.
Proof. apply merge_sort_Permutation. Qed.

Lemma sort_uint64_sorted l : StronglySorted N.le (sort_uint64 l).
Proof. apply StronglySorted_merge_sort; apply _. Qed.

Lemma sorted_unique (l k : list N) :
  StronglySorted N.le l → StronglySorted N.le k → l ≡ₚ k → l = k.
Proof. apply StronglySorted_unique; apply _. Qed.

(** Sorting forgets the order of its argument. *)
Lemma sort_Strings_unique l k : l ≡ₚ k → sort_Strings l = sort_Strings k.
Proof.
  intros Hlk. apply (StronglySorted_unique String.le); try apply StronglySorted_merge_sort; try apply _.
  unfold sort_Strings. by rewrite !merge_sort_Permutation.
Qed.

Lemma bytes_of_string_of b : bytes_of (string_of b) = b.
Proof. apply String.list_byte_of_string_of_list_byte. Qed.

Lemma string_of_bytes_of s : string_of (bytes_of s) = s.
Proof. apply String.string_of_list_byte_of_string. Qed.

Lemma substring_0_length s : String.substring 0 (String.length s) s = s.
Proof. induction s as [|a s IH]; [done|]. simpl. by rewrite IH. Qed.

Lemma HasPrefix_app p s : HasPrefix (p +:+ s) p = true.
Proof. induction p as [|a p IH]; [done|]. simpl. by rewrite bool_decide_eq_true_2. Qed.

Lemma TrimPrefix_app p s : TrimPrefix (p +:+ s) p = s.
Proof.
  unfold TrimPrefix. rewrite HasPrefix_app.
  induction p as [|a p IH]; [|exact IH].
  cbn [String.append String.length]. rewrite Nat.sub_0_r. apply substring_0_length.
Qed.

Lemma TrimPrefix_other p s : HasPrefix s p = false → TrimPrefix s p = s.
Proof. unfold TrimPrefix. by intros ->. Qed.

Lemma time_Sub_small t u :
  (min_int64 ≤ t - u ≤ max_int64)%Z → time_Sub t u = (t - u)%Z.
Proof. unfold time_Sub. lia. Qed.

Lemma time_Sub_mono t t' u : (t ≤ t')%Z → (time_Sub t u ≤ time_Sub t' u)%Z.
Proof. unfold time_Sub. lia. Qed.

Lemma hex_EncodeToString_length b :
  String.length (hex_EncodeToString b) = 2 * length b.
Proof. induction b as [|x b IH]; simpl; [done|]. rewrite IH. lia. Qed.

Lemma Split_char_none c s : has_char c s = false → Split_char c s = [s].
Proof.
  induction s as [|a s IH]; cbn [has_char Split_char]; [done|].
  intros [Ha Hs]%orb_false_iff. apply bool_decide_eq_false in Ha.
  by rewrite decide_False, IH.
Qed.

Definition no_space (s : string) : Prop := ∀ c, c ∈ String.list_ascii_of_string s → is_space c = false.

Lemma TrimLeft_none s : no_space s → TrimLeft s = s.
Proof. destruct s as [|c t]; [done|]. intros Hs. cbn [TrimLeft]. rewrite (Hs c); [done|by left]. Qed.

Lemma TrimRight_none s : no_space s → TrimRight s = s.
Proof.
  induction s as [|c t IH]; intros Hs; [done|]. cbn [TrimRight].
  rewrite IH by (intros x Hx; apply Hs; by right). rewrite (Hs c) by by left. by destruct t.
Qed.

Lemma SplitN2_first c x y : has_char c x = false → SplitN2 c (x +:+ String c y) = Some (x, y).
Proof.
  induction x as [|a x IH]; intros Hx; simpl.
  - by rewrite decide_True.
  - cbn [has_char] in Hx. apply orb_false_iff in Hx as [Ha Hx]. apply bool_decide_eq_false in Ha.
    by rewrite decide_False, IH.
Qed.

Lemma Split_char_first c x y : has_char c x = false → Split_char c (x +:+ String c y) = x :: Split_char c y.
Proof.
  induction x as [|a x IH]; intros Hx; simpl.
  - by rewrite decide_True.
  - cbn [has_char] in Hx. apply orb_false_iff in Hx as [Ha Hx]. apply bool_decide_eq_false in Ha.
    by rewrite decide_False, IH.
Qed.

Lemma list_ascii_of_string_app s t :
  String.list_ascii_of_string (s +:+ t) =
  String.list_ascii_of_string s ++ String.list_ascii_of_string t.
Proof. induction s as [|a s IH]; simpl; [done|]. by rewrite IH. Qed.

Lemma has_char_app c s t : has_char c (s +:+ t) = has_char c s || has_char c t.
Proof.
  induction s as [|a s IH]; [done|]. simpl. by rewrite IH, orb_assoc.
Qed.

(** The characters of a decimal numeral. *)
Lemma pretty_N_go_chars (P : ascii → Prop) x s :
  (∀ n, P (pretty_N_char n)) → (∀ c, c ∈ String.list_ascii_of_string s → P c) →
  ∀ c, c ∈ String.list_ascii_of_string (pretty_N_go x s) → P c.
Proof.
  intros HP. revert s. induction (N.lt_wf_0 x) as [x _ IH]; intros s Hs.
  destruct (decide (x = 0)%N) as [->|Hx]; [by rewrite pretty_N_go_0|].
  rewrite pretty_N_go_step by lia. apply IH; [apply N.div_lt; lia|].
  cbn [String.list_ascii_of_string]. intros c [->|Hc]%elem_of_cons; [apply HP|by apply Hs].
Qed.

Lemma Itoa_nat_chars (P : ascii → Prop) i :
  (∀ n, P (pretty_N_char n)) → ∀ c, c ∈ String.list_ascii_of_string (Itoa (Z.of_nat i)) → P c.
Proof.
  intros HP. unfold Itoa, pretty, pretty_Z. destruct (Z.of_nat i) as [|p|p] eqn:Hi; [|idtac|lia].
  - intros c Hc. apply list_elem_of_singleton in Hc as ->. apply (HP 0%N).
  - unfold pretty, pretty_positive, pretty, pretty_N. rewrite decide_False by done.
    apply pretty_N_go_chars; [done|]. by intros c ?%elem_of_nil.
Qed.

Lemma has_char_elem c s : has_char c s = false ↔ c ∉ String.list_ascii_of_string s.
Proof.
  induction s as [|a s IH]; cbn [has_char String.list_ascii_of_string]; [split; [by intros _ ?%elem_of_nil|done]|].
  rewrite orb_false_iff, bool_decide_eq_false, IH, not_elem_of_cons. naive_solver.
Qed.

Lemma has_char_Itoa c i : (∀ n, pretty_N_char n ≠ c) → has_char c (Itoa (Z.of_nat i)) = false.
Proof. intros Hc. apply has_char_elem. intros Hin. by apply (Itoa_nat_chars (λ x, x ≠ c)) in Hin. Qed.

Lemma no_space_Itoa i : no_space (Itoa (Z.of_nat i)).
Proof.
  refine (Itoa_nat_chars (λ c, is_space c = false) i _). intros n. unfold pretty_N_char. by repeat case_match.
Qed.

(** No hexadecimal digit is a separator or a dot. *)
Lemma has_char_hex c b :
  (∀ n, (n < 16)%N → hex_digit n ≠ c) → has_char c (hex_EncodeToString b) = false.
Proof.
  intros Hc. induction b as [|x b IH]; [done|]. cbn [hex_EncodeToString has_char].
  rewrite IH, !bool_decide_eq_false_2; [done|apply Hc..].
  - change 15%N with (N.ones 4). rewrite N.land_ones. by apply N.mod_lt.
  - rewrite N.shiftr_div_pow2. apply N.Div0.div_lt_upper_bound.
    pose proof (Byte.to_N_bounded x). change (2 ^ 4 * 16)%N with 256%N. lia.
Qed.
