(* ===== verification/GoIO.v ===== *)
(** * Package io: readers and writers

    A reader is what its successive [Read] calls return: a list of segments, each
    delivered over one or more calls depending on the buffer, then an error that is
    returned from then on.  An eager reader returns the error together with the
    last byte, as HTTP bodies do; a lazy one returns it from the next call.  Empty
    segments are calls that return (0, nil).  [ReadFull] and [ReadAll] are the
    functions of the library, with the fuel a reader needs. *)
From S2P Require Import Prelude GoLib.

Record Reader := MkReader {
  rd_segs : list bytes;
  rd_err : error;
  rd_eager : bool;
}.

(** The bytes a reader still has. *)
Definition content (r : Reader) : bytes := concat (rd_segs r).

(** One call [r.Read(buf)] with [len(buf) = p]. *)
Definition Read (r : Reader) (p : nat) : bytes * option error * Reader :=
  match rd_segs r with
  | [] => ([], Some (rd_err r), r)
  | seg :: segs =>
      let segs' := match drop p seg with [] => segs | more => more :: segs end in
      (take p seg,
       if rd_eager r && bool_decide (segs' = []) then Some (rd_err r) else None,
       MkReader segs' (rd_err r) (rd_eager r))
  end.

(** Calls a reader can answer without its error; every call but the last makes it
    smaller, so it bounds the loops below. *)
Definition rd_measure (r : Reader) : nat := sum_list_with (λ s, S (length s)) (rd_segs r).

(** [io.ReadFull(r, buf)] with [len(buf) = want]: the bytes read and the error. *)
Fixpoint ReadFull_loop (fuel want : nat) (acc : bytes) (err : option error) (r : Reader) :
    bytes * option error * Reader :=
  match fuel with
  | O => (acc, err, r)
  | S fuel =>
      if (length acc <? want)%nat && bool_decide (err = None) then
        let '(got, err, r) := Read r (want - length acc) in
        ReadFull_loop fuel want (acc ++ got) err r
      else (acc, err, r)
  end.

Definition ReadFull (r : Reader) (want : nat) : bytes * option error * Reader :=
  let '(acc, err, r) := ReadFull_loop (S (rd_measure r)) want [] None r in
  let err :=
    if (want <=? length acc)%nat then None
    else if (0 <? length acc)%nat && bool_decide (err = Some io_EOF)
    then Some io_ErrUnexpectedEOF else err in
  (acc, err, r).

(** [io.ReadAll(r)]: reads to the end; [io.EOF] is not an error.  The library grows
    a buffer of 512 bytes; the bytes and the error do not depend on its size. *)
Fixpoint ReadAll_loop (fuel : nat) (acc : bytes) (r : Reader) : bytes * option error :=
  match fuel with
  | O => (acc, None)
  | S fuel =>
      let '(got, err, r) := Read r 512 in
      let acc := acc ++ got in
      match err with
      | Some e => (acc, if decide (e = io_EOF) then None else Some e)
      | None => ReadAll_loop fuel acc r
      end
  end.

Definition ReadAll (r : Reader) : result bytes :=
  match ReadAll_loop (S (rd_measure r)) [] r with
  | (data, None) => Ok data
  | (_, Some e) => Err e
  end.

(** [io.Writer]: the error of one [Write] and the writer after it, with what a
    writer promises: a successful call appends its argument to what was written,
    a failed one at most a prefix of it. *)
Class Writer (W : Type) := {
  w_write : W → bytes → option error * W;
  written : W → bytes;
  write_ok w b w' : w_write w b = (None, w') → written w' = written w ++ b;
  write_err w b e w' :
    w_write w b = (Some e, w') → ∃ k, written w' = written w ++ take k b;
}.

(** [bytes.Buffer], whose [Write] never fails. *)
#[export, program] Instance Buffer : Writer bytes := {|
  w_write w b := (None, w ++ b);
  written w := w;
|}.
Next Obligation. naive_solver. Qed.
Next Obligation. naive_solver. Qed.

(** ** Reading *)

Lemma Read_spec r p got err r' :
  0 < p → Read r p = (got, err, r') →
  content r = got ++ content r' ∧ length got ≤ p ∧
  rd_err r' = rd_err r ∧ rd_eager r' = rd_eager r ∧
  (err = None ∧ rd_measure r' < rd_measure r ∨ err = Some (rd_err r) ∧ content r' = []).
Proof.
  intros Hp. unfold Read, content, rd_measure.
  destruct r as [[|seg segs] e eager]; simpl; intros [= <- <- <-]; simpl.
  { split_and!; auto with lia. }
  split_and!; [| |done|done|].
  - rewrite <-(take_drop p seg) at 1. rewrite <-(assoc_L (++)). f_equal.
    by destruct (drop p seg).
  - rewrite length_take. lia.
  - assert (length (drop p seg) = length seg - p) as Hd by apply length_drop.
    destruct eager; simpl; [case_bool_decide as Hs|]; [right|left|left].
    + split; [done|]. by rewrite Hs.
    + split; [done|]. destruct (drop p seg); simpl in *; lia.
    + split; [done|]. destruct (drop p seg); simpl in *; lia.
Qed.

Lemma ReadFull_loop_spec fuel want acc err r :
  rd_measure r < fuel ∨ content r = [] ∧ err ≠ None → length acc ≤ want →
  (err = None ∨ err = Some (rd_err r) ∧ content r = []) →
  ∃ err' r', ReadFull_loop fuel want acc err r =
      (acc ++ take (want - length acc) (content r), err', r') ∧
    content r' = drop (want - length acc) (content r) ∧
    rd_err r' = rd_err r ∧ rd_eager r' = rd_eager r ∧
    (length acc + length (content r) < want → err' = Some (rd_err r)).
Proof.
  revert acc err r. induction fuel as [|fuel IH]; intros acc err r Hfuel Hacc Herr; cbn [ReadFull_loop].
  { destruct Hfuel as [|[Hc He]]; [lia|]. destruct Herr as [|[-> _]]; [done|].
    exists (Some (rd_err r)), r. rewrite Hc, take_nil, drop_nil, app_nil_r. done. }
  destruct (Nat.ltb_spec (length acc) want) as [Hlt|Hge]; cbn [andb]; last first.
  { exists err, r. replace (want - length acc) with 0 by lia.
    rewrite take_0, drop_0, app_nil_r. split_and!; auto with lia. }
  destruct Herr as [->|[-> Hc]]; last first.
  { exists (Some (rd_err r)), r. rewrite bool_decide_eq_false_2 by done.
    by rewrite Hc, take_nil, drop_nil, app_nil_r. }
  rewrite bool_decide_eq_true_2 by done.
  destruct (Read r (want - length acc)) as [[got err] r'] eqn:HR.
  apply Read_spec in HR as (Hc&Hgot&He&Hg&Hcase); [|lia].
  destruct (IH (acc ++ got) err r') as (err'&r''&->&Hc'&He'&Hg'&Hlt').
  - destruct Hcase as [[-> ?]|[-> ?]]; [left; destruct Hfuel as [|[? ?]]; [lia|done]|by right].
  - rewrite length_app. lia.
  - rewrite He. naive_solver.
  - exists err', r''. rewrite Hc, take_app, drop_app, Hc', length_app.
    replace (want - (length acc + length got)) with (want - length acc - length got) by lia.
    rewrite (take_ge got), (drop_ge got), (assoc_L (++)) by lia.
    rewrite length_app in Hlt'. rewrite length_app.
    split_and!; [done|done|congruence|congruence|]. rewrite <-He. intros. apply Hlt'. lia.
Qed.

(** [ReadFull] takes the next [want] bytes; short of them, it reports the reader's
    error, an EOF after some bytes as [io.ErrUnexpectedEOF]. *)
Lemma ReadFull_spec r want :
  ∃ r', ReadFull r want =
      (take want (content r),
       if decide (want ≤ length (content r)) then None
       else if decide (content r ≠ [] ∧ rd_err r = io_EOF) then Some io_ErrUnexpectedEOF
       else Some (rd_err r), r') ∧
    content r' = drop want (content r) ∧ rd_err r' = rd_err r ∧ rd_eager r' = rd_eager r.
Proof.
  unfold ReadFull.
  destruct (ReadFull_loop_spec (S (rd_measure r)) want [] None r)
    as (err&r'&->&Hc&He&Hg&Hlt); [simpl; auto with lia..|].
  cbn [length app] in *. rewrite Nat.sub_0_r in *. exists r'. split; [|done].
  do 2 f_equal. rewrite length_take.
  destruct (Nat.leb_spec want (want `min` length (content r))), (decide (want ≤ length (content r)));
    try lia; [done|].
  rewrite Hlt by lia. destruct (content r) as [|b c] eqn:Hcr; cbn [length] in *.
  - rewrite Nat.min_0_r. cbn. case_decide; naive_solver.
  - destruct (Nat.ltb_spec 0 (want `min` S (length c))); [|lia]. cbn [andb].
    repeat (case_bool_decide || case_decide); destruct_and?; simplify_eq; naive_solver congruence.
Qed.

(** Chunked reading has one result: the content when the reader ends in EOF. *)
Lemma ReadAll_loop_spec fuel acc r :
  rd_measure r < fuel →
  ReadAll_loop fuel acc r =
    (acc ++ content r, if decide (rd_err r = io_EOF) then None else Some (rd_err r)).
Proof.
  revert acc r. induction fuel as [|fuel IH]; intros acc r Hf; [lia|]. cbn [ReadAll_loop].
  destruct (Read r 512) as [[got err] r'] eqn:HR.
  apply Read_spec in HR as (Hc&_&He&_&[[-> Hm]|[-> Hm]]); [| |lia].
  - rewrite IH, He by lia. by rewrite Hc, (assoc_L (++)).
  - by rewrite Hc, Hm, app_nil_r.
Qed.

Lemma ReadAll_spec r :
  ReadAll r = if decide (rd_err r = io_EOF) then Ok (content r) else Err (rd_err r).
Proof. unfold ReadAll. rewrite ReadAll_loop_spec by lia. by case_decide. Qed.
