(* ===== verification/GoNet.v ===== *)
(** * net/url, net/http and time: what the S3 client uses of them

    Percent-encoding and decoding, the parser of URLs, query values, header maps, the
    request [http.NewRequest] makes, and the two formats of a time.  Characters are
    bytes, as in Go.  Left out: IPv6 literals and escapes in the authority of a URL,
    which the parser here refuses and Go accepts in some forms, and the quoted text of
    the messages of package url. *)
From S2P Require Import Prelude GoLib.
From Stdlib Require Import Strings.Ascii.

(** ** strings *)

(** [strings.Index(s, sub)], [None] for -1. *)
Fixpoint Index (s sub : string) : option nat :=
  if HasPrefix s sub then Some 0
  else match s with
       | EmptyString => None
       | String _ t => S <$> Index t sub
       end.

(** [s[i:]] and [s[:i]]. *)
Fixpoint slice_from (i : nat) (s : string) : string :=
  match i, s with S i, String _ t => slice_from i t | _, _ => s end.
Fixpoint slice_to (i : nat) (s : string) : string :=
  match i, s with S i, String c t => String c (slice_to i t) | _, _ => "" end.

(** [strings.ReplaceAll(s, old, new)] for a non-empty [old]; [skip] counts the bytes of
    a match that are still to be passed over. *)
Fixpoint ReplaceAll_from (old new : string) (skip : nat) (s : string) : string :=
  match s with
  | EmptyString => ""
  | String c t =>
      match skip with
      | S skip => ReplaceAll_from old new skip t
      | O =>
          if HasPrefix s old then new +:+ ReplaceAll_from old new (String.length old - 1) t
          else String c (ReplaceAll_from old new 0 t)
      end
  end.
Definition ReplaceAll (s old new : string) : string := ReplaceAll_from old new 0 s.

(** [strings.Join(elems, sep)] *)
Fixpoint Join (elems : list string) (sep : string) : string :=
  match elems with
  | [] => ""
  | [x] => x
  | x :: elems => x +:+ sep +:+ Join elems sep
  end.

(** [strings.Cut(s, c)]: the parts before and after the separator. *)
Definition Cut (c : ascii) (s : string) : string * string := default (s, "") (SplitN2 c s).

Definition in_range (lo hi c : ascii) : bool :=
  (N_of_ascii lo <=? N_of_ascii c)%N && (N_of_ascii c <=? N_of_ascii hi)%N.
Definition is_lower (c : ascii) : bool := in_range "a" "z" c.
Definition is_upper (c : ascii) : bool := in_range "A" "Z" c.
Definition is_digit (c : ascii) : bool := in_range "0" "9" c.
Definition is_letter (c : ascii) : bool := is_lower c || is_upper c.

Definition lower_char (c : ascii) : ascii :=
  if is_upper c then ascii_of_N (N_of_ascii c + 32) else c.
Definition upper_char (c : ascii) : ascii :=
  if is_lower c then ascii_of_N (N_of_ascii c - 32) else c.

Fixpoint str_map (f : ascii → ascii) (s : string) : string :=
  match s with EmptyString => "" | String c t => String (f c) (str_map f t) end.

(** [strings.ToLower], for ASCII text. *)
Definition ToLower (s : string) : string := str_map lower_char s.

Definition str_forallb (P : ascii → bool) (s : string) : bool :=
  forallb P (String.list_ascii_of_string s).
Definition one_of (l : string) (c : ascii) : bool := has_char c l.

(** The line break of Go's ["\n"]. *)
Definition newline : string := String "010" "".

(** ** net/url: escaping *)

Definition unreserved (c : ascii) : bool := is_letter c || is_digit c || one_of "-_.~" c.

Definition upperhex (n : N) : ascii :=
  if (n <? 10)%N then ascii_of_N (48 + n) else ascii_of_N (55 + n).

Definition unhex (c : ascii) : option N :=
  if is_digit c then Some (N_of_ascii c - 48)%N
  else if in_range "a" "f" c then Some (N_of_ascii c - 87)%N
  else if in_range "A" "F" c then Some (N_of_ascii c - 55)%N
  else None.

Definition percent (c : ascii) (t : string) : string :=
  String "%" (String (upperhex (N_of_ascii c / 16)) (String (upperhex (N_of_ascii c mod 16)) t)).

Fixpoint escape (keep : ascii → bool) (s : string) : string :=
  match s with
  | EmptyString => ""
  | String c t => if keep c then String c (escape keep t) else percent c (escape keep t)
  end.

(** [url.PathEscape], mode [encodePathSegment] of [shouldEscape]. *)
Definition segment_char (c : ascii) : bool := unreserved c || one_of "$&+:=@" c.
Definition PathEscape (s : string) : string := escape segment_char s.

Fixpoint QueryEscape (s : string) : string :=
  match s with
  | EmptyString => ""
  | String c t =>
      if decide (c = " "%char) then String "+" (QueryEscape t)
      else if unreserved c then String c (QueryEscape t) else percent c (QueryEscape t)
  end.

Definition EscapeError : error := errors_New "invalid URL escape".

(** [unescape]; [plus] in the mode of query components, where a plus sign is a space. *)
Fixpoint unescape (plus : bool) (s : string) : result string :=
  match s with
  | EmptyString => Ok ""
  | String c t =>
      if decide (c = "%"%char) then
        match t with
        | String a (String b t') =>
            match unhex a, unhex b with
            | Some x, Some y =>
                result_bind (unescape plus t') (λ r, Ok (String (ascii_of_N (16 * x + y)) r))
            | _, _ => Err EscapeError
            end
        | _ => Err EscapeError
        end
      else
        let c := if plus && bool_decide (c = "+"%char) then " "%char else c in
        result_bind (unescape plus t) (λ r, Ok (String c r))
  end.

(** ** net/url: parsing *)

Record URL := MkURL {
  u_Scheme : string;
  u_Host : string;
  u_Path : string;
  u_RawQuery : string;
}.

Definition is_ctl (c : ascii) : bool := (N_of_ascii c <? 32)%N || bool_decide (N_of_ascii c = 127%N).

(** [getScheme]: the scheme, without its colon, and the rest. *)
Fixpoint getScheme_from (pre rest raw : string) : result (string * string) :=
  match rest with
  | EmptyString => Ok ("", raw)
  | String c t =>
      if is_letter c then getScheme_from (pre +:+ String c "") t raw
      else if is_digit c || one_of "+-." c then
        if decide (pre = "") then Ok ("", raw) else getScheme_from (pre +:+ String c "") t raw
      else if decide (c = ":"%char) then
        if decide (pre = "") then Err (errors_New "missing protocol scheme") else Ok (pre, t)
      else Ok ("", raw)
  end.

Definition userinfo_char (c : ascii) : bool :=
  is_letter c || is_digit c || one_of "-._:~!$&'()*+,;=%@" c.
Definition host_char (c : ascii) : bool :=
  unreserved c || one_of "!$&'()*+,;=:<>" c || bool_decide (c = "034"%char) || (128 <=? N_of_ascii c)%N.

(** The parts around the last occurrence of a byte. *)
Fixpoint CutLast (c : ascii) (s : string) : option (string * string) :=
  match s with
  | EmptyString => None
  | String a t =>
      match CutLast c t with
      | Some (x, y) => Some (String a x, y)
      | None => if decide (a = c) then Some ("", t) else None
      end
  end.

Definition parseHost (host : string) : result string :=
  let port := match CutLast ":" host with Some (_, p) => p | None => "" end in
  if negb (str_forallb is_digit port) then Err (errors_New "invalid port after host")
  else if str_forallb host_char host then Ok host
  else Err (errors_New "invalid character in host name").

(** [parseAuthority]; the user information is checked and dropped. *)
Definition parseAuthority (authority : string) : result string :=
  match CutLast "@" authority with
  | None => parseHost authority
  | Some (userinfo, host) =>
      result_bind (parseHost host) (λ host,
      if negb (str_forallb userinfo_char userinfo) then Err (errors_New "net/url: invalid userinfo")
      else result_bind (unescape false userinfo) (λ _, Ok host))
  end.

(** [url.Parse], for a text that is neither empty nor a star. *)
Definition url_Parse (raw : string) : result URL :=
  let '(u, frag) := Cut "#" raw in
  if negb (str_forallb (λ c, negb (is_ctl c)) u)
  then Err (errors_New "net/url: invalid control character in URL")
  else
    result_bind (getScheme_from "" u u) (λ '(scheme, rest),
    let scheme := ToLower scheme in
    let '(rest, query) := Cut "?" rest in
    result_bind
      (if negb (HasPrefix rest "/") then
         if decide (scheme ≠ "") then Ok (MkURL scheme "" "" query)
         else if has_char ":" (Cut "/" rest).1
         then Err (errors_New "first path segment in URL cannot contain colon")
         else result_bind (unescape false rest) (λ path, Ok (MkURL scheme "" path query))
       else if (bool_decide (scheme ≠ "") || negb (HasPrefix rest "///")) && HasPrefix rest "//" then
         let authority := slice_from 2 rest in
         let '(authority, rest) :=
           match Index authority "/" with
           | Some i => (slice_to i authority, slice_from i authority)
           | None => (authority, "")
           end in
         result_bind (parseAuthority authority) (λ host,
         result_bind (unescape false rest) (λ path, Ok (MkURL scheme host path query)))
       else result_bind (unescape false rest) (λ path, Ok (MkURL scheme "" path query)))
      (λ url, result_bind (unescape false frag) (λ _, Ok url))).

(** ** net/url: query values *)

Abbreviation Values := (gmap string (list string)).

(** One pair of [parseQuery]; a malformed one is skipped. *)
Definition parseQuery_pair (m : Values) (pair : string) : Values :=
  if has_char ";" pair then m
  else if decide (pair = "") then m
  else
    let '(key, value) := Cut "=" pair in
    match unescape true key, unescape true value with
    | Ok key, Ok value => <[key := default [] (m !! key) ++ [value]]> m
    | _, _ => m
    end.

(** [u.Query()] *)
Definition URL_Query (u : URL) : Values := foldl parseQuery_pair ∅ (Split_char "&" (u_RawQuery u)).

Definition Values_Set (key value : string) (v : Values) : Values := <[key := [value]]> v.

(** [v.Encode()]: the pairs, sorted by key. *)
Definition Values_Encode (v : Values) : string :=
  Join (sort_Strings (map_to_list v).*1 ≫= λ k,
          (λ x, QueryEscape k +:+ "=" +:+ QueryEscape x) <$> default [] (v !! k)) "&".

(** ** net/http: headers and requests *)

Abbreviation Header := (gmap string (list string)).

(** [textproto.CanonicalMIMEHeaderKey], for a valid header name. *)
Fixpoint canonical_from (upper : bool) (s : string) : string :=
  match s with
  | EmptyString => ""
  | String c t =>
      String (if upper then upper_char c else lower_char c) (canonical_from (bool_decide (c = "-"%char)) t)
  end.
Definition CanonicalHeaderKey (s : string) : string := canonical_from true s.

Definition Header_Set (key value : string) (h : Header) : Header := <[CanonicalHeaderKey key := [value]]> h.
Definition Header_Get (key : string) (h : Header) : string :=
  match h !! CanonicalHeaderKey key with Some (v :: _) => v | _ => "" end.

Record HTTPRequest := MkHTTPRequest {
  hr_Method : string;
  hr_URL : URL;
  hr_Header : Header;
  hr_Body : bytes;
}.

Definition set_Header (h : Header) (r : HTTPRequest) : HTTPRequest :=
  MkHTTPRequest (hr_Method r) (hr_URL r) h (hr_Body r).
Definition set_RawQuery (q : string) (r : HTTPRequest) : HTTPRequest :=
  let u := hr_URL r in
  MkHTTPRequest (hr_Method r) (MkURL (u_Scheme u) (u_Host u) (u_Path u) q) (hr_Header r) (hr_Body r).

(** [removeEmptyPort] *)
Definition removeEmptyPort (host : string) : string :=
  match CutLast ":" host with Some (h, "") => h | _ => host end.

(** [http.NewRequest(method, url, body)] for a valid method; a nil body is an empty one. *)
Definition http_NewRequest (method url : string) (body : bytes) : result HTTPRequest :=
  result_bind (url_Parse url) (λ u,
  Ok (MkHTTPRequest method (MkURL (u_Scheme u) (removeEmptyPort (u_Host u)) (u_Path u) (u_RawQuery u))
        ∅ body)).

(** ** time: a UTC reading of the clock and two formats of it *)

Record UTC := MkUTC { year : N; month : N; day : N; hour : N; minute : N; second : N }.

(** [n] in [w] decimal digits. *)
Fixpoint zero_padded (w : nat) (n : N) : string :=
  match w with
  | O => ""
  | S w => zero_padded w (n / 10) +:+ String (ascii_of_N (48 + n mod 10)) ""
  end.

(** [t.Format("20060102")] and [t.Format("20060102T150405Z")], for a year of four digits. *)
Definition Format_date (t : UTC) : string :=
  zero_padded 4 (year t) +:+ zero_padded 2 (month t) +:+ zero_padded 2 (day t).
Definition Format_amz (t : UTC) : string :=
  Format_date t +:+ "T" +:+
  zero_padded 2 (hour t) +:+ zero_padded 2 (minute t) +:+ zero_padded 2 (second t) +:+ "Z".

(** ** Lemmas on strings *)

#[local] Arguments String.append !_ _ : simpl nomatch.

Lemma append_assoc (s t u : string) : (s +:+ t) +:+ u = s +:+ t +:+ u.
Proof. induction s as [|c s IH]; [done|]. cbn [String.append]. by rewrite IH. Qed.

Lemma append_nil (s : string) : s +:+ "" = s.
Proof. induction s as [|c s IH]; [done|]. cbn [String.append]. by rewrite IH. Qed.

Lemma length_append (s t : string) : String.length (s +:+ t) = String.length s + String.length t.
Proof. induction s as [|c s IH]; [done|]. cbn [String.append String.length]. by rewrite IH. Qed.

Lemma slice_to_append s t : slice_to (String.length s) (s +:+ t) = s.
Proof. induction s as [|c s IH]; [by destruct t|]. cbn [String.append String.length slice_to]. by rewrite IH. Qed.

Lemma slice_from_append s t : slice_from (String.length s) (s +:+ t) = t.
Proof. by induction s as [|c s IH]. Qed.

Lemma slice_from_append_add s t i : slice_from (String.length s + i) (s +:+ t) = slice_from i t.
Proof. by induction s as [|c s IH]. Qed.

Lemma has_char_slice_to c n s : has_char c s = false → has_char c (slice_to n s) = false.
Proof.
  revert n. induction s as [|a s IH]; intros [|n]; [done..|]. cbn [has_char slice_to].
  intros [-> Hs]%orb_false_iff. by rewrite IH.
Qed.

Lemma str_forallb_append P s t : str_forallb P (s +:+ t) = str_forallb P s && str_forallb P t.
Proof. unfold str_forallb. by rewrite list_ascii_of_string_app, forallb_app. Qed.

Lemma str_forallb_cons P c s : str_forallb P (String c s) = P c && str_forallb P s.
Proof. done. Qed.

Lemma str_forallb_impl P Q s :
  (∀ c, P c = true → Q c = true) → str_forallb P s = true → str_forallb Q s = true.
Proof.
  intros HPQ. unfold str_forallb. rewrite !forallb_forall. intros HP c Hc. by apply HPQ, HP.
Qed.

(** A byte outside a class does not occur in a text of the class. *)
Lemma str_forallb_has_char P c s : P c = false → str_forallb P s = true → has_char c s = false.
Proof.
  intros Hc. induction s as [|a s IH]; [done|]. rewrite str_forallb_cons. intros [Ha Hs]%andb_true_iff.
  cbn [has_char]. rewrite IH, bool_decide_eq_false_2 by congruence. done.
Qed.

(** A match that starts in [s] and reaches a byte [p] does not have lies in [s]. *)
Lemma HasPrefix_within s c u p :
  has_char c p = false → HasPrefix (s +:+ String c u) p = true → HasPrefix s p = true.
Proof.
  revert p. induction s as [|a s IH]; intros [|b p]; try done; cbn [has_char String.append HasPrefix].
  - intros [Hb _]%orb_false_iff [Hc _]%andb_true_iff.
    apply bool_decide_eq_false in Hb. apply bool_decide_eq_true in Hc. done.
  - intros [_ Hp]%orb_false_iff [Hb Hs]%andb_true_iff. rewrite Hb. by apply IH.
Qed.

Lemma Index_prefix s p : HasPrefix s p = true → Index s p = Some 0.
Proof. by destruct s; cbn [Index]; intros ->. Qed.

(** The first occurrence of a text whose first byte does not occur in it again. *)
Lemma Index_first c sub s t :
  has_char c sub = false → Index s (String c sub) = None →
  Index (s +:+ String c sub +:+ t) (String c sub) = Some (String.length s).
Proof.
  intros Hsub. induction s as [|a s IH].
  - intros _. change ("" +:+ ?x) with x. change (String c sub +:+ t) with ((String c sub) +:+ t).
    apply Index_prefix, HasPrefix_app.
  - cbn [String.append Index]. destruct (HasPrefix (String a s) _) eqn:Hp; [done|]. intros Hs.
    assert (HasPrefix (String a (s +:+ String c (sub +:+ t))) (String c sub) = false) as ->.
    { apply not_true_iff_false. cbn [HasPrefix]. intros [Hca Hm]%andb_true_iff.
      apply HasPrefix_within in Hm; [|done]. cbn [HasPrefix] in Hp. by rewrite Hca, Hm in Hp. }
    change (String c (sub +:+ t)) with (String c sub +:+ t).
    rewrite IH; [done|]. by destruct (Index s _).
Qed.

Lemma Index_no_char c sub s : has_char c s = false → Index s (String c sub) = None.
Proof.
  induction s as [|a s IH]; [done|]. cbn [has_char]. intros [Ha Hs]%orb_false_iff. cbn [Index HasPrefix].
  apply bool_decide_eq_false in Ha. rewrite bool_decide_eq_false_2 by congruence. cbn [andb]. by rewrite IH.
Qed.

Lemma SplitN2_none c s : has_char c s = false → SplitN2 c s = None.
Proof.
  induction s as [|a s IH]; [done|]. cbn [has_char SplitN2]. intros [Ha Hs]%orb_false_iff.
  apply bool_decide_eq_false in Ha. by rewrite decide_False, IH.
Qed.

Lemma Cut_none c s : has_char c s = false → Cut c s = (s, "").
Proof. unfold Cut. intros Hs. by rewrite SplitN2_none. Qed.

Lemma CutLast_none c s : has_char c s = false → CutLast c s = None.
Proof.
  induction s as [|a s IH]; [done|]. cbn [has_char CutLast]. intros [Ha Hs]%orb_false_iff.
  apply bool_decide_eq_false in Ha. by rewrite IH, decide_False.
Qed.

(** ** Lemmas on escaping *)

(** Decides a statement on a byte by its 256 cases. *)
Ltac ascii_cases c := destruct c as [[] [] [] [] [] [] [] []].

Lemma unhex_upperhex n : (n < 16)%N → unhex (upperhex n) = Some n.
Proof. intros Hn. destruct n as [|p]; [done|]. do 4 (destruct p as [p|p|]; try done; try lia). Qed.

Lemma upperhex_not_percent n : (n < 16)%N → upperhex n ≠ "%"%char.
Proof. intros Hn. destruct n as [|p]; [done|]. do 4 (destruct p as [p|p|]; try done; try lia). Qed.

Lemma N_of_ascii_bounded c : (N_of_ascii c < 256)%N.
Proof. ascii_cases c; done. Qed.

Lemma high_digit c : (N_of_ascii c / 16 < 16)%N.
Proof. apply N.Div0.div_lt_upper_bound, N_of_ascii_bounded. Qed.

Lemma low_digit c : (N_of_ascii c mod 16 < 16)%N.
Proof. by apply N.mod_lt. Qed.

Lemma unescape_percent plus c t :
  unescape plus (percent c t) = result_bind (unescape plus t) (λ r, Ok (String c r)).
Proof.
  unfold percent. cbn [unescape]. rewrite decide_True by done.
  rewrite !unhex_upperhex by auto using high_digit, low_digit.
  rewrite <-N.Div0.div_mod by done. by rewrite ascii_N_embedding.
Qed.

(** Decoding gives back the text an escape of it keeps or encodes. *)
Lemma unescape_escape keep s : keep "%"%char = false → unescape false (escape keep s) = Ok s.
Proof.
  intros Hkeep. induction s as [|c s IH]; [done|]. cbn [escape]. destruct (keep c) eqn:Hc.
  - cbn [unescape]. rewrite decide_False by congruence. cbn [andb]. by rewrite IH.
  - by rewrite unescape_percent, IH.
Qed.

Lemma ReplaceAll_skip old new s t :
  ReplaceAll_from old new (String.length s) (s +:+ t) = ReplaceAll_from old new 0 t.
Proof. induction s as [|c s IH]; [by destruct t|]. exact IH. Qed.

Lemma ReplaceAll_no_match old new c t :
  HasPrefix (String c t) old = false → ReplaceAll (String c t) old new = String c (ReplaceAll t old new).
Proof. intros Hp. unfold ReplaceAll. cbn [ReplaceAll_from]. by rewrite Hp. Qed.

(** A byte other than the first of [old] is kept. *)
Lemma ReplaceAll_keep a old new c t :
  c ≠ a → ReplaceAll (String c t) (String a old) new = String c (ReplaceAll t (String a old) new).
Proof.
  intros Hc. apply ReplaceAll_no_match. cbn [HasPrefix]. by rewrite bool_decide_eq_false_2 by congruence.
Qed.

Lemma ReplaceAll_prefix a old new s t :
  has_char a s = false →
  ReplaceAll (s +:+ t) (String a old) new = s +:+ ReplaceAll t (String a old) new.
Proof.
  induction s as [|c s IH]; [done|]. cbn [has_char]. intros [Hc Hs]%orb_false_iff.
  apply bool_decide_eq_false in Hc. cbn [String.append]. by rewrite ReplaceAll_keep, IH.
Qed.

Lemma HasPrefix_percent c t : HasPrefix (percent c t) "%2F" = bool_decide (c = "/"%char).
Proof. ascii_cases c; reflexivity. Qed.

(** Undoing the encoding of the slashes leaves the encoding that keeps them. *)
Lemma ReplaceAll_escape keep s :
  keep "%"%char = false → keep "/"%char = false →
  ReplaceAll (escape keep s) "%2F" "/" = escape (λ c, keep c || bool_decide (c = "/"%char)) s.
Proof.
  intros Hp Hslash. induction s as [|c s IH]; [done|]. cbn [escape]. destruct (keep c) eqn:Hc; cbn [orb].
  - by rewrite ReplaceAll_keep, IH by congruence.
  - case_bool_decide as Hcs.
    + subst c. unfold ReplaceAll. cbn. exact (f_equal (String "/") IH).
    + unfold percent. rewrite <-IH, ReplaceAll_no_match.
      * f_equal. by rewrite !ReplaceAll_keep by auto using upperhex_not_percent, high_digit, low_digit.
      * pose proof (HasPrefix_percent c (escape keep s)) as Hpre. by rewrite bool_decide_eq_false_2 in Hpre.
Qed.

(** The bytes of an escaped text are those kept, the percent sign and digits. *)
Lemma str_forallb_escape P keep s :
  (∀ c, keep c = true → P c = true) → (∀ n, (n < 16)%N → P (upperhex n) = true) → P "%"%char = true →
  str_forallb P (escape keep s) = true.
Proof.
  intros Hkeep Hhex Hp. induction s as [|c s IH]; [done|]. cbn [escape]. destruct (keep c) eqn:Hc.
  - rewrite str_forallb_cons, IH, Hkeep; done.
  - unfold percent. rewrite !str_forallb_cons, IH, Hp, !Hhex by auto using high_digit, low_digit. done.
Qed.

Lemma escape_id keep s : str_forallb keep s = true → escape keep s = s.
Proof.
  induction s as [|c s IH]; [done|]. rewrite str_forallb_cons. intros [Hc Hs]%andb_true_iff.
  cbn [escape]. by rewrite Hc, IH.
Qed.

(** ** Parsing a plain URL *)

(** The bytes of the URLs the client builds. *)
Definition url_char (c : ascii) : bool := unreserved c || one_of "$&+:=@/%" c.

Lemma url_char_plain c : url_char c = true → is_ctl c = false ∧ c ≠ "#"%char ∧ c ≠ "?"%char.
Proof. ascii_cases c; vm_compute; intros; split_and!; congruence. Qed.

(** Hosts with an optional port, as the default endpoint and the override have. *)
Definition plain_host (host : string) : Prop :=
  str_forallb (λ c, unreserved c || bool_decide (c = ":"%char)) host = true ∧
  parseHost host = Ok host ∧ removeEmptyPort host = host.

#[export] Instance plain_host_dec host : Decision (plain_host host).
Proof. unfold plain_host. apply _. Defined.

Lemma unreserved_plain_host host : str_forallb unreserved host = true → plain_host host.
Proof.
  intros Hh. unfold plain_host, parseHost, removeEmptyPort.
  rewrite (CutLast_none ":") by by apply (str_forallb_has_char unreserved). split_and!; [|cbn|done].
  - eapply str_forallb_impl; [|exact Hh]. by intros c ->.
  - rewrite (str_forallb_impl unreserved host_char); [done| |done].
    intros c Hc. unfold host_char. by rewrite Hc. 
Qed.

Lemma plain_host_chars host : plain_host host → str_forallb url_char host = true.
Proof.
  intros (Hh&_&_). eapply str_forallb_impl; [|exact Hh]. intros c. unfold url_char.
  ascii_cases c; vm_compute; congruence.
Qed.

Lemma plain_host_no_char host c :
  plain_host host → unreserved c = false → c ≠ ":"%char → has_char c host = false.
Proof.
  intros (Hh&_&_) Hc Hcolon. refine (str_forallb_has_char _ c host _ Hh).
  cbn. by rewrite Hc, bool_decide_eq_false_2.
Qed.

Lemma getScheme_plain scheme rest raw pre :
  str_forallb is_lower scheme = true → pre +:+ scheme ≠ "" →
  getScheme_from pre (scheme +:+ String ":" rest) raw = Ok (pre +:+ scheme, rest).
Proof.
  revert pre. induction scheme as [|c scheme IH]; intros pre.
  - rewrite append_nil. intros _ Hpre. by destruct pre.
  - rewrite str_forallb_cons. intros [Hc Hs]%andb_true_iff Hne. cbn [String.append getScheme_from].
    assert (is_letter c = true) as -> by (unfold is_letter; by rewrite Hc).
    assert (pre +:+ String c scheme = (pre +:+ String c "") +:+ scheme) as Heq by by rewrite append_assoc.
    rewrite Heq in *. by apply IH.
Qed.

(** Parsing of scheme, host and an escaped path. *)
Lemma url_Parse_plain scheme host p path :
  scheme = "http" ∨ scheme = "https" → plain_host host →
  str_forallb url_char p = true → unescape false (String "/" p) = Ok path →
  url_Parse (scheme +:+ "://" +:+ host +:+ String "/" p) = Ok (MkURL scheme host path "").
Proof.
  intros Hscheme Hhost Hp Hpath. set (u := scheme +:+ "://" +:+ host +:+ String "/" p).
  assert (str_forallb url_char u = true) as Hu.
  { unfold u. rewrite !str_forallb_append, (str_forallb_cons url_char "/" p), Hp, (plain_host_chars host Hhost).
    by destruct Hscheme as [-> | ->]. }
  unfold url_Parse. rewrite Cut_none by by apply (str_forallb_has_char url_char).
  rewrite (str_forallb_impl url_char); [|intros c Hc; by destruct (url_char_plain c Hc) as [-> _]|done].
  cbn [negb]. assert (getScheme_from "" u u = Ok (scheme, "//" +:+ host +:+ String "/" p)) as ->.
  { apply (getScheme_plain scheme _ u ""); by destruct Hscheme as [-> | ->]. }
  cbn [result_bind String.append]. set (rest := String "/" (String "/" (host +:+ String "/" p))).
  rewrite (Cut_none "?").
  2: { unfold rest. cbn [has_char]. rewrite has_char_app. cbn [has_char].
       rewrite (plain_host_no_char host), (str_forallb_has_char url_char _ p) by done. done. }
  assert (ToLower scheme = scheme ∧ scheme ≠ "") as [-> Hne] by by destruct Hscheme as [-> | ->].
  unfold rest. cbn [HasPrefix slice_from negb]. rewrite !bool_decide_eq_true_2 by done. cbn [andb orb negb].
  cbn [HasPrefix]. cbn [negb].
  change (String "/" p) with (String "/" "" +:+ p).
  rewrite (Index_first "/" "" host p); [|done|by apply Index_no_char, plain_host_no_char].
  rewrite slice_to_append, slice_from_append. unfold parseAuthority.
  rewrite CutLast_none by by apply plain_host_no_char.
  destruct Hhost as (_&->&_). cbn [result_bind]. cbn [String.append]. by rewrite Hpath.
Qed.

(** ** Lemmas on headers and times *)

Lemma zero_padded_length w n : String.length (zero_padded w n) = w.
Proof. revert n. induction w as [|w IH]; intros n; [done|]. cbn [zero_padded]. rewrite length_append, IH. cbn. lia. Qed.

Lemma zero_padded_unreserved w n : str_forallb unreserved (zero_padded w n) = true.
Proof.
  revert n. induction w as [|w IH]; intros n; [done|]. cbn [zero_padded]. rewrite str_forallb_append, IH.
  assert (n `mod` 10 < 10)%N as Hd by by apply N.mod_lt.
  destruct (n `mod` 10)%N as [|p]; [done|]. do 4 (destruct p as [p|p|]; try done; try lia).
Qed.

(** The date is the first eight bytes of the time stamp. *)
Lemma Format_amz_date t : slice_to 8 (Format_amz t) = Format_date t.
Proof.
  unfold Format_amz. replace 8 with (String.length (Format_date t)); [apply slice_to_append|].
  unfold Format_date. by rewrite !length_append, !zero_padded_length.
Qed.
