(* ===== verification/Sha.v ===== *)
(** * SHA-1, SHA-256 and HMAC

    The hash functions of [crypto/sha1], [crypto/sha256] and [crypto/hmac]
    (FIPS 180-4 and RFC 2104), as executable functions on byte lists.  Words are
    [N] below 2^32; every addition is masked.  The digests of the test vectors of
    the standard are checked by evaluation. *)
From S2P Require Import Prelude GoLib.
Local Open Scope N_scope.

(** ** 32-bit words *)
Definition mask32 : N := 4294967295.
Definition add32 (a b : N) : N := N.land (a + b) mask32.
Definition rotl32 (n x : N) : N :=
  N.lor (N.land (N.shiftl x n) mask32) (N.shiftr x (32 - n)).
Definition rotr32 (n x : N) : N := rotl32 (32 - n) x.
Definition not32 (x : N) : N := N.lxor x mask32.

Definition byte_of_N (n : N) : byte :=
  match Byte.of_N (N.land n 255) with Some b => b | None => x00 end.

(** The [k] low bytes of [x], most significant first. *)
Fixpoint be_bytes (k : nat) (x : N) : bytes :=
  match k with
  | O => []
  | S k => byte_of_N (N.shiftr x (8 * N.of_nat k)) :: be_bytes k x
  end.

(** ** Padding and blocks, common to both functions *)
Definition pad_length (l : nat) : nat := ((64 - (l + 9) mod 64) mod 64)%nat.

Definition pad (m : bytes) : bytes :=
  m ++ [x80] ++ replicate (pad_length (length m)) x00 ++
  be_bytes 8 (8 * N.of_nat (length m)).

(** The first [n] pieces of [k] elements of [l]. *)
Fixpoint pieces {A} (k n : nat) (l : list A) : list (list A) :=
  match n with O => [] | S n => take k l :: pieces k n (drop k l) end.

Definition block_words (b : bytes) : list N := be_value <$> pieces 4 16 b.
Definition blocks (m : bytes) : list bytes := pieces 64 (length m / 64)%nat m.

(** Message schedules are built with the newest word first. *)
Definition w_at (w : list N) (back : nat) : N := nth (back - 1) w 0.

(** ** SHA-1 *)
Definition sha1_iv : list N :=
  [1732584193; 4023233417; 2562383102; 271733878; 3285377520].

Fixpoint sha1_schedule (n : nat) (w : list N) : list N :=
  match n with
  | O => w
  | S n =>
      sha1_schedule n
        (rotl32 1 (N.lxor (N.lxor (w_at w 3) (w_at w 8)) (N.lxor (w_at w 14) (w_at w 16))) :: w)
  end.

Definition sha1_f (t b c d : N) : N * N :=
  if t <? 20 then (N.lor (N.land b c) (N.land (not32 b) d), 1518500249)
  else if t <? 40 then (N.lxor (N.lxor b c) d, 1859775393)
  else if t <? 60 then (N.lor (N.lor (N.land b c) (N.land b d)) (N.land c d), 2400959708)
  else (N.lxor (N.lxor b c) d, 3395469782).

Definition sha1_round (st : N * N * N * N * N * N) (w : N) : N * N * N * N * N * N :=
  let '(t, a, b, c, d, e) := st in
  let '(f, k) := sha1_f t b c d in
  (t + 1, add32 (add32 (add32 (add32 (rotl32 5 a) f) e) k) w, a, rotl32 30 b, c, d).

Definition sha1_block (h : list N) (b : bytes) : list N :=
  match h with
  | [h0; h1; h2; h3; h4] =>
      let ws := rev (sha1_schedule 64 (rev (block_words b))) in
      let '(_, a, b, c, d, e) := foldl sha1_round (0, h0, h1, h2, h3, h4) ws in
      [add32 h0 a; add32 h1 b; add32 h2 c; add32 h3 d; add32 h4 e]
  | _ => h
  end.

Definition sha1_Sum (m : bytes) : bytes :=
  foldl sha1_block sha1_iv (blocks (pad m)) ≫= be_bytes 4.

(** ** SHA-256 *)
Definition sha256_iv : list N :=
  [1779033703; 3144134277; 1013904242; 2773480762; 1359893119; 2600822924; 528734635; 1541459225].

Definition sha256_k : list N :=
  [1116352408; 1899447441; 3049323471; 3921009573; 961987163; 1508970993; 2453635748; 2870763221;
   3624381080; 310598401; 607225278; 1426881987; 1925078388; 2162078206; 2614888103; 3248222580;
   3835390401; 4022224774; 264347078; 604807628; 770255983; 1249150122; 1555081692; 1996064986;
   2554220882; 2821834349; 2952996808; 3210313671; 3336571891; 3584528711; 113926993; 338241895;
   666307205; 773529912; 1294757372; 1396182291; 1695183700; 1986661051; 2177026350; 2456956037;
   2730485921; 2820302411; 3259730800; 3345764771; 3516065817; 3600352804; 4094571909; 275423344;
   430227734; 506948616; 659060556; 883997877; 958139571; 1322822218; 1537002063; 1747873779;
   1955562222; 2024104815; 2227730452; 2361852424; 2428436474; 2756734187; 3204031479; 3329325298].

Definition sigma (r1 r2 s x : N) : N := N.lxor (N.lxor (rotr32 r1 x) (rotr32 r2 x)) (N.shiftr x s).
Definition Sigma (r1 r2 r3 x : N) : N := N.lxor (N.lxor (rotr32 r1 x) (rotr32 r2 x)) (rotr32 r3 x).

Fixpoint sha256_schedule (n : nat) (w : list N) : list N :=
  match n with
  | O => w
  | S n =>
      sha256_schedule n
        (add32 (add32 (sigma 17 19 10 (w_at w 2)) (w_at w 7))
               (add32 (sigma 7 18 3 (w_at w 15)) (w_at w 16)) :: w)
  end.

Definition sha256_round (st : list N) (kw : N * N) : list N :=
  match st with
  | [a; b; c; d; e; f; g; h] =>
      let ch := N.lxor (N.land e f) (N.land (not32 e) g) in
      let maj := N.lxor (N.lxor (N.land a b) (N.land a c)) (N.land b c) in
      let t1 := add32 (add32 (add32 h (Sigma 6 11 25 e)) ch) (add32 kw.1 kw.2) in
      let t2 := add32 (Sigma 2 13 22 a) maj in
      [add32 t1 t2; a; b; c; add32 d t1; e; f; g]
  | _ => st
  end.

Definition sha256_block (h : list N) (b : bytes) : list N :=
  let ws := rev (sha256_schedule 48 (rev (block_words b))) in
  zip_with add32 h (foldl sha256_round h (zip sha256_k ws)).

Definition sha256_Sum256 (m : bytes) : bytes :=
  foldl sha256_block sha256_iv (blocks (pad m)) ≫= be_bytes 4.

(** ** HMAC-SHA-256: [hmac.New(sha256.New, key)], one [Write], [Sum(nil)] *)
Definition xor_bytes (k : N) (b : bytes) : bytes :=
  (λ x, byte_of_N (N.lxor (Byte.to_N x) k)) <$> b.

Definition hmac_key (key : bytes) : bytes :=
  let key := if (64 <? length key)%nat then sha256_Sum256 key else key in
  key ++ replicate (64 - length key) x00.

Definition hmac_sha256 (key data : bytes) : bytes :=
  sha256_Sum256 (xor_bytes 92 (hmac_key key) ++
                 sha256_Sum256 (xor_bytes 54 (hmac_key key) ++ data)).

(** ** Test vectors *)
Example sha1_abc :
  hex_EncodeToString (sha1_Sum (bytes_of "abc")) = "a9993e364706816aba3e25717850c26c9cd0d89d".
Proof. vm_compute. reflexivity. Qed.

Example sha1_two_blocks :
  hex_EncodeToString
    (sha1_Sum (bytes_of "abcdbcdecdefdefgefghfghighijhijkijkljklmklmnlmnomnopnopq")) =
  "84983e441c3bd26ebaae4aa1f95129e5e54670f1".
Proof. vm_compute. reflexivity. Qed.

Example sha256_empty :
  hex_EncodeToString (sha256_Sum256 []) =
  "e3b0c44298fc1c149afbf4c8996fb92427ae41e4649b934ca495991b7852b855".
Proof. vm_compute. reflexivity. Qed.

Example sha256_abc :
  hex_EncodeToString (sha256_Sum256 (bytes_of "abc")) =
  "ba7816bf8f01cfea414140de5dae2223b00361a396177a9cb410ff61f20015ad".
Proof. vm_compute. reflexivity. Qed.

Example sha256_two_blocks :
  hex_EncodeToString
    (sha256_Sum256 (bytes_of "abcdbcdecdefdefgefghfghighijhijkijkljklmklmnlmnomnopnopq")) =
  "248d6a61d20638b8e5c026930c3e6039a33ce45964ff2167f6ecedd419db06c1".
Proof. vm_compute. reflexivity. Qed.

Example hmac_jefe :
  hex_EncodeToString (hmac_sha256 (bytes_of "Jefe") (bytes_of "what do ya want for nothing?")) =
  "5bdcc146bf60754e6a042426089575c75a003f089d2739839dec58b964ec3843".
Proof. vm_compute. reflexivity. Qed.

(** ** Digest lengths *)
Lemma be_bytes_length k x : length (be_bytes k x) = k.
Proof. induction k as [|k IH]; simpl; [done|]. by rewrite IH. Qed.

Lemma bind_be_bytes_length (l : list N) : length (l ≫= be_bytes 4) = (4 * length l)%nat.
Proof. induction l as [|x l IH]; [done|]. cbn [mbind list_bind length]. rewrite length_app, be_bytes_length, IH. lia. Qed.

Lemma sha256_round_length st kw : length st = 8%nat → length (sha256_round st kw) = 8%nat.
Proof. intros H. unfold sha256_round. by do 9 (destruct st as [|? st]; try done). Qed.

Lemma sha256_block_length h b : length h = 8%nat → length (sha256_block h b) = 8%nat.
Proof.
  intros Hh. unfold sha256_block. rewrite length_zip_with, Hh.
  assert (∀ l st, length st = 8%nat → length (foldl sha256_round st l) = 8%nat) as Hfold.
  { induction l as [|x l IH]; intros st Hst; [done|]. by apply IH, sha256_round_length. }
  by rewrite Hfold.
Qed.

(** A SHA-256 digest has 32 bytes. *)
Lemma sha256_Sum256_length m : length (sha256_Sum256 m) = 32%nat.
Proof.
  unfold sha256_Sum256. rewrite bind_be_bytes_length.
  assert (∀ l h, length h = 8%nat → length (foldl sha256_block h l) = 8%nat) as ->; [|done|done].
  induction l as [|x l IH]; intros h Hh; [done|]. by apply IH, sha256_block_length.
Qed.

(** ** Values of byte lists stay in range *)
Lemma be_value_bound b acc n :
  acc < 2 ^ n -> foldl (λ acc x, N.lor (N.shiftl acc 8) (Byte.to_N x)) acc b < 2 ^ (n + 8 * N.of_nat (length b)).
Proof.
  revert acc n. induction b as [|x b IH]; intros acc n Hacc; simpl.
  { by rewrite N.mul_0_r, N.add_0_r. }
  replace (n + 8 * N.of_nat (S (length b))) with ((n + 8) + 8 * N.of_nat (length b)) by lia.
  apply IH. pose proof (Byte.to_N_bounded x) as Hx.
  assert (∀ a k, a < 2 ^ k ↔ a = 0 ∨ N.log2 a < k) as Hlog.
  { intros a k. destruct (decide (a = 0)) as [->|Ha].
    - split; [by left|]. intros _. apply N.neq_0_lt_0. by apply N.pow_nonzero.
    - rewrite <-N.log2_lt_pow2 by lia. naive_solver. }
  apply Hlog. destruct (decide (N.lor (N.shiftl acc 8) (Byte.to_N x) = 0)); [by left|right].
  rewrite N.log2_lor. apply N.max_lub_lt.
  - rewrite N.shiftl_mul_pow2. destruct (decide (acc = 0)) as [->|Ha]; [simpl; lia|].
    apply N.log2_lt_pow2; [lia|]. rewrite N.pow_add_r. nia.
  - destruct (decide (Byte.to_N x = 0)) as [->|Hx0]; [simpl; lia|].
    apply N.lt_le_trans with 8; [|lia]. apply N.log2_lt_pow2; [lia|]. change (2 ^ 8) with 256. lia.
Qed.

Lemma BigEndian_Uint64_bound b : BigEndian_Uint64 b < 2 ^ 64.
Proof.
  unfold BigEndian_Uint64, be_value. eapply N.lt_le_trans; [by apply (be_value_bound _ _ 0)|].
  apply N.pow_le_mono_r; [done|]. pose proof (length_take_le b 8). rewrite length_take. lia.
Qed.
