(* ===== verification/HashRing.v ===== *)
(** * internal/hashring: the consistent hash ring

    [Ring] is the struct of hashring.go, with its three fields; the mutex is not
    modelled, because every method holds it from its first to its last statement,
    so a method is one atomic step.  [AddNode], [RemoveNode], [Nodes], [Get] and
    [GetN] are the methods.

    [ring_repr r S] says that [r] is the ring of the set [S] of physical nodes.  It
    determines [r] completely, so two nodes of the cluster that saw the same
    members, in whatever order, place every chunk alike. *)
From S2P Require Import Prelude GoLib Sha.
From Stdlib Require Import Strings.Ascii.

(** ** The struct and its methods *)

Definition VirtualNodesPerNode : nat := 150.

Record Ring := MkRing {
  sortedHashes : list N;
  hashToNode : gmap N string;
  nodes : gmap string bool;
}.

Definition hashring_New : Ring := MkRing [] ∅ ∅.

Definition hashKey (key : string) : N := BigEndian_Uint64 (take 8 (sha1_Sum (bytes_of key))).

(** [fmt.Sprintf("%s#%d", nodeID, i)] *)
Definition vKey (nodeID : string) (i : nat) : string := nodeID +:+ "#" +:+ Itoa (Z.of_nat i).

(** One iteration of the loop of [AddNode]. *)
Definition addVirtual (nodeID : string) (r : Ring) (i : nat) : Ring :=
  let h := hashKey (vKey nodeID i) in
  MkRing (sortedHashes r ++ [h]) (<[h := nodeID]> (hashToNode r)) (nodes r).

Definition AddNode (r : Ring) (nodeID : string) : Ring :=
  if default false (nodes r !! nodeID) then r
  else
    let r := MkRing (sortedHashes r) (hashToNode r) (<[nodeID := true]> (nodes r)) in
    let r := foldl (addVirtual nodeID) r (seq 0 VirtualNodesPerNode) in
    MkRing (sort_uint64 (sortedHashes r)) (hashToNode r) (nodes r).

(** One iteration of the loop of [RemoveNode]: the map being purged and [newHashes]. *)
Definition removePoint (nodeID : string) (acc : gmap N string * list N) (h : N) :
    gmap N string * list N :=
  let '(m, newHashes) := acc in
  if bool_decide (default "" (m !! h) = nodeID) then (delete h m, newHashes)
  else (m, newHashes ++ [h]).

Definition RemoveNode (r : Ring) (nodeID : string) : Ring :=
  if negb (default false (nodes r !! nodeID)) then r
  else
    let '(m, newHashes) := foldl (removePoint nodeID) (hashToNode r, []) (sortedHashes r) in
    MkRing newHashes m (delete nodeID (nodes r)).

Definition Nodes (r : Ring) : list string := sort_Strings (map_to_list (nodes r)).*1.

(** The loop of [GetN]: [fuel] bounds its iterations; [len(r.sortedHashes)] of them
    are enough, since the guard compares the loop counter with that length. *)
Fixpoint GetN_loop (r : Ring) (idx : nat) (n : Z) (fuel i : nat)
    (seen : gmap string bool) (result : list string) : list string :=
  match fuel with
  | O => result
  | S fuel =>
      if (i <? length (sortedHashes r))%nat && (Z.of_nat (length result) <? n)%Z &&
         (size seen <? size (nodes r))%nat
      then
        let pos := ((idx + i) mod length (sortedHashes r))%nat in
        let node := default "" (hashToNode r !! nth pos (sortedHashes r) 0%N) in
        if negb (default false (seen !! node))
        then GetN_loop r idx n fuel (S i) (<[node := true]> seen) (result ++ [node])
        else GetN_loop r idx n fuel (S i) seen result
      else result
  end.

Definition GetN (r : Ring) (key : string) (n : Z) : list string :=
  if (length (sortedHashes r) =? 0)%nat || (n <=? 0)%Z then []
  else
    let h := hashKey key in
    let idx := sort_Search (length (sortedHashes r))
                 (λ i, (h <=? nth i (sortedHashes r) 0%N)%N) in
    GetN_loop r idx n (length (sortedHashes r)) 0 ∅ [].

Definition Get (r : Ring) (key : string) : string * bool :=
  match GetN r key 1 with
  | [] => ("", false)
  | node :: _ => (node, true)
  end.

(** ** The ring of a set of nodes *)

(** The points of a node, and of a set of nodes. *)
Definition points (nodeID : string) : list N :=
  (λ i, hashKey (vKey nodeID i)) <$> seq 0 VirtualNodesPerNode.
Definition points_of (S : gset string) : list N := elements S ≫= points.

(** No two virtual nodes of [S] share a ring position. *)
Definition distinct_points (S : gset string) : Prop := NoDup (points_of S).

Record ring_repr (r : Ring) (S : gset string) : Prop := {
  repr_nodes : nodes r = gset_to_gmap true S;
  repr_sorted : StronglySorted N.le (sortedHashes r);
  repr_perm : sortedHashes r ≡ₚ points_of S;
  repr_owner : ∀ h id, hashToNode r !! h = Some id ↔ id ∈ S ∧ h ∈ points id;
  repr_distinct : distinct_points S;
}.

(** Histories of a ring: what a node did to it since [New]. *)
Inductive RingOp := OpAdd (nodeID : string) | OpRemove (nodeID : string).

Definition ring_apply (r : Ring) (op : RingOp) : Ring :=
  match op with OpAdd id => AddNode r id | OpRemove id => RemoveNode r id end.
Definition ring_run (ops : list RingOp) : Ring := foldl ring_apply hashring_New ops.

Definition members_apply (S : gset string) (op : RingOp) : gset string :=
  match op with OpAdd id => {[id]} ∪ S | OpRemove id => S ∖ {[id]} end.
Definition members (ops : list RingOp) : gset string := foldl members_apply ∅ ops.

(** Every node an operation list names. *)
Definition mentioned (ops : list RingOp) : gset string :=
  list_to_set ((λ op, match op with OpAdd id | OpRemove id => id end) <$> ops).

(** ** The specification of a lookup

    The positions of the ring clockwise from [h], the node at a position, and the
    order in which a key prefers the nodes. *)
Definition clockwise (r : Ring) (h : N) : list N :=
  filter (λ p, (h ≤ p)%N) (sortedHashes r) ++ filter (λ p, ¬ (h ≤ p)%N) (sortedHashes r).
Definition owner (r : Ring) (p : N) : string := default "" (hashToNode r !! p).
Definition preference (r : Ring) (key : string) : list string :=
  uniq (owner r <$> clockwise r (hashKey key)).

#[global] Opaque hashKey VirtualNodesPerNode.
Arguments vKey : simpl never.
Arguments points : simpl never.
Arguments sort_uint64 : simpl never.

#[export] Instance distinct_points_dec S : Decision (distinct_points S).
Proof. unfold distinct_points. apply _. Defined.

(** ** Points *)

Lemma elem_of_points_of S h : h ∈ points_of S ↔ ∃ id, id ∈ S ∧ h ∈ points id.
Proof. unfold points_of. rewrite list_elem_of_bind. set_solver. Qed.

Lemma points_of_union id S :
  id ∉ S → points_of ({[id]} ∪ S) ≡ₚ points id ++ points_of S.
Proof.
  intros Hid. unfold points_of. rewrite elements_union_singleton by done. done.
Qed.

Lemma points_of_empty : points_of ∅ = [].
Proof. done. Qed.

Lemma points_of_remove id S :
  id ∈ S → points_of S ≡ₚ points id ++ points_of (S ∖ {[id]}).
Proof.
  intros Hid. rewrite <-points_of_union by set_solver.
  by rewrite <-union_difference_singleton_L.
Qed.

Lemma distinct_points_subset S T : S ⊆ T → distinct_points T → distinct_points S.
Proof.
  intros HST. unfold distinct_points, points_of.
  replace (elements T) with (elements T) by done.
  assert (elements T ≡ₚ elements S ++ elements (T ∖ S)) as ->.
  { rewrite <-elements_disj_union by set_solver. by rewrite <-union_difference_L. }
  rewrite bind_app, NoDup_app. naive_solver.
Qed.

Lemma distinct_points_owner S h id id' :
  distinct_points S → id ∈ S → id' ∈ S → h ∈ points id → h ∈ points id' → id = id'.
Proof.
  intros HS Hid Hid' Hh Hh'. destruct (decide (id = id')) as [|Hne]; [done|].
  unfold distinct_points in HS. rewrite (points_of_remove id S), NoDup_app in HS by done.
  destruct HS as (_&HS&_). destruct (HS h Hh).
  apply elem_of_points_of. exists id'. set_solver.
Qed.

Lemma NoDup_points id S : id ∈ S → distinct_points S → NoDup (points id).
Proof.
  intros Hid HS. unfold distinct_points in HS.
  by rewrite (points_of_remove id S), NoDup_app in HS by done; naive_solver.
Qed.

(** ** AddNode *)

Lemma addVirtual_fold id r l :
  let r' := foldl (addVirtual id) r l in
  sortedHashes r' = sortedHashes r ++ ((λ i, hashKey (vKey id i)) <$> l) ∧
  nodes r' = nodes r ∧
  ∀ h, hashToNode r' !! h =
       if decide (h ∈ (λ i, hashKey (vKey id i)) <$> l) then Some id else hashToNode r !! h.
Proof.
  revert r. induction l as [|i l IH]; intros r; simpl.
  { by rewrite app_nil_r. }
  destruct (IH (addVirtual id r i)) as (->&->&Hl). simpl. split_and!; [|done|].
  { by rewrite <-(assoc_L (++)). }
  intros h. rewrite Hl. cbn [addVirtual hashToNode].
  destruct (decide (h = hashKey (vKey id i))) as [->|Hne].
  - rewrite lookup_insert_eq. rewrite (decide_True (P := _ ∈ _ :: _)) by left. by case_decide.
  - rewrite lookup_insert_ne by done. repeat case_decide; set_solver.
Qed.

Lemma nodes_lookup r S id : ring_repr r S → default false (nodes r !! id) = bool_decide (id ∈ S).
Proof.
  intros Hr. rewrite (repr_nodes _ _ Hr), lookup_gset_to_gmap.
  case_bool_decide; [rewrite option_guard_True by done|rewrite option_guard_False by done]; done.
Qed.

Lemma ring_repr_inj r S S' : ring_repr r S → ring_repr r S' → S = S'.
Proof.
  intros H H'. apply set_eq. intros id. pose proof (nodes_lookup r S id H) as H1. rewrite (nodes_lookup r S' id H') in H1.
  by rewrite <-(bool_decide_eq_true (id ∈ S)), <-(bool_decide_eq_true (id ∈ S')), H1.
Qed.

Lemma ring_repr_New : ring_repr hashring_New ∅.
Proof.
  split; simpl; [done|constructor|done|set_solver|].
  by constructor.
Qed.

Lemma ring_repr_AddNode r S id :
  ring_repr r S → distinct_points ({[id]} ∪ S) → ring_repr (AddNode r id) ({[id]} ∪ S).
Proof.
  intros Hr Hd. unfold AddNode. rewrite (nodes_lookup r S) by done.
  case_bool_decide as Hid.
  { by replace ({[id]} ∪ S) with S by set_solver. }
  destruct (addVirtual_fold id
    (MkRing (sortedHashes r) (hashToNode r) (<[id := true]> (nodes r)))
    (seq 0 VirtualNodesPerNode)) as (Hs&Hn&Ho).
  split; simpl.
  - rewrite Hn. simpl. by rewrite (repr_nodes _ _ Hr), gset_to_gmap_union_singleton.
  - apply sort_uint64_sorted.
  - rewrite sort_uint64_perm, Hs, points_of_union by done. simpl.
    rewrite (repr_perm _ _ Hr). apply (comm (++)).
  - intros h id'. rewrite Ho. simpl. fold (points id).
    rewrite elem_of_union, elem_of_singleton. case_decide as Hh.
    + split; [intros [= <-]; by auto|]. intros [Hid' Hh']. f_equal.
      apply (distinct_points_owner ({[id]} ∪ S) h); set_solver.
    + rewrite (repr_owner _ _ Hr). naive_solver.
  - done.
Qed.

(** ** RemoveNode *)

Lemma removePoint_fold id m nh l :
  NoDup l →
  let '(m', nh') := foldl (removePoint id) (m, nh) l in
  nh' = nh ++ filter (λ h, default "" (m !! h) ≠ id) l ∧
  ∀ h, m' !! h = if decide (h ∈ l ∧ default "" (m !! h) = id) then None else m !! h.
Proof.
  revert m nh. induction l as [|x l IH]; intros m nh Hl; cbn [foldl removePoint].
  { rewrite app_nil_r. split; [done|]. intros h. rewrite decide_False; set_solver. }
  apply NoDup_cons in Hl as [Hx Hl]. case_bool_decide as Hm.
  - specialize (IH (delete x m) nh Hl). destruct (foldl _ _ _) as [m' nh'].
    destruct IH as [-> Hm']. rewrite filter_cons, decide_False by naive_solver.
    split.
    + f_equal. apply filter_ext_in. intros y Hy. by rewrite lookup_delete_ne by set_solver.
    + intros h. rewrite Hm'. destruct (decide (h = x)) as [->|Hne].
      * rewrite lookup_delete_eq, decide_False by naive_solver.
        by rewrite decide_True by (split; [by left|done]).
      * rewrite lookup_delete_ne by done. repeat case_decide; set_solver.
  - specialize (IH m (nh ++ [x]) Hl). destruct (foldl _ _ _) as [m' nh'].
    destruct IH as [-> Hm']. rewrite filter_cons, decide_True by done.
    split; [by rewrite <-(assoc_L (++))|].
    intros h. rewrite Hm'. destruct (decide (h = x)) as [->|Hne].
    + rewrite !decide_False by naive_solver. done.
    + repeat case_decide; set_solver.
Qed.

Lemma removePoint_points r S id :
  ring_repr r S →
  ∃ m, foldl (removePoint id) (hashToNode r, []) (sortedHashes r) =
         (m, filter (λ h, owner r h ≠ id) (sortedHashes r)) ∧
       ∀ h, m !! h = if decide (h ∈ sortedHashes r ∧ owner r h = id)
                     then None else hashToNode r !! h.
Proof.
  intros Hr.
  pose proof (removePoint_fold id (hashToNode r) [] (sortedHashes r)) as Hfold.
  destruct (foldl _ _ _) as [m nh]. exists m. destruct Hfold as [-> Hm]; [|done].
  rewrite (repr_perm _ _ Hr). apply (repr_distinct _ _ Hr).
Qed.

Lemma elem_of_sortedHashes r S h :
  ring_repr r S → h ∈ sortedHashes r ↔ ∃ id, id ∈ S ∧ h ∈ points id.
Proof. intros Hr. by rewrite (repr_perm _ _ Hr), elem_of_points_of. Qed.

Lemma owner_points r S h id :
  ring_repr r S → id ∈ S → h ∈ points id → owner r h = id.
Proof. intros Hr ??. unfold owner. by rewrite (proj2 (repr_owner _ _ Hr h id)). Qed.

Lemma owner_elem r S h : ring_repr r S → h ∈ sortedHashes r → owner r h ∈ S ∧ h ∈ points (owner r h).
Proof.
  intros Hr (id&?&?)%(elem_of_sortedHashes r S h Hr). by rewrite (owner_points r S h id).
Qed.

Lemma filter_points id S (P : N → Prop) `{∀ h, Decision (P h)} :
  id ∈ S → (∀ h, h ∈ points id → ¬ P h) →
  (∀ h, h ∈ points_of (S ∖ {[id]}) → P h) → filter P (points_of S) ≡ₚ points_of (S ∖ {[id]}).
Proof.
  intros Hid Hno Hyes. rewrite (points_of_remove id S) by done.
  by rewrite filter_app, filter_none, filter_all.
Qed.

Lemma StronglySorted_filter {A} (R : relation A) (P : A → Prop) `{∀ x, Decision (P x)} l :
  StronglySorted R l → StronglySorted R (filter P l).
Proof.
  induction 1 as [|x l Hl IH Hx]; [constructor|].
  rewrite filter_cons. case_decide; [|done]. constructor; [done|].
  apply Forall_forall. intros y [_ Hy]%list_elem_of_filter. by eapply Forall_forall in Hx.
Qed.

Lemma ring_repr_RemoveNode r S id : ring_repr r S → ring_repr (RemoveNode r id) (S ∖ {[id]}).
Proof.
  intros Hr. unfold RemoveNode. rewrite (nodes_lookup r S) by done.
  case_bool_decide as Hid; simpl.
  2:{ by replace (S ∖ {[id]}) with S by set_solver. }
  destruct (removePoint_points r S id Hr) as (m&->&Hm).
  assert (∀ h, h ∈ points_of (S ∖ {[id]}) → owner r h ≠ id) as Hother.
  { intros h (id'&Hid'&Hh)%elem_of_points_of.
    rewrite (owner_points r S h id'); set_solver. }
  split; simpl.
  - rewrite (repr_nodes _ _ Hr). apply map_eq. intros k.
    rewrite lookup_delete, !lookup_gset_to_gmap.
    repeat case_decide; case_guard; set_solver.
  - apply StronglySorted_filter, (repr_sorted _ _ Hr).
  - rewrite (repr_perm _ _ Hr). apply filter_points; [done| |done].
    intros h Hh. rewrite (owner_points r S h id); auto.
  - intros h id'. rewrite Hm. case_decide as Hdel.
    + destruct Hdel as [Hh Ho]. split; [done|]. intros [Hid' Hh'].
      destruct (Hother h); [|done]. apply elem_of_points_of. eauto.
    + rewrite (repr_owner _ _ Hr). split; [|set_solver]. intros [Hid' Hh'].
      split; [|done]. apply elem_of_difference. split; [done|]. intros ->%elem_of_singleton.
      destruct Hdel. rewrite (elem_of_sortedHashes r S), (owner_points r S h id); eauto.
  - apply (distinct_points_subset _ S); [set_solver|]. apply (repr_distinct _ _ Hr).
Qed.

(** ** The representation determines the ring *)

Lemma ring_repr_unique r1 r2 S : ring_repr r1 S → ring_repr r2 S → r1 = r2.
Proof.
  intros H1 H2. destruct r1 as [s1 m1 n1], r2 as [s2 m2 n2]. f_equal.
  - apply sorted_unique; [apply (repr_sorted _ _ H1)|apply (repr_sorted _ _ H2)|].
    trans (points_of S); [apply (repr_perm _ _ H1)|symmetry; apply (repr_perm _ _ H2)].
  - apply map_eq. intros h. apply option_eq. intros id.
    etrans; [apply (repr_owner _ _ H1)|symmetry; apply (repr_owner _ _ H2)].
  - pose proof (repr_nodes _ _ H1). pose proof (repr_nodes _ _ H2). simpl in *. congruence.
Qed.

Lemma ring_apply_repr r S op :
  ring_repr r S → distinct_points (members_apply S op ∪ S) →
  ring_repr (ring_apply r op) (members_apply S op).
Proof.
  destruct op; simpl; intros Hr Hd.
  - apply ring_repr_AddNode; [done|]. eapply distinct_points_subset; [|done]. set_solver.
  - by apply ring_repr_RemoveNode.
Qed.

Lemma ring_fold_repr ops r S :
  ring_repr r S → distinct_points (S ∪ mentioned ops) →
  ring_repr (foldl ring_apply r ops) (foldl members_apply S ops).
Proof.
  revert r S. induction ops as [|op ops IH]; intros r S Hr Hd; [done|].
  apply IH; [apply ring_apply_repr; [done|]|];
    (eapply distinct_points_subset; [|done]); unfold mentioned; destruct op; set_solver.
Qed.

Lemma ring_run_repr ops :
  distinct_points (mentioned ops) → ring_repr (ring_run ops) (members ops).
Proof.
  intros Hd. apply ring_fold_repr; [apply ring_repr_New|].
  by rewrite (left_id_L ∅ (∪)).
Qed.

Lemma ring_run_snoc ops op : ring_run (ops ++ [op]) = ring_apply (ring_run ops) op.
Proof. unfold ring_run. by rewrite foldl_app. Qed.

Create HintDb ring.
#[export] Hint Resolve ring_repr_New ring_repr_AddNode ring_repr_RemoveNode ring_run_repr : ring.

(** ** Keys of virtual nodes *)

Lemma hash_mark_unique (l1 l2 d1 d2 : list Ascii.ascii) c :
  c ∉ d1 → c ∉ d2 → l1 ++ c :: d1 = l2 ++ c :: d2 → l1 = l2 ∧ d1 = d2.
Proof.
  intros H1 H2. revert l2. induction l1 as [|a l1 IH]; intros [|b l2]; simpl; intros Heq; simplify_eq.
  - done.
  - set_solver.
  - set_solver.
  - by destruct (IH l2) as [-> ->].
Qed.

(** No decimal digit is the separator of a virtual node's key. *)
Lemma pretty_N_go_hash x s :
  "#"%char ∉ String.list_ascii_of_string s →
  "#"%char ∉ String.list_ascii_of_string (pretty_N_go x s).
Proof.
  intros Hs Hin. apply (pretty_N_go_chars (λ c, c ≠ "#"%char)) in Hin; [done| |by intros c Hc ->].
  intros n. unfold pretty_N_char. by repeat case_match.
Qed.

Lemma Itoa_nat_hash i : "#"%char ∉ String.list_ascii_of_string (Itoa (Z.of_nat i)).
Proof.
  intros Hin. apply (Itoa_nat_chars (λ c, c ≠ "#"%char)) in Hin; [done|].
  intros n. unfold pretty_N_char. by repeat case_match.
Qed.

Lemma list_ascii_of_string_inj s t :
  String.list_ascii_of_string s = String.list_ascii_of_string t → s = t.
Proof.
  intros H. rewrite <-(String.string_of_list_ascii_of_string s), H.
  apply String.string_of_list_ascii_of_string.
Qed.

(** Two virtual nodes have the same key only when they are the same virtual
    node: the text "id#i" determines the node and the index, so two positions of
    the ring coincide only when SHA-1 collides. *)
Theorem vKey_inj id1 i1 id2 i2 : vKey id1 i1 = vKey id2 i2 → id1 = id2 ∧ i1 = i2.
Proof.
  unfold vKey. intros Heq%(f_equal String.list_ascii_of_string).
  rewrite !list_ascii_of_string_app in Heq. simpl in Heq.
  apply hash_mark_unique in Heq as [Hid%list_ascii_of_string_inj Hi%list_ascii_of_string_inj];
    [|apply Itoa_nat_hash..].
  split; [done|]. apply (inj pretty) in Hi. lia.
Qed.

(** [C14] A ring depends on its members only: two histories of [AddNode] and
    [RemoveNode] calls, in any order and with any repetitions, that leave the same
    set of nodes leave the same ring (its three fields are equal), and so place
    every chunk alike.  The hypothesis is that the virtual nodes each history
    creates have distinct positions. *)
Theorem ring_history_independent ops1 ops2 :
  distinct_points (mentioned ops1) → distinct_points (mentioned ops2) →
  members ops1 = members ops2 → ring_run ops1 = ring_run ops2.
Proof.
  intros H1 H2 Heq. apply (ring_repr_unique _ _ (members ops1)); [by auto with ring|].
  rewrite Heq. by auto with ring.
Qed.

(** [RemoveNode] undoes [AddNode]: adding a node that is not on the ring and
    removing it again restores all three fields. *)
Theorem RemoveNode_AddNode r S id :
  ring_repr r S → id ∉ S → distinct_points ({[id]} ∪ S) → RemoveNode (AddNode r id) id = r.
Proof.
  intros Hr Hid Hd. apply (ring_repr_unique _ _ S); [|done].
  replace S with (({[id]} ∪ S) ∖ {[id]}) by set_solver. auto with ring.
Qed.

(** [Nodes] lists the members of the ring, each once, in increasing
    byte order. *)
Theorem Nodes_spec r S :
  ring_repr r S → Nodes r ≡ₚ elements S ∧ StronglySorted String.le (Nodes r).
Proof.
  intros Hr. unfold Nodes, sort_Strings. split.
  - rewrite merge_sort_Permutation, (repr_nodes _ _ Hr).
    apply NoDup_Permutation; [apply NoDup_fst_map_to_list|apply NoDup_elements|].
    intros id. rewrite elem_of_elements, list_elem_of_fmap. setoid_rewrite elem_of_map_to_list'.
    setoid_rewrite lookup_gset_to_gmap_Some. split.
    + by intros ([? b]&->&?&?).
    + intros Hid. by exists (id, true).
  - apply StronglySorted_merge_sort; apply _.
Qed.

(** Ring positions are [uint64] values. *)
Lemma hashKey_bound key : (hashKey key < 2 ^ 64)%N.
Proof. with_strategy transparent [hashKey] unfold hashKey. apply BigEndian_Uint64_bound. Qed.

(** ** Three concrete nodes

    The 450 positions SHA-1 gives them are distinct, so the hypotheses of the
    theorems hold of every ring built from them. *)
Definition demo_nodes : gset string := {["node-a"; "node-b"; "node-c"]}.

Lemma demo_distinct : distinct_points demo_nodes.
Proof. apply (bool_decide_unpack _). vm_compute. exact I. Qed.

Lemma demo_distinct_subset S : S ⊆ demo_nodes → distinct_points S.
Proof. intros HS. exact (distinct_points_subset _ _ HS demo_distinct). Qed.

Definition demo_ring : Ring := ring_run [OpAdd "node-a"; OpAdd "node-b"].

Lemma demo_ring_repr : ring_repr demo_ring {["node-a"; "node-b"]}.
Proof.
  replace {["node-a"; "node-b"]} with (members [OpAdd "node-a"; OpAdd "node-b"])
    by (unfold members; set_solver).
  apply ring_run_repr, demo_distinct_subset. unfold mentioned, demo_nodes. set_solver.
Qed.

Lemma demo_ring_add_distinct : distinct_points ({["node-c"]} ∪ {["node-a"; "node-b"]}).
Proof. apply demo_distinct_subset. unfold demo_nodes. set_solver. Qed.

#[export] Hint Resolve demo_distinct demo_ring_repr demo_ring_add_distinct : ring.

Lemma ring_history_independent_witness :
  ring_run [OpAdd "node-a"; OpAdd "node-b"; OpRemove "node-a"; OpAdd "node-c"] =
  ring_run [OpAdd "node-c"; OpRemove "node-a"; OpAdd "node-b"; OpAdd "node-b"].
Proof.
  apply ring_history_independent.
  - apply demo_distinct_subset. unfold mentioned, demo_nodes. set_solver.
  - apply demo_distinct_subset. unfold mentioned, demo_nodes. set_solver.
  - unfold members. simpl. set_solver.
Defined.

Lemma RemoveNode_AddNode_witness :
  RemoveNode (AddNode demo_ring "node-c") "node-c" = demo_ring.
Proof.
  apply (RemoveNode_AddNode demo_ring {["node-a"; "node-b"]});
    [apply demo_ring_repr|set_solver|apply demo_ring_add_distinct].
Defined.

Lemma Nodes_spec_witness :
  Nodes demo_ring ≡ₚ elements ({["node-a"; "node-b"]} : gset string) ∧
  StronglySorted String.le (Nodes demo_ring).
Proof. apply (Nodes_spec demo_ring), demo_ring_repr. Defined.

Lemma vKey_inj_witness : "node-a" = "node-a" ∧ 7 = 7.
Proof. apply (vKey_inj "node-a" 7 "node-a" 7). reflexivity. Defined.
