(* ===== verification/Placement.v ===== *)
(** * internal/hashring: where a key is placed

    The lookups of hashring.go against their specification: [GetN] returns a
    prefix of the key's [preference], the nodes in the order in which their first
    virtual node is met walking clockwise from the key's position.  Adding or
    removing a node filters that list, which gives the minimal-disruption
    theorems the package exists for. *)
From S2P Require Import Prelude GoLib Sha HashRing.

(** ** The walk *)

Lemma rotate_lookup {A} (l : list A) idx i :
  idx ≤ length l → i < length l →
  (drop idx l ++ take idx l) !! i = l !! ((idx + i) mod length l).
Proof.
  intros Hidx Hi. destruct (decide (idx + i < length l)) as [Hlt|Hge].
  - rewrite lookup_app_l by (rewrite length_drop; lia).
    by rewrite lookup_drop, Nat.mod_small.
  - rewrite lookup_app_r by (rewrite length_drop; lia).
    rewrite length_drop, lookup_take_lt by lia. f_equal.
    replace (idx + i) with ((idx + i - length l) + 1 * length l) by lia.
    rewrite Nat.Div0.mod_add, Nat.mod_small; lia.
Qed.

Lemma sorted_nth_le (l : list N) i j :
  StronglySorted N.le l → i ≤ j → j < length l → (nth i l 0 ≤ nth j l 0)%N.
Proof.
  intros Hl. revert i j. induction Hl as [|x l Hl IH Hx]; intros i j Hij Hj; simpl in *; [lia|].
  destruct i as [|i], j as [|j]; try lia; [|apply IH; lia].
  rewrite Forall_forall in Hx. apply Hx.
  destruct (nth_lookup_or_length l j 0%N) as [Hj'|]; [by eapply list_elem_of_lookup_2|lia].
Qed.

(** The index [sort.Search] finds splits the ring where [clockwise] does. *)
Lemma search_split (l : list N) h :
  StronglySorted N.le l →
  let idx := sort_Search (length l) (λ i, (h <=? nth i l 0)%N) in
  idx ≤ length l ∧ drop idx l = filter (λ p, (h ≤ p)%N) l ∧ take idx l = filter (λ p, ¬ (h ≤ p)%N) l.
Proof.
  intros Hl. cbv zeta.
  destruct (sort_Search_spec (λ i, (h <=? nth i l 0)%N) (length l)) as (Hlen&Hlo&Hhi).
  { intros i j Hij Hj. rewrite !N.leb_le. pose proof (sorted_nth_le l i j Hl Hij Hj). lia. }
  set (idx := sort_Search _ _) in *. clearbody idx. split; [done|].
  assert (∀ p, p ∈ take idx l → ¬ (h ≤ p)%N) as Htake.
  { intros p (i&Hp&Hi)%elem_of_take. specialize (Hlo i Hi).
    rewrite (nth_lookup_Some _ _ _ _ Hp) in Hlo. by apply N.leb_gt in Hlo; lia. }
  assert (∀ p, p ∈ drop idx l → (h ≤ p)%N) as Hdrop.
  { intros p (i&Hp)%list_elem_of_lookup. rewrite lookup_drop in Hp.
    pose proof (lookup_lt_Some _ _ _ Hp) as Hlt. specialize (Hhi (idx + i) ltac:(lia) Hlt).
    rewrite (nth_lookup_Some _ _ _ _ Hp) in Hhi. by apply N.leb_le in Hhi. }
  rewrite <-(take_drop idx l) at 2 4. rewrite !filter_app.
  split.
  - by rewrite (filter_none _ (take idx l)), (filter_all _ (drop idx l)).
  - rewrite (filter_all _ (take idx l)), (filter_none _ (drop idx l)), app_nil_r; naive_solver.
Qed.

(** ** The loop of GetN *)

Section GetN_loop.
Context (r : Ring) (S : gset string) (idx : nat) (n : Z).
Hypothesis Hr : ring_repr r S.
Hypothesis Hidx : idx ≤ length (sortedHashes r).

Let walk : list string := owner r <$> (drop idx (sortedHashes r) ++ take idx (sortedHashes r)).

Lemma walk_length : length walk = length (sortedHashes r).
Proof. unfold walk. rewrite length_fmap, length_app, length_drop, length_take. lia. Qed.

Lemma walk_lookup i :
  i < length (sortedHashes r) →
  walk !! i = Some (owner r (nth ((idx + i) mod length (sortedHashes r)) (sortedHashes r) 0%N)).
Proof.
  intros Hi. unfold walk. rewrite list_lookup_fmap, rotate_lookup by done.
  destruct (nth_lookup_or_length (sortedHashes r) ((idx + i) mod length (sortedHashes r)) 0%N)
    as [->|Hge]; [done|].
  pose proof (Nat.mod_upper_bound (idx + i) (length (sortedHashes r))). lia.
Qed.

Lemma walk_elem o : o ∈ walk → o ∈ S.
Proof.
  unfold walk. rewrite list_elem_of_fmap. intros (p&->&Hp).
  apply (owner_elem r S); [done|]. rewrite <-(take_drop idx (sortedHashes r)). set_solver.
Qed.

(** The loop appends the unseen owners of the rest of the walk, up to [n]. *)
Lemma GetN_loop_spec fuel i X result :
  i + fuel = length (sortedHashes r) → X ⊆ S →
  GetN_loop r idx n fuel i (gset_to_gmap true X) result =
  result ++ take (Z.to_nat (n - Z.of_nat (length result)))
                 (filter (λ o, o ∉ X) (uniq (drop i walk))).
Proof.
  revert i X result. induction fuel as [|fuel IH]; intros i X result Hi HX; cbn [GetN_loop].
  { rewrite drop_ge by (rewrite walk_length; lia). cbn [uniq].
    by rewrite filter_nil, take_nil, app_nil_r. }
  destruct (Nat.ltb_spec i (length (sortedHashes r))) as [Hlt|]; [|lia]. cbn [andb].
  destruct (Z.ltb_spec (Z.of_nat (length result)) n) as [Hn|Hn]; cbn [andb]; last first.
  { replace (Z.to_nat _) with 0 by lia. by rewrite take_0, app_nil_r. }
  rewrite (repr_nodes _ _ Hr), <-!size_dom, !dom_gset_to_gmap.
  destruct (Nat.ltb_spec (size X) (size S)) as [HXS|HXS]; last first.
  { assert (X = S) as -> by (apply set_subseteq_size_eq; [done|lia]).
    rewrite (filter_none _ (uniq (drop i walk))), take_nil, app_nil_r; [done|].
    intros o Ho Hno. rewrite elem_of_uniq in Ho. by apply Hno, walk_elem, (subseteq_drop i). }
  fold (owner r (nth ((idx + i) mod length (sortedHashes r)) (sortedHashes r) 0%N)).
  rewrite (drop_S _ _ _ (walk_lookup i Hlt)), filter_uniq_cons.
  assert (owner r (nth ((idx + i) mod length (sortedHashes r)) (sortedHashes r) 0%N) ∈ S) as HoS.
  { apply walk_elem. by eapply list_elem_of_lookup_2, walk_lookup. }
  set (o := owner r _) in *. clearbody o.
  rewrite lookup_gset_to_gmap. destruct (decide (o ∈ X)) as [HoX|HoX].
  - rewrite option_guard_True by done. cbn [default negb id].
    rewrite decide_False by naive_solver. apply IH; [lia|done].
  - rewrite option_guard_False by done. cbn [default negb id].
    rewrite decide_True, <-gset_to_gmap_union_singleton by done.
    rewrite IH by (lia || set_solver). rewrite <-(assoc_L (++)), length_app. f_equal.
    replace (Z.to_nat (n - Z.of_nat (length result)))
      with (Datatypes.S (Z.to_nat (n - Z.of_nat (length result + 1)))) by lia.
    cbn [take app length]. do 2 f_equal. apply list_filter_iff. set_solver.
Qed.
End GetN_loop.

(** [GetN] returns the first [n] nodes of the key's preference list. *)
Lemma GetN_preference r S key n :
  ring_repr r S → GetN r key n = take (Z.to_nat n) (preference r key).
Proof.
  intros Hr. unfold GetN, preference, clockwise.
  destruct (Nat.eqb_spec (length (sortedHashes r)) 0) as [Hlen|Hlen]; cbn [orb].
  { apply nil_length_inv in Hlen. rewrite Hlen, !filter_nil. cbn [app fmap list_fmap uniq].
    by rewrite take_nil. }
  destruct (Z.leb_spec n 0) as [Hn|Hn].
  { by replace (Z.to_nat n) with 0 by lia. }
  destruct (search_split (sortedHashes r) (hashKey key) (repr_sorted _ _ Hr)) as (Hidx&<-&<-).
  rewrite <-gset_to_gmap_empty with (x := true), (GetN_loop_spec r S) by (done || set_solver).
  cbn [length app drop]. rewrite Z.sub_0_r, drop_0, filter_all; [done|]. set_solver.
Qed.

(** ** The preference list of a key *)

Lemma points_nonempty id : ∃ h, h ∈ points id.
Proof.
  exists (hashKey (vKey id 0)). unfold points. apply list_elem_of_fmap.
  exists 0. split; [done|].
  with_strategy transparent [VirtualNodesPerNode] unfold VirtualNodesPerNode.
  by left.
Qed.

Lemma clockwise_perm r h : clockwise r h ≡ₚ sortedHashes r.
Proof.
  unfold clockwise. induction (sortedHashes r) as [|x l IH]; [done|].
  rewrite !filter_cons. destruct (decide (h ≤ x)%N).
  - rewrite decide_False by naive_solver. simpl. by rewrite IH.
  - rewrite decide_True by done. rewrite <-Permutation_middle. by rewrite IH.
Qed.

Lemma elem_of_preference r S key id : ring_repr r S → id ∈ preference r key ↔ id ∈ S.
Proof.
  intros Hr. unfold preference. rewrite elem_of_uniq, list_elem_of_fmap.
  setoid_rewrite clockwise_perm. split.
  - intros (p&->&Hp). by apply (owner_elem r S p Hr).
  - intros Hid. destruct (points_nonempty id) as [h Hh]. exists h.
    rewrite (owner_points r S h id), (elem_of_sortedHashes r S) by done. eauto.
Qed.

Lemma NoDup_preference r key : NoDup (preference r key).
Proof. apply NoDup_uniq. Qed.

Lemma length_preference r S key : ring_repr r S → length (preference r key) = size S.
Proof.
  intros Hr. unfold size, set_size. simpl. apply Permutation_length.
  apply NoDup_Permutation; [apply NoDup_preference|apply NoDup_elements|].
  intros id. rewrite elem_of_elements. by apply elem_of_preference.
Qed.

Lemma sortedHashes_RemoveNode r S id :
  ring_repr r S → sortedHashes (RemoveNode r id) = filter (λ h, owner r h ≠ id) (sortedHashes r).
Proof.
  intros Hr. unfold RemoveNode. rewrite (nodes_lookup r S) by done. case_bool_decide as Hid; simpl.
  - by destruct (removePoint_points r S id Hr) as (m&->&_).
  - rewrite filter_all; [done|]. intros h [Ho _]%(owner_elem r S h Hr). by intros <-.
Qed.

Lemma owner_RemoveNode r S id h :
  ring_repr r S → h ∈ sortedHashes (RemoveNode r id) → owner (RemoveNode r id) h = owner r h.
Proof.
  intros Hr Hh. pose proof (ring_repr_RemoveNode r S id Hr) as Hr'.
  destruct (owner_elem _ _ h Hr' Hh) as [Ho Hp]. symmetry.
  apply (owner_points r S); [done|set_solver|done].
Qed.

Lemma fmap_filter_owner r id (l : list N) :
  filter (λ o, o ≠ id) (owner r <$> l) = owner r <$> filter (λ h, owner r h ≠ id) l.
Proof.
  induction l as [|h l IH]; [done|]. rewrite fmap_cons, !filter_cons.
  case_decide; by rewrite IH.
Qed.

(** Removing a node filters it out of every preference list. *)
Lemma preference_RemoveNode r S id key :
  ring_repr r S → preference (RemoveNode r id) key = filter (λ o, o ≠ id) (preference r key).
Proof.
  intros Hr. unfold preference. rewrite filter_uniq, fmap_filter_owner. f_equal.
  assert (clockwise (RemoveNode r id) (hashKey key) =
          filter (λ h, owner r h ≠ id) (clockwise r (hashKey key))) as Hc.
  { unfold clockwise. rewrite (sortedHashes_RemoveNode r S) by done.
    rewrite filter_app. f_equal; apply filter_filter_comm. }
  rewrite <-Hc. apply list_fmap_ext. intros i h Hh%list_elem_of_lookup_2.
  apply (owner_RemoveNode r S); [done|]. by rewrite <-(clockwise_perm _ (hashKey key)).
Qed.

Lemma preference_AddNode r S id key :
  ring_repr r S → id ∉ S → distinct_points ({[id]} ∪ S) →
  filter (λ o, o ≠ id) (preference (AddNode r id) key) = preference r key.
Proof.
  intros Hr Hid Hd.
  rewrite <-(preference_RemoveNode _ ({[id]} ∪ S)) by auto with ring.
  f_equal. apply (ring_repr_unique _ _ S); [|done].
  replace S with (({[id]} ∪ S) ∖ {[id]}) by set_solver. auto with ring.
Qed.

(** Dropping one element of a duplicate-free list from its prefixes. *)
Lemma take_filter_one (l : list string) x n :
  NoDup l →
  take n (filter (λ o, o ≠ x) l) =
  if decide (x ∈ take n l) then filter (λ o, o ≠ x) (take (S n) l) else take n l.
Proof.
  revert n. induction l as [|y l IH]; intros n Hl.
  { rewrite filter_nil, !take_nil. by case_decide. }
  apply NoDup_cons in Hl as [Hy Hl]. rewrite filter_cons.
  destruct n as [|n]; [by rewrite !take_0|].
  destruct (decide (y = x)) as [->|Hne].
  - rewrite decide_False by naive_solver. rewrite decide_True by (simpl; by left).
    rewrite firstn_cons, filter_cons, decide_False by naive_solver.
    rewrite !filter_all; [done|..]; intros z Hz ->; [|done].
    by apply Hy, (subseteq_take (S n)).
  - rewrite decide_True by done. rewrite !firstn_cons, (IH n Hl).
    rewrite (filter_cons _ y), (decide_True (P := y ≠ x)) by done.
    repeat case_decide; set_solver.
Qed.

(** The owner of a key is the first of its preference list. *)
Lemma Get_head r S key :
  ring_repr r S → Get r key = match preference r key with [] => ("", false) | n :: _ => (n, true) end.
Proof.
  intros Hr. unfold Get. rewrite (GetN_preference r S) by done. change (Z.to_nat 1) with 1.
  by destruct (preference r key).
Qed.

(** When a node joins, the keys whose owner changes are those it owns afterwards. *)
Lemma Get_AddNode_moves r S id key :
  ring_repr r S → id ∉ S → distinct_points ({[id]} ∪ S) → id ≠ "" →
  (Get (AddNode r id) key).1 ≠ (Get r key).1 ↔ (Get (AddNode r id) key).1 = id.
Proof.
  intros Hr Hid Hd Hne.
  rewrite (Get_head r S), (Get_head (AddNode r id) ({[id]} ∪ S)) by auto with ring.
  pose proof (preference_AddNode r S id key Hr Hid Hd) as Hp.
  destruct (preference (AddNode r id) key) as [|n l] eqn:Hpref.
  - rewrite filter_nil in Hp. rewrite <-Hp. cbn. naive_solver.
  - rewrite filter_cons in Hp. case_decide as Hn.
    + rewrite <-Hp. cbn. naive_solver.
    + subst n. cbn. split; [done|]. intros _.
      destruct (preference r key) as [|o k] eqn:Ho; [done|]. cbn. intros ->. apply Hid.
      apply (elem_of_preference r S key); [done|]. rewrite Ho. by left.
Qed.

(** When a node leaves, the keys whose owner changes are those it owned. *)
Lemma Get_RemoveNode_moves r S id key :
  ring_repr r S → id ≠ "" →
  (Get (RemoveNode r id) key).1 ≠ (Get r key).1 ↔ (Get r key).1 = id.
Proof.
  intros Hr Hne.
  rewrite (Get_head r S), (Get_head (RemoveNode r id) (S ∖ {[id]})) by auto with ring.
  rewrite (preference_RemoveNode r S) by done.
  destruct (preference r key) as [|n l] eqn:Hpref; [cbn; naive_solver|].
  rewrite filter_cons. case_decide as Hn; [cbn; naive_solver|]. subst n.
  cbn. split; [done|]. intros _. destruct (filter _ l) as [|o k] eqn:Ho; [done|]. cbn. intros ->.
  assert (id ∈ filter (λ o, o ≠ id) l) as [? _]%list_elem_of_filter by (rewrite Ho; by left). done.
Qed.

(** ** Theorems *)

Lemma length_GetN r S key n :
  ring_repr r S → length (GetN r key n) = Z.to_nat n `min` size S.
Proof. intros Hr. by rewrite (GetN_preference r S), length_take, (length_preference r S) by done. Qed.

(** On a ring of no more than [n] nodes all are in every replica set. *)
Lemma GetN_all r S key n id :
  ring_repr r S → size S ≤ Z.to_nat n → id ∈ S → id ∈ GetN r key n.
Proof.
  intros Hr Hn Hid. rewrite (GetN_preference r S), take_ge by (done || by rewrite (length_preference r S)).
  by apply (elem_of_preference r S).
Qed.

(** [C15] [GetN] returns distinct members of the ring, as many as asked for or,
    when the ring is smaller, all of them; a non-positive [n] gives none. *)
Theorem GetN_spec r S key n :
  ring_repr r S →
  NoDup (GetN r key n) ∧ (∀ id, id ∈ GetN r key n → id ∈ S) ∧
  length (GetN r key n) = Z.to_nat n `min` size S.
Proof.
  intros Hr. rewrite (GetN_preference r S) by done. split_and!.
  - eapply sublist_NoDup; [apply NoDup_preference|apply sublist_take].
  - intros id Hid%subseteq_take. by apply (elem_of_preference r S key).
  - by rewrite length_take, (length_preference r S).
Qed.

(** A smaller request is answered by a prefix of a larger one, so the primary
    owner [Get] returns heads every replica set, and raising the replication factor
    never moves an existing replica. *)
Theorem GetN_prefix r S key n m :
  ring_repr r S → (n ≤ m)%Z → GetN r key n `prefix_of` GetN r key m.
Proof.
  intros Hr Hnm. rewrite !(GetN_preference r S) by done.
  replace (Z.to_nat n) with (Z.to_nat n `min` Z.to_nat m) by lia.
  rewrite <-take_take. apply prefix_take.
Qed.

Lemma hd_clockwise_least r h p l :
  StronglySorted N.le (sortedHashes r) → clockwise r h = p :: l →
  (h ≤ p ∧ ∀ q, q ∈ sortedHashes r → h ≤ q → p ≤ q)%N ∨
  ((∀ q, q ∈ sortedHashes r → q < h)%N ∧ ∀ q, q ∈ sortedHashes r → (p ≤ q)%N).
Proof.
  intros Hs. unfold clockwise.
  pose proof (StronglySorted_filter _ (λ p, (h ≤ p)%N) _ Hs) as Hge.
  pose proof (StronglySorted_filter _ (λ p, ¬ (h ≤ p)%N) _ Hs) as Hlt.
  assert (∀ q, q ∈ sortedHashes r → (h ≤ q)%N → q ∈ filter (λ p, (h ≤ p)%N) (sortedHashes r)) as Hq
    by (intros; by apply list_elem_of_filter).
  assert (∀ q, q ∈ sortedHashes r → ¬ (h ≤ q)%N → q ∈ filter (λ p, ¬ (h ≤ p)%N) (sortedHashes r)) as Hq'
    by (intros; by apply list_elem_of_filter).
  assert (∀ q, q ∈ filter (λ p, (h ≤ p)%N) (sortedHashes r) → (h ≤ q)%N) as Hin
    by (by intros q [? _]%list_elem_of_filter).
  destruct (filter _ (sortedHashes r)) as [|x k]; simpl; intros Heq; [right|left].
  - assert (∀ q, q ∈ sortedHashes r → (q < h)%N) as Hall.
    { intros q Hqs. destruct (decide (h ≤ q)%N); [|lia]. by apply Hq, elem_of_nil in Hqs. }
    split; [done|]. intros q Hqs. rewrite Heq in Hlt, Hq'.
    apply StronglySorted_inv in Hlt as [_ Hlt].
    specialize (Hq' q Hqs). specialize (Hall q Hqs).
    apply elem_of_cons in Hq' as [->|Hql]; [lia| |lia].
    by eapply Forall_forall in Hlt.
  - injection Heq as -> _. split; [apply Hin; by left|]. intros q Hqs Hhq.
    apply StronglySorted_inv in Hge as [_ Hge].
    specialize (Hq q Hqs Hhq). apply elem_of_cons in Hq as [->|Hqk]; [lia|].
    by eapply Forall_forall in Hge.
Qed.

(** [C16] [Get] returns the node that owns the first virtual node clockwise from the
    key: the one at the least position not below the key's, or, when there is
    none, the one at the least position of the ring. *)
Theorem Get_successor r S key :
  ring_repr r S → S ≠ ∅ →
  ∃ p, p ∈ sortedHashes r ∧ Get r key = (owner r p, true) ∧
    ((hashKey key ≤ p ∧ ∀ q, q ∈ sortedHashes r → hashKey key ≤ q → p ≤ q)%N ∨
     ((∀ q, q ∈ sortedHashes r → q < hashKey key)%N ∧
      ∀ q, q ∈ sortedHashes r → (p ≤ q)%N)).
Proof.
  intros Hr (id&Hid)%set_choose_L. unfold Get.
  rewrite (GetN_preference r S) by done. unfold preference.
  destruct (clockwise r (hashKey key)) as [|p l] eqn:Hc.
  - apply (elem_of_preference r S key) in Hid; [|done].
    unfold preference in Hid. rewrite Hc in Hid. by apply elem_of_nil in Hid.
  - exists p. split_and!; [|done|].
    + rewrite <-(clockwise_perm r (hashKey key)), Hc. by left.
    + apply (hd_clockwise_least r _ p l); [apply (repr_sorted _ _ Hr)|done].
Qed.

(** [C17] Minimal disruption on a departure: removing [id] leaves the replica set of
    every key it was not part of as it was; where it was part of one, it drops out,
    the others keep their order, and the next preferred node is appended. *)
Theorem GetN_RemoveNode r S id key n :
  ring_repr r S → (0 ≤ n)%Z →
  GetN (RemoveNode r id) key n =
  if decide (id ∈ GetN r key n) then filter (λ o, o ≠ id) (GetN r key (n + 1)) else GetN r key n.
Proof.
  intros Hr Hn.
  rewrite (GetN_preference (RemoveNode r id) (S ∖ {[id]})), !(GetN_preference r S)
    by auto with ring.
  rewrite (preference_RemoveNode r S) by done.
  replace (Z.to_nat (n + 1)) with (Datatypes.S (Z.to_nat n)) by lia.
  apply take_filter_one, NoDup_preference.
Qed.

(** [C39] Minimal disruption on a join: the new node takes its place in some
    replica sets, each of which loses at most its last member; every other set is
    as it was.  Read from the new ring: taking the new node out of its (n+1)
    replicas gives the n replicas of before. *)
Theorem GetN_AddNode r S id key n :
  ring_repr r S → id ∉ S → distinct_points ({[id]} ∪ S) → (0 ≤ n)%Z →
  GetN r key n =
  if decide (id ∈ GetN (AddNode r id) key n)
  then filter (λ o, o ≠ id) (GetN (AddNode r id) key (n + 1))
  else GetN (AddNode r id) key n.
Proof.
  intros Hr Hid Hd Hn.
  rewrite (GetN_preference r S), !(GetN_preference (AddNode r id) ({[id]} ∪ S)) by auto with ring.
  rewrite <-(preference_AddNode r S id) by done.
  replace (Z.to_nat (n + 1)) with (Datatypes.S (Z.to_nat n)) by lia.
  apply take_filter_one, NoDup_preference.
Qed.

(** Losing one node moves every other member of a replica set up, or leaves it. *)
Lemma survivor_stays r S id key n o :
  ring_repr r S → o ∈ GetN r key n → o ≠ id → o ∈ GetN (RemoveNode r id) key n.
Proof.
  intros Hr Ho Hne. rewrite (GetN_preference r S) in Ho by done.
  rewrite (GetN_preference _ (S ∖ {[id]})), (preference_RemoveNode r S) by auto with ring.
  rewrite take_filter_one by apply NoDup_preference.
  case_decide; [|done]. apply list_elem_of_filter. split; [done|].
  revert Ho. rewrite !elem_of_take. naive_solver lia.
Qed.

(** The survivors of a replica set stay in it when other nodes are removed. *)
Lemma survivors_stay r r' S S' key k o :
  ring_repr r S → ring_repr r' S' → S' ⊆ S → o ∈ GetN r key k → o ∈ S' → o ∈ GetN r' key k.
Proof.
  intros Hr Hr' Hsub Ho HoS. assert (S' = S ∖ list_to_set (elements (S ∖ S'))) as HS'.
  { rewrite list_to_set_elements_L. apply set_eq. intros x. rewrite !elem_of_difference.
    destruct (decide (x ∈ S')); set_solver. }
  assert (o ∉ elements (S ∖ S')) as Hout by set_solver. rewrite HS' in Hr'. clear HS' Hsub HoS. revert Hr' Hout.
  generalize (elements (S ∖ S')). intros D. clear S'. revert r S Hr Ho. induction D as [|d D IH]; intros r S Hr Ho Hr'.
  - cbn in Hr'. rewrite difference_empty_L in Hr'. by rewrite (ring_repr_unique r' r S).
  - intros [Hd HD]%not_elem_of_cons. apply (IH (RemoveNode r d) (S ∖ {[d]})); [auto with ring|by eapply survivor_stays| |done].
    cbn in Hr'. by rewrite difference_difference_l_L.
Qed.

(** The size of a set made from a list. *)
Lemma size_list_to_set_le (l : list string) : size (list_to_set l : gset string) ≤ length l.
Proof.
  induction l as [|x l IH]; cbn [list_to_set foldr length]; [by rewrite size_empty|].
  change (size ({[x]} ∪ list_to_set l : gset string) ≤ S (length l)).
  pose proof (size_union_alt {[x]} (list_to_set l : gset string)) as Hsize. rewrite size_singleton in Hsize.
  assert (size (list_to_set l ∖ {[x]} : gset string) ≤ size (list_to_set l : gset string)) by (apply subseteq_size; set_solver).
  lia.
Qed.

Lemma GetN_members r S key n id : ring_repr r S → id ∈ GetN r key n → id ∈ S.
Proof. intros Hr. rewrite (GetN_preference r S) by done. intros Hid%subseteq_take. by apply (elem_of_preference r S key). Qed.

(** Fewer deaths than replicas leave a member of every replica set, if they leave a node. *)
Lemma target_survives r S (D : gset string) key n :
  ring_repr r S → size D < Z.to_nat n → (∃ x, x ∈ S ∧ x ∉ D) → ∃ x, x ∈ GetN r key n ∧ x ∉ D.
Proof.
  intros Hr Hsize (y&Hy&HyD). pose proof (length_GetN r S key n Hr) as Hl.
  assert (NoDup (GetN r key n)) as Hnd.
  { rewrite (GetN_preference r S) by done. eapply sublist_NoDup; [apply NoDup_preference|apply sublist_take]. }
  destruct (decide (Exists (λ x, x ∉ D) (GetN r key n))) as [Hex|Hno]; [by apply Exists_exists in Hex|exfalso].
  apply not_Exists_Forall in Hno; [|apply _]. rewrite Forall_forall in Hno.
  assert ((list_to_set (GetN r key n) : gset string) ⊆ D ∩ S) as Hsub.
  { intros x Hx%elem_of_list_to_set. apply elem_of_intersection. split; [apply dec_stable; by apply Hno|by eapply GetN_members]. }
  apply subseteq_size in Hsub. rewrite size_list_to_set in Hsub by done.
  assert (size (D ∩ S) ≤ size D) by (apply subseteq_size; set_solver).
  assert (size (D ∩ S) < size S) by (apply subset_size; set_solver). lia.
Qed.

(** Every surviving member of a replica set is still a member of it after
    another node is removed: the survivors of a failure are the ones that know
    they have to repair. *)
Theorem survivors_remain r S id key n o :
  ring_repr r S → o ∈ GetN r key n → o ≠ id → o ∈ GetN (RemoveNode r id) key n.
Proof. apply survivor_stays. Qed.

(** A removed node is in no replica set: the replica sets a repair pass
    recomputes never contain the node whose death started it. *)
Lemma removed_gone r S id key n :
  ring_repr r S → id ∉ GetN (RemoveNode r id) key n.
Proof.
  intros Hr. rewrite (GetN_preference _ (S ∖ {[id]})) by auto with ring.
  intros Hid%subseteq_take. apply (elem_of_preference _ (S ∖ {[id]})) in Hid;
    [set_solver|auto with ring].
Qed.

(** ** Witnesses, on the ring of "node-a" and "node-b" *)

Lemma GetN_spec_witness :
  NoDup (GetN demo_ring "chunk" 3) ∧
  (∀ id, id ∈ GetN demo_ring "chunk" 3 → id ∈ ({["node-a"; "node-b"]} : gset string)) ∧
  length (GetN demo_ring "chunk" 3) = Z.to_nat 3 `min` size ({["node-a"; "node-b"]} : gset string).
Proof. apply (GetN_spec demo_ring {["node-a"; "node-b"]} "chunk" 3), demo_ring_repr. Defined.

Lemma GetN_prefix_witness : GetN demo_ring "chunk" 1 `prefix_of` GetN demo_ring "chunk" 3.
Proof. apply (GetN_prefix demo_ring {["node-a"; "node-b"]}); [apply demo_ring_repr|lia]. Defined.

Lemma Get_successor_witness :
  ∃ p, p ∈ sortedHashes demo_ring ∧ Get demo_ring "chunk" = (owner demo_ring p, true) ∧
    ((hashKey "chunk" ≤ p ∧ ∀ q, q ∈ sortedHashes demo_ring → hashKey "chunk" ≤ q → p ≤ q)%N ∨
     ((∀ q, q ∈ sortedHashes demo_ring → q < hashKey "chunk")%N ∧
      ∀ q, q ∈ sortedHashes demo_ring → (p ≤ q)%N)).
Proof.
  apply (Get_successor demo_ring {["node-a"; "node-b"]}); [apply demo_ring_repr|set_solver].
Defined.

Lemma GetN_RemoveNode_witness :
  GetN (RemoveNode demo_ring "node-a") "chunk" 1 =
  if decide ("node-a" ∈ GetN demo_ring "chunk" 1)
  then filter (λ o, o ≠ "node-a") (GetN demo_ring "chunk" 2) else GetN demo_ring "chunk" 1.
Proof.
  apply (GetN_RemoveNode demo_ring {["node-a"; "node-b"]} "node-a" "chunk" 1);
    [apply demo_ring_repr|lia].
Defined.

Lemma GetN_AddNode_witness :
  GetN demo_ring "chunk" 1 =
  if decide ("node-c" ∈ GetN (AddNode demo_ring "node-c") "chunk" 1)
  then filter (λ o, o ≠ "node-c") (GetN (AddNode demo_ring "node-c") "chunk" 2)
  else GetN (AddNode demo_ring "node-c") "chunk" 1.
Proof.
  apply (GetN_AddNode demo_ring {["node-a"; "node-b"]} "node-c" "chunk" 1);
    [apply demo_ring_repr|set_solver|apply demo_ring_add_distinct|lia].
Defined.

(** Both nodes hold a key of factor 3 on a ring of two. *)
Lemma demo_GetN_all id :
  id ∈ ({["node-a"; "node-b"]} : gset string) → id ∈ GetN demo_ring "chunk" 3.
Proof. apply (GetN_all demo_ring _ "chunk" 3 id demo_ring_repr). vm_compute. lia. Qed.

Lemma survivors_remain_witness : "node-b" ∈ GetN (RemoveNode demo_ring "node-a") "chunk" 3.
Proof.
  apply (survivors_remain demo_ring {["node-a"; "node-b"]});
    [apply demo_ring_repr|apply demo_GetN_all; set_solver|done].
Defined.
