(* ===== verification/Rebalance.v ===== *)
(** * benchmarks/rebalance: what a join or a departure moves

    [runScenario] counts the keys whose owner changes, with the ring of the node and with
    the modulus it is compared to; the percentages it derives in floating point are left
    out.  The theorems give the two counts of the ring: exactly the keys the new node
    owns, and exactly those the departed node owned.  A panic - a negative number of
    keys, a division by no nodes - is [None]. *)
From S2P Require Import Prelude GoLib Sha HashRing Placement.

(** [h % uint64(n)], converted back to an int. *)
Definition naiveOwner (chunkID : string) (n : Z) : option Z :=
  let h := Z.of_N (BigEndian_Uint64 (take 8 (sha1_Sum (bytes_of chunkID)))) in
  let m := (n mod 2 ^ 64)%Z in
  if (m =? 0)%Z then None else Some (wrap64 (h mod m)).

Record Scenario := MkScenario {
  totalKeys : Z;
  movedNaive : Z;
  movedConsist : Z;
  timeNaive : Z;
  timeConsistent : Z;
}.

Definition bench_keys (total : Z) : list string :=
  (λ i, "chunk-" +:+ Itoa total +:+ "-" +:+ Itoa (Z.of_nat i)) <$> seq 0 (Z.to_nat total).

Definition bench_node (i : nat) : string := "node-" +:+ Itoa (Z.of_nat i).

(** The ring before the event; the loop does not run for a negative number of nodes. *)
Definition bench_ring (nodesBefore : Z) : Ring :=
  foldl (λ r i, AddNode r (bench_node i)) hashring_New (seq 0 (Z.to_nat nodesBefore)).

(** The loops that compare the owners before and after. *)
Definition moved {A} `{EqDecision A} (before after : list A) : Z :=
  Z.of_nat (length (filter (λ p : A * A, p.2 ≠ p.1) (zip before after))).

Definition runScenario (total nodesBefore nodesAfter perChunkCost : Z) (removed : string) : option Scenario :=
  if (total <? 0)%Z then None
  else
    let keys := bench_keys total in
    match mapM (λ k, naiveOwner k nodesBefore) keys, mapM (λ k, naiveOwner k nodesAfter) keys with
    | Some beforeNaive, Some afterNaive =>
        let ring := bench_ring nodesBefore in
        let beforeConsistent := (λ k, (Get ring k).1) <$> keys in
        let ring :=
          if (nodesBefore <? nodesAfter)%Z then AddNode ring ("node-" +:+ Itoa nodesBefore)
          else if (nodesAfter <? nodesBefore)%Z then RemoveNode ring removed else ring in
        let afterConsistent := (λ k, (Get ring k).1) <$> keys in
        let mn := moved beforeNaive afterNaive in
        let mc := moved beforeConsistent afterConsistent in
        Some (MkScenario total mn mc (wrap64 (mn * perChunkCost)) (wrap64 (mc * perChunkCost)))
    | _, _ => None
    end.

(** The two scenarios of [main]. *)
Definition join_scenario (total nodes cost : Z) : option Scenario := runScenario total nodes (nodes + 1) cost "".
Definition leave_scenario (total nodes cost : Z) : option Scenario := runScenario total nodes (nodes - 1) cost "node-0".

(** ** Lemmas *)

Definition bench_nodes (n : nat) : gset string := list_to_set (bench_node <$> seq 0 n).

Lemma bench_nodes_S n : bench_nodes (S n) = {[bench_node n]} ∪ bench_nodes n.
Proof. unfold bench_nodes. rewrite seq_S, fmap_app, list_to_set_app_L. cbn. set_solver. Qed.

Lemma bench_node_inj i j : bench_node i = bench_node j → i = j.
Proof. by intros Heq%(inj _). Qed.

Lemma bench_node_fresh n : bench_node n ∉ bench_nodes n.
Proof.
  unfold bench_nodes. rewrite elem_of_list_to_set, list_elem_of_fmap.
  intros (i&Hi&Hin%elem_of_seq). apply bench_node_inj in Hi. lia.
Qed.

Lemma bench_node_nonempty n : bench_node n ≠ "".
Proof. done. Qed.

Lemma bench_ring_repr (n : nat) :
  distinct_points (bench_nodes n) → ring_repr (bench_ring (Z.of_nat n)) (bench_nodes n).
Proof.
  unfold bench_ring. rewrite Nat2Z.id. induction n as [|n IH]; intros Hd; [apply ring_repr_New|].
  rewrite seq_S, foldl_app. cbn [foldl Nat.add]. rewrite bench_nodes_S in Hd |- *.
  apply ring_repr_AddNode; [|done]. apply IH. eapply distinct_points_subset; [|exact Hd]. set_solver.
Qed.

Lemma moved_fmap {A} `{EqDecision A} (f g : string → A) keys :
  moved (f <$> keys) (g <$> keys) = Z.of_nat (count (λ k, g k ≠ f k) keys).
Proof.
  unfold moved, count. f_equal. induction keys as [|k keys IH]; [done|].
  cbn [fmap list_fmap zip zip_with]. rewrite !filter_cons. cbn [fst snd].
  repeat case_decide; cbn; congruence.
Qed.

Lemma count_iff {A} (P Q : A → Prop) `{∀ x, Decision (P x), ∀ x, Decision (Q x)} (l : list A) :
  (∀ x, P x ↔ Q x) → count P l = count Q l.
Proof. intros HPQ. unfold count. f_equal. by apply list_filter_iff. Qed.

Lemma naiveOwner_some k n : (0 < n < 2 ^ 64)%Z → is_Some (naiveOwner k n).
Proof.
  intros Hn. unfold naiveOwner. rewrite Z.mod_small by lia.
  destruct (Z.eqb_spec n 0); [lia|]. eauto.
Qed.

Lemma naive_owners keys n : (0 < n < 2 ^ 64)%Z → ∃ l, mapM (λ k, naiveOwner k n) keys = Some l.
Proof.
  intros Hn. apply mapM_is_Some_2, Forall_forall. intros k _. by apply naiveOwner_some.
Qed.

(** ** The theorems *)

(** On a join the ring moves exactly the keys the new node owns afterwards, on a
    departure exactly those the departed node owned, and nothing else. *)
Theorem rebalance_moves total (n : nat) cost :
  (0 ≤ total)%Z → 1 < n → (Z.of_nat n + 1 < 2 ^ 64)%Z → distinct_points (bench_nodes (S n)) →
  let r := bench_ring (Z.of_nat n) in
  (∃ s, join_scenario total (Z.of_nat n) cost = Some s ∧
    movedConsist s = Z.of_nat (count (λ k, (Get (AddNode r (bench_node n)) k).1 = bench_node n) (bench_keys total))) ∧
  (∃ s, leave_scenario total (Z.of_nat n) cost = Some s ∧
    movedConsist s = Z.of_nat (count (λ k, (Get r k).1 = bench_node 0) (bench_keys total))).
Proof.
  intros Htotal Hn Hmax Hd r.
  assert (ring_repr r (bench_nodes n)) as Hr.
  { apply bench_ring_repr. eapply distinct_points_subset; [|exact Hd]. rewrite bench_nodes_S. set_solver. }
  unfold join_scenario, leave_scenario, runScenario.
  rewrite (proj2 (Z.ltb_ge _ _)) by lia.
  destruct (naive_owners (bench_keys total) (Z.of_nat n)) as [l ->]; [lia|].
  destruct (naive_owners (bench_keys total) (Z.of_nat n + 1)) as [lj ->]; [lia|].
  destruct (naive_owners (bench_keys total) (Z.of_nat n - 1)) as [ll ->]; [lia|].
  rewrite (proj2 (Z.ltb_lt (Z.of_nat n) (Z.of_nat n + 1))), (proj2 (Z.ltb_ge (Z.of_nat n) (Z.of_nat n - 1))),
    (proj2 (Z.ltb_lt (Z.of_nat n - 1) (Z.of_nat n))) by lia.
  split; (eexists; split; [reflexivity|]); cbn [movedConsist]; rewrite moved_fmap; f_equal;
    apply count_iff; intros k.
  - apply (Get_AddNode_moves r (bench_nodes n)); [done|apply bench_node_fresh|by rewrite <-bench_nodes_S|done].
  - by apply (Get_RemoveNode_moves r (bench_nodes n)).
Qed.

(** The departure scenario of a cluster of one node divides by zero. *)
Theorem leave_of_one_panics total cost : (0 < total)%Z → leave_scenario total 1 cost = None.
Proof.
  intros Ht. unfold leave_scenario, runScenario. rewrite (proj2 (Z.ltb_ge _ _)) by lia.
  assert (mapM (λ k, naiveOwner k (1 - 1)) (bench_keys total) = None) as ->; [|by destruct (mapM _ _)].
  unfold bench_keys. destruct (Z.to_nat total) as [|m] eqn:Hm; [lia|]. done.
Qed.

(** ** Two nodes, and a third *)

Lemma bench_three_distinct : distinct_points (bench_nodes 3).
Proof. apply (bool_decide_unpack _). vm_compute. exact I. Qed.

Lemma rebalance_moves_witness :
  let r := bench_ring 2 in
  (∃ s, join_scenario 10 2 8 = Some s ∧
    movedConsist s = Z.of_nat (count (λ k, (Get (AddNode r (bench_node 2)) k).1 = bench_node 2) (bench_keys 10))) ∧
  (∃ s, leave_scenario 10 2 8 = Some s ∧
    movedConsist s = Z.of_nat (count (λ k, (Get r k).1 = bench_node 0) (bench_keys 10))).
Proof. apply (rebalance_moves 10 2 8); [done|lia|done|exact bench_three_distinct]. Defined.

Lemma leave_of_one_panics_witness : leave_scenario 10000 1 8 = None.
Proof. by apply leave_of_one_panics. Defined.
