(* ===== verification/Chunk.v ===== *)
(** * pkg/chunk: splitting, addressing and reassembling blobs

    [Split] reads a blob to its end and cuts it into pieces of the chunk size, each
    named by the SHA-256 of its bytes; [Reassemble] fetches the pieces of a manifest
    in order, verifies each and writes it out.  [chop] is the reference for the
    cutting.  The reader, the writer and the [get] callback are arbitrary: the
    theorems hold for a reader of any segmentation, a writer that may fail, and a
    [get] with a state of its own (a store, the network) that may answer anything. *)
From S2P Require Import Prelude GoLib GoIO Sha.
Local Open Scope Z_scope.

Definition DefaultSize : Z := 4 * 1024 * 1024.

Record Chunk := MkChunk {
  ck_ID : string;
  ck_Index : Z;
  ck_Data : bytes;
}.

Record Manifest := MkManifest {
  BlobID : string;
  Size : Z;
  ChunkIDs : list string;
  ChunkSize : Z;
}.

Definition ID (data : bytes) : string := hex_EncodeToString (sha256_Sum256 data).

Definition Verify (id : string) (data : bytes) : bool := bool_decide (ID data = id).

(** The loop of [Split].  Every iteration but the last consumes a full buffer, so a
    fuel above the number of bytes left is enough. *)
Fixpoint Split_loop (fuel : nat) (blobID : string) (buf : nat) (r : Reader)
    (chunks : list Chunk) (totalSize idx : Z) : result (list Chunk * Z) :=
  match fuel with
  | O => Ok (chunks, totalSize)
  | S fuel =>
      let '(data, err, r) := ReadFull r buf in
      let '(chunks, totalSize, idx) :=
        if (0 <? length data)%nat
        then (chunks ++ [MkChunk (ID data) idx data],
              wrap64 (totalSize + Z.of_nat (length data)), wrap64 (idx + 1))
        else (chunks, totalSize, idx) in
      match err with
      | None => Split_loop fuel blobID buf r chunks totalSize idx
      | Some e =>
          if decide (e = io_EOF) then Ok (chunks, totalSize)
          else if decide (e = io_ErrUnexpectedEOF) then Ok (chunks, totalSize)
          else Err (fmt_Errorf_w ("chunk: reading blob " +:+ blobID) e)
      end
  end.

Definition Split (blobID : string) (r : Reader) (chunkSize : Z) :
    result (list Chunk * Manifest) :=
  let chunkSize := if chunkSize <=? 0 then DefaultSize else chunkSize in
  match Split_loop (S (length (content r))) blobID (Z.to_nat chunkSize) r [] 0 0 with
  | Err e => Err e
  | Ok (chunks, totalSize) =>
      Ok (chunks, MkManifest blobID totalSize (ck_ID <$> chunks) chunkSize)
  end.

(** The body of [Reassemble]: the error returned, the writer and the state of [get]. *)
Section Reassemble.
Context {W G : Type} `{Writer W} (get : string → G → result bytes * G).

Fixpoint Reassemble_loop (ids : list string) (w : W) (g : G) : option error * W * G :=
  match ids with
  | [] => (None, w, g)
  | id :: ids =>
      let '(res, g) := get id g in
      match res with
      | Err err => (Some (fmt_Errorf_w ("chunk: fetching " +:+ id) err), w, g)
      | Ok data =>
          if negb (Verify id data)
          then (Some (fmt_Errorf ("chunk: integrity check failed for " +:+ id)), w, g)
          else
            let '(err, w) := w_write w data in
            match err with
            | Some err => (Some (fmt_Errorf_w ("chunk: writing " +:+ id) err), w, g)
            | None => Reassemble_loop ids w g
            end
      end
  end.

Definition Reassemble (w : W) (g : G) (m : Manifest) : option error * W * G :=
  Reassemble_loop (ChunkIDs m) w g.
End Reassemble.

(** ** Reference: cutting a byte list into pieces of [k] *)
Fixpoint chop_loop (fuel k : nat) (l : bytes) : list bytes :=
  match fuel, l with
  | S fuel, _ :: _ => take k l :: chop_loop fuel k (drop k l)
  | _, _ => []
  end.
Definition chop (k : nat) (l : bytes) : list bytes := chop_loop (length l) k l.

(** The chunks of a list of pieces, numbered from [i]. *)
Fixpoint number (i : Z) (ds : list bytes) : list Chunk :=
  match ds with [] => [] | d :: ds => MkChunk (ID d) i d :: number (i + 1) ds end.

#[global] Opaque ID.

(** ** The cutting *)

Lemma chop_loop_fuel fuel k l :
  (0 < k)%nat → (length l ≤ fuel)%nat → chop_loop fuel k l = chop k l.
Proof.
  intros Hk. unfold chop.
  assert (∀ n fuel l, length l ≤ n → n ≤ fuel → chop_loop fuel k l = chop_loop n k l)%nat as Hf.
  { clear fuel l. intros n. induction n as [|n IH]; intros fuel l Hl Hn.
    - destruct l; [|simpl in *; lia]. by destruct fuel.
    - destruct l as [|b l]; [by destruct fuel|]. destruct fuel as [|fuel]; [lia|].
      cbn [chop_loop]. f_equal. apply IH; [rewrite length_drop|]; simpl in *; lia. }
  intros Hl. by apply Hf.
Qed.

Lemma chop_nil k : chop k [] = [].
Proof. done. Qed.

Lemma chop_cons k l :
  (0 < k)%nat → l ≠ [] → chop k l = take k l :: chop k (drop k l).
Proof.
  intros Hk Hl. unfold chop at 1. destruct l as [|b l]; [done|]. cbn [length chop_loop].
  f_equal. apply chop_loop_fuel; [done|]. rewrite length_drop. simpl. lia.
Qed.

Lemma chop_short k l :
  (0 < k)%nat → l ≠ [] → (length l ≤ k)%nat → chop k l = [l].
Proof. intros Hk Hl Hlen. rewrite chop_cons, take_ge, drop_ge by done. by rewrite chop_nil. Qed.

Lemma wrap64_small z : - 2 ^ 63 ≤ z < 2 ^ 63 → wrap64 z = z.
Proof. intros Hz. unfold wrap64. rewrite Z.mod_small by lia. lia. Qed.

(** Whether the loop of [Split] takes a reader's error for the end of the blob. *)
Definition ends_blob (e : error) : Prop := e = io_EOF ∨ e = io_ErrUnexpectedEOF.

#[export] Instance ends_blob_dec e : Decision (ends_blob e).
Proof. unfold ends_blob. apply _. Defined.

Lemma Split_loop_spec fuel blobID buf r chunks total idx :
  (length (content r) < fuel)%nat → (0 < buf)%nat → 0 ≤ total → 0 ≤ idx →
  total + Z.of_nat (length (content r)) < 2 ^ 63 → idx + Z.of_nat (length (content r)) < 2 ^ 63 →
  Split_loop fuel blobID buf r chunks total idx =
  if decide (ends_blob (rd_err r))
  then Ok (chunks ++ number idx (chop buf (content r)), total + Z.of_nat (length (content r)))
  else Err (fmt_Errorf_w ("chunk: reading blob " +:+ blobID) (rd_err r)).
Proof.
  intros Hfuel Hbuf. revert r chunks total idx Hfuel.
  induction fuel as [|fuel IH]; intros r chunks total idx Hfuel Ht Hi Htb Hib; [lia|].
  cbn [Split_loop]. destruct (ReadFull_spec r buf) as (r'&->&Hc&He&_).
  destruct (decide (buf ≤ length (content r))%nat) as [Hlen|Hlen].
  - assert (length (content r') = length (content r) - buf)%nat as Hlen'
      by (by rewrite Hc, length_drop).
    rewrite length_take, Nat.min_l by done.
    destruct (Nat.ltb_spec 0 buf); [|lia]. rewrite !wrap64_small by lia.
    rewrite IH by lia. rewrite He, Hc.
    rewrite (chop_cons buf (content r)); [|done|intros Hn; rewrite Hn in Hlen; simpl in Hlen; lia].
    rewrite length_drop. case_decide; [|done].
    do 2 f_equal; [by rewrite <-(assoc_L (++))|lia].
  - rewrite take_ge by lia. destruct (content r) as [|b c] eqn:Hcr.
    + rewrite decide_False by naive_solver. cbn [length Nat.ltb Nat.leb].
      rewrite chop_nil, app_nil_r, Z.add_0_r. unfold ends_blob.
      repeat case_decide; naive_solver.
    + rewrite chop_short by (done || lia). cbn [number].
      destruct (Nat.ltb_spec 0 (length (b :: c))) as [_|Hl]; [|simpl in Hl; lia].
      rewrite wrap64_small by lia.
      destruct (decide (rd_err r = io_EOF)) as [HE|HE].
      * rewrite (decide_True (P := _ ∧ _)) by done. unfold ends_blob. repeat case_decide; naive_solver.
      * rewrite (decide_False (P := _ ∧ _)) by naive_solver.
        unfold ends_blob. repeat case_decide; naive_solver.
Qed.

(** The chunk size in force. *)
Definition chunk_size (chunkSize : Z) : Z := if chunkSize <=? 0 then DefaultSize else chunkSize.

Lemma chunk_size_pos cs : 0 < chunk_size cs.
Proof. unfold chunk_size, DefaultSize. destruct (Z.leb_spec cs 0); lia. Qed.

Lemma number_ids i ds : ck_ID <$> number i ds = ID <$> ds.
Proof. revert i. induction ds as [|d ds IH]; intros i; [done|]. simpl. by rewrite IH. Qed.

Lemma number_data i ds : ck_Data <$> number i ds = ds.
Proof. revert i. induction ds as [|d ds IH]; intros i; [done|]. simpl. by rewrite IH. Qed.

Lemma number_lookup i ds k c :
  number i ds !! k = Some c → ck_Index c = i + Z.of_nat k ∧ ck_ID c = ID (ck_Data c).
Proof.
  revert i k. induction ds as [|d ds IH]; intros i k; [done|].
  destruct k as [|k]; simpl; [intros [= <-]; simpl; split; [lia|done]|].
  intros [-> ?]%IH. split; [lia|done].
Qed.

Lemma number_lookup_data i ds k c : number i ds !! k = Some c → ds !! k = Some (ck_Data c).
Proof.
  revert i k. induction ds as [|d ds IH]; intros i k; [done|].
  destruct k as [|k]; simpl; [by intros [= <-]|apply IH].
Qed.

(** Every piece is the data of a chunk named by it. *)
Lemma number_elem i ds d : d ∈ ds → ∃ c, c ∈ number i ds ∧ ck_Data c = d ∧ ck_ID c = ID d.
Proof.
  revert i. induction ds as [|x ds IH]; intros i; [by intros ?%elem_of_nil|].
  intros [->|Hd]%elem_of_cons; simpl.
  - eexists. split; [by left|done].
  - destruct (IH (i + 1) Hd) as (c&?&?). exists c. split; [by right|done].
Qed.

Lemma Split_eq blobID r cs :
  Z.of_nat (length (content r)) < 2 ^ 63 →
  Split blobID r cs =
  if decide (ends_blob (rd_err r)) then
    let ds := chop (Z.to_nat (chunk_size cs)) (content r) in
    Ok (number 0 ds,
        MkManifest blobID (Z.of_nat (length (content r))) (ID <$> ds) (chunk_size cs))
  else Err (fmt_Errorf_w ("chunk: reading blob " +:+ blobID) (rd_err r)).
Proof.
  intros Hlen. unfold Split. fold (chunk_size cs). pose proof (chunk_size_pos cs).
  rewrite Split_loop_spec by lia. case_decide; [|done]. simpl.
  by rewrite number_ids.
Qed.

Lemma chop_concat k l : (0 < k)%nat → concat (chop k l) = l.
Proof.
  intros Hk. induction l as [l IH] using (induction_ltof1 _ (@length _)).
  destruct (decide (l = [])) as [->|Hl]; [done|].
  rewrite chop_cons by done. cbn [concat]. rewrite IH; [apply take_drop|].
  unfold ltof. rewrite length_drop. destruct l; [done|]. simpl. lia.
Qed.

Lemma chop_length k l : (0 < k)%nat → (length (chop k l) ≤ length l)%nat.
Proof.
  intros Hk. induction l as [l IH] using (induction_ltof1 _ (@length _)).
  destruct (decide (l = [])) as [->|Hl]; [done|].
  rewrite chop_cons by done. destruct l as [|b l]; [done|].
  specialize (IH (drop k (b :: l))). unfold ltof in IH. rewrite length_drop in IH.
  cbn [length] in *. lia.
Qed.

(** Every piece is full except possibly the last, which is not empty. *)
Lemma chop_lookup k l i d :
  (0 < k)%nat → chop k l !! i = Some d →
  (0 < length d ≤ k)%nat ∧ (S i < length (chop k l) → length d = k)%nat.
Proof.
  intros Hk. revert i. induction l as [l IH] using (induction_ltof1 _ (@length _)). intros i.
  destruct (decide (l = [])) as [->|Hl]; [done|].
  rewrite chop_cons by done. destruct i as [|i]; cbn [lookup list_lookup length].
  - intros [= <-]. rewrite length_take. split; [destruct l; [done|simpl; lia]|].
    intros Hlt. destruct (decide (k ≤ length l)%nat); [lia|].
    rewrite drop_ge in Hlt by lia. simpl in Hlt. lia.
  - intros Hd. apply IH in Hd as [? Hfull].
    + split; [done|]. intros. apply Hfull. lia.
    + unfold ltof. rewrite length_drop. destruct l; [done|]. simpl. lia.
Qed.

(** ** Reassembly *)

Section Reassemble_lemmas.
Context {W G : Type} `{Writer W} (get : string → G → result bytes * G).

(** Data [get] answered with at some point. *)
Definition answered (d : bytes) : Prop := ∃ id g g', get id g = (Ok d, g').

Lemma Verify_true id d : Verify id d = true ↔ ID d = id.
Proof. apply bool_decide_eq_true. Qed.

(** What is written is a prefix of verified answers, in the order of the manifest;
    with no error it is all of them. *)
Lemma Reassemble_loop_safe ids w g err w' g' :
  Reassemble_loop get ids w g = (err, w', g') →
  ∃ ds out, written w' = written w ++ out ∧ out `prefix_of` concat ds ∧
    (ID <$> ds) `prefix_of` ids ∧ Forall answered ds ∧
    (err = None → out = concat ds ∧ ID <$> ds = ids).
Proof.
  revert w g. induction ids as [|id ids IH]; intros w g; cbn [Reassemble_loop].
  { intros [= <- <- <-]. exists [], []. rewrite app_nil_r. by split_and!. }
  assert (∀ e, ∃ ds out, written w = written w ++ out ∧ out `prefix_of` concat ds ∧
    (ID <$> ds) `prefix_of` id :: ids ∧ Forall answered ds ∧
    (Some (A := error) e = None → out = concat ds ∧ ID <$> ds = id :: ids)) as Hstop.
  { intros e. exists [], []. rewrite app_nil_r. split_and!; try done. apply prefix_nil. }
  destruct (get id g) as [[data|e] g1] eqn:Hget; [|intros [= <- <- <-]; apply Hstop].
  destruct (Verify id data) eqn:HV; cbn [negb]; [|intros [= <- <- <-]; apply Hstop].
  apply Verify_true in HV. assert (answered data) as Hans by (by exists id, g, g1).
  destruct (w_write w data) as [[e|] w1] eqn:Hw.
  - intros [= <- <- <-]. destruct (write_err _ _ _ _ Hw) as [k Hk].
    exists [data], (take k data). cbn [concat fmap list_fmap]. rewrite app_nil_r, HV.
    split_and!; [done|apply prefix_take|apply prefix_cons, prefix_nil|by repeat constructor|done].
  - intros Hrest. destruct (IH _ _ Hrest) as (ds&out&Hw'&Hpre&Hids&Hall&Hok).
    exists (data :: ds), (data ++ out). cbn [concat fmap list_fmap].
    rewrite Hw', (write_ok _ _ _ Hw), HV, (assoc_L (++)).
    split_and!; [done|by apply prefix_app|by apply prefix_cons|by constructor|].
    intros [-> <-]%Hok. done.
Qed.

(** A source that has every piece, a writer that does not fail: everything is written. *)
Lemma Reassemble_loop_complete (P : W → Prop) (Q : G → Prop) ds w g :
  (∀ w b, P w → ∃ w', w_write w b = (None, w') ∧ P w') →
  (∀ d g, d ∈ ds → Q g → ∃ g', get (ID d) g = (Ok d, g') ∧ Q g') → P w → Q g →
  ∃ w' g', Reassemble_loop get (ID <$> ds) w g = (None, w', g') ∧
    written w' = written w ++ concat ds ∧ P w' ∧ Q g'.
Proof.
  intros HP. revert w g. induction ds as [|d ds IH]; intros w g Hget Hw Hg;
    cbn [fmap list_fmap Reassemble_loop concat].
  { exists w, g. by rewrite app_nil_r. }
  destruct (Hget d g) as (g1&->&Hg1); [by left|done|]. rewrite (proj2 (Verify_true _ _)) by done. cbn [negb].
  destruct (HP w d Hw) as (w1&Hw1&HP1). rewrite Hw1.
  destruct (IH w1 g1) as (w2&g2&->&Hw2&HP2); [set_solver|done..|].
  exists w2, g2. split; [done|]. split; [|done]. by rewrite Hw2, (write_ok _ _ _ Hw1), (assoc_L (++)).
Qed.
End Reassemble_lemmas.

(** Verified answers that are no SHA-256 second preimages of the pieces are the pieces. *)
Lemma verified_are_pieces ds answers :
  (ID <$> answers) `prefix_of` (ID <$> ds) →
  (∀ d a, d ∈ ds → a ∈ answers → ID a = ID d → a = d) →
  answers `prefix_of` ds.
Proof.
  revert ds. induction answers as [|a answers IH]; intros ds Hpre Hinj; [apply prefix_nil|].
  destruct ds as [|d ds]; cbn [fmap list_fmap] in Hpre; [by apply prefix_nil_not in Hpre|].
  pose proof (prefix_cons_inv_1 _ _ _ _ Hpre) as Hid.
  apply prefix_cons_inv_2 in Hpre.
  rewrite (Hinj d a) by (done || by left). apply prefix_cons, IH; [done|set_solver].
Qed.

Lemma concat_prefix (l k : list bytes) : l `prefix_of` k → concat l `prefix_of` concat k.
Proof. intros [m ->]. rewrite concat_app. by apply prefix_app_r. Qed.

(** Whatever the source answers, what reaches the writer is a prefix of the pieces the
    names belong to. *)
Lemma Reassemble_loop_pieces {W G} `{Writer W} (get : string → G → result bytes * G) ps w g err w' g' :
  Reassemble_loop get (ID <$> ps) w g = (err, w', g') →
  (∀ d a, d ∈ ps → answered get a → ID a = ID d → a = d) →
  ∃ out, written w' = written w ++ out ∧ out `prefix_of` concat ps ∧ (err = None → out = concat ps).
Proof.
  intros HR Hinj. apply Reassemble_loop_safe in HR as (ds&out&Hw&Hout&Hids&Hans&Hok).
  assert (ds `prefix_of` ps) as Hpre.
  { apply verified_are_pieces; [done|]. intros p d Hp Hd HID.
    apply Hinj; [done| |done]. by eapply Forall_forall in Hans. }
  exists out. split_and!; [done|etrans; [done|by apply concat_prefix]|].
  intros [-> Hfull]%Hok. f_equal. apply (f_equal length) in Hfull. rewrite !length_fmap in Hfull.
  destruct Hpre as [k Hk]. rewrite Hk, length_app in Hfull.
  by rewrite Hk, (nil_length_inv k), app_nil_r by lia.
Qed.

(** The chunks of a split are named by their data, whatever the reader. *)
Lemma Split_loop_named fuel blobID buf r chunks total idx res :
  Forall (λ c, ck_ID c = ID (ck_Data c)) chunks →
  Split_loop fuel blobID buf r chunks total idx = Ok res →
  Forall (λ c, ck_ID c = ID (ck_Data c)) res.1.
Proof.
  revert r chunks total idx. induction fuel as [|fuel IH]; intros r chunks total idx Hc;
    cbn [Split_loop]; [by intros [= <-]|].
  destruct (ReadFull r buf) as [[data err] r'].
  assert (Forall (λ c, ck_ID c = ID (ck_Data c)) (chunks ++ [MkChunk (ID data) idx data])) as Hc'.
  { apply Forall_app. split; [done|]. by repeat constructor. }
  destruct (0 <? length data)%nat, err as [e|]; repeat case_decide; try done;
    first [by apply IH|by intros [= <-]].
Qed.

Lemma Split_named blobID r cs chunks m :
  Split blobID r cs = Ok (chunks, m) →
  Forall (λ c, ck_ID c = ID (ck_Data c)) chunks ∧ ChunkIDs m = ck_ID <$> chunks.
Proof.
  unfold Split. destruct (Split_loop _ _ _ _ _ _ _) as [[cks total]|e] eqn:HS; [|done].
  intros [= <- <-]. split; [|done]. by apply Split_loop_named in HS.
Qed.

(** ** Theorems *)

(** [C21] [Split] of a blob whose reader ends it: the chunks, in order, are the blob;
    every chunk but the last has the chunk size, the last is not empty; each is
    indexed by its position and named by the SHA-256 of its data; the manifest
    records the blob's length and the names in order.  A non-positive size means
    [DefaultSize]. *)
Theorem Split_spec blobID r cs :
  Z.of_nat (length (content r)) < 2 ^ 63 → ends_blob (rd_err r) →
  ∃ chunks, Split blobID r cs =
      Ok (chunks, MkManifest blobID (Z.of_nat (length (content r))) (ck_ID <$> chunks) (chunk_size cs)) ∧
    concat (ck_Data <$> chunks) = content r ∧
    ∀ i c, chunks !! i = Some c →
      ck_Index c = Z.of_nat i ∧ ck_ID c = ID (ck_Data c) ∧
      0 < Z.of_nat (length (ck_Data c)) ≤ chunk_size cs ∧
      ((S i < length chunks)%nat → Z.of_nat (length (ck_Data c)) = chunk_size cs).
Proof.
  intros Hlen Hend. rewrite Split_eq, decide_True by done. pose proof (chunk_size_pos cs) as Hpos.
  set (ds := chop _ _). exists (number 0 ds). rewrite number_ids, number_data.
  split_and!; [done|apply chop_concat; lia|].
  intros i c Hc. destruct (number_lookup _ _ _ _ Hc) as [Hi Hid].
  apply number_lookup_data, chop_lookup in Hc as [? Hfull]; [|lia].
  rewrite <-(length_fmap ck_Data (number 0 ds)), number_data.
  split_and!; [done|done|lia|lia|]. intros Hlt. specialize (Hfull Hlt). lia.
Qed.

(** An error of the reader other than an end of input aborts [Split]: no chunk
    is returned, and the error wraps the reader's. *)
Theorem Split_read_error blobID r cs :
  Z.of_nat (length (content r)) < 2 ^ 63 → ¬ ends_blob (rd_err r) →
  ∃ e, Split blobID r cs = Err e ∧ errors_Is e (rd_err r) = true.
Proof.
  intros Hlen Hend. rewrite Split_eq, decide_False by done. eexists. split; [done|].
  cbn [errors_Is]. by rewrite errors_Is_refl, orb_true_r.
Qed.

(** [Split] depends on the bytes of the reader only: not on how [Read] delivers
    them, nor on whether the reader ends in EOF or in [io.ErrUnexpectedEOF], the
    error of a body cut off before its announced length.  An interrupted upload is
    therefore split like a complete one. *)
Theorem Split_truncated_body blobID r1 r2 cs :
  Z.of_nat (length (content r1)) < 2 ^ 63 →
  content r1 = content r2 → rd_err r1 = io_EOF → rd_err r2 = io_ErrUnexpectedEOF →
  Split blobID r1 cs = Split blobID r2 cs.
Proof.
  intros Hlen Hc H1 H2. rewrite !Split_eq by congruence.
  rewrite !decide_True by (unfold ends_blob; auto). by rewrite Hc.
Qed.

(** [C22] Round trip: reassembling the manifest of a split blob, from a source that
    holds its chunks, writes exactly the blob and returns no error. *)
Theorem Split_Reassemble {G} (get : string → G → result bytes * G) (g : G) blobID r cs chunks m out :
  Z.of_nat (length (content r)) < 2 ^ 63 →
  Split blobID r cs = Ok (chunks, m) →
  (∀ c g, c ∈ chunks → ∃ g', get (ck_ID c) g = (Ok (ck_Data c), g')) →
  ∃ g', Reassemble (W := bytes) get out g m = (None, out ++ content r, g').
Proof.
  intros Hlen Hs Hget. rewrite Split_eq in Hs by done. case_decide; [|done].
  injection Hs as <- <-. unfold Reassemble. cbn [ChunkIDs].
  pose proof (chunk_size_pos cs) as Hpos. set (ds := chop _ _) in *.
  destruct (Reassemble_loop_complete get (W := bytes) (λ _, True) (λ _, True) ds out g)
    as (w'&g'&HR&Hw&_); [| |done..|].
  - intros w b _. by eexists.
  - intros d g0 Hd _. destruct (number_elem 0 ds d Hd) as (c&Hc&<-&<-).
    destruct (Hget c g0 Hc) as (g1&->). by exists g1.
  - exists g'. rewrite HR. cbn in Hw. rewrite Hw. unfold ds. by rewrite chop_concat by lia.
Qed.

(** [C23] Integrity: whatever [get] answers and whenever the writer fails, what
    [Reassemble] writes is a prefix of the blob, and all of it when it returns no
    error; unless [get] itself answered with data that collides under SHA-256 with
    another chunk's. *)
Theorem Reassemble_integrity {W G} `{Writer W} (get : string → G → result bytes * G)
    w g blobID r cs chunks m err w' g' :
  Z.of_nat (length (content r)) < 2 ^ 63 →
  Split blobID r cs = Ok (chunks, m) →
  (∀ c d, c ∈ chunks → answered get d → ID d = ck_ID c → d = ck_Data c) →
  Reassemble get w g m = (err, w', g') →
  ∃ out, written w' = written w ++ out ∧ out `prefix_of` content r ∧
    (err = None → out = content r).
Proof.
  intros Hlen Hs Hinj HR. rewrite Split_eq in Hs by done. case_decide; [|done].
  injection Hs as <- <-. unfold Reassemble in HR. cbn [ChunkIDs] in HR.
  pose proof (chunk_size_pos cs) as Hpos. set (ps := chop _ _) in *.
  rewrite <-(chop_concat (Z.to_nat (chunk_size cs)) (content r)) by lia. fold ps.
  apply (Reassemble_loop_pieces get ps w g err w' g' HR). intros d a Hd Ha HID.
  destruct (number_elem 0 ps d Hd) as (c&Hc&<-&Hck). rewrite <-Hck in HID. by apply Hinj.
Qed.

(** ** Witnesses: an eleven-byte blob in two segments, cut into pieces of four *)

Definition demo_reader : Reader := MkReader [bytes_of "hello "; bytes_of "world"] io_EOF true.
Definition demo_split : list Chunk * Manifest :=
  match Split "layer" demo_reader 4 with Ok p => p | Err _ => ([], MkManifest "" 0 [] 0) end.

(** A source that holds the chunks of the blob, and one that always answers alike. *)
Definition demo_get (id : string) (g : unit) : result bytes * unit :=
  (match filter (λ c, ck_ID c = id) demo_split.1 with
   | c :: _ => Ok (ck_Data c)
   | [] => Err (errors_New "missing")
   end, g).
Definition corrupt_get (id : string) (g : unit) : result bytes * unit :=
  (Ok (bytes_of "corrupted"), g).

Lemma demo_split_ok : Split "layer" demo_reader 4 = Ok (demo_split.1, demo_split.2).
Proof. vm_compute. reflexivity. Qed.

Lemma demo_get_serves : Forall (λ c, (demo_get (ck_ID c) tt).1 = Ok (ck_Data c)) demo_split.1.
Proof. apply (bool_decide_unpack _). vm_compute. exact I. Qed.

Lemma demo_no_collision : Forall (λ c, ID (bytes_of "corrupted") ≠ ck_ID c) demo_split.1.
Proof. apply (bool_decide_unpack _). vm_compute. exact I. Qed.

Lemma Split_spec_witness :
  ∃ chunks, Split "layer" demo_reader 4 =
      Ok (chunks, MkManifest "layer" (Z.of_nat (length (content demo_reader))) (ck_ID <$> chunks) (chunk_size 4)) ∧
    concat (ck_Data <$> chunks) = content demo_reader ∧
    ∀ i c, chunks !! i = Some c →
      ck_Index c = Z.of_nat i ∧ ck_ID c = ID (ck_Data c) ∧
      0 < Z.of_nat (length (ck_Data c)) ≤ chunk_size 4 ∧
      ((S i < length chunks)%nat → Z.of_nat (length (ck_Data c)) = chunk_size 4).
Proof. apply Split_spec; [vm_compute; reflexivity|by left]. Defined.

Lemma Split_read_error_witness :
  ∃ e, Split "layer" (MkReader [bytes_of "he"] (errors_New "connection reset") false) 4 = Err e ∧
    errors_Is e (errors_New "connection reset") = true.
Proof.
  apply (Split_read_error "layer" (MkReader [bytes_of "he"] (errors_New "connection reset") false) 4);
    [vm_compute; reflexivity|by intros [?|?]].
Defined.

Lemma Split_truncated_body_witness :
  Split "layer" demo_reader 4 =
  Split "layer" (MkReader [bytes_of "hello"; bytes_of " world"] io_ErrUnexpectedEOF false) 4.
Proof. apply Split_truncated_body; [vm_compute; reflexivity|done..]. Defined.

Lemma Split_Reassemble_witness :
  ∃ g', Reassemble (W := bytes) demo_get [] tt demo_split.2 = (None, [] ++ content demo_reader, g').
Proof.
  apply (Split_Reassemble demo_get tt "layer" demo_reader 4 demo_split.1);
    [vm_compute; reflexivity|apply demo_split_ok|].
  intros c [] Hc. exists tt. pose proof demo_get_serves as Hs.
  rewrite Forall_forall in Hs. by rewrite <-(Hs c Hc).
Defined.

Lemma Reassemble_integrity_witness :
  ∃ out, written ([] : bytes) = written ([] : bytes) ++ out ∧ out `prefix_of` content demo_reader ∧
    ((Reassemble (W := bytes) corrupt_get [] tt demo_split.2).1.1 = None → out = content demo_reader).
Proof.
  apply (Reassemble_integrity corrupt_get ([] : bytes) tt "layer" demo_reader 4 demo_split.1 demo_split.2
           ((Reassemble (W := bytes) corrupt_get [] tt demo_split.2).1.1) [] tt); [vm_compute; reflexivity|apply demo_split_ok| |].
  - intros c d Hc (id&g&g'&[= <- _]) HID. pose proof demo_no_collision as Hn.
    rewrite Forall_forall in Hn. by destruct (Hn c Hc).
  - vm_compute. reflexivity.
Defined.
