(* ===== verification/Storage.v ===== *)
(** * internal/storage: the backend interface, the in-memory backend and Copy

    [Backend] is the Go interface, as a class of operations on a store; [BackendSpec]
    is what a backend promises its clients: a relation [be_repr] to a finite map from
    chunk IDs to data, and what each operation does to that map for the IDs the
    backend can hold.  [Memory] is one instance (LocalFS.v holds the disk's); [Copy]
    is proved against the interface. *)
From S2P Require Import Prelude GoLib.

Definition ErrNotFound : error := errors_New "storage: chunk not found".

Class Backend (B : Type) := {
  b_Put : string → bytes → B → option error * B;
  b_Get : string → B → result bytes;
  b_Has : string → B → bool;
  b_Delete : string → B → option error * B;
  b_List : B → result (list string);
}.

Class BackendSpec (B : Type) `{Backend B} := {
  be_valid : string → Prop;
  be_repr : B → gmap string bytes → Prop;
  repr_valid b m id d : be_repr b m → m !! id = Some d → be_valid id;
  Put_spec b m id d :
    be_repr b m → be_valid id → ∃ b', b_Put id d b = (None, b') ∧ be_repr b' (<[id := d]> m);
  Get_spec b m id :
    be_repr b m → be_valid id →
    b_Get id b = match m !! id with Some d => Ok d | None => Err ErrNotFound end;
  Has_spec b m id : be_repr b m → be_valid id → b_Has id b = bool_decide (is_Some (m !! id));
  Delete_spec b m id :
    be_repr b m → be_valid id → ∃ b', b_Delete id b = (None, b') ∧ be_repr b' (delete id m);
  List_spec b m : be_repr b m → ∃ ids, b_List b = Ok ids ∧ ids ≡ₚ (map_to_list m).*1;
}.

(** ** Memory *)

Record Memory := MkMemory { data : gmap string bytes }.

Definition NewMemory : Memory := MkMemory ∅.

Definition Memory_Put (chunkID : string) (d : bytes) (m : Memory) : option error * Memory :=
  (None, MkMemory (<[chunkID := d]> (data m))).

Definition Memory_Get (chunkID : string) (m : Memory) : result bytes :=
  match data m !! chunkID with
  | Some d => Ok d
  | None => Err ErrNotFound
  end.

Definition Memory_Has (chunkID : string) (m : Memory) : bool :=
  bool_decide (is_Some (data m !! chunkID)).

Definition Memory_Delete (chunkID : string) (m : Memory) : option error * Memory :=
  (None, MkMemory (delete chunkID (data m))).

(** Go ranges over a map in no particular order; this is one. *)
Definition Memory_List (m : Memory) : result (list string) := Ok (map_to_list (data m)).*1.

#[export] Instance Memory_Backend : Backend Memory := {|
  b_Put := Memory_Put;
  b_Get := Memory_Get;
  b_Has := Memory_Has;
  b_Delete := Memory_Delete;
  b_List := Memory_List;
|}.

(** ** Copy *)

(** The loop of [Copy] over the listed IDs. *)
Fixpoint Copy_loop {D S} `{Backend D, Backend S} (ids : list string) (dst : D) (src : S) :
    option error * D :=
  match ids with
  | [] => (None, dst)
  | id :: ids =>
      match b_Get id src with
      | Err err => (Some err, dst)
      | Ok d =>
          let '(err, dst) := b_Put id d dst in
          match err with
          | Some err => (Some err, dst)
          | None => Copy_loop ids dst src
          end
      end
  end.

Definition Copy {D S} `{Backend D, Backend S} (dst : D) (src : S) : option error * D :=
  match b_List src with
  | Err err => (Some err, dst)
  | Ok ids => Copy_loop ids dst src
  end.

(** A run of operations, with what each returns to its caller; the list of IDs is
    compared sorted, its order being the backend's own. *)
Inductive BackendOp :=
| OpPut (id : string) (d : bytes)
| OpGet (id : string)
| OpHas (id : string)
| OpDelete (id : string)
| OpList.

Inductive BackendRet :=
| RetErr (e : option error)
| RetGet (r : result bytes)
| RetHas (b : bool)
| RetList (r : result (list string)).

Definition backend_step {B} `{Backend B} (op : BackendOp) (b : B) : BackendRet * B :=
  match op with
  | OpPut id d => let '(e, b') := b_Put id d b in (RetErr e, b')
  | OpGet id => (RetGet (b_Get id b), b)
  | OpHas id => (RetHas (b_Has id b), b)
  | OpDelete id => let '(e, b') := b_Delete id b in (RetErr e, b')
  | OpList =>
      (RetList (match b_List b with Ok ids => Ok (sort_Strings ids) | Err e => Err e end), b)
  end.

Fixpoint backend_run {B} `{Backend B} (ops : list BackendOp) (b : B) : list BackendRet * B :=
  match ops with
  | [] => ([], b)
  | op :: ops =>
      let '(r, b) := backend_step op b in
      let '(rs, b) := backend_run ops b in (r :: rs, b)
  end.

Definition op_ids (op : BackendOp) : list string :=
  match op with
  | OpPut id _ | OpGet id | OpHas id | OpDelete id => [id]
  | OpList => []
  end.

(** ** The in-memory backend keeps the interface's promise *)

#[export, program] Instance Memory_BackendSpec : BackendSpec Memory := {|
  be_valid _ := True;
  be_repr b m := data b = m;
|}.
Next Obligation. done. Qed.
Next Obligation. intros b m id d <- _. by eexists. Qed.
Next Obligation. by intros b m id <- _. Qed.
Next Obligation. by intros b m id <- _. Qed.
Next Obligation. intros b m id <- _. by eexists. Qed.
Next Obligation. intros b m <-. by eexists. Qed.

(** ** Clients of the interface *)

Section clients.
Context {B : Type} `{HB : BackendSpec B}.

Lemma Get_Put b m id d b' e :
  be_repr b m → be_valid id → b_Put id d b = (e, b') → b_Get id b' = Ok d.
Proof.
  intros Hb Hid HP. destruct (Put_spec b m id d Hb Hid) as (b1&HP'&Hb1).
  rewrite HP in HP'. injection HP' as -> ->. rewrite (Get_spec _ _ _ Hb1 Hid), lookup_insert_eq. done.
Qed.

Lemma Get_Ok b m id d : be_repr b m → m !! id = Some d → b_Get id b = Ok d.
Proof. intros Hb Hm. by rewrite (Get_spec b m id Hb (repr_valid _ _ _ _ Hb Hm)), Hm. Qed.
End clients.

(** Two backends that hold the same chunks answer alike and go on to hold the same
    chunks. *)
Lemma backend_step_sim {B C} `{HB : BackendSpec B} `{HC : BackendSpec C} op (b : B) (c : C) m :
  be_repr b m → be_repr c m →
  (∀ id, id ∈ op_ids op → be_valid (B := B) id ∧ be_valid (B := C) id) →
  (backend_step op b).1 = (backend_step op c).1 ∧
  ∃ m', be_repr (backend_step op b).2 m' ∧ be_repr (backend_step op c).2 m'.
Proof.
  intros Hb Hc Hids. destruct op as [id d|id|id|id|]; cbn [backend_step op_ids] in *;
    try (destruct (Hids id) as [Hvb Hvc]; [by left|]).
  - destruct (Put_spec b m id d Hb Hvb) as (b'&->&?), (Put_spec c m id d Hc Hvc) as (c'&->&?); eauto.
  - rewrite (Get_spec b m), (Get_spec c m) by done. eauto.
  - rewrite (Has_spec b m), (Has_spec c m) by done. eauto.
  - destruct (Delete_spec b m id Hb Hvb) as (b'&->&?), (Delete_spec c m id Hc Hvc) as (c'&->&?); eauto.
  - destruct (List_spec b m Hb) as (ib&->&Hib), (List_spec c m Hc) as (ic&->&Hic).
    split; [|eauto]. cbn [fst]. by rewrite (sort_Strings_unique ib ic) by by rewrite Hib, Hic.
Qed.

Lemma backend_run_sim {B C} `{HB : BackendSpec B} `{HC : BackendSpec C} ops (b : B) (c : C) m :
  be_repr b m → be_repr c m →
  (∀ id, id ∈ ops ≫= op_ids → be_valid (B := B) id ∧ be_valid (B := C) id) →
  (backend_run ops b).1 = (backend_run ops c).1.
Proof.
  revert b c m. induction ops as [|op ops IH]; intros b c m Hb Hc Hids; [done|].
  cbn [backend_run mbind list_bind] in *. setoid_rewrite elem_of_app in Hids.
  destruct (backend_step_sim op b c m Hb Hc) as [Hret (m'&Hb'&Hc')]; [by auto|].
  destruct (backend_step op b) as [r b'], (backend_step op c) as [r' c'].
  cbn [fst snd] in *. subst r'. specialize (IH b' c' m' Hb' Hc' ltac:(auto)).
  destruct (backend_run ops b') as [rs b''], (backend_run ops c') as [rs' c'']. cbn [fst] in *.
  by subst.
Qed.

Section Copy_lemmas.
Context {D S : Type} `{HD : BackendSpec D} `{HS : BackendSpec S}.

(** The pairs a list of IDs copies, the source holding [m]. *)
Lemma Copy_loop_spec ids (dst : D) (src : S) md ms :
  be_repr dst md → be_repr src ms → NoDup ids →
  (∀ id, id ∈ ids → is_Some (ms !! id) ∧ be_valid (B := D) id) →
  ∃ dst', Copy_loop ids dst src = (None, dst') ∧
    be_repr dst' (filter (λ kv, kv.1 ∈ ids) ms ∪ md).
Proof.
  revert dst md. induction ids as [|id ids IH]; intros dst md Hd Hs Hnd Hids; cbn [Copy_loop].
  { exists dst. split; [done|].
    replace (filter (λ kv : string * bytes, kv.1 ∈ []) ms) with (∅ : gmap string bytes).
    { by rewrite (left_id_L ∅ (∪)). }
    apply map_eq. intros k. rewrite lookup_empty. symmetry.
    apply map_lookup_filter_None. right. intros x _ Hk. by apply elem_of_nil in Hk. }
  apply NoDup_cons in Hnd as [Hid Hnd].
  destruct (Hids id) as [[d Hmd] Hval]; [by left|].
  rewrite (Get_Ok src ms id d Hs Hmd).
  destruct (Put_spec dst md id d Hd Hval) as (dst1&->&Hd1).
  destruct (IH dst1 _ Hd1 Hs Hnd) as (dst2&->&Hd2); [set_solver|].
  exists dst2. split; [done|].
  replace (filter (λ kv, kv.1 ∈ id :: ids) ms ∪ md)
    with (filter (λ kv, kv.1 ∈ ids) ms ∪ <[id := d]> md); [done|].
  apply map_eq. intros k. rewrite !lookup_union, !map_lookup_filter.
  destruct (decide (k = id)) as [->|Hne].
  - rewrite lookup_insert_eq, Hmd. simpl.
    rewrite option_guard_False by done. rewrite option_guard_True by by left. by destruct (md !! id).
  - rewrite lookup_insert_ne by done. destruct (ms !! k) as [x|]; simpl; [|done].
    repeat case_guard; set_solver.
Qed.

(** [Copy] succeeds and leaves in the destination all of the source's chunks
    with the source's data, and its own other chunks, for any two backends that
    keep the interface's promise (the destination able to hold the source's IDs). *)
Theorem Copy_spec (dst : D) (src : S) md ms :
  be_repr dst md → be_repr src ms →
  (∀ id, be_valid (B := S) id → be_valid (B := D) id) →
  ∃ dst', Copy dst src = (None, dst') ∧ be_repr dst' (ms ∪ md).
Proof.
  intros Hd Hs Hval. unfold Copy.
  destruct (List_spec src ms Hs) as (ids&->&Hids).
  destruct (Copy_loop_spec ids dst src md ms Hd Hs) as (dst'&->&Hd').
  - rewrite Hids. apply NoDup_fst_map_to_list.
  - intros id. rewrite Hids, list_elem_of_fmap. intros ([? d]&->&Hm%elem_of_map_to_list).
    split; [done|]. by eapply Hval, repr_valid.
  - exists dst'. split; [done|]. rewrite map_filter_id in Hd'; [done|].
    intros id d Hm. simpl. rewrite Hids, list_elem_of_fmap.
    exists (id, d). split; [done|]. by apply elem_of_map_to_list.
Qed.
End Copy_lemmas.

Lemma Copy_spec_witness :
  ∃ dst', Copy (MkMemory {["c" := [x01]; "a" := [x02]]}) (MkMemory {["a" := [x03]; "b" := [x04]]}) =
      (None, dst') ∧
    be_repr dst' ({["a" := [x03]; "b" := [x04]]} ∪ {["c" := [x01]; "a" := [x02]]}).
Proof. by apply Copy_spec. Defined.
