(* ===== verification/LocalFS.v ===== *)
(** * internal/storage: the disk backend

    [FS] is the file system the process sees: absolute, cleaned paths (lists of
    components) to directories and files, with the [os] and [path/filepath] calls of
    storage.go on it; a call fails for the structural reasons the operating system
    gives (a missing or non-directory parent, a directory where a file is meant).
    [LocalFS] is the struct of storage.go together with the disk its calls act on.

    The theorems: LocalFS keeps the promise of the [Backend] interface for IDs that
    hold neither a slash nor a dot (every chunk ID is such, being hexadecimal), and a
    [Put] that is cut short at any point leaves every chunk as it was. *)
From S2P Require Import Prelude GoLib Storage.
From Stdlib Require Import Strings.Ascii.

(** ** The file system *)

Abbreviation path := (list string).

Inductive fsnode :=
| Dir
| File (d : bytes).

#[export] Instance fsnode_eq_dec : EqDecision fsnode.
Proof. solve_decision. Defined.

Abbreviation FS := (gmap (list string) fsnode).

Definition os_ErrNotExist : error := errors_New "file does not exist".
Definition ENOENT : error := fmt_Errorf_w "no such file or directory" os_ErrNotExist.
Definition ENOTDIR : error := errors_New "not a directory".
Definition EISDIR : error := errors_New "is a directory".
Definition ENOTEMPTY : error := errors_New "directory not empty".

(** The root of the file system is always a directory. *)
Definition node_at (fs : FS) (p : path) : option fsnode :=
  match p with [] => Some Dir | _ => fs !! p end.

(** The error of resolving a list of paths that must be directories. *)
Fixpoint resolve (fs : FS) (ps : list path) : option error :=
  match ps with
  | [] => None
  | p :: ps =>
      match node_at fs p with
      | Some Dir => resolve fs ps
      | Some (File _) => Some ENOTDIR
      | None => Some ENOENT
      end
  end.

(** The proper prefixes of a path, shortest first. *)
Definition parents (p : path) : list path := (λ k, take k p) <$> seq 0 (length p).

(** [os.MkdirAll]: creates the missing prefixes of [p], and [p]. *)
Fixpoint mkdirs (fs : FS) (ps : list path) : option error * FS :=
  match ps with
  | [] => (None, fs)
  | p :: ps =>
      match node_at fs p with
      | Some Dir => mkdirs fs ps
      | Some (File _) => (Some ENOTDIR, fs)
      | None => mkdirs (<[p := Dir]> fs) ps
      end
  end.
Definition os_MkdirAll (p : path) (fs : FS) : option error * FS := mkdirs fs (parents p ++ [p]).

(** [os.WriteFile]: creates or truncates, then writes. *)
Definition os_WriteFile (p : path) (d : bytes) (fs : FS) : option error * FS :=
  match resolve fs (parents p) with
  | Some e => (Some e, fs)
  | None =>
      match node_at fs p with
      | Some Dir => (Some EISDIR, fs)
      | _ => (None, <[p := File d]> fs)
      end
  end.

(** [os.Rename] of a regular file over a path that is free or a regular file. *)
Definition os_Rename (old new : path) (fs : FS) : option error * FS :=
  match resolve fs (parents old ++ parents new) with
  | Some e => (Some e, fs)
  | None =>
      match node_at fs old, node_at fs new with
      | Some (File d), (None | Some (File _)) => (None, <[new := File d]> (delete old fs))
      | None, _ => (Some ENOENT, fs)
      | _, _ => (Some EISDIR, fs)
      end
  end.

Definition os_ReadFile (p : path) (fs : FS) : result bytes :=
  match resolve fs (parents p) with
  | Some e => Err e
  | None =>
      match node_at fs p with
      | Some (File d) => Ok d
      | Some Dir => Err EISDIR
      | None => Err ENOENT
      end
  end.

Definition os_Stat (p : path) (fs : FS) : result fsnode :=
  match resolve fs (parents p) with
  | Some e => Err e
  | None => match node_at fs p with Some n => Ok n | None => Err ENOENT end
  end.

(** The nodes strictly below a path. *)
Definition below (p : path) (fs : FS) : list (path * fsnode) :=
  filter (λ kv, p `prefix_of` kv.1 ∧ kv.1 ≠ p) (map_to_list fs).

(** [os.Remove]: a file, or an empty directory. *)
Definition os_Remove (p : path) (fs : FS) : option error * FS :=
  match resolve fs (parents p) with
  | Some e => (Some e, fs)
  | None =>
      match node_at fs p with
      | None => (Some ENOENT, fs)
      | Some (File _) => (None, delete p fs)
      | Some Dir => if decide (below p fs = []) then (None, delete p fs) else (Some ENOTEMPTY, fs)
      end
  end.

(** ** path/filepath *)

(** One component of a path being cleaned. *)
Definition join_component (p : path) (c : string) : path :=
  if decide (c = "" ∨ c = ".") then p
  else if decide (c = "..") then removelast p else p ++ [c].

(** [filepath.Join(root, elems...)], which cleans its result. *)
Definition filepath_Join (root : path) (elems : list string) : path :=
  foldl join_component root (elems ≫= Split_char "/").

(** [filepath.Ext]: the suffix from the last dot of the last element. *)
Fixpoint Ext_from (s best : string) : string :=
  match s with
  | EmptyString => best
  | String c t => if decide (c = "."%char) then Ext_from t s else Ext_from t best
  end.
Definition filepath_Base (p : path) : string := default "/" (last p).
Definition filepath_Ext (p : path) : string := Ext_from (default "" (last p)) "".

(** The text of a path. *)
Definition path_String (p : path) : string :=
  match p with [] => "/" | _ => foldr (λ c s, "/" +:+ c +:+ s) "" p end.

(** ** LocalFS *)

Record LocalFS := MkLocalFS {
  root : path;
  disk : FS;
}.

#[export] Instance LocalFS_eq_dec : EqDecision LocalFS.
Proof. solve_decision. Defined.

Definition NewLocalFS (dir : path) (fs : FS) : result LocalFS :=
  match os_MkdirAll dir fs with
  | (Some err, _) => Err (fmt_Errorf_w ("storage: creating root " +:+ path_String dir) err)
  | (None, fs) => Ok (MkLocalFS dir fs)
  end.

Definition LocalFS_path (l : LocalFS) (chunkID : string) : path :=
  if (String.length chunkID <? 2)%nat then filepath_Join (root l) ["_short"; chunkID]
  else filepath_Join (root l) [String.substring 0 2 chunkID; chunkID].

(** The temporary file next to [p]: [p + ".tmp"]. *)
Definition tmp_path (p : path) : path := removelast p ++ [filepath_Base p +:+ ".tmp"].

Definition LocalFS_Put (chunkID : string) (d : bytes) (l : LocalFS) : option error * LocalFS :=
  let p := LocalFS_path l chunkID in
  match os_MkdirAll (removelast p) (disk l) with
  | (Some err, fs) => (Some err, MkLocalFS (root l) fs)
  | (None, fs) =>
      let tmp := tmp_path p in
      match os_WriteFile tmp d fs with
      | (Some err, fs) => (Some err, MkLocalFS (root l) fs)
      | (None, fs) =>
          let '(err, fs) := os_Rename tmp p fs in (err, MkLocalFS (root l) fs)
      end
  end.

Definition LocalFS_Get (chunkID : string) (l : LocalFS) : result bytes :=
  match os_ReadFile (LocalFS_path l chunkID) (disk l) with
  | Ok d => Ok d
  | Err err => if errors_Is err os_ErrNotExist then Err ErrNotFound else Err err
  end.

Definition LocalFS_Has (chunkID : string) (l : LocalFS) : bool :=
  match os_Stat (LocalFS_path l chunkID) (disk l) with Ok _ => true | Err _ => false end.

Definition LocalFS_Delete (chunkID : string) (l : LocalFS) : option error * LocalFS :=
  let '(err, fs) := os_Remove (LocalFS_path l chunkID) (disk l) in
  match err with
  | None => (None, MkLocalFS (root l) fs)
  | Some e => (if errors_Is e os_ErrNotExist then None else Some e, MkLocalFS (root l) fs)
  end.

(** The callback of [filepath.WalkDir] on one node: the ID it appends, if any. *)
Definition List_visit (kv : path * fsnode) : option string :=
  match kv.2 with
  | Dir => None
  | File _ =>
      if decide (filepath_Ext kv.1 = ".tmp") then None else Some (filepath_Base kv.1)
  end.

(** The walk visits the root and every node below it; the order among them is left
    open here (Go's is lexical). *)
Definition LocalFS_List (l : LocalFS) : result (list string) :=
  match resolve (disk l) (parents (root l)) with
  | Some e => Err e
  | None =>
      match node_at (disk l) (root l) with
      | None => Err ENOENT
      | Some n => Ok (omap List_visit ((root l, n) :: below (root l) (disk l)))
      end
  end.

#[export] Instance LocalFS_Backend : Backend LocalFS := {|
  b_Put := LocalFS_Put;
  b_Get := LocalFS_Get;
  b_Has := LocalFS_Has;
  b_Delete := LocalFS_Delete;
  b_List := LocalFS_List;
|}.

(** ** What a store of chunks looks like on disk *)

(** IDs LocalFS can hold: plain names of two bytes or more. *)
Definition plain_id (id : string) : Prop :=
  2 ≤ String.length id ∧ has_char "/" id = false ∧ has_char "." id = false.

Definition shard (id : string) : string := String.substring 0 2 id.
Definition chunk_path (id : string) : path := [shard id; id].

(** Every node below the root is a shard directory, a chunk or a temporary file. *)
Inductive store_node : path → fsnode → Prop :=
| node_shard id : plain_id id → store_node [shard id] Dir
| node_chunk id d : plain_id id → store_node (chunk_path id) (File d)
| node_tmp id d : plain_id id → store_node [shard id; id +:+ ".tmp"] (File d).

Record localfs_repr (l : LocalFS) (m : gmap string bytes) : Prop := {
  repr_root : ∀ q, q `prefix_of` root l → node_at (disk l) q = Some Dir;
  repr_shape : ∀ q n, q ≠ [] → disk l !! (root l ++ q) = Some n → store_node q n;
  repr_chunks : ∀ id d, m !! id = Some d ↔ plain_id id ∧ disk l !! (root l ++ chunk_path id) = Some (File d);
  repr_shards : ∀ id d, m !! id = Some d → disk l !! (root l ++ [shard id]) = Some Dir;
}.

(** ** Paths *)

Lemma node_at_app fs p q : q ≠ [] → node_at fs (p ++ q) = fs !! (p ++ q).
Proof. intros Hq. by destruct p, q. Qed.

Lemma elem_of_parents q p : q ∈ parents p ↔ q `prefix_of` p ∧ q ≠ p.
Proof.
  unfold parents. rewrite list_elem_of_fmap. setoid_rewrite elem_of_seq. split.
  - intros (k&->&_&Hk). split; [apply prefix_take|]. intros Heq%(f_equal length).
    rewrite length_take in Heq. lia.
  - intros [[k ->] Hne]. exists (length q). rewrite take_app_length, length_app.
    destruct k; [by rewrite app_nil_r in Hne|]. simpl. auto with lia.
Qed.

Lemma parents_snoc p c : parents (p ++ [c]) = parents p ++ [p].
Proof.
  unfold parents. rewrite length_app. cbn [length]. rewrite Nat.add_1_r, seq_S, fmap_app.
  cbn [fmap list_fmap Nat.add]. rewrite take_app_length. f_equal.
  apply list_fmap_ext. intros i k Hk. apply lookup_seq in Hk as [-> ?].
  by rewrite take_app_le by lia.
Qed.

Lemma resolve_dirs fs ps : (∀ q, q ∈ ps → node_at fs q = Some Dir) → resolve fs ps = None.
Proof.
  induction ps as [|p ps IH]; intros Hps; [done|]. cbn [resolve].
  rewrite Hps by by left. apply IH. set_solver.
Qed.

Lemma resolve_app fs ps qs :
  resolve fs (ps ++ qs) = match resolve fs ps with None => resolve fs qs | Some e => Some e end.
Proof. induction ps as [|p ps IH]; [done|]. cbn [resolve app]. by repeat case_match. Qed.

Lemma mkdirs_dirs fs ps : (∀ q, q ∈ ps → node_at fs q = Some Dir) → mkdirs fs ps = (None, fs).
Proof.
  induction ps as [|p ps IH]; intros Hps; [done|]. cbn [mkdirs].
  rewrite Hps by by left. apply IH. set_solver.
Qed.

Lemma mkdirs_app fs ps qs fs' :
  mkdirs fs ps = (None, fs') → mkdirs fs (ps ++ qs) = mkdirs fs' qs.
Proof.
  revert fs. induction ps as [|p ps IH]; intros fs; cbn [mkdirs app]; [by intros [= ->]|].
  repeat case_match; try done; apply IH.
Qed.

Lemma plain_id_inv id :
  plain_id id → ∃ a b t, id = String a (String b t) ∧ shard id = String a (String b "") ∧
    has_char "/" (shard id) = false ∧ has_char "." (shard id) = false.
Proof.
  intros (Hlen&Hs&Hd). destruct id as [|a [|b t]]; simpl in Hlen; [lia..|].
  exists a, b, t. unfold shard. split_and!; [done|by destruct t|..];
    cbn [has_char String.substring] in *; destruct t; cbn [has_char String.substring] in *;
    repeat (apply orb_false_iff in Hs as [? Hs] || apply orb_false_iff in Hd as [? Hd]);
    rewrite !orb_false_iff; done.
Qed.

Lemma join_component_plain p c :
  c ≠ "" → has_char "." c = false → join_component p c = p ++ [c].
Proof.
  intros Hc Hdot. unfold join_component.
  rewrite decide_False by (intros [->| ->]; done). by rewrite decide_False by (intros ->; done).
Qed.

Lemma LocalFS_path_plain l id : plain_id id → LocalFS_path l id = root l ++ chunk_path id.
Proof.
  intros Hid. pose proof Hid as (Hlen&Hs&Hd).
  destruct (plain_id_inv id Hid) as (a&b&t&->&Hsh&Hs'&Hd').
  unfold LocalFS_path. destruct (Nat.ltb_spec (String.length (String a (String b t))) 2); [lia|].
  fold (shard (String a (String b t))). unfold filepath_Join.
  cbn [mbind list_bind]. rewrite !Split_char_none by done. cbn [app foldl].
  assert (shard (String a (String b t)) ≠ "") by by rewrite Hsh.
  by rewrite !join_component_plain, <-(assoc_L (++)).
Qed.

Lemma tmp_not_plain id : ¬ plain_id (id +:+ ".tmp").
Proof. intros (_&_&Hd). rewrite has_char_app in Hd. by apply orb_false_iff in Hd as [_ ?]. Qed.

Lemma tmp_path_chunk p id : tmp_path (p ++ chunk_path id) = p ++ [shard id; id +:+ ".tmp"].
Proof.
  unfold tmp_path, filepath_Base, chunk_path.
  change [shard id; id] with ([shard id] ++ [id]). rewrite !(assoc_L (++)), removelast_last, last_snoc.
  by rewrite <-(assoc_L (++)).
Qed.

Lemma removelast_chunk p id : removelast (p ++ chunk_path id) = p ++ [shard id].
Proof.
  unfold chunk_path. change [shard id; id] with ([shard id] ++ [id]).
  by rewrite (assoc_L (++)), removelast_last.
Qed.

Lemma parents_chunk p a b : parents (p ++ [a; b]) = parents p ++ [p; p ++ [a]].
Proof.
  change [a; b] with ([a] ++ [b]). rewrite (assoc_L (++)), !parents_snoc.
  by rewrite <-(assoc_L (++)).
Qed.

Lemma Ext_from_plain s best : has_char "." s = false → Ext_from s best = best.
Proof.
  revert best. induction s as [|a s IH]; intros best; [done|]. cbn [has_char Ext_from].
  intros [Ha Hs]%orb_false_iff. apply bool_decide_eq_false in Ha.
  rewrite decide_False by done. by apply IH.
Qed.

Lemma Ext_from_tmp s best : Ext_from (s +:+ ".tmp") best = ".tmp".
Proof.
  revert best. induction s as [|a s IH]; intros best; [done|]. simpl.
  case_decide; apply IH.
Qed.

(** ** The invariant under the changes a store makes to its disk *)

Lemma shard_app id s : plain_id id → shard (id +:+ s) = shard id.
Proof. intros (a&b&t&->&->&_)%plain_id_inv. unfold shard. by destruct t, s. Qed.

Lemma shard_node_inv s n : store_node [s] n → n = Dir.
Proof. by inversion 1. Qed.

Section invariant.
Context (l : LocalFS) (m : gmap string bytes) (Hl : localfs_repr l m).

(** A change outside the chunks that keeps the shape and no shard removed. *)
Lemma repr_alter q o :
  q ≠ [] → (∀ n, o = Some n → store_node q n) →
  (∀ id, plain_id id → q ≠ chunk_path id) →
  (o = None → ∀ id, q ≠ [shard id]) →
  localfs_repr (MkLocalFS (root l) (partial_alter (λ _, o) (root l ++ q) (disk l))) m.
Proof.
  intros Hq Ho Hchunk Hshard. destruct Hl as [Hroot Hshape Hchunks Hshards].
  split; cbn [root disk].
  - intros p Hp. pose proof (Hroot p Hp) as Hnode. destruct p as [|c p]; [done|].
    cbn [node_at] in *. rewrite lookup_partial_alter_ne; [done|].
    intros Heq. apply prefix_length in Hp. rewrite <-Heq, length_app in Hp.
    destruct q; [done|simpl in Hp; lia].
  - intros p n Hp. destruct (decide (p = q)) as [->|Hne].
    + rewrite lookup_partial_alter_eq. auto.
    + rewrite lookup_partial_alter_ne; [by apply Hshape|]. by intros ->%app_inv_head.
  - intros id d. rewrite Hchunks. split; intros [Hid Hd]; (split; [done|]); revert Hd;
      rewrite lookup_partial_alter_ne; try done; intros ?%app_inv_head; by eapply Hchunk.
  - intros id d Hd. destruct (decide (q = [shard id])) as [->|Hne].
    + rewrite lookup_partial_alter_eq. destruct o as [n|]; [|by destruct (Hshard eq_refl id)].
      by rewrite (shard_node_inv _ n (Ho n eq_refl)).
    + rewrite lookup_partial_alter_ne; [by eapply Hshards|]. by intros ?%app_inv_head.
Qed.

(** A chunk written or removed. *)
Lemma repr_alter_chunk id o :
  plain_id id → (is_Some o → disk l !! (root l ++ [shard id]) = Some Dir) →
  localfs_repr
    (MkLocalFS (root l) (partial_alter (λ _, File <$> o) (root l ++ chunk_path id) (disk l)))
    (partial_alter (λ _, o) id m).
Proof.
  intros Hid Ho. destruct Hl as [Hroot Hshape Hchunks Hshards]. split; cbn [root disk].
  - intros p Hp. pose proof (Hroot p Hp) as Hnode. destruct p as [|c p]; [done|].
    cbn [node_at] in *. rewrite lookup_partial_alter_ne; [done|].
    intros Heq. apply prefix_length in Hp. rewrite <-Heq, length_app in Hp. simpl in Hp; lia.
  - intros p n Hp. destruct (decide (p = chunk_path id)) as [->|Hne].
    + rewrite lookup_partial_alter_eq. destruct o; intros [= <-]. by constructor.
    + rewrite lookup_partial_alter_ne; [by apply Hshape|]. intros Heq%app_inv_head; by rewrite <-Heq in Hne.
  - intros id' d. destruct (decide (id = id')) as [->|Hne].
    + rewrite !lookup_partial_alter_eq. destruct o; simpl; naive_solver.
    + rewrite !lookup_partial_alter_ne; [done| |done]. by intros [= ?]%app_inv_head.
  - intros id' d Hd. rewrite lookup_partial_alter_ne by by intros [=]%app_inv_head.
    destruct (decide (id = id')) as [->|Hne].
    + rewrite lookup_partial_alter_eq in Hd. by apply Ho.
    + rewrite lookup_partial_alter_ne in Hd by done. by eapply Hshards.
Qed.

Lemma node_at_root : node_at (disk l) (root l) = Some Dir.
Proof. by apply Hl. Qed.

Lemma node_at_parents q : q ∈ parents (root l) → node_at (disk l) q = Some Dir.
Proof. rewrite elem_of_parents. intros [??]. by apply Hl. Qed.

(** The shard directory of an ID is there or free. *)
Lemma shard_dir id :
  disk l !! (root l ++ [shard id]) = None ∨ disk l !! (root l ++ [shard id]) = Some Dir.
Proof.
  destruct (disk l !! (root l ++ [shard id])) as [n|] eqn:Hn; [|by left]. right.
  f_equal. eapply shard_node_inv, (repr_shape _ _ Hl); [|done]. done.
Qed.

(** The directories that must lead to a shard are there. *)
Lemma mkdirs_parents id :
  mkdirs (disk l) (parents (root l ++ [shard id])) = (None, disk l).
Proof.
  apply mkdirs_dirs. intros q. rewrite parents_snoc, elem_of_app, list_elem_of_singleton.
  intros [?| ->]; [by apply node_at_parents|apply node_at_root].
Qed.

Lemma repr_shard id :
  plain_id id → localfs_repr (MkLocalFS (root l) (<[root l ++ [shard id] := Dir]> (disk l))) m.
Proof.
  intros Hid. apply (repr_alter [shard id] (Some Dir)); try done.
  intros n [= <-]. by constructor.
Qed.

Lemma MkdirAll_shard id :
  plain_id id →
  ∃ fs, os_MkdirAll (root l ++ [shard id]) (disk l) = (None, fs) ∧
    localfs_repr (MkLocalFS (root l) fs) m ∧ fs !! (root l ++ [shard id]) = Some Dir.
Proof.
  intros Hid. unfold os_MkdirAll. rewrite (mkdirs_app _ _ _ _ (mkdirs_parents id)).
  cbn [mkdirs]. rewrite node_at_app by done. destruct (shard_dir id) as [Hn|Hn]; rewrite Hn.
  - eexists. split; [done|]. split; [by apply repr_shard|]. by rewrite lookup_insert_eq.
  - eexists. split; [done|]. split; [by destruct l|done].
Qed.

(** Once its shard is there, resolving a file of the shard succeeds. *)
Lemma resolve_in_shard id c :
  disk l !! (root l ++ [shard id]) = Some Dir →
  resolve (disk l) (parents (root l ++ [shard id; c])) = None.
Proof.
  intros Hdir. rewrite parents_chunk. apply resolve_dirs. intros q.
  rewrite elem_of_app, !elem_of_cons, elem_of_nil. intros [?|[->|[->|[]]]].
  - by apply node_at_parents.
  - apply node_at_root.
  - by rewrite node_at_app.
Qed.

Lemma tmp_not_chunk id id' : plain_id id' → [shard id; id +:+ ".tmp"] ≠ chunk_path id'.
Proof. intros Hid' [= _ Heq]. rewrite <-Heq in Hid'. by apply tmp_not_plain in Hid'. Qed.

(** Writing the temporary file leaves the chunks as they are. *)
Lemma WriteFile_tmp id d :
  plain_id id → disk l !! (root l ++ [shard id]) = Some Dir →
  ∃ fs, os_WriteFile (root l ++ [shard id; id +:+ ".tmp"]) d (disk l) = (None, fs) ∧
    localfs_repr (MkLocalFS (root l) fs) m ∧ fs !! (root l ++ [shard id]) = Some Dir ∧
    fs !! (root l ++ [shard id; id +:+ ".tmp"]) = Some (File d).
Proof.
  intros Hid Hdir. unfold os_WriteFile. rewrite resolve_in_shard, node_at_app by done.
  set (q := [shard id; id +:+ ".tmp"]).
  assert (disk l !! (root l ++ q) ≠ Some Dir) as Hq.
  { intros Hn. apply (repr_shape _ _ Hl) in Hn; [|done]. inversion Hn. }
  exists (<[root l ++ q := File d]> (disk l)). split; [by repeat case_match|]. split_and!.
  - apply (repr_alter q (Some (File d))); try done; [|by intros; apply tmp_not_chunk].
    intros n [= <-]. by constructor.
  - rewrite lookup_insert_ne; [done|]. by intros [=]%app_inv_head.
  - by rewrite lookup_insert_eq.
Qed.
End invariant.

(** The rename publishes the chunk. *)
Lemma Rename_chunk l m id d :
  localfs_repr l m → plain_id id → disk l !! (root l ++ [shard id]) = Some Dir →
  disk l !! (root l ++ [shard id; id +:+ ".tmp"]) = Some (File d) →
  ∃ fs, os_Rename (root l ++ [shard id; id +:+ ".tmp"]) (root l ++ chunk_path id) (disk l) =
      (None, fs) ∧ localfs_repr (MkLocalFS (root l) fs) (<[id := d]> m).
Proof.
  intros Hl Hid Hdir Htmp. unfold os_Rename.
  rewrite resolve_app, !(resolve_in_shard l m Hl), !node_at_app, Htmp by done.
  change (chunk_path id) with [shard id; id]. rewrite (resolve_in_shard l m Hl) by done.
  assert (disk l !! (root l ++ [shard id; id]) ≠ Some Dir) as Hq.
  { intros Hn. apply (repr_shape _ _ Hl) in Hn; [|done]. inversion Hn. }
  exists (<[root l ++ chunk_path id := File d]>
    (delete (root l ++ [shard id; id +:+ ".tmp"]) (disk l))).
  split; [by destruct (disk l !! (root l ++ [shard id; id])) as [[]|]|].
  assert (localfs_repr (MkLocalFS (root l)
    (delete (root l ++ [shard id; id +:+ ".tmp"]) (disk l))) m) as Hdel.
  { apply (repr_alter l m Hl [shard id; id +:+ ".tmp"] None); try done.
    intros id' Hid'. by apply tmp_not_chunk. }
  apply (repr_alter_chunk _ m Hdel id (Some d) Hid). cbn [root disk].
  intros _. rewrite lookup_delete_ne; [done|]. by intros [=]%app_inv_head.
Qed.

(** What is on disk at a chunk's path. *)
Lemma access_chunk l m id :
  localfs_repr l m → plain_id id →
  (resolve (disk l) (parents (root l ++ chunk_path id)) = None ∧
    node_at (disk l) (root l ++ chunk_path id) = File <$> m !! id) ∨
  (resolve (disk l) (parents (root l ++ chunk_path id)) = Some ENOENT ∧ m !! id = None).
Proof.
  intros Hl Hid. destruct (shard_dir l m Hl id) as [Hdir|Hdir].
  - right. split.
    + unfold chunk_path. rewrite parents_chunk, resolve_app, resolve_dirs by by apply (node_at_parents l m).
      cbn [resolve]. by rewrite (node_at_root l m Hl), node_at_app, Hdir.
    + apply eq_None_not_Some. intros [d Hd]. apply (repr_shards _ _ Hl) in Hd. congruence.
  - left. split; [by apply (resolve_in_shard l m Hl)|]. rewrite node_at_app by done.
    destruct (m !! id) as [d|] eqn:Hm; [by apply (repr_chunks _ _ Hl) in Hm as []|].
    destruct (disk l !! (root l ++ chunk_path id)) as [n|] eqn:Hn; [|done]. exfalso.
    pose proof (repr_shape _ _ Hl (chunk_path id) n ltac:(done) Hn) as Hshape.
    inversion Hshape as [|id1 d Hid1 Heq|id1 d Hid1 [Heq1 Heq2]]; subst.
    + assert (m !! id = Some d) by by apply (repr_chunks _ _ Hl). congruence.
    + by apply (tmp_not_plain id1).
Qed.

(** ** The operations keep the promise of the interface *)

Lemma LocalFS_Put_spec l m id d :
  localfs_repr l m → plain_id id →
  ∃ l', LocalFS_Put id d l = (None, l') ∧ localfs_repr l' (<[id := d]> m).
Proof.
  intros Hl Hid. unfold LocalFS_Put.
  rewrite LocalFS_path_plain, removelast_chunk, tmp_path_chunk by done.
  destruct (MkdirAll_shard l m Hl id Hid) as (fs1&->&Hl1&Hdir1).
  destruct (WriteFile_tmp _ m Hl1 id d Hid Hdir1) as (fs2&Hwrite&Hl2&Hdir2&Htmp2).
  cbn [root disk] in *. rewrite Hwrite.
  destruct (Rename_chunk _ m id d Hl2 Hid Hdir2 Htmp2) as (fs3&Hren&Hl3).
  cbn [root disk] in *. rewrite Hren. by eexists.
Qed.

Lemma LocalFS_Get_spec l m id :
  localfs_repr l m → plain_id id →
  LocalFS_Get id l = match m !! id with Some d => Ok d | None => Err ErrNotFound end.
Proof.
  intros Hl Hid. unfold LocalFS_Get, os_ReadFile. rewrite LocalFS_path_plain by done.
  destruct (access_chunk l m id Hl Hid) as [[-> ->]|[-> ->]]; [by destruct (m !! id)|done].
Qed.

Lemma LocalFS_Has_spec l m id :
  localfs_repr l m → plain_id id → LocalFS_Has id l = bool_decide (is_Some (m !! id)).
Proof.
  intros Hl Hid. unfold LocalFS_Has, os_Stat. rewrite LocalFS_path_plain by done.
  destruct (access_chunk l m id Hl Hid) as [[-> ->]|[-> ->]]; [by destruct (m !! id)|done].
Qed.

Lemma LocalFS_Delete_spec l m id :
  localfs_repr l m → plain_id id →
  ∃ l', LocalFS_Delete id l = (None, l') ∧ localfs_repr l' (delete id m).
Proof.
  intros Hl Hid. unfold LocalFS_Delete, os_Remove. rewrite LocalFS_path_plain by done.
  destruct (access_chunk l m id Hl Hid) as [[-> ->]|[-> Hm]].
  - destruct (m !! id) as [d|] eqn:Hm; cbn [fmap option_fmap option_map].
    + eexists. split; [done|]. by apply (repr_alter_chunk l m Hl id None).
    + exists (MkLocalFS (root l) (disk l)). split; [done|]. rewrite delete_id by done. by destruct l.
  - exists (MkLocalFS (root l) (disk l)). split; [done|]. rewrite delete_id by done. by destruct l.
Qed.

(** The callback of the walk takes the chunks and nothing else. *)
Lemma List_visit_store p q n id :
  store_node q n →
  List_visit (p ++ q, n) = Some id ↔ plain_id id ∧ q = chunk_path id ∧ n ≠ Dir.
Proof.
  unfold List_visit, filepath_Ext, filepath_Base.
  destruct 1 as [id' Hid'|id' d Hid'|id' d Hid']; cbn [fst snd]; [naive_solver|..].
  - unfold chunk_path. change [shard id'; id'] with ([shard id'] ++ [id']).
    rewrite (assoc_L (++)), last_snoc. cbn [from_option Datatypes.id].
    rewrite Ext_from_plain by apply Hid'. rewrite decide_False by done.
    split; [intros [= <-]; split_and!; done|]. by intros (_&[= _ ->]&_).
  - change [shard id'; id' +:+ ".tmp"] with ([shard id'] ++ [id' +:+ ".tmp"]).
    rewrite (assoc_L (++)), last_snoc. cbn [from_option Datatypes.id].
    rewrite Ext_from_tmp, decide_True by done. split; [done|]. intros (Hid&Heq&_).
    by apply tmp_not_chunk in Heq.
Qed.

Lemma elem_of_below p fs q n :
  (q, n) ∈ below p fs ↔ ∃ r, q = p ++ r ∧ r ≠ [] ∧ fs !! q = Some n.
Proof.
  unfold below. rewrite list_elem_of_filter, elem_of_map_to_list. cbn [fst]. split.
  - intros [[[r ->] Hne] ?]. exists r. split_and!; [done| |done]. intros ->. by rewrite app_nil_r in Hne.
  - intros (r&->&Hr&?). split_and!; [by apply prefix_app_r| |done].
    rewrite <-(app_nil_r p) at 2. by intros ?%app_inv_head.
Qed.

Lemma LocalFS_List_spec l m :
  localfs_repr l m → ∃ ids, LocalFS_List l = Ok ids ∧ ids ≡ₚ (map_to_list m).*1.
Proof.
  intros Hl. unfold LocalFS_List.
  rewrite resolve_dirs by by apply (node_at_parents l m).
  rewrite (node_at_root l m Hl). eexists. split; [done|]. cbn.
  assert (∀ q n id, (q, n) ∈ below (root l) (disk l) →
    List_visit (q, n) = Some id ↔ plain_id id ∧ q = root l ++ chunk_path id ∧ n ≠ Dir) as Hvisit.
  { intros q n id (r&->&Hr&Hq)%elem_of_below.
    rewrite List_visit_store by by apply (repr_shape _ _ Hl).
    split; intros (?&Heq&?); (split_and!; [done| |done]); [by rewrite Heq|by apply app_inv_head in Heq]. }
  apply NoDup_Permutation.
  - apply NoDup_omap_inj; [apply NoDup_filter, NoDup_map_to_list|].
    intros [q n] [q' n'] id Hq Hq'.
    rewrite (Hvisit _ _ _ Hq), (Hvisit _ _ _ Hq'). intros (_&->&_) (_&->&_).
    apply elem_of_below in Hq as (?&_&_&Hn). apply elem_of_below in Hq' as (?&_&_&Hn'). congruence.
  - apply NoDup_fst_map_to_list.
  - intros id. rewrite list_elem_of_omap, list_elem_of_fmap. split.
    + intros ([q n]&Hq&Hv). apply (Hvisit _ _ _ Hq) in Hv as (Hid&->&Hn).
      apply elem_of_below in Hq as (_&_&_&Hq). destruct n as [|d]; [done|].
      exists (id, d). split; [done|]. apply elem_of_map_to_list. by apply (repr_chunks _ _ Hl).
    + intros ([id' d]&->&Hm%elem_of_map_to_list). apply (repr_chunks _ _ Hl) in Hm as [Hid Hd].
      assert ((root l ++ chunk_path id', File d) ∈ below (root l) (disk l)) as Hin.
      { apply elem_of_below. by exists (chunk_path id'). }
      exists (root l ++ chunk_path id', File d). split; [done|]. by apply Hvisit.
Qed.

#[export, program] Instance LocalFS_BackendSpec : BackendSpec LocalFS := {|
  be_valid := plain_id;
  be_repr := localfs_repr;
|}.
Next Obligation. intros l m id d Hl Hm. by apply (repr_chunks _ _ Hl) in Hm as []. Qed.
Next Obligation. intros. by apply LocalFS_Put_spec. Qed.
Next Obligation. intros. by apply LocalFS_Get_spec. Qed.
Next Obligation. intros. by apply LocalFS_Has_spec. Qed.
Next Obligation. intros. by apply LocalFS_Delete_spec. Qed.
Next Obligation. intros. by apply LocalFS_List_spec. Qed.

(** ** Opening a store *)

Lemma mkdirs_spec fs ps :
  (∀ q d, q ∈ ps → node_at fs q ≠ Some (File d)) →
  ∃ fs', mkdirs fs ps = (None, fs') ∧ (∀ q, q ∈ ps → node_at fs' q = Some Dir) ∧
    (∀ q, q ∉ ps → fs' !! q = fs !! q).
Proof.
  revert fs. induction ps as [|p ps IH]; intros fs Hps; cbn [mkdirs].
  { exists fs. split_and!; [done| |done]. intros q Hq. by apply elem_of_nil in Hq. }
  destruct (node_at fs p) as [[|d]|] eqn:Hp.
  - destruct (IH fs) as (fs'&->&Hdir&Hne); [set_solver|]. exists fs'. split_and!; [done| |set_solver].
    intros q [->|Hq]%elem_of_cons; [|by apply Hdir].
    destruct (decide (p ∈ ps)); [by apply Hdir|]. by destruct p; [|cbn [node_at] in *; rewrite Hne].
  - exfalso. by apply (Hps p d); [left|].
  - assert (∀ q, node_at (<[p := Dir]> fs) q = Some Dir ∨ q ≠ p ∧ node_at (<[p := Dir]> fs) q = node_at fs q)
      as Hins.
    { intros q. destruct q as [|c q]; [by left|]. cbn [node_at]. destruct (decide (p = c :: q)) as [->|].
      - left. by rewrite lookup_insert_eq.
      - right. by rewrite lookup_insert_ne. }
    destruct (IH (<[p := Dir]> fs)) as (fs'&->&Hdir&Hne).
    { intros q d Hq. destruct (Hins q) as [->|[_ ->]]; [done|]. apply Hps. by right. }
    exists fs'. split_and!; [done|..].
    + intros q [->|Hq]%elem_of_cons; [|by apply Hdir]. destruct (decide (p ∈ ps)); [by apply Hdir|].
      destruct p; [done|]. cbn [node_at]. by rewrite Hne, lookup_insert_eq.
    + intros q [Hqp Hq]%not_elem_of_cons. by rewrite Hne, lookup_insert_ne.
Qed.

Lemma elem_of_dirs q p : q ∈ parents p ++ [p] ↔ q `prefix_of` p.
Proof.
  rewrite elem_of_app, elem_of_parents, list_elem_of_singleton.
  destruct (decide (q = p)) as [->|]; naive_solver.
Qed.

(** A directory nothing is below, whose path crosses no file, opens as the empty store. *)
Lemma NewLocalFS_empty dir fs :
  (∀ q d, q `prefix_of` dir → node_at fs q ≠ Some (File d)) →
  (∀ q, q ≠ [] → fs !! (dir ++ q) = None) →
  ∃ l, NewLocalFS dir fs = Ok l ∧ root l = dir ∧ localfs_repr l ∅.
Proof.
  intros Hfile Hbelow. unfold NewLocalFS, os_MkdirAll.
  destruct (mkdirs_spec fs (parents dir ++ [dir])) as (fs'&->&Hdir&Hne).
  { intros q d Hq%elem_of_dirs. by apply Hfile. }
  eexists. split; [done|]. split; [done|].
  assert (∀ q, q ≠ [] → fs' !! (dir ++ q) = None) as Hnone.
  { intros q Hq. rewrite Hne; [by apply Hbelow|]. rewrite elem_of_dirs. intros Hp%prefix_length.
    rewrite length_app in Hp. destruct q; [done|simpl in Hp; lia]. }
  split; cbn [root disk].
  - intros q Hq. apply Hdir. by apply elem_of_dirs.
  - intros q n Hq. by rewrite Hnone.
  - intros id d. rewrite lookup_empty, Hnone by done. naive_solver.
  - intros id d. by rewrite lookup_empty.
Qed.

(** Opening the directory of a store again finds the store. *)
Lemma NewLocalFS_again l m : localfs_repr l m → NewLocalFS (root l) (disk l) = Ok l.
Proof.
  intros Hl. unfold NewLocalFS, os_MkdirAll.
  rewrite mkdirs_dirs; [by destruct l|]. intros q Hq%elem_of_dirs. by apply (repr_root _ _ Hl).
Qed.

(** ** Crashes *)

(** The disks a [LocalFS_Put] that is cut short can leave: some of the directories made,
    the temporary file holding some of the data, or the whole of it done. *)
Inductive put_crash (l : LocalFS) (id : string) (d : bytes) : FS → Prop :=
| crash_mkdir k :
    let dir := removelast (LocalFS_path l id) in
    put_crash l id d (mkdirs (disk l) (take k (parents dir ++ [dir]))).2
| crash_write fs d' err fs' :
    os_MkdirAll (removelast (LocalFS_path l id)) (disk l) = (None, fs) →
    d' `prefix_of` d →
    os_WriteFile (tmp_path (LocalFS_path l id)) d' fs = (err, fs') →
    put_crash l id d fs'
| crash_done : put_crash l id d (disk (LocalFS_Put id d l).2).

(** Making the shard directory, any number of steps of it. *)
Lemma repr_mkdirs l m id k :
  localfs_repr l m → plain_id id →
  localfs_repr (MkLocalFS (root l)
    (mkdirs (disk l) (take k (parents (root l ++ [shard id]) ++ [root l ++ [shard id]]))).2) m.
Proof.
  intros Hl Hid. rewrite take_app.
  rewrite (mkdirs_app (disk l) _ _ (disk l)).
  2: { pose proof (mkdirs_parents l m Hl id) as Hmk.
    apply mkdirs_dirs. intros q Hq. apply elem_of_take in Hq as (i&Hq%list_elem_of_lookup_2&_).
    revert Hq. rewrite parents_snoc, elem_of_app, list_elem_of_singleton.
    intros [?| ->]; [by apply (node_at_parents l m)|by apply (node_at_root l m)]. }
  destruct (k - length _) as [|j]; cbn [take mkdirs snd]; [by destruct l|].
  rewrite take_nil, node_at_app by done. cbn [mkdirs].
  destruct (shard_dir l m Hl id) as [Hn|Hn]; rewrite Hn; [by apply repr_shard|by destruct l].
Qed.

(** ** The theorems *)

(** [C36] A store opened on a fresh directory and the in-memory backend cannot be told
    apart: every run of Put, Get, Has, Delete and List on plain IDs gives the same
    results, errors included. *)
Theorem LocalFS_Memory_equivalent dir fs ops :
  (∀ q d, q `prefix_of` dir → node_at fs q ≠ Some (File d)) →
  (∀ q, q ≠ [] → fs !! (dir ++ q) = None) →
  (∀ id, id ∈ ops ≫= op_ids → plain_id id) →
  ∃ l, NewLocalFS dir fs = Ok l ∧ (backend_run ops l).1 = (backend_run ops NewMemory).1.
Proof.
  intros Hfile Hbelow Hids.
  destruct (NewLocalFS_empty dir fs Hfile Hbelow) as (l&->&_&Hl).
  exists l. split; [done|]. apply (backend_run_sim ops l NewMemory ∅); [done..|]. naive_solver.
Qed.

Definition demo_ops : list BackendOp :=
  [OpPut "ab01" [x01]; OpPut "ab02" []; OpGet "ab01"; OpDelete "ab01"; OpGet "ab01"; OpHas "ab02"; OpList].

Lemma LocalFS_Memory_equivalent_witness :
  ∃ l, NewLocalFS ["data"] ∅ = Ok l ∧ (backend_run demo_ops l).1 = (backend_run demo_ops NewMemory).1.
Proof.
  apply LocalFS_Memory_equivalent.
  - intros [|c q] d Hq; [done|]. cbn [node_at]. by rewrite lookup_empty.
  - intros q Hq. apply lookup_empty.
  - intros id Hid. cbn in Hid. rewrite !elem_of_cons, elem_of_nil in Hid.
    destruct_or! Hid; subst; try done; (split; [simpl; lia|done]).
Defined.

(** [C37] Crash atomicity: whatever point a Put is cut at, opening the store again finds
    either every chunk as before the Put or the Put's data under its ID and every other
    chunk as before, never a torn chunk. *)
Theorem LocalFS_Put_atomic l m id d fs :
  localfs_repr l m → plain_id id → put_crash l id d fs →
  ∃ l', NewLocalFS (root l) fs = Ok l' ∧ (localfs_repr l' m ∨ localfs_repr l' (<[id := d]> m)).
Proof.
  intros Hl Hid Hcrash.
  cut (localfs_repr (MkLocalFS (root l) fs) m ∨ localfs_repr (MkLocalFS (root l) fs) (<[id := d]> m)).
  { intros [H|H]; eexists; (split; [exact (NewLocalFS_again _ _ H)|auto]). }
  destruct Hcrash as [k dir|fs1 d' err fs2 Hmk Hd' Hwrite|].
  - left. subst dir. rewrite LocalFS_path_plain, removelast_chunk by done. by apply repr_mkdirs.
  - left. rewrite LocalFS_path_plain, ?removelast_chunk, ?tmp_path_chunk in * by done.
    destruct (MkdirAll_shard l m Hl id Hid) as (fs'&Hmk'&Hl'&Hdir').
    rewrite Hmk in Hmk'. injection Hmk' as <-.
    destruct (WriteFile_tmp _ m Hl' id d' Hid Hdir') as (fs''&Hwrite'&Hl''&_).
    cbn [root disk] in *. rewrite Hwrite in Hwrite'. by injection Hwrite' as _ <-.
  - right. destruct (LocalFS_Put_spec l m id d Hl Hid) as (l'&HP&Hl').
    assert (root l' = root l) as Hroot.
    { revert HP. unfold LocalFS_Put. repeat case_match; by intros [= _ <-]. }
    rewrite HP. cbn [snd]. rewrite <-Hroot. by destruct l'.
Qed.

Definition demo_store : LocalFS := (LocalFS_Put "ab01" [x01; x02] (MkLocalFS ["data"] {[["data"] := Dir]})).2.

Lemma demo_store_repr : localfs_repr demo_store {["ab01" := [x01; x02]]}.
Proof.
  destruct (NewLocalFS_empty ["data"] ∅) as (l&HN&_&Hl).
  - intros [|c q] d Hq; [done|]. cbn [node_at]. by rewrite lookup_empty.
  - intros q Hq. apply lookup_empty.
  - injection HN as <-.
    destruct (LocalFS_Put_spec _ _ "ab01" [x01; x02] Hl) as (l'&HP&Hl'); [by split; [simpl; lia|]|].
    unfold demo_store. replace (MkLocalFS _ _) with (MkLocalFS ["data"] (<[["data"] := Dir]> ∅)) by done.
    by rewrite HP.
Qed.

(** The second Put is cut while its temporary file holds one of its two bytes. *)
Lemma LocalFS_Put_atomic_witness :
  ∃ l', NewLocalFS ["data"] (os_WriteFile ["data"; "ab"; "ab01.tmp"] [x03] (disk demo_store)).2 = Ok l' ∧
    (localfs_repr l' {["ab01" := [x01; x02]]} ∨ localfs_repr l' (<["ab01" := [x03; x04]]> {["ab01" := [x01; x02]]})).
Proof.
  apply (LocalFS_Put_atomic demo_store _ "ab01" [x03; x04]).
  - exact demo_store_repr.
  - split; [simpl; lia|done].
  - apply (crash_write _ _ _ (disk demo_store) [x03] None); [|by exists [x04]|];
      by apply (bool_decide_unpack _); vm_compute.
Defined.

(** A name that is not plain escapes: an empty store's Get can read a file outside its
    root, where its promise for plain IDs is that there is nothing to find. *)
Definition etc_disk : FS :=
  {[["data"] := Dir; ["data"; "chunks"] := Dir; ["etc"] := Dir; ["etc"; "passwd"] := File [x72]]}.

(** Get does not confine itself to the store's root: with an ID that climbs out
    through two dot-dot components it returns a file that no Put wrote. *)
Theorem LocalFS_Get_escapes :
  ∃ l, NewLocalFS ["data"; "chunks"] etc_disk = Ok l ∧
    LocalFS_List l = Ok [] ∧ LocalFS_Get "../../etc/passwd" l = Ok [x72].
Proof. eexists. split; [by vm_compute|]. by vm_compute. Qed.
