(* ===== verification/DiskRace.v ===== *)
(** * internal/storage: Puts of LocalFS that run at the same time

    LocalFS.v takes a [Put] as one call.  Nothing makes it one: two handlers, or a handler
    and an upload, can be in [Put] for the same chunk at once, and both go by the same
    temporary name.  Here a [Put] is the system calls it makes, and files are inodes: the
    open creates the temporary file or empties the one that is there, each [write] goes
    through the descriptor at its own offset, in pieces of any length, and the rename moves
    whatever file is at the temporary name then.  [race_step] makes a step of any of the
    [Put]s under way, a failure of one, or the end of the process, which leaves the files.

    The theorem: a chunk whose [Put]s did not overlap - none opened the temporary file
    while another was between its open and its rename - has at its path at any time the
    data of the last [Put] that returned success, whole; a chunk whose [Put]s did overlap
    still has a file there.  The example: of two [Put]s of the same data that overlap, one
    returns success, and its file is empty.  Goroutines.v counts such a chunk as damaged. *)
From S2P Require Import Prelude GoLib GoNet Storage LocalFS.

(** ** Files *)

(** Directory entries, and the contents of the files that ever were. *)
Record Files := MkFiles {
  names : gmap (list string) nat;
  inodes : list bytes;
}.

(** [open] with [O_CREATE|O_TRUNC]. *)
Definition os_OpenTrunc (p : path) (fs : Files) : nat * Files :=
  match names fs !! p with
  | Some i => (i, MkFiles (names fs) (<[i := []]> (inodes fs)))
  | None => (length (inodes fs), MkFiles (<[p := length (inodes fs)]> (names fs)) (inodes fs ++ [[]]))
  end.

(** The contents of a file after a [write] at an offset; a gap is filled with zeros. *)
Definition splice (off : nat) (b old : bytes) : bytes :=
  take off old ++ replicate (off - length old) x00 ++ b ++ drop (off + length b) old.
Definition os_WriteAt (fd off : nat) (b : bytes) (fs : Files) : Files :=
  MkFiles (names fs) (alter (splice off b) fd (inodes fs)).

(** [rename] of a file. *)
Definition os_Rename_entry (old new : path) (fs : Files) : option error * Files :=
  match names fs !! old with
  | Some i => (None, MkFiles (<[new := i]> (delete old (names fs))) (inodes fs))
  | None => (Some ENOENT, fs)
  end.

Definition file_at (fs : Files) (p : path) : option bytes := names fs !! p ≫= λ i, inodes fs !! i.

(** ** Puts *)

(** At [os.MkdirAll], at the open, at a [write] through the descriptor, at the rename, and
    returned. *)
Inductive PutPC :=
| AtMkdir
| AtOpen
| AtWrite (fd off : nat)
| AtRename
| PutReturned (err : option error).

Record Putting := MkPutting {
  pt_id : string;
  pt_data : bytes;
  pt_pc : PutPC;
}.

(** The files, the [Put]s since the process started, and kept for the theorem: the [Put]s
    that have returned success, in order, and the chunks of which two overlapped. *)
Record Race := MkRace {
  rc_files : Files;
  rc_puts : list Putting;
  rc_done : list (string * bytes);
  rc_overlapped : gset string;
}.

(** Between its open and its rename. *)
Definition has_open (pc : PutPC) : bool := match pc with AtWrite _ _ | AtRename => true | _ => false end.

Inductive RaceAct :=
| Begin (id : string) (d : bytes)
| Advance (k : nat) (n : nat)
| DiskFails (k : nat)
| Restart.

Section race.
Context (root : path).

Definition path_of (id : string) : path := LocalFS_path (MkLocalFS root ∅) id.
Definition tmp_of (id : string) : path := tmp_path (path_of id).

(** The next system call of a [Put]; a [write] takes up to [n] bytes. *)
Definition put_next (pt : Putting) (n : nat) (fs : Files) : option (PutPC * Files) :=
  match pt_pc pt with
  | AtMkdir => Some (AtOpen, fs)
  | AtOpen => let '(fd, fs) := os_OpenTrunc (tmp_of (pt_id pt)) fs in Some (AtWrite fd 0, fs)
  | AtWrite fd off =>
      let piece := take n (drop off (pt_data pt)) in
      if (off =? length (pt_data pt))%nat then Some (AtRename, fs)
      else Some (AtWrite fd (off + length piece), os_WriteAt fd off piece fs)
  | AtRename => let '(err, fs) := os_Rename_entry (tmp_of (pt_id pt)) (path_of (pt_id pt)) fs in Some (PutReturned err, fs)
  | PutReturned _ => None
  end.

(** The chunk, if a [Put] opens its temporary file while another has it open. *)
Definition overlapping (pts : list Putting) (pt : Putting) : gset string :=
  match pt_pc pt with
  | AtOpen =>
      if existsb (λ pt', bool_decide (pt_id pt' = pt_id pt) && has_open (pt_pc pt')) pts then {[pt_id pt]} else ∅
  | _ => ∅
  end.

Definition race_step (a : RaceAct) (s : Race) : option Race :=
  match a with
  | Begin id d => Some (MkRace (rc_files s) (rc_puts s ++ [MkPutting id d AtMkdir]) (rc_done s) (rc_overlapped s))
  | Advance k n =>
      pt ← rc_puts s !! k;
      '(pc, fs) ← put_next pt n (rc_files s);
      Some (MkRace fs (<[k := MkPutting (pt_id pt) (pt_data pt) pc]> (rc_puts s))
        (rc_done s ++ match pc with PutReturned None => [(pt_id pt, pt_data pt)] | _ => [] end)
        (rc_overlapped s ∪ overlapping (rc_puts s) pt))
  | DiskFails k =>
      pt ← rc_puts s !! k;
      match pt_pc pt with
      | PutReturned _ => None
      | _ => Some (MkRace (rc_files s)
               (<[k := MkPutting (pt_id pt) (pt_data pt) (PutReturned (Some (errors_New "input/output error")))]> (rc_puts s))
               (rc_done s) (rc_overlapped s))
      end
  | Restart => Some (MkRace (rc_files s) [] (rc_done s) (rc_overlapped s))
  end.

Fixpoint race_run (acts : list RaceAct) (s : Race) : option Race :=
  match acts with
  | [] => Some s
  | a :: acts => race_step a s ≫= race_run acts
  end.

(** A store that nobody writes to, with these chunks. *)
Record quiet_store (m : gmap string bytes) (fs : Files) : Prop := {
  qs_inj p q i : names fs !! p = Some i → names fs !! q = Some i → p = q;
  qs_bound p i : names fs !! p = Some i → i < length (inodes fs);
  qs_chunks id : plain_id id → file_at fs (path_of id) = m !! id;
}.

(** What the store holds after the [Put]s, taken one after the other. *)
Definition put_all (done : list (string * bytes)) (m : gmap string bytes) : gmap string bytes :=
  foldl (λ m '(id, d), <[id := d]> m) m done.

(** ** Paths *)

Lemma path_of_plain id : plain_id id → path_of id = root ++ chunk_path id.
Proof. apply LocalFS_path_plain. Qed.

Lemma tmp_of_plain id : plain_id id → tmp_of id = root ++ [shard id; id +:+ ".tmp"].
Proof. intros Hid. unfold tmp_of. by rewrite path_of_plain, tmp_path_chunk. Qed.

Lemma path_of_inj id id' : plain_id id → plain_id id' → path_of id = path_of id' → id = id'.
Proof. intros H H'. rewrite !path_of_plain by done. by intros [= _ ?]%app_inv_head. Qed.

Lemma append_inj_l (s s' t : string) : s +:+ t = s' +:+ t → s = s'.
Proof.
  intros Heq. assert (String.length s = String.length s') as Hlen.
  { apply (f_equal String.length) in Heq. rewrite !length_append in Heq. lia. }
  revert s' Heq Hlen. induction s as [|c s IH]; intros [|c' s'] Heq Hlen; try done.
  cbn in Heq. injection Heq as -> Heq. f_equal. apply IH; [done|by injection Hlen].
Qed.

Lemma tmp_of_inj id id' : plain_id id → plain_id id' → tmp_of id = tmp_of id' → id = id'.
Proof. intros H H'. rewrite !tmp_of_plain by done. by intros [= _ ?%append_inj_l]%app_inv_head. Qed.

Lemma tmp_not_path id id' : plain_id id → plain_id id' → tmp_of id ≠ path_of id'.
Proof.
  intros H H'. rewrite tmp_of_plain, path_of_plain by done. intros Heq%app_inv_head. by eapply tmp_not_chunk.
Qed.

(** ** The invariant *)

(** What a [Put] of a chunk whose [Put]s did not overlap knows of its temporary file. *)
Definition open_ok (fs : Files) (pt : Putting) : Prop :=
  match pt_pc pt with
  | AtWrite fd off => names fs !! tmp_of (pt_id pt) = Some fd ∧ inodes fs !! fd = Some (take off (pt_data pt))
  | AtRename => file_at fs (tmp_of (pt_id pt)) = Some (pt_data pt)
  | _ => True
  end.

(** A descriptor is one of a file under the names of the chunk, or under none. *)
Definition fd_ok (fs : Files) (pt : Putting) : Prop :=
  match pt_pc pt with
  | AtWrite fd off =>
      fd < length (inodes fs) ∧ off ≤ length (pt_data pt) ∧
      ∀ p, names fs !! p = Some fd → p = tmp_of (pt_id pt) ∨ p = path_of (pt_id pt)
  | _ => True
  end.

Record race_ok (m : gmap string bytes) (s : Race) : Prop := {
  ro_inj p q i : names (rc_files s) !! p = Some i → names (rc_files s) !! q = Some i → p = q;
  ro_bound p i : names (rc_files s) !! p = Some i → i < length (inodes (rc_files s));
  ro_plain k pt : rc_puts s !! k = Some pt → plain_id (pt_id pt);
  ro_fd k pt : rc_puts s !! k = Some pt → fd_ok (rc_files s) pt;
  ro_one j k pt pt' :
    rc_puts s !! j = Some pt → rc_puts s !! k = Some pt' → pt_id pt = pt_id pt' → pt_id pt ∉ rc_overlapped s →
    has_open (pt_pc pt) = true → has_open (pt_pc pt') = true → j = k;
  ro_open k pt : rc_puts s !! k = Some pt → pt_id pt ∉ rc_overlapped s → open_ok (rc_files s) pt;
  ro_chunks id :
    plain_id id → id ∉ rc_overlapped s → file_at (rc_files s) (path_of id) = put_all (rc_done s) m !! id;
  ro_exists id :
    plain_id id → is_Some (file_at (rc_files s) (path_of id)) ↔ is_Some (put_all (rc_done s) m !! id);
}.

Lemma put_all_snoc done id d m : put_all (done ++ [(id, d)]) m = <[id := d]> (put_all done m).
Proof. unfold put_all. by rewrite foldl_app. Qed.

Lemma file_bound fs p : (∀ i, names fs !! p = Some i → i < length (inodes fs)) →
  is_Some (file_at fs p) ↔ is_Some (names fs !! p).
Proof.
  intros Hb. unfold file_at. destruct (names fs !! p) as [i|]; cbn; [|by split; intros []].
  destruct (lookup_lt_is_Some_2 (inodes fs) i (Hb i eq_refl)) as [x ->]. by split; eauto.
Qed.

(** The end of a [Put] without success, and the start of one. *)
Lemma race_ok_puts m s pts' :
  race_ok m s →
  (∀ k pt, pts' !! k = Some pt → rc_puts s !! k = Some pt ∨
     plain_id (pt_id pt) ∧ (pt_pc pt = AtMkdir ∨ pt_pc pt = AtOpen ∨ ∃ err, pt_pc pt = PutReturned err)) →
  race_ok m (MkRace (rc_files s) pts' (rc_done s) (rc_overlapped s)).
Proof.
  intros [Hinj Hb Hpl Hfd Hone Hopen Hch Hex] Hp. split; cbn [rc_files rc_puts rc_done rc_overlapped]; try done.
  - intros k pt [?|[? _]]%Hp; [by eapply Hpl|done].
  - intros k pt [?|[_ Hpc]]%Hp; [by eapply Hfd|]. unfold fd_ok. by destruct Hpc as [->|[->|[? ->]]].
  - intros j k pt pt' Hj Hk Hid Hno Ho Ho'.
    destruct (Hp j pt Hj) as [Hj'|[_ Hpc]]; [|by destruct Hpc as [Hpc|[Hpc|[? Hpc]]]; rewrite Hpc in Ho].
    destruct (Hp k pt' Hk) as [Hk'|[_ Hpc]]; [|by destruct Hpc as [Hpc|[Hpc|[? Hpc]]]; rewrite Hpc in Ho'].
    by eapply Hone.
  - intros k pt [?|[_ Hpc]]%Hp; [by eapply Hopen|]. unfold open_ok. by destruct Hpc as [->|[->|[? ->]]].
Qed.

(** The other [Put]s when one has moved on. *)
Lemma moved_lookup (pts : list Putting) k pt pc j pt' :
  pts !! k = Some pt → <[k := MkPutting (pt_id pt) (pt_data pt) pc]> pts !! j = Some pt' →
  (j = k ∧ pt' = MkPutting (pt_id pt) (pt_data pt) pc) ∨ (j ≠ k ∧ pts !! j = Some pt').
Proof. intros Hk [(->&<-&_)|[? ?]]%list_lookup_insert_Some; [by left|right]; by split. Qed.

Lemma not_overlapping pts pt j pt' :
  pt_id pt ∉ overlapping pts pt → pt_pc pt = AtOpen → pts !! j = Some pt' → pt_id pt' = pt_id pt →
  has_open (pt_pc pt') = false.
Proof.
  unfold overlapping. intros Hno Hpc Hj Hid. rewrite Hpc in Hno.
  destruct (has_open (pt_pc pt')) eqn:Ho; [|done]. exfalso.
  assert (existsb (λ pt', bool_decide (pt_id pt' = pt_id pt) && has_open (pt_pc pt')) pts = true) as Hex.
  { apply existsb_exists. exists pt'. split; [apply list_elem_of_In; by eapply list_elem_of_lookup_2|].
    by rewrite Ho, bool_decide_eq_true_2. }
  rewrite Hex in Hno. set_solver.
Qed.

Section steps.
Context (m : gmap string bytes) (s : Race) (Hok : race_ok m s).
Context (k : nat) (pt : Putting) (Hk : rc_puts s !! k = Some pt).

Abbreviation fs := (rc_files s).
Abbreviation after := (λ pc fs', MkRace fs' (<[k := MkPutting (pt_id pt) (pt_data pt) pc]> (rc_puts s))).

(** The open. *)
Lemma race_ok_open fd fs' :
  pt_pc pt = AtOpen → os_OpenTrunc (tmp_of (pt_id pt)) fs = (fd, fs') →
  race_ok m (after (AtWrite fd 0) fs' (rc_done s) (rc_overlapped s ∪ overlapping (rc_puts s) pt)).
Proof.
  intros Hpc Hopen. pose proof Hok as [Hinj Hb Hpl Hfd Hone Hop Hch Hex]. pose proof (Hpl k pt Hk) as Hid.
  assert (names fs' !! tmp_of (pt_id pt) = Some fd ∧ inodes fs' !! fd = Some [] ∧
    length (inodes fs) ≤ length (inodes fs') ∧
    (∀ p, p ≠ tmp_of (pt_id pt) → names fs' !! p = names fs !! p) ∧
    (∀ p, p ≠ tmp_of (pt_id pt) → names fs !! p ≠ Some fd) ∧
    (∀ i, i ≠ fd → i < length (inodes fs) → inodes fs' !! i = inodes fs !! i)) as (Hn&Hc&Hlen&Hsame&Hfresh&Hinodes).
  { unfold os_OpenTrunc in Hopen. destruct (names fs !! tmp_of (pt_id pt)) as [i|] eqn:Hi; injection Hopen as <- <-; cbn.
    - split_and!; [done|by apply list_lookup_insert_eq, (Hb (tmp_of (pt_id pt)))|by rewrite length_insert|done| |].
      + intros p Hp Hpi. by apply Hp, (Hinj p _ i).
      + intros j Hj _. by rewrite list_lookup_insert_ne.
    - split_and!; [by rewrite lookup_insert_eq|by rewrite lookup_app_r, Nat.sub_diag|rewrite length_app; lia| | |].
      + intros p Hp. by rewrite lookup_insert_ne.
      + intros p _ Hp. apply Hb in Hp. lia.
      + intros j _ Hj. by rewrite lookup_app_l. }
  assert (∀ p, p ≠ tmp_of (pt_id pt) → file_at fs' p = file_at fs p) as Hfile.
  { intros p Hp. unfold file_at. rewrite (Hsame p Hp). destruct (names fs !! p) as [i|] eqn:Hi; [|done]. cbn.
    apply Hinodes; [|by eapply Hb]. intros ->. by eapply Hfresh. }
  assert (fd < length (inodes fs')) as Hlt by by eapply lookup_lt_Some.
  split; cbn [rc_files rc_puts rc_done rc_overlapped].
  - intros p q i Hp Hq. destruct (decide (p = tmp_of (pt_id pt))) as [->|Hpt], (decide (q = tmp_of (pt_id pt))) as [->|Hqt];
      [done|rewrite Hn in Hp; rewrite Hsame in Hq by done; injection Hp as <-; by destruct (Hfresh q)
      |rewrite Hn in Hq; rewrite Hsame in Hp by done; injection Hq as <-; by destruct (Hfresh p)
      |rewrite Hsame in Hp, Hq by done; by eapply Hinj].
  - intros p i Hp. destruct (decide (p = tmp_of (pt_id pt))) as [->|Hpt]; [rewrite Hn in Hp; by injection Hp as <-|].
    rewrite Hsame in Hp by done. apply Hb in Hp. lia.
  - intros j pt' [(_&->)|(_&Hj)]%(moved_lookup _ _ _ _ _ _ Hk); [done|by eapply Hpl].
  - intros j pt' [(_&->)|(_&Hj)]%(moved_lookup _ _ _ _ _ _ Hk).
    + unfold fd_ok. cbn. split; [done|]. split; [lia|]. intros p Hp. left.
      destruct (decide (p = tmp_of (pt_id pt))) as [->|Hpt]; [done|]. rewrite Hsame in Hp by done. by destruct (Hfresh p).
    + pose proof (Hfd j pt' Hj) as Hfj. unfold fd_ok in *. destruct (pt_pc pt') as [| |fd' off'| |]; try done.
      destruct Hfj as (?&?&Hp'). split; [lia|]. split; [done|]. intros p Hp.
      destruct (decide (p = tmp_of (pt_id pt))) as [->|Hpt]; [|rewrite Hsame in Hp by done; by apply Hp'].
      rewrite Hn in Hp. injection Hp as ->. unfold os_OpenTrunc in Hopen.
      destruct (names fs !! tmp_of (pt_id pt)) as [i|] eqn:Hi; injection Hopen as <- _; [by apply Hp'|lia].
  - assert (∀ j pt', rc_puts s !! j = Some pt' → pt_id pt' = pt_id pt → pt_id pt ∉ overlapping (rc_puts s) pt →
      has_open (pt_pc pt') = true → False) as Hnone.
    { intros j pt' Hj Hidj Hno Ho. by rewrite (not_overlapping _ _ j pt' Hno Hpc Hj Hidj) in Ho. }
    intros i j pi pj Hi Hj Hij Hno Hoi Hoj. rewrite not_elem_of_union in Hno. destruct Hno as [Hno Hno'].
    destruct (moved_lookup _ _ _ _ _ _ Hk Hi) as [(->&->)|(_&Hi')], (moved_lookup _ _ _ _ _ _ Hk Hj) as [(->&->)|(_&Hj')];
      cbn [pt_id] in *; [done|by destruct (Hnone j pj)|rewrite Hij in Hno'; by destruct (Hnone i pi)|by eapply Hone].
  - intros j pt' Hj Hno. rewrite not_elem_of_union in Hno. destruct Hno as [Hno Hno'].
    destruct (moved_lookup _ _ _ _ _ _ Hk Hj) as [(->&->)|(_&Hj')].
    + unfold open_ok. cbn. done.
    + pose proof (Hop j pt' Hj' Hno) as Hopj.
      assert (has_open (pt_pc pt') = true → tmp_of (pt_id pt') ≠ tmp_of (pt_id pt)) as Hne.
      { intros Ho Heq. apply tmp_of_inj in Heq; [|by eapply Hpl|done]. rewrite Heq in Hno'.
        by rewrite (not_overlapping _ _ j pt' Hno' Hpc Hj' Heq) in Ho. }
      unfold open_ok in *. destruct (pt_pc pt') as [| |fd' off'| |]; try done.
      * destruct Hopj as [Hn' Hc']. rewrite Hsame by by apply Hne. split; [done|].
        rewrite Hinodes; [done| |by eapply Hb]. intros ->. apply (Hfresh (tmp_of (pt_id pt'))); [by apply Hne|done].
      * by rewrite Hfile by by apply Hne.
  - intros id Hidp Hno. rewrite Hfile by (apply not_eq_sym; by apply tmp_not_path). apply Hch; [done|set_solver].
  - intros id Hidp. rewrite Hfile by (apply not_eq_sym; by apply tmp_not_path). by apply Hex.
Qed.

(** A write. *)
Lemma splice_take n off d :
  off ≤ length d → splice off (take n (drop off d)) (take off d) = take (off + length (take n (drop off d))) d.
Proof.
  intros Hoff. set (piece := take n (drop off d)).
  assert (piece = take (length piece) (drop off d)) as Hpiece.
  { unfold piece. rewrite length_take. destruct (Nat.le_gt_cases n (length (drop off d))) as [Hn|Hn]; [by rewrite Nat.min_l|].
    by rewrite Nat.min_r, !take_ge by lia. }
  unfold splice. rewrite <-take_take_drop, <-Hpiece, length_take, Nat.min_l, Nat.sub_diag, take_idemp by done.
  rewrite (drop_ge (take off d)) by (rewrite length_take; lia). cbn [replicate app]. by rewrite app_nil_r.
Qed.

Lemma write_other fd off b p :
  names fs !! p ≠ Some fd → file_at (os_WriteAt fd off b fs) p = file_at fs p.
Proof.
  unfold file_at, os_WriteAt. cbn. destruct (names fs !! p) as [i|]; [|done]. intros Hi. cbn.
  apply list_lookup_alter_ne. congruence.
Qed.

Lemma race_ok_write fd off n :
  pt_pc pt = AtWrite fd off → let piece := take n (drop off (pt_data pt)) in
  race_ok m (after (AtWrite fd (off + length piece)) (os_WriteAt fd off piece fs) (rc_done s) (rc_overlapped s)).
Proof.
  intros Hpc piece. pose proof Hok as [Hinj Hb Hpl Hfd Hone Hop Hch Hex]. pose proof (Hpl k pt Hk) as Hid.
  pose proof (Hfd k pt Hk) as Hfk. unfold fd_ok in Hfk. rewrite Hpc in Hfk. destruct Hfk as (Hlt&Hoff&Hnames).
  assert (∀ id, plain_id id → id ∉ rc_overlapped s → names fs !! path_of id ≠ Some fd) as Hpath.
  { intros id Hidp Hno Hp. destruct (Hnames _ Hp) as [Heq|Heq]; [by apply (tmp_not_path (pt_id pt) id)|].
    apply path_of_inj in Heq as ->; [|done..]. pose proof (Hop k pt Hk Hno) as Ho. unfold open_ok in Ho. rewrite Hpc in Ho.
    destruct Ho as [Ho _]. by apply (tmp_not_path (pt_id pt) (pt_id pt)), (Hinj _ _ fd). }
  assert (∀ j pt', j ≠ k → rc_puts s !! j = Some pt' → pt_id pt' ∉ rc_overlapped s → has_open (pt_pc pt') = true →
    names fs !! tmp_of (pt_id pt') ≠ Some fd) as Htmp.
  { intros j pt' Hjk Hj Hno Ho Hp. destruct (Hnames _ Hp) as [Heq|Heq].
    - apply tmp_of_inj in Heq; [|by eapply Hpl|done]. apply Hjk. apply (Hone j k pt' pt); try done. by rewrite Hpc.
    - apply (tmp_not_path (pt_id pt') (pt_id pt)); [by eapply Hpl|done..]. }
  split; cbn [rc_files rc_puts rc_done rc_overlapped os_WriteAt names inodes]; rewrite ?length_alter; try done.
  - intros j pt' [(_&->)|(_&Hj)]%(moved_lookup _ _ _ _ _ _ Hk); [done|by eapply Hpl].
  - intros j pt' [(_&->)|(_&Hj)]%(moved_lookup _ _ _ _ _ _ Hk).
    + unfold fd_ok. cbn. rewrite length_alter. split; [done|]. split; [|done].
      unfold piece. rewrite length_take, length_drop. lia.
    + pose proof (Hfd j pt' Hj) as Hfj. unfold fd_ok in *. cbn. by rewrite length_alter.
  - intros i j pi pj Hi Hj Hij Hno Hoi Hoj.
    destruct (moved_lookup _ _ _ _ _ _ Hk Hi) as [(->&->)|(_&Hi')], (moved_lookup _ _ _ _ _ _ Hk Hj) as [(->&->)|(_&Hj')];
      cbn [pt_id] in *; [done|apply (Hone k j pt pj)|apply (Hone i k pi pt)|by eapply Hone]; try done; by rewrite Hpc.
  - intros j pt' Hj Hno. destruct (moved_lookup _ _ _ _ _ _ Hk Hj) as [(->&->)|(Hjk&Hj')]; cbn [pt_id] in *.
    + pose proof (Hop k pt Hk Hno) as Ho. unfold open_ok in *. rewrite Hpc in Ho. cbn. destruct Ho as [Hn Hc]. split; [done|].
      rewrite list_lookup_alter_eq, Hc. cbn. f_equal. by apply splice_take.
    + pose proof (Hop j pt' Hj' Hno) as Ho. pose proof (Htmp j pt' Hjk Hj' Hno) as Hne. unfold open_ok in *.
      destruct (pt_pc pt') as [| |fd' off'| |]; try done.
      * destruct Ho as [Hn Hc]. split; [done|]. cbn. rewrite list_lookup_alter_ne; [done|]. rewrite Hn in Hne. naive_solver.
      * rewrite write_other; [done|by apply Hne].
  - intros id Hidp Hno. rewrite write_other by by apply Hpath. by apply Hch.
  - intros id Hidp. rewrite <-(Hex id Hidp). unfold file_at. cbn. destruct (names fs !! path_of id) as [i|]; [|done]. cbn.
    destruct (decide (i = fd)) as [->|]; [|by rewrite list_lookup_alter_ne].
    rewrite list_lookup_alter_eq. by destruct (inodes fs !! fd).
Qed.

(** The close. *)
Lemma race_ok_close fd :
  pt_pc pt = AtWrite fd (length (pt_data pt)) → race_ok m (after AtRename fs (rc_done s) (rc_overlapped s)).
Proof.
  intros Hpc. pose proof Hok as [Hinj Hb Hpl Hfd Hone Hop Hch Hex].
  split; cbn [rc_files rc_puts rc_done rc_overlapped]; try done.
  - intros j pt' [(_&->)|(_&Hj)]%(moved_lookup _ _ _ _ _ _ Hk); [exact (Hpl k pt Hk)|by eapply Hpl].
  - intros j pt' [(_&->)|(_&Hj)]%(moved_lookup _ _ _ _ _ _ Hk); [done|by eapply Hfd].
  - intros i j pi pj Hi Hj Hij Hno Hoi Hoj.
    destruct (moved_lookup _ _ _ _ _ _ Hk Hi) as [(->&->)|(_&Hi')], (moved_lookup _ _ _ _ _ _ Hk Hj) as [(->&->)|(_&Hj')];
      cbn [pt_id] in *; [done|apply (Hone k j pt pj)|apply (Hone i k pi pt)|by eapply Hone]; try done; by rewrite Hpc.
  - intros j pt' Hj Hno. destruct (moved_lookup _ _ _ _ _ _ Hk Hj) as [(->&->)|(Hjk&Hj')]; cbn [pt_id] in *; [|by eapply Hop].
    pose proof (Hop k pt Hk Hno) as Ho. unfold open_ok, file_at in *. rewrite Hpc in Ho. cbn. destruct Ho as [-> Hc].
    cbn. by rewrite Hc, take_ge.
Qed.

(** The rename. *)
Lemma race_ok_rename i :
  pt_pc pt = AtRename → names fs !! tmp_of (pt_id pt) = Some i →
  race_ok m (after (PutReturned None) (MkFiles (<[path_of (pt_id pt) := i]> (delete (tmp_of (pt_id pt)) (names fs))) (inodes fs))
    (rc_done s ++ [(pt_id pt, pt_data pt)]) (rc_overlapped s)).
Proof.
  intros Hpc Hi. pose proof Hok as [Hinj Hb Hpl Hfd Hone Hop Hch Hex]. pose proof (Hpl k pt Hk) as Hid.
  set (nm := <[_ := i]> _).
  assert (∀ p j, nm !! p = Some j → (p = path_of (pt_id pt) ∧ j = i) ∨
    (p ≠ path_of (pt_id pt) ∧ p ≠ tmp_of (pt_id pt) ∧ names fs !! p = Some j)) as Hnm.
  { intros p j [[<- <-]|[? [? ?]%lookup_delete_Some]]%lookup_insert_Some; [by left|right]. done. }
  assert (∀ id, plain_id id → id ≠ pt_id pt → nm !! path_of id = names fs !! path_of id) as Hpath.
  { intros id Hidp Hne. unfold nm. rewrite lookup_insert_ne by (intros ?%path_of_inj; naive_solver).
    apply lookup_delete_ne. by apply tmp_not_path. }
  assert (∀ id, plain_id id → id ≠ pt_id pt → nm !! tmp_of id = names fs !! tmp_of id) as Htmp.
  { intros id Hidp Hne. unfold nm. rewrite lookup_insert_ne by by apply not_eq_sym, tmp_not_path.
    apply lookup_delete_ne. intros ?%tmp_of_inj; naive_solver. }
  split; cbn [rc_files rc_puts rc_done rc_overlapped names inodes].
  - intros p q j [[-> ->]|(_&Hp0&Hp)]%Hnm [[-> Hj]|(_&Hq0&Hq)]%Hnm; [done| | |by eapply Hinj].
    + exfalso. by apply Hq0, (Hinj q _ i).
    + subst j. exfalso. by apply Hp0, (Hinj p _ i).
  - intros p j [[-> ->]|(_&_&Hp)]%Hnm; by eapply Hb.
  - intros j pt' [(_&->)|(_&Hj)]%(moved_lookup _ _ _ _ _ _ Hk); [done|by eapply Hpl].
  - intros j pt' [(_&->)|(_&Hj)]%(moved_lookup _ _ _ _ _ _ Hk); [done|].
    pose proof (Hfd j pt' Hj) as Hfj. unfold fd_ok in *. destruct (pt_pc pt') as [| |fd' off'| |]; try done.
    destruct Hfj as (?&?&Hp'). split_and!; [done..|]. intros p [[-> ->]|(_&_&Hp)]%Hnm; [|by apply Hp']. right.
    destruct (Hp' _ Hi) as [Heq|Heq]; [|exfalso; apply (tmp_not_path (pt_id pt) (pt_id pt')); [done|by eapply Hpl|done]].
    apply tmp_of_inj in Heq as ->; [done..|by eapply Hpl].
  - intros a b pa pb Ha' Hb' Hab Hno Hoa Hob.
    destruct (moved_lookup _ _ _ _ _ _ Hk Ha') as [(->&->)|(_&Ha)], (moved_lookup _ _ _ _ _ _ Hk Hb') as [(->&->)|(_&Hb0)];
      try done. by eapply Hone.
  - intros j pt' Hj Hno. destruct (moved_lookup _ _ _ _ _ _ Hk Hj) as [(->&->)|(Hjk&Hj')]; [done|].
    pose proof (Hop j pt' Hj' Hno) as Ho.
    assert (has_open (pt_pc pt') = true → nm !! tmp_of (pt_id pt') = names fs !! tmp_of (pt_id pt')) as Hsame.
    { intros Hopen. apply Htmp; [by eapply Hpl|]. intros Heq. apply Hjk. apply (Hone j k pt' pt); try done. by rewrite Hpc. }
    unfold open_ok, file_at in *. destruct (pt_pc pt') as [| |fd' off'| |]; try done; cbn; by rewrite Hsame.
  - intros id Hidp Hno. rewrite put_all_snoc. unfold file_at. cbn. destruct (decide (id = pt_id pt)) as [->|Hne].
    + rewrite lookup_insert_eq. unfold nm. rewrite lookup_insert_eq. cbn.
      pose proof (Hop k pt Hk Hno) as Ho. unfold open_ok, file_at in Ho. rewrite Hpc, Hi in Ho. exact Ho.
    + rewrite lookup_insert_ne, Hpath by done. by apply Hch.
  - intros id Hidp. rewrite put_all_snoc. unfold file_at. cbn. destruct (decide (id = pt_id pt)) as [->|Hne].
    + rewrite lookup_insert_eq. unfold nm. rewrite lookup_insert_eq. cbn. split; [by eauto|intros _].
      by apply lookup_lt_is_Some_2, (Hb (tmp_of (pt_id pt))).
    + rewrite lookup_insert_ne, Hpath by done. by apply Hex.
Qed.
End steps.

Lemma race_step_ok m a s s' :
  (∀ id d, a = Begin id d → plain_id id) → race_ok m s → race_step a s = Some s' → race_ok m s'.
Proof.
  intros Hplain Hok. destruct a as [id d|k n|k|]; cbn [race_step].
  - intros [= <-]. apply (race_ok_puts m s _ Hok). intros k pt [?|[_ Hpt]]%lookup_app_Some; [by left|right].
    apply list_lookup_singleton_Some in Hpt as [_ <-]. split; [by eapply Hplain|by left].
  - destruct (rc_puts s !! k) as [pt|] eqn:Hk; cbn [mbind option_bind]; [|done].
    pose proof (ro_plain m s Hok k pt Hk) as Hid.
    assert (∀ pc, (pc = AtOpen ∨ ∃ err, pc = PutReturned err) → pt_pc pt ≠ AtOpen →
      race_ok m (MkRace (rc_files s) (<[k := MkPutting (pt_id pt) (pt_data pt) pc]> (rc_puts s)) (rc_done s ++ [])
        (rc_overlapped s ∪ overlapping (rc_puts s) pt))) as Hmove.
    { intros pc Hpc Hno. assert (overlapping (rc_puts s) pt = ∅) as -> by (unfold overlapping; by destruct (pt_pc pt)).
      rewrite app_nil_r, (right_id_L ∅ (∪)). apply (race_ok_puts m s _ Hok).
      intros j pt' [(_&->)|(_&?)]%(moved_lookup _ _ _ _ _ _ Hk); [right|by left]. split; [done|]. by right. }
    unfold put_next. destruct (pt_pc pt) as [| |fd off| |err] eqn:Hpc; cbn [mbind option_bind].
    + intros [= <-]. apply Hmove; [by left|done].
    + destruct (os_OpenTrunc _ _) as [fd fs'] eqn:Ho. intros [= <-]. rewrite app_nil_r. by eapply race_ok_open.
    + assert (overlapping (rc_puts s) pt = ∅) as -> by (unfold overlapping; by rewrite Hpc).
      rewrite (right_id_L ∅ (∪)). destruct (Nat.eqb_spec off (length (pt_data pt))) as [->|_]; intros [= <-]; rewrite app_nil_r.
      * by eapply race_ok_close.
      * by apply race_ok_write.
    + unfold os_Rename_entry. destruct (names _ !! _) as [i|] eqn:Hi; intros [= <-]; [|apply Hmove; [right; by eexists|done]].
      assert (overlapping (rc_puts s) pt = ∅) as -> by (unfold overlapping; by rewrite Hpc).
      rewrite (right_id_L ∅ (∪)). by apply race_ok_rename.
    + done.
  - destruct (rc_puts s !! k) as [pt|] eqn:Hk; cbn [mbind option_bind]; [|done]. intros Hst.
    assert (race_ok m (MkRace (rc_files s)
      (<[k := MkPutting (pt_id pt) (pt_data pt) (PutReturned (Some (errors_New "input/output error")))]> (rc_puts s))
      (rc_done s) (rc_overlapped s))); [|destruct (pt_pc pt); (discriminate Hst || by injection Hst as <-)].
    apply (race_ok_puts m s _ Hok). intros j pt' [(_&->)|(_&?)]%(moved_lookup _ _ _ _ _ _ Hk); [right|by left].
    split; [exact (ro_plain m s Hok k pt Hk)|]. right. right. by eexists.
  - intros [= <-]. by apply (race_ok_puts m s _ Hok).
Qed.

Lemma race_run_ok m acts s s' :
  (∀ id d, Begin id d ∈ acts → plain_id id) → race_ok m s → race_run acts s = Some s' → race_ok m s'.
Proof.
  revert s. induction acts as [|a acts IH]; intros s Hplain Hok; cbn [race_run]; [by intros [= <-]|].
  destruct (race_step a s) as [s1|] eqn:Ha; [|done]. apply IH; [set_solver|].
  eapply race_step_ok; [|done..]. intros id d ->. apply (Hplain id d). by left.
Qed.

Lemma quiet_race_ok m fs : quiet_store m fs → race_ok m (MkRace fs [] [] ∅).
Proof.
  intros [Hinj Hb Hch]. split; cbn; try done; [|by intros id Hid; rewrite Hch].
  intros id Hid _. by apply Hch.
Qed.

(** ** The theorem *)

(** [C10] Puts on the disk, interleaved call by call, with short writes, failures and ends of
    the process between any two: the file of a chunk whose [Put]s never overlapped is, at
    any time, that of the last [Put] that returned success, whole - so for such chunks
    the store is the map of storage.go's [Memory], each [Put] taking effect at once at
    its rename; and every chunk of which a [Put] has returned success has a file. *)
Theorem unoverlapped_puts_whole m fs acts s :
  quiet_store m fs → (∀ id d, Begin id d ∈ acts → plain_id id) →
  race_run acts (MkRace fs [] [] ∅) = Some s →
  ∀ id, plain_id id →
    (id ∉ rc_overlapped s → file_at (rc_files s) (path_of id) = put_all (rc_done s) m !! id) ∧
    (is_Some (file_at (rc_files s) (path_of id)) ↔ is_Some (put_all (rc_done s) m !! id)).
Proof.
  intros Hq Hplain Hrun id Hid. pose proof (race_run_ok m acts _ s Hplain (quiet_race_ok m fs Hq) Hrun) as Hok.
  split; [by apply (ro_chunks m s Hok)|by apply (ro_exists m s Hok)].
Qed.
End race.

(** ** Witness and counterexample *)

Definition empty_files : Files := MkFiles ∅ [].

Lemma empty_quiet : quiet_store ["data"] ∅ empty_files.
Proof. by split. Qed.

(** Two [Put]s of different chunks, interleaved, one of them again. *)
Definition demo_interleaved : list RaceAct :=
  [Begin "ab01" [x01; x02]; Begin "cd23" [x03]; Advance 0 0; Advance 1 0; Advance 0 0; Advance 1 0; Advance 0 1;
   Advance 1 5; Advance 0 5; Advance 1 0; Advance 0 0; Advance 1 0; Advance 0 0;
   Begin "ab01" [x01; x02]; Advance 2 0; Advance 2 0; Advance 2 1; DiskFails 2].

Lemma demo_interleaved_plain id d : Begin id d ∈ demo_interleaved → plain_id id.
Proof.
  unfold demo_interleaved. rewrite !elem_of_cons, elem_of_nil. intros Hin.
  repeat (destruct Hin as [Heq|Hin]; [first [discriminate Heq|injection Heq as -> _; split_and!; [cbn; lia|done..]]|]). done.
Qed.

Lemma unoverlapped_puts_whole_witness :
  ∃ s, race_run ["data"] demo_interleaved (MkRace empty_files [] [] ∅) = Some s ∧
    rc_done s = [("cd23", [x03]); ("ab01", [x01; x02])] ∧ rc_overlapped s = ∅ ∧
    ∀ id, plain_id id →
      (id ∉ rc_overlapped s → file_at (rc_files s) (path_of ["data"] id) = put_all (rc_done s) ∅ !! id) ∧
      (is_Some (file_at (rc_files s) (path_of ["data"] id)) ↔ is_Some (put_all (rc_done s) ∅ !! id)).
Proof.
  destruct (race_run ["data"] demo_interleaved (MkRace empty_files [] [] ∅)) as [s|] eqn:Hrun; [|vm_compute in Hrun; discriminate Hrun].
  exists s. split; [reflexivity|]. split; [vm_compute in Hrun; injection Hrun as <-; reflexivity|].
  split; [vm_compute in Hrun; injection Hrun as <-; reflexivity|].
  exact (unoverlapped_puts_whole ["data"] ∅ empty_files demo_interleaved s empty_quiet demo_interleaved_plain Hrun).
Defined.

(** Two [Put]s of one chunk with the same data: the second opens the file that the first
    has written and is about to rename, and the process ends.  The first has returned
    success, and what it stored is an empty file. *)
Definition demo_torn : list RaceAct :=
  [Begin "ab01" [x01; x02]; Begin "ab01" [x01; x02]; Advance 0 0; Advance 1 0; Advance 0 0; Advance 0 2; Advance 0 0;
   Advance 1 0; Advance 0 0; Restart].

Example confirmed_put_torn :
  (λ s, (rc_done s, file_at (rc_files s) (path_of ["data"] "ab01"))) <$>
    race_run ["data"] demo_torn (MkRace empty_files [] [] ∅) = Some ([("ab01", [x01; x02])], Some []).
Proof. by vm_compute. Qed.

(** Without the end of the process, the second [Put] fails: its file has been renamed. *)
Example overlapped_put_fails :
  (λ s, (rc_puts s !! 1, file_at (rc_files s) (path_of ["data"] "ab01"))) <$>
    race_run ["data"] (take 9 demo_torn ++ [Advance 1 2; Advance 1 0; Advance 1 0]) (MkRace empty_files [] [] ∅) =
  Some (Some (MkPutting "ab01" [x01; x02] (PutReturned (Some ENOENT))), Some [x01; x02]).
Proof. by vm_compute. Qed.
