(* ===== verification/S3.v ===== *)
(** * internal/storage: the S3 client

    [S3] and its operations, down to the request they send: the escaped URL, the headers
    of AWS Signature Version 4 and the reading of a listing.  The HTTP client with the
    service behind it is the interface [HTTPDoer]; a clock reading and the order in which
    a range statement visits a header map are inputs of every call ([CallEnv]).

    The theorems here: object keys are distinct for distinct chunks, the path of a
    request decodes to the key it was built from, and a listing is read back.  SigV4.v
    compares the signature with its specification, S3Store.v the operations with a map
    behind a service that keeps S3's contract. *)
From S2P Require Import Prelude GoLib GoIO GoNet Sha Storage.
From Stdlib Require Import Strings.Ascii.

(** ** The struct *)

Record S3 := MkS3 {
  Bucket : string;
  Region : string;
  AccessKeyID : string;
  SecretAccessKey : string;
  SessionToken : string;
  Endpoint : string;
}.

Definition NewS3 (bucket region accessKeyID secretAccessKey sessionToken : string) : S3 :=
  MkS3 bucket region accessKeyID secretAccessKey sessionToken "".

Definition endpoint (s : S3) : string :=
  if decide (Endpoint s ≠ "") then Endpoint s
  else "https://" +:+ Bucket s +:+ ".s3." +:+ Region s +:+ ".amazonaws.com".

Definition objectKey (chunkID : string) : string :=
  if (String.length chunkID <? 2)%nat then "chunks/_short/" +:+ chunkID
  else "chunks/" +:+ slice_to 2 chunkID +:+ "/" +:+ chunkID.

(** What a call reads from outside: the clock, and the order of a range over a map. *)
Record CallEnv := MkCallEnv {
  env_now : UTC;
  env_range : Header → list (string * list string);
}.

(** A range statement visits the entries of the map, in any order. *)
Definition env_ok (env : CallEnv) : Prop := ∀ h, env_range env h ≡ₚ map_to_list h.

(** ** Signing *)

Definition canonicalURI (p : string) : string := if decide (p = "") then "/" else p.

Definition sha256Hex (b : bytes) : string := hex_EncodeToString (sha256_Sum256 b).
Definition hmacSHA256 (key : bytes) (d : string) : bytes := hmac_sha256 key (bytes_of d).

Definition deriveSigningKey (secret dateStamp region service : string) : bytes :=
  let kDate := hmacSHA256 (bytes_of ("AWS4" +:+ secret)) dateStamp in
  let kRegion := hmacSHA256 kDate region in
  let kService := hmacSHA256 kRegion service in
  hmacSHA256 kService "aws4_request".

(** The order [sort.Slice] sorts by; it is total on headers of different names. *)
Definition kv_le (x y : string * string) : Prop := String.le x.1 y.1.
#[export] Instance kv_le_dec : RelDecision kv_le.
Proof. unfold kv_le. intros x y. apply _. Defined.

(** The first loop, over the entries of the map in the order they are visited. *)
Definition amz_entries (headers : list (string * string)) (entries : list (string * list string)) :
    list (string * string) :=
  foldl (λ headers '(name, vals),
           let lower := ToLower name in
           if HasPrefix lower "x-amz-" then headers ++ [(lower, Join vals ",")] else headers)
    headers entries.

Definition canonicalizeHeaders (rng : Header → list (string * list string)) (req : HTTPRequest) :
    string * string :=
  let headers := amz_entries [("host", Header_Get "Host" (hr_Header req))] (rng (hr_Header req)) in
  let headers := merge_sort kv_le headers in
  let '(cb, names) :=
    foldl (λ '(cb, names) h, (cb +:+ h.1 +:+ ":" +:+ TrimSpace h.2 +:+ newline, names ++ [h.1]))
      ("", []) headers in
  (cb, Join names ";").

(** [sign] always returns a nil error; the request it updates is returned. *)
Definition sign (env : CallEnv) (s : S3) (req : HTTPRequest) (body : bytes) : result HTTPRequest :=
  let amzDate := Format_amz (env_now env) in
  let dateStamp := Format_date (env_now env) in
  let payloadHash := sha256Hex body in
  let h := Header_Set "x-amz-date" amzDate (hr_Header req) in
  let h := Header_Set "x-amz-content-sha256" payloadHash h in
  let h := if decide (SessionToken s ≠ "") then Header_Set "x-amz-security-token" (SessionToken s) h else h in
  let h := Header_Set "Host" (u_Host (hr_URL req)) h in
  let req := set_Header h req in
  let '(canonicalHeaders, signedHeaders) := canonicalizeHeaders (env_range env) req in
  let canonicalRequest :=
    Join [hr_Method req; canonicalURI (u_Path (hr_URL req)); u_RawQuery (hr_URL req);
          canonicalHeaders; signedHeaders; payloadHash] newline in
  let credentialScope := dateStamp +:+ "/" +:+ Region s +:+ "/s3/aws4_request" in
  let stringToSign :=
    Join ["AWS4-HMAC-SHA256"; amzDate; credentialScope; sha256Hex (bytes_of canonicalRequest)] newline in
  let signingKey := deriveSigningKey (SecretAccessKey s) dateStamp (Region s) "s3" in
  let signature := hex_EncodeToString (hmacSHA256 signingKey stringToSign) in
  let authHeader :=
    "AWS4-HMAC-SHA256 Credential=" +:+ AccessKeyID s +:+ "/" +:+ credentialScope +:+
    ", SignedHeaders=" +:+ signedHeaders +:+ ", Signature=" +:+ signature in
  Ok (set_Header (Header_Set "Authorization" authHeader (hr_Header req)) req).

Definition newRequest (env : CallEnv) (s : S3) (method key : string) (body : bytes) :
    result HTTPRequest :=
  let u := endpoint s +:+ "/" in
  let u := if decide (key ≠ "") then ReplaceAll (u +:+ PathEscape key) "%2F" "/" else u in
  result_bind (http_NewRequest method u body) (λ req, sign env s req body).

(** ** Listings *)

(** The loop of [parseListKeys]; every iteration shortens the text, so a fuel above its
    length is enough. *)
Fixpoint parseListKeys_loop (fuel : nat) (s : string) (keys : list string) : list string :=
  match fuel with
  | O => keys
  | S fuel =>
      match Index s "<Key>" with
      | None => keys
      | Some i =>
          let s := slice_from (i + 5) s in
          match Index s "</Key>" with
          | None => keys
          | Some j =>
              let full := slice_to j s in
              let keys :=
                match Split_char "/" full with
                | [_; _; id] => keys ++ [id]
                | _ => keys ++ [full]
                end in
              parseListKeys_loop fuel (slice_from (j + 6) s) keys
          end
      end
  end.

Definition parseListKeys (xmlBody : bytes) : list string :=
  let s := string_of xmlBody in parseListKeys_loop (S (String.length s)) s [].

(** ** The operations *)

(** [http.Client.Do]: an error, or the status and the body of the answer. *)
Class HTTPDoer (W : Type) := { http_Do : HTTPRequest → W → result (Z * Reader) * W }.

(** The text of a body that is read for an error message, as far as it can be read. *)
Definition body_text (b : Reader) : string := string_of (ReadAll_loop (S (rd_measure b)) [] b).1.

Definition is_2xx (status : Z) : bool := (Z.quot status 100 =? 2)%Z.

Section operations.
Context {W : Type} `{HTTPDoer W}.

Definition S3_Put (env : CallEnv) (chunkID : string) (d : bytes) (s : S3) (w : W) : option error * W :=
  match newRequest env s "PUT" (objectKey chunkID) d with
  | Err err => (Some err, w)
  | Ok req =>
      let '(resp, w) := http_Do req w in
      match resp with
      | Err err => (Some (fmt_Errorf_w ("storage: s3 put " +:+ chunkID) err), w)
      | Ok (status, body) =>
          if negb (is_2xx status)
          then (Some (fmt_Errorf ("storage: s3 put " +:+ chunkID +:+ ": status " +:+ Itoa status +:+ ": " +:+
                                  body_text body)), w)
          else (None, w)
      end
  end.

Definition S3_Get (env : CallEnv) (chunkID : string) (s : S3) (w : W) : result bytes * W :=
  match newRequest env s "GET" (objectKey chunkID) [] with
  | Err err => (Err err, w)
  | Ok req =>
      let '(resp, w) := http_Do req w in
      match resp with
      | Err err => (Err (fmt_Errorf_w ("storage: s3 get " +:+ chunkID) err), w)
      | Ok (status, body) =>
          if (status =? 404)%Z then (Err ErrNotFound, w)
          else if negb (is_2xx status)
          then (Err (fmt_Errorf ("storage: s3 get " +:+ chunkID +:+ ": status " +:+ Itoa status +:+ ": " +:+
                                 body_text body)), w)
          else (ReadAll body, w)
      end
  end.

Definition S3_Has (env : CallEnv) (chunkID : string) (s : S3) (w : W) : bool * W :=
  match newRequest env s "HEAD" (objectKey chunkID) [] with
  | Err _ => (false, w)
  | Ok req =>
      let '(resp, w) := http_Do req w in
      match resp with
      | Err _ => (false, w)
      | Ok (status, _) => (is_2xx status, w)
      end
  end.

Definition S3_Delete (env : CallEnv) (chunkID : string) (s : S3) (w : W) : option error * W :=
  match newRequest env s "DELETE" (objectKey chunkID) [] with
  | Err err => (Some err, w)
  | Ok req =>
      let '(resp, w) := http_Do req w in
      match resp with
      | Err err => (Some (fmt_Errorf_w ("storage: s3 delete " +:+ chunkID) err), w)
      | Ok (status, body) =>
          if negb (is_2xx status) && negb (status =? 404)%Z
          then (Some (fmt_Errorf ("storage: s3 delete " +:+ chunkID +:+ ": status " +:+ Itoa status +:+ ": " +:+
                                  body_text body)), w)
          else (None, w)
      end
  end.

(** The request is signed when it is made and again, in [env'], with its query. *)
Definition S3_List (env env' : CallEnv) (s : S3) (w : W) : result (list string) * W :=
  match newRequest env s "GET" "" [] with
  | Err err => (Err err, w)
  | Ok req =>
      let q := URL_Query (hr_URL req) in
      let q := Values_Set "list-type" "2" q in
      let q := Values_Set "prefix" "chunks/" q in
      let req := set_RawQuery (Values_Encode q) req in
      match sign env' s req [] with
      | Err err => (Err err, w)
      | Ok req =>
          let '(resp, w) := http_Do req w in
          match resp with
          | Err err => (Err (fmt_Errorf_w "storage: s3 list" err), w)
          | Ok (status, body) =>
              if negb (is_2xx status)
              then (Err (fmt_Errorf ("storage: s3 list: status " +:+ Itoa status +:+ ": " +:+ body_text body)), w)
              else match ReadAll body with
                   | Err err => (Err err, w)
                   | Ok body => (Ok (parseListKeys body), w)
                   end
          end
      end
  end.
End operations.

(** ** Object keys *)

Lemma objectKey_long id : 2 ≤ String.length id → objectKey id = "chunks/" +:+ slice_to 2 id +:+ "/" +:+ id.
Proof. intros Hid. unfold objectKey. by rewrite (proj2 (Nat.ltb_ge _ _)) by lia. Qed.

Lemma objectKey_short id : String.length id < 2 → objectKey id = "chunks/_short/" +:+ id.
Proof. intros Hid. unfold objectKey. by rewrite (proj2 (Nat.ltb_lt _ _)) by lia. Qed.

(** Distinct chunks have distinct keys: the shard and the short directory do not meet. *)
#[export] Instance objectKey_inj : Inj (=) (=) objectKey.
Proof.
  intros x y. destruct (decide (String.length x < 2)) as [Hx|Hx], (decide (String.length y < 2)) as [Hy|Hy].
  - rewrite !objectKey_short by done. apply (inj _).
  - rewrite objectKey_short, objectKey_long by (done || lia). destruct y as [|a [|b y]]; cbn in Hy; [lia..|].
    intros Heq. cbn in Heq. simplify_eq.
  - rewrite objectKey_long, objectKey_short by (done || lia). destruct x as [|a [|b x]]; cbn in Hx; [lia..|].
    intros Heq. cbn in Heq. simplify_eq.
  - rewrite !objectKey_long by lia. destruct x as [|a [|b x]], y as [|c [|d y]]; cbn in Hx, Hy; try lia.
    intros Heq. cbn in Heq. by simplify_eq.
Qed.

Lemma objectKey_nonempty id : objectKey id ≠ "".
Proof. unfold objectKey. by destruct (_ <? _). Qed.

(** The chunk ID [parseListKeys] makes of a key. *)
Definition bare (key : string) : string :=
  match Split_char "/" key with [_; _; id] => id | _ => key end.

Lemma bare_objectKey id : has_char "/" id = false → bare (objectKey id) = id.
Proof.
  intros Hid. unfold bare. destruct (decide (String.length id < 2)) as [Hlen|Hlen].
  - rewrite objectKey_short by done.
    change ("chunks/_short/" +:+ id) with ("chunks" +:+ String "/" ("_short" +:+ String "/" id)).
    rewrite !Split_char_first by done. by rewrite Split_char_none.
  - rewrite objectKey_long by lia.
    change ("chunks/" +:+ ?x +:+ "/" +:+ id) with ("chunks" +:+ String "/" (x +:+ String "/" id)).
    rewrite !Split_char_first by (done || by apply has_char_slice_to). by rewrite Split_char_none.
Qed.

(** ** Requests *)

(** An endpoint that is a scheme and a host with an optional port. *)
Definition plain_endpoint (s : S3) (host : string) : Prop :=
  plain_host host ∧ ∃ scheme, (scheme = "http" ∨ scheme = "https") ∧ endpoint s = scheme +:+ "://" +:+ host.

(** The endpoint of a bucket and a region in the syntax of such names. *)
Lemma default_endpoint_plain s :
  Endpoint s = "" → str_forallb unreserved (Bucket s) = true → str_forallb unreserved (Region s) = true →
  plain_endpoint s (Bucket s +:+ ".s3." +:+ Region s +:+ ".amazonaws.com").
Proof.
  intros He Hb Hr. split.
  - apply unreserved_plain_host. by rewrite !str_forallb_append, Hb, Hr.
  - exists "https". split; [by right|]. unfold endpoint. by rewrite decide_False by naive_solver.
Qed.

(** The bytes of an escaped object key: those of a path segment, and slashes. *)
Definition key_char (c : ascii) : bool := segment_char c || bool_decide (c = "/"%char).

Lemma escaped_key_chars key : str_forallb url_char (escape key_char key) = true.
Proof.
  apply str_forallb_escape; [|intros n Hn|done].
  - intros c. unfold key_char, segment_char, url_char. ascii_cases c; vm_compute; congruence.
  - destruct n as [|p]; [done|]. do 4 (destruct p as [p|p|]; try done; try lia).
Qed.

Lemma http_NewRequest_plain scheme host method key body :
  scheme = "http" ∨ scheme = "https" → plain_host host →
  http_NewRequest method (scheme +:+ "://" +:+ host +:+ String "/" (escape key_char key)) body =
  Ok (MkHTTPRequest method (MkURL scheme host (String "/" key) "") ∅ body).
Proof.
  intros Hscheme Hhost. unfold http_NewRequest.
  rewrite (url_Parse_plain scheme host _ (String "/" key)); [|done..|apply escaped_key_chars|].
  - cbn. by destruct Hhost as (_&_&->).
  - exact (unescape_escape key_char (String "/" key) eq_refl).
Qed.

(** The URL of the request, once the slashes are put back. *)
Lemma newRequest_url scheme host key :
  scheme = "http" ∨ scheme = "https" → plain_host host →
  ReplaceAll (((scheme +:+ "://" +:+ host) +:+ "/") +:+ PathEscape key) "%2F" "/" =
  scheme +:+ "://" +:+ host +:+ String "/" (escape key_char key).
Proof.
  intros Hscheme Hhost. rewrite ReplaceAll_prefix.
  - rewrite (ReplaceAll_escape segment_char) by done. by rewrite !append_assoc.
  - rewrite !has_char_app, (plain_host_no_char host) by done. by destruct Hscheme as [-> | ->].
Qed.

(** The request before it is signed. *)
Definition unsigned (scheme host method key : string) (body : bytes) : HTTPRequest :=
  MkHTTPRequest method (MkURL scheme host (String "/" key) "") ∅ body.

Lemma newRequest_sign s host :
  plain_endpoint s host → ∃ scheme, ∀ env method key body,
  newRequest env s method key body = sign env s (unsigned scheme host method key body) body.
Proof.
  intros [Hhost (scheme&Hscheme&He)]. exists scheme. intros env method key body.
  unfold newRequest, unsigned. rewrite He.
  assert ((if decide (key ≠ "")
           then ReplaceAll (((scheme +:+ "://" +:+ host) +:+ "/") +:+ PathEscape key) "%2F" "/"
           else (scheme +:+ "://" +:+ host) +:+ "/") =
          scheme +:+ "://" +:+ host +:+ String "/" (escape key_char key)) as ->.
  { case_decide as Hkey; [by apply newRequest_url|].
    subst key. by rewrite !append_assoc. }
  by rewrite http_NewRequest_plain.
Qed.

(** [sign] changes the headers only. *)
Lemma sign_shape env s req body :
  ∃ h, sign env s req body = Ok (set_Header h req).
Proof. unfold sign. destruct (canonicalizeHeaders _ _). by eexists. Qed.

(** Whatever the bytes of an object key, the request for it goes to the host of the
    endpoint, with no query, and its path decodes to the key: escaping the key, putting
    its slashes back and parsing the URL are a round trip. *)
Theorem newRequest_path env s host method key body :
  plain_endpoint s host →
  ∃ req, newRequest env s method key body = Ok req ∧
    u_Host (hr_URL req) = host ∧ u_Path (hr_URL req) = String "/" key ∧ u_RawQuery (hr_URL req) = "" ∧
    hr_Method req = method ∧ hr_Body req = body.
Proof.
  intros (scheme&Hreq)%newRequest_sign.
  destruct (sign_shape env s (unsigned scheme host method key body) body) as [h Hh].
  eexists. by rewrite Hreq, Hh.
Qed.

(** ** Listings *)

(** A text in which the elements <Key>k</Key> name the given keys, in order, with
    anything else around them. *)
Inductive lists_keys : list string → string → Prop :=
| lists_nil gap : Index gap "<Key>" = None → lists_keys [] gap
| lists_cons gap key keys rest :
    Index gap "<Key>" = None → lists_keys keys rest →
    lists_keys (key :: keys) (gap +:+ "<Key>" +:+ key +:+ "</Key>" +:+ rest).

Lemma parseListKeys_loop_spec ks xml fuel acc :
  lists_keys ks xml → Forall (λ k, has_char "<" k = false) ks → length ks < fuel →
  parseListKeys_loop fuel xml acc = acc ++ (bare <$> ks).
Proof.
  intros Hxml. revert fuel acc. induction Hxml as [gap Hgap|gap key ks rest Hgap Hrest IH];
    intros fuel acc Hks Hfuel; (destruct fuel as [|fuel]; [cbn in Hfuel; lia|]); cbn [parseListKeys_loop].
  - rewrite Hgap. cbn. by rewrite app_nil_r.
  - rewrite (Index_first "<" "Key>" gap) by done. rewrite slice_from_append_add.
    change (slice_from 5 ("<Key>" +:+ ?x)) with x.
    apply Forall_cons in Hks as [Hkey Hks].
    rewrite (Index_first "<" "/Key>" key) by (done || by apply Index_no_char).
    rewrite slice_to_append, slice_from_append_add. change (slice_from 6 ("</Key>" +:+ rest)) with rest.
    rewrite IH by (done || cbn in Hfuel; lia). cbn [fmap list_fmap]. unfold bare at 2.
    destruct (Split_char "/" key) as [|? [|? [|? [|]]]]; by rewrite <-(assoc_L (++)).
Qed.

Lemma lists_keys_length ks xml : lists_keys ks xml → length ks ≤ String.length xml.
Proof. induction 1; rewrite ?length_append; cbn [length String.length]; lia. Qed.

(** Enough fuel: a larger one changes nothing, so the loop ends by itself. *)
Lemma parseListKeys_loop_fuel fuel fuel' s acc :
  String.length s < fuel → String.length s < fuel' →
  parseListKeys_loop fuel s acc = parseListKeys_loop fuel' s acc.
Proof.
  assert (∀ n t, String.length (slice_from n t) ≤ String.length t - n) as Hlen.
  { intros n. induction n as [|n IH]; intros t; [cbn; lia|]. destruct t; cbn; [lia|]. apply IH. }
  assert (∀ t p i, Index t p = Some i → i + String.length p ≤ String.length t) as Hidx.
  { assert (∀ p t, HasPrefix t p = true → String.length p ≤ String.length t) as Hp.
    { induction p as [|a p IH]; intros [|b t]; cbn; [lia..|]. intros [_ Hm]%andb_true_iff. specialize (IH t Hm). lia. }
    intros t p. induction t as [|b t IH]; intros i; cbn [Index]; destruct (HasPrefix _ p) eqn:Hpre;
      try (intros [= <-]; by apply Hp).
    destruct (Index t p) as [k|]; [|done]. intros [= <-]. specialize (IH k eq_refl). cbn. lia. }
  revert fuel' s acc. induction fuel as [|fuel IH]; intros [|fuel'] s acc ??; [lia..|].
  cbn [parseListKeys_loop]. destruct (Index s "<Key>") as [i|] eqn:Hi; [|done]. apply Hidx in Hi. cbn in Hi.
  pose proof (Hlen (i + 5) s). destruct (Index (slice_from (i + 5) s) "</Key>") as [j|] eqn:Hj; [|done].
  apply Hidx in Hj. cbn in Hj. pose proof (Hlen (j + 6) (slice_from (i + 5) s)). apply IH; lia.
Qed.

Lemma parseListKeys_objectKeys_ok ids xml :
  lists_keys (objectKey <$> ids) xml → Forall (λ id, has_char "/" id = false ∧ has_char "<" id = false) ids →
  parseListKeys (bytes_of xml) = ids.
Proof.
  intros Hxml Hids. unfold parseListKeys. rewrite string_of_bytes_of.
  pose proof (lists_keys_length _ _ Hxml). rewrite (parseListKeys_loop_spec _ _ _ _ Hxml); [|clear Hxml H|lia].
  - rewrite app_nil_l. clear Hxml H. induction Hids as [|id ids [Hid _] Hids IH]; [done|]. cbn.
    by rewrite bare_objectKey, IH.
  - induction Hids as [|id ids [_ Hid] Hids IH]; constructor; [|done].
    unfold objectKey. destruct (_ <? _); by rewrite !has_char_app, ?has_char_slice_to, Hid.
Qed.

(** A listing is read back: from a text that names keys of chunks, in the element
    syntax of ListObjectsV2 and with any other elements between them, [parseListKeys]
    returns the chunk IDs, in order. *)
Theorem parseListKeys_objectKeys ids xml :
  lists_keys (objectKey <$> ids) xml → Forall (λ id, has_char "/" id = false ∧ has_char "<" id = false) ids →
  parseListKeys (bytes_of xml) = ids.
Proof. apply parseListKeys_objectKeys_ok. Qed.

(** ** A concrete account *)

Definition demo_account : S3 := NewS3 "chunks-bucket" "eu-west-1" "AKID" "secret" "token".
Definition demo_host : string := "chunks-bucket.s3.eu-west-1.amazonaws.com".
Definition demo_env : CallEnv := MkCallEnv (MkUTC 2024 2 29 23 59 7) (λ h, reverse (map_to_list h)).

Lemma demo_env_ok : env_ok demo_env.
Proof. intros h. apply reverse_Permutation. Qed.

Lemma demo_account_plain : plain_endpoint demo_account demo_host.
Proof. by apply (default_endpoint_plain demo_account). Qed.

Lemma newRequest_path_witness :
  ∃ req, newRequest demo_env demo_account "GET" "chunks/a b/100%2F?" [] = Ok req ∧
    u_Host (hr_URL req) = demo_host ∧ u_Path (hr_URL req) = "/chunks/a b/100%2F?" ∧ u_RawQuery (hr_URL req) = "" ∧
    hr_Method req = "GET" ∧ hr_Body req = [].
Proof. by apply newRequest_path, demo_account_plain. Defined.

Lemma parseListKeys_objectKeys_witness :
  lists_keys (objectKey <$> ["ab01"; "x"])
    ("<Contents><Key>chunks/ab/ab01</Key></Contents><Contents><Key>chunks/_short/x</Key></Contents>") ∧
  parseListKeys (bytes_of
    "<Contents><Key>chunks/ab/ab01</Key></Contents><Contents><Key>chunks/_short/x</Key></Contents>") = ["ab01"; "x"].
Proof.
  assert (lists_keys (objectKey <$> ["ab01"; "x"])
    ("<Contents><Key>chunks/ab/ab01</Key></Contents><Contents><Key>chunks/_short/x</Key></Contents>")) as Hxml.
  { apply (lists_cons "<Contents>" "chunks/ab/ab01" _ _ eq_refl),
      (lists_cons "</Contents><Contents>" "chunks/_short/x" _ _ eq_refl). by constructor. }
  split; [exact Hxml|]. apply (parseListKeys_objectKeys _ _ Hxml). by repeat constructor.
Defined.
