(* ===== verification/SigV4.v ===== *)
(** * AWS Signature Version 4: the specification, and the requests of the S3 client

    The first part states what the service checks, as the documentation of Signature
    Version 4 describes it: the canonical request with the URI-encoded path, the sorted
    query and the sorted headers; the string to sign; the chain of keys; and the
    Authorization header.  It is computed from the request as it is received.  The second
    part proves that every request of the client passes the check, for object keys that
    the URI encoding leaves alone (chunk IDs are hexadecimal), in every order of the
    header map; and that a key it would change is signed wrongly. *)
From S2P Require Import Prelude GoLib GoIO GoNet Sha Storage S3.
From Stdlib Require Import Strings.Ascii.

(** ** The specification *)

Definition aws_uri_char (c : ascii) : bool := unreserved c || bool_decide (c = "/"%char).
Definition aws_path (path : string) : string :=
  if decide (path = "") then "/" else escape aws_uri_char path.

(** A pair of the query, decoded and encoded again; a value may be missing. *)
Definition aws_query_pair (pair : string) : string :=
  let '(k, v) := Cut "=" pair in
  match unescape false k, unescape false v with
  | Ok k, Ok v => escape unreserved k +:+ "=" +:+ escape unreserved v
  | _, _ => pair
  end.
Definition aws_query (raw : string) : string :=
  if decide (raw = "") then "" else Join (sort_Strings (aws_query_pair <$> Split_char "&" raw)) "&".

(** The host and the x-amz headers a client of this kind sends, by name. *)
Definition aws_headers (req : HTTPRequest) : list (string * string) :=
  ("host", u_Host (hr_URL req)) ::
  omap (λ name, (λ vals, (name, Join vals ",")) <$> hr_Header req !! CanonicalHeaderKey name)
    ["x-amz-content-sha256"; "x-amz-date"; "x-amz-security-token"].

Definition aws_header_line (h : string * string) : string := h.1 +:+ ":" +:+ TrimSpace h.2 +:+ newline.
Definition aws_header_lines (hs : list (string * string)) : string :=
  foldr (λ h rest, aws_header_line h +:+ rest) "" hs.
Definition aws_signed_headers (hs : list (string * string)) : string := Join hs.*1 ";".

Definition aws_canonical_request (req : HTTPRequest) : string :=
  Join [hr_Method req; aws_path (u_Path (hr_URL req)); aws_query (u_RawQuery (hr_URL req));
        aws_header_lines (aws_headers req); aws_signed_headers (aws_headers req);
        hex_EncodeToString (sha256_Sum256 (hr_Body req))] newline.

Definition aws_scope (date region : string) : string := Join [date; region; "s3"; "aws4_request"] "/".

Definition aws_string_to_sign (stamp region : string) (req : HTTPRequest) : string :=
  Join ["AWS4-HMAC-SHA256"; stamp; aws_scope (slice_to 8 stamp) region;
        hex_EncodeToString (sha256_Sum256 (bytes_of (aws_canonical_request req)))] newline.

Definition aws_signing_key (secret : string) (chain : list string) : bytes :=
  foldl (λ key d, hmac_sha256 key (bytes_of d)) (bytes_of ("AWS4" +:+ secret)) chain.

Definition aws_signature (secret stamp region : string) (req : HTTPRequest) : string :=
  hex_EncodeToString
    (hmac_sha256 (aws_signing_key secret [slice_to 8 stamp; region; "s3"; "aws4_request"])
                 (bytes_of (aws_string_to_sign stamp region req))).

Definition aws_authorization (access secret stamp region : string) (req : HTTPRequest) : string :=
  "AWS4-HMAC-SHA256 " +:+
  Join ["Credential=" +:+ access +:+ "/" +:+ aws_scope (slice_to 8 stamp) region;
        "SignedHeaders=" +:+ aws_signed_headers (aws_headers req);
        "Signature=" +:+ aws_signature secret stamp region req] ", ".

(** The check of the service that holds the account [s]: the payload hash, the session
    token and the authorization are those of the request and the account. *)
Definition aws_accepts (s : S3) (req : HTTPRequest) : bool :=
  let h := hr_Header req in
  bool_decide (Header_Get "x-amz-content-sha256" h = hex_EncodeToString (sha256_Sum256 (hr_Body req))) &&
  bool_decide (Header_Get "x-amz-security-token" h = SessionToken s) &&
  bool_decide (Header_Get "authorization" h =
    aws_authorization (AccessKeyID s) (SecretAccessKey s) (Header_Get "x-amz-date" h) (Region s) req).

(** The example of the documentation for the chain of keys. *)
Example signing_key_doc :
  hex_EncodeToString (deriveSigningKey "wJalrXUtnFEMI/K7MDENG+bPxRfiCYEXAMPLEKEY" "20120215" "us-east-1" "iam") =
  "f4780e2d9f65fa895f9c67b32ce1baf0b0d8a43505a000a1a9e090d414db404d".
Proof. vm_compute. reflexivity. Qed.

(** ** The headers, in every order of the map *)

Definition amz_entry (e : string * list string) : option (string * string) :=
  let lower := ToLower e.1 in
  if HasPrefix lower "x-amz-" then Some (lower, Join e.2 ",") else None.

Lemma amz_entries_omap headers entries : amz_entries headers entries = headers ++ omap amz_entry entries.
Proof.
  revert headers. induction entries as [|[name vals] entries IH]; intros headers; [by rewrite app_nil_r|].
  unfold amz_entries in *. cbn [foldl omap list_omap]. rewrite IH. unfold amz_entry at 2. cbn [fst snd].
  destruct (HasPrefix _ _); [by rewrite <-(assoc_L (++))|done].
Qed.

#[local] Instance kv_le_trans : Transitive kv_le.
Proof. intros x y z Hxy Hyz. unfold kv_le in *. by etrans. Qed.

#[local] Instance kv_le_total : Total kv_le.
Proof. intros x y. apply (total String.le). Qed.

(** Sorting by name has one result when the names differ. *)
Lemma sort_headers_unique l k :
  NoDup k.*1 → StronglySorted kv_le k → l ≡ₚ k → merge_sort kv_le l = k.
Proof.
  intros Hk Hsorted Hlk.
  assert (merge_sort kv_le l ≡ₚ k) as Hl by by rewrite merge_sort_Permutation.
  refine (StronglySorted_unique_strong _ _ _ _ (StronglySorted_merge_sort _ _) Hsorted Hl).
  intros x y Hx Hy Hxy Hyx. rewrite Hl in Hx.
  apply list_elem_of_lookup in Hx as [i Hi], Hy as [j Hj].
  assert (x.1 = y.1) as Hname by by apply (anti_symm String.le).
  assert (i = j) as ->; [|congruence].
  eapply NoDup_lookup; [exact Hk|by rewrite list_lookup_fmap, Hi|by rewrite list_lookup_fmap, Hj, Hname].
Qed.

Lemma header_fold_eq hs cb names :
  foldl (λ '(cb, names) h, (cb +:+ h.1 +:+ ":" +:+ TrimSpace h.2 +:+ newline, names ++ [h.1])) (cb, names) hs =
  (cb +:+ aws_header_lines hs, names ++ hs.*1).
Proof.
  revert cb names. induction hs as [|h hs IH]; intros cb names; cbn [foldl].
  - cbn [aws_header_lines foldr fmap list_fmap]. by rewrite append_nil, app_nil_r.
  - rewrite IH. cbn [aws_header_lines foldr fmap list_fmap]. unfold aws_header_line.
    by rewrite !append_assoc, <-(assoc_L (++)).
Qed.

(** Whatever the order of the map, the code lists the headers [hs] that are its x-amz
    entries and the host, sorted. *)
Lemma canonicalizeHeaders_eq rng req hs :
  (∀ h, rng h ≡ₚ map_to_list h) →
  ("host", Header_Get "Host" (hr_Header req)) :: omap amz_entry (map_to_list (hr_Header req)) ≡ₚ hs →
  NoDup hs.*1 → StronglySorted kv_le hs →
  canonicalizeHeaders rng req = (aws_header_lines hs, aws_signed_headers hs).
Proof.
  intros Hrng Hperm Hnd Hsorted. unfold canonicalizeHeaders.
  rewrite (sort_headers_unique _ hs); [by rewrite header_fold_eq|done|done|].
  rewrite amz_entries_omap, <-Hperm. cbn [app]. f_equiv. by rewrite Hrng.
Qed.

(** ** The headers of a signed request *)

(** The headers [sign] sets, over those [h] the request has. *)
Definition amz_header (stamp hash token host : string) (h : Header) : Header :=
  let h := Header_Set "x-amz-date" stamp h in
  let h := Header_Set "x-amz-content-sha256" hash h in
  let h := if decide (token ≠ "") then Header_Set "x-amz-security-token" token h else h in
  Header_Set "Host" host h.

(** The headers that are signed, by name. *)
Definition signed_list (stamp hash token host : string) : list (string * string) :=
  [("host", host); ("x-amz-content-sha256", hash); ("x-amz-date", stamp)] ++
  (if decide (token ≠ "") then [("x-amz-security-token", token)] else []).

Lemma amz_header_set_again stamp hash token host auth stamp0 hash0 host0 :
  amz_header stamp hash token host
    (Header_Set "Authorization" auth (amz_header stamp0 hash0 token host0 ∅)) =
  amz_header stamp hash token host (Header_Set "Authorization" auth ∅).
Proof. unfold amz_header. destruct (decide (token ≠ "")); vm_compute; reflexivity. Qed.

(** The headers a request has before it is signed: none, or those of a first signature. *)
Inductive fresh_header : Header → Prop :=
| fresh_empty : fresh_header ∅
| fresh_auth auth : fresh_header (Header_Set "Authorization" auth ∅).

Lemma signed_list_perm stamp hash token host h :
  fresh_header h →
  ("host", Header_Get "Host" (amz_header stamp hash token host h)) ::
  omap amz_entry (map_to_list (amz_header stamp hash token host h)) ≡ₚ signed_list stamp hash token host.
Proof.
  intros [|auth]; unfold amz_header, signed_list; destruct (decide (token ≠ "")); vm_compute; solve_Permutation.
Qed.

Lemma signed_list_sorted stamp hash token host :
  NoDup (signed_list stamp hash token host).*1 ∧ StronglySorted kv_le (signed_list stamp hash token host).
Proof.
  unfold signed_list.
  destruct (decide (token ≠ "")); (split; [apply (bool_decide_eq_true_1 _); vm_compute; reflexivity|]);
    repeat constructor.
Qed.

Lemma signed_header_gets stamp hash token host h auth :
  fresh_header h →
  let f := Header_Set "Authorization" auth (amz_header stamp hash token host h) in
  Header_Get "x-amz-content-sha256" f = hash ∧ Header_Get "x-amz-security-token" f = token ∧
  Header_Get "authorization" f = auth ∧ Header_Get "x-amz-date" f = stamp.
Proof.
  intros [|auth0] f; unfold f, amz_header; destruct (decide (token ≠ "")) as [|Ht];
    [|apply dec_stable in Ht as ->| |apply dec_stable in Ht as ->]; vm_compute; split_and!; reflexivity.
Qed.

Lemma signed_headers_aws stamp hash token host h auth method scheme path query body :
  fresh_header h →
  aws_headers (MkHTTPRequest method (MkURL scheme host path query)
                 (Header_Set "Authorization" auth (amz_header stamp hash token host h)) body) =
  signed_list stamp hash token host.
Proof.
  intros [|auth0]; unfold amz_header, signed_list; destruct (decide (token ≠ "")); vm_compute; reflexivity.
Qed.

(** ** Requests are authentic *)

Lemma canonicalURI_plain path :
  path ≠ "" → str_forallb aws_uri_char path = true → canonicalURI path = aws_path path.
Proof.
  intros Hne Hpath. unfold canonicalURI, aws_path. rewrite !decide_False by done.
  by rewrite escape_id.
Qed.

#[local] Opaque sha256_Sum256 hmac_sha256 hex_EncodeToString.

Lemma aws_scope_eq date region : aws_scope date region = date +:+ "/" +:+ region +:+ "/s3/aws4_request".
Proof. reflexivity. Qed.

Lemma aws_signing_key_eq secret date region :
  aws_signing_key secret [date; region; "s3"; "aws4_request"] = deriveSigningKey secret date region "s3".
Proof. unfold aws_signing_key, deriveSigningKey, hmacSHA256. cbn [foldl]. reflexivity. Qed.

Lemma aws_authorization_eq access secret stamp region req :
  aws_authorization access secret stamp region req =
  "AWS4-HMAC-SHA256 Credential=" +:+ access +:+ "/" +:+ aws_scope (slice_to 8 stamp) region +:+
  ", SignedHeaders=" +:+ aws_signed_headers (aws_headers req) +:+
  ", Signature=" +:+ aws_signature secret stamp region req.
Proof.
  unfold aws_authorization. generalize (aws_signature secret stamp region req), (aws_signed_headers (aws_headers req)),
    (aws_scope (slice_to 8 stamp) region). intros sg hs scope. cbn [Join]. by rewrite !append_assoc.
Qed.

Lemma sign_accepted env s scheme host method path query h h0 body :
  env_ok env → fresh_header h0 →
  (∀ stamp hash, amz_header stamp hash (SessionToken s) host h = amz_header stamp hash (SessionToken s) host h0) →
  path ≠ "" → str_forallb aws_uri_char path = true → aws_query query = query →
  ∃ auth,
    let req := MkHTTPRequest method (MkURL scheme host path query)
      (Header_Set "Authorization" auth
        (amz_header (Format_amz (env_now env)) (sha256Hex body) (SessionToken s) host h0)) body in
    sign env s (MkHTTPRequest method (MkURL scheme host path query) h body) body = Ok req ∧
    aws_accepts s req = true.
Proof.
  intros Henv Hfresh Hh Hne Hpath Hquery. unfold sign. cbn [hr_Header hr_URL hr_Method u_Host u_Path u_RawQuery set_Header].
  change (Header_Set "Host" host (if decide (SessionToken s ≠ "") then _ else _))
    with (amz_header (Format_amz (env_now env)) (sha256Hex body) (SessionToken s) host h).
  rewrite Hh. set (stamp := Format_amz (env_now env)). set (hash := sha256Hex body).
  destruct (signed_list_sorted stamp hash (SessionToken s) host) as [Hnd Hsorted].
  rewrite (canonicalizeHeaders_eq _ _ (signed_list stamp hash (SessionToken s) host));
    [|done|by apply signed_list_perm|done|done].
  eexists. split; [reflexivity|]. unfold aws_accepts. cbn [hr_Header hr_Body].
  match goal with |- context [Header_Set "Authorization" ?a _] => set (auth := a) end.
  destruct (signed_header_gets stamp hash (SessionToken s) host h0 auth Hfresh) as (->&->&->&->).
  rewrite !bool_decide_eq_true_2; [done| |done|done]. unfold auth.
  rewrite aws_authorization_eq. unfold aws_signature, aws_string_to_sign, aws_canonical_request.
  cbn [hr_Method hr_URL u_Path u_RawQuery hr_Body].
  rewrite signed_headers_aws by done. rewrite Hquery, <-canonicalURI_plain by done.
  unfold stamp. by rewrite Format_amz_date, aws_scope_eq, aws_signing_key_eq.
Qed.

(** The request for an object, and the check it passes. *)
Lemma newRequest_accepted env s host method key body :
  env_ok env → plain_endpoint s host → str_forallb aws_uri_char key = true →
  ∃ scheme h, let req := MkHTTPRequest method (MkURL scheme host (String "/" key) "") h body in
    newRequest env s method key body = Ok req ∧ aws_accepts s req = true.
Proof.
  intros Henv (scheme&Hreq)%newRequest_sign Hkey. exists scheme. rewrite Hreq. unfold unsigned.
  destruct (sign_accepted env s scheme host method (String "/" key) "" ∅ ∅ body) as (auth&Hsign&Hacc);
    [done|constructor|done..|].
  by eexists.
Qed.

(** The query of a listing, as [Encode] prints it and as the specification wants it. *)
Definition list_query : string := "list-type=2&prefix=chunks%2F".

Lemma list_query_encode u :
  u_RawQuery u = "" →
  Values_Encode (Values_Set "prefix" "chunks/" (Values_Set "list-type" "2" (URL_Query u))) = list_query.
Proof. intros Hu. unfold URL_Query. rewrite Hu. vm_compute. reflexivity. Qed.

Lemma aws_list_query : aws_query list_query = list_query.
Proof. vm_compute. reflexivity. Qed.

(** The request of a listing is signed twice; the second signature is the one that counts. *)
Lemma S3_List_request {W} `{HTTPDoer W} env env' s host :
  env_ok env → env_ok env' → plain_endpoint s host →
  ∃ scheme h, let req := MkHTTPRequest "GET" (MkURL scheme host "/" list_query) h [] in
    aws_accepts s req = true ∧
    ∀ w, S3_List env env' s w =
      let '(resp, w) := http_Do req w in
      match resp with
      | Err err => (Err (fmt_Errorf_w "storage: s3 list" err), w)
      | Ok (status, body) =>
          if negb (is_2xx status)
          then (Err (fmt_Errorf ("storage: s3 list: status " +:+ Itoa status +:+ ": " +:+ body_text body)), w)
          else match ReadAll body with
               | Err err => (Err err, w)
               | Ok body => (Ok (parseListKeys body), w)
               end
      end.
Proof.
  intros Henv Henv' (scheme&Hreq)%newRequest_sign. exists scheme.
  destruct (sign_accepted env s scheme host "GET" "/" "" ∅ ∅ []) as (auth&Hsign&_);
    [done|constructor|done..|].
  set (h1 := Header_Set "Authorization" auth _) in Hsign.
  destruct (sign_accepted env' s scheme host "GET" "/" list_query h1 (Header_Set "Authorization" auth ∅) [])
    as (auth'&Hsign'&Hacc); [done|constructor| |done|done|exact aws_list_query|].
  { intros stamp hash. unfold h1. apply amz_header_set_again. }
  eexists. split; [exact Hacc|]. intros w. unfold S3_List. rewrite Hreq. unfold unsigned. rewrite Hsign.
  cbv zeta. rewrite list_query_encode by done. unfold set_RawQuery. cbn [hr_Method hr_URL hr_Header hr_Body u_Scheme u_Host u_Path].
  by rewrite Hsign'.
Qed.

(** ** Theorems *)

(** [C27] Every request the client makes for an object is authentic: the service that
    holds the account computes the same signature from the request it receives, in
    whatever order the header map was visited and whatever the clock said. *)
Theorem newRequest_authentic env s host method key body :
  env_ok env → plain_endpoint s host → str_forallb aws_uri_char key = true →
  ∃ req, newRequest env s method key body = Ok req ∧ aws_accepts s req = true.
Proof.
  intros Henv Hs Hkey. destruct (newRequest_accepted env s host method key body) as (scheme&h&Hreq&Hacc); [done..|].
  by eexists.
Qed.

(** ** At a concrete account *)

Lemma newRequest_authentic_witness :
  ∃ req, newRequest demo_env demo_account "PUT" (objectKey "ab01") [x01; x02] = Ok req ∧
         aws_accepts demo_account req = true.
Proof. by apply (newRequest_authentic _ _ demo_host); [apply demo_env_ok|apply demo_account_plain|]. Defined.

(** The signature covers the decoded path: a key the URI encoding changes is signed
    wrongly, so the service refuses the request. *)
Example encoded_key_refused :
  match newRequest demo_env demo_account "GET" (objectKey "a b") [] with
  | Ok req => aws_accepts demo_account req = false
  | Err _ => False
  end.
Proof. vm_compute. reflexivity. Qed.
