(* ===== verification/S3Store.v ===== *)
(** * The S3 client against a service: a map from chunk IDs to data, as far as a listing goes

    [S3Service] is what the documentation of S3 says of authentic requests to a bucket:
    PUT, GET, HEAD and DELETE on an object, and ListObjectsV2, which names at most 1000
    keys, in order.  Against such a service the operations of the client are those of a
    map ([S3_refines_map]); a listing of more chunks than a page holds is cut off without
    an error ([S3_List_first_page]).  [FakeS3] is a service that checks signatures. *)
From S2P Require Import Prelude GoLib GoIO GoNet Sha Storage S3 SigV4.
From Stdlib Require Import Strings.Ascii.

(** A request for an object of the bucket, signed for the account. *)
Record object_request (s : S3) (host method key : string) (req : HTTPRequest) : Prop := {
  or_method : hr_Method req = method;
  or_host : u_Host (hr_URL req) = host;
  or_path : u_Path (hr_URL req) = String "/" key;
  or_query : u_RawQuery (hr_URL req) = "";
  or_signed : aws_accepts s req = true;
}.

Record list_request (s : S3) (host : string) (req : HTTPRequest) : Prop := {
  lr_method : hr_Method req = "GET";
  lr_host : u_Host (hr_URL req) = host;
  lr_path : u_Path (hr_URL req) = "/";
  lr_query : u_RawQuery (hr_URL req) = list_query;
  lr_signed : aws_accepts s req = true;
}.

Definition max_keys : nat := 1000.

(** The keys a listing names: those with the prefix, sorted, one page of them. *)
Definition listed_keys (objects : gmap string bytes) : list string :=
  take max_keys (sort_Strings (filter (λ k, HasPrefix k "chunks/" = true) (map_to_list objects).*1)).

Class S3Service (W : Type) `{HTTPDoer W} (s : S3) (host : string) := {
  s3_up : W → Prop;
  s3_objects : W → gmap string bytes;
  s3_put req key w :
    s3_up w → object_request s host "PUT" key req → key ≠ "" →
    ∃ body w', http_Do req w = (Ok (200%Z, body), w') ∧ s3_objects w' = <[key := hr_Body req]> (s3_objects w);
  s3_get req key w :
    s3_up w → object_request s host "GET" key req → key ≠ "" →
    ∃ status body w', http_Do req w = (Ok (status, body), w') ∧ s3_objects w' = s3_objects w ∧
      match s3_objects w !! key with
      | Some d => status = 200%Z ∧ ReadAll body = Ok d
      | None => status = 404%Z
      end;
  s3_head req key w :
    s3_up w → object_request s host "HEAD" key req → key ≠ "" →
    ∃ body w', http_Do req w =
        (Ok (if bool_decide (is_Some (s3_objects w !! key)) then 200%Z else 404%Z, body), w') ∧
      s3_objects w' = s3_objects w;
  s3_delete req key w :
    s3_up w → object_request s host "DELETE" key req → key ≠ "" →
    ∃ body w', http_Do req w = (Ok (204%Z, body), w') ∧ s3_objects w' = delete key (s3_objects w);
  s3_list req w :
    s3_up w → list_request s host req →
    Forall (λ k, str_forallb aws_uri_char k = true) (listed_keys (s3_objects w)) →
    ∃ body xml w', http_Do req w = (Ok (200%Z, body), w') ∧ s3_objects w' = s3_objects w ∧
      ReadAll body = Ok (bytes_of xml) ∧ lists_keys (listed_keys (s3_objects w)) xml;
}.

(** IDs whose key the URI encoding leaves alone; chunk IDs are hexadecimal. *)
Definition plain_chunk (id : string) : Prop := str_forallb unreserved id = true.

Lemma plain_chunk_no_char id c : unreserved c = false → plain_chunk id → has_char c id = false.
Proof. apply str_forallb_has_char. Qed.

Lemma str_forallb_slice_to P n s : str_forallb P s = true → str_forallb P (slice_to n s) = true.
Proof.
  revert n. induction s as [|c s IH]; intros [|n]; [done..|]. cbn [slice_to]. rewrite !str_forallb_cons.
  intros [-> Hs]%andb_true_iff. by apply IH.
Qed.

Lemma objectKey_plain id : plain_chunk id → str_forallb aws_uri_char (objectKey id) = true.
Proof.
  intros Hid. assert (∀ t, str_forallb unreserved t = true → str_forallb aws_uri_char t = true) as Hw.
  { intros t. apply str_forallb_impl. intros c. unfold aws_uri_char. by intros ->. }
  unfold objectKey. destruct (_ <? _); rewrite !str_forallb_append, (Hw id Hid); [done|].
  by rewrite (Hw (slice_to 2 id)) by by apply str_forallb_slice_to.
Qed.

Lemma objectKey_prefix id : HasPrefix (objectKey id) "chunks/" = true.
Proof. unfold objectKey. by destruct (_ <? _). Qed.

(** ** One operation *)

Section operations.
Context {W : Type} `{HTTPDoer W} (s : S3) (host : string) `{!S3Service W s host}.
Context (Hplain : plain_endpoint s host).

(** The bucket holds the chunks of [m], and nothing else. *)
Definition s3_repr (w : W) (m : gmap string bytes) : Prop :=
  s3_up w ∧ s3_objects w = kmap objectKey m.

Lemma chunk_request env method id d :
  env_ok env → plain_chunk id →
  ∃ req, newRequest env s method (objectKey id) d = Ok req ∧ hr_Body req = d ∧
    object_request s host method (objectKey id) req.
Proof.
  intros Henv Hid.
  destruct (newRequest_accepted env s host method (objectKey id) d) as (scheme&h&Hreq&Hacc);
    [done|done|by apply objectKey_plain|].
  eexists. split; [exact Hreq|]. by repeat split.
Qed.

Lemma S3_Put_map env id d w m :
  env_ok env → plain_chunk id → s3_repr w m →
  ∃ w', S3_Put env id d s w = (None, w') ∧ s3_objects w' = kmap objectKey (<[id := d]> m).
Proof.
  intros Henv Hid [Hup Hobj]. destruct (chunk_request env "PUT" id d) as (req&Hreq&Hd&Hor); [done..|].
  destruct (s3_put req _ w Hup Hor (objectKey_nonempty id)) as (body&w'&Hdo&Hw').
  exists w'. unfold S3_Put. rewrite Hreq, Hdo, Hw', Hobj, Hd. by rewrite kmap_insert by apply _.
Qed.

Lemma S3_Get_map env id w m :
  env_ok env → plain_chunk id → s3_repr w m →
  ∃ w', S3_Get env id s w = (match m !! id with Some d => Ok d | None => Err ErrNotFound end, w') ∧
        s3_objects w' = s3_objects w.
Proof.
  intros Henv Hid [Hup Hobj]. destruct (chunk_request env "GET" id []) as (req&Hreq&_&Hor); [done..|].
  destruct (s3_get req _ w Hup Hor (objectKey_nonempty id)) as (status&body&w'&Hdo&Hw'&Hans).
  exists w'. split; [|done]. unfold S3_Get. rewrite Hreq, Hdo.
  rewrite Hobj, lookup_kmap in Hans by apply _. destruct (m !! id); [destruct Hans as [-> ->]|subst]; done.
Qed.

Lemma S3_Has_map env id w m :
  env_ok env → plain_chunk id → s3_repr w m →
  ∃ w', S3_Has env id s w = (bool_decide (is_Some (m !! id)), w') ∧ s3_objects w' = s3_objects w.
Proof.
  intros Henv Hid [Hup Hobj]. destruct (chunk_request env "HEAD" id []) as (req&Hreq&_&Hor); [done..|].
  destruct (s3_head req _ w Hup Hor (objectKey_nonempty id)) as (body&w'&Hdo&Hw').
  exists w'. split; [|done]. unfold S3_Has. rewrite Hreq, Hdo, Hobj, lookup_kmap by apply _.
  by destruct (m !! id).
Qed.

Lemma S3_Delete_map env id w m :
  env_ok env → plain_chunk id → s3_repr w m →
  ∃ w', S3_Delete env id s w = (None, w') ∧ s3_objects w' = kmap objectKey (delete id m).
Proof.
  intros Henv Hid [Hup Hobj]. destruct (chunk_request env "DELETE" id []) as (req&Hreq&_&Hor); [done..|].
  destruct (s3_delete req _ w Hup Hor (objectKey_nonempty id)) as (body&w'&Hdo&Hw').
  exists w'. unfold S3_Delete. rewrite Hreq, Hdo, Hw', Hobj. by rewrite kmap_delete by apply _.
Qed.

(** All keys of such a bucket carry the prefix. *)
Lemma listed_keys_kmap (m : gmap string bytes) :
  listed_keys (kmap objectKey m) = take max_keys (sort_Strings (objectKey <$> (map_to_list m).*1)).
Proof.
  unfold listed_keys. f_equal. apply sort_Strings_unique.
  assert ((map_to_list (kmap objectKey m : gmap string bytes)).*1 ≡ₚ objectKey <$> (map_to_list m).*1) as Hkeys.
  { rewrite map_to_list_kmap by apply _. rewrite <-!list_fmap_compose. done. }
  rewrite Hkeys. rewrite filter_all; [done|]. intros k (id&->&_)%list_elem_of_fmap. apply objectKey_prefix.
Qed.

(** A page of the keys of a map is a page of chunk IDs. *)
Lemma page_ids (m : gmap string bytes) :
  ∃ ids, listed_keys (kmap objectKey m) = objectKey <$> ids ∧ ids ⊆ (map_to_list m).*1 ∧
    length ids = max_keys `min` size m ∧ (size m ≤ max_keys → ids ≡ₚ (map_to_list m).*1).
Proof.
  rewrite listed_keys_kmap.
  assert (∃ l, sort_Strings (objectKey <$> (map_to_list m).*1) = objectKey <$> l ∧ l ≡ₚ (map_to_list m).*1)
    as (l&->&Hl).
  { assert (sort_Strings (objectKey <$> (map_to_list m).*1) ≡ₚ objectKey <$> (map_to_list m).*1) as Hp
      by apply merge_sort_Permutation.
    destruct (@Permutation_map_inv _ _ objectKey _ (map_to_list m).*1 Hp) as (l&Heq&Hl). by exists l. }
  assert (length l = size m) as Hlen by (by rewrite Hl, length_fmap, length_map_to_list).
  exists (take max_keys l). rewrite fmap_take, length_take, Hlen. split_and!; [done| |done|].
  - intros id Hid. rewrite <-Hl, <-(take_drop max_keys l), elem_of_app. by left.
  - intros Hsize. by rewrite take_ge by lia.
Qed.

Lemma S3_List_map env env' w m :
  env_ok env → env_ok env' → s3_repr w m → (∀ id d, m !! id = Some d → plain_chunk id) →
  ∃ ids w', S3_List env env' s w = (Ok ids, w') ∧ s3_objects w' = s3_objects w ∧
    ids ⊆ (map_to_list m).*1 ∧ length ids = max_keys `min` size m ∧
    (size m ≤ max_keys → ids ≡ₚ (map_to_list m).*1).
Proof.
  intros Henv Henv' [Hup Hobj] Hm. destruct (page_ids m) as (ids&Hpage&Hsub&Hlen&Hall).
  assert (Forall plain_chunk ids) as Hids.
  { apply Forall_forall. intros id Hid%Hsub. apply list_elem_of_fmap in Hid as ([id' d]&->&Hid).
    apply elem_of_map_to_list in Hid. by eapply Hm. }
  destruct (S3_List_request env env' s host Henv Henv' Hplain) as (scheme&h&Hacc&Hlist). cbv zeta in *.
  set (req := MkHTTPRequest _ _ _ _) in *.
  destruct (s3_list req w Hup) as (body&xml&w'&Hdo&Hw'&Hbody&Hxml); [by split| |].
  { rewrite Hobj, Hpage. apply Forall_fmap. eapply Forall_impl; [exact Hids|]. apply objectKey_plain. }
  exists ids, w'. split; [|done]. rewrite Hlist, Hdo. cbn [is_2xx]. change (is_2xx 200) with true. cbn [negb].
  rewrite Hbody. rewrite Hobj, Hpage in Hxml. rewrite (parseListKeys_objectKeys_ok ids xml Hxml); [done|].
  eapply Forall_impl; [exact Hids|]. intros id Hid. split; by apply plain_chunk_no_char.
Qed.
End operations.

(** ** A service that checks signatures *)

(** A bucket of the account [s] behind [host]. *)
Record FakeS3 (s : S3) (host : string) := MkFakeS3 { fs_objects : gmap string bytes }.
Arguments MkFakeS3 {s host} _.
Arguments fs_objects {s host} _.

Definition plain_body (d : bytes) : Reader := MkReader [d] io_EOF true.

Fixpoint render_keys (before : string) (ks : list string) : string :=
  match ks with
  | [] => before +:+ "</ListBucketResult>"
  | k :: ks => (before +:+ "<Contents>") +:+ "<Key>" +:+ k +:+ "</Key>" +:+ render_keys "</Contents>" ks
  end.

Definition FakeS3_Do (s : S3) (host : string) (req : HTTPRequest) (w : FakeS3 s host) :
    result (Z * Reader) * FakeS3 s host :=
  let objects := fs_objects w in
  if negb (aws_accepts s req && bool_decide (u_Host (hr_URL req) = host))
  then (Ok (403%Z, plain_body (bytes_of "SignatureDoesNotMatch")), w)
  else
    let key := TrimPrefix (u_Path (hr_URL req)) "/" in
    if decide (key = "") then
      (Ok (200%Z, plain_body (bytes_of (render_keys "<ListBucketResult>" (listed_keys objects)))), w)
    else if decide (hr_Method req = "PUT") then (Ok (200%Z, plain_body []), MkFakeS3 (<[key := hr_Body req]> objects))
    else if decide (hr_Method req = "DELETE") then (Ok (204%Z, plain_body []), MkFakeS3 (delete key objects))
    else if decide (hr_Method req = "HEAD") then
      (Ok (if bool_decide (is_Some (objects !! key)) then 200%Z else 404%Z, plain_body []), w)
    else match objects !! key with
         | Some d => (Ok (200%Z, plain_body d), w)
         | None => (Ok (404%Z, plain_body (bytes_of "NoSuchKey")), w)
         end.

#[export] Instance FakeS3_HTTPDoer s host : HTTPDoer (FakeS3 s host) := {| http_Do := FakeS3_Do s host |}.

Lemma ReadAll_plain_body d : ReadAll (plain_body d) = Ok d.
Proof. rewrite ReadAll_spec. unfold plain_body, content. cbn. by rewrite app_nil_r. Qed.

Lemma render_keys_lists before ks :
  before ∈ ["<ListBucketResult>"; "</Contents>"] → lists_keys ks (render_keys before ks).
Proof.
  revert before. induction ks as [|k ks IH]; intros before Hb; cbn [render_keys]; constructor.
  - repeat (apply elem_of_cons in Hb as [->|Hb]; [done|]). by apply elem_of_nil in Hb.
  - repeat (apply elem_of_cons in Hb as [->|Hb]; [done|]). by apply elem_of_nil in Hb.
  - apply IH. right. by left.
Qed.

Lemma FakeS3_Do_object s host method key req (w : FakeS3 s host) :
  object_request s host method key req → key ≠ "" →
  FakeS3_Do s host req w =
    if decide (method = "PUT") then (Ok (200%Z, plain_body []), MkFakeS3 (<[key := hr_Body req]> (fs_objects w)))
    else if decide (method = "DELETE") then (Ok (204%Z, plain_body []), MkFakeS3 (delete key (fs_objects w)))
    else if decide (method = "HEAD") then
      (Ok (if bool_decide (is_Some (fs_objects w !! key)) then 200%Z else 404%Z, plain_body []), w)
    else match fs_objects w !! key with
         | Some d => (Ok (200%Z, plain_body d), w)
         | None => (Ok (404%Z, plain_body (bytes_of "NoSuchKey")), w)
         end.
Proof.
  intros [Hm Hh Hp _ Hacc] Hkey. unfold FakeS3_Do. rewrite Hacc, Hm, Hh, Hp, bool_decide_eq_true_2 by done.
  cbn [andb negb]. change (String "/" key) with ("/" +:+ key). by rewrite TrimPrefix_app, decide_False.
Qed.

#[export, program] Instance FakeS3_Service s host : S3Service (FakeS3 s host) s host := {|
  s3_up _ := True;
  s3_objects := fs_objects;
|}.
Next Obligation.
  intros s host req key w _ Hreq Hkey. cbn. rewrite (FakeS3_Do_object _ _ _ _ _ _ Hreq Hkey). by do 2 eexists.
Qed.
Next Obligation.
  intros s host req key w _ Hreq Hkey. cbn. rewrite (FakeS3_Do_object _ _ _ _ _ _ Hreq Hkey). cbn.
  destruct (fs_objects w !! key) as [d|]; do 3 eexists; (split; [reflexivity|]); [|done].
  by rewrite ReadAll_plain_body.
Qed.
Next Obligation.
  intros s host req key w _ Hreq Hkey. cbn. rewrite (FakeS3_Do_object _ _ _ _ _ _ Hreq Hkey). by do 2 eexists.
Qed.
Next Obligation.
  intros s host req key w _ Hreq Hkey. cbn. rewrite (FakeS3_Do_object _ _ _ _ _ _ Hreq Hkey). by do 2 eexists.
Qed.
Next Obligation.
  intros s host req w _ [Hm Hh Hp _ Hacc] _. cbn. unfold FakeS3_Do.
  rewrite Hacc, Hh, Hp, bool_decide_eq_true_2 by done. cbn.
  do 3 eexists. split; [reflexivity|]. split; [done|]. split; [apply ReadAll_plain_body|].
  apply render_keys_lists. by left.
Qed.

(** ** Theorems *)

Section theorems.
Context {W : Type} `{HTTPDoer W} (s : S3) (host : string) `{!S3Service W s host}.

(** [C26] Refinement: against a service that answers authentic requests as S3 does, the
    client is a map from chunk IDs to data.  Put, Get, Has and Delete are insertion,
    lookup, membership and deletion, a missing chunk being [ErrNotFound] and a deletion
    of one no error; List returns as many chunk IDs as a page holds, and all of them when
    the bucket has no more. *)
Theorem S3_refines_map env env' (w : W) (m : gmap string bytes) :
  env_ok env → env_ok env' → plain_endpoint s host → s3_repr s host w m →
  (∀ id d, m !! id = Some d → plain_chunk id) →
  (∀ id d, plain_chunk id →
     (∃ w', S3_Put env id d s w = (None, w') ∧ s3_objects w' = kmap objectKey (<[id := d]> m)) ∧
     (∃ w', S3_Get env id s w = (match m !! id with Some d => Ok d | None => Err ErrNotFound end, w') ∧
            s3_objects w' = s3_objects w) ∧
     (∃ w', S3_Has env id s w = (bool_decide (is_Some (m !! id)), w') ∧ s3_objects w' = s3_objects w) ∧
     (∃ w', S3_Delete env id s w = (None, w') ∧ s3_objects w' = kmap objectKey (delete id m))) ∧
  ∃ ids w', S3_List env env' s w = (Ok ids, w') ∧ s3_objects w' = s3_objects w ∧
    ids ⊆ (map_to_list m).*1 ∧ length ids = max_keys `min` size m ∧
    (size m ≤ max_keys → ids ≡ₚ (map_to_list m).*1).
Proof.
  intros Henv Henv' Hs Hw Hm. split.
  - intros id d Hid. split_and!; [by apply S3_Put_map|by apply S3_Get_map|by apply S3_Has_map|by apply S3_Delete_map].
  - by apply S3_List_map.
Qed.

(** A listing reads one page: of a bucket with more chunks than a page names, List
    returns as many IDs as a page has and leaves the others out, without an error. *)
Theorem S3_List_first_page env env' (w : W) (m : gmap string bytes) :
  env_ok env → env_ok env' → plain_endpoint s host → s3_repr s host w m →
  (∀ id d, m !! id = Some d → plain_chunk id) → max_keys < size m →
  ∃ ids w' id d, S3_List env env' s w = (Ok ids, w') ∧ length ids = max_keys ∧
    m !! id = Some d ∧ (id ∉ ids).
Proof.
  intros Henv Henv' Hs Hw Hm Hsize.
  destruct (S3_List_map s host Hs env env' w m) as (ids&w'&Hlist&_&Hsub&Hlen&_); [done..|].
  rewrite Nat.min_l in Hlen by lia. exists ids, w'.
  destruct (decide (Forall (λ id, id ∈ ids) (map_to_list m).*1)) as [Hall|Hnot].
  - exfalso. rewrite Forall_forall in Hall.
    assert ((map_to_list m).*1 ⊆+ ids) as Hsm by by apply NoDup_submseteq; [apply NoDup_fst_map_to_list|].
    apply submseteq_length in Hsm. rewrite length_fmap, length_map_to_list in Hsm. lia.
  - apply not_Forall_Exists in Hnot; [|apply _]. apply Exists_exists in Hnot as (id&Hid&Hni).
    apply list_elem_of_fmap in Hid as ([id' d]&->&Hid). apply elem_of_map_to_list in Hid.
    by exists id', d.
Qed.
End theorems.

(** ** Witnesses *)

Definition demo_bucket : FakeS3 demo_account demo_host := MkFakeS3 (kmap objectKey {["ab01" := [x01; x02]]}).

Lemma S3_refines_map_witness :
  ∃ w', S3_Get demo_env "ab01" demo_account demo_bucket = (Ok [x01; x02], w') ∧ fs_objects w' = fs_objects demo_bucket.
Proof.
  destruct (S3_refines_map demo_account demo_host demo_env demo_env demo_bucket {["ab01" := [x01; x02]]})
    as [Hops _]; [apply demo_env_ok|apply demo_env_ok|apply demo_account_plain|by split| |].
  - by intros id d [<- <-]%lookup_singleton_Some.
  - destruct (Hops "ab01" [] eq_refl) as (_&Hget&_). rewrite lookup_singleton in Hget. exact Hget.
Defined.

Definition many_chunks : gmap string bytes :=
  list_to_map ((λ i, (zero_padded 4 (N.of_nat i), [])) <$> seq 0 1001).

Lemma S3_List_first_page_witness :
  ∃ ids w' id d, S3_List demo_env demo_env demo_account (MkFakeS3 (kmap objectKey many_chunks) : FakeS3 demo_account demo_host)
      = (Ok ids, w') ∧ length ids = max_keys ∧ many_chunks !! id = Some d ∧ (id ∉ ids).
Proof.
  apply (S3_List_first_page demo_account demo_host);
    [apply demo_env_ok|apply demo_env_ok|apply demo_account_plain|by split| |].
  - intros id d Hid. apply elem_of_list_to_map_2 in Hid. apply list_elem_of_fmap in Hid as (i&Heq&_).
    apply (f_equal fst) in Heq. cbn [fst] in Heq. unfold plain_chunk. rewrite Heq. apply zero_padded_unreserved.
  - apply (bool_decide_unpack _). vm_compute. exact I.
Defined.
