(* ===== verification/Membership.v ===== *)
(** * internal/cluster: membership and failure detection

    [Membership] is the struct of membership.go, the registered callbacks being values
    of a type [Fn].  An operation that holds the lock is a function of the state; the
    clock readings and the outcomes of health requests, which the operations get from
    the outside, are arguments; the goroutines a ping starts are the [Call]s it emits.
    [mstep] and [mrun] put the operations in the order in which they take the lock.

    The theorems: the table is a failure detector, the state of a peer being a function
    [verdict] of when it was last heard and last found silent; callbacks fire once per
    transition, deaths and recoveries alternating; the order of the concurrent pings of
    a round does not matter; [AlivePeers], which filters a slice in place, is a filter. *)
From S2P Require Import Prelude GoLib.

(** ** State *)

Inductive State := StateAlive | StateSuspect | StateDead.

#[export] Instance State_eq_dec : EqDecision State.
Proof. solve_decision. Defined.

Definition State_String (s : State) : string :=
  match s with
  | StateAlive => "alive"
  | StateSuspect => "suspect"
  | StateDead => "dead"
  end.

Record Peer := MkPeer {
  p_ID : string;
  p_Addr : string;
  p_State : State;
  p_LastHeartbeat : Z;
}.

#[export] Instance Peer_eq_dec : EqDecision Peer.
Proof. solve_decision. Defined.

Section membership.
Context {Fn : Type}.

Record Membership := MkMembership {
  self : Peer;
  peers : gmap string Peer;
  suspectAfter : Z;
  deadAfter : Z;
  onDead : list Fn;
  onAlive : list Fn;
}.

(** A goroutine [go fn(id)] started by a transition. *)
Inductive Call :=
| CallDead (fn : Fn) (id : string)
| CallAlive (fn : Fn) (id : string).

Definition call_id (c : Call) : string :=
  match c with CallDead _ id | CallAlive _ id => id end.

(** ** Operations *)

Definition cluster_New (selfID selfAddr : string) (now : Z) : Membership := {|
  self := MkPeer selfID selfAddr StateAlive now;
  peers := ∅;
  suspectAfter := 3 * Second;
  deadAfter := 9 * Second;
  onDead := [];
  onAlive := [];
|}.

Definition set_peers (ps : gmap string Peer) (m : Membership) : Membership :=
  MkMembership (self m) ps (suspectAfter m) (deadAfter m) (onDead m) (onAlive m).

Definition AddPeer (id addr : string) (now : Z) (m : Membership) : Membership :=
  if decide (id = p_ID (self m)) then m
  else match peers m !! id with
       | Some _ => m
       | None => set_peers (<[id := MkPeer id addr StateAlive now]> (peers m)) m
       end.

Definition OnNodeDead (fn : Fn) (m : Membership) : Membership :=
  MkMembership (self m) (peers m) (suspectAfter m) (deadAfter m) (onDead m ++ [fn]) (onAlive m).

Definition OnNodeAlive (fn : Fn) (m : Membership) : Membership :=
  MkMembership (self m) (peers m) (suspectAfter m) (deadAfter m) (onDead m) (onAlive m ++ [fn]).

(** The order of a range over a map is left open by Go; this is one. *)
Definition Peers (m : Membership) : list Peer := (map_to_list (peers m)).*2.

(** The loop of [AlivePeers]: [arr] is the array [all] and [out] share, [i] the index
    of the range, [j] the length of [out]; an append writes [arr] at [j]. *)
Fixpoint AlivePeers_loop (n i j : nat) (arr : list Peer) : list Peer :=
  match n with
  | O => take j arr
  | S n =>
      match arr !! i with
      | None => take j arr
      | Some p =>
          if decide (p_State p = StateAlive)
          then AlivePeers_loop n (i + 1) (j + 1) (<[j := p]> arr)
          else AlivePeers_loop n (i + 1) j arr
      end
  end.

Definition AlivePeers (m : Membership) : list Peer :=
  let all := Peers m in AlivePeers_loop (length all) 0 0 all.

(** The request a ping of [id] makes before it takes the lock. *)
Definition ping_url (id : string) (m : Membership) : option string :=
  match peers m !! id with
  | None => None
  | Some peer => Some ("http://" +:+ p_Addr peer +:+ "/healthz")
  end.

(** [healthy]: no error, and status 200. *)
Definition is_healthy (resp : result Z) : bool :=
  match resp with Ok status => (status =? 200)%Z | Err _ => false end.

(** The peer after a ping that was answered, or not, at time [now]. *)
Definition ping_peer_state (m : Membership) (healthy : bool) (now : Z) (p : Peer) : Peer :=
  if healthy then MkPeer (p_ID p) (p_Addr p) StateAlive now
  else
    let since := time_Sub now (p_LastHeartbeat p) in
    if (deadAfter m <=? since)%Z then MkPeer (p_ID p) (p_Addr p) StateDead (p_LastHeartbeat p)
    else if (suspectAfter m <=? since)%Z
         then MkPeer (p_ID p) (p_Addr p) StateSuspect (p_LastHeartbeat p)
         else p.

Definition pingPeer (id : string) (healthy : bool) (now : Z) (m : Membership) :
    list Call * Membership :=
  match peers m !! id with
  | None => ([], m)
  | Some p =>
      let prevState := p_State p in
      let p := ping_peer_state m healthy now p in
      let dead :=
        if decide (prevState ≠ StateDead ∧ p_State p = StateDead)
        then (λ fn, CallDead fn id) <$> onDead m else [] in
      let alive :=
        if decide (prevState = StateDead ∧ p_State p = StateAlive)
        then (λ fn, CallAlive fn id) <$> onAlive m else [] in
      (dead ++ alive, set_peers (<[id := p]> (peers m)) m)
  end.

Definition MarkAliveManually (id : string) (now : Z) (m : Membership) : Membership :=
  match peers m !! id with
  | Some p => set_peers (<[id := MkPeer (p_ID p) (p_Addr p) StateAlive now]> (peers m)) m
  | None => m
  end.

(** ** Runs *)

(** One operation, at the time it reads the clock. *)
Inductive MEvent :=
| EvAddPeer (id addr : string) (now : Z)
| EvPing (id : string) (healthy : bool) (now : Z)
| EvMark (id : string) (now : Z).

Definition ev_time (e : MEvent) : Z :=
  match e with EvAddPeer _ _ now | EvPing _ _ now | EvMark _ now => now end.

Definition mstep (e : MEvent) (m : Membership) : list Call * Membership :=
  match e with
  | EvAddPeer id addr now => ([], AddPeer id addr now m)
  | EvPing id healthy now => pingPeer id healthy now m
  | EvMark id now => ([], MarkAliveManually id now m)
  end.

Definition mrun (evs : list MEvent) (m : Membership) : list Call * Membership :=
  foldl (λ '(cs, m) e, let '(c, m) := mstep e m in (cs ++ c, m)) ([], m) evs.

(** [heartbeatRound]: one ping per peer of the table, their locked parts in the order
    of [pings]. *)
Definition heartbeatRound (pings : list (string * bool * Z)) (m : Membership) :
    list Call * Membership :=
  mrun ((λ '(id, healthy, now), EvPing id healthy now) <$> pings) m.

(** A list of pings that a round may make. *)
Definition round_of (m : Membership) (pings : list (string * bool * Z)) : Prop :=
  pings.*1.*1 ≡ₚ (map_to_list (peers m)).*1.

(** The goroutine of [Start]: a round per tick until the stop channel is closed. *)
Inductive loop_event :=
| Tick (pings : list (string * bool * Z))
| StopCh.

Fixpoint Start_loop (evs : list loop_event) (m : Membership) : list Call * Membership :=
  match evs with
  | [] => ([], m)
  | StopCh :: _ => ([], m)
  | Tick pings :: evs =>
      let '(cs, m) := heartbeatRound pings m in
      let '(cs', m) := Start_loop evs m in (cs ++ cs', m)
  end.

(** ** The detector a run implements *)

(** When [id] was last heard and, since then, last found silent. *)
Definition history_step (id : string) (h : option (Z * option Z)) (e : MEvent) :
    option (Z * option Z) :=
  match e, h with
  | EvAddPeer i _ now, None => if decide (i = id) then Some (now, None) else None
  | EvAddPeer _ _ _, Some _ => h
  | EvPing i true now, Some _ | EvMark i now, Some _ =>
      if decide (i = id) then Some (now, None) else h
  | EvPing i false now, Some (heard, _) =>
      if decide (i = id) then Some (heard, Some now) else h
  | _, None => None
  end.

Definition history (id : string) (evs : list MEvent) : option (Z * option Z) :=
  foldl (history_step id) None evs.

(** Silent for nine seconds is dead, for three suspect. *)
Definition verdict (heard : Z) (silent : option Z) : State :=
  match silent with
  | None => StateAlive
  | Some t =>
      if (9 * Second <=? time_Sub t heard)%Z then StateDead
      else if (3 * Second <=? time_Sub t heard)%Z then StateSuspect
      else StateAlive
  end.

Definition clock_ok (evs : list MEvent) : Prop := StronglySorted Z.le (ev_time <$> evs).

(** The calls of one death, one recovery, one death and so on, [n] in all. *)
Fixpoint alternating (f g : Fn) (id : string) (n : nat) : list Call :=
  match n with
  | O => []
  | S n => alternating f g id n ++ [if Nat.even n then CallDead f id else CallAlive g id]
  end.

(** A peer dies, is heard again, or is marked alive by hand while dead. *)
Inductive Turn :=
| Died
| CameBack
| Marked.

(** What the callbacks are told of it: nothing of a mark. *)
Definition announce (f g : Fn) (id : string) (t : Turn) : list Call :=
  match t with Died => [CallDead f id] | CameBack => [CallAlive g id] | Marked => [] end.

(** Deaths at the even places, returns at the odd ones. *)
Definition in_turn (ts : list Turn) : Prop := ∀ k t, ts !! k = Some t → t = Died ↔ Nat.even k = true.

Definition calls_for (id : string) (cs : list Call) : list Call :=
  filter (λ c, call_id c = id) cs.

(** The table as the node sets it up: one callback of each kind, no peer yet. *)
Definition wired (f g : Fn) (selfID selfAddr : string) (now : Z) : Membership :=
  OnNodeAlive g (OnNodeDead f (cluster_New selfID selfAddr now)).

(** The events that mark a peer alive by hand, and those that hear from it. *)
Definition is_mark (id : string) (e : MEvent) : Prop :=
  match e with EvMark i _ => i = id | _ => False end.
Definition hears (id : string) (e : MEvent) : Prop :=
  match e with EvMark i _ | EvPing i true _ => i = id | _ => False end.

(** ** Lemmas: one step *)

Lemma mrun_nil m : mrun [] m = ([], m).
Proof. done. Qed.

Lemma mrun_snoc evs e m :
  mrun (evs ++ [e]) m =
  ((mrun evs m).1 ++ (mstep e (mrun evs m).2).1, (mstep e (mrun evs m).2).2).
Proof.
  unfold mrun. rewrite foldl_app. cbn [foldl]. destruct (foldl _ _ evs) as [cs m'].
  cbn [fst snd]. by destruct (mstep e m').
Qed.

Lemma mrun_cons e evs m :
  mrun (e :: evs) m =
  ((mstep e m).1 ++ (mrun evs (mstep e m).2).1, (mrun evs (mstep e m).2).2).
Proof.
  induction evs as [|x evs IH] using rev_ind.
  - rewrite <-(app_nil_l [e]), mrun_snoc. cbn [fst snd mrun foldl app]. by rewrite app_nil_r.
  - rewrite app_comm_cons, !mrun_snoc, IH. cbn [fst snd]. by rewrite (assoc_L (++)).
Qed.

(** What no operation of a run changes. *)
Definition same_config (m m' : Membership) : Prop :=
  self m' = self m ∧ suspectAfter m' = suspectAfter m ∧ deadAfter m' = deadAfter m ∧
  onDead m' = onDead m ∧ onAlive m' = onAlive m.

Lemma mstep_config e m : same_config m (mstep e m).2.
Proof.
  unfold same_config.
  destruct e; cbn [mstep snd]; unfold AddPeer, pingPeer, MarkAliveManually; by repeat case_match.
Qed.

Lemma mrun_config evs m : same_config m (mrun evs m).2.
Proof.
  induction evs as [|e evs IH] using rev_ind; [done|]. rewrite mrun_snoc. cbn [snd].
  pose proof (mstep_config e (mrun evs m).2). unfold same_config in *. naive_solver congruence.
Qed.

(** What a step does to one peer. *)
Definition peer_step (m : Membership) (id : string) (e : MEvent) (o : option Peer) : option Peer :=
  match e, o with
  | EvAddPeer i addr now, None => if decide (i = id) then Some (MkPeer id addr StateAlive now) else None
  | EvPing i healthy now, Some p =>
      Some (if decide (i = id) then ping_peer_state m healthy now p else p)
  | EvMark i now, Some p =>
      Some (if decide (i = id) then MkPeer (p_ID p) (p_Addr p) StateAlive now else p)
  | _, _ => o
  end.

Lemma mstep_peer e m id :
  id ≠ p_ID (self m) → peers (mstep e m).2 !! id = peer_step m id e (peers m !! id).
Proof.
  intros Hid. destruct e as [i addr now|i healthy now|i now]; cbn [mstep snd peer_step].
  - unfold AddPeer. destruct (decide (i = id)) as [->|Hne].
    + rewrite decide_False by done. destruct (peers m !! id) eqn:Hm; [done|].
      cbn [peers set_peers]. by rewrite lookup_insert_eq.
    + assert (∀ o, match o with Some p => Some p | None => None end = o :> option Peer) as Ho by by intros [].
      repeat case_match; cbn [peers set_peers]; rewrite ?lookup_insert_ne by done; congruence.
  - unfold pingPeer. destruct (decide (i = id)) as [->|Hne].
    + destruct (peers m !! id) eqn:Hm; [|exact Hm]. cbn [snd peers set_peers].
      by rewrite lookup_insert_eq.
    + destruct (peers m !! i); cbn [snd peers set_peers]; rewrite ?lookup_insert_ne by done;
        by destruct (peers m !! id).
  - unfold MarkAliveManually. destruct (decide (i = id)) as [->|Hne].
    + destruct (peers m !! id) eqn:Hm; [|exact Hm]. cbn [peers set_peers].
      by rewrite lookup_insert_eq.
    + destruct (peers m !! i); cbn [peers set_peers]; rewrite ?lookup_insert_ne by done;
        by destruct (peers m !! id).
Qed.

(** The calls a step makes about a peer. *)
Lemma mstep_calls f g e m id :
  onDead m = [f] → onAlive m = [g] →
  calls_for id (mstep e m).1 =
  match e, peers m !! id with
  | EvPing i healthy now, Some p =>
      if decide (i = id) then
        let s := p_State (ping_peer_state m healthy now p) in
        if decide (p_State p ≠ StateDead ∧ s = StateDead) then [CallDead f id]
        else if decide (p_State p = StateDead ∧ s = StateAlive) then [CallAlive g id] else []
      else []
  | _, _ => []
  end.
Proof.
  intros Hf Hg. destruct e as [i addr now|i healthy now|i now]; cbn [mstep fst]; [done| |done].
  unfold pingPeer. destruct (decide (i = id)) as [->|Hne].
  - destruct (peers m !! id) as [p|]; [|done]. cbn [fst]. rewrite Hf, Hg. unfold calls_for.
    cbn [fmap list_fmap]. set (s := p_State (ping_peer_state m healthy now p)).
    destruct (decide (p_State p ≠ StateDead ∧ s = StateDead)) as [[? Hs]|].
    + rewrite (decide_False (P := p_State p = StateDead ∧ _)) by naive_solver.
      cbn [app]. by rewrite filter_cons_True.
    + destruct (decide (p_State p = StateDead ∧ s = StateAlive)); [|done].
      cbn [app]. by rewrite filter_cons_True.
  - assert (calls_for id (match peers m !! i with Some _ => (pingPeer i healthy now m).1 | None => [] end) = [])
      as Hnone.
    { unfold calls_for, pingPeer. destruct (peers m !! i) as [p|]; [|done]. apply filter_none.
      cbn [fst]. rewrite Hf, Hg. cbn [fmap list_fmap]. intros c Hc Hid.
      repeat case_decide; set_solver. }
    unfold pingPeer in Hnone. destruct (peers m !! i); cbn [fst] in *;
      destruct (peers m !! id); rewrite ?(decide_False _ _ Hne); done.
Qed.

(** ** Lemmas: runs *)

Lemma history_snoc id evs e : history id (evs ++ [e]) = history_step id (history id evs) e.
Proof. unfold history. by rewrite foldl_app. Qed.

Lemma clock_ok_snoc evs e :
  clock_ok (evs ++ [e]) → clock_ok evs ∧ ∀ e', e' ∈ evs → (ev_time e' ≤ ev_time e)%Z.
Proof.
  unfold clock_ok. rewrite fmap_app. intros (He&Hevs&_)%StronglySorted_app. split; [done|].
  intros e' He'. apply He; [by apply list_elem_of_fmap_2|by left].
Qed.

(** The silence a history records is one of its events. *)
Lemma history_silent id evs heard t :
  history id evs = Some (heard, Some t) → ∃ e, e ∈ evs ∧ ev_time e = t.
Proof.
  revert heard t. induction evs as [|e evs IH] using rev_ind; intros heard t; [done|].
  rewrite history_snoc. destruct (history id evs) as [[h o]|] eqn:Hh.
  - assert (Some (h, o) = Some (heard, Some t) → ∃ e', e' ∈ evs ++ [e] ∧ ev_time e' = t) as Hold.
    { intros [= -> ->]. destruct (IH _ _ eq_refl) as (e'&?&?). exists e'. set_solver. }
    destruct e as [i a now|i [|] now|i now]; cbn [history_step]; try case_decide; try done.
    intros [= <- <-]. eexists. split; [apply elem_of_app; right; by left|done].
  - destruct e as [i a now|i [|] now|i now]; cbn [history_step]; try case_decide; done.
Qed.

(** A peer no event hears: the history keeps when it was last heard. *)
Lemma history_unheard id evs evs' heard silent :
  history id evs = Some (heard, silent) → (∀ e, e ∈ evs' → ¬ hears id e) →
  ∃ silent', history id (evs ++ evs') = Some (heard, silent').
Proof.
  intros Hh. induction evs' as [|e evs' IH] using rev_ind; intros Hun.
  { rewrite app_nil_r. eauto. }
  destruct IH as (silent'&IH); [set_solver|].
  rewrite (assoc_L (++)), history_snoc, IH. specialize (Hun e ltac:(set_solver)).
  destruct e as [i a now|i [|] now|i now]; cbn [history_step hears] in *; rewrite ?decide_False by done; eauto.
  case_decide; eauto.
Qed.

(** No event heard the peer later than the history says. *)
Lemma history_hears id evs heard silent e :
  clock_ok evs → history id evs = Some (heard, silent) → e ∈ evs → hears id e → (ev_time e ≤ heard)%Z.
Proof.
  revert heard silent. induction evs as [|x evs IH] using rev_ind; intros heard silent Hclock.
  { set_solver. }
  apply clock_ok_snoc in Hclock as [Hclock Hlate]. rewrite history_snoc.
  intros Hh He Hhears. apply elem_of_app in He as [He|He].
  - pose proof (Hlate e He) as Hle. destruct (history id evs) as [[h o]|] eqn:Ho.
    + specialize (IH h o Hclock eq_refl He Hhears).
      destruct x as [i a now|i [|] now|i now]; cbn [history_step ev_time] in *;
        repeat case_decide; naive_solver lia.
    + destruct x as [i a now|i [|] now|i now]; cbn [history_step ev_time] in *;
        repeat case_decide; naive_solver lia.
  - apply list_elem_of_singleton in He as ->.
    destruct (history id evs) as [[h o]|]; destruct x as [i a now|i [|] now|i now];
      cbn [history_step hears ev_time] in *; repeat case_decide; naive_solver lia.
Qed.
Section detector.
Context (m0 : Membership) (id : string).
Context (Hid : id ≠ p_ID (self m0)) (Hfresh : peers m0 = ∅).
Context (Hsuspect : suspectAfter m0 = (3 * Second)%Z) (Hdead : deadAfter m0 = (9 * Second)%Z).

Lemma verdict_later heard o t :
  (∀ t', o = Some t' → (t' ≤ t)%Z) →
  (time_Sub t heard < 3 * Second)%Z → verdict heard o = StateAlive.
Proof.
  intros Ho Hlt. destruct o as [t'|]; [|done].
  pose proof (time_Sub_mono t' t heard (Ho t' eq_refl)). unfold verdict.
  destruct (Z.leb_spec (9 * Second) (time_Sub t' heard)); [unfold Second in *; lia|].
  destruct (Z.leb_spec (3 * Second) (time_Sub t' heard)); [lia|done].
Qed.

(** A run that starts from an empty table computes the verdict of its history. *)
Lemma detector_inv evs :
  clock_ok evs →
  (λ p, (p_State p, p_LastHeartbeat p)) <$> peers (mrun evs m0).2 !! id =
  (λ '(heard, silent), (verdict heard silent, heard)) <$> history id evs.
Proof.
  induction evs as [|e evs IH] using rev_ind; intros Hclock.
  { rewrite mrun_nil. cbn [snd]. by rewrite Hfresh, lookup_empty. }
  apply clock_ok_snoc in Hclock as [Hclock Hlate]. specialize (IH Hclock).
  pose proof (mrun_config evs m0) as (Hself&Hs&Hd&_&_).
  rewrite mrun_snoc, history_snoc. cbn [snd].
  rewrite mstep_peer by by rewrite Hself.
  set (m := (mrun evs m0).2) in *.
  destruct (history id evs) as [[heard o]|] eqn:Hh, (peers m !! id) as [p|] eqn:Hp; try done.
  - cbn in IH. injection IH as IHs IHh.
    assert (∀ t', o = Some t' → (t' ≤ ev_time e)%Z) as Ho.
    { intros t' ->. destruct (history_silent _ _ _ _ Hh) as (e'&He'&<-). by apply Hlate. }
    destruct e as [i a now|i [|] now|i now]; cbn [history_step peer_step] in *; try case_decide;
      cbn; rewrite ?IHs, ?IHh; try done.
    unfold ping_peer_state. rewrite Hs, Hd, Hsuspect, Hdead, ?IHh.
    cbn [verdict]. repeat case_match; cbn [p_State p_LastHeartbeat]; rewrite ?IHh; try done.
    bool_prop. rewrite IHs. rewrite (verdict_later heard o now); [done|done|lia].
  - destruct e as [i a now|i [|] now|i now]; cbn [history_step peer_step] in *; try case_decide; done.
Qed.

(** Once dead, a peer no one hears stays dead. *)
Lemma verdict_dead_later heard t t' :
  (t ≤ t')%Z → verdict heard (Some t) = StateDead → verdict heard (Some t') = StateDead.
Proof.
  intros Ht. pose proof (time_Sub_mono t t' heard Ht). unfold verdict.
  repeat case_match; bool_prop; done || lia.
Qed.

Lemma ping_dead_stays evs now p :
  clock_ok (evs ++ [EvPing id false now]) →
  peers (mrun evs m0).2 !! id = Some p → p_State p = StateDead →
  p_State (ping_peer_state (mrun evs m0).2 false now p) = StateDead.
Proof.
  intros [Hclock Hlate]%clock_ok_snoc Hp Hs.
  pose proof (detector_inv evs Hclock) as Hinv. rewrite Hp in Hinv.
  destruct (history id evs) as [[heard [t|]]|] eqn:Hh; cbn in Hinv;
    [|congruence|done].
  injection Hinv as Hv Hl. destruct (history_silent _ _ _ _ Hh) as (e&He&<-).
  pose proof (mrun_config evs m0) as (_&_&Hd&_&_).
  unfold ping_peer_state. rewrite Hd, Hdead, Hl.
  rewrite Hs in Hv. symmetry in Hv.
  apply (verdict_dead_later heard _ now) in Hv; [|by apply (Hlate e)]. unfold verdict in Hv.
  repeat case_match; done.
Qed.

(** Whether a peer is held dead. *)
Definition held_dead (m : Membership) : bool :=
  match peers m !! id with Some p => bool_decide (p_State p = StateDead) | None => false end.

(** What an event does to the peer, in or out of death, and a run of them. *)
Definition turn (e : MEvent) (m : Membership) : list Turn :=
  match held_dead m, held_dead (mstep e m).2 with
  | false, true => [Died]
  | true, false => [match e with EvMark _ _ => Marked | _ => CameBack end]
  | _, _ => []
  end.

Fixpoint turns (evs : list MEvent) (m : Membership) : list Turn :=
  match evs with
  | [] => []
  | e :: evs => turn e m ++ turns evs (mstep e m).2
  end.

(** The calls of a step about the peer are those of the change it makes, if any. *)
Lemma step_calls f g evs e :
  onDead m0 = [f] → onAlive m0 = [g] → clock_ok (evs ++ [e]) → ¬ is_mark id e →
  calls_for id (mstep e (mrun evs m0).2).1 =
  match held_dead (mrun evs m0).2, held_dead (mrun (evs ++ [e]) m0).2 with
  | false, true => [CallDead f id]
  | true, false => [CallAlive g id]
  | _, _ => []
  end.
Proof.
  intros Hf Hg Hclock Hmark. pose proof (mrun_config evs m0) as (Hself&_&_&HonD&HonA).
  rewrite (mstep_calls f g) by congruence. rewrite mrun_snoc. cbn [snd]. unfold held_dead.
  rewrite mstep_peer by congruence.
  destruct (peers (mrun evs m0).2 !! id) as [p|] eqn:Hp.
  2: { destruct e; cbn [peer_step]; try case_decide; done. }
  destruct e as [i a now|i healthy now|i now]; cbn [peer_step is_mark] in *;
    [by case_bool_decide| |rewrite decide_False by done; by case_bool_decide].
  destruct (decide (i = id)) as [->|Hi]; [|by case_bool_decide].
  pose proof (ping_dead_stays evs now p) as Hstays.
  set (m := (mrun evs m0).2) in *.
  destruct healthy.
  - cbn [ping_peer_state p_State]. rewrite (bool_decide_eq_false_2 (StateAlive = StateDead)) by done.
    rewrite decide_False by naive_solver.
    destruct (decide (p_State p = StateDead)) as [Hpd|Hpd].
    + by rewrite bool_decide_eq_true_2, decide_True.
    + by rewrite bool_decide_eq_false_2, decide_False by naive_solver.
  - set (s := p_State (ping_peer_state m false now p)) in *.
    destruct (decide (p_State p = StateDead)) as [Hpd|Hpd].
    + rewrite (Hstays Hclock Hp Hpd) in *. rewrite !bool_decide_eq_true_2 by done.
      by rewrite !decide_False by naive_solver.
    + rewrite (bool_decide_eq_false_2 _ Hpd), (decide_False (P := p_State p = StateDead ∧ _)) by naive_solver.
      destruct (decide (s = StateDead)) as [Hs|Hs].
      * by rewrite bool_decide_eq_true_2, decide_True.
      * by rewrite bool_decide_eq_false_2, decide_False by naive_solver.
Qed.

Lemma turns_snoc evs e m : turns (evs ++ [e]) m = turns evs m ++ turn e (mrun evs m).2.
Proof.
  revert m. induction evs as [|x evs IH]; intros m; cbn [turns app]; [by rewrite app_nil_r|].
  by rewrite IH, mrun_cons, (assoc_L (++)).
Qed.

(** A mark kills nobody. *)
Lemma mark_kills_not i now m : held_dead m = false → held_dead (MarkAliveManually i now m) = false.
Proof.
  unfold held_dead, MarkAliveManually. intros Hm. destruct (peers m !! i) as [p|] eqn:Hp; [|done]. cbn [set_peers peers].
  destruct (decide (i = id)) as [->|Hne]; [by rewrite lookup_insert_eq|by rewrite lookup_insert_ne].
Qed.

Lemma turn_calls f g evs e :
  onDead m0 = [f] → onAlive m0 = [g] → clock_ok (evs ++ [e]) →
  calls_for id (mstep e (mrun evs m0).2).1 = concat (announce f g id <$> turn e (mrun evs m0).2).
Proof.
  intros Hf Hg Hclock. unfold turn. destruct e as [i a now|i healthy now|i now].
  3: { cbn [mstep fst snd]. destruct (held_dead (mrun evs m0).2) eqn:Hm; [by case_match|]. by rewrite mark_kills_not. }
  all: rewrite (step_calls f g) by (done || by intros []); rewrite mrun_snoc; cbn [snd]; by repeat case_match.
Qed.

Lemma turns_inv f g evs :
  onDead m0 = [f] → onAlive m0 = [g] → clock_ok evs →
  calls_for id (mrun evs m0).1 = concat (announce f g id <$> turns evs m0) ∧ in_turn (turns evs m0) ∧
  Nat.odd (length (turns evs m0)) = held_dead (mrun evs m0).2.
Proof.
  intros Hf Hg. induction evs as [|e evs IH] using rev_ind; intros Hclock.
  { unfold held_dead. rewrite mrun_nil. cbn [snd]. rewrite Hfresh, lookup_empty. by split_and!. }
  pose proof Hclock as [Hclock' _]%clock_ok_snoc. destruct (IH Hclock') as (Hcalls&Halt&Hodd).
  pose proof (turn_calls f g evs e Hf Hg Hclock) as Hturn. rewrite turns_snoc, fmap_app, concat_app, <-Hturn, <-Hcalls.
  rewrite mrun_snoc. cbn [fst snd]. split; [unfold calls_for; by rewrite filter_app|].
  unfold turn. rewrite <-Hodd. set (n := length _) in *.
  assert (∀ t, (t = Died ↔ Nat.odd n = false) → in_turn (turns evs m0 ++ [t])) as Hsnoc.
  { intros t Ht k x [Hk|[Hk Hx]]%lookup_app_Some; [by apply Halt|].
    apply list_lookup_singleton_Some in Hx as [Hx <-]. replace k with n by lia. by rewrite Ht, <-Nat.negb_odd, negb_true_iff. }
  destruct (Nat.odd n) eqn:Hn, (held_dead (mstep e _).2) eqn:Hh; rewrite ?app_nil_r; try done;
    rewrite length_app; cbn [length]; rewrite Nat.add_1_r, Nat.odd_succ, <-Nat.negb_odd; fold n; rewrite Hn;
    (split; [apply Hsnoc|done]); [by destruct e|done].
Qed.

Lemma alternating_inv f g evs :
  onDead m0 = [f] → onAlive m0 = [g] → clock_ok evs → (∀ e, e ∈ evs → ¬ is_mark id e) →
  ∃ n, calls_for id (mrun evs m0).1 = alternating f g id n ∧ Nat.odd n = held_dead (mrun evs m0).2.
Proof.
  intros Hf Hg. induction evs as [|e evs IH] using rev_ind; intros Hclock Hmark.
  { exists 0. unfold held_dead. rewrite mrun_nil. cbn [snd]. by rewrite Hfresh, lookup_empty. }
  pose proof Hclock as [Hclock' _]%clock_ok_snoc.
  destruct (IH Hclock') as (n&Hn&Hodd); [set_solver|].
  pose proof (step_calls f g evs e Hf Hg Hclock) as Hstep.
  assert (calls_for id (mrun (evs ++ [e]) m0).1 =
    alternating f g id n ++ calls_for id (mstep e (mrun evs m0).2).1) as ->.
  { rewrite <-Hn, mrun_snoc. cbn [fst]. unfold calls_for. by rewrite filter_app. }
  rewrite Hstep by set_solver.
  rewrite <-Hodd. destruct (Nat.odd n) eqn:Ho, (held_dead (mrun (evs ++ [e]) m0).2).
  - exists n. by rewrite app_nil_r.
  - exists (S n). by rewrite Nat.odd_succ, <-Nat.negb_odd, Ho; cbn [alternating]; rewrite <-Nat.negb_odd, Ho.
  - exists (S n). by rewrite Nat.odd_succ, <-Nat.negb_odd, Ho; cbn [alternating]; rewrite <-Nat.negb_odd, Ho.
  - exists n. by rewrite app_nil_r.
Qed.

(** Death lasts while no one hears the peer. *)
Lemma unheard_dead_stays evs e :
  clock_ok (evs ++ [e]) → ¬ hears id e →
  held_dead (mrun evs m0).2 = true → held_dead (mrun (evs ++ [e]) m0).2 = true.
Proof.
  intros Hclock Hun. pose proof (mrun_config evs m0) as (Hself&_).
  unfold held_dead. rewrite mrun_snoc. cbn [snd]. rewrite mstep_peer by congruence.
  destruct (peers (mrun evs m0).2 !! id) as [p|] eqn:Hp; [|done].
  intros Hpd%bool_decide_eq_true.
  destruct e as [i a now|i [|] now|i now]; cbn [peer_step hears] in *;
    rewrite ?decide_False by done; try by rewrite bool_decide_eq_true_2.
  destruct (decide (i = id)) as [->|Hi]; rewrite bool_decide_eq_true_2; try done.
  by apply (ping_dead_stays evs now p).
Qed.

(** While it is not heard a peer is announced dead once, when it dies. *)
Lemma unheard_calls f g evs evs' :
  onDead m0 = [f] → onAlive m0 = [g] → clock_ok (evs ++ evs') →
  (∀ e, e ∈ evs' → ¬ hears id e) → held_dead (mrun evs m0).2 = false →
  calls_for id (mrun (evs ++ evs') m0).1 =
  calls_for id (mrun evs m0).1 ++
    (if held_dead (mrun (evs ++ evs') m0).2 then [CallDead f id] else []).
Proof.
  intros Hf Hg. induction evs' as [|e evs' IH] using rev_ind; intros Hclock Hun Halive.
  { by rewrite app_nil_r, Halive, app_nil_r. }
  rewrite (assoc_L (++)) in *. pose proof Hclock as [Hclock' _]%clock_ok_snoc.
  specialize (IH Hclock' ltac:(set_solver) Halive).
  assert (¬ hears id e) as He by set_solver.
  pose proof (step_calls f g (evs ++ evs') e Hf Hg Hclock) as Hstep.
  pose proof (unheard_dead_stays (evs ++ evs') e Hclock He) as Hstays.
  assert (calls_for id (mrun ((evs ++ evs') ++ [e]) m0).1 =
    calls_for id (mrun (evs ++ evs') m0).1 ++ calls_for id (mstep e (mrun (evs ++ evs') m0).2).1) as ->.
  { rewrite mrun_snoc. cbn [fst]. unfold calls_for. by rewrite filter_app. }
  rewrite IH, Hstep by (destruct e; cbn in *; tauto).
  destruct (held_dead (mrun (evs ++ evs') m0).2); [by rewrite (Hstays eq_refl), app_nil_r|].
  by rewrite app_nil_r; destruct (held_dead _); rewrite ?app_nil_r.
Qed.

(** The peer is held dead exactly when that is the verdict. *)
Lemma held_dead_verdict evs heard silent :
  clock_ok evs → history id evs = Some (heard, silent) →
  held_dead (mrun evs m0).2 = bool_decide (verdict heard silent = StateDead).
Proof.
  intros Hclock Hh. pose proof (detector_inv evs Hclock) as Hinv. rewrite Hh in Hinv.
  unfold held_dead. destruct (peers (mrun evs m0).2 !! id) as [p|]; [|done].
  cbn in Hinv. by injection Hinv as -> _.
Qed.

End detector.

(** ** Lemmas: the pings of a round *)

(** Pings of two peers commute. *)
Lemma pingPeer_comm i h t i' h' t' m :
  i ≠ i' →
  (pingPeer i' h' t' (pingPeer i h t m).2).1 = (pingPeer i' h' t' m).1 ∧
  (pingPeer i' h' t' (pingPeer i h t m).2).2 = (pingPeer i h t (pingPeer i' h' t' m).2).2.
Proof.
  intros Hne. unfold pingPeer.
  destruct (peers m !! i) as [p|] eqn:Hi, (peers m !! i') as [p'|] eqn:Hi';
    cbn [fst snd peers set_peers]; rewrite ?lookup_insert_ne, ?Hi, ?Hi' by done;
    cbn [fst snd]; rewrite ?lookup_insert_ne, ?Hi, ?Hi' by done; try done.
  split; [done|]. unfold set_peers. cbn. f_equal. by apply insert_insert_ne.
Qed.

Lemma heartbeatRound_cons i h t pings m :
  heartbeatRound ((i, h, t) :: pings) m =
  ((pingPeer i h t m).1 ++ (heartbeatRound pings (pingPeer i h t m).2).1,
   (heartbeatRound pings (pingPeer i h t m).2).2).
Proof. unfold heartbeatRound. cbn [fmap list_fmap]. by rewrite mrun_cons. Qed.

(** ** Lemmas: the table and its snapshots *)

(** The peers of a table are filed under their IDs, and it does not hold its own node. *)
Definition table_ok (m : Membership) : Prop :=
  peers m !! p_ID (self m) = None ∧ ∀ id p, peers m !! id = Some p → p_ID p = id.

Lemma table_ok_insert m id p p' :
  table_ok m → peers m !! id = Some p → p_ID p' = p_ID p →
  table_ok (set_peers (<[id := p']> (peers m)) m).
Proof.
  intros [Hself Hids] Hp Heq. split; cbn [peers set_peers self].
  - rewrite lookup_insert_ne; [done|]. congruence.
  - intros id' q. rewrite lookup_insert_Some. intros [[<- <-]|[_ Hq]]; [|auto].
    rewrite Heq. auto.
Qed.

Lemma ping_peer_ID m healthy now p : p_ID (ping_peer_state m healthy now p) = p_ID p.
Proof. unfold ping_peer_state. by repeat case_match. Qed.

Lemma mstep_table_ok e m : table_ok m → table_ok (mstep e m).2.
Proof.
  intros Hm. destruct e as [id addr now|id healthy now|id now]; cbn [mstep snd].
  - unfold AddPeer. case_decide as Hne; [done|]. destruct (peers m !! id) eqn:Hp; [done|].
    destruct Hm as [Hself Hids]. split; cbn [peers set_peers self].
    + by rewrite lookup_insert_ne.
    + intros id' q. rewrite lookup_insert_Some. intros [[<- <-]|[_ Hq]]; auto.
  - unfold pingPeer. destruct (peers m !! id) as [p|] eqn:Hp; [|done].
    cbn [snd]. apply (table_ok_insert m id p); [done..|]. apply ping_peer_ID.
  - unfold MarkAliveManually. destruct (peers m !! id) as [p|] eqn:Hp; [|done].
    by apply (table_ok_insert m id p).
Qed.

(** The in-place filter keeps ahead of itself: what it has yet to read it has not
    written, and what it has written is the filter of what it has read. *)
Lemma AlivePeers_loop_spec n i j arr :
  j ≤ i → i ≤ length arr → n = length arr - i →
  AlivePeers_loop n i j arr =
  take j arr ++ filter (λ p, p_State p = StateAlive) (drop i arr).
Proof.
  revert i j arr. induction n as [|n IH]; intros i j arr Hji Hi Hn; cbn [AlivePeers_loop].
  { rewrite drop_ge by lia. by rewrite app_nil_r. }
  destruct (arr !! i) as [p|] eqn:Hp; [|apply lookup_ge_None in Hp; lia].
  rewrite (drop_S _ _ _ Hp), filter_cons. case_decide as Ha.
  - rewrite IH; rewrite ?length_insert; [|lia..].
    rewrite drop_insert_lt by lia. rewrite Nat.add_1_r, Nat.add_1_r.
    rewrite (take_S_r _ _ p) by (apply list_lookup_insert_eq; lia).
    rewrite take_insert_ge by lia. by rewrite <-(assoc_L (++)).
  - rewrite IH by lia. by rewrite Nat.add_1_r.
Qed.

(** ** The theorems *)

(** [C18] The table refines an abstract failure detector: under a clock that does not go
    back, after any sequence of operations the state of a peer is the verdict on when
    it was last heard and last found silent - dead at nine seconds of silence, suspect
    at three, alive before - and its LastHeartbeat is when it was last heard. *)
Theorem detector_refines f g selfID selfAddr now id evs :
  id ≠ selfID → clock_ok evs →
  (λ p, (p_State p, p_LastHeartbeat p)) <$> peers (mrun evs (wired f g selfID selfAddr now)).2 !! id =
  (λ '(heard, silent), (verdict heard silent, heard)) <$> history id evs.
Proof. intros Hid. by apply detector_inv. Qed.

(** [C19] A peer that falls silent is found dead: after a run whose last word from the
    peer came at [heard], any events that never hear it, the last of them a vain ping
    nine seconds or more after [heard], leave it dead; if it was not dead they call the
    OnNodeDead callback for it exactly once and the OnNodeAlive callback never. *)
Theorem crash_detected f g selfID selfAddr now id evs evs' heard silent t :
  id ≠ selfID → clock_ok (evs ++ evs' ++ [EvPing id false t]) →
  history id evs = Some (heard, silent) → verdict heard silent ≠ StateDead →
  (∀ e, e ∈ evs' → ¬ hears id e) → (9 * Second ≤ t - heard)%Z →
  p_State <$> peers (mrun (evs ++ evs' ++ [EvPing id false t]) (wired f g selfID selfAddr now)).2 !! id =
    Some StateDead ∧
  calls_for id (mrun (evs ++ evs' ++ [EvPing id false t]) (wired f g selfID selfAddr now)).1 =
    calls_for id (mrun evs (wired f g selfID selfAddr now)).1 ++ [CallDead f id].
Proof.
  set (m := wired f g selfID selfAddr now). intros Hid Hclock Hh Hv Hun Ht.
  destruct (history_unheard id evs evs' heard silent Hh Hun) as (silent'&Hh').
  assert (history id (evs ++ evs' ++ [EvPing id false t]) = Some (heard, Some t)) as Hh''.
  { rewrite (assoc_L (++)), history_snoc, Hh'. cbn [history_step]. by rewrite decide_True. }
  assert (verdict heard (Some t) = StateDead) as Hdead.
  { unfold verdict. destruct (Z.leb_spec (9 * Second) (time_Sub t heard)); [done|].
    unfold time_Sub, min_int64, max_int64, Second in *. lia. }
  assert (clock_ok evs) as Hclock'.
  { revert Hclock. unfold clock_ok. rewrite fmap_app. by intros (_&?&_)%StronglySorted_app. }
  split.
  - pose proof (detector_inv m id Hid eq_refl eq_refl eq_refl _ Hclock) as Hinv.
    rewrite Hh'' in Hinv. destruct (peers _ !! id) as [p|]; [|done].
    injection Hinv as Hp _. cbn. rewrite Hp. f_equal. exact Hdead.
  - rewrite (unheard_calls m id Hid eq_refl eq_refl eq_refl f g); [|done..| |].
    + by rewrite (held_dead_verdict m id Hid eq_refl eq_refl eq_refl _ heard (Some t)),
        bool_decide_eq_true_2.
    + intros e [He|He]%elem_of_app; [by apply Hun|].
      apply list_elem_of_singleton in He as ->. by intros [].
    + by rewrite (held_dead_verdict m id Hid eq_refl eq_refl eq_refl _ heard silent),
        bool_decide_eq_false_2.
Qed.

(** No false alarm: a ping that calls OnNodeDead for a peer comes at least nine
    seconds after every time the peer was heard. *)
Theorem no_false_alarm f g selfID selfAddr now id evs t e :
  id ≠ selfID → clock_ok (evs ++ [EvPing id false t]) →
  CallDead f id ∈ (pingPeer id false t (mrun evs (wired f g selfID selfAddr now)).2).1 →
  e ∈ evs → hears id e → (9 * Second ≤ t - ev_time e)%Z.
Proof.
  set (m := wired f g selfID selfAddr now). intros Hid [Hclock Hlate]%clock_ok_snoc Hcall He Hhears.
  pose proof (detector_inv m id Hid eq_refl eq_refl eq_refl _ Hclock) as Hinv.
  pose proof (mrun_config evs m) as (_&_&Hd&_).
  unfold pingPeer in Hcall. destruct (peers (mrun evs m).2 !! id) as [p|]; [|by apply elem_of_nil in Hcall].
  destruct (history id evs) as [[heard silent]|] eqn:Hh; [|done]. cbn in Hinv. injection Hinv as Hs Hl.
  pose proof (history_hears id evs heard silent e Hclock Hh He Hhears) as Hle.
  cbn [fst] in Hcall. case_decide as Hdead.
  2: { apply elem_of_app in Hcall as [?%elem_of_nil|Hcall]; [done|].
    case_decide; [|by apply elem_of_nil in Hcall]. apply list_elem_of_fmap in Hcall as (?&?&?). done. }
  destruct Hdead as [Hnd Hdead]. unfold ping_peer_state in Hdead.
  rewrite Hd, Hl in Hdead. change (deadAfter m) with (9 * Second)%Z in Hdead.
  destruct (Z.leb_spec (9 * Second) (time_Sub t heard)) as [Hge|_].
  - unfold time_Sub, min_int64, max_int64, Second in *. lia.
  - repeat case_match; done.
Qed.


(** The pings of a round run concurrently: in whatever order they take the lock,
    the table ends the same and the same calls are made. *)
Theorem heartbeatRound_order m pings pings' :
  NoDup pings.*1.*1 → pings ≡ₚ pings' →
  (heartbeatRound pings m).2 = (heartbeatRound pings' m).2 ∧
  (heartbeatRound pings m).1 ≡ₚ (heartbeatRound pings' m).1.
Proof.
  intros Hnd Hperm. revert m Hnd.
  induction Hperm as [|[[i h] t] l k _ IH|[[i h] t] [[i' h'] t'] l|l k j Hlk IH1 _ IH2]; intros m Hnd.
  - done.
  - cbn in Hnd. apply NoDup_cons in Hnd as [_ Hnd]. rewrite !heartbeatRound_cons. cbn [fst snd].
    destruct (IH (pingPeer i h t m).2 Hnd) as [-> ->]. done.
  - cbn in Hnd. apply NoDup_cons in Hnd as [Hne _]. apply not_elem_of_cons in Hne as [Hne _].
    rewrite !heartbeatRound_cons. cbn [fst snd].
    destruct (pingPeer_comm i h t i' h' t' m) as [-> <-]; [done|].
    destruct (pingPeer_comm i' h' t' i h t m) as [-> _]; [done|].
    split; [done|]. by rewrite !(assoc_L (++)), (Permutation_app_comm (pingPeer i h t m).1).
  - destruct (IH1 m Hnd) as [-> ->]. apply IH2. by rewrite <-Hlk.
Qed.

(** [C40] Whatever operations run, the table files every peer under its own ID, never
    holds the local node, and a peer once added is never lost. *)
Theorem table_invariant f g selfID selfAddr now evs evs' :
  let m := wired f g selfID selfAddr now in
  table_ok (mrun (evs ++ evs') m).2 ∧
  dom (peers (mrun evs m).2) ⊆ dom (peers (mrun (evs ++ evs') m).2).
Proof.
  cbn zeta. set (m := wired f g selfID selfAddr now).
  assert (∀ l, table_ok (mrun l m).2) as Hok.
  { intros l. induction l as [|e l IH] using rev_ind; [split; [done|intros id p; cbn; by rewrite lookup_empty]|].
    rewrite mrun_snoc. by apply mstep_table_ok. }
  split; [apply Hok|]. induction evs' as [|e evs' IH] using rev_ind; [by rewrite app_nil_r|].
  rewrite (assoc_L (++)), mrun_snoc. cbn [snd]. etrans; [exact IH|].
  intros id [p Hp]%elem_of_dom. apply elem_of_dom.
  rewrite mstep_peer; [rewrite Hp; destruct e; cbn; eauto|].
  intros ->. destruct (Hok (evs ++ evs')) as [Hself _]. congruence.
Qed.

(** [AlivePeers] filters the snapshot through a slice that shares its array: no
    peer is overwritten before it is read, and the result is the alive peers in order. *)
Theorem AlivePeers_filter m :
  AlivePeers m = filter (λ p, p_State p = StateAlive) (Peers m).
Proof. unfold AlivePeers. rewrite AlivePeers_loop_spec by lia. done. Qed.

(** Marking a dead peer alive by hand is silent: the peer is alive again, yet no
    OnNodeAlive call is made then or by any number of healthy pings that follow, so
    whoever dropped it at its death is never told to take it back. *)
Theorem MarkAliveManually_silent f g selfID selfAddr now id evs t ts :
  id ≠ selfID → id ∈ dom (peers (mrun evs (wired f g selfID selfAddr now)).2) →
  p_State <$> peers (mrun (evs ++ EvMark id t :: (EvPing id true <$> ts)) (wired f g selfID selfAddr now)).2 !! id =
    Some StateAlive ∧
  (mrun (evs ++ EvMark id t :: (EvPing id true <$> ts)) (wired f g selfID selfAddr now)).1 =
    (mrun evs (wired f g selfID selfAddr now)).1.
Proof.
  set (m := wired f g selfID selfAddr now). intros Hid [p Hp]%elem_of_dom.
  induction ts as [|u ts IH] using rev_ind.
  - rewrite mrun_snoc. cbn [fst snd mstep]. unfold MarkAliveManually. rewrite Hp, app_nil_r.
    split; [|done]. cbn [peers set_peers]. by rewrite lookup_insert_eq.
  - destruct IH as [IHs IHc]. rewrite fmap_app. cbn [fmap list_fmap].
    rewrite app_comm_cons, (assoc_L (++)), mrun_snoc. cbn [fst snd mstep]. unfold pingPeer.
    apply fmap_Some in IHs as (q&Hq&Hs). rewrite Hq.
    cbn [fst snd peers set_peers ping_peer_state p_State].
    rewrite lookup_insert_eq, IHc, <-Hs. split; [done|]. cbn. by rewrite app_nil_r.
Qed.

(** A suspect peer that is heard again is alive without an OnNodeAlive call: the
    callback fires for recoveries from death only. *)
Theorem suspect_recovery_silent m id p t :
  peers m !! id = Some p → p_State p = StateSuspect →
  (pingPeer id true t m).1 = [] ∧ p_State <$> peers (pingPeer id true t m).2 !! id = Some StateAlive.
Proof.
  intros Hp Hs. unfold pingPeer. rewrite Hp, Hs. cbn [fst snd peers set_peers]. by rewrite lookup_insert_eq.
Qed.
End membership.
Arguments Membership Fn : clear implicits.
Arguments Call Fn : clear implicits.

(** ** Witnesses *)

Definition demo_evs : list MEvent :=
  [EvAddPeer "node-b" "b:8080" 0; EvAddPeer "node-c" "c:8080" 0;
   EvPing "node-b" true (2 * Second); EvPing "node-c" false (2 * Second);
   EvPing "node-b" false (6 * Second); EvPing "node-c" false (6 * Second)].

Definition demo_table : Membership string := wired "dead" "alive" "node-a" "a:8080" 0.

Ltac clock := unfold clock_ok; cbn; repeat (constructor; [|repeat (constructor; [done|])]); try constructor.

Lemma detector_refines_witness :
  "node-c" ≠ "node-a" ∧ clock_ok demo_evs ∧
  (λ p, (p_State p, p_LastHeartbeat p)) <$> peers (mrun demo_evs demo_table).2 !! "node-c" =
  (λ '(heard, silent), (verdict heard silent, heard)) <$> history "node-c" demo_evs.
Proof.
  split; [done|]. assert (clock_ok demo_evs) by (by clock). split; [done|].
  by apply detector_refines.
Defined.

(** node-c falls silent at 0 and is found dead by the ping at 10 s. *)
Lemma crash_detected_witness :
  p_State <$> peers (mrun (demo_evs ++ [EvPing "node-b" true (8 * Second)] ++
      [EvPing "node-c" false (10 * Second)]) demo_table).2 !! "node-c" = Some StateDead ∧
  calls_for "node-c" (mrun (demo_evs ++ [EvPing "node-b" true (8 * Second)] ++
      [EvPing "node-c" false (10 * Second)]) demo_table).1 =
    calls_for "node-c" (mrun demo_evs demo_table).1 ++ [CallDead "dead" "node-c"].
Proof.
  apply (crash_detected "dead" "alive" "node-a" "a:8080" 0 "node-c" demo_evs
    [EvPing "node-b" true (8 * Second)] 0 (Some (6 * Second)%Z) (10 * Second)).
  - done.
  - by clock.
  - by vm_compute.
  - by vm_compute.
  - by intros e ->%list_elem_of_singleton.
  - done.
Defined.

Lemma no_false_alarm_witness :
  CallDead "dead" "node-b" ∈ (pingPeer "node-b" false (11 * Second) (mrun demo_evs demo_table).2).1 ∧
  (9 * Second ≤ 11 * Second - 2 * Second)%Z.
Proof.
  assert (CallDead "dead" "node-b" ∈ (pingPeer "node-b" false (11 * Second) (mrun demo_evs demo_table).2).1)
    as Hcall by (apply list_elem_of_lookup; by exists 0).
  split; [done|].
  apply (no_false_alarm "dead" "alive" "node-a" "a:8080" 0 "node-b" demo_evs (11 * Second)
    (EvPing "node-b" true (2 * Second))); [done|by clock|done| |done].
  apply list_elem_of_lookup. by exists 2.
Defined.

(** node-c dies at 10 s and is back at 12 s. *)
Definition demo_recovery : list MEvent :=
  demo_evs ++ [EvPing "node-c" false (10 * Second); EvPing "node-c" true (12 * Second)].


(** The second death is told twice running, the mark between them not. *)
Example demo_marked_calls :
  let evs := demo_recovery ++ [EvPing "node-c" false (22 * Second); EvMark "node-c" (23 * Second); EvPing "node-c" false (40 * Second)] in
  turns "node-c" evs demo_table = [Died; CameBack; Died; Marked; Died] ∧
  calls_for "node-c" (mrun evs demo_table).1 =
    [CallDead "dead" "node-c"; CallAlive "alive" "node-c"; CallDead "dead" "node-c"; CallDead "dead" "node-c"].
Proof. split; by vm_compute. Qed.

Example demo_recovery_calls :
  calls_for "node-c" (mrun demo_recovery demo_table).1 =
    [CallDead "dead" "node-c"; CallAlive "alive" "node-c"].
Proof. by vm_compute. Qed.

Lemma heartbeatRound_order_witness :
  let m := (mrun demo_evs demo_table).2 in
  let b := ("node-b", false, (12 * Second)%Z) in let c := ("node-c", false, (13 * Second)%Z) in
  (heartbeatRound [b; c] m).2 = (heartbeatRound [c; b] m).2 ∧
  (heartbeatRound [b; c] m).1 ≡ₚ (heartbeatRound [c; b] m).1.
Proof.
  apply heartbeatRound_order; [|constructor]. apply (bool_decide_unpack _). by vm_compute.
Defined.

Lemma MarkAliveManually_silent_witness :
  let evs := demo_evs ++ [EvPing "node-c" false (10 * Second)] in
  let later := EvMark "node-c" (11 * Second) :: (EvPing "node-c" true <$> [(12 * Second)%Z]) in
  p_State <$> peers (mrun (evs ++ later) demo_table).2 !! "node-c" = Some StateAlive ∧
  (mrun (evs ++ later) demo_table).1 = (mrun evs demo_table).1.
Proof.
  apply (MarkAliveManually_silent "dead" "alive" "node-a" "a:8080" 0 "node-c"); [done|].
  apply elem_of_dom. by eexists.
Defined.

Lemma suspect_recovery_silent_witness :
  (pingPeer "node-c" true (7 * Second) (mrun demo_evs demo_table).2).1 = [] ∧
  p_State <$> peers (pingPeer "node-c" true (7 * Second) (mrun demo_evs demo_table).2).2 !! "node-c" =
    Some StateAlive.
Proof. by eapply suspect_recovery_silent. Defined.
