(* ===== verification/Replication.v ===== *)
(** * internal/replication: pushing a chunk to its replica set

    A push goes through the [Transport] and [AddrResolver] interfaces and waits on the
    context and a timer; the three are classes of operations on the world [W] outside
    the engine, whose state they may change ([TransportSpec] is what a transport
    promises: a push without error delivered).  [pushWithRetry] and [replicate] are the
    methods of [Engine]; the ring the engine shares with the rest of the node is an
    argument.  The queue and its workers are in WorkerPool.v.

    The theorems: the schedule of attempts and waits a push follows, whatever the world
    answers; a job goes to the addresses of its replica set, in preference order, and
    never to its own node; if no push is given up, every replica with an address
    holds the chunk. *)
From S2P Require Import Prelude GoLib Sha HashRing Placement.

Definition Factor : Z := 3.

Record Job := MkJob {
  j_ChunkID : string;
  j_Data : bytes;
}.

#[export] Instance Job_eq_dec : EqDecision Job.
Proof. solve_decision. Defined.

(** ** The interfaces *)

Class Transport (W : Type) := {
  PushChunk : string → string → bytes → W → option error * W;
}.

(** The answer may depend on the world: the membership table is live. *)
Class AddrResolver (W : Type) := {
  AddrFor : string → W → option string;
}.

(** [select] between [ctx.Done()] and [time.After(d)]: whether the context won. *)
Class Waiting (W : Type) := {
  ctx_or_after : Z → W → bool * W;
}.

(** [held w addr]: the chunks that the node at [addr] holds. *)
Class TransportSpec (W : Type) `{Transport W, AddrResolver W, Waiting W} := {
  held : W → string → gmap string bytes;
  PushChunk_delivers addr id d w w' :
    PushChunk addr id d w = (None, w') → held w' addr !! id = Some d;
  PushChunk_keeps addr id d w e w' a i x :
    PushChunk addr id d w = (e, w') → held w a !! i = Some x →
    held w' a !! i = Some x ∨ (a = addr ∧ i = id ∧ held w' a !! i = Some d);
  PushChunk_addrs addr id d w e w' n :
    PushChunk addr id d w = (e, w') → AddrFor n w' = AddrFor n w;
  wait_keeps t w b w' a : ctx_or_after t w = (b, w') → held w' a = held w a;
  wait_addrs t w b w' n : ctx_or_after t w = (b, w') → AddrFor n w' = AddrFor n w;
}.

(** ** The engine *)

Record Engine := MkEngine {
  e_selfID : string;
  e_cap : nat;
  e_workers : Z;
  e_maxRetries : nat;
  e_retryBase : Z;
}.

Definition NewEngine (selfID : string) (workers : Z) : Engine := {|
  e_selfID := selfID;
  e_cap := 1024;
  e_workers := if (workers <=? 0)%Z then 4 else workers;
  e_maxRetries := 5;
  e_retryBase := 200 * Millisecond;
|}.

Definition TargetsFor (r : Ring) (chunkID : string) : list string := GetN r chunkID Factor.

(** How a push ends: the code returns nothing, and logs the last error of the third. *)
Inductive PushOutcome :=
| Pushed
| Cancelled
| GaveUp (err : option error).

(** [e.retryBase * time.Duration(1<<uint(attempt-1))] *)
Definition backoff (e : Engine) (attempt : nat) : Z :=
  wrap64 (e_retryBase e * Z.shiftl 1 (Z.of_nat attempt - 1)).

Section engine.
Context {W : Type} `{Transport W, AddrResolver W, Waiting W}.

(** The loop, [n] iterations before [attempt <= e.maxRetries] fails. *)
Fixpoint pushWithRetry_loop (e : Engine) (addr : string) (job : Job) (n attempt : nat)
    (err : option error) (w : W) : PushOutcome * W :=
  match n with
  | O => (GaveUp err, w)
  | S n =>
      let '(done, w) :=
        if (0 <? attempt)%nat then ctx_or_after (backoff e attempt) w else (false, w) in
      if done : bool then (Cancelled, w)
      else
        let '(err, w) := PushChunk addr (j_ChunkID job) (j_Data job) w in
        match err with
        | None => (Pushed, w)
        | Some _ => pushWithRetry_loop e addr job n (attempt + 1) err w
        end
  end.

Definition pushWithRetry (e : Engine) (addr : string) (job : Job) (w : W) : PushOutcome * W :=
  pushWithRetry_loop e addr job (e_maxRetries e + 1) 0 None w.

(** The loop of [replicate], with the address and the outcome of every push. *)
Fixpoint replicate_loop (e : Engine) (job : Job) (targets : list string) (w : W) :
    list (string * PushOutcome) * W :=
  match targets with
  | [] => ([], w)
  | nodeID :: targets =>
      if decide (nodeID = e_selfID e) then replicate_loop e job targets w
      else match AddrFor nodeID w with
           | None => replicate_loop e job targets w
           | Some addr =>
               let '(o, w) := pushWithRetry e addr job w in
               let '(os, w) := replicate_loop e job targets w in
               ((addr, o) :: os, w)
           end
  end.

Definition replicate (e : Engine) (r : Ring) (job : Job) (w : W) : list (string * PushOutcome) * W :=
  replicate_loop e job (GetN r (j_ChunkID job) Factor) w.
End engine.

(** ** HTTPTransport *)

(** The HTTP client: the error of building a request, and a round trip with the status
    of the answer. *)
Class HTTPClient (W : Type) := {
  NewRequest_err : string → string → option error;
  Client_Do : string → string → bytes → W → result Z * W;
}.

Definition chunk_url (peerAddr chunkID : string) : string :=
  "http://" +:+ peerAddr +:+ "/internal/chunks/" +:+ chunkID.

Definition peer_rejected (peerAddr chunkID : string) (status : Z) : error :=
  fmt_Errorf ("replication: peer " +:+ peerAddr +:+ " rejected chunk " +:+ chunkID +:+ ": status " +:+ Itoa status).

(** The end of [PushChunk], from the answer of the client on. *)
Definition push_answered (peerAddr chunkID : string) (resp : result Z) : option error :=
  match resp with
  | Err err => Some err
  | Ok status =>
      if negb (Z.quot status 100 =? 2)%Z then Some (peer_rejected peerAddr chunkID status) else None
  end.

Definition HTTPTransport_PushChunk {W} `{HTTPClient W} (peerAddr chunkID : string) (d : bytes) (w : W) :
    option error * W :=
  let url := chunk_url peerAddr chunkID in
  match NewRequest_err "PUT" url with
  | Some err => (Some err, w)
  | None =>
      let '(resp, w) := Client_Do "PUT" url d w in (push_answered peerAddr chunkID resp, w)
  end.

(** ** A recording of what a push does *)

Inductive PushAct :=
| ActPush (addr id : string) (d : bytes)
| ActWait (t : Z).

(** Any world, with the log of the calls made to it. *)
Record Logged (W : Type) := MkLogged { log : list PushAct; world : W }.
Arguments MkLogged {W}.
Arguments log {W}.
Arguments world {W}.

#[export] Instance Logged_Transport {W} `{Transport W} : Transport (Logged W) := {|
  PushChunk addr id d lw :=
    let '(e, w) := PushChunk addr id d (world lw) in
    (e, MkLogged (log lw ++ [ActPush addr id d]) w);
|}.
#[export] Instance Logged_AddrResolver {W} `{AddrResolver W} : AddrResolver (Logged W) := {|
  AddrFor n lw := AddrFor n (world lw);
|}.
#[export] Instance Logged_Waiting {W} `{Waiting W} : Waiting (Logged W) := {|
  ctx_or_after t lw :=
    let '(b, w) := ctx_or_after t (world lw) in (b, MkLogged (log lw ++ [ActWait t]) w);
|}.

(** The calls of [n] attempts from number [attempt] on. *)
Fixpoint schedule (e : Engine) (addr : string) (job : Job) (n attempt : nat) : list PushAct :=
  match n with
  | O => []
  | S n =>
      (if (0 <? attempt)%nat then [ActWait (backoff e attempt)] else []) ++
      ActPush addr (j_ChunkID job) (j_Data job) :: schedule e addr job n (attempt + 1)
  end.

Definition waits (l : list PushAct) : list Z :=
  omap (λ a, match a with ActWait t => Some t | _ => None end) l.
Definition pushes (l : list PushAct) : list string :=
  omap (λ a, match a with ActPush addr _ _ => Some addr | _ => None end) l.

(** The addresses of a replica set that a job is pushed to. *)
Definition push_addrs {W} `{AddrResolver W} (e : Engine) (targets : list string) (w : W) : list string :=
  omap (λ n, AddrFor n w) (filter (λ n, n ≠ e_selfID e) targets).

(** ** The theorems *)

Lemma last_app_one {A} (l k : list A) x : last (l ++ x :: k) = last (x :: k).
Proof. rewrite last_app. by destruct (last (x :: k)) eqn:Hl; [|apply last_None in Hl]. Qed.

(** The calls of a loop are a prefix of its schedule, and say how it ended. *)
Lemma pushWithRetry_loop_schedule {W} `{Transport W, Waiting W} e addr job n attempt err
    l (w : W) o lw' :
  pushWithRetry_loop e addr job n attempt err (MkLogged l w) = (o, lw') →
  ∃ k, log lw' = l ++ k ∧ k `prefix_of` schedule e addr job n attempt ∧
    match o with
    | Pushed => last k = Some (ActPush addr (j_ChunkID job) (j_Data job))
    | Cancelled => ∃ t, last k = Some (ActWait t)
    | GaveUp err' => k = schedule e addr job n attempt ∧ (n = 0 → err' = err) ∧ (n ≠ 0 → is_Some err')
    end.
Proof.
  revert attempt err l w. induction n as [|n IH]; intros attempt err l w; cbn [pushWithRetry_loop schedule].
  { intros [= <- <-]. exists []. cbn [log]. by rewrite app_nil_r. }
  set (p := ActPush addr (j_ChunkID job) (j_Data job)).
  assert (∀ pre (w1 : W),
    (let '(err, w) := PushChunk addr (j_ChunkID job) (j_Data job) (MkLogged (l ++ pre) w1) in
     match err with
     | None => (Pushed, w)
     | Some _ => pushWithRetry_loop e addr job n (attempt + 1) err w
     end) = (o, lw') →
    ∃ k, log lw' = l ++ k ∧ k `prefix_of` pre ++ p :: schedule e addr job n (attempt + 1) ∧
      match o with
      | Pushed => last k = Some p
      | Cancelled => ∃ t, last k = Some (ActWait t)
      | GaveUp err' => k = pre ++ p :: schedule e addr job n (attempt + 1) ∧
          (S n = 0 → err' = err) ∧ (S n ≠ 0 → is_Some err')
      end) as Hpush.
  { intros pre w1. unfold PushChunk, Logged_Transport. cbn [world log].
    destruct (PushChunk addr (j_ChunkID job) (j_Data job) w1) as [[er|] w2].
    - intros (k&Hlog&Hk&Ho)%IH. rewrite <-!(assoc_L (++)) in Hlog.
      exists (pre ++ p :: k). split; [done|]. split; [by apply prefix_app, prefix_cons|].
      destruct o as [| |er'].
      + rewrite last_app_one. by rewrite last_cons, Ho.
      + destruct Ho as [t Ht]. exists t. rewrite last_app_one. by rewrite last_cons, Ht.
      + destruct Ho as (->&Hz&Hnz). split; [done|]. split; [done|]. intros _.
        destruct n; [rewrite Hz by done; eauto|by apply Hnz].
    - intros [= <- <-]. exists (pre ++ [p]). cbn [log].
      split; [by rewrite (assoc_L (++))|]. split; [apply prefix_app, prefix_cons, prefix_nil|].
      by rewrite last_snoc. }
  destruct (0 <? attempt)%nat.
  - unfold ctx_or_after at 1, Logged_Waiting at 1. cbn [world log].
    destruct (ctx_or_after (backoff e attempt) w) as [[|] w1].
    + intros [= <- <-]. exists [ActWait (backoff e attempt)]. cbn [log].
      split; [done|]. split; [apply prefix_app_r; done|]. eauto.
    + apply (Hpush [ActWait (backoff e attempt)]).
  - intros Hl. apply (Hpush [] w). by rewrite app_nil_r.
Qed.

(** The calls of a push that is never cut short. *)
Definition full_schedule (addr : string) (job : Job) : list PushAct :=
  let push := ActPush addr (j_ChunkID job) (j_Data job) in
  [push; ActWait (200 * Millisecond); push; ActWait (400 * Millisecond);
   push; ActWait (800 * Millisecond); push; ActWait (1600 * Millisecond);
   push; ActWait (3200 * Millisecond); push].

(** [C33] Whatever the transport, the context and the timer answer, a push is a prefix of
    six attempts with waits of 200, 400, 800, 1600 and 3200 ms between them; it ends at
    its first success, at a wait the context cuts short, or after the sixth failure,
    whose error it reports. *)
Theorem pushWithRetry_schedule {W} `{Transport W, Waiting W} selfID workers addr job (w : W) o lw' :
  pushWithRetry (NewEngine selfID workers) addr job (MkLogged [] w) = (o, lw') →
  log lw' `prefix_of` full_schedule addr job ∧
  match o with
  | Pushed => last (log lw') = Some (ActPush addr (j_ChunkID job) (j_Data job))
  | Cancelled => ∃ t, last (log lw') = Some (ActWait t)
  | GaveUp err => log lw' = full_schedule addr job ∧ is_Some err
  end.
Proof.
  intros (k&->&Hk&Ho)%pushWithRetry_loop_schedule. split; [exact Hk|].
  destruct o; [done..|]. destruct Ho as (->&_&Hsome). split; [done|]. by apply Hsome.
Qed.

(** [C38] A push makes at most six attempts and waits at most 6.2 seconds in all. *)
Theorem pushWithRetry_bounds {W} `{Transport W, Waiting W} selfID workers addr job (w : W) o lw' :
  pushWithRetry (NewEngine selfID workers) addr job (MkLogged [] w) = (o, lw') →
  length (pushes (log lw')) ≤ 6 ∧ (Zsum (waits (log lw')) ≤ 6200 * Millisecond)%Z.
Proof.
  intros (k&->&[r Hr]&_)%pushWithRetry_loop_schedule. cbn [app].
  change (schedule _ _ _ _ _) with (full_schedule addr job) in Hr.
  assert (pushes k ++ pushes r = [addr; addr; addr; addr; addr; addr]) as Hp.
  { unfold pushes. by rewrite <-omap_app, <-Hr. }
  assert (waits k ++ waits r = [200 * Millisecond; 400 * Millisecond; 800 * Millisecond;
    1600 * Millisecond; 3200 * Millisecond]%Z) as Hw.
  { unfold waits. by rewrite <-omap_app, <-Hr. }
  split.
  - apply (f_equal length) in Hp. rewrite length_app in Hp. simpl in Hp. lia.
  - assert (Forall (λ x, 0 ≤ x)%Z (waits r)) as Hpos.
    { apply (Forall_app (λ x, 0 ≤ x)%Z (waits k)). rewrite Hw. repeat (constructor; [done|]). constructor. }
    apply Zsum_nonneg in Hpos. apply (f_equal Zsum) in Hw. rewrite Zsum_app in Hw.
    cbn in Hw. unfold Millisecond in *. lia.
Qed.

(** The pushes of one address. *)
Lemma pushWithRetry_loop_pushes {W} `{Transport W, Waiting W} e addr job n attempt err
    l (w : W) o lw' :
  pushWithRetry_loop e addr job n attempt err (MkLogged l w) = (o, lw') →
  ∃ k, log lw' = l ++ k ∧ ∀ a, a ∈ pushes k → a = addr.
Proof.
  intros (k&Hlog&[r Hr]&_)%pushWithRetry_loop_schedule. exists k. split; [done|].
  intros a Ha. assert (a ∈ pushes (schedule e addr job n attempt)) as Hs.
  { rewrite Hr. unfold pushes. rewrite omap_app. by apply elem_of_app; left. }
  clear -Hs. revert attempt Hs. induction n as [|n IH]; intros attempt Hs; [by apply elem_of_nil in Hs|].
  cbn [schedule] in Hs. unfold pushes in Hs. rewrite omap_app in Hs.
  apply elem_of_app in Hs as [Hs|Hs].
  - destruct (0 <? attempt)%nat; by apply elem_of_nil in Hs.
  - apply elem_of_cons in Hs as [->|Hs]; [done|]. by apply (IH (attempt + 1)).
Qed.

Section delivery.
Context {W : Type} `{HS : TransportSpec W}.

Lemma pushWithRetry_loop_spec e addr job n attempt err w o w' :
  pushWithRetry_loop e addr job n attempt err w = (o, w') →
  (o = Pushed → held w' addr !! j_ChunkID job = Some (j_Data job)) ∧
  (∀ a i x, held w a !! i = Some x →
    held w' a !! i = Some x ∨ (a = addr ∧ i = j_ChunkID job ∧ held w' a !! i = Some (j_Data job))) ∧
  (∀ m, AddrFor m w' = AddrFor m w).
Proof.
  revert attempt err w. induction n as [|n IH]; intros attempt err w; cbn [pushWithRetry_loop].
  { intros [= <- <-]. naive_solver. }
  assert (∀ w1, (∀ a, held w1 a = held w a) → (∀ m, AddrFor m w1 = AddrFor m w) →
    (let '(err, w) := PushChunk addr (j_ChunkID job) (j_Data job) w1 in
     match err with
     | None => (Pushed, w)
     | Some _ => pushWithRetry_loop e addr job n (attempt + 1) err w
     end) = (o, w') →
    (o = Pushed → held w' addr !! j_ChunkID job = Some (j_Data job)) ∧
    (∀ a i x, held w a !! i = Some x →
      held w' a !! i = Some x ∨ (a = addr ∧ i = j_ChunkID job ∧ held w' a !! i = Some (j_Data job))) ∧
    (∀ m, AddrFor m w' = AddrFor m w)) as Hpush.
  { intros w1 Hh1 Ha1. destruct (PushChunk addr (j_ChunkID job) (j_Data job) w1) as [[er|] w2] eqn:HP.
    - intros (Hd&Hk&Ha)%IH. split; [done|]. split.
      + intros a i x Hx. rewrite <-Hh1 in Hx.
        destruct (PushChunk_keeps _ _ _ _ _ _ a i x HP Hx) as [Hx'|(->&->&Hx')]; [by apply Hk|].
        right. split_and!; [done..|]. by destruct (Hk _ _ _ Hx') as [|(_&_&?)].
      + intros m. by rewrite Ha, (PushChunk_addrs _ _ _ _ _ _ _ HP).
    - intros [= <- <-]. split; [intros _; by eapply PushChunk_delivers|]. split.
      + intros a i x Hx. rewrite <-Hh1 in Hx. by eapply PushChunk_keeps.
      + intros m. by rewrite (PushChunk_addrs _ _ _ _ _ _ _ HP). }
  destruct (0 <? attempt)%nat; [|by apply Hpush].
  destruct (ctx_or_after (backoff e attempt) w) as [[|] w1] eqn:Hw.
  - intros [= <- <-]. split_and!; [done| |].
    + intros a i x Hx. rewrite (wait_keeps _ _ _ _ _ Hw). auto.
    + intros m. by eapply wait_addrs.
  - apply Hpush; intros; [by eapply wait_keeps|by eapply wait_addrs].
Qed.

Lemma replicate_loop_spec e job targets w os w' :
  replicate_loop e job targets w = (os, w') →
  os.*1 = push_addrs e targets w ∧
  (∀ addr, (addr, Pushed) ∈ os → held w' addr !! j_ChunkID job = Some (j_Data job)) ∧
  (∀ a i x, held w a !! i = Some x →
    held w' a !! i = Some x ∨ (i = j_ChunkID job ∧ held w' a !! i = Some (j_Data job))) ∧
  (∀ m, AddrFor m w' = AddrFor m w).
Proof.
  unfold push_addrs. revert w os w'. induction targets as [|t targets IH]; intros w os w'; cbn [replicate_loop].
  { intros [= <- <-]. split_and!; [done| |naive_solver..]. intros addr Ho. by apply elem_of_nil in Ho. }
  rewrite filter_cons. destruct (decide (t = e_selfID e)) as [->|Hne].
  { rewrite decide_False by naive_solver. apply IH. }
  rewrite decide_True by done. cbn [omap list_omap].
  destruct (AddrFor t w) as [addr|] eqn:Ht; [|apply IH].
  destruct (pushWithRetry e addr job w) as [o w1] eqn:HP.
  apply pushWithRetry_loop_spec in HP as (Hd&Hk&Ha).
  destruct (replicate_loop e job targets w1) as [os1 w2] eqn:HR. intros [= <- <-].
  apply IH in HR as (Hos&Hd'&Hk'&Ha'). split_and!.
  - cbn [fmap list_fmap fst]. rewrite Hos. f_equal. apply list_omap_ext, Forall2_same_length_lookup_2; [done|].
    intros i x y Hx Hy. rewrite Hx in Hy. injection Hy as ->. apply Ha.
  - intros a [[= -> <-]|Ho]%elem_of_cons; [|by apply Hd'].
    destruct (Hk' _ _ _ (Hd eq_refl)) as [|[_ ?]]; done.
  - intros a i x Hx. destruct (Hk a i x Hx) as [Hx'|(->&->&Hx')]; [by apply Hk'|].
    right. split; [done|]. by destruct (Hk' _ _ _ Hx') as [|[_ ?]].
  - intros m. by rewrite Ha', Ha.
Qed.

(** A job is pushed once to the address of every node of its replica set other than
    its own, in preference order, the nodes without a known address being skipped; every
    push that is not given up leaves the chunk with its node; and no node loses a chunk
    in the course of it. *)
Theorem replicate_spec e r job w os w' :
  replicate e r job w = (os, w') →
  os.*1 = push_addrs e (TargetsFor r (j_ChunkID job)) w ∧
  (∀ addr, (addr, Pushed) ∈ os → held w' addr !! j_ChunkID job = Some (j_Data job)) ∧
  (∀ a i x, i ≠ j_ChunkID job → held w a !! i = Some x → held w' a !! i = Some x).
Proof.
  intros (Hos&Hd&Hk&_)%replicate_loop_spec. split_and!; [done..|].
  intros a i x Hi Hx. by destruct (Hk a i x Hx) as [|[??]].
Qed.

(** When every push succeeds, every member of the replica set that has a known
    address and is not the pushing node holds the chunk. *)
Theorem replicate_complete e r job w os w' n addr :
  replicate e r job w = (os, w') → (∀ a o, (a, o) ∈ os → o = Pushed) →
  n ∈ TargetsFor r (j_ChunkID job) → n ≠ e_selfID e → AddrFor n w = Some addr →
  held w' addr !! j_ChunkID job = Some (j_Data job).
Proof.
  intros (Hos&Hd&_&_)%replicate_loop_spec Hall Hn Hne Haddr. apply Hd.
  assert (addr ∈ os.*1) as Hin.
  { rewrite Hos. unfold push_addrs. apply list_elem_of_omap. exists n.
    by rewrite list_elem_of_filter. }
  apply list_elem_of_fmap in Hin as ([a o]&->&Ho). by rewrite (Hall _ _ Ho) in Ho.
Qed.
End delivery.

(** ** A cancelled context

    [main] cancels the context before it stops the engine, and the workers still work the
    queue off. *)
Section cancelled.
Context {W : Type} `{HS : TransportSpec W}.
Context (Hcancelled : ∀ t (w : W), (ctx_or_after t w).1 = true).

Lemma pushWithRetry_cancelled e addr job l (w : W) o lw' :
  e_maxRetries e ≠ 0 → pushWithRetry e addr job (MkLogged l w) = (o, lw') →
  pushes (log lw') = pushes l ++ [addr] ∧ (o = Pushed ∨ o = Cancelled) ∧
  ∀ n, AddrFor n (world lw') = AddrFor n w.
Proof.
  intros Hretries. unfold pushWithRetry. destruct (e_maxRetries e) as [|n]; [done|].
  cbn [Nat.add pushWithRetry_loop Nat.ltb Nat.leb]. unfold PushChunk, Logged_Transport. cbn [world log].
  destruct (PushChunk addr (j_ChunkID job) (j_Data job) w) as [[er|] w1] eqn:HP.
  - replace (n + 1) with (S n) by lia. cbn [pushWithRetry_loop Nat.ltb Nat.leb].
    unfold ctx_or_after, Logged_Waiting. cbn [world log].
    pose proof (Hcancelled (backoff e 1) w1) as Hc.
    destruct (ctx_or_after (backoff e 1) w1) as [b w2] eqn:Hw. cbn in Hc. subst b.
    intros [= <- <-]. cbn [log world]. unfold pushes. rewrite !omap_app. cbn. rewrite app_nil_r.
    split_and!; [done|by right|]. intros m. by rewrite (wait_addrs _ _ _ _ _ Hw), (PushChunk_addrs _ _ _ _ _ _ _ HP).
  - intros [= <- <-]. cbn [log world]. unfold pushes. rewrite omap_app.
    split_and!; [done|by left|]. intros m. by rewrite (PushChunk_addrs _ _ _ _ _ _ _ HP).
Qed.

Lemma replicate_loop_cancelled e job targets l (w : W) os lw' :
  e_maxRetries e ≠ 0 → replicate_loop e job targets (MkLogged l w) = (os, lw') →
  pushes (log lw') = pushes l ++ push_addrs e targets w ∧ Forall (λ x, x.2 = Pushed ∨ x.2 = Cancelled) os.
Proof.
  intros Hretries. unfold push_addrs. revert l w os lw'.
  induction targets as [|t targets IH]; intros l w os lw'; cbn [replicate_loop].
  { intros [= <- <-]. split; [by rewrite app_nil_r|done]. }
  rewrite filter_cons. destruct (decide (t = e_selfID e)) as [->|Hne].
  { rewrite decide_False by naive_solver. apply IH. }
  rewrite decide_True by done. cbn [omap list_omap]. unfold AddrFor at 1, Logged_AddrResolver. cbn [world].
  destruct (AddrFor t w) as [addr|] eqn:Ht; [|apply IH].
  destruct (pushWithRetry e addr job _) as [o [l1 w1]] eqn:HP.
  apply pushWithRetry_cancelled in HP as (Hl1&Ho&Ha); [|done]. cbn [log world] in Hl1, Ha.
  destruct (replicate_loop e job targets _) as [os1 lw2] eqn:HR. intros [= <- <-].
  apply IH in HR as [Hlog Hos]. split; [|by constructor]. rewrite Hlog, Hl1, <-(assoc_L (++)). cbn [app].
  do 2 f_equal. apply list_omap_ext, Forall2_same_length_lookup_2; [done|].
  intros i x y Hx Hy. rewrite Hx in Hy. injection Hy as ->. apply Ha.
Qed.

(** Under a cancelled context, as in a shutdown, a job still gets one push to every
    address of its replica set and no more: a push that fails is not repeated. *)
Theorem replicate_cancelled selfID workers r job (w : W) os lw' :
  replicate (NewEngine selfID workers) r job (MkLogged [] w) = (os, lw') →
  pushes (log lw') = push_addrs (NewEngine selfID workers) (TargetsFor r (j_ChunkID job)) w ∧
  Forall (λ x, x.2 = Pushed ∨ x.2 = Cancelled) os.
Proof. by apply replicate_loop_cancelled. Qed.
End cancelled.

(** ** The fake transport of the package's tests

    It fails the first [failFor] pushes to an address and then receives; the context is
    never done. *)
Record FakeNet := MkFakeNet {
  fk_addrs : gmap string string;
  fk_failFor : gmap string nat;
  fk_received : gmap string (gmap string bytes);
}.

#[export] Instance FakeNet_Transport : Transport FakeNet := {|
  PushChunk addr id d w :=
    match default 0 (fk_failFor w !! addr) with
    | S k => (Some (errors_New "simulated failure"),
              MkFakeNet (fk_addrs w) (<[addr := k]> (fk_failFor w)) (fk_received w))
    | O => (None, MkFakeNet (fk_addrs w) (fk_failFor w)
              (<[addr := <[id := d]> (default ∅ (fk_received w !! addr))]> (fk_received w)))
    end;
|}.
#[export] Instance FakeNet_AddrResolver : AddrResolver FakeNet := {|
  AddrFor n w := fk_addrs w !! n;
|}.
#[export] Instance FakeNet_Waiting : Waiting FakeNet := {| ctx_or_after _ w := (false, w); |}.

#[export, program] Instance FakeNet_TransportSpec : TransportSpec FakeNet := {|
  held w addr := default ∅ (fk_received w !! addr);
|}.
Next Obligation.
  intros addr id d w w'. cbn. destruct (default 0 _); [|done]. intros [= <-]. cbn.
  rewrite lookup_insert_eq. cbn. by rewrite lookup_insert_eq.
Qed.
Next Obligation.
  intros addr id d w e w' a i x. cbn. destruct (default 0 _); intros [= <- <-]; [|by left]. cbn.
  destruct (decide (a = addr)) as [->|]; [|rewrite lookup_insert_ne by done; by left].
  rewrite lookup_insert_eq. cbn. destruct (decide (i = id)) as [->|].
  - intros _. right. by rewrite lookup_insert_eq.
  - rewrite lookup_insert_ne by done. by left.
Qed.
Next Obligation. intros addr id d w e w' n. cbn. by destruct (default 0 _); intros [= <- <-]. Qed.
Next Obligation. by intros t w b w' a [= <- <-]. Qed.
Next Obligation. by intros t w b w' n [= <- <-]. Qed.

Definition demo_job : Job := MkJob "chunk" [x01; x02].
Definition demo_net : FakeNet :=
  MkFakeNet {["node-a" := "addr-a"; "node-b" := "addr-b"]} {["addr-b" := 2]} ∅.

(** The test that fails twice: three attempts, two waits. *)
Example demo_push :
  let '(o, lw) := pushWithRetry (NewEngine "node-a" 1) "addr-b" demo_job (MkLogged [] demo_net) in
  o = Pushed ∧ log lw = take 5 (full_schedule "addr-b" demo_job).
Proof. by vm_compute. Qed.

Lemma pushWithRetry_schedule_witness :
  let r := pushWithRetry (NewEngine "node-a" 1) "addr-b" demo_job (MkLogged [] demo_net) in
  log r.2 `prefix_of` full_schedule "addr-b" demo_job ∧
  last (log r.2) = Some (ActPush "addr-b" "chunk" [x01; x02]).
Proof.
  exact (pushWithRetry_schedule "node-a" 1 "addr-b" demo_job demo_net Pushed
    (pushWithRetry (NewEngine "node-a" 1) "addr-b" demo_job (MkLogged [] demo_net)).2 eq_refl).
Defined.

Lemma pushWithRetry_bounds_witness :
  let r := pushWithRetry (NewEngine "node-a" 1) "addr-b" demo_job (MkLogged [] demo_net) in
  length (pushes (log r.2)) ≤ 6 ∧ (Zsum (waits (log r.2)) ≤ 6200 * Millisecond)%Z.
Proof. exact (pushWithRetry_bounds "node-a" 1 "addr-b" demo_job demo_net _ _ (surjective_pairing _)). Defined.

Lemma replicate_spec_witness :
  let r := replicate (NewEngine "node-a" 1) demo_ring demo_job demo_net in
  r.1.*1 = push_addrs (NewEngine "node-a" 1) (TargetsFor demo_ring "chunk") demo_net ∧
  (∀ addr, (addr, Pushed) ∈ r.1 → held r.2 addr !! "chunk" = Some [x01; x02]) ∧
  (∀ a i x, i ≠ "chunk" → held demo_net a !! i = Some x → held r.2 a !! i = Some x).
Proof. exact (replicate_spec (NewEngine "node-a" 1) demo_ring demo_job demo_net _ _ (surjective_pairing _)). Defined.

(** The replica set of a chunk on a ring of two nodes. *)
Lemma two_targets r S x y key :
  ring_repr r S → S = {[x; y]} → x ≠ y → TargetsFor r key = [x; y] ∨ TargetsFor r key = [y; x].
Proof.
  intros Hr -> Hxy. unfold TargetsFor, Factor. rewrite (GetN_preference r _ _ _ Hr).
  pose proof (length_preference r _ key Hr) as Hlen. pose proof (NoDup_preference r key) as Hnd.
  pose proof (λ id, elem_of_preference r _ key id Hr) as Hin.
  rewrite size_union, !size_singleton in Hlen by set_solver.
  rewrite take_ge by (change (Z.to_nat 3) with 3; lia).
  assert (x ∈ preference r key ∧ y ∈ preference r key) as [Hx Hy] by (split; apply Hin; set_solver).
  destruct (preference r key) as [|u [|v [|z l]]]; simpl in Hlen; [lia..| |lia].
  rewrite !elem_of_cons, !elem_of_nil in Hx, Hy. naive_solver.
Qed.

Lemma demo_targets :
  TargetsFor demo_ring "chunk" = ["node-a"; "node-b"] ∨ TargetsFor demo_ring "chunk" = ["node-b"; "node-a"].
Proof. by apply (two_targets _ _ "node-a" "node-b" "chunk" demo_ring_repr). Qed.

(** Every push of the demo job succeeds, whichever node the ring prefers. *)
Lemma replicate_complete_witness :
  held (replicate (NewEngine "node-a" 1) demo_ring demo_job demo_net).2 "addr-b" !! "chunk" =
    Some [x01; x02].
Proof.
  apply (replicate_complete (NewEngine "node-a" 1) demo_ring demo_job demo_net _ _ "node-b" "addr-b"
    (surjective_pairing _)); [|by apply demo_GetN_all; set_solver|done|done].
  unfold replicate. change (GetN demo_ring (j_ChunkID demo_job) Factor) with (TargetsFor demo_ring "chunk").
  destruct demo_targets as [-> | ->]; by intros a o [= -> ->]%list_elem_of_singleton.
Defined.

(** ** HTTP status of a push *)

(** An answer counts as a success exactly when its status is 200 to 299. *)
Lemma push_answered_None addr id resp :
  push_answered addr id resp = None ↔ ∃ status, resp = Ok status ∧ (200 ≤ status < 300)%Z.
Proof.
  destruct resp as [status|err]; cbn [push_answered]; [|naive_solver].
  assert ((Z.quot status 100 =? 2)%Z = true ↔ (200 ≤ status < 300)%Z) as Hq.
  { rewrite Z.eqb_eq. pose proof (Z.quot_rem' status 100) as Hqr.
    pose proof (Z.rem_bound_abs status 100 ltac:(done)) as Hr. split; intros; [|].
    - pose proof (Z.rem_nonneg status 100). destruct (decide (0 ≤ status)%Z); [lia|].
      pose proof (Z.rem_nonpos status 100). lia.
    - symmetry. apply (Z.quot_unique status 100 2 (status - 200)); lia. }
  destruct (Z.quot status 100 =? 2)%Z; cbn; naive_solver.
Qed.

(** Over HTTP a push succeeds exactly when the request can be built, the round trip
    gives an answer and the answer's status is 200 to 299. *)
Theorem HTTPTransport_ok {W} `{HTTPClient W} addr id d (w : W) :
  (HTTPTransport_PushChunk addr id d w).1 = None ↔
  NewRequest_err "PUT" (chunk_url addr id) = None ∧
  ∃ status, (Client_Do "PUT" (chunk_url addr id) d w).1 = Ok status ∧ (200 ≤ status < 300)%Z.
Proof.
  unfold HTTPTransport_PushChunk. destruct (NewRequest_err _ _); [naive_solver|].
  destruct (Client_Do _ _ _ _) as [resp w']; cbn [fst]. rewrite push_answered_None. naive_solver.
Qed.

(** The same network under a cancelled context. *)
Record CancelledNet := MkCancelledNet { cn_net : FakeNet }.

#[export] Instance CancelledNet_Transport : Transport CancelledNet := {|
  PushChunk addr id d w := let '(e, n) := PushChunk addr id d (cn_net w) in (e, MkCancelledNet n);
|}.
#[export] Instance CancelledNet_AddrResolver : AddrResolver CancelledNet := {| AddrFor n w := AddrFor n (cn_net w) |}.
#[export] Instance CancelledNet_Waiting : Waiting CancelledNet := {| ctx_or_after _ w := (true, w) |}.

#[export, program] Instance CancelledNet_TransportSpec : TransportSpec CancelledNet := {|
  held w addr := held (cn_net w) addr;
|}.
Next Obligation.
  intros addr id d [w] w'. cbn -[FakeNet_Transport held]. destruct (PushChunk addr id d w) as [e n] eqn:HP.
  intros [= -> <-]. by eapply (PushChunk_delivers (W := FakeNet)).
Qed.
Next Obligation.
  intros addr id d [w] e w' a i x. cbn -[FakeNet_Transport held]. destruct (PushChunk addr id d w) as [e1 n] eqn:HP.
  intros [= -> <-]. by eapply (PushChunk_keeps (W := FakeNet)).
Qed.
Next Obligation.
  intros addr id d [w] e w' m. cbn -[FakeNet_Transport FakeNet_AddrResolver].
  destruct (PushChunk addr id d w) as [e1 n] eqn:HP.
  intros [= -> <-]. by eapply (PushChunk_addrs (W := FakeNet)).
Qed.
Next Obligation. by intros t w b w' a [= <- <-]. Qed.
Next Obligation. by intros t w b w' n [= <- <-]. Qed.

Lemma replicate_cancelled_witness :
  let r := replicate (NewEngine "node-a" 1) demo_ring demo_job (MkLogged [] (MkCancelledNet demo_net)) in
  pushes (log r.2) = push_addrs (NewEngine "node-a" 1) (TargetsFor demo_ring "chunk") (MkCancelledNet demo_net) ∧
  Forall (λ x, x.2 = Pushed ∨ x.2 = Cancelled) r.1.
Proof.
  exact (replicate_cancelled (λ _ _, eq_refl) "node-a" 1 demo_ring demo_job (MkCancelledNet demo_net) _ _
    (surjective_pairing _)).
Defined.
