(* ===== verification/WorkerPool.v ===== *)
(** * internal/replication: the queue and its workers

    The channel of the engine and the goroutines that [Start] launches, as a machine
    whose steps are the actions of the goroutines involved: a caller of [Enqueue], a
    worker receiving a job, finishing one or leaving its loop, and [Stop] closing the
    channel.  [pool_step] says of each action whether it is done, blocks, or panics;
    [pool_run] is an interleaving, a list of actions that are all done.

    What a worker does with a job is [replicate] (Replication.v); here a job is only
    accepted, taken and finished.  The theorems: no job is lost, duplicated or taken
    out of order, in any interleaving; when every worker has left, which is when [Stop]
    returns, every accepted job is finished; and after the close, the workers always
    get there. *)
From S2P Require Import Prelude GoLib Sha HashRing Placement Replication.

Inductive Worker :=
| Waiting_job
| Working (job : Job)
| Left.

#[export] Instance Worker_eq_dec : EqDecision Worker.
Proof. solve_decision. Defined.

Record Pool := MkPool {
  queue : list Job;
  closed : bool;
  workers : list Worker;
  accepted : list Job;
  taken : list Job;
  finished : list Job;
}.

Inductive PoolAction :=
| ActEnqueue (job : Job)
| ActReceive (i : nat)
| ActFinish (i : nat)
| ActLeave (i : nat)
| ActClose.

#[export] Instance PoolAction_eq_dec : EqDecision PoolAction.
Proof. solve_decision. Defined.

Inductive StepResult :=
| Done (p : Pool)
| Blocks
| Panics.

(** [NewEngine] makes the channel, [Start] launches the workers. *)
Definition Start (e : Engine) : Pool :=
  MkPool [] false (repeat Waiting_job (Z.to_nat (e_workers e))) [] [] [].

Definition set_worker (i : nat) (s : Worker) (p : Pool) : Pool :=
  MkPool (queue p) (closed p) (<[i := s]> (workers p)) (accepted p) (taken p) (finished p).

(** [e.queue <- job]: a send on a closed channel panics, one on a full channel waits. *)
Definition Enqueue (e : Engine) (job : Job) (p : Pool) : StepResult :=
  if closed p then Panics
  else if (length (queue p) <? e_cap e)%nat
       then Done (MkPool (queue p ++ [job]) false (workers p) (accepted p ++ [job]) (taken p) (finished p))
       else Blocks.

(** The loop [for job := range e.queue] of worker [i], at its receive: a job if there is
    one, the end of the loop once the channel is closed and empty. *)
Definition worker_receive (i : nat) (p : Pool) : StepResult :=
  match workers p !! i with
  | Some Waiting_job =>
      match queue p with
      | job :: q =>
          Done (MkPool q (closed p) (<[i := Working job]> (workers p))
                  (accepted p) (taken p ++ [job]) (finished p))
      | [] => Blocks
      end
  | _ => Blocks
  end.

Definition worker_finish (i : nat) (p : Pool) : StepResult :=
  match workers p !! i with
  | Some (Working job) =>
      Done (MkPool (queue p) (closed p) (<[i := Waiting_job]> (workers p))
              (accepted p) (taken p) (finished p ++ [job]))
  | _ => Blocks
  end.

Definition worker_leave (i : nat) (p : Pool) : StepResult :=
  match workers p !! i with
  | Some Waiting_job =>
      match queue p with
      | [] => if closed p then Done (set_worker i Left p) else Blocks
      | _ :: _ => Blocks
      end
  | _ => Blocks
  end.

(** [close(e.queue)], the first statement of [Stop]. *)
Definition Stop_close (p : Pool) : StepResult :=
  if closed p then Panics
  else Done (MkPool (queue p) true (workers p) (accepted p) (taken p) (finished p)).

(** The [e.wg.Wait()] of [Stop] returns. *)
Definition Stop_returns (p : Pool) : bool := forallb (λ s, bool_decide (s = Left)) (workers p).

Definition QueueDepth (p : Pool) : nat := length (queue p).

Definition pool_step (e : Engine) (a : PoolAction) (p : Pool) : StepResult :=
  match a with
  | ActEnqueue job => Enqueue e job p
  | ActReceive i => worker_receive i p
  | ActFinish i => worker_finish i p
  | ActLeave i => worker_leave i p
  | ActClose => Stop_close p
  end.

Fixpoint pool_run (e : Engine) (acts : list PoolAction) (p : Pool) : option Pool :=
  match acts with
  | [] => Some p
  | a :: acts => match pool_step e a p with Done p => pool_run e acts p | _ => None end
  end.

(** The jobs the workers are on. *)
Definition job_of (s : Worker) : option Job := match s with Working job => Some job | _ => None end.
Definition in_flight (p : Pool) : list Job := omap job_of (workers p).

(** ** The invariant *)

Record pool_ok (e : Engine) (p : Pool) : Prop := {
  ok_fifo : accepted p = taken p ++ queue p;
  ok_taken : taken p ≡ₚ finished p ++ in_flight p;
  ok_bound : length (queue p) ≤ e_cap e;
  ok_left : Left ∈ workers p → closed p = true ∧ queue p = [];
  ok_workers : length (workers p) = Z.to_nat (e_workers e);
}.

Lemma omap_insert_perm {A B} (f : A → option B) (l : list A) i x y :
  l !! i = Some x →
  option_list (f x) ++ omap f (<[i := y]> l) ≡ₚ option_list (f y) ++ omap f l.
Proof.
  revert i. induction l as [|z l IH]; intros i; [done|]. destruct i as [|i]; cbn.
  - intros [= ->]. destruct (f x), (f y); cbn; [apply Permutation_swap|done..].
  - intros Hx. destruct (f z) as [b|]; cbn; [|by apply IH].
    rewrite <-!Permutation_middle. by rewrite (IH i Hx).
Qed.

Lemma in_flight_insert p i x y q c ac tk fi :
  workers p !! i = Some x →
  option_list (job_of x) ++ in_flight (MkPool q c (<[i := y]> (workers p)) ac tk fi) ≡ₚ
  option_list (job_of y) ++ in_flight p.
Proof. intros Hx. by apply omap_insert_perm. Qed.

Lemma elem_of_insert_inv {A} (l : list A) i x y : y ∈ <[i := x]> l → y = x ∨ y ∈ l.
Proof.
  intros (j&Hj)%list_elem_of_lookup. apply list_lookup_insert_Some in Hj as [(->&->&_)|[_ Hj]]; [by left|].
  right. by eapply list_elem_of_lookup_2.
Qed.

Lemma Start_ok e : pool_ok e (Start e).
Proof.
  split; cbn; [done| |lia| |apply repeat_length].
  - unfold in_flight, Start. cbn. by induction (Z.to_nat (e_workers e)).
  - intros Hin. exfalso. revert Hin. induction (Z.to_nat (e_workers e)); cbn; set_solver.
Qed.

Lemma pool_step_ok e a p p' : pool_ok e p → pool_step e a p = Done p' → pool_ok e p'.
Proof.
  intros [Hfifo Htaken Hbound Hleft Hlen]. destruct a as [job|i|i|i|]; cbn [pool_step].
  - unfold Enqueue. destruct (closed p) eqn:Hc; [done|].
    destruct (Nat.ltb_spec (length (queue p)) (e_cap e)) as [Hlt|]; intros [= <-].
    split; cbn; [by rewrite Hfifo, (assoc_L (++))|done|rewrite length_app; simpl; lia| |done].
    intros Hl. by destruct (Hleft Hl).
  - unfold worker_receive. destruct (workers p !! i) as [[|job|]|] eqn:Hi; try done.
    destruct (queue p) as [|job q] eqn:Hq; [done|]. intros [= <-].
    pose proof (in_flight_insert p i _ (Working job) q (closed p) (accepted p) (taken p ++ [job])
      (finished p) Hi) as Hfl.
    split; cbn in *.
    + by rewrite Hfifo, <-(assoc_L (++)).
    + rewrite Hfl, Htaken, <-(assoc_L (++)). by rewrite (Permutation_app_comm _ [job]).
    + lia.
    + intros [?|Hl]%elem_of_insert_inv; [done|]. by destruct (Hleft Hl).
    + by rewrite length_insert.
  - unfold worker_finish. destruct (workers p !! i) as [[|job|]|] eqn:Hi; try done. intros [= <-].
    pose proof (in_flight_insert p i _ Waiting_job (queue p) (closed p) (accepted p) (taken p)
      (finished p ++ [job]) Hi) as Hfl.
    split; cbn in *; [done| |done| |by rewrite length_insert].
    + by rewrite Htaken, <-Hfl, <-(assoc_L (++)).
    + intros [?|Hl]%elem_of_insert_inv; [done|]. by destruct (Hleft Hl).
  - unfold worker_leave. destruct (workers p !! i) as [[|job|]|] eqn:Hi; try done.
    destruct (queue p) as [|] eqn:Hq; [|done]. destruct (closed p) eqn:Hc; [|done]. intros [= <-].
    pose proof (in_flight_insert p i _ Left (queue p) (closed p) (accepted p) (taken p)
      (finished p) Hi) as Hfl.
    split; cbn in *; rewrite ?Hq in *; [done| |done|done|by rewrite length_insert].
    unfold set_worker. by rewrite Htaken, <-Hfl.
  - unfold Stop_close. destruct (closed p) eqn:Hc; [done|]. intros [= <-]. split; cbn; [done..| |done].
    intros Hl. by destruct (Hleft Hl).
Qed.

Lemma pool_run_ok e acts p p' : pool_ok e p → pool_run e acts p = Some p' → pool_ok e p'.
Proof.
  revert p. induction acts as [|a acts IH]; intros p Hp; cbn [pool_run]; [by intros [= <-]|].
  destruct (pool_step e a p) as [p1| |] eqn:Ha; [|done..]. apply IH. by eapply pool_step_ok.
Qed.

Lemma reachable_ok e acts p : pool_run e acts (Start e) = Some p → pool_ok e p.
Proof. apply pool_run_ok, Start_ok. Qed.

(** ** Draining *)

(** Bounds the steps the workers have left: a queued job is received and finished, a
    worker at its receive leaves. *)
Definition worker_weight (s : Worker) : nat :=
  match s with Waiting_job => 1 | Working _ => 2 | Left => 0 end.
Definition drain_measure (p : Pool) : nat :=
  3 * length (queue p) + sum_list_with worker_weight (workers p).

Lemma weight_insert (l : list Worker) i x y :
  l !! i = Some x →
  sum_list_with worker_weight (<[i := y]> l) + worker_weight x =
  sum_list_with worker_weight l + worker_weight y.
Proof.
  revert i. induction l as [|z l IH]; intros i; [done|]. destruct i as [|i].
  - intros [= ->]. cbn. lia.
  - intros Hx. specialize (IH i Hx).
    change (<[S i := y]> (z :: l)) with (z :: <[i := y]> l). cbn [sum_list_with]. lia.
Qed.

Lemma closed_step e a p p' :
  closed p = true → pool_step e a p = Done p' →
  closed p' = true ∧ accepted p' = accepted p ∧ drain_measure p' < drain_measure p.
Proof.
  intros Hc. destruct a as [job|i|i|i|]; cbn [pool_step]; unfold Enqueue, Stop_close; rewrite ?Hc; try done.
  - unfold worker_receive. destruct (workers p !! i) as [[|job|]|] eqn:Hi; try done.
    destruct (queue p) as [|job q] eqn:Hq; [done|]. intros [= <-]. split_and!; [done..|].
    unfold drain_measure. cbn [queue workers]. rewrite Hq.
    pose proof (weight_insert _ i _ (Working job) Hi). simpl in *. lia.
  - unfold worker_finish. destruct (workers p !! i) as [[|job|]|] eqn:Hi; try done. intros [= <-].
    split_and!; [done..|]. unfold drain_measure. cbn [queue workers].
    pose proof (weight_insert _ i _ Waiting_job Hi). simpl in *. lia.
  - unfold worker_leave. destruct (workers p !! i) as [[|job|]|] eqn:Hi; try done.
    destruct (queue p) as [|] eqn:Hq; [|done]. rewrite Hc. intros [= <-]. split_and!; [done..|].
    unfold drain_measure, set_worker. cbn [queue workers].
    pose proof (weight_insert _ i _ Left Hi). simpl in *. lia.
Qed.

(** A closed pool in which some worker is left has a step to make. *)
Lemma closed_progress e p :
  closed p = true → Stop_returns p = false → ∃ a p', pool_step e a p = Done p'.
Proof.
  intros Hc Hret. unfold Stop_returns in Hret.
  assert (∃ i s, workers p !! i = Some s ∧ s ≠ Left) as (i&s&Hi&Hs).
  { revert Hret. clear. induction (workers p) as [|s l IH]; cbn; [done|].
    intros [Hs|Hl]%andb_false_iff.
    - exists 0, s. split; [done|]. by apply bool_decide_eq_false in Hs.
    - destruct (IH Hl) as (i&x&?&?). by exists (S i), x. }
  destruct s as [|job|]; [| |done].
  - destruct (queue p) as [|job q] eqn:Hq.
    + exists (ActLeave i). cbn [pool_step]. unfold worker_leave. rewrite Hi, Hq, Hc. by eexists.
    + exists (ActReceive i). cbn [pool_step]. unfold worker_receive. rewrite Hi, Hq. by eexists.
  - exists (ActFinish i). cbn [pool_step]. unfold worker_finish. rewrite Hi. by eexists.
Qed.

Lemma Stop_returns_left p : Stop_returns p = true ↔ ∀ s, s ∈ workers p → s = Left.
Proof.
  unfold Stop_returns. rewrite forallb_forall. setoid_rewrite <-list_elem_of_In.
  by setoid_rewrite bool_decide_eq_true.
Qed.

Lemma closed_run e acts p p' :
  closed p = true → pool_run e acts p = Some p' →
  closed p' = true ∧ accepted p' = accepted p ∧ length acts + drain_measure p' ≤ drain_measure p.
Proof.
  revert p. induction acts as [|a acts IH]; intros p Hc; cbn [pool_run length].
  { intros [= <-]. split_and!; [done..|lia]. }
  destruct (pool_step e a p) as [p1| |] eqn:Ha; [|done..]. intros Hrun.
  destruct (closed_step e a p p1 Hc Ha) as (Hc1&Hacc1&Hlt).
  destruct (IH p1 Hc1 Hrun) as (?&?&?). split_and!; [done|congruence|lia].
Qed.

Lemma closed_drains e n p :
  drain_measure p ≤ n → closed p = true →
  ∃ acts p', pool_run e acts p = Some p' ∧ Stop_returns p' = true.
Proof.
  revert p. induction n as [|n IH]; intros p Hn Hc; destruct (Stop_returns p) eqn:Hret;
    try by (exists [], p).
  all: destruct (closed_progress e p Hc Hret) as (a&p1&Ha);
    destruct (closed_step e a p p1 Hc Ha) as (Hc1&_&Hlt).
  { lia. }
  destruct (IH p1) as (acts&p2&Hrun&Hret2); [lia|done|].
  exists (a :: acts), p2. cbn [pool_run]. by rewrite Ha.
Qed.

(** ** The theorems *)

(** [C30] In every interleaving of callers and workers no job is lost, duplicated or
    reordered in the queue: the accepted jobs are, in order, those taken followed by
    those queued; each taken job is finished or being worked on; and the queue never
    holds more than its capacity. *)
Theorem pool_conserves_jobs e acts p :
  pool_run e acts (Start e) = Some p →
  accepted p = taken p ++ queue p ∧ taken p ≡ₚ finished p ++ in_flight p ∧
  QueueDepth p ≤ e_cap e.
Proof. intros []%reachable_ok. done. Qed.

(** [C31] When [Stop] returns every job ever accepted is finished, whatever the
    interleaving and however many were queued when it was called. *)
Theorem Stop_drains selfID n acts p :
  let e := NewEngine selfID n in
  pool_run e acts (Start e) = Some p → Stop_returns p = true → finished p ≡ₚ accepted p.
Proof.
  cbn zeta. intros [Hfifo Htaken _ Hleft Hlen]%reachable_ok Hret.
  rewrite Stop_returns_left in Hret.
  assert (Left ∈ workers p) as Hin.
  { destruct (workers p) as [|s l]; [|rewrite <-(Hret s); by left].
    cbn in Hlen. destruct (Z.leb_spec n 0); simpl in Hlen; lia. }
  destruct (Hleft Hin) as [_ Hq]. rewrite Hfifo, Hq, app_nil_r, Htaken.
  assert (in_flight p = []) as ->; [|by rewrite app_nil_r].
  unfold in_flight. revert Hret. clear. induction (workers p) as [|s l IH]; intros Hret; [done|].
  cbn. rewrite (Hret s) by by left. apply IH. set_solver.
Qed.

(** [C32] [Stop] terminates: from any pool once the channel is closed, no interleaving
    can go on for more than [drain_measure] steps, one that cannot be continued has
    every worker gone, and such a one exists. *)
Theorem Stop_terminates e p :
  closed p = true →
  (∀ acts p', pool_run e acts p = Some p' →
    length acts ≤ drain_measure p ∧
    ((∀ a, ¬ ∃ p'', pool_step e a p' = Done p'') → Stop_returns p' = true)) ∧
  ∃ acts p', pool_run e acts p = Some p' ∧ Stop_returns p' = true.
Proof.
  intros Hc. split; [|by apply (closed_drains e (drain_measure p))].
  intros acts p' Hrun. destruct (closed_run e acts p p' Hc Hrun) as (Hc'&_&Hle). split; [lia|].
  intros Hstuck. destruct (Stop_returns p') eqn:Hret; [done|].
  destruct (closed_progress e p' Hc' Hret) as (a&p''&Ha). destruct (Hstuck a). eauto.
Qed.

(** The queue pushes back and does not drop: while the channel is open an
    [Enqueue] is accepted when fewer than 1024 jobs are queued and waits otherwise;
    after [Stop] has closed it, any [Enqueue] - a repair pass still running, a slow
    upload - panics, in every later state. *)
Theorem Enqueue_outcomes selfID n acts p job :
  let e := NewEngine selfID n in
  pool_run e acts (Start e) = Some p →
  Enqueue e job p =
    if decide (ActClose ∈ acts) then Panics
    else if decide (QueueDepth p < 1024)
         then Done (MkPool (queue p ++ [job]) false (workers p) (accepted p ++ [job]) (taken p) (finished p))
         else Blocks.
Proof.
  cbn zeta. set (e := NewEngine selfID n). intros Hrun.
  assert (closed p = bool_decide (ActClose ∈ acts)) as Hc.
  { revert Hrun. assert (∀ acts p0, pool_run e acts p0 = Some p →
      closed p = closed p0 || bool_decide (ActClose ∈ acts)) as Hgen; [|by intros ->%Hgen].
    clear acts. intros acts. induction acts as [|a acts IH]; intros p0; cbn [pool_run].
    { intros [= ->]. by rewrite bool_decide_eq_false_2, orb_false_r by set_solver. }
    destruct (pool_step e a p0) as [p1| |] eqn:Ha; [|done..]. intros ->%IH.
    assert (closed p1 = closed p0 || bool_decide (a = ActClose)) as ->.
    { destruct a as [j|i|i|i|]; cbn [pool_step] in Ha; revert Ha;
        unfold Enqueue, worker_receive, worker_finish, worker_leave, Stop_close; repeat case_match;
        intros [= <-]; cbn; by destruct (closed p0). }
    rewrite <-orb_assoc. f_equal. rewrite <-bool_decide_or. apply bool_decide_ext. set_solver. }
  unfold Enqueue, QueueDepth. rewrite Hc.
  case_bool_decide; case_decide; try done. change (e_cap e) with 1024.
  destruct (Nat.ltb_spec (length (queue p)) 1024); case_decide; done || lia.
Qed.

(** ** Witnesses *)

Definition demo_engine : Engine := NewEngine "node-a" 2.
Definition job_x : Job := MkJob "x" [x01].
Definition job_y : Job := MkJob "y" [x02].

(** Two workers, two jobs, the second taken before the first is finished, [Stop] called
    while both are being worked on. *)
Definition demo_actions : list PoolAction :=
  [ActEnqueue job_x; ActEnqueue job_y; ActReceive 1; ActReceive 0; ActClose;
   ActFinish 0; ActLeave 0; ActFinish 1; ActLeave 1].
Definition demo_pool : Pool := default (Start demo_engine) (pool_run demo_engine demo_actions (Start demo_engine)).
Definition demo_closed_pool : Pool :=
  default (Start demo_engine) (pool_run demo_engine (take 5 demo_actions) (Start demo_engine)).

Lemma pool_conserves_jobs_witness :
  accepted demo_closed_pool = taken demo_closed_pool ++ queue demo_closed_pool ∧
  taken demo_closed_pool ≡ₚ finished demo_closed_pool ++ in_flight demo_closed_pool ∧
  QueueDepth demo_closed_pool ≤ e_cap demo_engine.
Proof. by apply (pool_conserves_jobs demo_engine (take 5 demo_actions)). Defined.

Lemma Stop_drains_witness : finished demo_pool = [job_y; job_x] ∧ finished demo_pool ≡ₚ accepted demo_pool.
Proof. split; [done|]. by apply (Stop_drains "node-a" 2 demo_actions). Defined.

Lemma Stop_terminates_witness :
  (∀ acts p', pool_run demo_engine acts demo_closed_pool = Some p' →
    length acts ≤ drain_measure demo_closed_pool ∧
    ((∀ a, ¬ ∃ p'', pool_step demo_engine a p' = Done p'') → Stop_returns p' = true)) ∧
  ∃ acts p', pool_run demo_engine acts demo_closed_pool = Some p' ∧ Stop_returns p' = true.
Proof. by apply Stop_terminates. Defined.

Lemma Enqueue_outcomes_witness :
  Enqueue demo_engine job_x demo_closed_pool =
    if decide (ActClose ∈ take 5 demo_actions) then Panics
    else if decide (QueueDepth demo_closed_pool < 1024)
         then Done (MkPool (queue demo_closed_pool ++ [job_x]) false (workers demo_closed_pool)
                (accepted demo_closed_pool ++ [job_x]) (taken demo_closed_pool) (finished demo_closed_pool))
         else Blocks.
Proof. by apply (Enqueue_outcomes "node-a" 2 (take 5 demo_actions) demo_closed_pool job_x). Defined.
