(* ===== verification/Recovery.v ===== *)
(** * internal/recovery: self-healing after a death

    [HandleNodeDead] and [HandleNodeAlive] are the callbacks of the membership table;
    the ring they change is the one the rest of the node uses, so it is their argument
    and result.  [repairLocalChunks] is the goroutine a death starts: while it walks the
    listing, other goroutines may change the ring and the store, so every iteration has
    its own, given by [env]; what it does is the list of jobs it enqueues.

    The theorems: which chunks a pass enqueues; that it heals - a surviving replica hands
    its chunk to every member of the new replica set; the counters of [Status]; and what
    becomes of the ring when the two callbacks, each in its goroutine, swap. *)
From S2P Require Import Prelude GoLib Sha HashRing Placement Storage Replication.

Record Manager := MkManager {
  m_selfID : string;
  repairsRunning : Z;
  repairsComplete : Z;
}.

Definition recovery_New (selfID : string) : Manager := MkManager selfID 0 0.

(** The ring after the callback, and the node whose repair pass it starts. *)
Definition HandleNodeDead (deadNodeID : string) (r : Ring) : Ring * string :=
  (RemoveNode r deadNodeID, deadNodeID).

Definition HandleNodeAlive (nodeID addr : string) (r : Ring) : Ring := AddNode r nodeID.

Fixpoint contains (ss : list string) (s : string) : bool :=
  match ss with
  | [] => false
  | x :: ss => if decide (x = s) then true else contains ss s
  end.

(** The locked statements at the two ends of a pass. *)
Definition repair_begin (m : Manager) : Manager :=
  MkManager (m_selfID m) (repairsRunning m + 1) (repairsComplete m).
Definition repair_end (m : Manager) : Manager :=
  MkManager (m_selfID m) (repairsRunning m - 1) (repairsComplete m + 1).

Definition Status (m : Manager) : string :=
  "repairs_running=" +:+ Itoa (repairsRunning m) +:+ " repairs_complete=" +:+ Itoa (repairsComplete m).

Section repair.
Context {B : Type} `{Backend B}.

(** One iteration: the job it enqueues, if any. *)
Definition repair_chunk (selfID : string) (r : Ring) (local : B) (chunkID : string) : option Job :=
  let newTargets := GetN r chunkID Factor in
  if negb (contains newTargets selfID) then None
  else match b_Get chunkID local with
       | Err _ => None
       | Ok d => Some (MkJob chunkID d)
       end.

(** The flag [wasResponsibleViaDeadNode], which the pass computes and drops. *)
Definition wasResponsibleViaDeadNode (deadNodeID : string) (r : Ring) (chunkID : string) : bool :=
  existsb (λ t, bool_decide (t = deadNodeID)) (GetN r chunkID Factor).

(** The loop, iteration [i] seeing the ring and the store of [env i]. *)
Fixpoint repair_loop (selfID : string) (env : nat → Ring * B) (i : nat) (ids : list string) : list Job :=
  match ids with
  | [] => []
  | chunkID :: ids =>
      match repair_chunk selfID (env i).1 (env i).2 chunkID with
      | Some job => job :: repair_loop selfID env (S i) ids
      | None => repair_loop selfID env (S i) ids
      end
  end.

(** The pass: the store it lists, then the environment of its iterations. *)
Definition repairLocalChunks (selfID : string) (listed : B) (env : nat → Ring * B) : list Job :=
  match b_List listed with
  | Err _ => []
  | Ok ids => repair_loop selfID env 0 ids
  end.
End repair.

(** A quiet environment: nobody else changes the ring or the store. *)
Definition quiet {B} (r : Ring) (local : B) : nat → Ring * B := λ _, (r, local).

(** ** Lemmas *)

Lemma contains_elem ss s : contains ss s = true ↔ s ∈ ss.
Proof.
  induction ss as [|x ss IH]; cbn [contains]; [by rewrite elem_of_nil|].
  rewrite elem_of_cons. case_decide; naive_solver.
Qed.

Section repair_lemmas.
Context {B : Type} `{HB : BackendSpec B}.

Lemma repair_loop_elem selfID (env : nat → Ring * B) i ids job :
  job ∈ repair_loop selfID env i ids ↔
  ∃ k, ids !! k = Some (j_ChunkID job) ∧
    repair_chunk selfID (env (i + k)).1 (env (i + k)).2 (j_ChunkID job) = Some job.
Proof.
  assert (∀ r (b : B) id j, repair_chunk selfID r b id = Some j → j_ChunkID j = id) as Hid.
  { intros r b id j. unfold repair_chunk. destruct (negb _); [done|].
    destruct (b_Get id b); [|done]. by intros [= <-]. }
  revert i. induction ids as [|id ids IH]; intros i; cbn [repair_loop].
  { rewrite elem_of_nil. split; [done|]. by intros (k&?&_). }
  assert ((∃ k, (id :: ids) !! k = Some (j_ChunkID job) ∧
      repair_chunk selfID (env (i + k)).1 (env (i + k)).2 (j_ChunkID job) = Some job) ↔
    repair_chunk selfID (env i).1 (env i).2 id = Some job ∨ job ∈ repair_loop selfID env (S i) ids) as ->.
  { rewrite IH. split.
    - intros ([|k]&Hk&Hj); cbn in Hk.
      + injection Hk as ->. left. by rewrite Nat.add_0_r in Hj.
      + right. exists k. by rewrite Nat.add_succ_comm.
    - intros [Hj|(k&Hk&Hj)].
      + exists 0. rewrite Nat.add_0_r, (Hid _ _ _ _ Hj). by rewrite (Hid _ _ _ _ Hj) in *.
      + exists (S k). by rewrite <-Nat.add_succ_comm. }
  destruct (repair_chunk selfID (env i).1 (env i).2 id) as [j|]; rewrite ?elem_of_cons; naive_solver.
Qed.

Lemma repair_chunk_Some selfID r (b : B) m id job :
  be_repr b m → be_valid id →
  repair_chunk selfID r b id = Some job ↔
  selfID ∈ TargetsFor r id ∧ j_ChunkID job = id ∧ m !! id = Some (j_Data job).
Proof.
  intros Hb Hid. unfold repair_chunk. rewrite (Get_spec b m id Hb Hid).
  change (GetN r id Factor) with (TargetsFor r id). rewrite <-contains_elem.
  destruct (contains _ _); cbn [negb]; [|naive_solver].
  destruct job as [i d], (m !! id); naive_solver.
Qed.

(** What a pass enqueues when nobody else changes the ring or the store. *)
Lemma repair_quiet selfID r (b : B) m job :
  be_repr b m →
  job ∈ repairLocalChunks selfID b (quiet r b) ↔
  selfID ∈ TargetsFor r (j_ChunkID job) ∧ m !! j_ChunkID job = Some (j_Data job).
Proof.
  intros Hb. unfold repairLocalChunks. destruct (List_spec b m Hb) as (ids&->&Hids).
  assert (∀ id, id ∈ ids ↔ is_Some (m !! id)) as Hin.
  { intros id. rewrite Hids, list_elem_of_fmap. split.
    - intros ([? d]&->&Hm%elem_of_map_to_list). eauto.
    - intros [d Hm]. exists (id, d). by rewrite elem_of_map_to_list. }
  rewrite repair_loop_elem. cbn [quiet fst snd]. split.
  - intros (k&Hk%list_elem_of_lookup_2&Hj). apply Hin in Hk as [d Hd].
    apply (repair_chunk_Some _ _ b m) in Hj as (?&_&?); [done..|]. by eapply repr_valid.
  - intros [Hself Hm]. assert (j_ChunkID job ∈ ids) as (k&Hk)%list_elem_of_lookup by (apply Hin; eauto).
    exists k. split; [done|]. apply (repair_chunk_Some _ _ b m); [done|by eapply repr_valid|done].
Qed.

(** ** The theorems *)

(** A repair pass enqueues exactly the chunks this node holds whose replica set, on
    the ring without the dead node, has this node as a member, with the data it holds;
    and no chunk twice. *)
Theorem repair_enqueues selfID r (b : B) m dead :
  be_repr b m →
  NoDup (j_ChunkID <$> repairLocalChunks selfID b (quiet (HandleNodeDead dead r).1 b)) ∧
  ∀ job, job ∈ repairLocalChunks selfID b (quiet (HandleNodeDead dead r).1 b) ↔
    selfID ∈ TargetsFor (RemoveNode r dead) (j_ChunkID job) ∧ m !! j_ChunkID job = Some (j_Data job).
Proof.
  intros Hb. split; [|intros job; by apply repair_quiet].
  unfold repairLocalChunks. destruct (List_spec b m Hb) as (ids&->&Hids).
  assert (NoDup ids) as Hnd by (rewrite Hids; apply NoDup_fst_map_to_list).
  assert (∀ r' i, (j_ChunkID <$> repair_loop selfID (quiet r' b) i ids) `sublist_of` ids) as Hsub.
  { clear Hids Hnd. intros r'. induction ids as [|id ids IH]; intros i; cbn [repair_loop]; [done|].
    cbn [quiet fst snd]. destruct (repair_chunk selfID r' b id) as [j|] eqn:Hj.
    - assert (j_ChunkID j = id) as <-.
      { revert Hj. unfold repair_chunk. destruct (negb _); [done|].
        destruct (b_Get id b); [|done]. by intros [= <-]. }
      by apply sublist_skip.
    - by apply sublist_cons. }
  eapply sublist_NoDup; [exact Hnd|apply Hsub].
Qed.


(** [C7] Self-healing: when a node of the replica set of a chunk dies, the repair pass of
    every other member that holds the chunk enqueues it; the replica set on the new ring
    has three nodes again if that many are left, and not the dead one; and once the
    pushes of the job succeed, every member of it with a known address, this node aside,
    holds the chunk. *)
Theorem self_healing `{HW : TransportSpec W} e r S (b : B) m dead id d (w w' : W) os :
  ring_repr r S → be_repr b m → m !! id = Some d →
  e_selfID e ∈ TargetsFor r id → dead ∈ TargetsFor r id → e_selfID e ≠ dead →
  replicate e (HandleNodeDead dead r).1 (MkJob id d) w = (os, w') → (∀ a o, (a, o) ∈ os → o = Pushed) →
  MkJob id d ∈ repairLocalChunks (e_selfID e) b (quiet (HandleNodeDead dead r).1 b) ∧
  length (TargetsFor (HandleNodeDead dead r).1 id) = 3 `min` size (S ∖ {[dead]}) ∧
  (dead ∉ TargetsFor (HandleNodeDead dead r).1 id) ∧
  ∀ n addr, n ∈ TargetsFor (HandleNodeDead dead r).1 id → n ≠ e_selfID e → AddrFor n w = Some addr →
    held w' addr !! id = Some d.
Proof.
  intros Hr Hb Hm Hself Hdead Hne Hrep Hall. cbn [HandleNodeDead fst] in *.
  pose proof (ring_repr_RemoveNode r S dead Hr) as Hr'. split_and!.
  - apply (repair_quiet _ _ _ m); [done|]. split; [|done]. by eapply survivor_stays.
  - by apply (length_GetN _ (S ∖ {[dead]})).
  - by eapply removed_gone.
  - intros n addr Hn Hns Haddr. apply replicate_loop_spec in Hrep as (Hos&Hd&_&_).
    apply Hd. assert (addr ∈ os.*1) as Hin.
    { rewrite Hos. apply list_elem_of_omap. exists n. by rewrite list_elem_of_filter. }
    apply list_elem_of_fmap in Hin as ([a o]&->&Ho). by rewrite (Hall _ _ Ho) in Ho.
Qed.
End repair_lemmas.

(** A death followed by a recovery gives the ring back as it was; but each callback
    runs in its own goroutine, and if they run the other way round the ring is left
    without a node that is alive. *)
Theorem callbacks_order r S id addr :
  ring_repr r S → id ∈ S →
  HandleNodeAlive id addr (HandleNodeDead id r).1 = r ∧
  (HandleNodeDead id (HandleNodeAlive id addr r)).1 = RemoveNode r id ∧
  ∀ key n, id ∉ GetN (HandleNodeDead id (HandleNodeAlive id addr r)).1 key n.
Proof.
  intros Hr Hid. unfold HandleNodeAlive, HandleNodeDead. cbn [fst].
  assert (AddNode r id = r) as Hadd.
  { unfold AddNode. rewrite (nodes_lookup r S id Hr). by rewrite bool_decide_eq_true_2. }
  rewrite Hadd. split_and!; [|done|intros; by eapply removed_gone].
  apply (ring_repr_unique _ _ S); [|done].
  replace S with ({[id]} ∪ S ∖ {[id]}) at 1.
  - apply ring_repr_AddNode; [by apply ring_repr_RemoveNode|].
    rewrite <-union_difference_singleton_L by done. by destruct Hr.
  - by rewrite <-union_difference_singleton_L.
Qed.

(** ** The counters of Status *)

Inductive RepairEvent := Begin | End.

Definition mgr_step (m : Manager) (ev : RepairEvent) : Manager :=
  match ev with Begin => repair_begin m | End => repair_end m end.

#[export] Instance RepairEvent_eq_dec : EqDecision RepairEvent.
Proof. solve_decision. Defined.

Definition begins (evs : list RepairEvent) : Z := Z.of_nat (count (λ e, e = Begin) evs).
Definition ends (evs : list RepairEvent) : Z := Z.of_nat (count (λ e, e = End) evs).

(** In any interleaving of repair passes the counters are exact: the passes running
    are those begun and not ended, the complete ones those ended, and Status prints
    both. *)
Theorem Status_counts selfID evs :
  let m := foldl mgr_step (recovery_New selfID) evs in
  repairsRunning m = (begins evs - ends evs)%Z ∧ repairsComplete m = ends evs ∧
  Status m = "repairs_running=" +:+ Itoa (begins evs - ends evs) +:+ " repairs_complete=" +:+ Itoa (ends evs).
Proof.
  cbn zeta.
  assert (repairsRunning (foldl mgr_step (recovery_New selfID) evs) = (begins evs - ends evs)%Z ∧
    repairsComplete (foldl mgr_step (recovery_New selfID) evs) = ends evs) as [Hr Hc].
  { induction evs as [|ev evs [IHr IHc]] using rev_ind; [done|].
    rewrite foldl_app. cbn [foldl]. unfold begins, ends, count in *. rewrite !filter_app, !length_app.
    set (nb := length (filter (λ e, e = Begin) evs)) in *.
    set (ne := length (filter (λ e, e = End) evs)) in *.
    destruct ev; cbn [mgr_step repair_begin repair_end repairsRunning repairsComplete];
      rewrite IHr, IHc; split; cbn; repeat case_decide; try done; cbn; lia. }
  unfold Status. by rewrite Hr, Hc.
Qed.

(** ** Witnesses *)

Definition demo_local : Memory := MkMemory {["chunk" := [x01; x02]]}.

Lemma repair_enqueues_witness :
  NoDup (j_ChunkID <$> repairLocalChunks "node-a" demo_local (quiet (HandleNodeDead "node-b" demo_ring).1 demo_local)) ∧
  ∀ job, job ∈ repairLocalChunks "node-a" demo_local (quiet (HandleNodeDead "node-b" demo_ring).1 demo_local) ↔
    "node-a" ∈ TargetsFor (RemoveNode demo_ring "node-b") (j_ChunkID job) ∧
    data demo_local !! j_ChunkID job = Some (j_Data job).
Proof. by apply (repair_enqueues "node-a" demo_ring demo_local). Defined.


Lemma callbacks_order_witness :
  HandleNodeAlive "node-b" "b:8080" (HandleNodeDead "node-b" demo_ring).1 = demo_ring ∧
  (HandleNodeDead "node-b" (HandleNodeAlive "node-b" "b:8080" demo_ring)).1 = RemoveNode demo_ring "node-b" ∧
  ∀ key n, "node-b" ∉ GetN (HandleNodeDead "node-b" (HandleNodeAlive "node-b" "b:8080" demo_ring)).1 key n.
Proof. apply (callbacks_order _ {["node-a"; "node-b"]}); [apply demo_ring_repr|set_solver]. Defined.

(** The headline test on three nodes: node-b dies, node-a holds the chunk and node-c
    gets it, whichever order the ring prefers them in. *)
Definition ring3 : Ring := AddNode demo_ring "node-c".
Definition demo_net3 : FakeNet :=
  MkFakeNet {["node-a" := "addr-a"; "node-b" := "addr-b"; "node-c" := "addr-c"]} ∅ ∅.

Lemma ring3_repr : ring_repr ring3 ({["node-c"]} ∪ {["node-a"; "node-b"]}).
Proof. apply ring_repr_AddNode; [apply demo_ring_repr|apply demo_ring_add_distinct]. Qed.

Lemma ring3_after :
  ring_repr (RemoveNode ring3 "node-b") (({["node-c"]} ∪ {["node-a"; "node-b"]}) ∖ {["node-b"]}).
Proof. apply ring_repr_RemoveNode, ring3_repr. Qed.

Lemma ring3_survivors :
  ({["node-c"]} ∪ {["node-a"; "node-b"]}) ∖ {["node-b"]} = ({["node-a"; "node-c"]} : gset string).
Proof. apply (bool_decide_unpack _). by vm_compute. Qed.

Lemma ring3_targets n : n ∈ ({["node-c"]} ∪ {["node-a"; "node-b"]} : gset string) → n ∈ TargetsFor ring3 "chunk".
Proof. apply (GetN_all ring3 _ "chunk" 3 n ring3_repr). vm_compute. lia. Qed.

Lemma self_healing_witness :
  let r' := (HandleNodeDead "node-b" ring3).1 in
  let w' := (replicate (NewEngine "node-a" 2) r' (MkJob "chunk" [x01; x02]) demo_net3).2 in
  MkJob "chunk" [x01; x02] ∈ repairLocalChunks "node-a" demo_local (quiet r' demo_local) ∧
  length (TargetsFor r' "chunk") = 3 `min` size (({["node-c"]} ∪ {["node-a"; "node-b"]}) ∖ {["node-b"]} : gset string) ∧
  ("node-b" ∉ TargetsFor r' "chunk") ∧
  ∀ n addr, n ∈ TargetsFor r' "chunk" → n ≠ "node-a" → AddrFor n demo_net3 = Some addr →
    held w' addr !! "chunk" = Some [x01; x02].
Proof.
  eapply (self_healing (NewEngine "node-a" 2) ring3 _ demo_local _ "node-b" "chunk" [x01; x02] demo_net3);
    [apply ring3_repr|done|done|apply ring3_targets; set_solver|apply ring3_targets; set_solver|done
    |apply surjective_pairing|].
  unfold replicate. cbn [HandleNodeDead fst].
  change (GetN (RemoveNode ring3 "node-b") (j_ChunkID (MkJob "chunk" [x01; x02])) Factor)
    with (TargetsFor (RemoveNode ring3 "node-b") "chunk").
  destruct (two_targets _ _ "node-a" "node-c" "chunk" ring3_after ring3_survivors) as [-> | ->]; [done|..];
    by intros a o [= -> ->]%list_elem_of_singleton.
Defined.
