(* ===== verification/Server.v ===== *)
(** * internal/api: the HTTP surface of a node

    [Server] is the struct of server.go with the values its pointers lead to: the ring,
    the store, the membership table, the queue and the repair counters are held once, so
    what a callback or a worker does to one of them is seen by the handlers.  A handler is
    a function of the request, the response writer and the server; it returns the jobs
    it sends to the replication queue, in order (whether and when a send is accepted is
    WorkerPool.v's), and the handlers that ask peers go through [http_Get] on the world
    [W] outside.  [Routes] and [ServeHTTP] are the dispatch of the request to them.

    JSON encoding is a parameter: the encoders are named and not defined.  The index of
    manifests is a plain map here, as in the code, where no lock guards it: requests are
    served one at a time in this model. *)
From S2P Require Import Prelude GoLib GoIO Sha HashRing Placement Chunk Storage Membership Replication WorkerPool Recovery.

(** ** Requests and responses *)

(** The decoded segments of the path; [PathValue("id")] is one of them.  A segment of one or
    two dots stands for one written so: requests that write the dots as escapes, which the
    mux does not clean, are left out. *)
Record Request := MkRequest {
  r_Method : string;
  r_Segments : list string;
  r_Body : Reader;
}.

(** [r.URL.Path] *)
Definition URL_Path (r : Request) : string := foldr (λ c s, "/" +:+ c +:+ s) "" (r_Segments r).

(** A response writer: the status once it is written, the body so far, and how many more
    bytes the client will take, if it does not take them all. *)
Record ResponseWriter := MkResponseWriter {
  rw_status : option Z;
  rw_body : bytes;
  rw_room : option nat;
}.

Definition WriteHeader (code : Z) (w : ResponseWriter) : ResponseWriter :=
  match rw_status w with
  | Some _ => w
  | None => MkResponseWriter (Some code) (rw_body w) (rw_room w)
  end.

Definition rw_Write (w : ResponseWriter) (b : bytes) : option error * ResponseWriter :=
  let w := WriteHeader 200 w in
  match rw_room w with
  | None => (None, MkResponseWriter (rw_status w) (rw_body w ++ b) None)
  | Some k =>
      if (length b <=? k)%nat
      then (None, MkResponseWriter (rw_status w) (rw_body w ++ b) (Some (k - length b)))
      else (Some (errors_New "connection reset"),
            MkResponseWriter (rw_status w) (rw_body w ++ take k b) (Some 0))
  end.

#[export, program] Instance ResponseWriter_Writer : Writer ResponseWriter := {|
  w_write := rw_Write;
  written := rw_body;
|}.
Next Obligation.
  intros w b w'. unfold rw_Write, WriteHeader. by repeat case_match; intros [= <-]; simplify_eq.
Qed.
Next Obligation.
  intros w b e w'. unfold rw_Write, WriteHeader.
  repeat case_match; intros [= _ <-]; simplify_eq/=; eauto.
Qed.

(** The status the client gets: 200 unless the handler wrote another. *)
Definition sent_status (w : ResponseWriter) : Z := default 200%Z (rw_status w).

Definition http_Error (w : ResponseWriter) (msg : string) (code : Z) : ResponseWriter :=
  (rw_Write (WriteHeader code w) (bytes_of msg ++ [x0a])).2.

Definition StatusOK : Z := 200.
Definition StatusBadRequest : Z := 400.
Definition StatusNotFound : Z := 404.
Definition StatusMovedPermanently : Z := 301.
Definition StatusMethodNotAllowed : Z := 405.
Definition StatusInternalServerError : Z := 500.

(** [http.Get]: an error, or the status and the body of the answer. *)
Class HTTPGetter (W : Type) := {
  http_Get : string → W → result (Z * Reader) * W;
}.

(** ** The server *)

Record StatusReport := MkStatusReport {
  sr_node_id : string;
  sr_ring_nodes : list string;
  sr_replication_q : nat;
  sr_recovery : string;
  sr_peers : list Peer;
}.

Section server.
Context {B C W Fn : Type} `{Backend B, Backend C, HTTPGetter W}.
Context (json_Manifest : Manifest → bytes) (json_Status : StatusReport → bytes).

Record Server := MkServer {
  SelfID : string;
  s_Ring : Ring;
  Local : B;
  Cold : option C;
  s_Membership : Membership Fn;
  s_Pool : Pool;
  s_Recovery : Manager;
  manifests : gmap string Manifest;
}.

Definition NewServer (selfID : string) (ring : Ring) (local : B) (cold : option C)
    (membership : Membership Fn) (pool : Pool) (rec : Manager) : Server :=
  MkServer selfID ring local cold membership pool rec ∅.

Definition set_Local (local : B) (s : Server) : Server :=
  MkServer (SelfID s) (s_Ring s) local (Cold s) (s_Membership s) (s_Pool s) (s_Recovery s) (manifests s).
Definition set_manifests (ms : gmap string Manifest) (s : Server) : Server :=
  MkServer (SelfID s) (s_Ring s) (Local s) (Cold s) (s_Membership s) (s_Pool s) (s_Recovery s) ms.

(** The loop of [handleUploadBlob]: the jobs enqueued, the store, and the error that
    stopped it. *)
Fixpoint upload_loop (s : Server) (chunks : list Chunk) (local : B) : list Job * B * option error :=
  match chunks with
  | [] => ([], local, None)
  | c :: chunks =>
      let targets := GetN (s_Ring s) (ck_ID c) Factor in
      let isLocalTarget := existsb (λ t, bool_decide (t = SelfID s)) targets in
      let '(err, local) :=
        if isLocalTarget || (length targets =? 0)%nat
        then b_Put (ck_ID c) (ck_Data c) local else (None, local) in
      match err with
      | Some err => ([], local, Some err)
      | None =>
          let '(jobs, local, err) := upload_loop s chunks local in
          (MkJob (ck_ID c) (ck_Data c) :: jobs, local, err)
      end
  end.

Definition handleUploadBlob (r : Request) (w : ResponseWriter) (s : Server) :
    ResponseWriter * list Job * Server :=
  let blobID := TrimPrefix (URL_Path r) "/blobs/" in
  if decide (blobID = "") then (http_Error w "missing blob id in path" StatusBadRequest, [], s)
  else
    match Split blobID (r_Body r) DefaultSize with
    | Err err => (http_Error w ("split failed: " +:+ error_String err) StatusBadRequest, [], s)
    | Ok (chunks, manifest) =>
        let '(jobs, local, err) := upload_loop s chunks (Local s) in
        match err with
        | Some _ => (http_Error w "storage failure" StatusInternalServerError, jobs, set_Local local s)
        | None =>
            let s := set_manifests (<[blobID := manifest]> (manifests s)) (set_Local local s) in
            ((rw_Write w (json_Manifest manifest)).2, jobs, s)
        end
    end.

(** The loop of [addrForNode]. *)
Fixpoint addrForNode_loop (ps : list Peer) (nodeID : string) : option string :=
  match ps with
  | [] => None
  | p :: ps =>
      if decide (p_ID p = nodeID ∧ p_State p = StateAlive) then Some (p_Addr p)
      else addrForNode_loop ps nodeID
  end.
Definition addrForNode (m : Membership Fn) (nodeID : string) : option string :=
  addrForNode_loop (Peers m) nodeID.

(** The loop of [fetchChunk] over the replica set. *)
Fixpoint fetch_peers (s : Server) (chunkID : string) (targets : list string) (w : W) :
    option bytes * W :=
  match targets with
  | [] => (None, w)
  | nodeID :: targets =>
      if decide (nodeID = SelfID s) then fetch_peers s chunkID targets w
      else match addrForNode (s_Membership s) nodeID with
           | None => fetch_peers s chunkID targets w
           | Some addr =>
               let '(resp, w) := http_Get (chunk_url addr chunkID) w in
               match resp with
               | Err _ => fetch_peers s chunkID targets w
               | Ok (status, body) =>
                   if (status =? StatusOK)%Z then
                     match ReadAll body with
                     | Ok d => (Some d, w)
                     | Err _ => fetch_peers s chunkID targets w
                     end
                   else fetch_peers s chunkID targets w
               end
           end
  end.

Definition fetchChunk (s : Server) (chunkID : string) (w : W) : result bytes * W :=
  match b_Get chunkID (Local s) with
  | Ok d => (Ok d, w)
  | Err _ =>
      let '(found, w) := fetch_peers s chunkID (GetN (s_Ring s) chunkID Factor) w in
      match found with
      | Some d => (Ok d, w)
      | None =>
          match Cold s with
          | Some cold =>
              match b_Get chunkID cold with
              | Ok d => (Ok d, w)
              | Err _ => (Err ErrNotFound, w)
              end
          | None => (Err ErrNotFound, w)
          end
      end
  end.

(** The error of the reassembly is logged; it is returned here for the theorems. *)
Definition handleDownloadBlob (r : Request) (rw : ResponseWriter) (s : Server) (w : W) :
    ResponseWriter * option error * W :=
  let blobID := TrimPrefix (URL_Path r) "/blobs/" in
  match manifests s !! blobID with
  | None => (http_Error rw "unknown blob id" StatusNotFound, None, w)
  | Some manifest =>
      let '(err, rw, w) := Reassemble (fetchChunk s) rw w manifest in (rw, err, w)
  end.

Definition handlePutChunk (id : string) (r : Request) (w : ResponseWriter) (s : Server) :
    ResponseWriter * Server :=
  match ReadAll (r_Body r) with
  | Err _ => (http_Error w "read failed" StatusBadRequest, s)
  | Ok d =>
      if negb (Verify id d) then (http_Error w "chunk integrity check failed" StatusBadRequest, s)
      else
        let '(err, local) := b_Put id d (Local s) in
        match err with
        | Some _ => (http_Error w "storage failure" StatusInternalServerError, set_Local local s)
        | None => (WriteHeader StatusOK w, set_Local local s)
        end
  end.

Definition handleGetChunk (id : string) (w : ResponseWriter) (s : Server) : ResponseWriter :=
  match b_Get id (Local s) with
  | Err _ => http_Error w "not found" StatusNotFound
  | Ok d => (rw_Write w d).2
  end.

Definition handleHealthz (w : ResponseWriter) : ResponseWriter :=
  (rw_Write (WriteHeader StatusOK w) (bytes_of "ok")).2.

Definition handleStatus (w : ResponseWriter) (s : Server) : ResponseWriter :=
  (rw_Write w (json_Status (MkStatusReport (SelfID s) (Nodes (s_Ring s)) (QueueDepth (s_Pool s))
    (Status (s_Recovery s)) (Peers (s_Membership s))))).2.

(** ** Dispatch *)

Inductive Handler :=
| UploadBlob
| DownloadBlob
| PutChunk (id : string)
| GetChunk (id : string)
| Healthz
| StatusPage
| MovedPermanently.

(** The patterns registered by [Routes], by method: a pattern for GET takes HEAD too, one
    that ends in a slash takes every longer path, [{id}] one segment that is not empty. *)
Definition is_get (m : string) : bool := bool_decide (m = "GET" ∨ m = "HEAD").

(** Whether [cleanPath] of net/http leaves the path as it is: no dot segments, and no empty
    segment but a last one. *)
Definition is_clean (segs : list string) : bool :=
  forallb (λ s, bool_decide (s ≠ "." ∧ s ≠ "..")) segs && forallb (λ s, bool_decide (s ≠ "")) (removelast segs).

(** Where the mux of net/http sends a request: one whose path is not clean, or is that of a
    pattern without its last slash, is redirected (but for CONNECT). *)
Definition Routes (method : string) (segs : list string) : option Handler + unit :=
  if negb (is_clean segs) && bool_decide (method ≠ "CONNECT") then inl (Some MovedPermanently) else
  match segs with
  | ["blobs"] => if decide (method = "POST" ∨ is_get method = true) then inl (Some MovedPermanently) else inr ()
  | "blobs" :: _ :: _ =>
      if decide (method = "POST") then inl (Some UploadBlob)
      else if is_get method then inl (Some DownloadBlob) else inr ()
  | ["internal"; "chunks"; id] =>
      if decide (id = "") then inl None
      else if decide (method = "PUT") then inl (Some (PutChunk id))
      else if is_get method then inl (Some (GetChunk id)) else inr ()
  | ["healthz"] => if is_get method then inl (Some Healthz) else inr ()
  | ["status"] => if is_get method then inl (Some StatusPage) else inr ()
  | _ => inl None
  end.

(** The redirect; its header, and the body a GET gets, are not followed by the program. *)
Definition http_Redirect (rw : ResponseWriter) : ResponseWriter := WriteHeader StatusMovedPermanently rw.

(** One request served: the response, the jobs enqueued, the server and the world. *)
Definition ServeHTTP (r : Request) (rw : ResponseWriter) (s : Server) (w : W) :
    ResponseWriter * list Job * Server * W :=
  match Routes (r_Method r) (r_Segments r) with
  | inr _ => (http_Error rw "Method Not Allowed" StatusMethodNotAllowed, [], s, w)
  | inl None => (http_Error rw "404 page not found" StatusNotFound, [], s, w)
  | inl (Some UploadBlob) => let '(rw, jobs, s) := handleUploadBlob r rw s in (rw, jobs, s, w)
  | inl (Some DownloadBlob) => let '(rw, _, w) := handleDownloadBlob r rw s w in (rw, [], s, w)
  | inl (Some (PutChunk id)) => let '(rw, s) := handlePutChunk id r rw s in (rw, [], s, w)
  | inl (Some (GetChunk id)) => (handleGetChunk id rw s, [], s, w)
  | inl (Some Healthz) => (handleHealthz rw, [], s, w)
  | inl (Some StatusPage) => (handleStatus rw s, [], s, w)
  | inl (Some MovedPermanently) => (http_Redirect rw, [], s, w)
  end.
End server.
Arguments Server B C Fn : clear implicits.

(** ** Lemmas *)

Lemma existsb_elem (l : list string) x : existsb (λ t, bool_decide (t = x)) l = true ↔ x ∈ l.
Proof.
  rewrite existsb_exists. setoid_rewrite <-list_elem_of_In. setoid_rewrite bool_decide_eq_true.
  naive_solver.
Qed.

Lemma rw_Write_status w b : rw_status w = None → sent_status (rw_Write w b).2 = 200%Z.
Proof. unfold rw_Write, WriteHeader, sent_status. intros ->. cbn. by repeat case_match. Qed.

Lemma http_Error_status w msg code : rw_status w = None → sent_status (http_Error w msg code) = code.
Proof.
  destruct w as [st body room]. cbn. intros ->. unfold http_Error, rw_Write, WriteHeader. cbn.
  by repeat case_match.
Qed.

Lemma rw_Write_room w b :
  rw_room w = None → ∃ w', rw_Write w b = (None, w') ∧ rw_room w' = None ∧ sent_status w' = sent_status w ∧
    rw_body w' = rw_body w ++ b.
Proof.
  destruct w as [st body room]. cbn. intros ->. destruct st; by eexists.
Qed.

(** The status of a response does not change once the client would be sent 200. *)
Lemma rw_Write_sent w b : sent_status w = 200%Z → sent_status (rw_Write w b).2 = 200%Z.
Proof. destruct w as [[st|] body room]; unfold rw_Write, WriteHeader; cbn; by repeat case_match. Qed.

Lemma Reassemble_loop_sent {G} (get : string → G → result bytes * G) ids (w : ResponseWriter) g :
  sent_status w = 200%Z → sent_status (Reassemble_loop get ids w g).1.2 = 200%Z.
Proof.
  revert w g. induction ids as [|id ids IH]; intros w g Hw; cbn [Reassemble_loop]; [done|].
  destruct (get id g) as [[d|e] g']; [|done]. destruct (negb _); [done|].
  pose proof (rw_Write_sent w d Hw) as Hw'. cbn [w_write ResponseWriter_Writer].
  destruct (rw_Write w d) as [[e|] w1]; [done|]. by apply IH.
Qed.

(** The map after putting a list of chunks, in order. *)
Definition put_chunks (cs : list Chunk) (m : gmap string bytes) : gmap string bytes :=
  foldl (λ m c, <[ck_ID c := ck_Data c]> m) m cs.

Lemma put_chunks_lookup cs m id d :
  (∀ c, c ∈ cs → ck_ID c = id → ck_Data c = d) →
  m !! id = Some d ∨ (∃ c, c ∈ cs ∧ ck_ID c = id) → put_chunks cs m !! id = Some d.
Proof.
  unfold put_chunks. revert m. induction cs as [|c cs IH]; intros m Hcs; cbn [foldl].
  { intros [?|(c&?%elem_of_nil&_)]; done. }
  intros Hor. apply IH; [set_solver|]. destruct (decide (ck_ID c = id)) as [Hc|Hc].
  - left. rewrite <-Hc, lookup_insert_eq. f_equal. apply Hcs; [by left|done].
  - destruct Hor as [Hm|(c'&[->|Hc']%elem_of_cons&?)].
    + left. by rewrite lookup_insert_ne.
    + done.
    + right. by exists c'.
Qed.

Lemma put_chunks_elem cs m id d :
  put_chunks cs m !! id = Some d → m !! id = Some d ∨ ∃ c, c ∈ cs ∧ ck_ID c = id ∧ ck_Data c = d.
Proof.
  unfold put_chunks. revert m. induction cs as [|c cs IH]; intros m; cbn [foldl]; [by left|].
  intros [Hm|(c'&?&?&?)]%IH; [|right; exists c'; set_solver].
  apply lookup_insert_Some in Hm as [[??]|[??]]; [|by left]. right. exists c. set_solver.
Qed.

(** Data is filed under its SHA-256. *)
Definition addressed (m : gmap string bytes) : Prop := ∀ id d, m !! id = Some d → ID d = id.

Lemma addressed_put_chunks cs m :
  addressed m → Forall (λ c, ck_ID c = ID (ck_Data c)) cs → addressed (put_chunks cs m).
Proof.
  intros Hm Hcs id d [?|(c&Hc&<-&<-)]%put_chunks_elem; [by apply Hm|].
  rewrite Forall_forall in Hcs. symmetry. by apply Hcs.
Qed.

Section theorems.
Context {B C W Fn : Type} `{HB : BackendSpec B} `{Backend C, HTTPGetter W}.
Context (json_Manifest : Manifest → bytes) (json_Status : StatusReport → bytes).
Implicit Types s : Server B C Fn.

(** The chunks an upload keeps on its own node. *)
Definition kept_here s (c : Chunk) : Prop :=
  SelfID s ∈ TargetsFor (s_Ring s) (ck_ID c) ∨ TargetsFor (s_Ring s) (ck_ID c) = [].

#[local] Instance kept_here_dec s c : Decision (kept_here s c).
Proof. unfold kept_here. apply _. Defined.

Definition job_of_chunk (c : Chunk) : Job := MkJob (ck_ID c) (ck_Data c).

Lemma kept_here_test s c :
  existsb (λ t, bool_decide (t = SelfID s)) (GetN (s_Ring s) (ck_ID c) Factor) ||
    (length (GetN (s_Ring s) (ck_ID c) Factor) =? 0)%nat = bool_decide (kept_here s c).
Proof.
  apply eq_true_iff_eq. rewrite bool_decide_eq_true, orb_true_iff, existsb_elem, Nat.eqb_eq.
  unfold kept_here, TargetsFor. by rewrite length_zero_iff_nil.
Qed.

Lemma upload_loop_spec s cs local m :
  be_repr local m → (∀ c, c ∈ cs → be_valid (B := B) (ck_ID c)) →
  ∃ local', upload_loop s cs local = (job_of_chunk <$> cs, local', None) ∧
    be_repr local' (put_chunks (filter (kept_here s) cs) m).
Proof.
  revert local m. induction cs as [|c cs IH]; intros local m Hl Hv; cbn [upload_loop]; [by exists local|].
  rewrite kept_here_test, filter_cons. destruct (decide (kept_here s c)) as [Hk|Hk].
  - rewrite (bool_decide_eq_true_2 _ Hk).
    destruct (Put_spec local m (ck_ID c) (ck_Data c) Hl) as (l1&->&Hl1); [apply Hv; by left|].
    destruct (IH l1 _ Hl1) as (l2&->&Hl2); [set_solver|]. by exists l2.
  - rewrite (bool_decide_eq_false_2 _ Hk).
    destruct (IH local m Hl) as (l2&->&Hl2); [set_solver|]. by exists l2.
Qed.

Lemma upload_loop_off_target s cs local :
  (∀ c, c ∈ cs → ¬ kept_here s c) → upload_loop s cs local = (job_of_chunk <$> cs, local, None).
Proof.
  intros Hoff. induction cs as [|c cs IH]; cbn [upload_loop]; [done|].
  rewrite kept_here_test, bool_decide_eq_false_2 by (apply Hoff; by left).
  by rewrite IH by set_solver.
Qed.

Lemma fetchChunk_local s id w d : b_Get id (Local s) = Ok d → fetchChunk s id w = (Ok d, w).
Proof. unfold fetchChunk. by intros ->. Qed.

Definition blob_id (r : Request) : string := TrimPrefix (URL_Path r) "/blobs/".

(** ** Uploads *)

(** An upload whose body splits: every chunk is enqueued for replication, in order;
    the node keeps those whose replica set it is in (all of them on an empty ring) and
    loses none it had; the manifest is indexed under the blob's name and returned. *)
Theorem upload_spec r rw s m chunks manifest :
  be_repr (Local s) m → blob_id r ≠ "" → Split (blob_id r) (r_Body r) DefaultSize = Ok (chunks, manifest) →
  (∀ c, c ∈ chunks → be_valid (B := B) (ck_ID c)) →
  ∃ local', handleUploadBlob json_Manifest r rw s =
      ((rw_Write rw (json_Manifest manifest)).2, job_of_chunk <$> chunks,
       set_manifests (<[blob_id r := manifest]> (manifests s)) (set_Local local' s)) ∧
    be_repr local' (put_chunks (filter (kept_here s) chunks) m).
Proof.
  intros Hm Hid HS Hv. unfold handleUploadBlob. fold (blob_id r). rewrite decide_False, HS by done.
  destruct (upload_loop_spec s chunks (Local s) m Hm Hv) as (l&->&Hl). by exists l.
Qed.

(** An upload to a node outside the replica sets of its chunks is answered 200 with
    nothing stored: until the queue is worked off, no disk of the cluster holds it. *)
Theorem upload_off_target_not_stored r rw s chunks manifest :
  rw_status rw = None → blob_id r ≠ "" →
  Split (blob_id r) (r_Body r) DefaultSize = Ok (chunks, manifest) →
  (∀ c, c ∈ chunks → (SelfID s ∉ TargetsFor (s_Ring s) (ck_ID c)) ∧ TargetsFor (s_Ring s) (ck_ID c) ≠ []) →
  sent_status (handleUploadBlob json_Manifest r rw s).1.1 = 200%Z ∧
  Local (handleUploadBlob json_Manifest r rw s).2 = Local s ∧
  (handleUploadBlob json_Manifest r rw s).1.2 = job_of_chunk <$> chunks.
Proof.
  intros Hrw Hid HS Hoff. unfold handleUploadBlob. fold (blob_id r). rewrite decide_False, HS by done.
  rewrite upload_loop_off_target by (intros c Hc [?|?]; destruct (Hoff c Hc); done). cbn [fst snd].
  split_and!; [by apply rw_Write_status|done..].
Qed.

(** An upload the body of which cannot be read, or without a name, is refused with
    400 and changes nothing: no chunk, no job, no manifest. *)
Theorem upload_refused r rw s :
  rw_status rw = None →
  blob_id r = "" ∨ (∃ err, Split (blob_id r) (r_Body r) DefaultSize = Err err) →
  sent_status (handleUploadBlob json_Manifest r rw s).1.1 = 400%Z ∧
  (handleUploadBlob json_Manifest r rw s).1.2 = [] ∧ (handleUploadBlob json_Manifest r rw s).2 = s.
Proof.
  intros Hrw Hor. unfold handleUploadBlob. fold (blob_id r).
  assert (∀ msg, sent_status (http_Error rw msg StatusBadRequest) = 400%Z) as Herr
    by (intros msg; by rewrite http_Error_status).
  case_decide as Hid; [by split_and!; [apply Herr|..]|].
  destruct Hor as [?|[err ->]]; [done|]. by split_and!; [apply Herr|..].
Qed.

(** ** Downloads *)

(** Round trip on one node: after an upload to a node that is in the replica set of
    every chunk, a download of the blob from it - then, or after anything that leaves
    those chunks and the manifest there - gives 200 and exactly the uploaded bytes,
    whatever the network does. *)
Theorem upload_download r rw s m chunks manifest s' m' r' rw' (w : W) :
  be_repr (Local s) m → blob_id r ≠ "" →
  (Z.of_nat (length (content (r_Body r))) < 2 ^ 63)%Z →
  Split (blob_id r) (r_Body r) DefaultSize = Ok (chunks, manifest) →
  (∀ c, c ∈ chunks → be_valid (B := B) (ck_ID c) ∧ SelfID s ∈ TargetsFor (s_Ring s) (ck_ID c)) →
  (∀ c c', c ∈ chunks → c' ∈ chunks → ck_ID c = ck_ID c' → ck_Data c = ck_Data c') →
  manifests s' = manifests (handleUploadBlob json_Manifest r rw s).2 →
  be_repr (Local s') m' →
  (∀ c, c ∈ chunks → b_Get (ck_ID c) (Local s') =
    b_Get (ck_ID c) (Local (handleUploadBlob json_Manifest r rw s).2)) →
  blob_id r' = blob_id r → rw' = MkResponseWriter None [] None →
  ∃ rw'', handleDownloadBlob r' rw' s' w = (rw'', None, (handleDownloadBlob r' rw' s' w).2) ∧
    sent_status rw'' = 200%Z ∧ rw_body rw'' = content (r_Body r).
Proof.
  intros Hm Hid Hlen HS Hc Hinj Hman Hm' Hget Hid' ->.
  assert (∀ c, c ∈ chunks → b_Get (ck_ID c) (Local s') = Ok (ck_Data c)) as Hheld.
  { intros c Hcin. rewrite Hget by done. unfold handleUploadBlob. fold (blob_id r).
    rewrite decide_False, HS by done.
    destruct (upload_loop_spec s chunks (Local s) m Hm) as (l&->&Hl); [naive_solver|].
    cbn [snd set_manifests set_Local Local].
    apply (Get_Ok _ _ _ _ Hl). apply put_chunks_lookup.
    - intros c' [_ Hc']%list_elem_of_filter Heq. by apply Hinj.
    - right. exists c. split; [|done]. apply list_elem_of_filter. split; [left; by apply Hc|done]. }
  assert (manifests s' !! blob_id r' = Some manifest) as Hidx.
  { rewrite Hman, Hid'. unfold handleUploadBlob. fold (blob_id r). rewrite decide_False, HS by done.
    destruct (upload_loop_spec s chunks (Local s) m Hm) as (l&->&Hl); [naive_solver|].
    cbn [snd set_manifests set_Local manifests]. by rewrite lookup_insert_eq. }
  unfold handleDownloadBlob. fold (blob_id r'). rewrite Hidx.
  rewrite Split_eq in HS by done. case_decide; [|done]. injection HS as <- <-.
  set (ds := chop _ _) in *. unfold Reassemble. cbn [ChunkIDs].
  destruct (Reassemble_loop_complete (fetchChunk s')
    (λ rw, rw_room rw = None ∧ sent_status rw = 200%Z) (λ _, True) ds (MkResponseWriter None [] None) w)
    as (rw''&w'&HR&Hout&[_ Hst]&_).
  - intros rw0 b [Hroom Hst]. destruct (rw_Write_room rw0 b Hroom) as (rw1&HW&?&?&?).
    exists rw1. cbn. split_and!; [done|done|congruence].
  - intros d w0 Hd _. destruct (number_elem 0 ds d Hd) as (c&Hcin&<-&<-).
    exists w0. split; [|done]. apply fetchChunk_local, Hheld. done.
  - done.
  - done.
  - rewrite HR. exists rw''. cbn [fst snd]. split_and!; [done|done|].
    cbn in Hout. rewrite Hout. unfold ds. apply chop_concat.
    pose proof (chunk_size_pos DefaultSize). lia.
Qed.

(** Integrity of downloads: whatever the store, the peers and the cold tier answer
    and whenever the client stops reading, the client gets a prefix of the blob the
    manifest was made from, and all of it when no error is logged - unless one of them
    answered with data that collides under SHA-256 with a chunk of the blob. *)
Theorem download_integrity r rw s (w : W) body blob chunks manifest rw' err w' :
  (Z.of_nat (length (content body)) < 2 ^ 63)%Z →
  Split blob body DefaultSize = Ok (chunks, manifest) →
  manifests s !! blob_id r = Some manifest →
  (∀ c d, c ∈ chunks → answered (fetchChunk s) d → ID d = ck_ID c → d = ck_Data c) →
  handleDownloadBlob r rw s w = (rw', err, w') →
  ∃ out, rw_body rw' = rw_body rw ++ out ∧ out `prefix_of` content body ∧
    (err = None → out = content body).
Proof.
  intros Hlen HS Hman Hinj. unfold handleDownloadBlob. fold (blob_id r). rewrite Hman.
  rewrite Split_eq in HS by done. case_decide; [|done]. injection HS as <- <-.
  unfold Reassemble. cbn [ChunkIDs]. set (ps := chop _ _) in *.
  destruct (Reassemble_loop (fetchChunk s) (ID <$> ps) rw w) as [[e rw1] w1] eqn:HR.
  intros [= <- <- <-]. apply Reassemble_loop_pieces in HR as (out&Hw&Hpre&Hok).
  - assert (concat ps = content body) as Hps.
    { apply chop_concat. pose proof (chunk_size_pos DefaultSize). lia. }
    rewrite Hps in *. by exists out.
  - intros d x Hd Hx HID. destruct (number_elem 0 ps d Hd) as (c&Hc&<-&Hck).
    rewrite <-Hck in HID. by apply Hinj.
Qed.

(** A download that fails half way is still answered 200: once the manifest is
    found the status is 200 whatever error ends the reassembly, and the error reaches the
    log only. *)
Theorem download_error_is_200 r rw s (w : W) manifest :
  rw_status rw = None → manifests s !! blob_id r = Some manifest →
  sent_status (handleDownloadBlob r rw s w).1.1 = 200%Z.
Proof.
  intros Hrw Hman. unfold handleDownloadBlob. fold (blob_id r). rewrite Hman. unfold Reassemble.
  pose proof (Reassemble_loop_sent (fetchChunk s) (ChunkIDs manifest) rw w) as Hs.
  destruct (Reassemble_loop _ _ _ _) as [[e rw1] w1]. apply Hs. unfold sent_status. by rewrite Hrw.
Qed.

(** A damaged copy on the node's own disk hides every good one: [fetchChunk] takes
    what the store returns without a check, so the download of a blob that begins with
    the chunk ends there - no peer and no cold tier is asked - with an empty answer. *)
Theorem damaged_copy_hides_replicas r rw s (w : W) blob size id ids cs d :
  rw_status rw = None →
  manifests s !! blob_id r = Some (MkManifest blob size (id :: ids) cs) →
  b_Get id (Local s) = Ok d → ID d ≠ id →
  ∃ err, handleDownloadBlob r rw s w = (rw, Some err, w) ∧ sent_status rw = 200%Z.
Proof.
  intros Hrw Hman Hget Hbad. unfold handleDownloadBlob. fold (blob_id r). rewrite Hman.
  unfold Reassemble. cbn [ChunkIDs Reassemble_loop]. rewrite (fetchChunk_local s id w d Hget).
  assert (Verify id d = false) as -> by by apply bool_decide_eq_false. cbn [negb].
  eexists. split; [done|]. unfold sent_status. by rewrite Hrw.
Qed.

(** What an answer of [http.Get] is worth to [fetchChunk]. *)
Definition served (resp : result (Z * Reader)) : option bytes :=
  match resp with
  | Ok (status, body) =>
      if decide (status = StatusOK)
      then match ReadAll body with Ok d => Some d | Err _ => None end else None
  | Err _ => None
  end.

(** What [fetchChunk] answers, and that it stays in a world where the answers hold. *)
Lemma fetchChunk_eq s id (w : W) (P : W → Prop) (ans : string → result (Z * Reader)) :
  (∀ url w, P w → (http_Get url w).1 = ans url ∧ P (http_Get url w).2) → P w →
  (fetchChunk s id w).1 =
    match b_Get id (Local s) with
    | Ok d => Ok d
    | Err _ =>
        match head (omap (λ n, addr ← addrForNode (s_Membership s) n; served (ans (chunk_url addr id)))
                      (filter (λ n, n ≠ SelfID s) (TargetsFor (s_Ring s) id))) with
        | Some d => Ok d
        | None => match (cold ← Cold s; match b_Get id cold with Ok d => Some d | Err _ => None end) with
                  | Some d => Ok d
                  | None => Err ErrNotFound
                  end
        end
    end ∧
  P (fetchChunk s id w).2.
Proof.
  intros Hans Hw. unfold fetchChunk, TargetsFor. destruct (b_Get id (Local s)); [done|].
  set (targets := GetN _ _ _). clearbody targets.
  assert ((fetch_peers s id targets w).1 =
    head (omap (λ n, addr ← addrForNode (s_Membership s) n; served (ans (chunk_url addr id)))
      (filter (λ n, n ≠ SelfID s) targets)) ∧ P (fetch_peers s id targets w).2) as [Hpeers HP].
  { revert w Hw. induction targets as [|t targets IH]; intros w Hw; [done|]. cbn [fetch_peers].
    rewrite filter_cons. destruct (decide (t = SelfID s)) as [Ht|Ht].
    { rewrite decide_False by naive_solver. by apply IH. }
    rewrite decide_True by done. cbn [omap list_omap].
    destruct (addrForNode (s_Membership s) t) as [addr|]; cbn [mbind option_bind]; [|by apply IH].
    destruct (Hans (chunk_url addr id) w Hw) as [Hr Hw1].
    destruct (http_Get (chunk_url addr id) w) as [resp w1]. cbn [fst snd] in *. rewrite <-Hr.
    unfold served. destruct resp as [[status body]|er]; [|by apply IH].
    destruct (Z.eqb_spec status StatusOK); [|rewrite decide_False by done; by apply IH].
    rewrite decide_True by done. destruct (ReadAll body); [done|by apply IH]. }
  destruct (fetch_peers s id targets w) as [found w1]. cbn [fst snd] in *. rewrite Hpeers.
  destruct (head _); [done|]. destruct (Cold s) as [cold|]; [|done]. cbn. by destruct (b_Get id cold).
Qed.

(** [C25] The fallback chain of a read, when the answer of each address does not change
    meanwhile: the node's own copy; else the first answer of 200 with a whole body, in
    preference order, among the other members of the replica set that are held alive;
    else the cold tier; else ErrNotFound.  So a read fails only if all of them do. *)
Theorem fetchChunk_chain s id (w : W) (P : W → Prop) (ans : string → result (Z * Reader)) :
  (∀ url w, P w → (http_Get url w).1 = ans url ∧ P (http_Get url w).2) → P w →
  (fetchChunk s id w).1 =
    match b_Get id (Local s) with
    | Ok d => Ok d
    | Err _ =>
        match head (omap (λ n, addr ← addrForNode (s_Membership s) n; served (ans (chunk_url addr id)))
                      (filter (λ n, n ≠ SelfID s) (TargetsFor (s_Ring s) id))) with
        | Some d => Ok d
        | None => match (cold ← Cold s; match b_Get id cold with Ok d => Some d | Err _ => None end) with
                  | Some d => Ok d
                  | None => Err ErrNotFound
                  end
        end
    end.
Proof. intros Hans Hw. by apply (fetchChunk_eq s id w P ans). Qed.

(** ** Peers *)

(** A pushed chunk is stored, with a 200, exactly when its body can be read and its
    SHA-256 is the name it is pushed under; otherwise the answer is 400 and the store is
    as it was. *)
Theorem handlePutChunk_spec id r rw s m :
  rw_status rw = None → be_repr (Local s) m → be_valid (B := B) id →
  (∃ s', handlePutChunk id r rw s = (WriteHeader 200 rw, s') ∧
    be_repr (Local s') (<[id := content (r_Body r)]> m) ∧
    rd_err (r_Body r) = io_EOF ∧ ID (content (r_Body r)) = id) ∨
  (sent_status (handlePutChunk id r rw s).1 = 400%Z ∧ (handlePutChunk id r rw s).2 = s ∧
    (rd_err (r_Body r) ≠ io_EOF ∨ ID (content (r_Body r)) ≠ id)).
Proof.
  intros Hrw Hm Hid. unfold handlePutChunk. rewrite ReadAll_spec. case_decide as Heof.
  - destruct (Verify id (content (r_Body r))) eqn:HV; cbn [negb].
    + apply Verify_true in HV. left.
      destruct (Put_spec (Local s) m id (content (r_Body r)) Hm Hid) as (l&->&Hl).
      eexists. split; [done|]. done.
    + right. apply bool_decide_eq_false in HV. split_and!; [by apply http_Error_status|done|by right].
  - right. split_and!; [by apply http_Error_status|done|by left].
Qed.

(** Peers are served what the store holds, byte for byte, and 404 for what it does
    not hold. *)
Theorem handleGetChunk_spec id rw s m :
  rw_status rw = None → rw_room rw = None → be_repr (Local s) m → be_valid (B := B) id →
  match m !! id with
  | Some d => sent_status (handleGetChunk id rw s) = 200%Z ∧ rw_body (handleGetChunk id rw s) = rw_body rw ++ d
  | None => sent_status (handleGetChunk id rw s) = 404%Z
  end.
Proof.
  intros Hrw Hroom Hm Hid. unfold handleGetChunk. rewrite (Get_spec _ m id Hm Hid).
  destruct (m !! id) as [d|].
  - destruct (rw_Write_room rw d Hroom) as (rw'&->&_&Hst&Hb). cbn [snd]. split; [|done].
    rewrite Hst. unfold sent_status. by rewrite Hrw.
  - by apply http_Error_status.
Qed.

(** ** Every request *)

Definition store_ok s : Prop := ∃ m, be_repr (Local s) m ∧ addressed m.

(** The requests of a list served one after the other. *)
Definition serve_all (rs : list (Request * ResponseWriter)) s (w : W) : Server B C Fn * W :=
  foldl (λ '(s, w) '(r, rw), let '(_, _, s, w) := ServeHTTP json_Manifest json_Status r rw s w in (s, w))
    (s, w) rs.

Lemma ServeHTTP_store_ok r rw s (w : W) :
  (∀ d, be_valid (B := B) (ID d)) → store_ok s →
  store_ok (ServeHTTP json_Manifest json_Status r rw s w).1.2.
Proof.
  intros Hvalid (m&Hm&Haddr). unfold ServeHTTP.
  destruct (Routes (r_Method r) (r_Segments r)) as [[[| |id|id| | |]|]|]; try by exists m.
  - unfold handleUploadBlob. destruct (decide _); [by exists m|].
    destruct (Split _ _ _) as [[chunks manifest]|e] eqn:HS; [|by exists m].
    apply Split_named in HS as [Hnamed _]. pose proof Hnamed as Hnamed'. rewrite Forall_forall in Hnamed'.
    destruct (upload_loop_spec s chunks (Local s) m Hm) as (l&->&Hl).
    { intros c Hc. rewrite Hnamed' by done. apply Hvalid. }
    eexists. split; [exact Hl|]. apply addressed_put_chunks; [done|].
    apply Forall_forall. intros c [_ Hc]%list_elem_of_filter. by apply Hnamed'.
  - destruct (handleDownloadBlob r rw s w) as [[rw1 e] w1]. by exists m.
  - unfold handlePutChunk. destruct (ReadAll (r_Body r)) as [d|]; [|by exists m].
    destruct (Verify id d) eqn:HV; cbn [negb]; [|by exists m]. apply Verify_true in HV as <-.
    destruct (Put_spec (Local s) m (ID d) d Hm (Hvalid d)) as (l&->&Hl).
    eexists. split; [exact Hl|]. intros id' d' [[<- <-]|[_ ?]]%lookup_insert_Some; auto.
Qed.

End theorems.

(** ** Witnesses: a node of the two-node ring with an in-memory store *)

(** Peers whose answers are fixed: a status and a body by URL. *)
Record FakePeers := MkFakePeers { fp_answers : gmap string (Z * bytes) }.

#[export] Instance FakePeers_HTTPGetter : HTTPGetter FakePeers := {|
  http_Get url w :=
    (match fp_answers w !! url with
     | Some (status, b) => Ok (status, MkReader [b] io_EOF true)
     | None => Err (errors_New "connection refused")
     end, w);
|}.

Definition demo_json (m : Manifest) : bytes := bytes_of (BlobID m).
Definition demo_json_status (r : StatusReport) : bytes := bytes_of (sr_recovery r).
Definition demo_rw : ResponseWriter := MkResponseWriter None [] None.
Definition demo_hello : bytes := bytes_of "hello".
Definition demo_request (method : string) (segs : list string) (d : bytes) : Request :=
  MkRequest method segs (MkReader [d] io_EOF true).
Definition demo_upload : Request := demo_request "POST" ["blobs"; "layer"] demo_hello.
Definition demo_chunk : Chunk := MkChunk (ID demo_hello) 0 demo_hello.
Definition demo_manifest : Manifest := MkManifest "layer" 5 [ID demo_hello] DefaultSize.

Definition demo_server (selfID : string) (local : Memory) : Server Memory Memory string :=
  NewServer selfID demo_ring local None demo_table (Start demo_engine) (recovery_New selfID).

Lemma demo_Split_ok : Split "layer" (r_Body demo_upload) DefaultSize = Ok ([demo_chunk], demo_manifest).
Proof.
  rewrite Split_eq by done. rewrite decide_True by by left.
  unfold demo_chunk, demo_manifest. change (content (r_Body demo_upload)) with demo_hello.
  rewrite chop_short; [done| |done|].
  - unfold chunk_size, DefaultSize. destruct (Z.leb_spec (4 * 1024 * 1024) 0); lia.
  - change (length demo_hello) with 5. unfold chunk_size, DefaultSize.
    destruct (Z.leb_spec (4 * 1024 * 1024) 0); lia.
Qed.

Lemma demo_ring_target key : "node-a" ∈ TargetsFor demo_ring key ∧ ("node-z" ∉ TargetsFor demo_ring key) ∧
  TargetsFor demo_ring key ≠ [].
Proof.
  destruct (two_targets demo_ring _ "node-a" "node-b" key demo_ring_repr eq_refl) as [-> | ->]; [done|..];
    split_and!; try done; rewrite !elem_of_cons, elem_of_nil; naive_solver.
Qed.

Lemma upload_spec_witness :
  ∃ local', handleUploadBlob demo_json demo_upload demo_rw (demo_server "node-a" NewMemory) =
      ((rw_Write demo_rw (demo_json demo_manifest)).2, job_of_chunk <$> [demo_chunk],
       set_manifests (<["layer" := demo_manifest]> ∅) (set_Local local' (demo_server "node-a" NewMemory))) ∧
    be_repr local' (put_chunks (filter (kept_here (demo_server "node-a" NewMemory)) [demo_chunk]) ∅).
Proof.
  apply (upload_spec demo_json demo_upload demo_rw (demo_server "node-a" NewMemory) ∅);
    [done|done|exact demo_Split_ok|done].
Defined.

Lemma upload_off_target_not_stored_witness :
  let h := handleUploadBlob demo_json demo_upload demo_rw (demo_server "node-z" NewMemory) in
  sent_status h.1.1 = 200%Z ∧ Local h.2 = NewMemory ∧ h.1.2 = job_of_chunk <$> [demo_chunk].
Proof.
  apply (upload_off_target_not_stored demo_json demo_upload demo_rw (demo_server "node-z" NewMemory)
    [demo_chunk] demo_manifest); [done|done|exact demo_Split_ok|].
  intros c ->%list_elem_of_singleton. apply demo_ring_target.
Defined.

Lemma upload_refused_witness :
  let r := demo_request "POST" ["blobs"; ""] demo_hello in
  let h := handleUploadBlob demo_json r demo_rw (demo_server "node-a" NewMemory) in
  sent_status h.1.1 = 400%Z ∧ h.1.2 = [] ∧ h.2 = demo_server "node-a" NewMemory.
Proof. by apply upload_refused; [|left]. Defined.

Lemma upload_download_witness :
  let s := (handleUploadBlob demo_json demo_upload demo_rw (demo_server "node-a" NewMemory)).2 in
  let r' := demo_request "GET" ["blobs"; "layer"] [] in
  ∃ rw'', handleDownloadBlob r' demo_rw s (MkFakePeers ∅) =
      (rw'', None, (handleDownloadBlob r' demo_rw s (MkFakePeers ∅)).2) ∧
    sent_status rw'' = 200%Z ∧ rw_body rw'' = demo_hello.
Proof.
  eapply (upload_download demo_json demo_upload demo_rw (demo_server "node-a" NewMemory) ∅ [demo_chunk]
    demo_manifest).
  - done.
  - done.
  - done.
  - exact demo_Split_ok.
  - intros c ->%list_elem_of_singleton. split; [done|apply demo_ring_target].
  - by intros c c' ->%list_elem_of_singleton ->%list_elem_of_singleton.
  - done.
  - done.
  - done.
  - done.
  - done.
Defined.

(** A server that has the manifest of the blob, and a store. *)
Definition demo_indexed (local : Memory) : Server Memory Memory string :=
  set_manifests {["layer" := demo_manifest]} (demo_server "node-a" local).
Definition demo_download : Request := demo_request "GET" ["blobs"; "layer"] [].

(** The store answers with a chunk whose SHA-256 is another's. *)
Definition demo_damaged : Memory := MkMemory {[ID demo_hello := bytes_of "hellO"]}.

Lemma demo_damaged_ID : ID (bytes_of "hellO") ≠ ID demo_hello.
Proof. apply (bool_decide_unpack _). by vm_compute. Qed.

(** A world in which no peer answers. *)
Inductive NoPeers := nobody.

#[export] Instance NoPeers_HTTPGetter : HTTPGetter NoPeers := {|
  http_Get url w := (Err (errors_New "connection refused"), w);
|}.

Lemma NoPeers_fetch {B C Fn} (s : Server B C Fn) id targets (w : NoPeers) :
  fetch_peers s id targets w = (None, w).
Proof.
  induction targets as [|t targets IH]; cbn [fetch_peers]; [done|].
  case_decide; [done|]. by destruct (addrForNode _ _).
Qed.

Lemma download_integrity_witness :
  let h := handleDownloadBlob demo_download demo_rw (demo_indexed demo_damaged) nobody in
  ∃ out, rw_body h.1.1 = [] ++ out ∧ out `prefix_of` demo_hello ∧ (h.1.2 = None → out = demo_hello).
Proof.
  apply (download_integrity demo_download demo_rw (demo_indexed demo_damaged) nobody
    (r_Body demo_upload) "layer" [demo_chunk] demo_manifest _ _
    (handleDownloadBlob demo_download demo_rw (demo_indexed demo_damaged) nobody).2).
  - done.
  - exact demo_Split_ok.
  - done.
  - intros c d ->%list_elem_of_singleton (id&w&w'&Hans) HID. exfalso.
    unfold fetchChunk in Hans. rewrite NoPeers_fetch in Hans.
    change (b_Get id (Local (demo_indexed demo_damaged))) with (Memory_Get id demo_damaged) in Hans.
    unfold Memory_Get, demo_damaged in Hans. cbn [data] in Hans.
    destruct (decide (id = ID demo_hello)) as [->|Hne].
    + rewrite lookup_singleton_eq in Hans. apply (f_equal fst) in Hans. cbn [fst] in Hans.
      injection Hans as Hd. rewrite <-Hd in HID. by apply demo_damaged_ID.
    + rewrite lookup_singleton_ne in Hans by exact (not_eq_sym Hne). discriminate Hans.
  - by destruct (handleDownloadBlob _ _ _ _) as [[]].
Defined.

Lemma download_error_is_200_witness :
  sent_status (handleDownloadBlob demo_download demo_rw (demo_indexed demo_damaged) nobody).1.1 = 200%Z.
Proof. by apply (download_error_is_200 _ _ _ _ demo_manifest). Defined.

(** The peer that would have the good copy is not asked. *)
Lemma damaged_copy_hides_replicas_witness :
  let w := MkFakePeers {[chunk_url "b:8080" (ID demo_hello) := (200%Z, demo_hello)]} in
  ∃ err, handleDownloadBlob demo_download demo_rw (demo_indexed demo_damaged) w = (demo_rw, Some err, w) ∧
    sent_status demo_rw = 200%Z.
Proof.
  apply (damaged_copy_hides_replicas _ _ _ _ "layer" 5 (ID demo_hello) [] DefaultSize (bytes_of "hellO"));
    [done|done| |exact demo_damaged_ID].
  change (Memory_Get (ID demo_hello) demo_damaged = Ok (bytes_of "hellO")).
  unfold Memory_Get, demo_damaged. cbn [data]. by rewrite lookup_singleton_eq.
Defined.

(** The second node of the ring, known to be alive, serves the chunk. *)
Definition demo_peers : FakePeers := MkFakePeers {[chunk_url "b:8080" "chunk" := (200%Z, demo_hello)]}.
Definition demo_reader_node : Server Memory Memory string :=
  NewServer "node-a" demo_ring NewMemory None (mrun (take 4 demo_evs) demo_table).2 (Start demo_engine)
    (recovery_New "node-a").

Lemma fetchChunk_chain_witness : (fetchChunk demo_reader_node "chunk" demo_peers).1 = Ok demo_hello.
Proof.
  rewrite (fetchChunk_chain _ "chunk" demo_peers (λ w, w = demo_peers) (λ url, (http_Get url demo_peers).1)).
  - change (s_Ring demo_reader_node) with demo_ring.
    destruct (two_targets demo_ring _ "node-a" "node-b" "chunk" demo_ring_repr eq_refl) as [-> | ->]; [done|..];
      by vm_compute.
  - by intros url w ->.
  - done.
Defined.

Lemma handlePutChunk_spec_witness :
  let s := demo_server "node-a" NewMemory in
  let r := demo_request "PUT" ["internal"; "chunks"; "ab"] demo_hello in
  (∃ s', handlePutChunk "ab" r demo_rw s = (WriteHeader 200 demo_rw, s') ∧
    be_repr (Local s') (<["ab" := demo_hello]> ∅) ∧ rd_err (r_Body r) = io_EOF ∧ ID demo_hello = "ab") ∨
  (sent_status (handlePutChunk "ab" r demo_rw s).1 = 400%Z ∧ (handlePutChunk "ab" r demo_rw s).2 = s ∧
    (rd_err (r_Body r) ≠ io_EOF ∨ ID demo_hello ≠ "ab")).
Proof.
  by apply (handlePutChunk_spec "ab" (demo_request "PUT" ["internal"; "chunks"; "ab"] demo_hello)
    demo_rw (demo_server "node-a" NewMemory) ∅).
Defined.

Lemma handleGetChunk_spec_witness :
  sent_status (handleGetChunk "k" demo_rw (demo_server "node-a" (MkMemory {["k" := demo_hello]}))) = 200%Z ∧
  rw_body (handleGetChunk "k" demo_rw (demo_server "node-a" (MkMemory {["k" := demo_hello]}))) = demo_hello.
Proof.
  exact (handleGetChunk_spec "k" demo_rw (demo_server "node-a" (MkMemory {["k" := demo_hello]}))
    {["k" := demo_hello]} eq_refl eq_refl eq_refl I).
Defined.

