(* ===== verification/ColdTier.v ===== *)
(** * The cold tier: the S3 client as a backend of a node

    [main] gives the server an S3 client as its cold backend when a bucket is configured;
    [fetchChunk] asks it last.  Here the client is an instance of the interface [Backend]
    ([S3Handle]: the account, what its calls read from outside, and the service), and the
    theorem follows a download through the server, the chain of [fetchChunk], the signed
    request and the service. *)
From S2P Require Import Prelude GoLib GoIO GoNet Sha HashRing Placement Chunk Storage S3 SigV4 S3Store Membership Replication WorkerPool Recovery Server.
From Stdlib Require Import Strings.Ascii.

(** The interface lets a read change nothing, so what a read leaves behind in the service
    (its logs) is dropped; all calls read the same clock. *)
Record S3Handle (W : Type) := MkS3Handle { account : S3; call_env : CallEnv; service : W }.
Arguments MkS3Handle {W}.
Arguments account {W}.
Arguments call_env {W}.
Arguments service {W}.

Definition set_service {W} (w : W) (h : S3Handle W) : S3Handle W := MkS3Handle (account h) (call_env h) w.

#[export] Instance S3_Backend {W} `{HTTPDoer W} : Backend (S3Handle W) := {|
  b_Put id d h := let '(err, w) := S3_Put (call_env h) id d (account h) (service h) in (err, set_service w h);
  b_Get id h := (S3_Get (call_env h) id (account h) (service h)).1;
  b_Has id h := (S3_Has (call_env h) id (account h) (service h)).1;
  b_Delete id h := let '(err, w) := S3_Delete (call_env h) id (account h) (service h) in (err, set_service w h);
  b_List h := (S3_List (call_env h) (call_env h) (account h) (service h)).1;
|}.

(** Chunk IDs need no escaping. *)
Lemma hex_unreserved b : str_forallb unreserved (hex_EncodeToString b) = true.
Proof.
  assert (∀ n, (n < 16)%N → unreserved (hex_digit n) = true) as Hd.
  { intros [|p] Hn; [done|]. do 4 (destruct p as [p|p|]; try done; try lia). }
  induction b as [|x b IH]; [done|]. cbn [hex_EncodeToString]. rewrite !str_forallb_cons, IH, !Hd; [done|..].
  - change 15%N with (N.ones 4). rewrite N.land_ones. by apply N.mod_lt.
  - rewrite N.shiftr_div_pow2. apply N.Div0.div_lt_upper_bound.
    pose proof (Byte.to_N_bounded x). change (2 ^ 4 * 16)%N with 256%N. lia.
Qed.

Lemma ID_plain_chunk d : plain_chunk (ID d).
Proof. with_strategy transparent [ID] unfold ID. apply hex_unreserved. Qed.

Section cold.
Context {B W V Fn : Type} `{Backend B, HTTPDoer W, HTTPGetter V}.
Implicit Types (s : Server B (S3Handle W) Fn).

(** The bucket behind the handle holds the chunks of [m]. *)
Definition cold_holds (h : S3Handle W) (host : string) `{!S3Service W (account h) host}
    (m : gmap string bytes) : Prop :=
  env_ok (call_env h) ∧ plain_endpoint (account h) host ∧ s3_repr (account h) host (service h) m.

Lemma fetch_from_cold s (h : S3Handle W) (host : string) `{!S3Service W (account h) host} m d
    (P : V → Prop) (ans : string → result (Z * Reader)) (w : V) :
  (∀ url w, P w → (http_Get url w).1 = ans url ∧ P (http_Get url w).2) → P w →
  (∀ url, served (ans url) = None) →
  Cold s = Some h → cold_holds h host m →
  b_Get (ID d) (Local s) = Ok d ∨ ((∃ e, b_Get (ID d) (Local s) = Err e) ∧ m !! ID d = Some d) →
  ∃ w', fetchChunk s (ID d) w = (Ok d, w') ∧ P w'.
Proof.
  intros Hans HP Hno Hcold (Henv&Hend&Hrepr) Hd.
  destruct (fetchChunk_eq s (ID d) w P ans Hans HP) as [Heq HP'].
  exists (fetchChunk s (ID d) w).2. split; [|done].
  rewrite (surjective_pairing (fetchChunk s (ID d) w)) at 1. f_equal. rewrite Heq. clear Heq HP'.
  destruct Hd as [->|[[e ->] Hm]]; [done|].
  assert (∀ l : list string, omap (λ n, addr ← addrForNode (s_Membership s) n;
    served (ans (chunk_url addr (ID d)))) l = []) as ->.
  { induction l as [|n l IH]; [done|]. cbn [omap list_omap].
    destruct (addrForNode (s_Membership s) n) as [a|]; cbn [mbind option_bind]; by rewrite ?Hno. }
  cbn [head]. rewrite Hcold. cbn [mbind option_bind].
  destruct (S3_Get_map (account h) host Hend (call_env h) (ID d) (service h) m) as (w'&Hget&_);
    [done|apply ID_plain_chunk|done|].
  change (b_Get (ID d) h) with (S3_Get (call_env h) (ID d) (account h) (service h)).1.
  by rewrite Hget, Hm.
Qed.

(** [C28] The cold tier keeps a blob readable: a node that has the manifest serves the
    blob in full, although no peer answers with a chunk, as long as every chunk is in its
    own store or, when that has none, in the bucket of the cold tier. *)
Theorem download_from_cold s r blob body cs manifest (h : S3Handle W) (host : string)
    `{!S3Service W (account h) host} m (P : V → Prop) (ans : string → result (Z * Reader)) (w : V) :
  (Z.of_nat (length (content body)) < 2 ^ 63)%Z →
  Split blob body DefaultSize = Ok (cs, manifest) → manifests s !! blob_id r = Some manifest →
  (∀ url w, P w → (http_Get url w).1 = ans url ∧ P (http_Get url w).2) → P w →
  (∀ url, served (ans url) = None) →
  Cold s = Some h → cold_holds h host m →
  (∀ c, c ∈ cs → b_Get (ck_ID c) (Local s) = Ok (ck_Data c) ∨
                 ((∃ e, b_Get (ck_ID c) (Local s) = Err e) ∧ m !! ck_ID c = Some (ck_Data c))) →
  ∃ rw w', handleDownloadBlob r (MkResponseWriter None [] None) s w = (rw, None, w') ∧
    sent_status rw = 200%Z ∧ rw_body rw = content body.
Proof.
  intros Hlen HS Hman Hans HP Hno Hcold Hholds Hchunks. unfold handleDownloadBlob. fold (blob_id r). rewrite Hman.
  rewrite Split_eq in HS by done. case_decide; [|done]. injection HS as Hcs <-.
  set (ds := chop _ _) in *. unfold Reassemble. cbn [ChunkIDs].
  destruct (Reassemble_loop_complete (fetchChunk s) (λ rw, rw_room rw = None ∧ sent_status rw = 200%Z)
    P ds (MkResponseWriter None [] None) w) as (rw&w'&HR&Hout&[_ Hst]&_); [| |done|done|].
  - intros rw b [Hroom Hst]. destruct (rw_Write_room rw b Hroom) as (rw1&HW&?&?&?).
    exists rw1. cbn. split_and!; [done|done|congruence].
  - intros d w1 Hd HP1. destruct (number_elem 0 ds d Hd) as (c&Hc&<-&HID). rewrite Hcs in Hc.
    apply (fetch_from_cold s h host m (ck_Data c) P ans w1); [done..|]. rewrite <-HID. by apply Hchunks.
  - rewrite HR. exists rw, w'. split_and!; [done|done|]. cbn in Hout. rewrite Hout. unfold ds.
    apply chop_concat. pose proof (chunk_size_pos DefaultSize). lia.
Qed.
End cold.

(** ** A node that has only the manifest *)

Definition cold_account : S3Handle (FakeS3 demo_account demo_host) :=
  MkS3Handle demo_account demo_env (MkFakeS3 (kmap objectKey {[ID demo_hello := demo_hello]})).

Definition cold_node : Server Memory (S3Handle (FakeS3 demo_account demo_host)) string :=
  set_manifests {["layer" := demo_manifest]}
    (NewServer "node-a" demo_ring NewMemory (Some cold_account) demo_table (Start demo_engine) (recovery_New "node-a")).

Lemma download_from_cold_witness :
  ∃ rw w', handleDownloadBlob demo_download demo_rw cold_node nobody = (rw, None, w') ∧
    sent_status rw = 200%Z ∧ rw_body rw = demo_hello.
Proof.
  apply (download_from_cold cold_node demo_download "layer" (r_Body demo_upload) [demo_chunk] demo_manifest
    cold_account demo_host {[ID demo_hello := demo_hello]} (λ _, True)
    (λ _, Err (errors_New "connection refused")) nobody).
  - done.
  - exact demo_Split_ok.
  - done.
  - done.
  - done.
  - done.
  - done.
  - split; [apply demo_env_ok|]. split; [apply demo_account_plain|]. by split.
  - intros c ->%list_elem_of_singleton. right. split.
    + exists ErrNotFound. done.
    + apply lookup_singleton_eq.
Defined.
