(* ===== verification/Node.v ===== *)
(** * cmd/node: what main puts together

    The peers flag ([parse_entry] and [setup_peers] are the loop of [main] over its
    entries, which fills the membership table and the ring in step), [envOr], the address
    resolver of the replication engine, and the callbacks [main] registers
    ([run_call]).  The flag package, the signal handling and the listener are not
    modelled.

    The theorems: after the setup the ring holds the node and the peers of its table and
    nobody else, so every replica target has an address; the two address lookups of the
    node agree with the table, one of them for live peers only; a list of peers printed
    in the flag's syntax is read back; and chunk names are valid for the disk store -
    but other names are not refused. *)
From S2P Require Import Prelude GoLib GoIO Sha HashRing Placement Chunk Storage LocalFS Membership Replication WorkerPool Recovery Server.
From Stdlib Require Import Strings.Ascii.

Definition envOr (Getenv : string → string) (key fallback : string) : string :=
  let v := Getenv key in if decide (v ≠ "") then v else fallback.

(** ** The peers flag *)

(** One entry: nothing for an empty one, and for a malformed one, which is logged. *)
Definition parse_entry (entry : string) : option (string * string) :=
  let entry := TrimSpace entry in
  if decide (entry = "") then None else SplitN2 "=" entry.

Definition parse_peers (flag : string) : list (string * string) := omap parse_entry (Split_char "," flag).

Section setup.
Context {Fn : Type}.

(** One iteration: [membership.AddPeer(id, addr)] and [ring.AddNode(id)]. *)
Definition setup_peer (now : Z) (st : Membership Fn * Ring) (p : string * string) : Membership Fn * Ring :=
  (AddPeer p.1 p.2 now st.1, AddNode st.2 p.1).

(** The table and the ring before the engine starts. *)
Definition setup_peers (nodeID advertise flag : string) (now : Z) : Membership Fn * Ring :=
  foldl (setup_peer now) (cluster_New nodeID advertise now, AddNode hashring_New nodeID) (parse_peers flag).

(** The loop of [membershipResolver.AddrFor]. *)
Fixpoint AddrFor_loop (ps : list Peer) (nodeID : string) : option string :=
  match ps with
  | [] => None
  | p :: ps => if decide (p_ID p = nodeID) then Some (p_Addr p) else AddrFor_loop ps nodeID
  end.
Definition membershipResolver_AddrFor (m : Membership Fn) (nodeID : string) : option string :=
  AddrFor_loop (Peers m) nodeID.

(** ** Lemmas *)

Lemma elem_of_Peers (m : Membership Fn) p :
  table_ok m → p ∈ Peers m ↔ peers m !! p_ID p = Some p.
Proof.
  intros [_ Hids]. unfold Peers. rewrite list_elem_of_fmap. split.
  - intros ([id q]&->&Hq%elem_of_map_to_list). cbn. by rewrite (Hids id q Hq).
  - intros Hp. exists (p_ID p, p). split; [done|]. by apply elem_of_map_to_list.
Qed.

(** The first peer of a snapshot that passes a test on its ID and more is the peer of
    that ID. *)
Lemma first_peer (m : Membership Fn) (P : Peer → Prop) `{∀ p, Decision (P p)} f n :
  table_ok m →
  (∀ p ps, f (p :: ps) n = if decide (p_ID p = n ∧ P p) then Some (p_Addr p) else f ps n) → f [] n = None →
  f (Peers m) n = match peers m !! n with Some p => if decide (P p) then Some (p_Addr p) else None | None => None end.
Proof.
  intros Hm Hcons Hnil.
  assert (∀ l, f l n = None ∧ (∀ p, p ∈ l → ¬ (p_ID p = n ∧ P p)) ∨
    ∃ p, p ∈ l ∧ p_ID p = n ∧ P p ∧ f l n = Some (p_Addr p)) as Hl.
  { intros l. induction l as [|p l IH]; [left; split; [done|set_solver]|]. rewrite Hcons. case_decide as HP.
    - right. exists p. split_and!; [by left|apply HP..|done].
    - destruct IH as [[-> Hno]|(q&?&?&?&->)]; [left; split; [done|set_solver]|right; exists q; set_solver]. }
  destruct (Hl (Peers m)) as [[-> Hno]|(p&Hp&Hid&HP&->)].
  - destruct (peers m !! n) as [p|] eqn:Hn; [|done]. case_decide as HP; [|done]. exfalso.
    destruct Hm as [Hself Hids]. pose proof (Hids n p Hn) as Hid.
    apply (Hno p); [|done]. apply elem_of_Peers; [done|]. by rewrite Hid.
  - apply elem_of_Peers in Hp; [|done]. rewrite Hid in Hp. rewrite Hp. by rewrite decide_True.
Qed.

(** The setup keeps the ring and the table in step. *)
Lemma setup_fold now ps (m : Membership Fn) r S :
  table_ok m → ring_repr r S → S = {[p_ID (self m)]} ∪ dom (peers m) →
  distinct_points (list_to_set ps.*1 ∪ S) →
  table_ok (foldl (setup_peer now) (m, r) ps).1 ∧
  self (foldl (setup_peer now) (m, r) ps).1 = self m ∧
  ring_repr (foldl (setup_peer now) (m, r) ps).2 (list_to_set ps.*1 ∪ S) ∧
  ∀ id, id ≠ p_ID (self m) →
    p_Addr <$> peers (foldl (setup_peer now) (m, r) ps).1 !! id =
    match p_Addr <$> peers m !! id with Some a => Some a | None => (list_to_map ps : gmap string string) !! id end.
Proof.
  revert m r S. induction ps as [|[i a] ps IH]; intros m r S Hm Hr HS Hd; cbn [foldl].
  { cbn in *. rewrite (left_id_L ∅ (∪)). split_and!; [done..|]. intros id _. rewrite lookup_empty.
    by destruct (p_Addr <$> peers m !! id). }
  change (setup_peer now (m, r) (i, a)) with (AddPeer i a now m, AddNode r i).
  assert (list_to_set ((i, a) :: ps).*1 ∪ S = list_to_set ps.*1 ∪ ({[i]} ∪ S)) as Hset.
  { cbn. rewrite (assoc_L (∪)). f_equal. by rewrite (comm_L (∪)). }
  rewrite Hset in Hd |- *.
  pose proof (mstep_table_ok (EvAddPeer i a now) m Hm) as Hm'. cbn [mstep snd] in Hm'.
  assert (self (AddPeer i a now m) = self m) as Hself.
  { unfold AddPeer. by repeat case_match. }
  assert (∀ id, id ≠ p_ID (self m) → p_Addr <$> peers (AddPeer i a now m) !! id =
    match p_Addr <$> peers m !! id with Some b => Some b | None => if decide (i = id) then Some a else None end) as Hp.
  { intros id Hid. pose proof (mstep_peer (EvAddPeer i a now) m id Hid) as Hst.
    cbn [mstep snd peer_step] in Hst. rewrite Hst.
    destruct (peers m !! id); [done|]. by case_decide. }
  destruct (IH (AddPeer i a now m) (AddNode r i) ({[i]} ∪ S)) as (Hm2&Hself2&Hr2&Hp2).
  - done.
  - apply ring_repr_AddNode; [done|]. eapply distinct_points_subset; [|exact Hd]. set_solver.
  - rewrite Hself, HS. unfold AddPeer. destruct (decide (i = p_ID (self m))) as [->|Hne]; [set_solver|].
    destruct (peers m !! i) as [q|] eqn:Hq.
    + apply elem_of_dom_2 in Hq. set_solver.
    + cbn [peers set_peers]. rewrite dom_insert_L. set_solver.
  - done.
  - split; [done|]. split; [congruence|]. split; [done|]. intros id Hid. rewrite Hp2 by congruence. rewrite Hp by done.
    destruct (p_Addr <$> peers m !! id); [done|].
    rewrite list_to_map_cons. destruct (decide (i = id)) as [->|Hne];
      [by rewrite lookup_insert_eq|by rewrite lookup_insert_ne].
Qed.

Lemma table_ok_New nodeID advertise now : table_ok (cluster_New (Fn := Fn) nodeID advertise now).
Proof. split; [done|]. intros id p. cbn. by rewrite lookup_empty. Qed.

Lemma AddrFor_lookup (m : Membership Fn) n :
  table_ok m → membershipResolver_AddrFor m n = p_Addr <$> peers m !! n.
Proof.
  intros Hm. unfold membershipResolver_AddrFor. rewrite (first_peer m (λ _, True)); [|done| |done].
  - by destruct (peers m !! n).
  - intros p ps. cbn [AddrFor_loop]. repeat case_decide; naive_solver.
Qed.

(** What the setup leaves: a well-formed table with the flag's addresses, and the ring of
    the node and the flag's IDs. *)
Lemma setup_peers_ok nodeID advertise flag now :
  let full := list_to_set (parse_peers flag).*1 ∪ {[nodeID]} in
  let st := setup_peers nodeID advertise flag now in
  distinct_points full →
  table_ok st.1 ∧ self st.1 = self (cluster_New (Fn := Fn) nodeID advertise now) ∧ ring_repr st.2 full ∧
  ∀ id, id ≠ nodeID → p_Addr <$> peers st.1 !! id = (list_to_map (parse_peers flag) : gmap string string) !! id.
Proof.
  intros full st Hd.
  destruct (setup_fold now (parse_peers flag) (cluster_New (Fn := Fn) nodeID advertise now)
    (AddNode hashring_New nodeID) {[nodeID]}) as (Hm&Hself&Hr&Hp).
  - apply table_ok_New.
  - rewrite <-(right_id_L ∅ (∪) {[nodeID]}). apply ring_repr_AddNode; [apply ring_repr_New|].
    eapply distinct_points_subset; [|exact Hd]. set_solver.
  - cbn. by rewrite dom_empty_L, (right_id_L ∅ (∪)).
  - done.
  - split_and!; [done..|]. intros id Hid. unfold st, setup_peers. rewrite Hp by done. cbn. by rewrite lookup_empty.
Qed.

(** Every replica target other than the node itself has the flag's address. *)
Lemma setup_addresses nodeID advertise flag now :
  distinct_points (list_to_set (parse_peers flag).*1 ∪ {[nodeID]}) →
  let st := setup_peers nodeID advertise flag now in
  (∀ n, membershipResolver_AddrFor st.1 n =
    if decide (n = nodeID) then None else (list_to_map (parse_peers flag) : gmap string string) !! n) ∧
  ∀ key n, n ∈ TargetsFor st.2 key → n ≠ nodeID → is_Some (membershipResolver_AddrFor st.1 n).
Proof.
  intros Hd st. destruct (setup_peers_ok nodeID advertise flag now Hd) as (Hm&Hself&Hr&Hp). fold st in Hm, Hself, Hr, Hp.
  assert (∀ n, membershipResolver_AddrFor st.1 n =
    if decide (n = nodeID) then None else (list_to_map (parse_peers flag) : gmap string string) !! n) as Haddr.
  { intros n. rewrite AddrFor_lookup by done. case_decide as Hn; [|by apply Hp].
    subst n. destruct Hm as [Hnone _]. rewrite Hself in Hnone. cbn in Hnone. by rewrite Hnone. }
  split; [done|]. intros key n Hn Hne. rewrite Haddr, decide_False by done.
  unfold TargetsFor in Hn. rewrite (GetN_preference _ _ _ _ Hr) in Hn.
  apply subseteq_take in Hn. apply (elem_of_preference _ _ _ _ Hr) in Hn.
  apply elem_of_union in Hn as [Hn|?%elem_of_singleton]; [|done].
  apply elem_of_list_to_set in Hn. apply list_elem_of_fmap in Hn as ([i a]&->&Hia).
  apply not_eq_None_Some. intros Hnone%not_elem_of_list_to_map. apply Hnone. apply list_elem_of_fmap.
  by exists (i, a).
Qed.

(** ** The theorems *)

(** After the setup the ring is that of the node and the IDs of the peers flag, and
    the engine's resolver gives exactly the flag's addresses, the first one of an ID
    named twice: every replica target other than the node itself has an address. *)
Theorem setup_in_step nodeID advertise flag now :
  distinct_points (list_to_set (parse_peers flag).*1 ∪ {[nodeID]}) →
  ring_repr (setup_peers nodeID advertise flag now).2 (list_to_set (parse_peers flag).*1 ∪ {[nodeID]}) ∧
  (∀ n, membershipResolver_AddrFor (setup_peers nodeID advertise flag now).1 n =
    if decide (n = nodeID) then None else (list_to_map (parse_peers flag) : gmap string string) !! n) ∧
  ∀ key n, n ∈ TargetsFor (setup_peers nodeID advertise flag now).2 key → n ≠ nodeID →
    is_Some (membershipResolver_AddrFor (setup_peers nodeID advertise flag now).1 n).
Proof.
  intros Hd. destruct (setup_peers_ok nodeID advertise flag now Hd) as (_&_&Hr&_).
  split; [exact Hr|]. by apply setup_addresses.
Qed.

(** The two address lookups of a node read the table alike, but the reads of
    [fetchChunk] skip a peer that is suspect or dead, while the pushes of the engine try
    it. *)
Theorem address_lookups (m : Membership Fn) n :
  table_ok m →
  membershipResolver_AddrFor m n = p_Addr <$> peers m !! n ∧
  addrForNode m n = (p ← peers m !! n; if decide (p_State p = StateAlive) then Some (p_Addr p) else None).
Proof.
  intros Hm. split; [by apply AddrFor_lookup|]. unfold addrForNode.
  rewrite (first_peer m (λ p, p_State p = StateAlive)); [done|done| |done].
  intros p ps. cbn [addrForNode_loop]. done.
Qed.
End setup.

(** ** The callbacks main registers *)

Inductive NodeCallback := RecHandleNodeDead | RecHandleNodeAlive.

Definition wire (m : Membership NodeCallback) : Membership NodeCallback :=
  OnNodeAlive RecHandleNodeAlive (OnNodeDead RecHandleNodeDead m).

Definition call_target (c : Call NodeCallback) : NodeCallback * string :=
  match c with CallDead fn id | CallAlive fn id => (fn, id) end.

(** One call of a callback, on the ring it shares; a death also starts a repair pass. *)
Definition run_call (m : Membership NodeCallback) (r : Ring) (c : Call NodeCallback) : Ring :=
  match call_target c with
  | (RecHandleNodeDead, id) => (HandleNodeDead id r).1
  | (RecHandleNodeAlive, id) =>
      let addr := default "" (membershipResolver_AddrFor m id) in HandleNodeAlive id addr r
  end.

(** A ping, and the calls it starts, run before the next ping. *)
Definition node_ping (st : Membership NodeCallback * Ring) (p : string * bool * Z) :
    Membership NodeCallback * Ring :=
  let '(m, r) := st in
  let '(id, healthy, now) := p in
  let '(calls, m) := pingPeer id healthy now m in (m, foldl (run_call m) r calls).

Definition ping_event (p : string * bool * Z) : MEvent := let '(id, healthy, now) := p in EvPing id healthy now.

(** The setup as events of the table. *)
Definition add_events (now : Z) (ps : list (string * string)) : list MEvent :=
  (λ p, EvAddPeer p.1 p.2 now) <$> ps.

Lemma wire_AddPeer i a now m : wire (AddPeer i a now m) = AddPeer i a now (wire m).
Proof. unfold AddPeer, wire. cbn. by repeat case_match. Qed.

Lemma setup_as_run now ps m r :
  wire (foldl (setup_peer now) (m, r) ps).1 = (mrun (add_events now ps) (wire m)).2.
Proof.
  revert m r. induction ps as [|[i a] ps IH]; intros m r; [done|]. cbn [foldl add_events fmap list_fmap].
  rewrite mrun_cons. cbn [snd mstep]. rewrite <-wire_AddPeer. apply IH.
Qed.

(** A node is on the ring of a view if it is the node itself or a peer not held dead. *)
Definition on_ring (m : Membership NodeCallback) (n : string) : Prop :=
  n = p_ID (self m) ∨ ∃ p, peers m !! n = Some p ∧ p_State p ≠ StateDead.

Section ring_follows.
Context (m0 : Membership NodeCallback) (full : gset string).
Context (Hfresh : peers m0 = ∅) (Hsuspect : suspectAfter m0 = (3 * Second)%Z).
Context (Hdead : deadAfter m0 = (9 * Second)%Z).
Context (HonDead : onDead m0 = [RecHandleNodeDead]) (HonAlive : onAlive m0 = [RecHandleNodeAlive]).
Context (Hfull : distinct_points full).

Lemma node_ping_ring evs id healthy now r S :
  clock_ok (evs ++ [EvPing id healthy now]) → table_ok (mrun evs m0).2 →
  dom (peers (mrun evs m0).2) ⊆ full →
  ring_repr r S → S ⊆ full → (∀ n, n ∈ S ↔ on_ring (mrun evs m0).2 n) →
  ∃ S', ring_repr (node_ping ((mrun evs m0).2, r) (id, healthy, now)).2 S' ∧ S' ⊆ full ∧
    ∀ n, n ∈ S' ↔ on_ring (node_ping ((mrun evs m0).2, r) (id, healthy, now)).1 n.
Proof.
  intros Hclock Htable Hdom Hr HS Hon.
  pose proof (λ Hid, ping_dead_stays m0 id Hid Hfresh Hsuspect Hdead evs now) as Hstays.
  pose proof (mrun_config evs m0) as (Hself&_&_&HD&HA).
  set (m := (mrun evs m0).2) in *. unfold node_ping, pingPeer.
  destruct (peers m !! id) as [p|] eqn:Hp; [|by exists S].
  assert (id ≠ p_ID (self m0)) as Hid.
  { intros ->. destruct Htable as [Hnone _]. rewrite Hself in Hnone. congruence. }
  specialize (Hstays Hid). rewrite HD, HA, HonDead, HonAlive. cbn [fmap list_fmap].
  set (p' := ping_peer_state m healthy now p) in *.
  assert (∀ n, on_ring (set_peers (<[id := p']> (peers m)) m) n ↔
    (n = id ∧ p_State p' ≠ StateDead) ∨ (n ≠ id ∧ on_ring m n)) as Hnew.
  { intros n. unfold on_ring. cbn [set_peers self peers]. rewrite Hself.
    destruct (decide (n = id)) as [->|Hne].
    - rewrite lookup_insert_eq. naive_solver.
    - rewrite lookup_insert_ne by done. naive_solver. }
  assert (id ∈ S ↔ p_State p ≠ StateDead) as HidS.
  { rewrite Hon. unfold on_ring. rewrite Hself, Hp. naive_solver. }
  assert (id ∈ full) as Hidf by (apply Hdom; by eapply elem_of_dom_2).
  destruct (decide (p_State p = StateDead)) as [Hpd|Hpd].
  - rewrite decide_False by naive_solver. destruct healthy.
    + rewrite decide_True by done. cbn [app foldl run_call call_target fst snd].
      exists ({[id]} ∪ S). split_and!; [|set_solver|].
      * apply ring_repr_AddNode; [done|]. eapply distinct_points_subset; [|exact Hfull]. set_solver.
      * intros n. rewrite Hnew, elem_of_union, elem_of_singleton, Hon. cbn [p' ping_peer_state p_State].
        unfold p', ping_peer_state. cbn [p_State].
        destruct (decide (n = id)); naive_solver.
    + specialize (Hstays p Hclock eq_refl). fold p' in Hstays.
      rewrite (decide_False (P := _ ∧ _)) by (rewrite (Hstays Hpd); naive_solver).
      cbn [app foldl]. exists S. split_and!; [done..|]. intros n. rewrite Hnew, (Hstays Hpd), Hon.
      assert (¬ on_ring m id) by (rewrite <-Hon; naive_solver). destruct (decide (n = id)); naive_solver.
  - rewrite (decide_False (P := p_State p = StateDead ∧ _)) by naive_solver.
    destruct (decide (p_State p' = StateDead)) as [Hpd'|Hpd'].
    + rewrite decide_True by done. cbn [app foldl run_call call_target fst snd HandleNodeDead].
      exists (S ∖ {[id]}). split_and!; [by apply ring_repr_RemoveNode|set_solver|].
      intros n. rewrite Hnew, elem_of_difference, elem_of_singleton, Hon. naive_solver.
    + rewrite decide_False by naive_solver. cbn [app foldl]. exists S. split_and!; [done..|].
      intros n. rewrite Hnew, Hon. assert (on_ring m id) by (apply Hon; naive_solver).
      destruct (decide (n = id)); naive_solver.
Qed.

Lemma node_ping_table evs p r :
  (node_ping ((mrun evs m0).2, r) p).1 = (mrun (evs ++ [ping_event p]) m0).2.
Proof.
  destruct p as [[id healthy] now]. rewrite mrun_snoc. cbn [snd ping_event mstep node_ping].
  by destruct (pingPeer id healthy now (mrun evs m0).2).
Qed.

Lemma node_run_ring evs pings r S :
  clock_ok (evs ++ (ping_event <$> pings)) → table_ok (mrun evs m0).2 →
  dom (peers (mrun evs m0).2) ⊆ full →
  ring_repr r S → S ⊆ full → (∀ n, n ∈ S ↔ on_ring (mrun evs m0).2 n) →
  ∃ S', ring_repr (foldl node_ping ((mrun evs m0).2, r) pings).2 S' ∧
    ∀ n, n ∈ S' ↔ on_ring (foldl node_ping ((mrun evs m0).2, r) pings).1 n.
Proof.
  revert evs r S. induction pings as [|[[id healthy] now] pings IH]; intros evs r S Hclock Htable Hdom Hr HS Hon.
  { by exists S. }
  cbn [foldl fmap list_fmap] in *.
  change (ping_event (id, healthy, now) :: (ping_event <$> pings))
    with ([EvPing id healthy now] ++ (ping_event <$> pings)) in Hclock.
  rewrite (assoc_L (++)) in Hclock.
  assert (clock_ok (evs ++ [EvPing id healthy now])) as Hclock1.
  { revert Hclock. unfold clock_ok. rewrite fmap_app. by intros (_&?&_)%StronglySorted_app. }
  destruct (node_ping_ring evs id healthy now r S Hclock1 Htable Hdom Hr HS Hon) as (S1&Hr1&HS1&Hon1).
  pose proof (node_ping_table evs (id, healthy, now) r) as Htab. cbn [ping_event] in Htab.
  destruct (node_ping ((mrun evs m0).2, r) (id, healthy, now)) as [m1 r1]. cbn [fst snd] in *. subst m1.
  apply (IH (evs ++ [EvPing id healthy now]) r1 S1); try done.
  - rewrite mrun_snoc. cbn [snd]. by apply mstep_table_ok.
  - rewrite mrun_snoc. cbn [snd mstep]. unfold pingPeer.
    destruct (peers (mrun evs m0).2 !! id) as [p|] eqn:Hp; [|done]. cbn [snd peers set_peers].
    rewrite dom_insert_L. apply elem_of_dom_2 in Hp. set_solver.
Qed.
End ring_follows.

(** The peers the setup adds are alive, heard of when they were added. *)
Lemma add_events_alive now ps (m : Membership NodeCallback) id p :
  peers m = ∅ → peers (mrun (add_events now ps) m).2 !! id = Some p → p_State p = StateAlive ∧ p_LastHeartbeat p = now.
Proof.
  intros Hm. unfold add_events. revert p. induction ps as [|[i a] ps IH] using rev_ind; intros p.
  { cbn. by rewrite Hm, lookup_empty. }
  rewrite fmap_app. cbn [fmap list_fmap]. rewrite mrun_snoc. cbn [snd mstep fst]. unfold AddPeer.
  case_decide; [apply IH|]. destruct (peers _ !! i) as [q|] eqn:Hq; [apply IH|].
  cbn [peers set_peers]. rewrite lookup_insert_Some. intros [[_ <-]|[_ Hp]]; [done|by apply IH].
Qed.

(** [C8] The ring follows the detector: after the setup and any sequence of pings, under a
    clock that does not go back and with the callbacks run in order, the ring of a node is
    exactly the ring of itself and the peers it does not hold dead. *)
Theorem ring_follows_detector nodeID advertise flag now pings :
  distinct_points (list_to_set (parse_peers flag).*1 ∪ {[nodeID]}) →
  clock_ok (add_events now (parse_peers flag) ++ (ping_event <$> pings)) →
  let st := setup_peers nodeID advertise flag now in
  let st' := foldl node_ping (wire st.1, st.2) pings in
  ∃ S, ring_repr st'.2 S ∧
    ∀ n, n ∈ S ↔ n = nodeID ∨ ∃ p, peers st'.1 !! n = Some p ∧ p_State p ≠ StateDead.
Proof.
  intros Hd Hclock. cbn zeta. set (full := list_to_set (parse_peers flag).*1 ∪ {[nodeID]}) in *.
  set (m0 := wire (cluster_New nodeID advertise now)).
  destruct (setup_peers_ok (Fn := NodeCallback) nodeID advertise flag now Hd) as (Hm&Hself&Hr&Hp).
  set (st := setup_peers nodeID advertise flag now) in *.
  assert (wire st.1 = (mrun (add_events now (parse_peers flag)) m0).2) as Hrun by apply setup_as_run.
  assert (peers (wire st.1) = peers st.1) as Hpeers by done.
  rewrite Hrun in *.
  destruct (node_run_ring m0 full eq_refl eq_refl eq_refl eq_refl eq_refl Hd
    (add_events now (parse_peers flag)) pings st.2 full) as (S&HS&Hon).
  - done.
  - rewrite <-Hrun. exact Hm.
  - rewrite Hpeers. intros n [p Hn]%elem_of_dom. unfold full.
    destruct (decide (n = nodeID)) as [->|Hne]; [set_solver|]. apply elem_of_union_l, elem_of_list_to_set.
    specialize (Hp n Hne). rewrite Hn in Hp. cbn in Hp.
    symmetry in Hp. apply elem_of_list_to_map_2 in Hp. apply list_elem_of_fmap. by exists (n, p_Addr p).
  - exact Hr.
  - done.
  - intros n. unfold on_ring. rewrite <-Hrun at 1. cbn [wire OnNodeAlive OnNodeDead self]. rewrite Hself.
    cbn [cluster_New self p_ID]. unfold full. rewrite elem_of_union, elem_of_singleton.
    destruct (decide (n = nodeID)) as [->|Hne]; [naive_solver|].
    specialize (Hp n Hne). rewrite Hpeers. split.
    + intros [Hn|?]; [|done]. right.
      destruct (peers st.1 !! n) as [p|] eqn:Hpn.
      * exists p. split; [done|]. destruct (add_events_alive now (parse_peers flag) m0 n p eq_refl) as [-> _]; [|done].
        by rewrite Hpeers.
      * exfalso. cbn in Hp. symmetry in Hp. apply not_elem_of_list_to_map in Hp. apply Hp.
        by apply elem_of_list_to_set in Hn.
    + intros [?|(p&Hpn&_)]; [done|]. left. rewrite Hpn in Hp. cbn in Hp. symmetry in Hp.
      apply elem_of_list_to_map_2 in Hp. apply elem_of_list_to_set, list_elem_of_fmap. by exists (n, p_Addr p).
  - exists S. split; [exact HS|]. intros n. rewrite Hon. unfold on_ring.
    assert (self (foldl node_ping ((mrun (add_events now (parse_peers flag)) m0).2, st.2) pings).1 = self m0)
      as ->; [|done].
    clear. generalize (add_events now (parse_peers flag)). generalize (st.2).
    induction pings as [|p pings IH]; intros r evs; cbn [foldl]; [apply mrun_config|].
    pose proof (node_ping_table m0 evs p r) as Ht.
    destruct (node_ping ((mrun evs m0).2, r) p) as [m1 r1]. cbn [fst] in Ht. subst m1. apply IH.
Qed.

(** ** Reading the flag back *)

Definition print_peer (p : string * string) : string := p.1 +:+ "=" +:+ p.2.
Fixpoint print_peers (ps : list (string * string)) : string :=
  match ps with
  | [] => ""
  | [p] => print_peer p
  | p :: ps => print_peer p +:+ "," +:+ print_peers ps
  end.

(** IDs and addresses that the flag's syntax can carry. *)
Definition plain_peer (p : string * string) : Prop :=
  has_char "=" p.1 = false ∧ has_char "," p.1 = false ∧ has_char "," p.2 = false ∧
  no_space p.1 ∧ no_space p.2.

Lemma no_space_print p : plain_peer p → no_space (print_peer p).
Proof.
  destruct p as [x y]. intros (_&_&_&Hx&Hy) c. unfold print_peer. cbn [fst snd] in *.
  rewrite !list_ascii_of_string_app, !elem_of_app. intros [?|[Hc|?]]; [by apply Hx| |by apply Hy].
  by apply list_elem_of_singleton in Hc as ->.
Qed.

Lemma parse_print_peer p : plain_peer p → parse_entry (print_peer p) = Some p.
Proof.
  intros Hp. pose proof (no_space_print p Hp) as Hns. destruct p as [x y]. unfold parse_entry, TrimSpace.
  rewrite TrimLeft_none, TrimRight_none by done. rewrite decide_False.
  - apply (SplitN2_first "=" x y). apply Hp.
  - unfold print_peer. cbn. by destruct x.
Qed.

Lemma has_char_print p : plain_peer p → has_char "," (print_peer p) = false.
Proof.
  destruct p as [x y]. intros (_&Hx&Hy&_). unfold print_peer. cbn [fst snd] in *.
  by rewrite !has_char_app, Hx, Hy.
Qed.

(** A list of peers written in the flag's syntax is read back as it was. *)
Theorem parse_print_peers ps : Forall plain_peer ps → parse_peers (print_peers ps) = ps.
Proof.
  unfold parse_peers. induction 1 as [|p ps Hp Hps IH]; [done|]. destruct ps as [|q ps].
  - cbn [print_peers]. rewrite Split_char_none by by apply has_char_print. cbn. by rewrite parse_print_peer.
  - change (print_peers (p :: q :: ps)) with (print_peer p +:+ String "," (print_peers (q :: ps))).
    rewrite Split_char_first by by apply has_char_print. cbn [omap list_omap].
    by rewrite parse_print_peer, IH.
Qed.

(** ** Chunk names and other names on the disk store *)

(** Every chunk name is a plain ID: hexadecimal, of 64 digits. *)
Lemma ID_plain d : plain_id (ID d).
Proof.
  with_strategy transparent [ID] unfold ID. split_and!.
  - rewrite hex_EncodeToString_length, sha256_Sum256_length. lia.
  - apply has_char_hex. intros n Hn. unfold hex_digit.
    destruct n as [|p]; [done|]. do 4 (destruct p as [p|p|]; try done; try lia).
  - apply has_char_hex. intros n Hn. unfold hex_digit.
    destruct n as [|p]; [done|]. do 4 (destruct p as [p|p|]; try done; try lia).
Qed.

Section disk_node.
Context {C W Fn : Type} `{Backend C, HTTPGetter W}.
Context (json_Manifest : Manifest → bytes) (json_Status : StatusReport → bytes).

(** A node with the disk store, opened on a fresh directory, never files data under
    a name that is not its SHA-256, whatever requests it serves: the plain names its
    pushes and uploads use are exactly those the disk store handles well. *)
Theorem disk_node_addressed dir fs l (s : Server LocalFS C Fn) rs (w : W) :
  NewLocalFS dir fs = Ok l →
  (∀ q d, q `prefix_of` dir → node_at fs q ≠ Some (File d)) → (∀ q, q ≠ [] → fs !! (dir ++ q) = None) →
  Local s = l →
  ∃ m, localfs_repr (Local (serve_all json_Manifest json_Status rs s w).1) m ∧ addressed m.
Proof.
  intros HN Hfile Hbelow Hlocal.
  destruct (NewLocalFS_empty dir fs Hfile Hbelow) as (l'&HN'&_&Hl').
  rewrite HN in HN'. injection HN' as <-.
  assert (store_ok s) as Hs.
  { exists ∅. rewrite Hlocal. split; [exact Hl'|]. intros id d. by rewrite lookup_empty. }
  clear -Hs. revert s w Hs. unfold serve_all.
  induction rs as [|[r rw] rs IH]; intros s w Hs; [exact Hs|]. cbn [foldl].
  pose proof (ServeHTTP_store_ok json_Manifest json_Status r rw s w ID_plain Hs) as Hs'.
  destruct (ServeHTTP json_Manifest json_Status r rw s w) as [[[rw1 jobs] s1] w1]. by apply IH.
Qed.

(** The chunk endpoint serves files outside the data directory: the name in a GET
    is not checked, an encoded slash keeps it one segment of the path, and the disk store
    follows its dot-dot components. *)
Theorem GetChunk_escapes_root (s : Server LocalFS C Fn) (w : W) :
  NewLocalFS ["data"; "chunks"] etc_disk = Ok (Local s) →
  (ServeHTTP json_Manifest json_Status
    (MkRequest "GET" ["internal"; "chunks"; "../../etc/passwd"] (MkReader [] io_EOF true))
    (MkResponseWriter None [] None) s w).1.1.1 = MkResponseWriter (Some 200%Z) [x72] None.
Proof.
  intros Hs. unfold ServeHTTP. cbn [r_Method r_Segments].
  change (Routes "GET" ["internal"; "chunks"; "../../etc/passwd"])
    with (inl (B := unit) (Some (GetChunk "../../etc/passwd"))).
  cbn [fst]. unfold handleGetChunk.
  assert (b_Get "../../etc/passwd" (Local s) = Ok [x72]) as ->; [|done].
  assert (NewLocalFS ["data"; "chunks"] etc_disk = Ok (MkLocalFS ["data"; "chunks"] etc_disk)) as Hopen
    by (apply (bool_decide_unpack _); by vm_compute).
  rewrite Hopen in Hs. injection Hs as <-. apply (bool_decide_unpack _). by vm_compute.
Qed.
End disk_node.

(** ** Witnesses *)

Definition demo_flag : string := "node-b=b:8080, node-c=c:8080,junk,node-b=late:1".

Example demo_parse :
  parse_peers demo_flag = [("node-b", "b:8080"); ("node-c", "c:8080"); ("node-b", "late:1")].
Proof. by vm_compute. Qed.

Lemma setup_in_step_witness :
  let st := setup_peers (Fn := string) "node-a" "a:8080" "node-b=b:8080" 0 in
  ring_repr st.2 (list_to_set (parse_peers "node-b=b:8080").*1 ∪ {["node-a"]}) ∧
  (∀ n, membershipResolver_AddrFor st.1 n =
    if decide (n = "node-a") then None
    else (list_to_map (parse_peers "node-b=b:8080") : gmap string string) !! n) ∧
  ∀ key n, n ∈ TargetsFor st.2 key → n ≠ "node-a" → is_Some (membershipResolver_AddrFor st.1 n).
Proof.
  apply (setup_in_step "node-a" "a:8080" "node-b=b:8080" 0).
  eapply distinct_points_subset; [|exact demo_distinct]. cbn. set_solver.
Defined.

(** node-b answers at 1 s, is silent at 11 s and leaves the ring. *)
Definition demo_pings : list (string * bool * Z) :=
  [("node-b", true, (1 * Second)%Z); ("node-b", false, (11 * Second)%Z)].

Lemma ring_follows_detector_witness :
  let st := setup_peers "node-a" "a:8080" "node-b=b:8080" 0 in
  let st' := foldl node_ping (wire st.1, st.2) demo_pings in
  ∃ S, ring_repr st'.2 S ∧
    ∀ n, n ∈ S ↔ n = "node-a" ∨ ∃ p, peers st'.1 !! n = Some p ∧ p_State p ≠ StateDead.
Proof.
  apply (ring_follows_detector "node-a" "a:8080" "node-b=b:8080" 0 demo_pings).
  - eapply distinct_points_subset; [|exact demo_distinct]. cbn. set_solver.
  - by clock.
Defined.

Lemma address_lookups_witness :
  let m := (mrun demo_evs demo_table).2 in
  membershipResolver_AddrFor m "node-c" = p_Addr <$> peers m !! "node-c" ∧
  addrForNode m "node-c" =
    (p ← peers m !! "node-c"; if decide (p_State p = StateAlive) then Some (p_Addr p) else None).
Proof.
  apply address_lookups. split; [by vm_compute|].
  intros id p Hp. assert (map_Forall (λ id p, p_ID p = id) (peers (mrun demo_evs demo_table).2)) as Hall
    by (apply (bool_decide_unpack _); by vm_compute).
  by apply Hall.
Defined.

Lemma parse_print_peers_witness :
  parse_peers (print_peers [("node-b", "b:8080"); ("node-c", "c:8080")]) =
    [("node-b", "b:8080"); ("node-c", "c:8080")].
Proof.
  apply parse_print_peers. repeat constructor; try done;
    intros c Hc; repeat (apply elem_of_cons in Hc as [->|Hc]; [done|]); by apply elem_of_nil in Hc.
Defined.

Definition demo_disk_node (l : LocalFS) : Server LocalFS Memory string :=
  NewServer "node-a" hashring_New l None demo_table (Start demo_engine) (recovery_New "node-a").

Lemma disk_node_addressed_witness :
  ∃ m, localfs_repr (Local (serve_all demo_json demo_json_status [(demo_upload, demo_rw)]
    (demo_disk_node (MkLocalFS ["data"] {[["data"] := Dir]})) nobody).1) m ∧ addressed m.
Proof.
  apply (disk_node_addressed demo_json demo_json_status ["data"] ∅ (MkLocalFS ["data"] {[["data"] := Dir]})).
  - done.
  - intros [|c q] d _; [done|]. cbn [node_at]. by rewrite lookup_empty.
  - intros q Hq. apply lookup_empty.
  - done.
Defined.

Lemma GetChunk_escapes_root_witness :
  (ServeHTTP demo_json demo_json_status
    (MkRequest "GET" ["internal"; "chunks"; "../../etc/passwd"] (MkReader [] io_EOF true))
    (MkResponseWriter None [] None) (demo_disk_node (MkLocalFS ["data"; "chunks"] etc_disk)) nobody).1.1.1 =
  MkResponseWriter (Some 200%Z) [x72] None.
Proof.
  apply GetChunk_escapes_root. apply (bool_decide_unpack _). by vm_compute.
Defined.
