(* ===== verification/Cluster.v ===== *)
(** * The nodes together

    A [Cluster] is the nodes by address, each a [Server] with an in-memory store, and the
    addresses that answer.  A request to an address is served by the handlers of
    Server.v on the node there, so the HTTP client and the [http.Get] of one node are the
    endpoints of another: the network is no longer a parameter.  A [View] is the cluster
    as one of its nodes reaches it through its membership table, the world in which its
    replication engine runs.

    The theorems: the transport of the cluster keeps the promise [TransportSpec]; a job is
    delivered to the whole of its replica set when that answers; a blob can be read from
    a node as long as one replica of each chunk can be reached; and, put together, a
    blob uploaded and replicated is read back in full after every failure that leaves a
    replica of each chunk, the uploading node's own store included in the loss. *)
From S2P Require Import Prelude GoLib GoIO Sha HashRing Placement Chunk Storage LocalFS Membership Replication WorkerPool Recovery Server Node.
From Stdlib Require Import Strings.Ascii.

Abbreviation node_server := (Server Memory Memory NodeCallback).

Record Cluster := MkCluster {
  cl_nodes : gmap string node_server;
  cl_up : gset string;
}.

(** The address and the path of a URL; no escapes, queries or fragments occur in the
    URLs that nodes build from addresses and chunk names. *)
Definition parse_url (url : string) : option (string * list string) :=
  if HasPrefix url "http://" && negb (has_char "%" url || has_char "?" url || has_char "#" url) then
    match Split_char "/" (TrimPrefix url "http://") with
    | addr :: segs => Some (addr, segs)
    | [] => None
    end
  else None.

Section cluster.
Context (json_Manifest : Manifest → bytes) (json_Status : StatusReport → bytes).

(** A request to an address: refused unless the node there is up. *)
Definition serve_at (addr : string) (r : Request) (cl : Cluster) : result ResponseWriter * Cluster :=
  match cl_nodes cl !! addr with
  | Some s =>
      if decide (addr ∈ cl_up cl) then
        let '(rw, _, s, _) := ServeHTTP json_Manifest json_Status r (MkResponseWriter None [] None) s nobody in
        (Ok rw, MkCluster (<[addr := s]> (cl_nodes cl)) (cl_up cl))
      else (Err (errors_New "connection refused"), cl)
  | None => (Err (errors_New "no such host"), cl)
  end.

Definition request_at (method url : string) (d : bytes) (cl : Cluster) : result ResponseWriter * Cluster :=
  match parse_url url with
  | Some (addr, segs) => serve_at addr (MkRequest method segs (MkReader [d] io_EOF true)) cl
  | None => (Err (errors_New "unsupported URL"), cl)
  end.

#[local] Instance Cluster_HTTPGetter : HTTPGetter Cluster := {|
  http_Get url cl :=
    let '(resp, cl) := request_at "GET" url [] cl in
    (match resp with
     | Ok rw => Ok (sent_status rw, MkReader [rw_body rw] io_EOF true)
     | Err err => Err err
     end, cl);
|}.

#[local] Instance Cluster_HTTPClient : HTTPClient Cluster := {|
  NewRequest_err _ _ := None;
  Client_Do method url d cl :=
    let '(resp, cl) := request_at method url d cl in
    (match resp with Ok rw => Ok (sent_status rw) | Err err => Err err end, cl);
|}.

(** The cluster as the node at [v_self] reaches it. *)
Record View := MkView {
  v_self : string;
  v_cluster : Cluster;
}.

#[local] Instance View_Transport : Transport View := {|
  PushChunk addr id d v :=
    let '(e, cl) := HTTPTransport_PushChunk addr id d (v_cluster v) in (e, MkView (v_self v) cl);
|}.

#[local] Instance View_AddrResolver : AddrResolver View := {|
  AddrFor n v :=
    s ← cl_nodes (v_cluster v) !! v_self v; membershipResolver_AddrFor (s_Membership s) n;
|}.

(** The context of the engine is not done while the node runs. *)
#[local] Instance View_Waiting : Waiting View := {| ctx_or_after _ v := (false, v); |}.

(** What the node at an address holds. *)
Definition node_data (cl : Cluster) (addr : string) : gmap string bytes :=
  match cl_nodes cl !! addr with Some s => data (Local s) | None => ∅ end.

(** ** Lemmas *)

(** A path through a separator that occurs nowhere else. *)
Lemma Split_char_app c x y :
  ∃ h t, Split_char c (x +:+ String c y) = h :: t ++ Split_char c y ∧
    (t = [] → x = h).
Proof.
  induction x as [|a x (h&t&IH&Hh)]; simpl.
  - rewrite decide_True by done. by exists "", [].
  - rewrite IH. case_decide as Ha.
    + exists "", (h :: t). by split.
    + exists (String a h), t. split; [done|]. intros ->. by rewrite Hh.
Qed.

Lemma Split_char_nonempty c s : Split_char c s ≠ [].
Proof. destruct s as [|a s]; simpl; [done|]. case_decide; [done|]. by destruct (Split_char c s). Qed.

Lemma Split_char_single c s x : Split_char c s = [x] → s = x ∧ has_char c s = false.
Proof.
  revert x. induction s as [|a s IH]; intros x; simpl; [by intros [= <-]|].
  pose proof (Split_char_nonempty c s) as Hne. case_decide as Ha.
  - intros [= _ Hs]. done.
  - destruct (Split_char c s) as [|h [|]]; [done| |done]. intros [= <-].
    destruct (IH h eq_refl) as [-> ->]. by rewrite bool_decide_eq_false_2.
Qed.

(** Where a push goes: to its address, under its name, or nowhere. *)
Lemma parse_push addr id addr' id' :
  parse_url (chunk_url addr id) = Some (addr', ["internal"; "chunks"; id']) → addr' = addr ∧ id' = id.
Proof.
  unfold parse_url, chunk_url. destruct (_ && _); [|done]. rewrite TrimPrefix_app.
  destruct (Split_char_app "/" addr ("internal/chunks/" +:+ id)) as (h&t&Hsplit&Ht).
  change (addr +:+ "/internal/chunks/" +:+ id) with (addr +:+ String "/" ("internal/chunks/" +:+ id)).
  rewrite Hsplit. change (Split_char "/" ("internal/chunks/" +:+ id))
    with ("internal" :: "chunks" :: Split_char "/" id).
  pose proof (Split_char_nonempty "/" id) as Hne.
  destruct t as [|x [|y [|z t]]]; cbn [app]; intros Heq.
  - injection Heq as <- Hid. apply Split_char_single in Hid as [-> _]. split; [|done]. symmetry. by apply Ht.
  - injection Heq as _ _ Hid _. discriminate Hid || (destruct (Split_char "/" id); done).
  - destruct (Split_char "/" id); done.
  - destruct t; done.
Qed.

(** The URL of a push to a plain address under a plain name. *)
Definition plain_url_part (s : string) : Prop :=
  has_char "/" s = false ∧ has_char "%" s = false ∧ has_char "?" s = false ∧ has_char "#" s = false.

Lemma parse_push_plain addr id :
  plain_url_part addr → plain_url_part id →
  parse_url (chunk_url addr id) = Some (addr, ["internal"; "chunks"; id]).
Proof.
  intros (Ha&Ha1&Ha2&Ha3) (Hi&Hi1&Hi2&Hi3). unfold parse_url, chunk_url.
  rewrite HasPrefix_app, !has_char_app, Ha1, Ha2, Ha3, Hi1, Hi2, Hi3. cbn [andb orb negb has_char].
  rewrite !bool_decide_eq_false_2 by done. cbn [andb orb negb]. rewrite TrimPrefix_app.
  change (addr +:+ "/internal/chunks/" +:+ id) with (addr +:+ String "/" ("internal/chunks/" +:+ id)).
  rewrite Split_char_first by done.
  change (Split_char "/" ("internal/chunks/" +:+ id)) with ("internal" :: "chunks" :: Split_char "/" id).
  by rewrite Split_char_none.
Qed.

Lemma plain_ID d : plain_url_part (ID d).
Proof.
  with_strategy transparent [ID] unfold ID. split_and!; apply has_char_hex; intros n Hn; unfold hex_digit;
    (destruct n as [|p]; [done|]; do 4 (destruct p as [p|p|]; try done; try lia)).
Qed.

Lemma Routes_PUT segs h :
  Routes "PUT" segs = inl (Some h) → h = MovedPermanently ∨ ∃ id, h = PutChunk id ∧ segs = ["internal"; "chunks"; id].
Proof.
  unfold Routes. repeat (case_match || case_decide); try done; intros [= <-]; eauto.
Qed.

Lemma ID_not_empty d : ID d ≠ "".
Proof. pose proof (ID_plain d) as (Hlen&_). intros Heq. rewrite Heq in Hlen. simpl in Hlen. lia. Qed.

(** The path of a chunk is clean. *)
Lemma chunk_path_clean d : is_clean ["internal"; "chunks"; ID d] = true.
Proof.
  pose proof (ID_plain d) as (_&_&Hdot). unfold is_clean. cbn [forallb removelast].
  rewrite (bool_decide_eq_true_2 (ID d ≠ "." ∧ ID d ≠ "..")); [reflexivity|].
  split; intros Heq; by rewrite Heq in Hdot.
Qed.

(** What serves a chunk. *)
Lemma Routes_chunk m d :
  Routes m ["internal"; "chunks"; ID d] =
  if decide (m = "PUT") then inl (Some (PutChunk (ID d))) else if is_get m then inl (Some (GetChunk (ID d))) else inr ().
Proof.
  unfold Routes. rewrite chunk_path_clean. cbn [negb andb].
  by rewrite decide_False by apply ID_not_empty.
Qed.

(** A store with one more chunk. *)
Definition with_chunk (id : string) (d : bytes) (s : node_server) : node_server :=
  set_Local (MkMemory (<[id := d]> (data (Local s)))) s.

(** A PUT served by a node: refused, or the chunk stored under its SHA-256. *)
Lemma serve_put segs d s :
  ∃ rw s', ServeHTTP json_Manifest json_Status (MkRequest "PUT" segs (MkReader [d] io_EOF true))
      (MkResponseWriter None [] None) s nobody = (rw, [], s', nobody) ∧
    ((s' = s ∧ (300 ≤ sent_status rw < 500)%Z ∧
       (∀ id, segs = ["internal"; "chunks"; id] → id ≠ "" → ID d ≠ id)) ∨
     (∃ id, segs = ["internal"; "chunks"; id] ∧ ID d = id ∧ s' = with_chunk id d s ∧ sent_status rw = 200%Z)).
Proof.
  unfold ServeHTTP. cbn [r_Method r_Segments].
  assert (Routes "PUT" segs ≠ inl (Some (PutChunk (ID d))) → ∀ id, segs = ["internal"; "chunks"; id] → id ≠ "" → ID d ≠ id) as Hno.
  { intros HR id -> _ <-. by rewrite Routes_chunk in HR. }
  destruct (Routes "PUT" segs) as [[h|]|] eqn:HR.
  - destruct (Routes_PUT segs h HR) as [->|(id&->&->)].
    { eexists _, _. split; [done|]. left. split_and!; [done|done|done|]. by apply Hno. }
    unfold handlePutChunk. cbn [r_Body]. rewrite ReadAll_spec. cbn [rd_err]. rewrite decide_True by done.
    change (content (MkReader [d] io_EOF true)) with (d ++ []). rewrite app_nil_r.
    destruct (Verify id d) eqn:HV; cbn [negb].
    + apply Verify_true in HV. eexists _, _. split; [done|]. right. by exists id.
    + eexists _, _. split; [done|]. left. split_and!; [done|done|done|].
      intros id' [= <-] _. by apply bool_decide_eq_false in HV.
  - eexists _, _. split; [done|]. left. split_and!; [done|done|done|]. by apply Hno.
  - eexists _, _. split; [done|]. left. split_and!; [done|done|done|]. by apply Hno.
Qed.

(** A push: nothing happens and an error comes back, or the chunk is stored at its
    address, which was up, under its SHA-256. *)
Lemma push_step addr id d v e v' :
  PushChunk addr id d v = (e, v') →
  (e ≠ None ∧ v' = v) ∨
  (e = None ∧ ID d = id ∧ ∃ s, cl_nodes (v_cluster v) !! addr = Some s ∧ addr ∈ cl_up (v_cluster v) ∧
    v' = MkView (v_self v)
      (MkCluster (<[addr := with_chunk id d s]> (cl_nodes (v_cluster v))) (cl_up (v_cluster v)))).
Proof.
  destruct v as [me [ns up]]. unfold PushChunk, View_Transport, HTTPTransport_PushChunk. cbn [v_self v_cluster].
  unfold NewRequest_err, Client_Do, Cluster_HTTPClient, request_at.
  destruct (parse_url (chunk_url addr id)) as [[addr' segs]|] eqn:Hurl; [|intros [= <- <-]; by left].
  unfold serve_at. cbn [cl_nodes cl_up].
  destruct (ns !! addr') as [s|] eqn:Hs; [|intros [= <- <-]; by left].
  destruct (decide (addr' ∈ up)) as [Hup|Hup]; [|intros [= <- <-]; by left].
  destruct (serve_put segs d s) as (rw&s'&->&[(->&Hst&_)|(id'&->&HID&->&Hst)]).
  - intros [= <- <-]. left. split; [|by rewrite insert_id].
    intros (st&[= <-]&?)%(proj1 (push_answered_None addr id (Ok (sent_status rw)))). lia.
  - apply parse_push in Hurl as [-> ->]. rewrite Hst. cbn. intros [= <- <-]. right.
    split_and!; [done|done|]. by exists s.
Qed.

Lemma push_up addr d v s :
  plain_url_part addr → cl_nodes (v_cluster v) !! addr = Some s → addr ∈ cl_up (v_cluster v) →
  ∃ v', PushChunk addr (ID d) d v = (None, v').
Proof.
  destruct v as [me [ns up]]. cbn [v_cluster cl_nodes cl_up]. intros Haddr Hs Hup.
  unfold PushChunk, View_Transport, HTTPTransport_PushChunk. cbn [v_self v_cluster].
  unfold NewRequest_err, Client_Do, Cluster_HTTPClient, request_at.
  rewrite parse_push_plain by (done || apply plain_ID). unfold serve_at. cbn [cl_nodes cl_up].
  rewrite Hs, decide_True by done.
  destruct (serve_put ["internal"; "chunks"; ID d] d s) as (rw&s'&->&[(_&_&Hno)|(id'&_&_&_&->)]).
  - destruct (Hno (ID d)); [done| |done]. intros Hid. pose proof (ID_plain d) as (Hlen&_).
    rewrite Hid in Hlen. simpl in Hlen. lia.
  - by eexists.
Qed.

#[local] Program Instance View_TransportSpec : TransportSpec View := {|
  held v addr := node_data (v_cluster v) addr;
|}.
Next Obligation.
  intros addr id d v v' [[? _]|(_&_&s&Hs&_&->)]%push_step; [done|].
  unfold node_data. cbn. rewrite lookup_insert_eq. cbn. by rewrite lookup_insert_eq.
Qed.
Next Obligation.
  intros addr id d v e v' a i x [[_ ->]|(_&_&s&Hs&_&->)]%push_step; [by left|].
  unfold node_data. cbn. destruct (decide (a = addr)) as [->|Hne].
  - rewrite Hs, lookup_insert_eq. cbn. destruct (decide (i = id)) as [->|Hni].
    + intros _. right. by rewrite lookup_insert_eq.
    + rewrite lookup_insert_ne by done. by left.
  - rewrite lookup_insert_ne by done. by left.
Qed.
Next Obligation.
  intros addr id d v e v' n [[_ ->]|(_&_&s&Hs&_&->)]%push_step; [done|].
  unfold AddrFor, View_AddrResolver. cbn. destruct (decide (v_self v = addr)) as [->|Hne].
  - by rewrite lookup_insert_eq, Hs.
  - by rewrite lookup_insert_ne.
Qed.
Next Obligation. by intros t v b v' a [= <- <-]. Qed.
Next Obligation. by intros t v b v' n [= <- <-]. Qed.

(** ** Delivery *)

(** A replica that the viewing node can push to. *)
Definition reachable (v : View) (n : string) : Prop :=
  ∃ addr, AddrFor n v = Some addr ∧ plain_url_part addr ∧ addr ∈ cl_up (v_cluster v) ∧
    is_Some (cl_nodes (v_cluster v) !! addr).

(** A push changes neither what can be reached nor who is where. *)
Lemma push_reachable addr id d v e v' n :
  PushChunk addr id d v = (e, v') → reachable v n → reachable v' n.
Proof.
  intros HP (a&Ha&Hplain&Hup&[s Hs]). pose proof (PushChunk_addrs _ _ _ _ _ _ n HP) as Haddr.
  apply push_step in HP as [[_ ->]|(_&_&s'&Hs'&_&->)]; [by exists a; eauto|].
  exists a. split; [congruence|]. split_and!; [apply Hplain..|done|]. cbn.
  destruct (decide (addr = a)) as [->|Hne]; [rewrite lookup_insert_eq; eauto|].
  rewrite lookup_insert_ne by done. eauto.
Qed.

Lemma replicate_loop_up e d targets v :
  (∀ n, n ∈ targets → n ≠ e_selfID e → reachable v n) →
  ∀ a o, (a, o) ∈ (replicate_loop e (MkJob (ID d) d) targets v).1 → o = Pushed.
Proof.
  revert v. induction targets as [|t targets IH]; intros v Hreach a o; cbn [replicate_loop].
  { cbn. by intros ?%elem_of_nil. }
  case_decide as Ht; [apply IH; set_solver|].
  destruct (Hreach t) as (addr&Haddr&Hplain&Hup&[s Hs]); [by left|done|]. rewrite Haddr.
  destruct (push_up addr d v s Hplain Hs Hup) as [v1 HP].
  assert (pushWithRetry e addr (MkJob (ID d) d) v = (Pushed, v1)) as ->.
  { unfold pushWithRetry. rewrite Nat.add_1_r. cbn [pushWithRetry_loop Nat.ltb Nat.leb j_ChunkID j_Data].
    by rewrite HP. }
  pose proof (IH v1) as IH1. destruct (replicate_loop e (MkJob (ID d) d) targets v1) as [os v2].
  cbn [fst] in *. intros [[= _ ->]|Ho]%elem_of_cons; [done|].
  apply (IH1) with (a := a); [|done]. intros n Hn Hne. eapply push_reachable; [exact HP|].
  apply Hreach; [by right|done].
Qed.

Lemma deliver_job e r d v :
  (∀ n, n ∈ TargetsFor r (ID d) → n ≠ e_selfID e → reachable v n) →
  ∀ n addr, n ∈ TargetsFor r (ID d) → n ≠ e_selfID e → AddrFor n v = Some addr →
    node_data (v_cluster (replicate e r (MkJob (ID d) d) v).2) addr !! ID d = Some d.
Proof.
  intros Hreach n addr Hn Hne Haddr. pose proof (replicate_loop_up e d _ v Hreach) as Hall.
  unfold replicate. cbn [j_ChunkID]. change (GetN r (ID d) Factor) with (TargetsFor r (ID d)).
  destruct (replicate_loop e (MkJob (ID d) d) (TargetsFor r (ID d)) v) as [os v'] eqn:HR.
  apply replicate_loop_spec in HR as (Hos&Hd&_&_). cbn [fst snd] in *.
  apply (Hd addr). assert (addr ∈ os.*1) as Hin.
  { rewrite Hos. apply list_elem_of_omap. exists n. by rewrite list_elem_of_filter. }
  apply list_elem_of_fmap in Hin as ([a o]&->&Ho). by rewrite (Hall _ _ Ho) in Ho.
Qed.

(** ** Reads *)

(** A GET changes nothing. *)
Lemma serve_get segs (s : node_server) :
  ∃ rw, ServeHTTP json_Manifest json_Status (MkRequest "GET" segs (MkReader [[]] io_EOF true))
      (MkResponseWriter None [] None) s nobody = (rw, [], s, nobody).
Proof.
  unfold ServeHTTP. cbn [r_Method r_Segments].
  destruct (Routes "GET" segs) as [[[| |id|id| | |]|]|] eqn:HR; try by eexists.
  - exfalso. revert HR. unfold Routes. repeat (case_match || case_decide); try done.
  - destruct (handleDownloadBlob _ _ _ _) as [[rw er] []]. by eexists.
  - exfalso. revert HR. unfold Routes. repeat (case_match || case_decide); try done.
Qed.

Lemma http_Get_keeps url cl : (http_Get url cl).2 = cl.
Proof.
  destruct cl as [ns up]. unfold http_Get, Cluster_HTTPGetter, request_at, serve_at.
  destruct (parse_url url) as [[addr segs]|]; [|done]. cbn [cl_nodes cl_up].
  destruct (ns !! addr) as [s|] eqn:Hs; [|done]. case_decide; [|done].
  destruct (serve_get segs s) as [rw ->]. cbn. by rewrite insert_id.
Qed.

(** What a peer at a plain address serves under a chunk name. *)
Lemma served_at addr d cl :
  plain_url_part addr →
  served (http_Get (chunk_url addr (ID d)) cl).1 =
    if decide (addr ∈ cl_up cl) then node_data cl addr !! ID d else None.
Proof.
  intros Haddr. destruct cl as [ns up]. unfold http_Get, Cluster_HTTPGetter, request_at, node_data.
  rewrite parse_push_plain by (done || apply plain_ID). unfold serve_at. cbn [cl_nodes cl_up].
  destruct (ns !! addr) as [s|]; [|by case_decide].
  destruct (decide (addr ∈ up)) as [Hup|]; [|done].
  unfold ServeHTTP. cbn [r_Method r_Segments]. rewrite Routes_chunk.
  rewrite decide_False by done. change (is_get "GET") with true. cbn iota.
  unfold handleGetChunk. change (b_Get (ID d) (Local s)) with (Memory_Get (ID d) (Local s)). unfold Memory_Get.
  destruct (data (Local s) !! ID d) as [x|]; [|done]. cbn. rewrite ReadAll_spec. cbn.
  rewrite app_nil_r. done.
Qed.

(** A store that holds, under the names of the given chunks, their data or nothing. *)
Definition truthful (cs : list Chunk) (m : gmap string bytes) : Prop :=
  ∀ c d, c ∈ cs → m !! ck_ID c = Some d → d = ck_Data c.

(** A replica of a chunk that the node of [s] can read in the cluster. *)
Definition readable (cl : Cluster) (s : node_server) (c : Chunk) : Prop :=
  data (Local s) !! ck_ID c = Some (ck_Data c) ∨
  ∃ n addr, n ∈ TargetsFor (s_Ring s) (ck_ID c) ∧ n ≠ SelfID s ∧
    addrForNode (s_Membership s) n = Some addr ∧ addr ∈ cl_up cl ∧
    node_data cl addr !! ck_ID c = Some (ck_Data c).

Section read.
Context (cl : Cluster) (s : node_server) (cs : list Chunk).
Context (Hnamed : Forall (λ c, ck_ID c = ID (ck_Data c)) cs).
Context (Hplain : ∀ n addr, addrForNode (s_Membership s) n = Some addr → plain_url_part addr).
Context (Hlocal : truthful cs (data (Local s))) (Hothers : ∀ addr, truthful cs (node_data cl addr)).
Context (Hcold : ∀ cold, Cold s = Some cold → truthful cs (data cold)).

Lemma fetch_readable c :
  c ∈ cs → readable cl s c → fetchChunk s (ck_ID c) cl = (Ok (ck_Data c), cl).
Proof.
  intros Hc Hread. pose proof Hnamed as Hn. rewrite Forall_forall in Hn. specialize (Hn c Hc).
  destruct (fetchChunk_eq s (ck_ID c) cl (λ w, w = cl) (λ url, (http_Get url cl).1)) as [Heq Hw];
    [intros url w ->; split; [done|apply http_Get_keeps]|done|].
  rewrite (surjective_pairing (fetchChunk s (ck_ID c) cl)), Hw, Heq. f_equal. clear Heq Hw.
  change (b_Get (ck_ID c) (Local s)) with (Memory_Get (ck_ID c) (Local s)). unfold Memory_Get.
  destruct (data (Local s) !! ck_ID c) as [d|] eqn:Hd; [by rewrite (Hlocal c d Hc Hd)|].
  destruct Hread as [Hread|(n&addr&Hnt&Hne&Haddr&Hup&Hdata)]; [congruence|].
  set (f := λ n, addr ← addrForNode (s_Membership s) n; served (http_Get (chunk_url addr (ck_ID c)) cl).1).
  set (l := filter (λ n, n ≠ SelfID s) (TargetsFor (s_Ring s) (ck_ID c))).
  change (match head (omap f l) with
    | Some d => Ok d
    | None => match (cold ← Cold s; match b_Get (ck_ID c) cold with Ok d => Some d | Err _ => None end) with
              | Some d => Ok d | None => Err ErrNotFound end
    end = Ok (ck_Data c)).
  assert (∀ a, plain_url_part a → served (http_Get (chunk_url a (ck_ID c)) cl).1 =
    if decide (a ∈ cl_up cl) then node_data cl a !! ck_ID c else None) as Hserved.
  { intros a Ha. rewrite Hn. by apply served_at. }
  assert (ck_Data c ∈ omap f l) as Hin.
  { apply list_elem_of_omap. exists n. split; [by apply list_elem_of_filter|]. unfold f.
    rewrite Haddr. cbn [mbind option_bind]. by rewrite Hserved, decide_True by eauto. }
  assert (∀ d, d ∈ omap f l → d = ck_Data c) as Hall.
  { intros d (n'&_&Hf)%list_elem_of_omap. unfold f in Hf.
    destruct (addrForNode (s_Membership s) n') as [a|] eqn:Ha; [|done]. cbn [mbind option_bind] in Hf.
    rewrite Hserved in Hf by eauto. case_decide; [|done]. by eapply Hothers. }
  destruct (omap f l) as [|d ds]; [by apply elem_of_nil in Hin|]. cbn. f_equal. apply Hall. by left.
Qed.

Lemma download_readable r blob body manifest :
  (Z.of_nat (length (content body)) < 2 ^ 63)%Z →
  Split blob body DefaultSize = Ok (cs, manifest) → manifests s !! blob_id r = Some manifest →
  (∀ c, c ∈ cs → readable cl s c) →
  ∃ rw, handleDownloadBlob r (MkResponseWriter None [] None) s cl = (rw, None, cl) ∧
    sent_status rw = 200%Z ∧ rw_body rw = content body.
Proof.
  intros Hlen HS Hman Hread. unfold handleDownloadBlob. fold (blob_id r). rewrite Hman.
  rewrite Split_eq in HS by done. case_decide; [|done]. injection HS as Hcs <-.
  set (ds := chop _ _) in *. unfold Reassemble. cbn [ChunkIDs].
  destruct (Reassemble_loop_complete (fetchChunk s) (λ rw, rw_room rw = None ∧ sent_status rw = 200%Z)
    (λ w, w = cl) ds (MkResponseWriter None [] None) cl) as (rw&w&HR&Hout&[_ Hst]&->); [| |done|done|].
  - intros rw b [Hroom Hst]. destruct (rw_Write_room rw b Hroom) as (rw1&HW&?&?&?).
    exists rw1. cbn. split_and!; [done|done|congruence].
  - intros d w Hd ->. destruct (number_elem 0 ds d Hd) as (c&Hc&<-&<-). rewrite Hcs in Hc.
    exists cl. split; [|done]. apply fetch_readable; auto.
  - rewrite HR. exists rw. split_and!; [done|done|]. cbn in Hout. rewrite Hout. unfold ds.
    apply chop_concat. pose proof (chunk_size_pos DefaultSize). lia.
Qed.
End read.

(** Availability: a node that has the manifest of a blob serves the blob in full as
    long as every chunk is in its own store or with one member of its replica set that
    is up and held alive - whatever has become of all the others - provided that no
    store has other data under the name of one of the chunks. *)
Theorem download_available cl s r blob body cs manifest :
  (Z.of_nat (length (content body)) < 2 ^ 63)%Z →
  Split blob body DefaultSize = Ok (cs, manifest) → manifests s !! blob_id r = Some manifest →
  (∀ n addr, addrForNode (s_Membership s) n = Some addr → plain_url_part addr) →
  truthful cs (data (Local s)) → (∀ addr, truthful cs (node_data cl addr)) →
  (∀ cold, Cold s = Some cold → truthful cs (data cold)) →
  (∀ c, c ∈ cs → readable cl s c) →
  ∃ rw, handleDownloadBlob r (MkResponseWriter None [] None) s cl = (rw, None, cl) ∧
    sent_status rw = 200%Z ∧ rw_body rw = content body.
Proof.
  intros Hlen HS Hman Hplain Hl Ho Hc Hread.
  pose proof (Split_named _ _ _ _ _ HS) as [Hnamed _]. by eapply download_readable.
Qed.

(** ** Upload, replicate, lose, read *)

(** The jobs of an upload worked off one after the other. *)
Definition deliver_all (e : Engine) (r : Ring) (jobs : list Job) (v : View) : View :=
  foldl (λ v job, (replicate e r job v).2) v jobs.

Lemma node_data_push addr id d v e v' a :
  PushChunk addr id d v = (e, v') →
  node_data (v_cluster v') a = node_data (v_cluster v) a ∨
  node_data (v_cluster v') a = <[id := d]> (node_data (v_cluster v) a).
Proof.
  intros [[_ ->]|(_&_&s&Hs&_&->)]%push_step; [by left|]. unfold node_data. cbn.
  destruct (decide (addr = a)) as [->|Hne].
  - right. by rewrite lookup_insert_eq, Hs.
  - left. by rewrite lookup_insert_ne.
Qed.

Lemma replicate_loop_inv (P : View → Prop) e job targets v :
  (∀ addr v e v', PushChunk addr (j_ChunkID job) (j_Data job) v = (e, v') → P v → P v') →
  P v → P (replicate_loop e job targets v).2.
Proof.
  intros HP. revert v. induction targets as [|t targets IH]; intros v Hv; cbn [replicate_loop]; [done|].
  case_decide; [by apply IH|]. destruct (AddrFor t v) as [addr|]; [|by apply IH].
  assert (∀ n attempt err v, P v → P (pushWithRetry_loop e addr job n attempt err v).2) as Hpush.
  { induction n as [|n IHn]; intros attempt err v0 Hv0; cbn [pushWithRetry_loop]; [done|].
    assert ((if (0 <? attempt)%nat then ctx_or_after (backoff e attempt) v0 else (false, v0)) = (false, v0)) as ->
      by by destruct (0 <? attempt)%nat.
    destruct (PushChunk addr (j_ChunkID job) (j_Data job) v0) as [[er|] v1] eqn:Hp; cbn [snd];
      [apply IHn|]; by eapply HP. }
  specialize (Hpush (e_maxRetries e + 1) 0 None v Hv). unfold pushWithRetry.
  destruct (pushWithRetry_loop e addr job (e_maxRetries e + 1) 0 None v) as [o v1]. cbn [snd] in Hpush.
  specialize (IH v1 Hpush). by destruct (replicate_loop e job targets v1) as [os v2].
Qed.

Lemma replicate_reachable e r job v n : reachable v n → reachable (replicate e r job v).2 n.
Proof.
  apply (replicate_loop_inv (λ v, reachable v n)). intros addr v0 er v0' HP. by eapply push_reachable.
Qed.

Lemma replicate_addr e r job v n : AddrFor n (replicate e r job v).2 = AddrFor n v.
Proof.
  apply (replicate_loop_inv (λ v', AddrFor n v' = AddrFor n v)); [|done].
  intros addr v0 er v0' HP <-. by eapply PushChunk_addrs.
Qed.

Lemma deliver_all_inv (P : View → Prop) e r jobs v :
  (∀ addr id d v e v', PushChunk addr id d v = (e, v') → P v → P v') → P v → P (deliver_all e r jobs v).
Proof.
  intros HP. unfold deliver_all. revert v. induction jobs as [|job jobs IH]; intros v Hv; [done|]. cbn [foldl].
  apply IH. unfold replicate. apply (replicate_loop_inv P); [|done]. intros addr v0 e0 v0'. apply HP.
Qed.

(** Deliveries change stores and nothing else. *)
Definition same_nodes (v v' : View) : Prop :=
  v_self v' = v_self v ∧ cl_up (v_cluster v') = cl_up (v_cluster v) ∧
  ∀ a s, cl_nodes (v_cluster v) !! a = Some s → ∃ l, cl_nodes (v_cluster v') !! a = Some (set_Local l s).

Lemma set_Local_same (s : node_server) : set_Local (Local s) s = s.
Proof. by destruct s. Qed.

Lemma same_nodes_refl v : same_nodes v v.
Proof. split_and!; [done..|]. intros a s Hs. exists (Local s). by rewrite Hs, set_Local_same. Qed.

#[export] Instance same_nodes_preorder : PreOrder same_nodes.
Proof.
  split; [intros v; apply same_nodes_refl|]. intros v1 v2 v3 (Hs&Hu&Hn) (Hs'&Hu'&Hn'). split; [congruence|]. split; [congruence|].
  intros a s Ha. destruct (Hn a s Ha) as [l Hl]. destruct (Hn' _ _ Hl) as [l' Hl']. by exists l'.
Qed.

Lemma deliver_same e r jobs v : same_nodes v (deliver_all e r jobs v).
Proof.
  apply (deliver_all_inv (same_nodes v)); [|apply same_nodes_refl].
  intros addr id d v0 er v' HP (Hself&Hup&Hn). apply push_step in HP as [[_ ->]|(_&_&s0&Hs0&_&->)]; [done|].
  split_and!; [done..|]. intros a s Hs. destruct (Hn a s Hs) as [l Hl]. cbn.
  destruct (decide (a = addr)) as [->|Hne]; [|rewrite lookup_insert_ne by done; eauto].
  rewrite Hl in Hs0. injection Hs0 as <-. rewrite lookup_insert_eq. by eexists.
Qed.

Section deliver_all.
Context (cs : list Chunk) (e : Engine) (r : Ring).
Context (Hinj : ∀ c1 c2, c1 ∈ cs → c2 ∈ cs → ck_ID c1 = ck_ID c2 → ck_Data c1 = ck_Data c2).
Context (Hnamed : ∀ c, c ∈ cs → ck_ID c = ID (ck_Data c)).

(** A job that has, if it names one of the chunks, its data. *)
Definition honest (job : Job) : Prop := ∀ c, c ∈ cs → ck_ID c = j_ChunkID job → ck_Data c = j_Data job.

Lemma honest_chunk c : c ∈ cs → honest (job_of_chunk c).
Proof. intros Hc c' Hc' Heq. by apply Hinj. Qed.

Lemma replicate_truthful job v :
  honest job → (∀ a, truthful cs (node_data (v_cluster v) a)) →
  ∀ a, truthful cs (node_data (v_cluster (replicate e r job v).2) a).
Proof.
  intros Hjob Hv. apply (replicate_loop_inv (λ v, ∀ a, truthful cs (node_data (v_cluster v) a))); [|done].
  intros addr v0 er v0' HP Hv0 a. destruct (node_data_push _ _ _ _ _ _ a HP) as [-> | ->]; [done|].
  intros c d Hc [[Heq <-]|[_ Hd]]%lookup_insert_Some; [symmetry; by apply Hjob|by eapply Hv0].
Qed.

Lemma replicate_keeps c job v a :
  c ∈ cs → honest job → node_data (v_cluster v) a !! ck_ID c = Some (ck_Data c) →
  node_data (v_cluster (replicate e r job v).2) a !! ck_ID c = Some (ck_Data c).
Proof.
  intros Hc Hjob. apply (replicate_loop_inv (λ v, node_data (v_cluster v) a !! ck_ID c = Some (ck_Data c))).
  intros addr v0 er v0' HP Hv0. destruct (node_data_push _ _ _ _ _ _ a HP) as [-> | ->]; [done|].
  apply lookup_insert_Some. destruct (decide (j_ChunkID job = ck_ID c)) as [Heq|]; [left|by right].
  split; [done|]. symmetry. by apply Hjob.
Qed.

(** Jobs delivered leave no store with other data under the name of a chunk, take none
    away, and where the replica sets can be reached leave each chunk with its whole one. *)
Lemma deliver_jobs_spec jobs v :
  (∀ job, job ∈ jobs → honest job) → (∀ a, truthful cs (node_data (v_cluster v) a)) →
  (∀ a, truthful cs (node_data (v_cluster (deliver_all e r jobs v)) a)) ∧
  (∀ c a, c ∈ cs → node_data (v_cluster v) a !! ck_ID c = Some (ck_Data c) →
    node_data (v_cluster (deliver_all e r jobs v)) a !! ck_ID c = Some (ck_Data c)) ∧
  ((∀ job n, job ∈ jobs → n ∈ TargetsFor r (j_ChunkID job) → n ≠ e_selfID e → reachable v n) →
   ∀ c n addr, c ∈ cs → job_of_chunk c ∈ jobs → n ∈ TargetsFor r (ck_ID c) → n ≠ e_selfID e → AddrFor n v = Some addr →
    node_data (v_cluster (deliver_all e r jobs v)) addr !! ck_ID c = Some (ck_Data c)).
Proof.
  unfold deliver_all. revert v. induction jobs as [|job jobs IH]; intros v Hl Hv.
  { split; [done|]. split; [done|]. by intros _ c n addr _ ?%elem_of_nil. }
  cbn [foldl]. set (v1 := (replicate e r job v).2). assert (honest job) as Hjob by (apply Hl; by left).
  destruct (IH v1) as (Htr&Hkeep&Hdel); [set_solver|by apply replicate_truthful|].
  split; [done|]. split.
  - intros c a Hc Hd. apply Hkeep; [done|]. by apply replicate_keeps.
  - intros Hreach c n addr Hc [<-|Hj]%elem_of_cons Hn Hne Haddr.
    + apply Hkeep; [done|]. unfold v1, job_of_chunk. rewrite (Hnamed c Hc) in Hn |- *.
      apply (deliver_job e r (ck_Data c) v) with (n := n); [|done..].
      intros n' Hn' Hne'. apply (Hreach (job_of_chunk c)); [by left|by cbn; rewrite (Hnamed c Hc)|done].
    + apply (Hdel) with (n := n); [|done..|unfold v1; by rewrite replicate_addr].
      intros job' n' Hj' Hn' Hne'. apply replicate_reachable. apply (Hreach job'); [by right|done..].
Qed.

Lemma deliver_all_spec l v :
  (∀ c, c ∈ l → c ∈ cs) → (∀ a, truthful cs (node_data (v_cluster v) a)) →
  (∀ c n, c ∈ l → n ∈ TargetsFor r (ck_ID c) → n ≠ e_selfID e → reachable v n) →
  (∀ a, truthful cs (node_data (v_cluster (deliver_all e r (job_of_chunk <$> l) v)) a)) ∧
  (∀ c a, c ∈ cs → node_data (v_cluster v) a !! ck_ID c = Some (ck_Data c) →
    node_data (v_cluster (deliver_all e r (job_of_chunk <$> l) v)) a !! ck_ID c = Some (ck_Data c)) ∧
  (∀ c n addr, c ∈ l → n ∈ TargetsFor r (ck_ID c) → n ≠ e_selfID e → AddrFor n v = Some addr →
    node_data (v_cluster (deliver_all e r (job_of_chunk <$> l) v)) addr !! ck_ID c = Some (ck_Data c)).
Proof.
  intros Hl Hv Hreach. destruct (deliver_jobs_spec (job_of_chunk <$> l) v) as (Htr&Hkeep&Hdel); [|done|].
  - intros job (c&->&Hc)%list_elem_of_fmap. by apply honest_chunk, Hl.
  - split_and!; [done..|]. intros c n addr Hc. apply Hdel; [|by apply Hl|by apply list_elem_of_fmap_2].
    intros job n' (c'&->&Hc')%list_elem_of_fmap. by apply Hreach.
Qed.
End deliver_all.

(** What an upload leaves before its queue is worked off: the jobs of its chunks, the
    manifest, no store with other data under the name of a chunk, each chunk that is kept
    here, and whoever could be reached. *)
Lemma upload_stored v s r rw cs manifest :
  cl_nodes (v_cluster v) !! v_self v = Some s → blob_id r ≠ "" →
  Split (blob_id r) (r_Body r) DefaultSize = Ok (cs, manifest) →
  (∀ c1 c2, c1 ∈ cs → c2 ∈ cs → ck_ID c1 = ck_ID c2 → ck_Data c1 = ck_Data c2) →
  (∀ a, truthful cs (node_data (v_cluster v) a)) →
  let h := handleUploadBlob json_Manifest r rw s in
  let v1 := MkView (v_self v)
    (MkCluster (<[v_self v := h.2]> (cl_nodes (v_cluster v))) (cl_up (v_cluster v))) in
  (∃ l, h = ((rw_Write rw (json_Manifest manifest)).2, job_of_chunk <$> cs,
    set_manifests (<[blob_id r := manifest]> (manifests s)) (set_Local l s))) ∧
  (∀ a, truthful cs (node_data (v_cluster v1) a)) ∧
  (∀ c, c ∈ cs → kept_here s c → node_data (v_cluster v1) (v_self v) !! ck_ID c = Some (ck_Data c)) ∧
  (∀ n, AddrFor n v1 = AddrFor n v) ∧ ∀ n, reachable v n → reachable v1 n.
Proof.
  intros Hs Hid HS Hinj Htr h v1. assert (be_repr (Local s) (data (Local s))) as Hrepr by done.
  destruct (upload_loop_spec s cs (Local s) (data (Local s)) Hrepr) as (local'&HU&Hlocal'); [done|]. cbn in Hlocal'.
  assert (h = ((rw_Write rw (json_Manifest manifest)).2, job_of_chunk <$> cs,
    set_manifests (<[blob_id r := manifest]> (manifests s)) (set_Local local' s))) as Hh.
  { unfold h, handleUploadBlob. fold (blob_id r). by rewrite decide_False, HS, HU by done. }
  assert (node_data (v_cluster v1) (v_self v) = put_chunks (filter (kept_here s) cs) (data (Local s))) as Hself.
  { unfold node_data, v1. cbn [v_cluster cl_nodes]. by rewrite lookup_insert_eq, Hh. }
  assert (∀ n, AddrFor n v1 = AddrFor n v) as Haddr1.
  { intros n. unfold AddrFor, View_AddrResolver, v1. cbn [v_self v_cluster cl_nodes].
    by rewrite lookup_insert_eq, Hs, Hh. }
  split; [by exists local'|]. split_and!; [| |exact Haddr1|].
  - intros a. destruct (decide (a = v_self v)) as [->|Hne].
    + rewrite Hself. pose proof (Htr (v_self v)) as Hts. unfold node_data in Hts. rewrite Hs in Hts.
      intros c d Hc [Hd|(c'&[_ Hc']%list_elem_of_filter&Heq&<-)]%put_chunks_elem; [by eapply Hts|]. by apply Hinj.
    + unfold node_data, v1. cbn [v_cluster cl_nodes]. rewrite lookup_insert_ne by done. apply Htr.
  - intros c Hc Hk. rewrite Hself. apply put_chunks_lookup.
    + intros c' [_ Hc']%list_elem_of_filter. by apply Hinj.
    + right. exists c. by rewrite list_elem_of_filter.
  - intros n (a&Ha&Hpl&Hup&[sa Hsa]). exists a. rewrite Haddr1. split_and!; [done|apply Hpl..|done|]. unfold v1. cbn.
    destruct (decide (v_self v = a)) as [->|]; [rewrite lookup_insert_eq; eauto|]. rewrite lookup_insert_ne by done. eauto.
Qed.

(** What an upload whose queue is worked off leaves: the manifest, no store with other data
    under the name of a chunk, and each chunk where it was kept and with every other
    member of its replica set. *)
Lemma upload_delivered v e s r rw cs manifest :
  cl_nodes (v_cluster v) !! v_self v = Some s → e_selfID e = SelfID s → blob_id r ≠ "" →
  Split (blob_id r) (r_Body r) DefaultSize = Ok (cs, manifest) →
  (∀ c1 c2, c1 ∈ cs → c2 ∈ cs → ck_ID c1 = ck_ID c2 → ck_Data c1 = ck_Data c2) →
  (∀ a, truthful cs (node_data (v_cluster v) a)) →
  (∀ c n, c ∈ cs → n ∈ TargetsFor (s_Ring s) (ck_ID c) → n ≠ SelfID s → reachable v n) →
  let h := handleUploadBlob json_Manifest r rw s in
  let v1 := MkView (v_self v)
    (MkCluster (<[v_self v := h.2]> (cl_nodes (v_cluster v))) (cl_up (v_cluster v))) in
  let cl := v_cluster (deliver_all e (s_Ring s) h.1.2 v1) in
  manifests h.2 = <[blob_id r := manifest]> (manifests s) ∧ (∀ a, truthful cs (node_data cl a)) ∧
  (∀ c, c ∈ cs → kept_here s c → node_data cl (v_self v) !! ck_ID c = Some (ck_Data c)) ∧
  ∀ c n a, c ∈ cs → n ∈ TargetsFor (s_Ring s) (ck_ID c) → n ≠ SelfID s → AddrFor n v = Some a →
    node_data cl a !! ck_ID c = Some (ck_Data c).
Proof.
  intros Hs He Hid HS Hinj Htr Hreach h v1 cl.
  pose proof (Split_named _ _ _ _ _ HS) as [Hnamed _]. rewrite Forall_forall in Hnamed.
  destruct (upload_stored v s r rw cs manifest Hs Hid HS Hinj Htr) as ((l&Hh)&Htr1&Hkept1&Haddr1&Hreach1).
  fold h in Hh. fold h v1 in Htr1, Hkept1, Haddr1, Hreach1.
  destruct (deliver_all_spec cs e (s_Ring s) Hinj Hnamed cs v1) as (Htr2&Hkeep&Hdel); [done|done| |].
  { intros c n Hc Hn Hne. apply Hreach1. by apply (Hreach c); [..|congruence]. }
  unfold cl. rewrite Hh. cbn [fst snd]. split_and!; [done|exact Htr2| |].
  - intros c Hc Hk. apply Hkeep; [done|]. by apply Hkept1.
  - intros c n a Hc Hn Hne Ha. apply (Hdel c n a Hc Hn); [congruence|]. by rewrite Haddr1.
Qed.

(** [C1] Nothing is lost to failures that leave one replica: a blob uploaded to a node
    whose replica targets could be reached, with its queue worked off, is downloaded in
    full from that node's manifest after any failures - addresses gone, rings changed,
    the node's own store wiped - as long as each chunk is still in its store or one of
    its replicas is up, held alive and still a target; and as long as no store holds other
    data under the names of the chunks ([truthful]). *)
Theorem upload_survives_failures v e s r rw cs manifest up' (s3 : node_server) r' :
  cl_nodes (v_cluster v) !! v_self v = Some s → e_selfID e = SelfID s → blob_id r ≠ "" →
  (Z.of_nat (length (content (r_Body r))) < 2 ^ 63)%Z →
  Split (blob_id r) (r_Body r) DefaultSize = Ok (cs, manifest) →
  (∀ c1 c2, c1 ∈ cs → c2 ∈ cs → ck_ID c1 = ck_ID c2 → ck_Data c1 = ck_Data c2) →
  (∀ a, truthful cs (node_data (v_cluster v) a)) →
  (∀ c n, c ∈ cs → n ∈ TargetsFor (s_Ring s) (ck_ID c) → n ≠ SelfID s → reachable v n) →
  let h := handleUploadBlob json_Manifest r rw s in
  let v1 := MkView (v_self v)
    (MkCluster (<[v_self v := h.2]> (cl_nodes (v_cluster v))) (cl_up (v_cluster v))) in
  let cl' := MkCluster (cl_nodes (v_cluster (deliver_all e (s_Ring s) h.1.2 v1))) up' in
  manifests s3 = manifests h.2 → SelfID s3 = SelfID s → blob_id r' = blob_id r →
  truthful cs (data (Local s3)) → (∀ cold, Cold s3 = Some cold → truthful cs (data cold)) →
  (∀ n addr, addrForNode (s_Membership s3) n = Some addr → plain_url_part addr) →
  (∀ c, c ∈ cs → data (Local s3) !! ck_ID c = Some (ck_Data c) ∨
    ∃ n addr, n ∈ TargetsFor (s_Ring s) (ck_ID c) ∧ n ∈ TargetsFor (s_Ring s3) (ck_ID c) ∧
      n ≠ SelfID s ∧ AddrFor n v = Some addr ∧
      addrForNode (s_Membership s3) n = Some addr ∧ addr ∈ up') →
  ∃ rw', handleDownloadBlob r' (MkResponseWriter None [] None) s3 cl' = (rw', None, cl') ∧
    sent_status rw' = 200%Z ∧ rw_body rw' = content (r_Body r).
Proof.
  intros Hs He Hid Hlen HS Hinj Htr Hreach h v1 cl' Hman3 Hself3 Hid' Hl3 Hc3 Hplain Hrep.
  pose proof (Split_named _ _ _ _ _ HS) as [Hnamed _].
  destruct (upload_delivered v e s r rw cs manifest Hs He Hid HS Hinj Htr Hreach) as (Hman&Htr2&_&Hdel).
  apply (download_readable cl' s3 cs Hnamed Hplain Hl3 Htr2) with (blob := blob_id r) (manifest := manifest);
    [done|done| |].
  - fold h in Hman. by rewrite Hman3, Hid', Hman, lookup_insert_eq.
  - intros c Hc. destruct (Hrep c Hc) as [?|(n&a&Hn&Hn3&Hne&Ha&Ha3&Hup)]; [by left|]. right.
    exists n, a. split_and!; [done|congruence|done|done|]. by apply (Hdel c n a).
Qed.
End cluster.

(** ** Witnesses: the two-node cluster, the blob uploaded to node-a *)

Definition demo_member (selfID selfAddr peerID peerAddr : string) (local : Memory) : node_server :=
  NewServer selfID demo_ring local None
    (AddPeer peerID peerAddr 0 (wired RecHandleNodeDead RecHandleNodeAlive selfID selfAddr 0)) (Start demo_engine) (recovery_New selfID).
Definition demo_a (local : Memory) : node_server := demo_member "node-a" "a:8080" "node-b" "b:8080" local.
Definition demo_b (local : Memory) : node_server := demo_member "node-b" "b:8080" "node-a" "a:8080" local.

Definition demo_cluster (a b : Memory) : Cluster :=
  MkCluster {["a:8080" := demo_a a; "b:8080" := demo_b b]} {["a:8080"; "b:8080"]}.
Definition demo_view : View := MkView "a:8080" (demo_cluster NewMemory NewMemory).
Definition hello_store : Memory := MkMemory {[ID demo_hello := demo_hello]}.

Lemma demo_plain addr : addr ∈ (["a:8080"; "b:8080"] : list string) → plain_url_part addr.
Proof. intros [->|[->|?%elem_of_nil]%elem_of_cons]%elem_of_cons; done. Qed.

Lemma demo_plain_b : plain_url_part "b:8080".
Proof. apply demo_plain. by right; left. Qed.

Lemma demo_up_b : "b:8080" ∈ ({["a:8080"; "b:8080"]} : gset string).
Proof. set_solver. Qed.

Lemma demo_a_addr a n addr :
  addrForNode (s_Membership (demo_a a)) n = Some addr → n = "node-b" ∧ addr = "b:8080".
Proof.
  change (addrForNode (s_Membership (demo_a a)) n)
    with (if decide ("node-b" = n ∧ StateAlive = StateAlive) then Some "b:8080" else None).
  case_decide as Hn; [|done]. intros [= <-]. by destruct Hn as [<- _].
Qed.

Lemma truthful_empty cs : truthful cs ∅.
Proof. intros c d _. by rewrite lookup_empty. Qed.

Lemma truthful_hello : truthful [demo_chunk] (data hello_store).
Proof.
  intros c d ->%list_elem_of_singleton. change (ck_ID demo_chunk) with (ID demo_hello).
  unfold hello_store. cbn [data]. rewrite lookup_singleton_eq. by intros [= <-].
Qed.

Lemma demo_cluster_truthful b a :
  truthful [demo_chunk] (data b) → truthful [demo_chunk] (node_data (demo_cluster NewMemory b) a).
Proof.
  intros Hb. unfold node_data, demo_cluster. cbn [cl_nodes].
  destruct (decide (a = "a:8080")) as [->|Ha].
  { rewrite lookup_insert_eq. apply truthful_empty. }
  rewrite lookup_insert_ne by by apply not_eq_sym.
  destruct (decide (a = "b:8080")) as [->|Hb']; [by rewrite lookup_singleton_eq|].
  rewrite lookup_singleton_ne by by apply not_eq_sym. apply truthful_empty.
Qed.

Lemma demo_b_target key : "node-b" ∈ TargetsFor demo_ring key.
Proof.
  destruct (two_targets demo_ring _ "node-a" "node-b" key demo_ring_repr eq_refl) as [-> | ->]; [done|..]; set_solver.
Qed.

(** node-a has the manifest and an empty store; node-b has the chunk. *)
Definition demo_reading : node_server := set_manifests {["layer" := demo_manifest]} (demo_a NewMemory).

Lemma download_available_witness :
  ∃ rw, handleDownloadBlob (H1 := Cluster_HTTPGetter demo_json demo_json_status) demo_download demo_rw
      demo_reading (demo_cluster NewMemory hello_store) =
      (rw, None, demo_cluster NewMemory hello_store) ∧
    sent_status rw = 200%Z ∧ rw_body rw = demo_hello.
Proof.
  apply (download_available demo_json demo_json_status (demo_cluster NewMemory hello_store) demo_reading
    demo_download "layer" (r_Body demo_upload) [demo_chunk] demo_manifest).
  - done.
  - exact demo_Split_ok.
  - done.
  - intros n addr [_ ->]%(demo_a_addr NewMemory). exact demo_plain_b.
  - apply truthful_empty.
  - intros addr. apply demo_cluster_truthful, truthful_hello.
  - done.
  - intros c ->%list_elem_of_singleton. right. exists "node-b", "b:8080".
    split; [apply demo_b_target|]. split; [done|]. split; [done|]. split; [exact demo_up_b|].
    change (ck_ID demo_chunk) with (ID demo_hello). unfold node_data, demo_cluster. cbn [cl_nodes].
    rewrite lookup_insert_ne, lookup_singleton_eq by done. cbn [demo_b demo_member NewServer Local].
    unfold hello_store. cbn [data]. by rewrite lookup_singleton_eq.
Defined.

(** node-a is asked again after it lost its store and stopped answering others. *)
Definition demo_uploaded := handleUploadBlob demo_json demo_upload demo_rw (demo_a NewMemory).

Lemma demo_uploaded_manifests : manifests demo_reading = manifests demo_uploaded.2.
Proof.
  unfold demo_uploaded, handleUploadBlob. fold (blob_id demo_upload).
  change (blob_id demo_upload) with "layer". rewrite decide_False, demo_Split_ok by done.
  assert (be_repr NewMemory ∅) as Hrepr by done.
  destruct (upload_loop_spec (demo_a NewMemory) [demo_chunk] NewMemory ∅ Hrepr) as (l&HU&_); [done|].
  change (Local (demo_a NewMemory)) with NewMemory. rewrite HU. reflexivity.
Qed.

Lemma upload_survives_failures_witness :
  let v1 := MkView "a:8080" (MkCluster (<["a:8080" := demo_uploaded.2]> (cl_nodes (v_cluster demo_view)))
    (cl_up (v_cluster demo_view))) in
  let v2 := deliver_all demo_json demo_json_status demo_engine demo_ring demo_uploaded.1.2 v1 in
  let cl' := MkCluster (cl_nodes (v_cluster v2)) {["b:8080"]} in
  ∃ rw', handleDownloadBlob (H1 := Cluster_HTTPGetter demo_json demo_json_status) demo_download demo_rw
      demo_reading cl' = (rw', None, cl') ∧ sent_status rw' = 200%Z ∧ rw_body rw' = demo_hello.
Proof.
  apply (upload_survives_failures demo_json demo_json_status demo_view demo_engine (demo_a NewMemory)
    demo_upload demo_rw [demo_chunk] demo_manifest {["b:8080"]} demo_reading demo_download).
  - done.
  - done.
  - done.
  - done.
  - exact demo_Split_ok.
  - by intros c1 c2 ->%list_elem_of_singleton ->%list_elem_of_singleton.
  - intros a. apply demo_cluster_truthful, truthful_empty.
  - intros c n ->%list_elem_of_singleton Hn Hne. change (s_Ring (demo_a NewMemory)) with demo_ring in Hn.
    assert (n = "node-b") as ->.
    { change (SelfID (demo_a NewMemory)) with "node-a" in Hne. revert Hn.
      destruct (two_targets demo_ring _ "node-a" "node-b" (ck_ID demo_chunk) demo_ring_repr eq_refl) as [-> | ->];
        [done|..]; rewrite !elem_of_cons, elem_of_nil; naive_solver. }
    exists "b:8080". split; [reflexivity|]. split; [exact demo_plain_b|].
    split; [exact demo_up_b|].
    eexists. reflexivity.
  - exact demo_uploaded_manifests.
  - done.
  - done.
  - apply truthful_empty.
  - done.
  - intros n addr [_ ->]%(demo_a_addr NewMemory). exact demo_plain_b.
  - intros c ->%list_elem_of_singleton. right. exists "node-b", "b:8080".
    split; [apply demo_b_target|]. split; [apply demo_b_target|]. split; [done|].
    split; [reflexivity|]. split; [done|]. by apply elem_of_singleton.
Defined.
