(* ===== verification/Goroutines.v ===== *)
(** * The goroutines of a running node

    A [Process] is a node between the start and the end of [main]: the server of Server.v
    with the queue of WorkerPool.v in it, where each worker is in [replicate], the other
    goroutines - upload handlers, handlers of pushes, callbacks of the membership table,
    repair passes - each with the rest of its program, and how far [main] is in its
    shutdown.  [worker_next] and [go_next] run one goroutine from one access of shared
    state to the next; what lies between two such points is local to it.  [proc_step]
    makes one step of one of them, in any order.

    Accesses of the ring, the table and the queue are under a lock or channel operations in
    the code and are one step each.  The disk has no lock: a Put opens a temporary file,
    the same for every Put of the chunk, and only later renames it, and each call on the
    disk can fail ([fault_next]).  DiskRace.v shows that a Put that no other Put of the
    chunk overlaps installs its data as a whole, and that two that overlap can leave
    anything; so a chunk whose Puts overlapped is entered in [pr_damaged] ([overlap]),
    and so is one that the disk damages ([ActDamage]), which may happen to any file at any
    time and as often as it likes.  What the theorems say of the data under a name, they
    say of names that are not entered there.

    The theorems hold in every interleaving.  [proc_ok] is the invariant; from it: every
    replica target of the ring has an address, although callbacks come in any order; the
    manifest of a blob is indexed only when each chunk was accepted for replication, and
    a finished job has an outcome for each other member of the replica set that the
    worker looked up ([indexed_job], which System.v builds on; [pr_lookups] remembers the
    lookups).  And [worker_measure] bounds the steps a worker takes for a job. *)
From S2P Require Import Prelude GoLib GoIO Sha HashRing Placement Chunk Storage Membership Replication WorkerPool Recovery Server Node Cluster.

(** ** Where a goroutine is *)

(** A worker in [worker], [replicate] and [pushWithRetry]: at the receive, at the lookup
    of the targets, at the head of the loop over those left, at the [select] before a
    further attempt, at the request of an attempt, and waiting for its answer. *)
Inductive WorkerPC :=
| AtReceive
| AtGetN (job : Job)
| AtTargets (job : Job) (targets : list string)
| AtSelect (job : Job) (targets : list string) (addr : string) (attempt : nat)
| AtPush (job : Job) (targets : list string) (addr : string) (attempt : nat)
| AtAnswer (job : Job) (targets : list string) (addr : string) (attempt : nat) (req : nat).

(** What a worker meets: nothing, the end of the context, an error before the request
    is sent, the request sent under a number, the answer to it. *)
Inductive Input :=
| Go
| CtxDone
| NotSent (err : error)
| Sent (req : nat)
| Answered (resp : result Z).

(** The other goroutines: an upload at the head of its loop, at its Put, in it with the
    temporary file open, at its Enqueue; the handler of a push, numbered if it came over
    the network, at its Put, in it, and with its answer; a callback; a repair pass at its
    first locked statement, at the listing, at the head of its loop, at the Get, at the
    Enqueue, at its last locked statement; and one that has ended. *)
Inductive Goroutine :=
| Upload (blobID : string) (manifest : Manifest) (chunks : list Chunk)
| UploadPut (blobID : string) (manifest : Manifest) (c : Chunk) (chunks : list Chunk)
| UploadWrite (blobID : string) (manifest : Manifest) (c : Chunk) (chunks : list Chunk)
| UploadEnqueue (blobID : string) (manifest : Manifest) (c : Chunk) (chunks : list Chunk)
| HandlePut (req : option nat) (id : string) (d : bytes)
| HandleWrite (req : option nat) (id : string) (d : bytes)
| Answering (req : option nat) (status : Z)
| Callback (fn : NodeCallback) (id : string)
| RepairBegin
| RepairList
| RepairLoop (ids : list string)
| RepairGet (chunkID : string) (ids : list string)
| RepairEnqueue (job : Job) (ids : list string)
| RepairEnd
| Ended.

(** [main] from the signal on, by the last call it has made. *)
Inductive Phase :=
| Serving
| ServerShutdown
| MembershipStopped
| ContextCancelled
| QueueClosed.

#[export] Instance Phase_eq_dec : EqDecision Phase.
Proof. solve_decision. Defined.

(** The last two are kept for the theorems: the names whose data on the disk is not vouched
    for, and the rings at which workers looked up the targets of their jobs. *)
Record Process := MkProcess {
  pr_engine : Engine;
  pr_server : node_server;
  pr_workers : list WorkerPC;
  pr_go : list Goroutine;
  pr_phase : Phase;
  pr_outcomes : list (Job * string * PushOutcome);
  pr_damaged : gset string;
  pr_lookups : list (Job * Ring);
}.

(** ** Updates *)

Section set_server.
Context {B C Fn : Type}.
Implicit Types s : Server B C Fn.

Definition set_Ring (r : Ring) s : Server B C Fn :=
  MkServer (SelfID s) r (Local s) (Cold s) (s_Membership s) (s_Pool s) (s_Recovery s) (manifests s).
Definition set_Membership (m : Membership Fn) s : Server B C Fn :=
  MkServer (SelfID s) (s_Ring s) (Local s) (Cold s) m (s_Pool s) (s_Recovery s) (manifests s).
Definition set_Pool (p : Pool) s : Server B C Fn :=
  MkServer (SelfID s) (s_Ring s) (Local s) (Cold s) (s_Membership s) p (s_Recovery s) (manifests s).
Definition set_Recovery (m : Manager) s : Server B C Fn :=
  MkServer (SelfID s) (s_Ring s) (Local s) (Cold s) (s_Membership s) (s_Pool s) m (manifests s).
End set_server.

Definition set_server (s : node_server) (p : Process) : Process :=
  MkProcess (pr_engine p) s (pr_workers p) (pr_go p) (pr_phase p) (pr_outcomes p) (pr_damaged p) (pr_lookups p).
Definition set_pc (i : nat) (pc : WorkerPC) (p : Process) : Process :=
  MkProcess (pr_engine p) (pr_server p) (<[i := pc]> (pr_workers p)) (pr_go p) (pr_phase p) (pr_outcomes p)
    (pr_damaged p) (pr_lookups p).
Definition set_go (gs : list Goroutine) (p : Process) : Process :=
  MkProcess (pr_engine p) (pr_server p) (pr_workers p) gs (pr_phase p) (pr_outcomes p) (pr_damaged p) (pr_lookups p).
Definition set_phase (ph : Phase) (p : Process) : Process :=
  MkProcess (pr_engine p) (pr_server p) (pr_workers p) (pr_go p) ph (pr_outcomes p) (pr_damaged p) (pr_lookups p).
Definition add_outcomes (os : list (Job * string * PushOutcome)) (p : Process) : Process :=
  MkProcess (pr_engine p) (pr_server p) (pr_workers p) (pr_go p) (pr_phase p) (pr_outcomes p ++ os)
    (pr_damaged p) (pr_lookups p).
Definition mark (ids : gset string) (p : Process) : Process :=
  MkProcess (pr_engine p) (pr_server p) (pr_workers p) (pr_go p) (pr_phase p) (pr_outcomes p)
    (pr_damaged p ∪ ids) (pr_lookups p).
Definition add_lookups (ls : list (Job * Ring)) (p : Process) : Process :=
  MkProcess (pr_engine p) (pr_server p) (pr_workers p) (pr_go p) (pr_phase p) (pr_outcomes p)
    (pr_damaged p) (pr_lookups p ++ ls).

(** The engine's context: cancelled by [cancel()]. *)
Definition ctx_done (ph : Phase) : bool :=
  match ph with ContextCancelled | QueueClosed => true | _ => false end.

(** ** A worker *)

(** The loop of [pushWithRetry] after an attempt that failed. *)
Definition push_failed (e : Engine) (job : Job) (targets : list string) (addr : string) (attempt : nat) (err : error) :
    WorkerPC * list (Job * string * PushOutcome) :=
  if (attempt + 1 <=? e_maxRetries e)%nat then (AtSelect job targets addr (attempt + 1), [])
  else (AtTargets job targets, [(job, addr, GaveUp (Some err))]).

(** One step inside [replicate]; the receive and the return to it are steps of the queue. *)
Definition worker_next (e : Engine) (s : node_server) (pc : WorkerPC) (inp : Input) :
    option (WorkerPC * list (Job * string * PushOutcome)) :=
  match pc, inp with
  | AtGetN job, Go => Some (AtTargets job (GetN (s_Ring s) (j_ChunkID job) Factor), [])
  | AtTargets job (nodeID :: targets), Go =>
      if decide (nodeID = e_selfID e) then Some (AtTargets job targets, [])
      else match membershipResolver_AddrFor (s_Membership s) nodeID with
           | None => Some (AtTargets job targets, [])
           | Some addr => Some (AtPush job targets addr 0, [])
           end
  | AtSelect job targets addr attempt, Go => Some (AtPush job targets addr attempt, [])
  | AtSelect job targets addr attempt, CtxDone => Some (AtTargets job targets, [(job, addr, Cancelled)])
  | AtPush job targets addr attempt, NotSent err => Some (push_failed e job targets addr attempt err)
  | AtPush job targets addr attempt, Sent req => Some (AtAnswer job targets addr attempt req, [])
  | AtAnswer job targets addr attempt _, Answered resp =>
      match push_answered addr (j_ChunkID job) resp with
      | None => Some (AtTargets job targets, [(job, addr, Pushed)])
      | Some err => Some (push_failed e job targets addr attempt err)
      end
  | _, _ => None
  end.

(** The ring at which a worker that makes its step looks up its targets, if it does. *)
Definition looks_up (s : node_server) (pc : WorkerPC) : list (Job * Ring) :=
  match pc with AtGetN job => [(job, s_Ring s)] | _ => [] end.

(** ** The other goroutines *)

Inductive GoResult :=
| Runs (g : Goroutine) (s : node_server) (spawned : list Goroutine)
| GoBlocks
| GoPanics.

Definition enqueue_then (e : Engine) (s : node_server) (job : Job) (g : Goroutine) : GoResult :=
  match Enqueue e job (s_Pool s) with
  | Done p => Runs g (set_Pool p s) []
  | Blocks => GoBlocks
  | Panics => GoPanics
  end.

(** [handleUploadBlob] after the split. *)
Definition upload_next (e : Engine) (s : node_server) (g : Goroutine) : GoResult :=
  match g with
  | Upload blobID manifest [] => Runs Ended (set_manifests (<[blobID := manifest]> (manifests s)) s) []
  | Upload blobID manifest (c :: chunks) =>
      let targets := GetN (s_Ring s) (ck_ID c) Factor in
      let isLocalTarget := existsb (λ t, bool_decide (t = SelfID s)) targets in
      if isLocalTarget || (length targets =? 0)%nat
      then Runs (UploadPut blobID manifest c chunks) s [] else Runs (UploadEnqueue blobID manifest c chunks) s []
  | UploadPut blobID manifest c chunks => Runs (UploadWrite blobID manifest c chunks) s []
  | UploadWrite blobID manifest c chunks =>
      let '(err, local) := b_Put (ck_ID c) (ck_Data c) (Local s) in
      match err with
      | Some _ => Runs Ended (set_Local local s) []
      | None => Runs (UploadEnqueue blobID manifest c chunks) (set_Local local s) []
      end
  | UploadEnqueue blobID manifest c chunks =>
      enqueue_then e s (MkJob (ck_ID c) (ck_Data c)) (Upload blobID manifest chunks)
  | _ => GoBlocks
  end.

(** [handlePutChunk] after the check of the chunk. *)
Definition handle_next (s : node_server) (g : Goroutine) : GoResult :=
  match g with
  | HandlePut req id d => Runs (HandleWrite req id d) s []
  | HandleWrite req id d =>
      let '(err, local) := b_Put id d (Local s) in
      match err with
      | Some _ => Runs (Answering req StatusInternalServerError) (set_Local local s) []
      | None => Runs (Answering req StatusOK) (set_Local local s) []
      end
  | Answering _ _ => Runs Ended s []
  | _ => GoBlocks
  end.

(** [HandleNodeDead], with the repair pass it starts, and the closure around
    [HandleNodeAlive]. *)
Definition callback_next (s : node_server) (fn : NodeCallback) (id : string) : GoResult :=
  let s' := set_Ring (run_call (s_Membership s) (s_Ring s) (CallDead fn id)) s in
  match fn with
  | RecHandleNodeDead => Runs Ended s' [RepairBegin]
  | RecHandleNodeAlive => Runs Ended s' []
  end.

(** [repairLocalChunks]; the ID of the dead node is only logged, and compared for a flag
    that is dropped ([wasResponsibleViaDeadNode] of Recovery.v). *)
Definition repair_next (e : Engine) (s : node_server) (g : Goroutine) : GoResult :=
  match g with
  | RepairBegin => Runs RepairList (set_Recovery (repair_begin (s_Recovery s)) s) []
  | RepairList =>
      match b_List (Local s) with
      | Err _ => Runs RepairEnd s []
      | Ok ids => Runs (RepairLoop ids) s []
      end
  | RepairLoop [] => Runs RepairEnd s []
  | RepairLoop (chunkID :: ids) =>
      if negb (contains (GetN (s_Ring s) chunkID Factor) (SelfID s)) then Runs (RepairLoop ids) s []
      else Runs (RepairGet chunkID ids) s []
  | RepairGet chunkID ids =>
      match b_Get chunkID (Local s) with
      | Err _ => Runs (RepairLoop ids) s []
      | Ok d => Runs (RepairEnqueue (MkJob chunkID d) ids) s []
      end
  | RepairEnqueue job ids => enqueue_then e s job (RepairLoop ids)
  | RepairEnd => Runs Ended (set_Recovery (repair_end (s_Recovery s)) s) []
  | _ => GoBlocks
  end.

Definition go_next (e : Engine) (s : node_server) (g : Goroutine) : GoResult :=
  match g with
  | Upload _ _ _ | UploadPut _ _ _ _ | UploadWrite _ _ _ _ | UploadEnqueue _ _ _ _ => upload_next e s g
  | HandlePut _ _ _ | HandleWrite _ _ _ | Answering _ _ => handle_next s g
  | Callback fn id => callback_next s fn id
  | Ended => GoBlocks
  | _ => repair_next e s g
  end.

(** A handler that panics is recovered by net/http; any other goroutine ends the process. *)
Definition recovered (g : Goroutine) : bool :=
  match g with
  | Upload _ _ _ | UploadPut _ _ _ _ | UploadWrite _ _ _ _ | UploadEnqueue _ _ _ _
  | HandlePut _ _ _ | HandleWrite _ _ _ | Answering _ _ => true
  | _ => false
  end.

(** Where a goroutine goes on when its call on the disk returns an error: [os.MkdirAll] or
    the open of a Put, its write or rename, the listing or a Get of a repair pass. *)
Definition fault_next (g : Goroutine) : option Goroutine :=
  match g with
  | UploadPut _ _ _ _ | UploadWrite _ _ _ _ => Some Ended
  | HandlePut req _ _ | HandleWrite req _ _ => Some (Answering req StatusInternalServerError)
  | RepairList => Some RepairEnd
  | RepairGet _ ids => Some (RepairLoop ids)
  | _ => None
  end.

(** The chunk whose temporary file the step of a goroutine opens; the one it has open. *)
Definition opens (g : Goroutine) : option string :=
  match g with UploadPut _ _ c _ => Some (ck_ID c) | HandlePut _ id _ => Some id | _ => None end.
Definition writes (g : Goroutine) : option string :=
  match g with UploadWrite _ _ c _ => Some (ck_ID c) | HandleWrite _ id _ => Some id | _ => None end.

(** The chunk is damaged if another goroutine has the file open at that moment. *)
Definition overlap (gs : list Goroutine) (g : Goroutine) : gset string :=
  match opens g with
  | Some id => if existsb (λ g', bool_decide (writes g' = Some id)) gs then {[id]} else ∅
  | None => ∅
  end.

(** ** A process *)

Inductive ProcAct :=
| ActQueue (a : PoolAction)
| ActWorker (i : nat) (inp : Input)
| ActGo (g : nat)
| ActFault (g : nat)
| ActDamage (id : string) (d : bytes)
| ActPing (id : string) (healthy : bool) (now : Z)
| ActUpload (r : Request)
| ActPut (req : option nat) (segs : list string) (d : bytes)
| ActMain.

Inductive ProcResult :=
| Continues (p : Process)
| ProcBlocks
| Exits.

(** The input can occur: the context is done only after [cancel]. *)
Definition offered (ph : Phase) (inp : Input) : bool :=
  match inp with CtxDone => ctx_done ph | _ => true end.

(** A worker at its receive takes a job or leaves; one at the end of its targets is done
    with the job. *)
Definition queue_step (a : PoolAction) (p : Process) : ProcResult :=
  let s := pr_server p in
  match a with
  | ActReceive i =>
      match worker_receive i (s_Pool s) with
      | Done pool =>
          match workers pool !! i with
          | Some (Working job) => Continues (set_pc i (AtGetN job) (set_server (set_Pool pool s) p))
          | _ => ProcBlocks
          end
      | _ => ProcBlocks
      end
  | ActFinish i =>
      match pr_workers p !! i, worker_finish i (s_Pool s) with
      | Some (AtTargets _ []), Done pool => Continues (set_pc i AtReceive (set_server (set_Pool pool s) p))
      | _, _ => ProcBlocks
      end
  | ActLeave i =>
      match worker_leave i (s_Pool s) with
      | Done pool => Continues (set_server (set_Pool pool s) p)
      | _ => ProcBlocks
      end
  | _ => ProcBlocks
  end.

(** [main] after the signal: each call returns at once, but for [Shutdown], which may
    return before the handlers do, and [Stop], which waits for the workers. *)
Definition main_step (p : Process) : ProcResult :=
  match pr_phase p with
  | Serving => Continues (set_phase ServerShutdown p)
  | ServerShutdown => Continues (set_phase MembershipStopped p)
  | MembershipStopped => Continues (set_phase ContextCancelled p)
  | ContextCancelled =>
      match Stop_close (s_Pool (pr_server p)) with
      | Done pool => Continues (set_phase QueueClosed (set_server (set_Pool pool (pr_server p)) p))
      | Blocks => ProcBlocks
      | Panics => Exits
      end
  | QueueClosed => if Stop_returns (s_Pool (pr_server p)) then Exits else ProcBlocks
  end.

Definition call_goroutine (c : Call NodeCallback) : Goroutine :=
  let '(fn, id) := call_target c in Callback fn id.

Section process.
Context (json_Manifest : Manifest → bytes) (json_Status : StatusReport → bytes).

(** A PUT request arrives: it is refused, by the mux or for its data, or its handler comes
    to the Put.  The requests that change nothing - GETs among them - are left out. *)
Definition put_begin (req : option nat) (segs : list string) (d : bytes) (s : node_server) : Goroutine :=
  let refused := Answering req (sent_status (ServeHTTP json_Manifest json_Status
    (MkRequest "PUT" segs (MkReader [d] io_EOF true)) (MkResponseWriter None [] None) s nobody).1.1.1) in
  match Routes "PUT" segs with
  | inl (Some (PutChunk id)) => if negb (Verify id d) then refused else HandlePut req id d
  | _ => refused
  end.

Definition proc_step (a : ProcAct) (p : Process) : ProcResult :=
  let s := pr_server p in
  match a with
  | ActQueue a => queue_step a p
  | ActWorker i inp =>
      if negb (offered (pr_phase p) inp) then ProcBlocks
      else match pr_workers p !! i ≫= λ pc, worker_next (pr_engine p) s pc inp with
           | Some (pc', os) =>
               Continues (add_lookups (default [] (looks_up s <$> pr_workers p !! i)) (add_outcomes os (set_pc i pc' p)))
           | None => ProcBlocks
           end
  | ActGo g =>
      match pr_go p !! g with
      | None => ProcBlocks
      | Some gr =>
          match go_next (pr_engine p) s gr with
          | Runs gr' s' spawned =>
              Continues (set_go (<[g := gr']> (pr_go p) ++ spawned) (set_server s' (mark (overlap (pr_go p) gr) p)))
          | GoBlocks => ProcBlocks
          | GoPanics => if recovered gr then Continues (set_go (<[g := Ended]> (pr_go p)) p) else Exits
          end
      end
  | ActFault g =>
      match pr_go p !! g ≫= fault_next with
      | Some gr => Continues (set_go (<[g := gr]> (pr_go p)) p)
      | None => ProcBlocks
      end
  | ActDamage id d =>
      match data (Local s) !! id with
      | Some _ => Continues (mark {[id]} (set_server (with_chunk id d s) p))
      | None => ProcBlocks
      end
  | ActPing id healthy now =>
      let '(calls, m) := pingPeer id healthy now (s_Membership s) in
      Continues (set_go (pr_go p ++ (call_goroutine <$> calls)) (set_server (set_Membership m s) p))
  | ActUpload r =>
      if decide (pr_phase p = Serving ∧ blob_id r ≠ "") then
        match Split (blob_id r) (r_Body r) DefaultSize with
        | Err _ => Continues p
        | Ok (chunks, manifest) => Continues (set_go (pr_go p ++ [Upload (blob_id r) manifest chunks]) p)
        end
      else ProcBlocks
  | ActPut req segs d => Continues (set_go (pr_go p ++ [put_begin req segs d s]) p)
  | ActMain => main_step p
  end.

(** A run that goes on. *)
Fixpoint proc_run (acts : list ProcAct) (p : Process) : option Process :=
  match acts with
  | [] => Some p
  | a :: acts => match proc_step a p with Continues p => proc_run acts p | _ => None end
  end.

End process.

(** ** The start *)

(** What the flags of a node say; its address is the one it advertises. *)
Record NodeConfig := MkNodeConfig {
  c_nodeID : string;
  c_addr : string;
  c_peers : string;
  c_workers : Z;
  c_cold : option Memory;
}.

(** [main] up to the listener, on the store that is there. *)
Definition boot (c : NodeConfig) (now : Z) (local : Memory) : Process :=
  let '(membership, ring) := setup_peers (c_nodeID c) (c_addr c) (c_peers c) now in
  let e := NewEngine (c_nodeID c) (c_workers c) in
  MkProcess e
    (NewServer (c_nodeID c) ring local (c_cold c) (wire membership) (Start e) (recovery_New (c_nodeID c)))
    (repeat AtReceive (Z.to_nat (e_workers e))) [] Serving [] ∅ [].

(** ** The steps as rules, with the chunk names a step brings in *)

Section rules.
Context (json_Manifest : Manifest → bytes) (json_Status : StatusReport → bytes).

Inductive pstep (p : Process) : gset string → Process → Prop :=
| pstep_receive i pool job :
    worker_receive i (s_Pool (pr_server p)) = Done pool → workers pool !! i = Some (Working job) →
    pstep p ∅ (set_pc i (AtGetN job) (set_server (set_Pool pool (pr_server p)) p))
| pstep_finish i job pool :
    pr_workers p !! i = Some (AtTargets job []) → worker_finish i (s_Pool (pr_server p)) = Done pool →
    pstep p ∅ (set_pc i AtReceive (set_server (set_Pool pool (pr_server p)) p))
| pstep_leave i pool :
    worker_leave i (s_Pool (pr_server p)) = Done pool → pstep p ∅ (set_server (set_Pool pool (pr_server p)) p)
| pstep_worker i pc inp pc' os :
    pr_workers p !! i = Some pc → worker_next (pr_engine p) (pr_server p) pc inp = Some (pc', os) →
    pstep p ∅ (add_lookups (looks_up (pr_server p) pc) (add_outcomes os (set_pc i pc' p)))
| pstep_go g gr gr' s spawned :
    pr_go p !! g = Some gr → go_next (pr_engine p) (pr_server p) gr = Runs gr' s spawned →
    pstep p ∅ (set_go (<[g := gr']> (pr_go p) ++ spawned) (set_server s (mark (overlap (pr_go p) gr) p)))
| pstep_fault g gr gr' :
    pr_go p !! g = Some gr → fault_next gr = Some gr' → pstep p ∅ (set_go (<[g := gr']> (pr_go p)) p)
| pstep_damage id d d0 :
    data (Local (pr_server p)) !! id = Some d0 →
    pstep p ∅ (mark {[id]} (set_server (with_chunk id d (pr_server p)) p))
| pstep_recovered g :
    pstep p ∅ (set_go (<[g := Ended]> (pr_go p)) p)
| pstep_ping id healthy now :
    pstep p ∅ (set_go (pr_go p ++ (call_goroutine <$> (pingPeer id healthy now (s_Membership (pr_server p))).1))
      (set_server (set_Membership (pingPeer id healthy now (s_Membership (pr_server p))).2 (pr_server p)) p))
| pstep_refused ids : pstep p ids p
| pstep_upload r chunks manifest :
    Split (blob_id r) (r_Body r) DefaultSize = Ok (chunks, manifest) →
    pstep p (list_to_set (ck_ID <$> chunks)) (set_go (pr_go p ++ [Upload (blob_id r) manifest chunks]) p)
| pstep_put req id d :
    ID d = id → pstep p {[id]} (set_go (pr_go p ++ [HandlePut req id d]) p)
| pstep_put_refused ids req status :
    (300 ≤ status < 500)%Z → pstep p ids (set_go (pr_go p ++ [Answering req status]) p)
| pstep_phase ph : pstep p ∅ (set_phase ph p)
| pstep_close pool :
    Stop_close (s_Pool (pr_server p)) = Done pool →
    pstep p ∅ (set_phase QueueClosed (set_server (set_Pool pool (pr_server p)) p)).

Lemma put_begin_cases req segs d s :
  (∃ id, segs = ["internal"; "chunks"; id] ∧ ID d = id ∧ put_begin json_Manifest json_Status req segs d s = HandlePut req id d) ∨
  ∃ status, (300 ≤ status < 500)%Z ∧ put_begin json_Manifest json_Status req segs d s = Answering req status.
Proof.
  unfold put_begin. destruct (serve_put json_Manifest json_Status segs d s) as (rw&s'&->&Hcases). cbn [fst].
  destruct Hcases as [(_&Hst&Hno)|(id&->&<-&_&_)].
  - right. exists (sent_status rw). split; [exact Hst|]. destruct (Routes "PUT" segs) as [[h|]|] eqn:HR; [|done..].
    destruct (Routes_PUT segs h HR) as [->|(id&->&->)]; [done|]. destruct (Verify id d) eqn:HV; [|done].
    apply Verify_true in HV as <-. exfalso. apply (Hno (ID d)); [done| |done]. apply ID_not_empty.
  - left. exists (ID d). rewrite Routes_chunk, decide_True by done. split; [done|]. split; [done|].
    by rewrite (proj2 (Verify_true (ID d) d) eq_refl).
Qed.

(** What a request from outside brings. *)
Definition brought (a : ProcAct) : gset string :=
  match a with
  | ActUpload r =>
      match Split (blob_id r) (r_Body r) DefaultSize with
      | Ok (chunks, _) => list_to_set (ck_ID <$> chunks)
      | Err _ => ∅
      end
  | ActPut _ segs d => match Routes "PUT" segs with inl (Some (PutChunk id)) => if Verify id d then {[id]} else ∅ | _ => ∅ end
  | _ => ∅
  end.

Lemma proc_step_rule a p p' : proc_step json_Manifest json_Status a p = Continues p' → pstep p (brought a) p'.
Proof.
  destruct a as [a|i inp|g|g|id d|id healthy now|r|req segs d|]; cbn [proc_step brought].
  - destruct a as [|i|i|i|]; cbn [queue_step]; repeat case_match; intros [= <-]; by econstructor.
  - destruct (negb _); [done|]. destruct (pr_workers p !! i) as [pc|] eqn:Hi; cbn [mbind option_bind fmap option_fmap option_map default]; [|done].
    destruct (worker_next _ _ _ _) as [[pc' os]|] eqn:Hn; intros [= <-]. by econstructor.
  - destruct (pr_go p !! g) as [gr|] eqn:Hg; [|done]. destruct (go_next _ _ _) eqn:Hn; [|done|case_match; [|done]];
      intros [= <-]; by econstructor.
  - destruct (pr_go p !! g) as [gr|] eqn:Hg; cbn [mbind option_bind]; [|done]. destruct (fault_next gr) as [gr'|] eqn:Hf; [|done].
    intros [= <-]. by econstructor.
  - destruct (data _ !! id) as [d0|] eqn:Hd; [|done]. intros [= <-]. by econstructor.
  - pose proof (pstep_ping p id healthy now) as Hping. destruct (pingPeer _ _ _ _). by intros [= <-].
  - case_decide; [|done]. destruct (Split _ _ _) as [[chunks manifest]|] eqn:HS; intros [= <-]; by econstructor.
  - intros [= <-]. destruct (put_begin_cases req segs d (pr_server p)) as [(id&->&<-&->)|(st&Hst&->)]; [|by econstructor].
    rewrite Routes_chunk, decide_True by done. rewrite (proj2 (Verify_true (ID d) d) eq_refl). by econstructor.
  - unfold main_step. repeat case_match; intros [= <-]; by econstructor.
Qed.

(** An invariant of the rules, for what is brought, is one of the runs. *)
Lemma proc_run_inv (P : Process → Prop) acts p p' :
  (∀ a p p', a ∈ acts → P p → pstep p (brought a) p' → P p') → P p →
  proc_run json_Manifest json_Status acts p = Some p' → P p'.
Proof.
  revert p. induction acts as [|a acts IH]; intros p HP Hp; cbn [proc_run]; [by intros [= <-]|].
  destruct (proc_step _ _ a p) as [p1| |] eqn:Ha; [|done..]. apply IH; [set_solver|].
  eapply HP; [by left|done|]. by eapply proc_step_rule.
Qed.
End rules.

(** ** The configuration: names, addresses, the ring *)

Section invariants.
Context (c : NodeConfig).

(** The nodes that the flags name, and their addresses. *)
Definition known : gset string := list_to_set (parse_peers (c_peers c)).*1 ∪ {[c_nodeID c]}.
Definition address_of (n : string) : option string :=
  if decide (n = c_nodeID c) then None
  else (list_to_map (parse_peers (c_peers c)) : gmap string string) !! n.

(** A ring the node may have: itself and nodes it knows. *)
Definition ring_of (r : Ring) : Prop := ∃ S, ring_repr r S ∧ c_nodeID c ∈ S ∧ S ⊆ known.

Record static_ok (p : Process) : Prop := {
  so_engine : pr_engine p = NewEngine (c_nodeID c) (c_workers c);
  so_self : SelfID (pr_server p) = c_nodeID c;
  so_table : table_ok (s_Membership (pr_server p));
  so_table_self : p_ID (self (s_Membership (pr_server p))) = c_nodeID c;
  so_addrs n : membershipResolver_AddrFor (s_Membership (pr_server p)) n = address_of n;
  so_ring : ring_of (s_Ring (pr_server p));
  so_calls fn id : Callback fn id ∈ pr_go p → id ≠ c_nodeID c ∧ id ∈ known;
}.

Lemma address_known n : n ∈ known → n ≠ c_nodeID c → is_Some (address_of n).
Proof.
  intros [Hn|?%elem_of_singleton]%elem_of_union Hne; [|done]. unfold address_of. rewrite decide_False by done.
  apply elem_of_list_to_set, list_elem_of_fmap in Hn as ([i a]&->&Hia).
  apply not_eq_None_Some. intros Hnone%not_elem_of_list_to_map. apply Hnone. apply list_elem_of_fmap. by exists (i, a).
Qed.

Lemma known_address n a : address_of n = Some a → n ≠ c_nodeID c ∧ n ∈ known.
Proof.
  unfold address_of. case_decide as Hn; [done|]. intros Ha%elem_of_list_to_map_2. split; [done|].
  apply elem_of_union_l, elem_of_list_to_set, list_elem_of_fmap. by exists (n, a).
Qed.

(** Every target of such a ring is known. *)
Lemma target_known r key n : ring_of r → n ∈ TargetsFor r key → n ∈ known.
Proof.
  intros (S&Hr&_&HS) Hn. apply HS. unfold TargetsFor in Hn. rewrite (GetN_preference _ _ _ _ Hr) in Hn.
  apply subseteq_take in Hn. by apply (elem_of_preference _ _ _ _ Hr) in Hn.
Qed.

Lemma ring_of_call m r fn id :
  distinct_points known → ring_of r → id ≠ c_nodeID c → id ∈ known → ring_of (run_call m r (CallDead fn id)).
Proof.
  intros Hd (S&Hr&Hself&HS) Hne Hid. unfold run_call. cbn [call_target]. destruct fn.
  - exists (S ∖ {[id]}). split; [by apply ring_repr_RemoveNode|]. split; set_solver.
  - exists ({[id]} ∪ S). split; [|split; set_solver].
    apply ring_repr_AddNode; [done|]. eapply distinct_points_subset; [|exact Hd]. set_solver.
Qed.

(** A ping changes no address, and calls for peers of the table only. *)
Lemma ping_addrs id healthy now (m : Membership NodeCallback) n :
  table_ok m →
  membershipResolver_AddrFor (pingPeer id healthy now m).2 n = membershipResolver_AddrFor m n.
Proof.
  intros Hm. pose proof (mstep_table_ok (EvPing id healthy now) m Hm) as Hm'. cbn [mstep] in Hm'.
  rewrite !AddrFor_lookup by done. unfold pingPeer. destruct (peers m !! id) as [q|] eqn:Hq; [|done].
  cbn [snd peers set_peers]. destruct (decide (id = n)) as [->|Hne]; [|by rewrite lookup_insert_ne].
  rewrite lookup_insert_eq, Hq. cbn. f_equal. unfold ping_peer_state. by repeat case_match.
Qed.

Lemma ping_calls id healthy now (m : Membership NodeCallback) cl :
  cl ∈ (pingPeer id healthy now m).1 → (call_target cl).2 = id ∧ is_Some (peers m !! id).
Proof.
  unfold pingPeer. destruct (peers m !! id) as [q|]; [|by intros ?%elem_of_nil]. cbn [fst].
  intros Hcl. split; [|done]. apply elem_of_app in Hcl as [Hcl|Hcl]; case_decide;
    try (by apply elem_of_nil in Hcl); by apply list_elem_of_fmap in Hcl as (fn&->&_).
Qed.

Lemma static_boot now local : distinct_points known → static_ok (boot c now local).
Proof.
  intros Hd. unfold boot.
  destruct (setup_peers_ok (Fn := NodeCallback) (c_nodeID c) (c_addr c) (c_peers c) now Hd) as (Hm&Hself&Hr&_).
  destruct (setup_addresses (Fn := NodeCallback) (c_nodeID c) (c_addr c) (c_peers c) now Hd) as [Haddr _].
  destruct (setup_peers _ _ _ now) as [m r]. cbn [fst snd] in *.
  split; cbn [pr_engine pr_server pr_go NewServer SelfID s_Membership s_Ring]; [done|done|exact Hm| |exact Haddr| |].
  - cbn [wire OnNodeAlive OnNodeDead self]. by rewrite Hself.
  - exists known. split; [exact Hr|]. set_solver.
  - by intros fn id ?%elem_of_nil.
Qed.

(** What of a process the configuration part of the invariant reads. *)
Lemma static_same p p' :
  pr_engine p' = pr_engine p → SelfID (pr_server p') = SelfID (pr_server p) →
  s_Membership (pr_server p') = s_Membership (pr_server p) → ring_of (s_Ring (pr_server p')) →
  (∀ fn id, Callback fn id ∈ pr_go p' → Callback fn id ∈ pr_go p) →
  static_ok p → static_ok p'.
Proof.
  intros He Hs Hm Hr Hc [????? _ Hcalls].
  split; rewrite ?He, ?Hs, ?Hm; try done. intros fn id Hin. by eapply Hcalls, Hc.
Qed.

(** A goroutine step changes neither the name of the node nor its table; it changes the
    ring if it is a callback, and starts none. *)
Lemma go_next_static e s g g' s' sp :
  go_next e s g = Runs g' s' sp →
  SelfID s' = SelfID s ∧ s_Membership s' = s_Membership s ∧
  (s_Ring s' = s_Ring s ∨ ∃ fn id, g = Callback fn id ∧
    s_Ring s' = run_call (s_Membership s) (s_Ring s) (CallDead fn id)) ∧
  (∀ fn id, g' ≠ Callback fn id) ∧ ∀ fn id, Callback fn id ∉ sp.
Proof.
  destruct g; cbn [go_next upload_next handle_next repair_next]; unfold callback_next, enqueue_then; repeat case_match; intros [= <- <- <-];
    (split_and!; [done|done| |done|]); try (intros ??; rewrite ?elem_of_cons, elem_of_nil; naive_solver);
    try (by left); right; by eexists _, _.
Qed.

Lemma insert_callback (gs : list Goroutine) g gr fn id :
  (∀ fn id, gr ≠ Callback fn id) → Callback fn id ∈ <[g := gr]> gs → Callback fn id ∈ gs.
Proof. intros Hgr [Heq|?]%elem_of_insert_inv; [|done]. by destruct (Hgr fn id). Qed.

Lemma append_callback (gs : list Goroutine) gr fn id :
  (∀ fn id, gr ≠ Callback fn id) → Callback fn id ∈ gs ++ [gr] → Callback fn id ∈ gs.
Proof. intros Hgr [?|Heq%list_elem_of_singleton]%elem_of_app; [done|]. by destruct (Hgr fn id). Qed.

Lemma static_step ids p p' : distinct_points known → static_ok p → pstep p ids p' → static_ok p'.
Proof.
  intros Hd Hok [i pool job _ _|i job pool _ _|i pool _|i pc inp pc' os _ _|g gr gr' s sp Hg Hn|g gr gr' Hg Hf|id d d0 _|g
    |id healthy now|ids'|r chunks manifest _|req id d _|ids' req st _|ph|pool _];
    try (by eapply static_same; [..|exact Hok]; try done; apply Hok).
  - destruct (go_next_static _ _ _ _ _ _ Hn) as (Hs&Hm&Hr&Hg'&Hsp).
    eapply static_same; [..|exact Hok]; try done; cbn [set_go set_server pr_server pr_go].
    + destruct Hr as [->|(fn&id&->&->)]; [apply Hok|].
      destruct (so_calls p Hok fn id) as [Hne Hid]; [by eapply list_elem_of_lookup_2|].
      apply ring_of_call; [done|apply Hok|done..].
    + intros fn id [Hin|Hin]%elem_of_app; [by eapply insert_callback|]. by destruct (Hsp fn id).
  - eapply static_same; [..|exact Hok]; try done; [apply Hok|]. intros fn id. apply insert_callback. by destruct gr; inversion Hf.
  - eapply static_same; [..|exact Hok]; try done; [apply Hok|]. intros fn id. by apply insert_callback.
  - destruct Hok as [He Hs Ht Hts Ha Hr Hc]. pose proof (mstep_config (EvPing id healthy now) (s_Membership (pr_server p))) as (Hself&_).
    pose proof (mstep_table_ok (EvPing id healthy now) _ Ht) as Ht'. cbn [mstep] in Hself, Ht'.
    split; cbn [set_go set_server set_Membership pr_engine pr_server pr_go SelfID s_Membership s_Ring]; try done.
    + by rewrite Hself.
    + intros n. by rewrite ping_addrs.
    + intros fn i [Hin|Hin]%elem_of_app; [by eapply Hc|].
      apply list_elem_of_fmap in Hin as (cl&Hcl&Hin). apply ping_calls in Hin as [Hid [q Hq]].
      assert (i = id) as ->.
      { unfold call_goroutine in Hcl. destruct (call_target cl). cbn in Hid. congruence. }
      apply (known_address id (p_Addr q)). by rewrite <-Ha, AddrFor_lookup, Hq.
  - eapply static_same; [..|exact Hok]; try done; [apply Hok|]. intros fn id. by apply append_callback.
  - eapply static_same; [..|exact Hok]; try done; [apply Hok|]. intros fn id'. by apply append_callback.
  - eapply static_same; [..|exact Hok]; try done; [apply Hok|]. intros fn id. by apply append_callback.
Qed.

(** ** The queue *)

Definition pc_job (pc : WorkerPC) : option Job :=
  match pc with
  | AtReceive => None
  | AtGetN job | AtTargets job _ | AtSelect job _ _ _ | AtPush job _ _ _ | AtAnswer job _ _ _ _ => Some job
  end.

(** The queue is that of WorkerPool.v, and each of its workers is where its state says. *)
Record queue_ok (p : Process) : Prop := {
  qo_pool : pool_ok (pr_engine p) (s_Pool (pr_server p));
  qo_length : length (pr_workers p) = length (workers (s_Pool (pr_server p)));
  qo_jobs i pc w :
    pr_workers p !! i = Some pc → workers (s_Pool (pr_server p)) !! i = Some w → job_of w = pc_job pc;
}.

Lemma worker_next_job e s pc inp pc' os : worker_next e s pc inp = Some (pc', os) → pc_job pc' = pc_job pc.
Proof. destruct pc, inp; cbn [worker_next]; unfold push_failed; repeat case_match; by intros [= <- <-]. Qed.

(** What a goroutine does to the queue: an [Enqueue], or nothing. *)
Definition go_job (g : Goroutine) : option Job :=
  match g with
  | UploadEnqueue _ _ c _ => Some (job_of_chunk c)
  | RepairEnqueue job _ => Some job
  | _ => None
  end.

Lemma go_next_pool e s g g' s' sp :
  go_next e s g = Runs g' s' sp →
  match go_job g with
  | Some job => Enqueue e job (s_Pool s) = Done (s_Pool s')
  | None => s_Pool s' = s_Pool s
  end.
Proof.
  destruct g; cbn [go_next upload_next handle_next repair_next go_job]; unfold callback_next, enqueue_then; repeat case_match; intros [= <- <- <-]; done.
Qed.

(** Every step of a process is one of its queue, or leaves it alone. *)
Lemma pstep_pool ids p p' :
  pstep p ids p' →
  s_Pool (pr_server p') = s_Pool (pr_server p) ∨
  ∃ a, pool_step (pr_engine p) a (s_Pool (pr_server p)) = Done (s_Pool (pr_server p')).
Proof.
  intros [i pool job Hr _|i job pool _ Hf|i pool Hl|i pc inp pc' os _ _|g gr gr' s sp _ Hn|g gr gr' Hg Hf|id d d0 _|g
    |id healthy now|ids'|r chunks manifest _|req id d _|ids' req st _|ph|pool Hc]; try (by left).
  - right. by exists (ActReceive i).
  - right. by exists (ActFinish i).
  - right. by exists (ActLeave i).
  - apply go_next_pool in Hn. destruct (go_job gr) as [job|]; [right; by exists (ActEnqueue job)|by left].
  - right. by exists ActClose.
Qed.

Lemma pstep_engine ids p p' : pstep p ids p' → pr_engine p' = pr_engine p.
Proof. by intros []. Qed.

Lemma pool_step_accepted e a pl pl' : pool_step e a pl = Done pl' → accepted pl `prefix_of` accepted pl'.
Proof.
  destruct a; cbn [pool_step]; unfold Enqueue, worker_receive, worker_finish, worker_leave, Stop_close;
    repeat case_match; intros [= <-]; cbn; try done. by exists [job].
Qed.

Lemma pstep_accepted ids p p' job :
  pstep p ids p' → job ∈ accepted (s_Pool (pr_server p)) → job ∈ accepted (s_Pool (pr_server p')).
Proof.
  intros [->|[a Ha]]%pstep_pool; [done|]. apply pool_step_accepted in Ha as [k ->].
  intros ?. apply elem_of_app. by left.
Qed.

(** The other workers of a queue step. *)
Lemma queue_ok_insert p pl i pc w :
  queue_ok p → pool_ok (pr_engine p) pl → workers pl = <[i := w]> (workers (s_Pool (pr_server p))) →
  job_of w = pc_job pc → queue_ok (set_pc i pc (set_server (set_Pool pl (pr_server p)) p)).
Proof.
  intros [_ Hlen Hjobs] Hpool Hw Hjob.
  split; cbn [set_pc set_server set_Pool pr_engine pr_server pr_workers s_Pool]; [done|by rewrite Hw, !length_insert|].
  intros j pc' w'. rewrite Hw. intros [(->&->&_)|[Hne Hj]]%list_lookup_insert_Some.
  - intros [(_&->&_)|[? _]]%list_lookup_insert_Some; done.
  - intros [(?&_&_)|[_ Hj']]%list_lookup_insert_Some; [done|]. by eapply Hjobs.
Qed.

Lemma queue_step_ok ids p p' : queue_ok p → pstep p ids p' → queue_ok p'.
Proof.
  intros Hok Hst. pose proof Hst as Hpl. apply pstep_pool in Hpl. pose proof (pstep_engine _ _ _ Hst) as He.
  assert (pool_ok (pr_engine p') (s_Pool (pr_server p'))) as Hpool.
  { rewrite He. destruct Hpl as [->|[a Ha]]; [apply Hok|]. eapply pool_step_ok; [apply Hok|exact Ha]. }
  clear Hpl He. destruct Hst as [i pool job Hr Hw|i job pool Hi Hf|i pool Hl|i pc inp pc' os Hi Hn|g gr gr' s sp Hg Hn|g gr gr' Hg Hf|id d d0 _|g
    |id healthy now|ids'|r chunks manifest _|req id d _|ids' req st _|ph|pool Hc];
    try (by split; [exact Hpool|apply Hok..]).
  - cbn in Hpool. apply (queue_ok_insert p pool i _ (Working job)); [done..| |done].
    unfold worker_receive in Hr. destruct (workers _ !! i) as [[]|] eqn:Hi; try done.
    destruct (queue _) as [|job' q]; [done|]. injection Hr as <-. cbn [workers] in *.
    rewrite list_lookup_insert_eq in Hw by (by eapply lookup_lt_Some). by injection Hw as ->.
  - cbn in Hpool. apply (queue_ok_insert p pool i _ Waiting_job); [done..| |done].
    unfold worker_finish in Hf. destruct (workers _ !! i) as [[]|]; try done. by injection Hf as <-.
  - destruct Hok as [_ Hlen Hjobs]. unfold worker_leave in Hl.
    destruct (workers _ !! i) as [[]|] eqn:Hi; try done. destruct (queue _); [|done].
    destruct (closed _); [|done]. injection Hl as <-.
    split; cbn [set_server set_Pool set_worker pr_server pr_workers s_Pool workers]; [done|by rewrite length_insert|].
    intros j pc w Hj [(->&<-&_)|[_ Hw]]%list_lookup_insert_Some; [by apply (Hjobs j pc Waiting_job)|by eapply Hjobs].
  - destruct Hok as [_ Hlen Hjobs].
    split; cbn [add_lookups add_outcomes set_pc pr_engine pr_server pr_workers]; [done|by rewrite length_insert|].
    intros j pc1 w [(->&->&_)|[_ Hj]]%list_lookup_insert_Some Hw; [|by eapply Hjobs].
    rewrite (worker_next_job _ _ _ _ _ _ Hn). by eapply Hjobs.
  - assert (workers (s_Pool s) = workers (s_Pool (pr_server p))) as Hw.
    { apply go_next_pool in Hn. destruct (go_job gr) as [job|]; [|by rewrite Hn]. revert Hn.
      unfold Enqueue. repeat case_match; [done| |done]. intros [= <-]. done. }
    destruct Hok as [_ Hlen Hjobs]. split; [exact Hpool|..]; cbn [set_go set_server pr_server pr_workers];
      by rewrite Hw.
  - unfold Stop_close in Hc. destruct (closed _); [done|]. injection Hc as <-. by split; [exact Hpool|apply Hok..].
Qed.

Lemma queue_boot now local : queue_ok (boot c now local).
Proof.
  unfold boot. destruct (setup_peers _ _ _ now) as [m r].
  split; cbn [pr_engine pr_server pr_workers NewServer s_Pool]; [apply Start_ok|cbn; by rewrite !repeat_length|].
  intros i pc w Hpc%list_elem_of_lookup_2 Hw%list_elem_of_lookup_2. unfold Start in Hw. cbn in Hw.
  apply list_elem_of_In, repeat_spec in Hpc as ->. apply list_elem_of_In, repeat_spec in Hw as ->. done.
Qed.

(** The job a worker is on was accepted. *)
Lemma worker_job_accepted p i pc job :
  queue_ok p → pr_workers p !! i = Some pc → pc_job pc = Some job → job ∈ accepted (s_Pool (pr_server p)).
Proof.
  intros [Hpool Hlen Hjobs] Hi Hpc.
  destruct (lookup_lt_is_Some_2 (workers (s_Pool (pr_server p))) i) as [w Hw].
  { rewrite <-Hlen. by eapply lookup_lt_Some. }
  pose proof (Hjobs i pc w Hi Hw) as Hjob. rewrite Hpc in Hjob.
  rewrite (ok_fifo _ _ Hpool), elem_of_app, (ok_taken _ _ Hpool), elem_of_app. left. right.
  unfold in_flight. apply list_elem_of_omap. exists w. split; [by eapply list_elem_of_lookup_2|done].
Qed.

(** ** The data *)

(** Data under its SHA-256, and a name among those given. *)
Definition genuine (given : gset string) (id : string) (d : bytes) : Prop := ID d = id ∧ id ∈ given.
Definition genuine_job (given : gset string) (job : Job) : Prop := genuine given (j_ChunkID job) (j_Data job).

(** The same, but for damage. *)
Definition vouched (given damaged : gset string) (id : string) (d : bytes) : Prop := id ∈ given ∧ (ID d = id ∨ id ∈ damaged).
Definition vouched_job (given damaged : gset string) (job : Job) : Prop := vouched given damaged (j_ChunkID job) (j_Data job).

Lemma genuine_vouched given damaged id d : genuine given id d → vouched given damaged id d.
Proof. intros [? ?]. by split; [|left]. Qed.

Lemma vouched_mono given given' damaged damaged' id d :
  given ⊆ given' → damaged ⊆ damaged' → vouched given damaged id d → vouched given' damaged' id d.
Proof. intros Hg Hd [? [?|?]]; (split; [by apply Hg|]); [by left|right; by apply Hd]. Qed.

(** What a goroutine carries that clients or peers gave, and what it has read from the
    disk. *)
Definition carried (g : Goroutine) : list Job :=
  match g with
  | Upload _ _ cs => job_of_chunk <$> cs
  | UploadPut _ _ ch cs | UploadWrite _ _ ch cs | UploadEnqueue _ _ ch cs => job_of_chunk <$> ch :: cs
  | HandlePut _ id d | HandleWrite _ id d => [MkJob id d]
  | _ => []
  end.
Definition has_read (g : Goroutine) : option Job :=
  match g with RepairEnqueue job _ => Some job | _ => None end.

Record data_ok (given : gset string) (p : Process) : Prop := {
  do_store id d : data (Local (pr_server p)) !! id = Some d → vouched given (pr_damaged p) id d;
  do_accepted job : job ∈ accepted (s_Pool (pr_server p)) → vouched_job given (pr_damaged p) job;
  do_carried g job : g ∈ pr_go p → job ∈ carried g → genuine_job given job;
  do_read g job : g ∈ pr_go p → has_read g = Some job → vouched_job given (pr_damaged p) job;
}.

Lemma data_ok_mono given given' p : given ⊆ given' → data_ok given p → data_ok given' p.
Proof.
  intros Hsub [Hs Ha Hc Hr]. split.
  - intros id d Hd. by eapply vouched_mono, Hs.
  - intros job Hj. by eapply vouched_mono, Ha.
  - intros g job Hg Hj. destruct (Hc g job Hg Hj) as [? ?]. split; [done|by apply Hsub].
  - intros g job Hg Hj. by eapply vouched_mono, Hr.
Qed.

(** The invariant after a step, from what is new. *)
Lemma data_ok_upd given p p' :
  data_ok given p → pr_damaged p ⊆ pr_damaged p' →
  (∀ id d, data (Local (pr_server p')) !! id = Some d →
     data (Local (pr_server p)) !! id = Some d ∨ vouched given (pr_damaged p') id d) →
  (∀ job, job ∈ accepted (s_Pool (pr_server p')) →
     job ∈ accepted (s_Pool (pr_server p)) ∨ vouched_job given (pr_damaged p') job) →
  (∀ g, g ∈ pr_go p' → g ∈ pr_go p ∨
     (∀ job, job ∈ carried g → genuine_job given job) ∧
     ∀ job, has_read g = Some job → vouched_job given (pr_damaged p') job) →
  data_ok given p'.
Proof.
  intros [Hs Ha Hc Hr] Hsub Hs' Ha' Hg'. split.
  - intros id d [Hd|?]%Hs'; [|done]. by eapply vouched_mono, Hs.
  - intros job [Hj|?]%Ha'; [|done]. by eapply vouched_mono, Ha.
  - intros g job [Hg|[Hg _]]%Hg' Hj; [by eapply Hc|by apply Hg].
  - intros g job [Hg|[_ Hg]]%Hg' Hj; [by eapply vouched_mono, Hr|by apply Hg].
Qed.

(** A goroutine step adds to the store what the goroutine carries, to the queue that or
    what it has read; and it carries nothing new but what it has just read. *)
Lemma go_next_data e (s : node_server) g g' s' sp :
  go_next e s g = Runs g' s' sp →
  (data (Local s') = data (Local s) ∨
   ∃ job, job ∈ carried g ∧ data (Local s') = <[j_ChunkID job := j_Data job]> (data (Local s))) ∧
  (accepted (s_Pool s') = accepted (s_Pool s) ∨
   ∃ job, (job ∈ carried g ∨ has_read g = Some job) ∧ accepted (s_Pool s') = accepted (s_Pool s) ++ [job]) ∧
  (∀ job, job ∈ carried g' → job ∈ carried g) ∧
  (∀ job, has_read g' = Some job → data (Local s) !! j_ChunkID job = Some (j_Data job)) ∧
  ∀ gr, gr ∈ sp → carried gr = [] ∧ has_read gr = None.
Proof.
  assert (∀ id d (m l : Memory) o, b_Put (Backend := Memory_Backend) id d m = (o, l) → data l = <[id := d]> (data m)) as Hput
    by (by intros id d m l o [= <- <-]).
  destruct g; cbn [go_next upload_next handle_next repair_next]; unfold callback_next, enqueue_then, Enqueue; repeat case_match; intros [= <- <- <-];
    (split_and!; [try (by left)|try (by left)|try done; try (by intros job Hjob; cbn in *; set_solver)|try done
      |intros gr Hgr; rewrite ?elem_of_cons, elem_of_nil in Hgr; naive_solver]).
  all: try (right; eexists (job_of_chunk _); split; [by left|by eapply Hput]).
  all: try (right; eexists (MkJob _ _); split; [by left|by eapply Hput]).
  all: try (right; eexists; split; [|simplify_eq/=; done]; (left; by left) || by right).
  intros job [= <-]. cbn [j_ChunkID j_Data].
  match goal with H : b_Get ?i (Local s) = Ok ?x |- _ => change (Memory_Get i (Local s) = Ok x) in H; unfold Memory_Get in H end.
  by destruct (data _ !! _); simplify_eq.
Qed.

Lemma split_genuine given blob body n cs manifest job :
  Split blob body n = Ok (cs, manifest) → list_to_set (ck_ID <$> cs) ⊆ given →
  job ∈ job_of_chunk <$> cs → genuine_job given job.
Proof.
  intros HS Hsub (ch&->&Hch)%list_elem_of_fmap. apply Split_named in HS as [Hnamed _].
  rewrite Forall_forall in Hnamed. split; cbn; [symmetry; by apply Hnamed|].
  apply Hsub, elem_of_list_to_set, list_elem_of_fmap. by exists ch.
Qed.

(** A step of the queue other than an Enqueue accepts nothing. *)
Lemma pool_step_accepts e a pl pl' :
  pool_step e a pl = Done pl' → (∀ job, a ≠ ActEnqueue job) → accepted pl' = accepted pl.
Proof.
  destruct a as [job|i|i|i|]; cbn [pool_step]; unfold worker_receive, worker_finish, worker_leave, Stop_close;
    [by intros _ Hno; destruct (Hno job)|..]; repeat case_match; intros [= <-]; done.
Qed.

Lemma append_go (gs : list Goroutine) g gr : gr ∈ gs ++ [g] → gr ∈ gs ∨ gr = g.
Proof. intros [?|?%list_elem_of_singleton]%elem_of_app; auto. Qed.

Lemma data_step given ids p p' : data_ok given p → pstep p ids p' → ids ⊆ given → data_ok given p'.
Proof.
  intros Hok Hst Hids. pose proof Hok as [Hstore Hacc Hcar Hread].
  destruct Hst as [i pool job Hr _|i job pool _ Hf|i pool Hl|i pc inp pc' os _ _|g gr gr' s sp Hg Hn|g gr gr' Hg Hf|id d d0 Hd|g
    |id healthy now|ids'|r chunks manifest HS|req id d Hid|ids' req st _|ph|pool Hc];
    apply (data_ok_upd given p); try done; try (by left); try (by intros; left).
  - intros j. cbn. rewrite (pool_step_accepts (pr_engine p) (ActReceive i) _ _ Hr) by done. by left.
  - intros j. cbn. rewrite (pool_step_accepts (pr_engine p) (ActFinish i) _ _ Hf) by done. by left.
  - intros j. cbn. rewrite (pool_step_accepts (pr_engine p) (ActLeave i) _ _ Hl) by done. by left.
  - cbn. set_solver.
  - destruct (go_next_data _ _ _ _ _ _ Hn) as (Hdata&_). apply list_elem_of_lookup_2 in Hg. intros id d. cbn.
    destruct Hdata as [->|(job&Hjob&->)]; [by left|]. intros [[<- <-]|[_ ?]]%lookup_insert_Some; [right|by left].
    by eapply genuine_vouched, Hcar.
  - destruct (go_next_data _ _ _ _ _ _ Hn) as (_&Ha&_). apply list_elem_of_lookup_2 in Hg. intros job. cbn.
    destruct Ha as [->|(job'&Hjob&->)]; [by left|]. intros [?| ->%list_elem_of_singleton]%elem_of_app; [by left|right].
    destruct Hjob as [Hjob|Hjob]; [by eapply genuine_vouched, Hcar|]. eapply vouched_mono; [reflexivity| |by eapply Hread]. set_solver.
  - destruct (go_next_data _ _ _ _ _ _ Hn) as (_&_&Hg'&Hr'&Hsp). apply list_elem_of_lookup_2 in Hg. intros g0. cbn.
    intros [[->|Hin]%elem_of_insert_inv|Hin]%elem_of_app; [right|by left|right].
    + split; [intros job Hjob; by eapply Hcar, Hg'|]. intros job Hjob%Hr'. eapply vouched_mono; [reflexivity| |by eapply Hstore]. set_solver.
    + destruct (Hsp _ Hin) as [-> ->]. split; [by intros job ?%elem_of_nil|done].
  - intros g0. cbn. intros [->|Hin]%elem_of_insert_inv; [right|by left].
    by destruct gr; inversion Hf; (split; [by intros job ?%elem_of_nil|done]).
  - cbn. set_solver.
  - intros id' d'. cbn. intros [[<- <-]|[_ ?]]%lookup_insert_Some; [right|by left].
    destruct (Hstore id d0 Hd) as [? _]. split; [done|right; set_solver].
  - intros g0. cbn. intros [->|Hin]%elem_of_insert_inv; [right|by left]. by split; [intros job ?%elem_of_nil|].
  - intros g0. cbn. intros [?|Hin]%elem_of_app; [by left|right]. apply list_elem_of_fmap in Hin as (cl&->&_).
    unfold call_goroutine. destruct (call_target cl). by split; [intros job ?%elem_of_nil|].
  - intros g0. cbn. intros [?| ->]%append_go; [by left|right]. split; [|done]. intros job Hjob. by eapply split_genuine.
  - intros g0. cbn. intros [?| ->]%append_go; [by left|right]. split; [|done]. intros job ->%list_elem_of_singleton.
    split; [done|]. cbn. set_solver.
  - intros g0. cbn. intros [?| ->]%append_go; [by left|right]. by split; [intros job ?%elem_of_nil|].
  - intros j. cbn. rewrite (pool_step_accepts (pr_engine p) ActClose _ _ Hc) by done. by left.
Qed.

Lemma data_boot given damaged now local :
  (∀ id d, data local !! id = Some d → vouched given damaged id d) → data_ok given (mark damaged (boot c now local)).
Proof.
  intros Hlocal. unfold boot. destruct (setup_peers _ _ _ now) as [m r].
  split; cbn; [|by intros job ?%elem_of_nil|by intros g job ?%elem_of_nil|by intros g job ?%elem_of_nil].
  by rewrite (left_id_L ∅ (∪)).
Qed.

(** ** Manifests *)

(** The manifest an upload has in hand, and the chunks it has not enqueued. *)
Definition uploading (g : Goroutine) : option (Manifest * list Chunk) :=
  match g with
  | Upload _ manifest cs => Some (manifest, cs)
  | UploadPut _ manifest ch cs | UploadWrite _ manifest ch cs | UploadEnqueue _ manifest ch cs => Some (manifest, ch :: cs)
  | _ => None
  end.

Lemma uploading_carried g manifest cs : uploading g = Some (manifest, cs) → carried g = job_of_chunk <$> cs.
Proof. destruct g; by intros [= <- <-]. Qed.

(** A job of the chunk, with its data, was accepted. *)
Definition accepted_id (s : node_server) (id : string) : Prop :=
  ∃ job, job ∈ accepted (s_Pool s) ∧ j_ChunkID job = id ∧ ID (j_Data job) = id.

Record manifests_ok (p : Process) : Prop := {
  mo_indexed blobID manifest id :
    manifests (pr_server p) !! blobID = Some manifest → id ∈ ChunkIDs manifest → accepted_id (pr_server p) id;
  mo_uploads g manifest cs id :
    g ∈ pr_go p → uploading g = Some (manifest, cs) → id ∈ ChunkIDs manifest →
    id ∈ ck_ID <$> cs ∨ accepted_id (pr_server p) id;
}.

Lemma go_next_uploads e (s : node_server) g g' s' sp :
  go_next e s g = Runs g' s' sp →
  (manifests s' = manifests s ∨
   ∃ blobID manifest, uploading g = Some (manifest, []) ∧ manifests s' = <[blobID := manifest]> (manifests s)) ∧
  (∀ manifest cs', uploading g' = Some (manifest, cs') → ∃ cs, uploading g = Some (manifest, cs) ∧
     (cs = cs' ∨ ∃ ch, cs = ch :: cs' ∧ job_of_chunk ch ∈ accepted (s_Pool s'))) ∧
  ∀ gr, gr ∈ sp → uploading gr = None.
Proof.
  destruct g; cbn [go_next upload_next handle_next repair_next]; unfold callback_next, enqueue_then, Enqueue; repeat case_match; intros [= <- <- <-]; simplify_eq/=;
    (split_and!; [try (by left); right; by eexists _, _
                 |try done; intros man cs' [= <- <-]; eexists; (split; [done|]); try (by left)
                 |intros gr Hgr; rewrite ?elem_of_cons, elem_of_nil in Hgr; naive_solver]).
  right. eexists. split; [done|]. apply elem_of_app. right. by left.
Qed.

Lemma accepted_id_step ids p p' id :
  pstep p ids p' → accepted_id (pr_server p) id → accepted_id (pr_server p') id.
Proof. intros Hst (job&Hjob&?&?). exists job. split; [|done]. by eapply pstep_accepted. Qed.

(** The goroutines after a step: those that were, and new ones that upload nothing or all
    the chunks of their manifest. *)
Lemma manifests_upd p p' :
  manifests_ok p → (∀ id, accepted_id (pr_server p) id → accepted_id (pr_server p') id) →
  (∀ b m, manifests (pr_server p') !! b = Some m → manifests (pr_server p) !! b = Some m ∨
     ∃ g, g ∈ pr_go p ∧ uploading g = Some (m, [])) →
  (∀ g, g ∈ pr_go p' → g ∈ pr_go p ∨ ∀ m cs id, uploading g = Some (m, cs) → id ∈ ChunkIDs m →
     id ∈ ck_ID <$> cs ∨ accepted_id (pr_server p') id) →
  manifests_ok p'.
Proof.
  intros [Hman Hup] Hacc Hm Hg. split.
  - intros b m id [Hb|(g&Hin&Hu)]%Hm Hid; apply Hacc; [by eapply Hman|].
    by destruct (Hup g m [] id Hin Hu Hid) as [?%elem_of_nil|?].
  - intros g m cs id [Hin|Hnew]%Hg Hu Hid; [|by eapply Hnew]. destruct (Hup g m cs id Hin Hu Hid); auto.
Qed.

Lemma manifests_step given ids p p' : data_ok given p → manifests_ok p → pstep p ids p' → manifests_ok p'.
Proof.
  intros Hda Hok Hst. pose proof (λ id, accepted_id_step ids p p' id Hst) as Hacc.
  apply (manifests_upd p p' Hok Hacc); destruct Hok as [Hman Hup];
    destruct Hst as [i pool job _ _|i job pool _ _|i pool _|i pc inp pc' os _ _|g gr gr' s sp Hg Hn|g gr gr' Hg Hf|id d d0 _|g
      |id healthy now|ids'|r chunks manifest HS|req id d _|ids' req st _|ph|pool _]; try (by left); try (by intros; left).
  - destruct (go_next_uploads _ _ _ _ _ _ Hn) as (Hm&_). apply list_elem_of_lookup_2 in Hg. intros b m. cbn.
    destruct Hm as [->|(b'&m'&Hu&->)]; [by left|]. intros [[_ <-]|[_ ?]]%lookup_insert_Some; [right; by exists gr|by left].
  - destruct (go_next_uploads _ _ _ _ _ _ Hn) as (_&Hu'&Hsp). apply list_elem_of_lookup_2 in Hg. intros g0. cbn.
    intros [[->|Hin]%elem_of_insert_inv|Hin]%elem_of_app; [right|by left|right].
    + intros m cs id Hu Hid. destruct (Hu' m cs Hu) as (cs0&Hu0&Hcs).
      destruct (Hup gr m cs0 id Hg Hu0 Hid) as [Hin|?]; [|right; by apply Hacc].
      destruct Hcs as [->|(ch&->&Hch)]; [by left|].
      apply elem_of_cons in Hin as [->|?]; [right|by left]. exists (job_of_chunk ch). split; [done|]. split; [done|].
      apply (do_carried given p Hda gr (job_of_chunk ch) Hg). rewrite (uploading_carried _ _ _ Hu0). by left.
    + intros m cs id Hu. by rewrite (Hsp _ Hin) in Hu.
  - intros g0. cbn. intros [->|Hin]%elem_of_insert_inv; [right|by left]. by destruct gr; inversion Hf.
  - intros g0. cbn. intros [->|Hin]%elem_of_insert_inv; [by right|by left].
  - intros g0. cbn. intros [?|Hin]%elem_of_app; [by left|right]. apply list_elem_of_fmap in Hin as (cl&->&_).
    unfold call_goroutine. by destruct (call_target cl).
  - intros g0. cbn. intros [?| ->]%append_go; [by left|right]. intros m cs id [= <- <-] Hid. left.
    apply Split_named in HS as [_ HS]. by rewrite <-HS.
  - intros g0. cbn. intros [?| ->]%append_go; [by left|by right].
  - intros g0. cbn. intros [?| ->]%append_go; [by left|by right].
Qed.

Lemma manifests_boot now local : manifests_ok (boot c now local).
Proof.
  unfold boot. destruct (setup_peers _ _ _ now) as [m r].
  split; cbn; [by intros ???; rewrite lookup_empty|by intros g man cs id ?%elem_of_nil].
Qed.

(** ** Outcomes *)

(** A push of the job to each of the nodes but this one has ended. *)
Definition covered (os : list (Job * string * PushOutcome)) (job : Job) (ns : list string) : Prop :=
  ∀ n, n ∈ ns → n ≠ c_nodeID c → ∃ addr o, address_of n = Some addr ∧ (job, addr, o) ∈ os.

(** The targets a worker has behind it and before it are the replica set of the ring at
    which it looked them up. *)
Definition pc_ok (ls : list (Job * Ring)) (os : list (Job * string * PushOutcome)) (pc : WorkerPC) : Prop :=
  match pc with
  | AtReceive | AtGetN _ => True
  | AtTargets job ts =>
      ∃ r before, (job, r) ∈ ls ∧ ring_of r ∧ TargetsFor r (j_ChunkID job) = before ++ ts ∧ covered os job before
  | AtSelect job ts addr _ | AtPush job ts addr _ | AtAnswer job ts addr _ _ =>
      ∃ r before n, (job, r) ∈ ls ∧ ring_of r ∧ TargetsFor r (j_ChunkID job) = before ++ n :: ts ∧ covered os job before ∧
        address_of n = Some addr
  end.

Record outcomes_ok (p : Process) : Prop := {
  oo_pcs pc : pc ∈ pr_workers p → pc_ok (pr_lookups p) (pr_outcomes p) pc;
  oo_finished job : job ∈ finished (s_Pool (pr_server p)) →
    ∃ r, (job, r) ∈ pr_lookups p ∧ ring_of r ∧ covered (pr_outcomes p) job (TargetsFor r (j_ChunkID job));
}.

Lemma covered_app os os' job ns : covered os job ns → covered (os ++ os') job ns.
Proof. intros Hc n Hn Hne. destruct (Hc n Hn Hne) as (a&o&?&?). exists a, o. set_solver. Qed.

Lemma pc_ok_app ls ls' os os' pc : pc_ok ls os pc → pc_ok (ls ++ ls') (os ++ os') pc.
Proof.
  assert (∀ x, x ∈ ls → x ∈ ls ++ ls') as Hin by (intros x ?; apply elem_of_app; by left).
  destruct pc; cbn; try done; naive_solver eauto using covered_app.
Qed.

Lemma covered_snoc os job ns n addr o :
  covered os job ns → address_of n = Some addr → covered (os ++ [(job, addr, o)]) job (ns ++ [n]).
Proof.
  intros Hc Ha n' [Hn| ->%list_elem_of_singleton]%elem_of_app Hne.
  - by apply (covered_app os _ job ns Hc).
  - exists addr, o. split; [done|]. apply elem_of_app. right. by left.
Qed.

Lemma push_failed_ok e job ts addr attempt err ls os pc os' r before n :
  (job, r) ∈ ls → ring_of r → TargetsFor r (j_ChunkID job) = before ++ n :: ts → covered os job before → address_of n = Some addr →
  push_failed e job ts addr attempt err = (pc, os') → pc_ok ls (os ++ os') pc.
Proof.
  intros Hl Hr Ht Hc Ha. unfold push_failed. case_match; intros [= <- <-]; cbn.
  - exists r, before, n. rewrite app_nil_r. done.
  - exists r, (before ++ [n]). split_and!; [done|done|by rewrite <-(assoc_L (++))|by apply covered_snoc].
Qed.

Lemma worker_next_ok p pc inp pc' os' :
  static_ok p → pc_ok (pr_lookups p) (pr_outcomes p) pc → worker_next (pr_engine p) (pr_server p) pc inp = Some (pc', os') →
  pc_ok (pr_lookups p ++ looks_up (pr_server p) pc) (pr_outcomes p ++ os') pc'.
Proof.
  intros Hok Hpc. destruct pc as [|job|job ts|job ts addr att|job ts addr att|job ts addr att req], inp; try done;
    try (by destruct ts); cbn [looks_up]; rewrite ?(right_id_L [] (++) (pr_lookups p)); cbn in Hpc.
  - intros [= <- <-]. exists (s_Ring (pr_server p)), [].
    split_and!; [apply elem_of_app; right; by left|apply Hok|done|by intros n ?%elem_of_nil].
  - destruct Hpc as (r&before&Hl&Hr&Ht&Hc). cbn [worker_next]. destruct ts as [|n ts]; [done|].
    rewrite (so_engine p Hok). cbn [e_selfID NewEngine]. case_decide as Hself.
    + intros [= <- <-]. exists r, (before ++ [n]). rewrite app_nil_r, <-(assoc_L (++)). split_and!; [done..|].
      intros n' [Hn| ->%list_elem_of_singleton]%elem_of_app Hne; [by apply Hc|done].
    + rewrite (so_addrs p Hok n).
      destruct (address_known n) as [addr Ha]; [|done|].
      { eapply target_known; [exact Hr|]. rewrite Ht. set_solver. }
      rewrite Ha. intros [= <- <-]. exists r, before, n. by rewrite app_nil_r.
  - destruct Hpc as (r&before&n&Hl&Hr&Ht&Hc&Ha). intros [= <- <-]. exists r, before, n. by rewrite app_nil_r.
  - destruct Hpc as (r&before&n&Hl&Hr&Ht&Hc&Ha). intros [= <- <-]. exists r, (before ++ [n]).
    split_and!; [done|done|by rewrite <-(assoc_L (++))|by apply covered_snoc].
  - destruct Hpc as (r&before&n&Hl&Hr&Ht&Hc&Ha). intros [= Hpf]. by eapply push_failed_ok.
  - destruct Hpc as (r&before&n&Hl&Hr&Ht&Hc&Ha). intros [= <- <-]. exists r, before, n. by rewrite app_nil_r.
  - destruct Hpc as (r&before&n&Hl&Hr&Ht&Hc&Ha). cbn [worker_next]. destruct (push_answered _ _ resp).
    + intros [= Hpf]. by eapply push_failed_ok.
    + intros [= <- <-]. exists r, (before ++ [n]). split_and!; [done|done|by rewrite <-(assoc_L (++))|by apply covered_snoc].
Qed.

(** Only a worker that is done with a job finishes it. *)
Lemma pool_step_finished e a pl pl' job :
  pool_step e a pl = Done pl' → job ∈ finished pl' →
  job ∈ finished pl ∨ ∃ i, a = ActFinish i ∧ workers pl !! i = Some (Working job).
Proof.
  destruct a as [|i|i|i|]; cbn [pool_step]; unfold Enqueue, worker_receive, worker_finish, worker_leave, Stop_close;
    repeat case_match; intros [= <-]; cbn; try tauto.
  intros [?| ->%list_elem_of_singleton]%elem_of_app; [tauto|]. right. by exists i.
Qed.

Lemma finished_step ids p p' job :
  queue_ok p → pstep p ids p' → job ∈ finished (s_Pool (pr_server p')) →
  job ∈ finished (s_Pool (pr_server p)) ∨ AtTargets job [] ∈ pr_workers p.
Proof.
  intros Hq [i pool job' Hr _|i job' pool Hi Hf|i pool Hl|i pc inp pc' os _ _|g gr gr' s sp _ Hn|g gr gr' Hg Hf|id d d0 _|g
    |id healthy now|ids'|r chunks manifest HS|req id d _|ids' req st _|ph|pool Hc]; try tauto; cbn.
  - intros [?|(?&?&_)]%(pool_step_finished (pr_engine p) (ActReceive i) _ _ _ Hr); [tauto|done].
  - intros [?|(j&[= <-]&Hw)]%(pool_step_finished (pr_engine p) (ActFinish i) _ _ _ Hf); [tauto|]. right.
    pose proof (qo_jobs p Hq i _ _ Hi Hw) as [= <-]. by eapply list_elem_of_lookup_2.
  - intros [?|(?&?&_)]%(pool_step_finished (pr_engine p) (ActLeave i) _ _ _ Hl); [tauto|done].
  - apply go_next_pool in Hn. destruct (go_job gr) as [j|]; [|rewrite Hn; tauto].
    intros [?|(?&?&_)]%(pool_step_finished (pr_engine p) (ActEnqueue j) _ _ _ Hn); [tauto|done].
  - intros [?|(?&?&_)]%(pool_step_finished (pr_engine p) ActClose _ _ _ Hc); [tauto|done].
Qed.

Lemma outcomes_step ids p p' :
  static_ok p → queue_ok p → outcomes_ok p → pstep p ids p' → outcomes_ok p'.
Proof.
  intros Hs Hq [Hpcs Hfin] Hst.
  assert (∃ ls os, pr_lookups p' = pr_lookups p ++ ls ∧ pr_outcomes p' = pr_outcomes p ++ os ∧
    ∀ pc, pc ∈ pr_workers p' → pc_ok (pr_lookups p ++ ls) (pr_outcomes p ++ os) pc) as (ls&os&Hls&Hos&Hpcs').
  { clear Hfin. destruct Hst as [i pool job _ _|i job pool _ _|i pool _|i pc inp pc' os Hi Hn|g gr gr' s sp _ _|g gr gr' _ _|id d d0 _|g
      |id healthy now|ids'|r chunks manifest _|req id d _|ids' req st _|ph|pool _];
      try (exists [], []; rewrite !(right_id_L [] (++)); (split; [done|]); (split; [done|]);
        first [done|intros pc [->|?]%elem_of_insert_inv; [done|by apply Hpcs]]).
    exists (looks_up (pr_server p) pc), os. split; [done|]. split; [done|].
    intros pc0 [->|Hin]%elem_of_insert_inv; [|by apply pc_ok_app, Hpcs].
    eapply worker_next_ok; [done| |done]. apply Hpcs. by eapply list_elem_of_lookup_2. }
  split; rewrite Hls, Hos; [done|]. intros job [Hjob|Hjob]%(finished_step _ _ _ _ Hq Hst).
  - destruct (Hfin job Hjob) as (r&Hl&Hr&Hc). exists r. split; [apply elem_of_app; by left|]. split; [done|]. by apply covered_app.
  - destruct (Hpcs _ Hjob) as (r&before&Hl&Hr&Ht&Hc). exists r. split; [apply elem_of_app; by left|]. split; [done|].
    rewrite Ht, app_nil_r. by apply covered_app.
Qed.

Lemma outcomes_boot now local : outcomes_ok (boot c now local).
Proof.
  unfold boot. destruct (setup_peers _ _ _ now) as [m r]. split; cbn [pr_workers pr_server NewServer s_Pool Start finished].
  - intros pc Hpc%list_elem_of_In%repeat_spec. by subst.
  - by intros job ?%elem_of_nil.
Qed.

(** ** The invariant *)

Record proc_ok (given : gset string) (p : Process) : Prop := {
  pk_static : static_ok p;
  pk_queue : queue_ok p;
  pk_data : data_ok given p;
  pk_manifests : manifests_ok p;
  pk_outcomes : outcomes_ok p;
}.

Lemma boot_mark now local : mark ∅ (boot c now local) = boot c now local.
Proof. unfold boot. destruct (setup_peers _ _ _ now). done. Qed.

Lemma proc_ok_boot given damaged now local :
  distinct_points known → (∀ id d, data local !! id = Some d → vouched given damaged id d) →
  proc_ok given (mark damaged (boot c now local)).
Proof.
  intros Hd Hl. pose proof (data_boot given damaged now local Hl) as Hdata.
  split; [|..|exact Hdata| |]; [destruct (static_boot now local Hd)|destruct (queue_boot now local)
    |destruct (manifests_boot now local)|destruct (outcomes_boot now local)]; by split.
Qed.

Lemma proc_ok_step given ids p p' :
  distinct_points known → proc_ok given p → pstep p ids p' → ids ⊆ given → proc_ok given p'.
Proof.
  intros Hd [Hs Hq Hda Hm Ho] Hst Hids.
  split; [by eapply static_step|by eapply queue_step_ok|by eapply data_step|by eapply manifests_step|by eapply outcomes_step].
Qed.

(** What the index says of a chunk of one of its manifests: its job was accepted, and once
    it is neither queued nor with a worker, a push of it has ended for every other member
    of the replica set that the worker looked up. *)
Lemma indexed_job given p blobID manifest id :
  proc_ok given p → manifests (pr_server p) !! blobID = Some manifest → id ∈ ChunkIDs manifest →
  ∃ job, job ∈ accepted (s_Pool (pr_server p)) ∧ j_ChunkID job = id ∧ ID (j_Data job) = id ∧
    (job ∉ queue (s_Pool (pr_server p)) → job ∉ in_flight (s_Pool (pr_server p)) →
     ∃ r, (job, r) ∈ pr_lookups p ∧ ring_of r ∧ covered (pr_outcomes p) job (TargetsFor r id)).
Proof.
  intros [_ Hq Hd Hm Ho] Hman Hid.
  destruct (mo_indexed p Hm blobID manifest id Hman Hid) as (job&Hjob&<-&HID). exists job.
  split_and!; [done..|]. intros Hnq Hnf.
  apply (oo_finished p Ho job). destruct Hq as [[Hfifo Htaken _ _ _] _ _].
  rewrite Hfifo, elem_of_app, Htaken, elem_of_app in Hjob. tauto.
Qed.

(** ** Steps of a worker *)

(** Bounds the steps of a worker until it is at the end of its targets: at most three per
    attempt and one per target, and one for the lookup of at most three targets. *)
Definition worker_measure (e : Engine) (pc : WorkerPC) : nat :=
  let push := 3 * (e_maxRetries e + 1) in
  match pc with
  | AtReceive => 0
  | AtGetN _ => 1 + 3 * push
  | AtTargets _ ts => push * length ts
  | AtSelect _ ts _ attempt => push * length ts + 3 * (e_maxRetries e - attempt) + 3
  | AtPush _ ts _ attempt => push * length ts + 3 * (e_maxRetries e - attempt) + 2
  | AtAnswer _ ts _ attempt _ => push * length ts + 3 * (e_maxRetries e - attempt) + 1
  end.

Lemma push_failed_measure e job ts addr attempt err :
  worker_measure e (push_failed e job ts addr attempt err).1 <
  3 * (e_maxRetries e + 1) * length ts + 3 * (e_maxRetries e - attempt) + 1.
Proof.
  unfold push_failed. destruct (Nat.leb_spec (attempt + 1) (e_maxRetries e)); cbn [fst worker_measure]; lia.
Qed.

Lemma worker_next_measure e (s : node_server) pc inp pc' os :
  ring_of (s_Ring s) → worker_next e s pc inp = Some (pc', os) → worker_measure e pc' < worker_measure e pc.
Proof.
  intros (S&Hr&_).
  destruct pc as [|job|job ts|job ts addr att|job ts addr att|job ts addr att req], inp; try done;
    try (by destruct ts); cbn [worker_next].
  - intros [= <- _]. cbn [worker_measure]. pose proof (length_GetN _ S (j_ChunkID job) Factor Hr). unfold Factor in *. nia.
  - destruct ts as [|n ts]; [done|]. cbn [worker_measure length]. repeat case_match; intros [= <- _]; cbn [worker_measure]; nia.
  - intros [= <- _]. cbn [worker_measure]. lia.
  - intros [= <- _]. cbn [worker_measure]. lia.
  - intros [= Hpf]. pose proof (push_failed_measure e job ts addr att err) as Hm. rewrite Hpf in Hm.
    cbn [fst worker_measure] in *. lia.
  - intros [= <- _]. cbn [worker_measure]. lia.
  - case_match; intros [= Hpf]; [|subst; cbn [worker_measure]; lia].
    match type of Hpf with push_failed _ _ _ _ _ ?er = _ => pose proof (push_failed_measure e job ts addr att er) as Hm end.
    rewrite Hpf in Hm. exact Hm.
Qed.

Section runs.
Context (json_Manifest : Manifest → bytes) (json_Status : StatusReport → bytes).
Context (Hdistinct : distinct_points known).

Abbreviation proc_step := (proc_step json_Manifest json_Status).
Abbreviation proc_run := (proc_run json_Manifest json_Status).

(** What the requests of a run bring. *)
Definition brought_by (acts : list ProcAct) : gset string := ⋃ (brought <$> acts).

Lemma brought_elem a acts : a ∈ acts → brought a ⊆ brought_by acts.
Proof.
  intros Ha id Hid. unfold brought_by. apply elem_of_union_list. exists (brought a). split; [|done].
  apply list_elem_of_fmap. by exists a.
Qed.

Lemma proc_run_ok given acts p p' :
  proc_ok given p → brought_by acts ⊆ given → proc_run acts p = Some p' → proc_ok given p'.
Proof.
  intros Hp Hg. apply (proc_run_inv json_Manifest json_Status (proc_ok given)); [|done].
  intros a q q' Ha Hq Hst. apply (proc_ok_step given (brought a) q q'); [done..|].
  pose proof (brought_elem a acts Ha). set_solver.
Qed.

(** A start on a store whose data is under its SHA-256. *)
Lemma boot_run_ok now local acts p :
  addressed (data local) → proc_run acts (boot c now local) = Some p →
  proc_ok (dom (data local) ∪ brought_by acts) p.
Proof.
  intros Hl. apply proc_run_ok; [|set_solver]. rewrite <-boot_mark. apply proc_ok_boot; [done|]. intros id d Hd.
  split; [|left; by apply Hl]. apply elem_of_dom_2 in Hd. set_solver.
Qed.

(** A worker on a job moves by its own steps only, until it finishes the job. *)
Lemma worker_own_step a p p' i pc job :
  queue_ok p → proc_step a p = Continues p' → pr_workers p !! i = Some pc → pc_job pc = Some job →
  a ≠ ActQueue (ActFinish i) →
  (∃ inp pc' os, a = ActWorker i inp ∧ worker_next (pr_engine p) (pr_server p) pc inp = Some (pc', os) ∧
    pr_workers p' !! i = Some pc') ∨
  ((∀ inp, a ≠ ActWorker i inp) ∧ pr_workers p' !! i = Some pc).
Proof.
  intros Hq. destruct a as [a|j inp|g|g|id d|id healthy now|r|req segs d|]; cbn [Goroutines.proc_step].
  - intros Hst Hi Hpc Hne. right. split; [done|]. revert Hst.
    destruct a as [|j|j|j|]; cbn [queue_step]; try done.
    + unfold worker_receive. destruct (workers _ !! j) as [[]|] eqn:Hw; try done.
      destruct (queue _) as [|job' q]; [done|]. cbn [workers]. case_match; [|done]. case_match; try done.
      intros [= <-]. cbn [set_pc set_server pr_workers]. rewrite list_lookup_insert_ne; [done|].
      intros ->. pose proof (qo_jobs p Hq i pc _ Hi Hw) as Hjob. rewrite Hpc in Hjob. done.
    + repeat case_match; try done. intros [= <-]. cbn [set_pc set_server pr_workers].
      rewrite list_lookup_insert_ne; [done|]. by intros ->.
    + case_match; try done. by intros [= <-].
  - intros Hst Hi Hpc _. revert Hst. destruct (negb _); [done|].
    destruct (pr_workers p !! j) as [pc0|] eqn:Hj; cbn [mbind option_bind]; [|done].
    destruct (worker_next _ _ pc0 inp) as [[pc' os]|] eqn:Hn; [|done]. intros [= <-].
    cbn [add_lookups add_outcomes set_pc pr_workers]. destruct (decide (j = i)) as [->|Hne].
    + left. exists inp, pc', os. rewrite Hi in Hj. injection Hj as <-. split_and!; [done..|].
      apply list_lookup_insert_eq. by eapply lookup_lt_Some.
    + right. split; [congruence|]. by rewrite list_lookup_insert_ne.
  - intros Hst Hi _ _. right. split; [done|]. revert Hst. repeat case_match; try done; by intros [= <-].
  - intros Hst Hi _ _. right. split; [done|]. revert Hst. destruct (_ ≫= _); [|done]. by intros [= <-].
  - intros Hst Hi _ _. right. split; [done|]. revert Hst. repeat case_match; try done; by intros [= <-].
  - intros Hst Hi _ _. right. split; [done|]. revert Hst. destruct (pingPeer _ _ _ _). by intros [= <-].
  - intros Hst Hi _ _. right. split; [done|]. revert Hst. repeat case_match; try done; by intros [= <-].
  - intros [= <-] Hi _ _. right. by split.
  - intros Hst Hi _ _. right. split; [done|]. revert Hst. unfold main_step.
    repeat case_match; try done; by intros [= <-].
Qed.

Definition is_worker (i : nat) (a : ProcAct) : bool :=
  match a with ActWorker j _ => bool_decide (j = i) | _ => false end.

Lemma worker_run_measure given acts p p' i pc job :
  proc_ok given p → brought_by acts ⊆ given → proc_run acts p = Some p' →
  pr_workers p !! i = Some pc → pc_job pc = Some job → ActQueue (ActFinish i) ∉ acts →
  ∃ pc', pr_workers p' !! i = Some pc' ∧ pc_job pc' = Some job ∧
    length (filter (is_worker i) acts) + worker_measure (pr_engine p) pc' ≤ worker_measure (pr_engine p) pc.
Proof.
  revert p pc. induction acts as [|a acts IH]; intros p pc Hok Hg Hrun Hi Hpc Hfin.
  { injection Hrun as <-. exists pc. split_and!; [done..|]. simpl. lia. }
  cbn [Goroutines.proc_run] in Hrun. destruct (proc_step a p) as [p1| |] eqn:Ha; [|done..].
  pose proof (proc_step_rule _ _ _ _ _ Ha) as Hst. pose proof (pstep_engine _ _ _ Hst) as He.
  assert (brought a ⊆ given) as Hga by (pose proof (brought_elem a (a :: acts) ltac:(by left)); set_solver).
  assert (brought_by acts ⊆ given) as Hgs.
  { intros id. unfold brought_by in *. cbn in Hg. set_solver. }
  pose proof (proc_ok_step _ _ _ _ Hdistinct Hok Hst Hga) as Hok1.
  rewrite not_elem_of_cons in Hfin. destruct Hfin as [Hne Hfin].
  destruct (worker_own_step a p p1 i pc job) as [(inp&pc1&os&->&Hn&Hi1)|[Hno Hi1]]; [apply Hok|done..|by intros ->| |].
  - pose proof (worker_next_measure _ _ _ _ _ _ (so_ring p (pk_static _ _ Hok)) Hn) as Hlt.
    pose proof (worker_next_job _ _ _ _ _ _ Hn) as Hjob.
    destruct (IH p1 pc1) as (pc'&?&?&Hle); [done..|congruence|done|]. exists pc'. split_and!; [done..|].
    rewrite He in Hle. rewrite filter_cons_True by by apply bool_decide_pack. cbn [length]. lia.
  - destruct (IH p1 pc) as (pc'&?&?&Hle); [done..|]. exists pc'. split_and!; [done..|].
    rewrite He in Hle. rewrite filter_cons_False; [done|].
    destruct a; cbn; try by intros []. intros Hj%Is_true_true%bool_decide_eq_true. subst. by eapply Hno.
Qed.

(** A worker on a job always has a step to make. *)
Lemma worker_progress p i pc job :
  queue_ok p → pr_workers p !! i = Some pc → pc_job pc = Some job →
  ∃ a p', (a = ActQueue (ActFinish i) ∨ ∃ inp, a = ActWorker i inp) ∧ proc_step a p = Continues p'.
Proof.
  intros Hq Hi Hpc.
  assert (∀ inp, offered (pr_phase p) inp = true → is_Some (worker_next (pr_engine p) (pr_server p) pc inp) →
    ∃ a p', (a = ActQueue (ActFinish i) ∨ ∃ inp, a = ActWorker i inp) ∧ proc_step a p = Continues p') as Hgo.
  { intros inp Ho [[pc' os] Hn]. exists (ActWorker i inp). eexists. split; [right; by exists inp|].
    cbn [Goroutines.proc_step]. rewrite Ho, Hi. cbn [negb mbind option_bind]. by rewrite Hn. }
  destruct pc as [|j|j ts|j ts addr att|j ts addr att|j ts addr att req]; [done|..].
  - apply (Hgo Go); eauto.
  - destruct ts as [|n ts].
    + destruct (lookup_lt_is_Some_2 (workers (s_Pool (pr_server p))) i) as [w Hw].
      { rewrite <-(qo_length p Hq). by eapply lookup_lt_Some. }
      pose proof (qo_jobs p Hq i _ w Hi Hw) as Hjob. destruct w as [|j'|]; try done.
      exists (ActQueue (ActFinish i)). eexists. split; [by left|]. cbn [Goroutines.proc_step queue_step].
      rewrite Hi. unfold worker_finish. by rewrite Hw.
    + apply (Hgo Go); [done|]. cbn [worker_next]. repeat case_match; eauto.
  - apply (Hgo Go); eauto.
  - apply (Hgo (Sent 0)); eauto.
  - apply (Hgo (Answered (Ok 200%Z))); eauto.
Qed.

(** No worker has more than 55 steps before it. *)
Lemma worker_measure_bound p i pc :
  static_ok p → outcomes_ok p → pr_workers p !! i = Some pc → worker_measure (pr_engine p) pc ≤ 55.
Proof.
  intros Hs Ho Hi.
  apply list_elem_of_lookup_2 in Hi. pose proof (oo_pcs p Ho pc Hi) as Hpc. rewrite (so_engine p Hs).
  assert (∀ r id, ring_of r → length (TargetsFor r id) ≤ 3) as Hlen.
  { intros r id (S&Hr&_). unfold TargetsFor. rewrite (length_GetN _ S) by done. unfold Factor. lia. }
  destruct pc; cbn [worker_measure e_maxRetries NewEngine pc_ok] in *; [lia|lia|..].
  - destruct Hpc as (r&before&_&Hr&Ht&_). specialize (Hlen r (j_ChunkID job) Hr). rewrite Ht, length_app in Hlen. lia.
  - destruct Hpc as (r&before&n&_&Hr&Ht&_). specialize (Hlen r (j_ChunkID job) Hr). rewrite Ht, length_app in Hlen. simpl in Hlen. lia.
  - destruct Hpc as (r&before&n&_&Hr&Ht&_). specialize (Hlen r (j_ChunkID job) Hr). rewrite Ht, length_app in Hlen. simpl in Hlen. lia.
  - destruct Hpc as (r&before&n&_&Hr&Ht&_). specialize (Hlen r (j_ChunkID job) Hr). rewrite Ht, length_app in Hlen. simpl in Hlen. lia.
Qed.

(** ** The theorems *)

(** [C13] Whatever the order of its goroutines - callbacks overtaking each other, pings,
    repairs, uploads, the shutdown - the ring of a node is a ring of itself and nodes its
    flags name, the node always on it, and every other target it gives has the address
    of the flag: the engine never skips a target for want of an address. *)
Theorem targets_always_addressed now local acts p :
  addressed (data local) → proc_run acts (boot c now local) = Some p →
  (∃ S, ring_repr (s_Ring (pr_server p)) S ∧ c_nodeID c ∈ S ∧ S ⊆ known) ∧
  ∀ key n, n ∈ TargetsFor (s_Ring (pr_server p)) key → n ≠ c_nodeID c →
    is_Some (membershipResolver_AddrFor (s_Membership (pr_server p)) n) ∧
    membershipResolver_AddrFor (s_Membership (pr_server p)) n =
      (list_to_map (parse_peers (c_peers c)) : gmap string string) !! n.
Proof.
  intros Hl Hrun. destruct (boot_run_ok now local acts p Hl Hrun) as [Hs _ _ _ _].
  split; [apply Hs|]. intros key n Hn Hne. rewrite (so_addrs p Hs n).
  assert (is_Some (address_of n)) as Ha.
  { apply address_known; [|done]. eapply target_known; [apply Hs|exact Hn]. }
  split; [done|]. unfold address_of. by rewrite decide_False.
Qed.

(** [C11] Workers always come back for the next job: whatever the network answers and
    whatever else runs, a worker on a job has a step to make, and it makes at most 55
    before it finishes the job. *)
Theorem worker_terminates now local acts p i pc job :
  addressed (data local) → proc_run acts (boot c now local) = Some p →
  pr_workers p !! i = Some pc → pc_job pc = Some job →
  (∃ a p', (a = ActQueue (ActFinish i) ∨ ∃ inp, a = ActWorker i inp) ∧ proc_step a p = Continues p') ∧
  ∀ acts' p', proc_run acts' p = Some p' → ActQueue (ActFinish i) ∉ acts' →
    length (filter (is_worker i) acts') ≤ 55.
Proof.
  intros Hl Hrun Hi Hpc. pose proof (boot_run_ok now local acts p Hl Hrun) as Hok.
  split; [apply (worker_progress p i pc job); [apply Hok|done..]|].
  intros acts' p' Hrun' Hfin.
  assert (proc_ok (dom (data local) ∪ brought_by acts ∪ brought_by acts') p) as Hok'.
  { destruct Hok as [? ? Hd ? ?]. split; try done. eapply data_ok_mono; [|exact Hd]. set_solver. }
  destruct (worker_run_measure _ acts' p p' i pc job Hok') as (pc'&_&_&Hle); [set_solver|done..|].
  pose proof (worker_measure_bound p i pc (pk_static _ _ Hok) (pk_outcomes _ _ Hok) Hi). lia.
Qed.
End runs.
End invariants.

(** ** Witnesses *)

Definition demo_config : NodeConfig := MkNodeConfig "node-a" "a:8080" "node-b=b:8080" 2 None.

Lemma demo_known : distinct_points (known demo_config).
Proof. eapply distinct_points_subset; [|exact demo_distinct]. cbn. set_solver. Qed.

Lemma addressed_empty : addressed (data NewMemory).
Proof. intros id d. cbn. by rewrite lookup_empty. Qed.

(** node-b is found dead and heard again, and the two callbacks run in the wrong order. *)
Definition demo_overtaking : list ProcAct :=
  [ActPing "node-b" true (1 * Second); ActPing "node-b" false (11 * Second); ActPing "node-b" true (12 * Second);
   ActGo 1; ActGo 0].

(** A chunk comes in, node-b dies, the repair pass enqueues the chunk and a worker takes it. *)
Definition demo_repairing : list ProcAct :=
  [ActPut None ["internal"; "chunks"; ID demo_hello] demo_hello; ActGo 0; ActGo 0;
   ActPing "node-b" true (1 * Second); ActPing "node-b" false (11 * Second); ActGo 1;
   ActGo 2; ActGo 2; ActGo 2; ActGo 2; ActGo 2; ActQueue (ActReceive 0)].

Definition demo_after (acts : list ProcAct) : option Process :=
  proc_run demo_json demo_json_status acts (boot demo_config 0 NewMemory).

Lemma demo_overtaking_runs : is_Some (demo_after demo_overtaking).
Proof. apply (bool_decide_unpack _). by vm_compute. Qed.

Lemma at_GetN_job (pc : option WorkerPC) (f : Job → bool) :
  match pc with Some (AtGetN job) => f job | _ => false end = true → ∃ job, pc = Some (AtGetN job) ∧ f job = true.
Proof. destruct pc as [[]|]; eauto; done. Qed.

Lemma demo_repairing_runs :
  ∃ p, demo_after demo_repairing = Some p ∧ pr_workers p !! 0 = Some (AtGetN (MkJob (ID demo_hello) demo_hello)).
Proof.
  assert (match demo_after demo_repairing ≫= (λ p, pr_workers p !! 0) with
    | Some (AtGetN job) => bool_decide (job = MkJob (ID demo_hello) demo_hello)
    | _ => false
    end = true) as Hruns by by vm_compute.
  apply at_GetN_job in Hruns as (job&(p&Hp&Hw)%bind_Some&Hjob). apply bool_decide_eq_true in Hjob as ->.
  exists p. split; [exact Hp|exact Hw].
Qed.

Lemma targets_always_addressed_witness :
  ∃ p, demo_after demo_overtaking = Some p ∧
    (∃ S, ring_repr (s_Ring (pr_server p)) S ∧ "node-a" ∈ S ∧ S ⊆ known demo_config) ∧
    ∀ key n, n ∈ TargetsFor (s_Ring (pr_server p)) key → n ≠ "node-a" →
      is_Some (membershipResolver_AddrFor (s_Membership (pr_server p)) n) ∧
      membershipResolver_AddrFor (s_Membership (pr_server p)) n =
        (list_to_map (parse_peers "node-b=b:8080") : gmap string string) !! n.
Proof.
  destruct demo_overtaking_runs as [p Hp]. exists p. split; [exact Hp|].
  exact (targets_always_addressed demo_config demo_json demo_json_status demo_known 0 NewMemory demo_overtaking p
    addressed_empty Hp).
Defined.

Lemma worker_terminates_witness :
  ∃ p, demo_after demo_repairing = Some p ∧
    (∃ a p', (a = ActQueue (ActFinish 0) ∨ ∃ inp, a = ActWorker 0 inp) ∧
      proc_step demo_json demo_json_status a p = Continues p') ∧
    ∀ acts' p', proc_run demo_json demo_json_status acts' p = Some p' → ActQueue (ActFinish 0) ∉ acts' →
      length (filter (is_worker 0) acts') ≤ 55.
Proof.
  destruct demo_repairing_runs as (p&Hp&Hw). exists p. split; [exact Hp|].
  exact (worker_terminates demo_config demo_json demo_json_status demo_known 0 NewMemory demo_repairing
    p 0 (AtGetN (MkJob (ID demo_hello) demo_hello)) (MkJob (ID demo_hello) demo_hello) addressed_empty Hp Hw eq_refl).
Defined.

(** A repair pass that is under way when [Stop] closes the queue ends the process at its
    next [Enqueue], with the jobs accepted before it still in the queue. *)
Definition demo_shutting : list ProcAct :=
  [ActPut None ["internal"; "chunks"; ID demo_hello] demo_hello; ActGo 0; ActGo 0;
   ActPut None ["internal"; "chunks"; ID (bytes_of "hellO")] (bytes_of "hellO"); ActGo 1; ActGo 1;
   ActPing "node-b" true (1 * Second); ActPing "node-b" false (11 * Second); ActGo 2;
   ActGo 3; ActGo 3; ActGo 3; ActGo 3; ActGo 3; ActGo 3; ActGo 3; ActMain; ActMain; ActMain; ActMain].

Definition dies_with (p : Process) (n : nat) : bool :=
  (length (queue (s_Pool (pr_server p))) =? n)%nat &&
  match proc_step demo_json demo_json_status (ActGo 3) p with Exits => true | _ => false end.

Example repair_ends_shutdown : (λ p, dies_with p 1) <$> demo_after demo_shutting = Some true.
Proof. by vm_compute. Qed.
