(* ===== verification/System.v ===== *)
(** * The cluster under way

    A [System] is the nodes by address, each running (a [Process] of Goroutines.v) or down
    with the disk it left, and the network: every push request sent so far, under its
    number, and the answers that handlers gave.  A request may be delivered late, more
    than once or never, also after its sender has given up or crashed; its handler then
    runs among the other goroutines of the node, and its answer may be lost; a node may
    crash and start again at any point, keeping its disk or not.  A crash is one of the
    process: what it wrote stays with the operating system.  Files may be damaged at any
    time, by Puts that overlap or by the disk ([pr_damaged]).  [sys_step] makes one such
    step: everything in Cluster.v that happens in one go happens here piece by piece,
    interleaved with everything else.

    The specification is a [Ledger]: which names clients have given, who holds what data
    under them, which files are damaged, whose disk was lost, and who has been told that a
    push was stored where.  The theorems: the system refines the ledger; and a blob whose
    chunks were pushed with success is where it was pushed to, whatever happened
    meanwhile, unless that disk was lost or that file damaged. *)
From S2P Require Import Prelude GoLib GoIO Sha HashRing Placement Chunk Storage Membership Replication WorkerPool Recovery Server Node Cluster Goroutines.

(** ** State *)

(** A push request: where to, under which name, with what. *)
Record Packet := MkPacket {
  k_addr : string;
  k_id : string;
  k_data : bytes;
}.

(** A node that is down leaves its disk, and the names on it whose data is damaged. *)
Inductive NodeState :=
| Down (local : Memory) (damaged : gset string)
| Up (p : Process).

Record System := MkSystem {
  sy_nodes : gmap string NodeState;
  sy_net : list Packet;
  sy_answers : list (nat * Z);
  sy_given : gset string;
  sy_lost : gset string;
}.

Definition node_disk (n : NodeState) : Memory :=
  match n with Down local _ => local | Up p => Local (pr_server p) end.
Definition node_damaged (n : NodeState) : gset string :=
  match n with Down _ damaged => damaged | Up p => pr_damaged p end.

(** A node that has gone down. *)
Definition leave (p : Process) : NodeState := Down (Local (pr_server p)) (pr_damaged p).

(** What the disk at an address holds. *)
Definition disk_at (sy : System) (a : string) : gmap string bytes :=
  match sy_nodes sy !! a with Some n => data (node_disk n) | None => ∅ end.

Definition damaged_at (sy : System) (a : string) : gset string :=
  match sy_nodes sy !! a with Some n => node_damaged n | None => ∅ end.

Definition set_node (a : string) (n : NodeState) (sy : System) : System :=
  MkSystem (<[a := n]> (sy_nodes sy)) (sy_net sy) (sy_answers sy) (sy_given sy) (sy_lost sy).
Definition give (ids : gset string) (sy : System) : System :=
  MkSystem (sy_nodes sy) (sy_net sy) (sy_answers sy) (sy_given sy ∪ ids) (sy_lost sy).
Definition lose (a : string) (sy : System) : System :=
  MkSystem (sy_nodes sy) (sy_net sy) (sy_answers sy) (sy_given sy) (sy_lost sy ∪ {[a]}).
Definition add_packet (pk : Packet) (sy : System) : System :=
  MkSystem (sy_nodes sy) (sy_net sy ++ [pk]) (sy_answers sy) (sy_given sy) (sy_lost sy).
Definition add_answer (k : nat) (status : Z) (sy : System) : System :=
  MkSystem (sy_nodes sy) (sy_net sy) (sy_answers sy ++ [(k, status)]) (sy_given sy) (sy_lost sy).

(** ** Steps *)

Inductive SysAct :=
| Boot (a : string) (now : Z)
| Crash (a : string)
| LoseDisk (a : string)
| Own (a : string) (act : ProcAct)
| SendPush (a : string) (i : nat)
| Deliver (k : nat)
| Respond (a : string) (g : nat)
| Receive (a : string) (i : nat) (status : Z)
| ClientUpload (a : string) (r : Request)
| ClientPut (a : string) (segs : list string) (d : bytes).

(** The steps of a process that need nobody else. *)
Definition own_act (act : ProcAct) : bool :=
  match act with
  | ActWorker _ (Sent _) | ActWorker _ (Answered (Ok _)) | ActUpload _ | ActPut _ _ _ => false
  | _ => true
  end.

Section system.
Context (json_Manifest : Manifest → bytes) (json_Status : StatusReport → bytes).
Context (cfg : gmap string NodeConfig).

(** The node after a step of its process: running on, or down. *)
Definition proc_at (a : string) (act : ProcAct) (sy : System) : option System :=
  match sy_nodes sy !! a with
  | Some (Up p) =>
      match proc_step json_Manifest json_Status act p with
      | Continues p' => Some (set_node a (Up p') sy)
      | Exits => Some (set_node a (leave p) sy)
      | ProcBlocks => None
      end
  | _ => None
  end.

Definition pc_at (sy : System) (a : string) (i : nat) : option WorkerPC :=
  match sy_nodes sy !! a with Some (Up p) => pr_workers p !! i | _ => None end.

Definition go_at (sy : System) (a : string) (g : nat) : option Goroutine :=
  match sy_nodes sy !! a with Some (Up p) => pr_go p !! g | _ => None end.

Definition sys_step (act : SysAct) (sy : System) : option System :=
  match act with
  | Boot a now =>
      match sy_nodes sy !! a, cfg !! a with
      | Some (Down local damaged), Some c => Some (set_node a (Up (mark damaged (boot c now local))) sy)
      | _, _ => None
      end
  | Crash a =>
      match sy_nodes sy !! a with
      | Some (Up p) => Some (set_node a (leave p) sy)
      | _ => None
      end
  | LoseDisk a =>
      match sy_nodes sy !! a with
      | Some (Down _ _) => Some (lose a (set_node a (Down NewMemory ∅) sy))
      | _ => None
      end
  | Own a act => if own_act act then proc_at a act sy else None
  | SendPush a i =>
      match pc_at sy a i with
      | Some (AtPush job _ addr _) =>
          add_packet (MkPacket addr (j_ChunkID job) (j_Data job)) <$>
            proc_at a (ActWorker i (Sent (length (sy_net sy)))) sy
      | _ => None
      end
  | Deliver k =>
      match sy_net sy !! k with
      | Some pk =>
          match parse_url (chunk_url (k_addr pk) (k_id pk)) with
          | Some (addr, segs) => proc_at addr (ActPut (Some k) segs (k_data pk)) sy
          | None => None
          end
      | None => None
      end
  | Respond a g =>
      match go_at sy a g with
      | Some (Answering (Some k) status) => add_answer k status <$> proc_at a (ActGo g) sy
      | _ => None
      end
  | Receive a i status =>
      match pc_at sy a i with
      | Some (AtAnswer _ _ _ _ k) =>
          if decide ((k, status) ∈ sy_answers sy)
          then proc_at a (ActWorker i (Answered (Ok status))) sy else None
      | _ => None
      end
  | ClientUpload a r => give (brought (ActUpload r)) <$> proc_at a (ActUpload r) sy
  | ClientPut a segs d => give (brought (ActPut None segs d)) <$> proc_at a (ActPut None segs d) sy
  end.

Fixpoint sys_run (acts : list SysAct) (sy : System) : option System :=
  match acts with
  | [] => Some sy
  | act :: acts => sys_step act sy ≫= sys_run acts
  end.

(** Every node down, with an empty disk. *)
Definition sys_init : System := MkSystem ((λ _, Down NewMemory ∅) <$> cfg) [] [] ∅ ∅.

Definition step (sy sy' : System) : Prop := ∃ act, sys_step act sy = Some sy'.
Definition reachable_sys (sy : System) : Prop := rtc step sys_init sy.

(** ** The specification *)

Record Ledger := MkLedger {
  l_given : gset string;
  l_held : gmap string (gmap string bytes);
  l_damaged : gmap string (gset string);
  l_lost : gset string;
  l_confirmed : gmap string (list (string * string));
}.

Inductive lstep (l : Ledger) : Ledger → Prop :=
| l_give ids : lstep l (MkLedger (l_given l ∪ ids) (l_held l) (l_damaged l) (l_lost l) (l_confirmed l))
| l_store a H id d :
    l_held l !! a = Some H → id ∈ l_given l → ID d = id →
    lstep l (MkLedger (l_given l) (<[a := <[id := d]> H]> (l_held l)) (l_damaged l) (l_lost l) (l_confirmed l))
| l_damage a M id :
    l_damaged l !! a = Some M →
    lstep l (MkLedger (l_given l) (l_held l) (<[a := M ∪ {[id]}]> (l_damaged l)) (l_lost l) (l_confirmed l))
| l_rot a H M id d :
    l_held l !! a = Some H → is_Some (H !! id) → l_damaged l !! a = Some M → id ∈ M →
    lstep l (MkLedger (l_given l) (<[a := <[id := d]> H]> (l_held l)) (l_damaged l) (l_lost l) (l_confirmed l))
| l_lose a H M :
    l_held l !! a = Some H → l_damaged l !! a = Some M →
    lstep l (MkLedger (l_given l) (<[a := ∅]> (l_held l)) (<[a := ∅]> (l_damaged l)) (l_lost l ∪ {[a]}) (l_confirmed l))
| l_confirm b told a id :
    l_confirmed l !! b = Some told → a ∈ l_lost l ∨ (∃ H, l_held l !! a = Some H ∧ is_Some (H !! id)) →
    lstep l (MkLedger (l_given l) (l_held l) (l_damaged l) (l_lost l) (<[b := told ++ [(a, id)]]> (l_confirmed l)))
| l_forget b told :
    l_confirmed l !! b = Some told →
    lstep l (MkLedger (l_given l) (l_held l) (l_damaged l) (l_lost l) (<[b := []]> (l_confirmed l))).

(** The pushes a node was told are stored. *)
Definition told_of (os : list (Job * string * PushOutcome)) : list (string * string) :=
  omap (λ '(job, addr, o), match o with Pushed => Some (addr, j_ChunkID job) | _ => None end) os.
Definition told (n : NodeState) : list (string * string) :=
  match n with Down _ _ => [] | Up p => told_of (pr_outcomes p) end.

Definition ledger (sy : System) : Ledger :=
  MkLedger (sy_given sy) ((λ n, data (node_disk n)) <$> sy_nodes sy) (node_damaged <$> sy_nodes sy) (sy_lost sy)
    (told <$> sy_nodes sy).

(** ** Steps of a process, as the network sees them *)

(** What a process step does to what its workers wait for and have been told. *)
Lemma proc_step_workers act p p' :
  proc_step json_Manifest json_Status act p = Continues p' →
  (pr_outcomes p' = pr_outcomes p ∧ ∀ job ts addr att k, AtAnswer job ts addr att k ∈ pr_workers p' →
     AtAnswer job ts addr att k ∈ pr_workers p) ∨
  ∃ i inp pc pc' os, act = ActWorker i inp ∧ pr_workers p !! i = Some pc ∧
    worker_next (pr_engine p) (pr_server p) pc inp = Some (pc', os) ∧
    pr_workers p' = <[i := pc']> (pr_workers p) ∧ pr_outcomes p' = pr_outcomes p ++ os ∧
    pr_server p' = pr_server p.
Proof.
  destruct act as [a|i inp|g|g|id d|id healthy now|r|req segs d|]; cbn [proc_step].
  - destruct a as [|i|i|i|]; cbn [queue_step]; repeat case_match; intros [= <-]; left; (split; [done|]);
      intros job' ts addr att k; cbn; try done; by intros [?|?]%elem_of_insert_inv.
  - destruct (negb _); [done|]. destruct (pr_workers p !! i) as [pc|] eqn:Hi; cbn [mbind option_bind]; [|done].
    destruct (worker_next _ _ _ _) as [[pc' os]|] eqn:Hn; intros [= <-]. right. by exists i, inp, pc, pc', os.
  - repeat case_match; intros [= <-]; by left.
  - destruct (_ ≫= _); [|done]. intros [= <-]. by left.
  - repeat case_match; intros [= <-]; by left.
  - destruct (pingPeer _ _ _ _). intros [= <-]. by left.
  - repeat case_match; intros [= <-]; by left.
  - intros [= <-]. by left.
  - unfold main_step. repeat case_match; intros [= <-]; by left.
Qed.

Lemma worker_next_waits e (s : node_server) pc inp job ts addr att k os :
  worker_next e s pc inp = Some (AtAnswer job ts addr att k, os) → inp = Sent k ∧ pc = AtPush job ts addr att.
Proof.
  destruct pc, inp; cbn [worker_next]; unfold push_failed; repeat case_match; intros [=]; by subst.
Qed.

Lemma worker_next_pushed e (s : node_server) pc inp pc' os job addr :
  worker_next e s pc inp = Some (pc', os) → (job, addr, Pushed) ∈ os →
  ∃ ts att k resp, pc = AtAnswer job ts addr att k ∧ inp = Answered resp ∧ push_answered addr (j_ChunkID job) resp = None.
Proof.
  destruct pc, inp; cbn [worker_next]; unfold push_failed; repeat case_match; intros [= <- <-];
    rewrite ?elem_of_cons, ?elem_of_nil; try (by intros []); try (by intros [[=]|[]]).
  intros [[= <- <-]|[]]. by eexists _, _, _, _.
Qed.

(** Disks only grow under the steps of a process. *)
Definition grows (m m' : gmap string bytes) : Prop := ∀ id, is_Some (m !! id) → is_Some (m' !! id).

Lemma grows_insert m id d : grows m (<[id := d]> m).
Proof. intros i Hi. destruct (decide (id = i)) as [->|]; [rewrite lookup_insert_eq; eauto|by rewrite lookup_insert_ne]. Qed.

Lemma pstep_grows ids p p' : pstep p ids p' → grows (data (Local (pr_server p))) (data (Local (pr_server p'))).
Proof.
  intros [i pool job _ _|i job pool _ _|i pool _|i pc inp pc' os _ _|g gr gr' s sp _ Hn|g gr gr' _ _|id d d0 _|g
    |id healthy now|ids'|r chunks manifest _|req id d _|ids' req st _|ph|pool _]; try (by intros ?); cbn.
  - apply go_next_data in Hn as ([->|(job&_&->)]&_); [by intros ?|apply grows_insert].
  - apply grows_insert.
Qed.

(** Where a handler with a numbered request comes from: from the step that brought the
    request, and on from its Put to its answer; what it stores is there when it answers. *)
Definition handler_from (act : ProcAct) (p p' : Process) (g : Goroutine) : Prop :=
  match g with
  | HandlePut (Some k) id d => act = ActPut (Some k) ["internal"; "chunks"; id] d
  | HandleWrite (Some k) id d => HandlePut (Some k) id d ∈ pr_go p
  | Answering (Some k) status =>
      (200 ≤ status < 300)%Z →
      ∃ id d, HandleWrite (Some k) id d ∈ pr_go p ∧ is_Some (data (Local (pr_server p')) !! id)
  | _ => True
  end.

Lemma go_next_handler e (s : node_server) gr gr' s' sp p p' act :
  go_next e s gr = Runs gr' s' sp → gr ∈ pr_go p → pr_server p' = s' →
  handler_from act p p' gr' ∧ ∀ g, g ∈ sp → handler_from act p p' g.
Proof.
  intros Hn Hgr Hs. revert Hn.
  destruct gr; cbn [go_next upload_next handle_next repair_next]; unfold callback_next, enqueue_then;
    repeat case_match; intros [= <- <- <-]; (split; [try done|by intros g; rewrite ?elem_of_cons, elem_of_nil; naive_solver]);
    cbn [handler_from]; destruct req; try done.
  intros _. exists id, d. split; [done|]. rewrite Hs.
  match goal with H : b_Put _ _ _ = (_, ?l) |- _ => change (Memory_Put id d (Local s) = (None, l)) in H; injection H as <- end.
  cbn. rewrite lookup_insert_eq. eauto.
Qed.

Lemma proc_step_handlers act p p' g :
  proc_step json_Manifest json_Status act p = Continues p' → g ∈ pr_go p' → g ∈ pr_go p ∨ handler_from act p p' g.
Proof.
  destruct act as [a|i inp|j|j|id d|id healthy now|r|req segs d|]; cbn [proc_step].
  - destruct a as [|i|i|i|]; cbn [queue_step]; repeat case_match; intros [= <-]; by left.
  - repeat case_match; intros [= <-]; by left.
  - destruct (pr_go p !! j) as [gr|] eqn:Hj; [|done]. apply list_elem_of_lookup_2 in Hj.
    destruct (go_next _ _ gr) as [gr' s' sp| |] eqn:Hn; [|done|case_match; [|done]]; intros [= <-]; cbn.
    + intros Hg. eapply (go_next_handler _ _ _ _ _ _ p _ (ActGo j)) in Hn as [Hgr Hsp]; [|exact Hj|by instantiate (1 := set_go _ (set_server s' _))].
      apply elem_of_app in Hg as [[->|Hg]%elem_of_insert_inv|Hg]; [right; exact Hgr|by left|right; by apply Hsp].
    + intros [->|Hg]%elem_of_insert_inv; [by right|by left].
  - destruct (pr_go p !! j) as [gr|] eqn:Hj; cbn [mbind option_bind]; [|done].
    destruct (fault_next gr) as [gr'|] eqn:Hf; [|done]. intros [= <-] [->|Hg]%elem_of_insert_inv; [right|by left].
    destruct gr; inversion Hf; cbn; try done; destruct req; unfold StatusInternalServerError; done || lia.
  - repeat case_match; intros [= <-]; by left.
  - destruct (pingPeer _ _ _ _) as [calls m]. intros [= <-] [Hg|Hg]%elem_of_app; [by left|right].
    apply list_elem_of_fmap in Hg as (cl&->&_). unfold call_goroutine. by destruct (call_target cl).
  - repeat case_match; intros [= <-]; cbn; [|by left..]. intros [?| ->]%append_go; [by left|by right].
  - intros [= <-] [?| ->]%append_go; [by left|right].
    destruct (put_begin_cases json_Manifest json_Status req segs d (pr_server p)) as [(id&->&_&->)|(st&Hst&->)]; cbn;
      destruct req; try done; lia.
  - unfold main_step. repeat case_match; intros [= <-]; by left.
Qed.

(** ** The invariant *)

Definition holds_or_lost (sy : System) (a id : string) : Prop :=
  a ∈ sy_lost sy ∨ is_Some (disk_at sy a !! id).

(** A handler is at the node that its request was for, with its name; an answer of success
    says that the chunk is there. *)
Definition handler_ok (sy : System) (a : string) (g : Goroutine) : Prop :=
  match g with
  | HandlePut (Some k) id _ | HandleWrite (Some k) id _ =>
      ∃ pk, sy_net sy !! k = Some pk ∧ k_addr pk = a ∧ k_id pk = id
  | Answering (Some k) status =>
      (200 ≤ status < 300)%Z → ∃ pk, sy_net sy !! k = Some pk ∧ holds_or_lost sy (k_addr pk) (k_id pk)
  | _ => True
  end.

Record sys_ok (sy : System) : Prop := {
  sk_up a p : sy_nodes sy !! a = Some (Up p) → ∃ c, cfg !! a = Some c ∧ proc_ok c (sy_given sy) p;
  sk_disk a id d : disk_at sy a !! id = Some d → vouched (sy_given sy) (damaged_at sy a) id d;
  sk_net pk : pk ∈ sy_net sy → k_id pk ∈ sy_given sy;
  sk_handlers a p g : sy_nodes sy !! a = Some (Up p) → g ∈ pr_go p → handler_ok sy a g;
  sk_answers k status :
    (k, status) ∈ sy_answers sy → (200 ≤ status < 300)%Z →
    ∃ pk, sy_net sy !! k = Some pk ∧ holds_or_lost sy (k_addr pk) (k_id pk);
  sk_waits a p job ts addr att k :
    sy_nodes sy !! a = Some (Up p) → AtAnswer job ts addr att k ∈ pr_workers p →
    sy_net sy !! k = Some (MkPacket addr (j_ChunkID job) (j_Data job));
  sk_told a p job addr :
    sy_nodes sy !! a = Some (Up p) → (job, addr, Pushed) ∈ pr_outcomes p →
    holds_or_lost sy addr (j_ChunkID job);
}.

Lemma disk_at_set a n sy b :
  disk_at (set_node a n sy) b = if decide (a = b) then data (node_disk n) else disk_at sy b.
Proof.
  unfold disk_at. cbn. case_decide as Hab; [subst; by rewrite lookup_insert_eq|by rewrite lookup_insert_ne].
Qed.

Lemma damaged_at_set a n sy b :
  damaged_at (set_node a n sy) b = if decide (a = b) then node_damaged n else damaged_at sy b.
Proof.
  unfold damaged_at. cbn. case_decide as Hab; [subst; by rewrite lookup_insert_eq|by rewrite lookup_insert_ne].
Qed.

Lemma disk_at_node a n sy : sy_nodes sy !! a = Some n → disk_at sy a = data (node_disk n).
Proof. unfold disk_at. by intros ->. Qed.

Lemma damaged_at_node a n sy : sy_nodes sy !! a = Some n → damaged_at sy a = node_damaged n.
Proof. unfold damaged_at. by intros ->. Qed.

(** A node replaced by one whose disk has at least as much. *)
Lemma holds_set a n sy b id :
  grows (disk_at sy a) (data (node_disk n)) → holds_or_lost sy b id → holds_or_lost (set_node a n sy) b id.
Proof.
  intros Hg [?|Hb]; [by left|]. right. rewrite disk_at_set. case_decide; [subst; by apply Hg|done].
Qed.

Lemma handler_set a n sy b g :
  grows (disk_at sy a) (data (node_disk n)) → handler_ok sy b g → handler_ok (set_node a n sy) b g.
Proof.
  intros Hg. destruct g as [| | | |[k|] id d|[k|] id d|[k|] st| | | | | | | |]; cbn; try done.
  intros Hh H2. destruct (Hh H2) as (pk&?&?). exists pk. split; [done|]. by apply holds_set.
Qed.

Lemma sys_ok_set a n sy :
  sys_ok sy → grows (disk_at sy a) (data (node_disk n)) →
  (∀ id d, data (node_disk n) !! id = Some d → vouched (sy_given sy) (node_damaged n) id d) →
  (∀ p, n = Up p →
    (∃ c, cfg !! a = Some c ∧ proc_ok c (sy_given sy) p) ∧
    (∀ g, g ∈ pr_go p → handler_ok (set_node a n sy) a g) ∧
    (∀ job ts addr att k, AtAnswer job ts addr att k ∈ pr_workers p →
      sy_net sy !! k = Some (MkPacket addr (j_ChunkID job) (j_Data job))) ∧
    ∀ job addr, (job, addr, Pushed) ∈ pr_outcomes p → holds_or_lost sy addr (j_ChunkID job)) →
  sys_ok (set_node a n sy).
Proof.
  intros [Hup Hdisk Hnet Hhand Hans Hwait Htold] Hg Hd Hn.
  split; cbn [set_node sy_nodes sy_net sy_answers sy_given].
  - intros b p [[-> ->]|[_ Hb]]%lookup_insert_Some; [by apply (Hn p)|by apply Hup].
  - intros b id d. rewrite disk_at_set, damaged_at_set. case_decide; [apply Hd|apply Hdisk].
  - exact Hnet.
  - intros b p g [[-> ->]|[_ Hb]]%lookup_insert_Some Hin; [by apply (Hn p)|]. apply handler_set; [done|]. by eapply Hhand.
  - intros k st Hk H2. destruct (Hans k st Hk H2) as (pk&?&?). exists pk. split; [done|]. by apply holds_set.
  - intros b p job ts addr att k [[-> ->]|[_ Hb]]%lookup_insert_Some; [by apply (Hn p)|by eapply Hwait].
  - intros b p job addr Hb Hj. apply holds_set; [done|]. apply lookup_insert_Some in Hb as [[-> ->]|[_ Hb]];
      [by apply (Hn p)|by eapply Htold].
Qed.

Context (Hdistinct : ∀ a c, cfg !! a = Some c → distinct_points (known c)).

(** A step of a process in the system: what it sends is on the network, what it is
    answered was answered, and the request it serves is for it. *)
Lemma sys_ok_proc sy a act p p' :
  sys_ok sy → sy_nodes sy !! a = Some (Up p) → proc_step json_Manifest json_Status act p = Continues p' →
  brought act ⊆ sy_given sy →
  (∀ i k job ts addr att, act = ActWorker i (Sent k) → pr_workers p !! i = Some (AtPush job ts addr att) →
     sy_net sy !! k = Some (MkPacket addr (j_ChunkID job) (j_Data job))) →
  (∀ i status job ts addr att k, act = ActWorker i (Answered (Ok status)) →
     pr_workers p !! i = Some (AtAnswer job ts addr att k) → (k, status) ∈ sy_answers sy) →
  (∀ k id d, act = ActPut (Some k) ["internal"; "chunks"; id] d →
     ∃ pk, sy_net sy !! k = Some pk ∧ k_addr pk = a ∧ k_id pk = id) →
  sys_ok (set_node a (Up p') sy).
Proof.
  intros Hok Ha Hst Hb Hsent Hans Hput. pose proof (proc_step_rule _ _ _ _ _ Hst) as Hrule.
  destruct (sk_up sy Hok a p Ha) as (c&Hc&Hp).
  pose proof (proc_ok_step c _ _ _ _ (Hdistinct a c Hc) Hp Hrule Hb) as Hp'.
  assert (grows (disk_at sy a) (data (node_disk (Up p')))) as Hgrows
    by (rewrite (disk_at_node a _ sy Ha); by eapply pstep_grows).
  apply sys_ok_set; [done|done| |].
  - intros id d. apply (do_store _ p' (pk_data _ _ _ Hp')).
  - intros q [= <-]. split; [by exists c|]. split.
    + intros g Hg. destruct (proc_step_handlers act p p' g Hst Hg) as [Hin|Hfrom].
      { apply handler_set; [done|]. by eapply sk_handlers. }
      destruct g as [| | | |[k|] id d|[k|] id d|[k|] st| | | | | | | |]; cbn in Hfrom |- *; try done.
      * by eapply Hput.
      * exact (sk_handlers sy Hok a p _ Ha Hfrom).
      * intros H2. destruct (Hfrom H2) as (id&d&Hin&Hid).
        destruct (sk_handlers sy Hok a p _ Ha Hin) as (pk&Hk&<-&<-). exists pk. split; [done|]. right.
        by rewrite disk_at_set, decide_True.
    + destruct (proc_step_workers act p p' Hst) as [[-> Hw]|(i&inp&pc&pc'&os&->&Hi&Hn&->&->&_)]; split.
      * intros job ts addr att k Hin%Hw. by eapply sk_waits.
      * intros job addr Hin. by eapply sk_told.
      * intros job ts addr att k [<-|Hin]%elem_of_insert_inv; [|by eapply sk_waits].
        apply worker_next_waits in Hn as [-> ->]. by eapply Hsent.
      * intros job addr [Hin|Hin]%elem_of_app; [by eapply sk_told|].
        destruct (worker_next_pushed _ _ _ _ _ _ _ _ Hn Hin) as (ts&att&k&resp&->&->&Hresp).
        apply push_answered_None in Hresp as (status&->&Hresp).
        destruct (sk_answers sy Hok k status) as (pk&Hpk&Hh); [by eapply Hans|done|].
        rewrite (sk_waits sy Hok a p job ts addr att k Ha) in Hpk by (by eapply list_elem_of_lookup_2).
        by injection Hpk as <-.
Qed.

Lemma sys_ok_down sy a n :
  sys_ok sy → sy_nodes sy !! a = Some n → sys_ok (set_node a (Down (node_disk n) (node_damaged n)) sy).
Proof.
  intros Hok Ha. apply sys_ok_set; [done| | |done].
  - rewrite (disk_at_node a n sy Ha). by intros id.
  - intros id d Hd. cbn. rewrite <-(damaged_at_node a n sy Ha). eapply sk_disk; [done|]. by rewrite (disk_at_node a n sy Ha).
Qed.

Lemma sys_ok_give ids sy : sys_ok sy → sys_ok (give ids sy).
Proof.
  intros [Hup Hdisk Hnet Hhand Hans Hwait Htold].
  split; cbn [give sy_nodes sy_net sy_answers sy_given]; try done.
  - intros a p Ha. destruct (Hup a p Ha) as (c&?&[? ? Hd ? ?]). exists c. split; [done|]. split; try done.
    eapply data_ok_mono; [|exact Hd]. set_solver.
  - intros a id d Hd. eapply vouched_mono; [apply union_subseteq_l|reflexivity|by apply Hdisk].
  - intros pk Hpk. by apply elem_of_union_l, Hnet.
Qed.

Lemma sys_ok_packet pk sy : sys_ok sy → k_id pk ∈ sy_given sy → sys_ok (add_packet pk sy).
Proof.
  intros [Hup Hdisk Hnet Hhand Hans Hwait Htold] Hpk.
  assert (∀ k q, sy_net sy !! k = Some q → (sy_net sy ++ [pk]) !! k = Some q) as Hold
    by (intros k q ?; by apply lookup_app_l_Some).
  split; cbn [add_packet sy_nodes sy_net sy_answers sy_given]; try done.
  - intros q [?| ->%list_elem_of_singleton]%elem_of_app; [by apply Hnet|done].
  - intros a p g Ha Hg. pose proof (Hhand a p g Ha Hg) as Hh.
    destruct g as [| | | |[k|] id d|[k|] id d|[k|] st| | | | | | | |]; cbn in Hh |- *; naive_solver.
  - intros k st Hk H2. destruct (Hans k st Hk H2) as (q&?&?). exists q. split; [by apply Hold|done].
  - intros a p job ts addr att k Ha Hin. apply Hold. by eapply Hwait.
Qed.

Lemma proc_at_ok a act sy sy' :
  sys_ok sy → proc_at a act sy = Some sy' → brought act ⊆ sy_given sy →
  (∀ p i k job ts addr att, sy_nodes sy !! a = Some (Up p) → act = ActWorker i (Sent k) →
     pr_workers p !! i = Some (AtPush job ts addr att) →
     sy_net sy !! k = Some (MkPacket addr (j_ChunkID job) (j_Data job))) →
  (∀ p i status job ts addr att k, sy_nodes sy !! a = Some (Up p) → act = ActWorker i (Answered (Ok status)) →
     pr_workers p !! i = Some (AtAnswer job ts addr att k) → (k, status) ∈ sy_answers sy) →
  (∀ k id d, act = ActPut (Some k) ["internal"; "chunks"; id] d →
     ∃ pk, sy_net sy !! k = Some pk ∧ k_addr pk = a ∧ k_id pk = id) →
  sys_ok sy'.
Proof.
  intros Hok. unfold proc_at. destruct (sy_nodes sy !! a) as [[|p]|] eqn:Ha; [done| |done].
  destruct (proc_step _ _ act p) as [p'| |] eqn:Hst; intros [= <-] Hb Hsent Hans Hput.
  - apply (sys_ok_proc sy a act p p'); [done..| | |done]; eauto.
  - by apply (sys_ok_down sy a (Up p)).
Qed.

(** A step that is none of the network's. *)
Lemma proc_at_local a act sy sy' :
  sys_ok sy → proc_at a act sy = Some sy' → brought act ⊆ sy_given sy →
  (own_act act = true ∨ (∃ r, act = ActUpload r) ∨ ∃ segs d, act = ActPut None segs d) → sys_ok sy'.
Proof.
  intros Hok Hp Hb Hact. apply (proc_at_ok a act sy sy' Hok Hp Hb).
  - by intros p i k job ts addr att _ ->; destruct Hact as [?|[(?&?)|(?&?&?)]].
  - by intros p i st job ts addr att k _ ->; destruct Hact as [?|[(?&?)|(?&?&?)]].
  - by intros k id d ->; destruct Hact as [?|[(?&?)|(?&?&?)]].
Qed.

Lemma proc_at_give a act ids sy : proc_at a act (give ids sy) = give ids <$> proc_at a act sy.
Proof. unfold proc_at. cbn [give sy_nodes]. by repeat case_match. Qed.

Lemma proc_at_packet a act pk sy : proc_at a act (add_packet pk sy) = add_packet pk <$> proc_at a act sy.
Proof. unfold proc_at. cbn [add_packet sy_nodes]. by repeat case_match. Qed.

Lemma boot_local c now local damaged :
  Local (pr_server (mark damaged (boot c now local))) = local ∧ pr_damaged (mark damaged (boot c now local)) = damaged.
Proof. unfold boot. destruct (setup_peers _ _ _ now). split; [done|]. apply (left_id_L ∅ (∪)). Qed.

Lemma boot_quiet c now local damaged :
  let p := mark damaged (boot c now local) in
  pr_outcomes p = [] ∧ pr_go p = [] ∧ pr_lookups p = [] ∧ ∀ pc, pc ∈ pr_workers p → pc = AtReceive.
Proof.
  unfold boot. destruct (setup_peers _ _ _ now). split_and!; [done..|]. by intros pc Hpc%list_elem_of_In%repeat_spec.
Qed.

Lemma sys_ok_boot a c now local damaged sy :
  sys_ok sy → sy_nodes sy !! a = Some (Down local damaged) → cfg !! a = Some c →
  sys_ok (set_node a (Up (mark damaged (boot c now local))) sy).
Proof.
  intros Hok Ha Hc. assert (∀ id d, data local !! id = Some d → vouched (sy_given sy) damaged id d) as Hl.
  { intros id d Hd. change damaged with (node_damaged (Down local damaged)). rewrite <-(damaged_at_node a _ sy Ha).
    eapply sk_disk; [done|]. by rewrite (disk_at_node a _ sy Ha). }
  pose proof (boot_local c now local damaged) as [Hlocal Hdam].
  apply sys_ok_set; [done|..]; cbn [node_disk node_damaged]; rewrite ?Hlocal, ?Hdam; [|done|].
  - rewrite (disk_at_node a _ sy Ha). by intros id.
  - intros p [= <-]. destruct (boot_quiet c now local damaged) as (Ho&Hg&_&Hpc). rewrite Ho, Hg. split_and!.
    + exists c. split; [done|]. apply proc_ok_boot; [by eapply Hdistinct|done].
    + by intros g ?%elem_of_nil.
    + by intros job ts addr att k ?%Hpc.
    + by intros job addr ?%elem_of_nil.
Qed.

Lemma holds_lose a n sy b id :
  holds_or_lost sy b id → holds_or_lost (lose a (set_node a n sy)) b id.
Proof.
  unfold holds_or_lost. cbn [lose sy_lost]. change (disk_at (lose a (set_node a n sy)) b) with (disk_at (set_node a n sy) b).
  rewrite disk_at_set. intros [?|Hb]; [set_solver|]. case_decide; [set_solver|by right].
Qed.

Lemma sys_ok_lose a sy : sys_ok sy → sys_ok (lose a (set_node a (Down NewMemory ∅) sy)).
Proof.
  intros [Hup Hdisk Hnet Hhand Hans Hwait Htold].
  split; cbn [lose set_node sy_nodes sy_net sy_answers sy_given].
  - intros b p [[_ [=]]|[_ Hb]]%lookup_insert_Some. by apply Hup.
  - intros b id d. change (disk_at (lose a (set_node a (Down NewMemory ∅) sy)) b)
      with (disk_at (set_node a (Down NewMemory ∅) sy) b).
    change (damaged_at (lose a (set_node a (Down NewMemory ∅) sy)) b)
      with (damaged_at (set_node a (Down NewMemory ∅) sy) b).
    rewrite disk_at_set, damaged_at_set. case_decide; [cbn; by rewrite lookup_empty|apply Hdisk].
  - exact Hnet.
  - intros b p g [[_ [=]]|[_ Hb]]%lookup_insert_Some Hg. pose proof (Hhand b p g Hb Hg) as Hh.
    destruct g as [| | | |[k|] id d|[k|] id d|[k|] st| | | | | | | |]; cbn in Hh |- *; try done.
    intros H2. destruct (Hh H2) as (pk&?&?). exists pk. split; [done|]. by apply holds_lose.
  - intros k st Hk H2. destruct (Hans k st Hk H2) as (pk&?&?). exists pk. split; [done|]. by apply holds_lose.
  - intros b p job ts addr att k [[_ [=]]|[_ Hb]]%lookup_insert_Some. by eapply Hwait.
  - intros b p job addr [[_ [=]]|[_ Hb]]%lookup_insert_Some Hj. eapply holds_lose, Htold; [exact Hb|done].
Qed.

Lemma sys_ok_answer k status pk sy :
  sys_ok sy → sy_net sy !! k = Some pk →
  ((200 ≤ status < 300)%Z → holds_or_lost sy (k_addr pk) (k_id pk)) → sys_ok (add_answer k status sy).
Proof.
  intros [Hup Hdisk Hnet Hhand Hans Hwait Htold] Hk Hst.
  split; cbn [add_answer sy_nodes sy_net sy_answers sy_given]; try done.
  intros k' st' [Hk'|[= -> ->]%list_elem_of_singleton]%elem_of_app H2; [by eapply Hans|].
  exists pk. split; [done|]. by apply Hst.
Qed.

(** The name of the push a worker is at was given. *)
Lemma push_given sy a p i job ts addr att :
  sys_ok sy → sy_nodes sy !! a = Some (Up p) → pr_workers p !! i = Some (AtPush job ts addr att) →
  j_ChunkID job ∈ sy_given sy.
Proof.
  intros Hok Ha Hi. destruct (sk_up sy Hok a p Ha) as (c&_&[_ Hq Hd _ _]).
  apply (do_accepted _ p Hd job). by eapply (worker_job_accepted p i _ job Hq).
Qed.

Lemma sys_ok_SendPush a i sy sy' : sys_ok sy → sys_step (SendPush a i) sy = Some sy' → sys_ok sy'.
Proof.
  intros Hok. cbn [sys_step]. unfold pc_at. destruct (sy_nodes sy !! a) as [[|p]|] eqn:Ha; [done| |done].
  destruct (pr_workers p !! i) as [[| | | |job ts addr att|]|] eqn:Hi; try done.
  set (pk := MkPacket addr (j_ChunkID job) (j_Data job)). rewrite <-proc_at_packet. intros Hp.
  apply (proc_at_ok a _ (add_packet pk sy) sy') in Hp; [done| |done| | |done].
  - apply sys_ok_packet; [done|]. by eapply push_given.
  - intros q j k job' ts' addr' att' Hq [= <- <-] Hj. cbn in Hq. rewrite Ha in Hq. injection Hq as <-.
    rewrite Hi in Hj. injection Hj as <- <- <- <-. cbn. by rewrite lookup_app_r, Nat.sub_diag by lia.
  - by intros q j st job' ts' addr' att' k _ ?.
Qed.

(** A push brings the name that is in its URL. *)
Lemma brought_push addr id addr' segs req d :
  parse_url (chunk_url addr id) = Some (addr', segs) → brought (ActPut req segs d) ⊆ {[id]}.
Proof.
  intros Hurl. cbn [brought]. destruct (Routes "PUT" segs) as [[h|]|] eqn:HR; [|done..].
  apply Routes_PUT in HR as [->|(id'&->& ->)]; [done|]. apply parse_push in Hurl as [_ ->]. by case_match.
Qed.

Lemma sys_ok_Deliver k sy sy' : sys_ok sy → sys_step (Deliver k) sy = Some sy' → sys_ok sy'.
Proof.
  intros Hok. cbn [sys_step]. destruct (sy_net sy !! k) as [pk|] eqn:Hk; [|done].
  destruct (parse_url _) as [[addr segs]|] eqn:Hurl; [|done]. intros Hp.
  apply (proc_at_ok addr _ sy sy' Hok Hp); try done.
  - etrans; [by eapply brought_push|]. apply singleton_subseteq_l, (sk_net sy Hok). by eapply list_elem_of_lookup_2.
  - intros k' id' d' [= <- -> _]. apply parse_push in Hurl as [-> ->]. by exists pk.
Qed.

Lemma sys_ok_Respond a g sy sy' : sys_ok sy → sys_step (Respond a g) sy = Some sy' → sys_ok sy'.
Proof.
  intros Hok. cbn [sys_step]. unfold go_at. destruct (sy_nodes sy !! a) as [[|p]|] eqn:Ha; [done| |done].
  destruct (pr_go p !! g) as [[| | | | | |[k|] st| | | | | | | |]|] eqn:Hg; try done.
  destruct (proc_at a (ActGo g) sy) as [sy1|] eqn:Hp; [|done]. intros [= <-].
  pose proof (proc_at_local a (ActGo g) sy sy1 Hok Hp (empty_subseteq _) (or_introl eq_refl)) as Hok1.
  pose proof (sk_handlers sy Hok a p _ Ha (list_elem_of_lookup_2 _ _ _ Hg)) as Hh. cbn in Hh.
  revert Hok1. unfold proc_at in Hp. rewrite Ha in Hp. cbn [proc_step] in Hp. rewrite Hg in Hp. injection Hp as <-.
  intros [Hup Hdisk Hnet Hhand Hans Hwait Htold].
  split; cbn [add_answer sy_nodes sy_net sy_answers sy_given]; try done.
  intros k' st' [Hk'|[= -> ->]%list_elem_of_singleton]%elem_of_app H2; [by eapply Hans|].
  destruct (Hh H2) as (pk&Hpk&Hheld). exists pk. split; [done|]. 
  apply (holds_set a _ sy (k_addr pk) (k_id pk)); [|done]. rewrite (disk_at_node a _ sy Ha). by intros ?.
Qed.

Lemma sys_ok_Receive a i status sy sy' : sys_ok sy → sys_step (Receive a i status) sy = Some sy' → sys_ok sy'.
Proof.
  intros Hok. cbn [sys_step]. unfold pc_at. destruct (sy_nodes sy !! a) as [[|p]|] eqn:Ha; [done| |done].
  destruct (pr_workers p !! i) as [[| | | | |job ts addr att k]|] eqn:Hi; try done.
  case_decide as Hk; [|done]. intros Hp. apply (proc_at_ok a _ sy sy') in Hp; [done..| | |done].
  - by intros q j k' job' ts' addr' att' _ ?.
  - intros q j st job' ts' addr' att' k' Hq [= <- <-] Hj. rewrite Ha in Hq. injection Hq as <-.
    rewrite Hi in Hj. by injection Hj as <- <- <- <- <-.
Qed.

Lemma sys_ok_client act sy sy' :
  match act with ClientUpload _ _ | ClientPut _ _ _ => True | _ => False end →
  sys_ok sy → sys_step act sy = Some sy' → sys_ok sy'.
Proof.
  intros Hact Hok. destruct act as [| | | | | | | |a r|a segs d]; try done; cbn [sys_step];
    rewrite <-proc_at_give; intros Hp; apply proc_at_local in Hp; try done;
    try (by apply sys_ok_give); try apply union_subseteq_r; eauto.
Qed.

Lemma sys_step_ok act sy sy' : sys_ok sy → sys_step act sy = Some sy' → sys_ok sy'.
Proof.
  intros Hok Hst. destruct act as [a now|a|a|a act|a i|k|a g|a i status|a r|a segs d];
    [..|exact (sys_ok_SendPush a i sy sy' Hok Hst)|exact (sys_ok_Deliver k sy sy' Hok Hst)
    |exact (sys_ok_Respond a g sy sy' Hok Hst)
    |exact (sys_ok_Receive a i status sy sy' Hok Hst)|exact (sys_ok_client (ClientUpload a r) sy sy' I Hok Hst)
    |exact (sys_ok_client (ClientPut a segs d) sy sy' I Hok Hst)]; cbn [sys_step] in Hst; revert Hst.
  - destruct (sy_nodes sy !! a) as [[local damaged|]|] eqn:Ha; [|done..]. destruct (cfg !! a) as [c|] eqn:Hc; [|done].
    intros [= <-]. by apply sys_ok_boot.
  - destruct (sy_nodes sy !! a) as [[|p]|] eqn:Ha; [done| |done]. intros [= <-]. by apply (sys_ok_down sy a (Up p)).
  - destruct (sy_nodes sy !! a) as [[|p]|] eqn:Ha; [|done..]. intros [= <-]. by apply sys_ok_lose.
  - destruct (own_act act) eqn:Hown; [|done]. intros Hp. apply (proc_at_local a act sy sy'); [done..| |by left].
    by destruct act.
Qed.

Lemma sys_ok_init : sys_ok sys_init.
Proof.
  assert (∀ a n, sy_nodes sys_init !! a = Some n → n = Down NewMemory ∅) as Hdown
    by (intros a n; cbn; rewrite lookup_fmap; by destruct (cfg !! a); intros [= <-]).
  split; try (by intros a p Ha; apply Hdown in Ha); try (by intros ? ?%elem_of_nil).
  - intros a id d. unfold disk_at. destruct (sy_nodes sys_init !! a) as [n|] eqn:Ha; [|done].
    apply Hdown in Ha as ->. done.
  - by intros a p g Ha%Hdown.
  - by intros k st ?%elem_of_nil.
  - by intros a p job ts addr att k Ha%Hdown.
  - by intros a p job addr Ha%Hdown.
Qed.

Lemma reachable_sys_ok sy : reachable_sys sy → sys_ok sy.
Proof.
  unfold reachable_sys. apply (rtc_ind_r (λ sy, sys_ok sy)); [apply sys_ok_init|].
  intros y z _ [act Hst] Hok. by eapply sys_step_ok.
Qed.

(** ** What a step of the system does to a node *)

(** A process is one that has just started, or made a step, or made none. *)
Definition process_from (a : string) (act : SysAct) (sy : System) (p' : Process) : Prop :=
  (∃ c now local damaged, cfg !! a = Some c ∧ p' = mark damaged (boot c now local)) ∨
  ∃ p, sy_nodes sy !! a = Some (Up p) ∧
    (p' = p ∨ ∃ pa, proc_step json_Manifest json_Status pa p = Continues p' ∧
      ∀ r, pa = ActUpload r → act = ClientUpload a r).

Lemma same_process a act sy p : sy_nodes sy !! a = Some (Up p) → process_from a act sy p.
Proof. intros Ha. right. exists p. split; [done|by left]. Qed.

Lemma set_node_process a act sy b n p' :
  sy_nodes (set_node b n sy) !! a = Some (Up p') → (b = a → n = Up p' → process_from a act sy p') →
  process_from a act sy p'.
Proof.
  cbn [set_node sy_nodes]. intros [[-> ->]|[_ Ha]]%lookup_insert_Some Hset; [by apply Hset|by apply same_process].
Qed.

Lemma proc_at_process a act b pa sy sy' p' :
  proc_at b pa sy = Some sy' → sy_nodes sy' !! a = Some (Up p') →
  (∀ r, pa = ActUpload r → act = ClientUpload b r) → process_from a act sy p'.
Proof.
  unfold proc_at. destruct (sy_nodes sy !! b) as [[|p]|] eqn:Hb; [done| |done].
  destruct (proc_step _ _ pa p) as [q| |] eqn:Hst; intros [= <-] Ha Hr;
    apply (set_node_process _ act _ _ _ _ Ha); [|done].
  intros <- [= ->]. right. exists p. split; [done|]. right. by exists pa.
Qed.

Lemma sys_step_process act sy sy' a p' :
  sys_step act sy = Some sy' → sy_nodes sy' !! a = Some (Up p') → process_from a act sy p'.
Proof.
  destruct act as [b now|b|b|b pa|b i|k|b g|b i status|b r|b segs d]; cbn [sys_step].
  - destruct (sy_nodes sy !! b) as [[local dm|]|] eqn:Hb; [|done..]. destruct (cfg !! b) as [c|] eqn:Hc; [|done].
    intros [= <-] Ha. apply (set_node_process _ (Boot b now) _ _ _ _ Ha). intros -> [= <-]. left. by exists c, now, local, dm.
  - destruct (sy_nodes sy !! b) as [[|p]|]; [done| |done]. intros [= <-] Ha. by apply (set_node_process _ (Crash b) _ _ _ _ Ha).
  - destruct (sy_nodes sy !! b) as [[|p]|]; [|done..]. intros [= <-] Ha. by apply (set_node_process _ (LoseDisk b) _ _ _ _ Ha).
  - destruct (own_act pa) eqn:Hown; [|done]. intros Hp Ha. apply (proc_at_process a _ _ _ _ _ _ Hp Ha).
    by intros r ->.
  - destruct (pc_at sy b i) as [[]|]; try done. destruct (proc_at _ _ sy) as [sy1|] eqn:Hp; [|done].
    intros [= <-] Ha. by apply (proc_at_process a _ _ _ _ _ _ Hp Ha).
  - destruct (sy_net sy !! k) as [pk|]; [|done]. destruct (parse_url _) as [[addr segs]|]; [|done].
    intros Hp Ha. by apply (proc_at_process a _ _ _ _ _ _ Hp Ha).
  - destruct (go_at sy b g) as [[| | | | | |[k|] st| | | | | | | |]|]; try done. destruct (proc_at _ _ sy) as [sy1|] eqn:Hp; [|done].
    intros [= <-] Ha. by apply (proc_at_process a _ _ _ _ _ _ Hp Ha).
  - destruct (pc_at sy b i) as [[]|]; try done. case_decide; [|done]. intros Hp Ha.
    by apply (proc_at_process a _ _ _ _ _ _ Hp Ha).
  - generalize (brought (ActUpload r)) as ids. intros ids. destruct (proc_at b (ActUpload r) sy) as [sy1|] eqn:Hp; [|done].
    intros [= <-] Ha. apply (proc_at_process a _ _ _ _ _ _ Hp Ha). by intros r' [= ->].
  - generalize (brought (ActPut None segs d)) as ids. intros ids. destruct (proc_at b _ sy) as [sy1|] eqn:Hp; [|done].
    intros [= <-] Ha. by apply (proc_at_process a _ _ _ _ _ _ Hp Ha).
Qed.

(** ** Where a lookup of targets comes from *)

Lemma proc_step_lookups act p p' job r :
  proc_step json_Manifest json_Status act p = Continues p' → (job, r) ∈ pr_lookups p' →
  (job, r) ∈ pr_lookups p ∨ ∃ i, pr_workers p !! i = Some (AtGetN job) ∧ s_Ring (pr_server p) = r.
Proof.
  destruct act as [a|i inp|g|g|id d|id healthy now|q|req segs d|]; cbn [proc_step].
  - destruct a as [|i|i|i|]; cbn [queue_step]; repeat case_match; intros [= <-]; by left.
  - destruct (negb _); [done|]. destruct (pr_workers p !! i) as [pc|] eqn:Hi; cbn [mbind option_bind]; [|done].
    destruct (worker_next _ _ _ _) as [[pc' os]|]; intros [= <-]. cbn.
    intros [?|Hin]%elem_of_app; [by left|right]. exists i. destruct pc; try (by apply elem_of_nil in Hin).
    by apply list_elem_of_singleton in Hin as [= -> ->].
  - repeat case_match; intros [= <-]; by left.
  - destruct (_ ≫= _); [|done]. intros [= <-]. by left.
  - repeat case_match; intros [= <-]; by left.
  - destruct (pingPeer _ _ _ _). intros [= <-]. by left.
  - repeat case_match; intros [= <-]; by left.
  - intros [= <-]. by left.
  - unfold main_step. repeat case_match; intros [= <-]; by left.
Qed.

(** Before a state, a worker of the node was about to look up the targets of the job, and
    the ring of the node was this. *)
Definition looked_up (sy : System) (a : string) (job : Job) (r : Ring) : Prop :=
  ∃ sy0 p0 i, reachable_sys sy0 ∧ rtc step sy0 sy ∧ sy_nodes sy0 !! a = Some (Up p0) ∧
    pr_workers p0 !! i = Some (AtGetN job) ∧ s_Ring (pr_server p0) = r.

Lemma lookups_happened sy a p job r :
  reachable_sys sy → sy_nodes sy !! a = Some (Up p) → (job, r) ∈ pr_lookups p → looked_up sy a job r.
Proof.
  intros Hr. revert p. unfold reachable_sys in Hr. revert sy Hr.
  apply (rtc_ind_r (λ sy, ∀ p, sy_nodes sy !! a = Some (Up p) → (job, r) ∈ pr_lookups p → looked_up sy a job r)).
  - intros p. cbn. rewrite lookup_fmap. by destruct (cfg !! a).
  - intros y z Hy [act Hst] IH p' Hp' Hin.
    assert (∀ sy0, rtc step sy0 y → rtc step sy0 z) as Hmore by (intros sy0 H0; eapply rtc_r; [exact H0|by exists act]).
    destruct (sys_step_process act y z a p' Hst Hp') as [(c&now&local&dm&_&->)|(p&Hp&Hfrom)].
    { destruct (boot_quiet c now local dm) as (_&_&Hl&_). rewrite Hl in Hin. by apply elem_of_nil in Hin. }
    assert ((job, r) ∈ pr_lookups p ∨ ∃ i, pr_workers p !! i = Some (AtGetN job) ∧ s_Ring (pr_server p) = r)
      as [Hold|(i&Hi&Hring)].
    { destruct Hfrom as [->|(pa&Hpa&_)]; [by left|by eapply proc_step_lookups]. }
    + destruct (IH p Hp Hold) as (sy0&p0&i&?&?&?). exists sy0, p0, i. split; [done|]. split; [by apply Hmore|done].
    + exists y, p, i. split; [exact Hy|]. split; [by apply Hmore|done].
Qed.

(** ** The simulation *)

Lemma ledger_set a n' sy :
  ledger (set_node a n' sy) =
  MkLedger (sy_given sy) (<[a := data (node_disk n')]> (l_held (ledger sy)))
    (<[a := node_damaged n']> (l_damaged (ledger sy))) (sy_lost sy) (<[a := told n']> (l_confirmed (ledger sy))).
Proof. unfold ledger. cbn. by rewrite !fmap_insert. Qed.

(** In the ledger: an address has the chunk, or its disk was lost. *)
Definition l_has (l : Ledger) (a id : string) : Prop :=
  a ∈ l_lost l ∨ ∃ H, l_held l !! a = Some H ∧ is_Some (H !! id).

Lemma holds_ledger sy a id : holds_or_lost sy a id ↔ l_has (ledger sy) a id.
Proof.
  unfold holds_or_lost, l_has, disk_at. cbn. rewrite lookup_fmap.
  destruct (sy_nodes sy !! a) as [n|]; cbn; [|rewrite lookup_empty]; split; naive_solver.
Qed.

(** What a step changes of a node, as the ledger sees it. *)
Record node_step (sy : System) (a : string) (n n' : NodeState) : Prop := {
  ns_told : told n' = told n ∨ told n' = [] ∨ ∃ addr id, told n' = told n ++ [(addr, id)] ∧ holds_or_lost sy addr id;
  ns_damaged : node_damaged n' = node_damaged n ∨ ∃ id, node_damaged n' = node_damaged n ∪ {[id]};
  ns_data : data (node_disk n') = data (node_disk n) ∨
    ∃ id d, data (node_disk n') = <[id := d]> (data (node_disk n)) ∧
      ((id ∈ sy_given sy ∧ ID d = id) ∨ (is_Some (data (node_disk n) !! id) ∧ id ∈ node_damaged n'));
}.

Lemma sim_set sy a n n' :
  sy_nodes sy !! a = Some n → node_step sy a n n' → rtc lstep (ledger sy) (ledger (set_node a n' sy)).
Proof.
  intros Ha [Htold Hdam Hdata]. rewrite ledger_set.
  set (g := sy_given sy). set (lo := sy_lost sy). set (cf := l_confirmed (ledger sy)).
  set (h := l_held (ledger sy)). set (dm := l_damaged (ledger sy)).
  assert (h !! a = Some (data (node_disk n))) as Hh by (cbn; by rewrite lookup_fmap, Ha).
  assert (dm !! a = Some (node_damaged n)) as Hd by (cbn; by rewrite lookup_fmap, Ha).
  assert (cf !! a = Some (told n)) as Hc by (cbn; by rewrite lookup_fmap, Ha).
  change (ledger sy) with (MkLedger g h dm lo cf).
  trans (MkLedger g h dm lo (<[a := told n']> cf)).
  { destruct Htold as [->|[->|(addr&id&->&Hid)]].
    - rewrite insert_id by done. apply rtc_refl.
    - apply rtc_once. by apply (l_forget (MkLedger g h dm lo cf) a (told n)).
    - apply rtc_once. apply (l_confirm (MkLedger g h dm lo cf) a (told n) addr id Hc). by apply holds_ledger. }
  trans (MkLedger g h (<[a := node_damaged n']> dm) lo (<[a := told n']> cf)).
  { destruct Hdam as [->|(id&->)].
    - rewrite (insert_id dm) by done. apply rtc_refl.
    - apply rtc_once. exact (l_damage (MkLedger g h dm lo (<[a := told n']> cf)) a (node_damaged n) id Hd). }
  destruct Hdata as [->|(id&d&->&[[Hg HID]|[Hid Hm]])].
  - rewrite (insert_id h) by done. apply rtc_refl.
  - apply rtc_once. exact (l_store (MkLedger g h (<[a := node_damaged n']> dm) lo (<[a := told n']> cf)) a _ id d Hh Hg HID).
  - apply rtc_once. refine (l_rot (MkLedger g h (<[a := node_damaged n']> dm) lo (<[a := told n']> cf)) a _ (node_damaged n')
      id d Hh Hid _ Hm). cbn. by rewrite lookup_insert_eq.
Qed.

Lemma pstep_data given ids p p' :
  data_ok given p → pstep p ids p' →
  (pr_damaged p' = pr_damaged p ∨ ∃ id, pr_damaged p' = pr_damaged p ∪ {[id]}) ∧
  (data (Local (pr_server p')) = data (Local (pr_server p)) ∨
   ∃ id d, data (Local (pr_server p')) = <[id := d]> (data (Local (pr_server p))) ∧
     ((id ∈ given ∧ ID d = id) ∨ (is_Some (data (Local (pr_server p)) !! id) ∧ id ∈ pr_damaged p'))).
Proof.
  intros Hok [i pool job _ _|i job pool _ _|i pool _|i pc inp pc' os _ _|g gr gr' s sp Hg Hn|g gr gr' _ _|id d d0 Hd|g
    |id healthy now|ids'|r chunks manifest _|req id d _|ids' req st _|ph|pool _]; try (by split; left).
  - split.
    + cbn. unfold overlap. repeat case_match; try (left; apply (right_id_L ∅ (∪))). right. by eexists.
    + cbn. apply go_next_data in Hn as ([->|(job&Hjob&Heq)]&_); [by left|right].
      exists (j_ChunkID job), (j_Data job). split; [done|]. left. apply list_elem_of_lookup_2 in Hg.
      destruct (do_carried given p Hok gr job Hg Hjob). done.
  - split; cbn; right; [by exists id|]. exists id, d. split; [done|]. right. split; [by eexists|]. set_solver.
Qed.

Lemma worker_next_told e (s : node_server) pc inp pc' os :
  worker_next e s pc inp = Some (pc', os) → told_of os = [] ∨ ∃ job addr, os = [(job, addr, Pushed)].
Proof.
  destruct pc, inp; cbn [worker_next]; unfold push_failed; repeat case_match; intros [= <- <-];
    try (by left); right; by eexists _, _.
Qed.

Lemma sim_proc sy a act p p' :
  sys_ok sy → sy_nodes sy !! a = Some (Up p) → proc_step json_Manifest json_Status act p = Continues p' →
  brought act ⊆ sy_given sy →
  (∀ job addr, (job, addr, Pushed) ∈ pr_outcomes p' → holds_or_lost (set_node a (Up p') sy) addr (j_ChunkID job)) →
  rtc lstep (ledger sy) (ledger (set_node a (Up p') sy)).
Proof.
  intros Hok Ha Hst Hb Htold. destruct (sk_up sy Hok a p Ha) as (c&_&[_ _ Hdata _ _]).
  destruct (pstep_data _ _ _ _ Hdata (proc_step_rule _ _ _ _ _ Hst)) as [Hdam Hd].
  apply (sim_set sy a (Up p)); [done|]. split; [|exact Hdam|exact Hd]. cbn [told].
  destruct (proc_step_workers act p p' Hst) as [[-> _]|(i&inp&pc&pc'&os&_&_&Hn&_&Hos&Hs)]; [by left|].
  rewrite Hos. unfold told_of. rewrite omap_app. destruct (worker_next_told _ _ _ _ _ _ Hn) as [Ht|(job&addr&->)].
  - left. unfold told_of in Ht. by rewrite Ht, (right_id_L [] (++)).
  - right. right. exists addr, (j_ChunkID job). split; [done|].
    assert (holds_or_lost (set_node a (Up p') sy) addr (j_ChunkID job)) as [?|Hd']
      by (apply Htold; rewrite Hos; apply elem_of_app; right; by left); [by left|]. right.
    rewrite disk_at_set in Hd'. case_decide as Heq; [|done]. subst addr. cbn [node_disk] in Hd'.
    rewrite (disk_at_node a _ sy Ha). cbn [node_disk]. by rewrite <-Hs.
Qed.

(** A process step gives no name and loses no disk. *)
Lemma proc_at_frame a act sy sy1 :
  proc_at a act sy = Some sy1 → sy_given sy1 = sy_given sy ∧ sy_lost sy1 = sy_lost sy.
Proof. unfold proc_at. repeat case_match; by intros [= <-]. Qed.

(** The state a step ends in, but for what it adds to the network, has the disks and
    outcomes that the simulation asks about. *)
Lemma sim_proc_at sy a act sy1 sy' :
  sys_ok sy → sys_ok sy' → sy_nodes sy' = sy_nodes sy1 → sy_lost sy' = sy_lost sy → brought act ⊆ sy_given sy →
  proc_at a act sy = Some sy1 → rtc lstep (ledger sy) (ledger sy1).
Proof.
  intros Hok Hok' Hnodes Hlost Hb. unfold proc_at. destruct (sy_nodes sy !! a) as [[|p]|] eqn:Ha; [done| |done].
  destruct (proc_step _ _ act p) as [p'| |] eqn:Hst; intros [= <-].
  - assert (sy_nodes sy' !! a = Some (Up p')) as Ha' by (rewrite Hnodes; apply lookup_insert_eq).
    apply (sim_proc sy a act p p'); [done..|].
    intros job addr Hin. pose proof (sk_told sy' Hok' a p' job addr Ha' Hin) as Hh.
    unfold holds_or_lost, disk_at in *. by rewrite Hnodes, Hlost in Hh.
  - apply (sim_set sy a (Up p)); [done|]. split; [right; by left|by left|by left].
Qed.

Lemma ledger_give ids sy : rtc lstep (ledger sy) (ledger (give ids sy)).
Proof. apply rtc_once, (l_give (ledger sy)). Qed.

(** A client's request brings its names first. *)
Lemma sim_given a act sy sy1 :
  sys_ok sy → sys_ok (give (brought act) sy1) → proc_at a act sy = Some sy1 →
  rtc lstep (ledger sy) (ledger (give (brought act) sy1)).
Proof.
  intros Hok Hok' Hp. destruct (proc_at_frame _ _ _ _ Hp) as [Hg Hl].
  trans (ledger (give (brought act) sy)); [apply ledger_give|].
  apply (sim_proc_at (give (brought act) sy) a act _ (give (brought act) sy1)); try done.
  - by apply sys_ok_give.
  - apply union_subseteq_r.
  - by rewrite proc_at_give, Hp.
Qed.

Lemma sys_step_sim act sy sy' : sys_ok sy → sys_step act sy = Some sy' → rtc lstep (ledger sy) (ledger sy').
Proof.
  intros Hok Hst. pose proof (sys_step_ok act sy sy' Hok Hst) as Hok'. revert Hst.
  destruct act as [a now|a|a|a act|a i|k|a g|a i status|a r|a segs d]; cbn [sys_step].
  - destruct (sy_nodes sy !! a) as [[local dm|]|] eqn:Ha; [|done..]. destruct (cfg !! a) as [c|] eqn:Hc; [|done].
    intros [= <-]. apply (sim_set sy a (Down local dm)); [done|]. destruct (boot_local c now local dm) as [Hlo Hdm].
    destruct (boot_quiet c now local dm) as (Hos&_).
    split; left; cbn [told node_disk node_damaged]; by rewrite ?Hlo, ?Hdm, ?Hos.
  - destruct (sy_nodes sy !! a) as [[|p]|] eqn:Ha; [done| |done]. intros [= <-].
    apply (sim_set sy a (Up p)); [done|]. split; [right; by left|by left|by left].
  - destruct (sy_nodes sy !! a) as [[local dm|]|] eqn:Ha; [|done..]. intros [= <-].
    assert (l_confirmed (ledger sy) !! a = Some []) as Hconf by (cbn; by rewrite lookup_fmap, Ha).
    assert (ledger (lose a (set_node a (Down NewMemory ∅) sy)) = MkLedger (l_given (ledger sy))
      (<[a := ∅]> (l_held (ledger sy))) (<[a := ∅]> (l_damaged (ledger sy))) (l_lost (ledger sy) ∪ {[a]})
      (l_confirmed (ledger sy))) as ->.
    { rewrite <-(insert_id (l_confirmed (ledger sy)) a []) by done. unfold ledger. cbn. by rewrite !fmap_insert. }
    eapply rtc_once, l_lose; cbn; by rewrite lookup_fmap, Ha.
  - destruct (own_act act) eqn:Hown; [|done]. intros Hp. destruct (proc_at_frame _ _ _ _ Hp).
    apply (sim_proc_at sy a act sy' sy'); try done. by destruct act.
  - destruct (pc_at sy a i) as [[]|]; try done.
    destruct (proc_at _ _ sy) as [sy1|] eqn:Hp; [|done]. intros [= <-]. destruct (proc_at_frame _ _ _ _ Hp).
    by apply (sim_proc_at sy a (ActWorker i (Sent (length (sy_net sy)))) sy1 _ Hok Hok').
  - destruct (sy_net sy !! k) as [pk|] eqn:Hk; [|done]. destruct (parse_url _) as [[addr segs]|] eqn:Hurl; [|done].
    intros Hp. destruct (proc_at_frame _ _ _ _ Hp). apply (sim_proc_at sy addr (ActPut (Some k) segs (k_data pk)) sy' sy' Hok Hok'); try done.
    etrans; [by eapply brought_push|]. apply singleton_subseteq_l, (sk_net sy Hok). by eapply list_elem_of_lookup_2.
  - destruct (go_at sy a g) as [[| | | | | |[k|] st| | | | | | | |]|]; try done.
    destruct (proc_at _ _ sy) as [sy1|] eqn:Hp; [|done]. intros [= <-]. destruct (proc_at_frame _ _ _ _ Hp).
    by apply (sim_proc_at sy a (ActGo g) sy1 _ Hok Hok').
  - destruct (pc_at sy a i) as [[]|]; try done. case_decide; [|done]. intros Hp.
    destruct (proc_at_frame _ _ _ _ Hp). by apply (sim_proc_at sy a (ActWorker i (Answered (Ok status))) sy' sy').
  - destruct (proc_at a (ActUpload r) sy) as [sy1|] eqn:Hp; [|done]. intros Heq. cbn [fmap option_fmap option_map] in Heq.
    assert (sy' = give (brought (ActUpload r)) sy1) as -> by congruence. by apply (sim_given a).
  - destruct (proc_at a (ActPut None segs d) sy) as [sy1|] eqn:Hp; [|done]. intros Heq. cbn [fmap option_fmap option_map] in Heq.
    assert (sy' = give (brought (ActPut None segs d)) sy1) as -> by congruence. by apply (sim_given a).
Qed.

(** What the ledger promises: who was told that a push was stored finds it there, or the
    disk was lost; and what a disk holds was given, and is under its SHA-256 unless it is
    damaged. *)
Definition ledger_ok (l : Ledger) : Prop :=
  (∀ b ps a id, l_confirmed l !! b = Some ps → (a, id) ∈ ps → l_has l a id) ∧
  ∀ a H id d, l_held l !! a = Some H → H !! id = Some d →
    id ∈ l_given l ∧ (ID d = id ∨ ∃ M, l_damaged l !! a = Some M ∧ id ∈ M).

(** A disk keeps its chunks, unless it is lost. *)
Lemma lstep_has l l' a id : lstep l l' → l_has l a id → l_has l' a id.
Proof.
  assert (∀ (b : string) (H : gmap string bytes) i (d : bytes) (lo : gset string) (h : gmap string (gmap string bytes)), h !! b = Some H → a ∈ lo ∨ (∃ H', h !! a = Some H' ∧ is_Some (H' !! id)) →
    a ∈ lo ∨ ∃ H', <[b := <[i := d]> H]> h !! a = Some H' ∧ is_Some (H' !! id)) as Hins.
  { intros b H i d lo h Hb [?|(H'&Ha&?)]; [by left|right]. destruct (decide (b = a)) as [->|].
    - rewrite lookup_insert_eq. eexists. split; [done|]. rewrite Hb in Ha. injection Ha as <-. by apply grows_insert.
    - exists H'. by rewrite lookup_insert_ne. }
  intros [ids|b H i d Hb _ _|b M i _|b H M i d Hb _ _ _|b H M Hb _|b ps c i _ _|b ps _] Hh; unfold l_has in *; cbn; try exact Hh.
  - by apply Hins.
  - by apply Hins.
  - destruct Hh as [?|(H'&Ha&?)]; [left; set_solver|]. destruct (decide (b = a)) as [->|]; [left; set_solver|right].
    exists H'. by rewrite lookup_insert_ne.
Qed.

Lemma lstep_ok l l' : ledger_ok l → lstep l l' → ledger_ok l'.
Proof.
  intros [IHc IHh] Hst. split.
  - assert (∀ b ps a id, l_confirmed l !! b = Some ps → (a, id) ∈ ps → l_has l' a id) as IHc'
      by (intros b ps a id Hb Hin; by eapply lstep_has, IHc).
    destruct Hst as [ids|a H id d Hb _ _|a M id _|a H M id d Hb _ _ _|a H M Hb _|b ps a id Hb Hh|b ps Hb]; cbn; try exact IHc'.
    + intros b' ps' a' id' [[<- <-]|[_ Hb']]%lookup_insert_Some Hin; [|by eapply IHc'].
      apply elem_of_app in Hin as [Hin|[= -> ->]%list_elem_of_singleton]; [by eapply IHc'|exact Hh].
    + intros b' ps' a' id' [[<- <-]|[_ Hb']]%lookup_insert_Some Hin; [by apply elem_of_nil in Hin|by eapply IHc'].
  - destruct Hst as [ids|a H id d Hb Hg HID|a M id HM|a H M id d Hb [d0 Hd0] HM Hid|a H M Hb _|b ps a id Hb Hh|b ps Hb]; cbn; try exact IHh.
    + intros a H id d Ha Hd. destruct (IHh a H id d Ha Hd) as [? ?]. split; [set_solver|done].
    + intros a' H' id' d' [[<- <-]|[_ Ha']]%lookup_insert_Some; [|by eapply IHh].
      intros [[<- <-]|[_ ?]]%lookup_insert_Some; [by split; [|left]|by eapply IHh].
    + intros a' H' id' d' Ha' Hd'. destruct (IHh a' H' id' d' Ha' Hd') as [? [?|(M'&HM'&?)]]; (split; [done|]); [by left|right].
      destruct (decide (a = a')) as [->|]; [|exists M'; by rewrite lookup_insert_ne].
      exists (M ∪ {[id]}). rewrite lookup_insert_eq. split; [done|]. rewrite HM in HM'. injection HM' as <-. set_solver.
    + intros a' H' id' d' [[<- <-]|[_ Ha']]%lookup_insert_Some; [|by eapply IHh].
      intros [[<- <-]|[_ ?]]%lookup_insert_Some; [|by eapply IHh]. destruct (IHh a H id d0 Hb Hd0) as [? _]. eauto.
    + intros a' H' id' d' [[<- <-]|[Hne Ha']]%lookup_insert_Some; [by rewrite lookup_empty|]. intros Hd'.
      rewrite lookup_insert_ne by done. by eapply IHh.
Qed.

Lemma ledger_safe l l' : ledger_ok l → rtc lstep l l' → ledger_ok l'.
Proof. intros Hl Hrun. induction Hrun as [|l l1 l' Hst _ IH]; [done|]. by eapply IH, lstep_ok. Qed.

Lemma ledger_init_ok : ledger_ok (ledger sys_init).
Proof.
  split; cbn.
  - intros b ps a id. rewrite !lookup_fmap. destruct (cfg !! b); intros [= <-] ?%elem_of_nil; done.
  - intros a H id d. rewrite !lookup_fmap. by destruct (cfg !! a); intros [= <-].
Qed.

(** A disk of the system keeps its chunks, and what was lost stays lost. *)
Lemma sys_step_keeps act sy sy' a id :
  sys_ok sy → sys_step act sy = Some sy' → holds_or_lost sy a id → holds_or_lost sy' a id.
Proof.
  intros Hok Hst. rewrite !holds_ledger. pose proof (sys_step_sim act sy sy' Hok Hst) as Hsim.
  induction Hsim as [|l l1 l' Hl _ IH]; [done|]. intros Hh. apply IH. by eapply lstep_has.
Qed.

(** ** The theorems *)

(** [C9] The cluster refines the ledger: whatever is delivered late, twice or never,
    whoever crashes and comes back, with its disk or without, and whichever files are
    damaged, every run is one of the ledger - a disk gets only chunks whose names clients
    gave, with data of that SHA-256, keeps them until it is lost, but for the data of
    those that Puts of the same chunk damaged by overlapping or the disk did; and a node
    is told that a push was stored only where there is a file of that name, or was
    before that disk was lost.  So in every reachable state the promise of the ledger
    holds: what any node was told is stored is there or the disk was lost, and every file
    holds data of its name unless it is damaged. *)
Theorem system_refines_ledger sy :
  reachable_sys sy → rtc lstep (ledger sys_init) (ledger sy) ∧ ledger_ok (ledger sy).
Proof.
  intros Hr. assert (rtc lstep (ledger sys_init) (ledger sy)) as Hsim.
  { revert Hr. unfold reachable_sys. apply (rtc_ind_r (λ sy, rtc lstep (ledger sys_init) (ledger sy))); [done|].
    intros y z Hy [act Hst] IH. trans (ledger y); [exact IH|].
    eapply sys_step_sim; [by apply reachable_sys_ok|exact Hst]. }
  split; [exact Hsim|]. eapply ledger_safe, Hsim. apply ledger_init_ok.
Qed.

(** [C3] A blob whose manifest is indexed is on its way to its replicas, and stays where it
    arrived: in every reachable state each of its chunks was accepted for replication,
    under its SHA-256; once the job is neither queued nor with a worker, there was a
    moment when a worker took the replica set of the chunk from the ring of the node, and
    for every other member of that set a push of the job to its address has ended; and
    where the push was successful, there is a file of that name on the disk of that
    member, unless the disk was lost, and it holds data of that SHA-256, unless the file
    is damaged. *)
Theorem indexed_blob_durable sy a p c blobID manifest id :
  reachable_sys sy → sy_nodes sy !! a = Some (Up p) → cfg !! a = Some c →
  manifests (pr_server p) !! blobID = Some manifest → id ∈ ChunkIDs manifest →
  ∃ job, job ∈ accepted (s_Pool (pr_server p)) ∧ j_ChunkID job = id ∧ ID (j_Data job) = id ∧
    (job ∉ queue (s_Pool (pr_server p)) → job ∉ in_flight (s_Pool (pr_server p)) →
     ∃ r, looked_up sy a job r ∧ ∀ n, n ∈ TargetsFor r id → n ≠ c_nodeID c →
       ∃ addr o, address_of c n = Some addr ∧ (job, addr, o) ∈ pr_outcomes p ∧
         (o = Pushed → addr ∈ sy_lost sy ∨
            ∃ d, disk_at sy addr !! id = Some d ∧ (ID d = id ∨ id ∈ damaged_at sy addr))).
Proof.
  intros Hreach Ha Hc Hman Hid. pose proof (reachable_sys_ok sy Hreach) as Hr.
  destruct (sk_up sy Hr a p Ha) as (c'&Hc'&Hp). rewrite Hc in Hc'. injection Hc' as <-.
  destruct (indexed_job c _ p blobID manifest id Hp Hman Hid) as (job&Hacc&Hj&HID&Hdone).
  exists job. split_and!; [done..|]. intros Hq Hf. destruct (Hdone Hq Hf) as (r&Hl&_&Hcov).
  exists r. split; [by eapply lookups_happened|]. intros n Hn Hne. destruct (Hcov n Hn Hne) as (addr&o&Haddr&Ho).
  exists addr, o. split_and!; [done..|]. intros ->.
  destruct (sk_told sy Hr a p job addr Ha Ho) as [?|[d Hd]]; [by left|]. right. rewrite Hj in Hd.
  exists d. split; [done|]. apply (sk_disk sy Hr addr id d Hd).
Qed.
End system.

Lemma sys_run_steps json_Manifest json_Status cfg acts sy sy' :
  sys_run json_Manifest json_Status cfg acts sy = Some sy' → rtc (step json_Manifest json_Status cfg) sy sy'.
Proof.
  revert sy. induction acts as [|act acts IH]; intros sy; cbn [sys_run]; [by intros [= <-]|].
  destruct (sys_step _ _ _ act sy) as [sy1|] eqn:Hst; [|done]. intros Hrun.
  apply (rtc_l _ _ sy1); [by exists act|by apply IH].
Qed.

(** An upload that splits starts the goroutine of its handler. *)
Lemma upload_step json_Manifest json_Status cfg a sy p r cs manifest :
  sy_nodes sy !! a = Some (Up p) → pr_phase p = Serving → blob_id r ≠ "" →
  Split (blob_id r) (r_Body r) DefaultSize = Ok (cs, manifest) →
  sys_step json_Manifest json_Status cfg (ClientUpload a r) sy =
    Some (give (list_to_set (ck_ID <$> cs))
      (set_node a (Up (set_go (pr_go p ++ [Upload (blob_id r) manifest cs]) p)) sy)).
Proof.
  intros Ha Hph Hid HS. cbn [sys_step brought]. unfold proc_at. rewrite Ha. cbn [proc_step].
  rewrite HS, decide_True by done. done.
Qed.

(** ** Witnesses *)

(** Two nodes that know each other. *)
Definition demo_config_b : NodeConfig := MkNodeConfig "node-b" "b:8080" "node-a=a:8080" 2 None.
Definition demo_cfg : gmap string NodeConfig := {["a:8080" := demo_config; "b:8080" := demo_config_b]}.

Lemma demo_cfg_distinct a c : demo_cfg !! a = Some c → distinct_points (known c).
Proof.
  unfold demo_cfg. intros [[_ <-]|[_ [_ <-]%lookup_singleton_Some]]%lookup_insert_Some; [apply demo_known|].
  eapply distinct_points_subset; [|exact demo_distinct]. cbn. set_solver.
Qed.

Abbreviation demo_run := (sys_run demo_json demo_json_status demo_cfg).

(** node-a works on an upload. *)
Definition demo_uploading : list SysAct :=
  [Own "a:8080" (ActGo 0); Own "a:8080" (ActGo 0); Own "a:8080" (ActGo 0); Own "a:8080" (ActGo 0);
   Own "a:8080" (ActGo 0); Own "a:8080" (ActQueue (ActReceive 0))].

(** The push is served, and answered; node-b crashes, comes back and is in the middle of
    serving it again when node-a gets the answer to the first. *)
Definition demo_pushing : list SysAct :=
  [Own "a:8080" (ActWorker 0 Go); Own "a:8080" (ActWorker 0 Go); SendPush "a:8080" 0; Deliver 0;
   Own "b:8080" (ActGo 0); Own "b:8080" (ActGo 0); Respond "b:8080" 0;
   Crash "b:8080"; Boot "b:8080" (5 * Second); Deliver 0; Own "b:8080" (ActGo 0); Receive "a:8080" 0 200;
   Own "a:8080" (ActWorker 0 Go); Own "a:8080" (ActQueue (ActFinish 0))].

(** The whole scenario, with what is asked of its states, evaluated once. *)
Definition demo_job : Job := MkJob (ID demo_hello) demo_hello.
Definition process_at (a : string) (sy : System) : option Process :=
  match sy_nodes sy !! a with Some (Up p) => Some p | _ => None end.
Definition demo_scenario : option (System * System * Process * Process) :=
  booted ← demo_run [Boot "a:8080" 0; Boot "b:8080" 0] (sys_init demo_cfg);
  p ← process_at "a:8080" booted;
  let given := give (list_to_set (ck_ID <$> [demo_chunk]))
    (set_node "a:8080" (Up (set_go (pr_go p ++ [Upload "layer" demo_manifest [demo_chunk]]) p)) booted) in
  pushed ← demo_run (demo_uploading ++ demo_pushing) given;
  p2 ← process_at "a:8080" pushed;
  Some (booted, pushed, p, p2).

Definition demo_facts (o : option (System * System * Process * Process)) : bool :=
  match o with
  | Some (_, _, p, p2) =>
      bool_decide (pr_phase p = Serving) &&
      bool_decide (ChunkIDs <$> manifests (pr_server p2) !! "layer" = Some [ID demo_hello]) &&
      match pr_outcomes p2 with
      | [(job, addr, Pushed)] => bool_decide (job = demo_job) && bool_decide (addr = "b:8080")
      | _ => false
      end &&
      bool_decide (queue (s_Pool (pr_server p2)) = []) && bool_decide (in_flight (s_Pool (pr_server p2)) = [])
  | None => false
  end.

Lemma demo_facts_true : demo_facts demo_scenario = true.
Proof. by vm_compute. Qed.

Lemma process_at_up a sy p : process_at a sy = Some p → sy_nodes sy !! a = Some (Up p).
Proof. unfold process_at. destruct (sy_nodes sy !! a) as [[]|]; [done| |done]. by intros [= ->]. Qed.

(** The end of the scenario: node-a has pushed the chunk. *)
Lemma demo_state :
  ∃ pushed p2 manifest,
    reachable_sys demo_json demo_json_status demo_cfg pushed ∧
    sy_nodes pushed !! "a:8080" = Some (Up p2) ∧ manifests (pr_server p2) !! "layer" = Some manifest ∧
    ChunkIDs manifest = [ID demo_hello] ∧ pr_outcomes p2 = [(demo_job, "b:8080", Pushed)] ∧
    queue (s_Pool (pr_server p2)) = [] ∧ in_flight (s_Pool (pr_server p2)) = [].
Proof.
  pose proof demo_facts_true as Hfacts. unfold demo_facts in Hfacts.
  destruct demo_scenario as [[[[booted pushed] p] p2]|] eqn:Hsc; [|discriminate Hfacts].
  apply bind_Some in Hsc as (x1&Hb&(x2&Hp%process_at_up&Hsc)%bind_Some). cbn zeta in Hsc.
  apply bind_Some in Hsc as (x3&Hpu&(x4&Hp2%process_at_up&[= -> -> -> ->])%bind_Some).
  rewrite !andb_true_iff, !bool_decide_eq_true in Hfacts. destruct Hfacts as ((((Hph&Hman)&Hout)&Hq)&Hf).
  assert (reachable_sys demo_json demo_json_status demo_cfg pushed) as Hr.
  { apply sys_run_steps in Hb, Hpu. unfold reachable_sys. trans booted; [exact Hb|].
    eapply rtc_l; [|exact Hpu]. exists (ClientUpload "a:8080" demo_upload).
    exact (upload_step demo_json demo_json_status demo_cfg "a:8080" booted p demo_upload [demo_chunk] demo_manifest
      Hp Hph ltac:(done) demo_Split_ok). }
  clear Hb Hpu Hp. apply fmap_Some in Hman as (manifest&Hman&Hids).
  exists pushed, p2, manifest. split_and!; try done.
  destruct (pr_outcomes p2) as [|[[job addr] []] []]; try done. by apply andb_true_iff in Hout as [->%bool_decide_eq_true ->%bool_decide_eq_true].
Qed.

Lemma demo_cfg_a : demo_cfg !! "a:8080" = Some demo_config.
Proof. by vm_compute. Qed.

Lemma system_refines_ledger_witness :
  ∃ sy p, sy_nodes sy !! "a:8080" = Some (Up p) ∧ pr_outcomes p = [(demo_job, "b:8080", Pushed)] ∧
    rtc lstep (ledger (sys_init demo_cfg)) (ledger sy) ∧ ledger_ok (ledger sy).
Proof.
  destruct demo_state as (pushed&p2&man&Hr&Hp&_&_&Ho&_). exists pushed, p2. split; [done|]. split; [done|].
  exact (system_refines_ledger demo_json demo_json_status demo_cfg demo_cfg_distinct pushed Hr).
Defined.

(** The push of the scenario arrived, and the chunk is there. *)
Lemma indexed_blob_durable_witness :
  ∃ sy p, sy_nodes sy !! "a:8080" = Some (Up p) ∧ pr_outcomes p = [(demo_job, "b:8080", Pushed)] ∧
    queue (s_Pool (pr_server p)) = [] ∧ in_flight (s_Pool (pr_server p)) = [] ∧
    ∃ job, job ∈ accepted (s_Pool (pr_server p)) ∧ j_ChunkID job = ID demo_hello ∧ ID (j_Data job) = ID demo_hello ∧
      (job ∉ queue (s_Pool (pr_server p)) → job ∉ in_flight (s_Pool (pr_server p)) →
       ∃ r, looked_up demo_json demo_json_status demo_cfg sy "a:8080" job r ∧
         ∀ n, n ∈ TargetsFor r (ID demo_hello) → n ≠ c_nodeID demo_config →
         ∃ addr o, address_of demo_config n = Some addr ∧ (job, addr, o) ∈ pr_outcomes p ∧
           (o = Pushed → addr ∈ sy_lost sy ∨
              ∃ d, disk_at sy addr !! ID demo_hello = Some d ∧ (ID d = ID demo_hello ∨ ID demo_hello ∈ damaged_at sy addr))).
Proof.
  destruct demo_state as (pushed&p2&man&Hr&Hp&Hman&Hids&Ho&Hq&Hf). exists pushed, p2.
  split; [done|]. split; [done|]. split; [done|]. split; [done|].
  assert (ID demo_hello ∈ ChunkIDs man) as Hid by (rewrite Hids; apply list_elem_of_here).
  exact (indexed_blob_durable demo_json demo_json_status demo_cfg demo_cfg_distinct pushed "a:8080" p2 demo_config
    "layer" man (ID demo_hello) Hr Hp demo_cfg_a Hman Hid).
Defined.
