(* ===== verification/Downloads.v ===== *)
(** * Downloads under way

    A [World] is the system of System.v with the download handlers that run in it: each is
    at a point of [handleDownloadBlob], [Reassemble] and [fetchChunk] ([DownloadPC]), has a
    response writer, and goes on in steps between which anything may happen: the chunk it
    asks a peer for is read when that peer serves the request, which may fail or be
    answered late, or never: [http.Get] sets no time limit, so a handler waits for a peer
    that does not answer for as long as the connection stands.  A read of a disk may fail,
    at the node itself or at a peer, and a damaged file may be read.  Kept beside a
    download for the theorems are what it has verified so far, why it passed over a
    replica of the chunk at hand or over a store ([Note]), the ring at which it looked up
    the replicas; and beside them the names and bodies of all uploads.

    Downloads change nothing of the system ([world_projects]).  The theorems: what a client
    has received is at any time a prefix of a blob uploaded under the name it asked for; a
    download ends at a damaged chunk only if a file of it was damaged; one that does not
    find a chunk has a reason for each member of the replica set that it looked up, and
    where a push was confirmed before, the reason is never that the peer did not have the
    chunk, unless its disk was lost; and a download takes a bounded number of steps and
    waits for nothing but an answer. *)
From S2P Require Import Prelude GoLib GoIO Sha HashRing Placement Chunk Storage Membership Replication WorkerPool Recovery Server Node Cluster Goroutines System.

(** ** State *)

(** How a download ends: complete, or at a chunk that was not found, was damaged or could
    not be written. *)
Inductive Ending :=
| Complete
| NotFetched (id : string)
| Corrupt (id : string)
| NotWritten (id : string) (err : error).

(** At the head of the loop of [Reassemble]; in [fetchChunk] of a chunk, before the rest
    [ids]: at the lookup of the replicas, at the head of the loop over those left, at the
    request to one of them, with its answer under way, at the cold tier; with the chunk
    fetched; returned from the handler; and gone with the node. *)
Inductive DownloadPC :=
| NextChunk (ids : list string)
| AtReplicas (id : string) (ids : list string)
| AtReplica (id : string) (ids : list string) (targets : list string)
| AtRequest (id : string) (ids : list string) (targets : list string) (nodeID addr : string)
| AtReply (id : string) (ids : list string) (targets : list string) (nodeID addr : string) (status : Z) (body : bytes)
    (readable : bool)
| AtCold (id : string) (ids : list string)
| Fetched (id : string) (d : bytes) (ids : list string)
| Returned (e : Ending)
| Gone.

(** The error that [Reassemble] returns. *)
Definition ending_error (e : Ending) : option error :=
  match e with
  | Complete => None
  | NotFetched id => Some (fmt_Errorf_w ("chunk: fetching " +:+ id) ErrNotFound)
  | Corrupt id => Some (fmt_Errorf ("chunk: integrity check failed for " +:+ id))
  | NotWritten id err => Some (fmt_Errorf_w ("chunk: writing " +:+ id) err)
  end.

(** Why a replica was passed over: the table did not hold it alive, the request or its
    answer was lost, it answered with another status than 200, after a read of its disk
    that worked or not; and why a store of the node was: its read failed. *)
Inductive Why :=
| NotAlive
| NoAnswer (addr : string)
| Refused (addr : string) (status : Z) (readable : bool)
| DiskFailed
| ColdFailed.

Abbreviation Note := (string * Why)%type.

(** What a step of a download meets: nothing, a failure of its request or read, the answer
    a peer gives to it, which could read its disk or not. *)
Inductive Reaction :=
| Proceed
| Fails
| Serves (status : Z) (body : bytes) (readable : bool).

Record Download := MkDownload {
  d_at : string;
  d_blobID : string;
  d_manifest : Manifest;
  d_pc : DownloadPC;
  d_rw : ResponseWriter;
  d_got : list bytes;
  d_notes : list Note;
  d_ring : Ring;
}.

Record World := MkWorld {
  w_sys : System;
  w_downloads : list Download;
  w_blobs : list (string * bytes);
}.

(** ** Steps *)

(** One step of [fetchChunk]: where it goes on, and the note it leaves. *)
Definition fetch_next (s : node_server) (pc : DownloadPC) (x : Reaction) : option (DownloadPC * list Note) :=
  match pc, x with
  | NextChunk (id :: ids), Proceed =>
      match b_Get id (Local s) with
      | Ok d => Some (Fetched id d ids, [])
      | Err _ => Some (AtReplicas id ids, [])
      end
  | NextChunk (id :: ids), Fails => Some (AtReplicas id ids, [(SelfID s, DiskFailed)])
  | AtReplicas id ids, Proceed => Some (AtReplica id ids (GetN (s_Ring s) id Factor), [])
  | AtReplica id ids (nodeID :: targets), Proceed =>
      if decide (nodeID = SelfID s) then Some (AtReplica id ids targets, [])
      else match addrForNode (s_Membership s) nodeID with
           | None => Some (AtReplica id ids targets, [(nodeID, NotAlive)])
           | Some addr => Some (AtRequest id ids targets nodeID addr, [])
           end
  | AtRequest id ids targets nodeID addr, Fails => Some (AtReplica id ids targets, [(nodeID, NoAnswer addr)])
  | AtRequest id ids targets nodeID addr, Serves status body readable =>
      Some (AtReply id ids targets nodeID addr status body readable, [])
  | AtReply id ids targets nodeID addr _ _ _, Fails => Some (AtReplica id ids targets, [(nodeID, NoAnswer addr)])
  | AtReply id ids targets nodeID addr status body readable, Proceed =>
      if (status =? StatusOK)%Z then Some (Fetched id body ids, [])
      else Some (AtReplica id ids targets, [(nodeID, Refused addr status readable)])
  | AtReplica id ids [], Proceed => Some (AtCold id ids, [])
  | AtCold id ids, Proceed =>
      match Cold s with
      | Some cold =>
          match b_Get id cold with
          | Ok d => Some (Fetched id d ids, [])
          | Err _ => Some (Returned (NotFetched id), [])
          end
      | None => Some (Returned (NotFetched id), [])
      end
  | AtCold id ids, Fails =>
      match Cold s with
      | Some _ => Some (Returned (NotFetched id), [(SelfID s, ColdFailed)])
      | None => None
      end
  | _, _ => None
  end.

(** The ring at which the handler has looked up its replicas, after its next step. *)
Definition ring_next (s : node_server) (d : Download) : Ring :=
  match d_pc d with AtReplicas _ _ => s_Ring s | _ => d_ring d end.

(** One step of the handler: of the fetch, or of the loop of [Reassemble] around it. *)
Definition download_next (s : node_server) (x : Reaction) (d : Download) : option Download :=
  let go pc rw got notes := Some (MkDownload (d_at d) (d_blobID d) (d_manifest d) pc rw got notes (ring_next s d)) in
  match d_pc d, x with
  | NextChunk [], Proceed => go (Returned Complete) (d_rw d) (d_got d) (d_notes d)
  | Fetched id data ids, Proceed =>
      if negb (Verify id data) then go (Returned (Corrupt id)) (d_rw d) (d_got d) (d_notes d)
      else
        let '(err, rw) := rw_Write (d_rw d) data in
        match err with
        | Some err => go (Returned (NotWritten id err)) rw (d_got d ++ [data]) (d_notes d)
        | None => go (NextChunk ids) rw (d_got d ++ [data]) []
        end
  | pc, _ =>
      match fetch_next s pc x with
      | Some (pc, notes) => go pc (d_rw d) (d_got d) (d_notes d ++ notes)
      | None => None
      end
  end.

(** A handler that has not returned ends with its process. *)
Definition still_running (sy : System) (d : Download) : Download :=
  match d_pc d, sy_nodes sy !! d_at d with
  | Returned _, _ | _, Some (Up _) => d
  | _, _ => MkDownload (d_at d) (d_blobID d) (d_manifest d) Gone (d_rw d) (d_got d) (d_notes d) (d_ring d)
  end.

Inductive WorldAct :=
| SystemDoes (act : SysAct)
| ClientDownload (a : string) (r : Request) (room : option nat)
| DownloadDoes (k : nat) (x : Reaction)
| PeerServes (k : nat) (readable : bool).

Definition uploaded_by (act : SysAct) : list (string * bytes) :=
  match act with ClientUpload _ r => [(blob_id r, content (r_Body r))] | _ => [] end.

Section world.
Context (json_Manifest : Manifest → bytes) (json_Status : StatusReport → bytes).
Context (cfg : gmap string NodeConfig).

(** A GET served by the node at an address: the status and the body.  To the handler, a
    disk that cannot be read is one without files. *)
Definition get_at (a : string) (segs : list string) (readable : bool) (sy : System) : option (Z * bytes) :=
  match sy_nodes sy !! a with
  | Some (Up p) =>
      let s := if readable then pr_server p else set_Local NewMemory (pr_server p) in
      let '(rw, _, _, _) := ServeHTTP json_Manifest json_Status (MkRequest "GET" segs (MkReader [[]] io_EOF true))
        (MkResponseWriter None [] None) s nobody in
      Some (sent_status rw, rw_body rw)
  | _ => None
  end.

(** Download [k] makes a step. *)
Definition download_at (k : nat) (x : Reaction) (w : World) : option World :=
  match w_downloads w !! k with
  | Some d =>
      match sy_nodes (w_sys w) !! d_at d with
      | Some (Up p) =>
          (λ d', MkWorld (w_sys w) (<[k := d']> (w_downloads w)) (w_blobs w)) <$> download_next (pr_server p) x d
      | _ => None
      end
  | None => None
  end.

Definition world_step (act : WorldAct) (w : World) : option World :=
  match act with
  | SystemDoes act =>
      (λ sy, MkWorld sy (still_running sy <$> w_downloads w) (w_blobs w ++ uploaded_by act)) <$>
        sys_step json_Manifest json_Status cfg act (w_sys w)
  | ClientDownload a r room =>
      match sy_nodes (w_sys w) !! a with
      | Some (Up p) =>
          if decide (pr_phase p = Serving) then
            match manifests (pr_server p) !! blob_id r with
            | None => Some w
            | Some manifest =>
                Some (MkWorld (w_sys w) (w_downloads w ++ [MkDownload a (blob_id r) manifest
                  (NextChunk (ChunkIDs manifest)) (MkResponseWriter None [] room) [] [] (s_Ring (pr_server p))]) (w_blobs w))
            end
          else None
      | _ => None
      end
  | DownloadDoes k (Serves _ _ _) => None
  | DownloadDoes k x => download_at k x w
  | PeerServes k readable =>
      match d_pc <$> w_downloads w !! k with
      | Some (AtRequest id _ _ _ addr) =>
          match parse_url (chunk_url addr id) with
          | Some (a, segs) =>
              match get_at a segs readable (w_sys w) with
              | Some (status, body) => download_at k (Serves status body readable) w
              | None => None
              end
          | None => None
          end
      | _ => None
      end
  end.

Fixpoint world_run (acts : list WorldAct) (w : World) : option World :=
  match acts with
  | [] => Some w
  | act :: acts => world_step act w ≫= world_run acts
  end.

Definition world_init : World := MkWorld (sys_init cfg) [] [].

(** ** Runs of the system *)

Definition system_acts (acts : list WorldAct) : list SysAct :=
  omap (λ act, match act with SystemDoes act => Some act | _ => None end) acts.

Lemma download_at_inv k x w w' :
  download_at k x w = Some w' →
  ∃ d p d', w_downloads w !! k = Some d ∧ sy_nodes (w_sys w) !! d_at d = Some (Up p) ∧
    download_next (pr_server p) x d = Some d' ∧
    w' = MkWorld (w_sys w) (<[k := d']> (w_downloads w)) (w_blobs w).
Proof.
  unfold download_at. destruct (w_downloads w !! k) as [d|] eqn:Hk; [|done].
  destruct (sy_nodes (w_sys w) !! d_at d) as [[|p]|] eqn:Hp; [done| |done].
  destruct (download_next (pr_server p) x d) as [d'|] eqn:Hd; [|done]. intros [= <-]. by exists d, p, d'.
Qed.

Lemma world_step_sys act w w' :
  world_step act w = Some w' →
  match act with
  | SystemDoes act => sys_step json_Manifest json_Status cfg act (w_sys w) = Some (w_sys w')
  | _ => w_sys w' = w_sys w
  end.
Proof.
  destruct act as [act|a r room|k x|k rd]; cbn [world_step].
  - destruct (sys_step _ _ _ act _) as [sy|]; [|done]. by intros [= <-].
  - repeat case_match; by intros [= <-].
  - destruct x; try done; by intros (d&p&d'&_&_&_&->)%download_at_inv.
  - repeat case_match; try done; by intros (d'&p'&d''&_&_&_&->)%download_at_inv.
Qed.

Lemma world_projects acts w w' :
  world_run acts w = Some w' →
  sys_run json_Manifest json_Status cfg (system_acts acts) (w_sys w) = Some (w_sys w').
Proof.
  revert w. induction acts as [|act acts IH]; intros w; cbn [world_run]; [by intros [= <-]|].
  destruct (world_step act w) as [w1|] eqn:Hst; [|done]. intros Hrun. apply world_step_sys in Hst.
  destruct act as [act|a r room|k x|k rd]; cbn [system_acts omap list_omap]; [|rewrite <-Hst; by apply IH..].
  cbn [sys_run]. rewrite Hst. by apply IH.
Qed.

Lemma world_step_sys_same act w w' :
  world_step act w = Some w' → (∀ act', act ≠ SystemDoes act') → w_sys w' = w_sys w.
Proof. intros Hst%world_step_sys Hno. destruct act as [act'| | |]; [by destruct (Hno act')|done..]. Qed.

Lemma world_run_app acts acts' w : world_run (acts ++ acts') w = world_run acts w ≫= world_run acts'.
Proof.
  revert w. induction acts as [|act acts IH]; intros w; [done|]. cbn [app world_run].
  destruct (world_step act w); [apply IH|done].
Qed.

(** An invariant of the steps is one of the runs. *)
Lemma world_run_inv (P : World → Prop) acts w w' :
  (∀ act w w', P w → world_step act w = Some w' → P w') → P w → world_run acts w = Some w' → P w'.
Proof.
  intros Hst. revert w. induction acts as [|act acts IH]; intros w Hw; cbn [world_run]; [by intros [= <-]|].
  destruct (world_step act w) as [w1|] eqn:Hact; [|done]. apply IH. by eapply Hst.
Qed.

(** ** Where manifests come from *)

(** The manifest of a body that was uploaded under the name. *)
Definition comes_from (blobs : list (string * bytes)) (blobID : string) (manifest : Manifest) : Prop :=
  ∃ body cs, (blobID, content body) ∈ blobs ∧ Split blobID body DefaultSize = Ok (cs, manifest).

Definition upload_of (g : Goroutine) : option (string * Manifest) :=
  match g with
  | Upload blobID manifest _ | UploadPut blobID manifest _ _ | UploadWrite blobID manifest _ _
  | UploadEnqueue blobID manifest _ _ => Some (blobID, manifest)
  | _ => None
  end.

Definition has_manifest (p : Process) (blobID : string) (manifest : Manifest) : Prop :=
  manifests (pr_server p) !! blobID = Some manifest ∨ ∃ g, g ∈ pr_go p ∧ upload_of g = Some (blobID, manifest).

Lemma go_next_upload e (s : node_server) g g' s' sp :
  go_next e s g = Runs g' s' sp →
  (manifests s' = manifests s ∨
   ∃ blobID manifest, upload_of g = Some (blobID, manifest) ∧ manifests s' = <[blobID := manifest]> (manifests s)) ∧
  (∀ x, upload_of g' = Some x → upload_of g = Some x) ∧ ∀ gr, gr ∈ sp → upload_of gr = None.
Proof.
  destruct g; cbn [go_next upload_next handle_next repair_next]; unfold callback_next, enqueue_then; repeat case_match; intros [= <- <- <-]; simplify_eq/=;
    (split_and!; [try (by left); right; by eexists _, _|done|
      intros gr Hgr; rewrite ?elem_of_cons, elem_of_nil in Hgr; naive_solver]).
Qed.

Lemma proc_step_manifest act p p' blobID manifest :
  proc_step json_Manifest json_Status act p = Continues p' → has_manifest p' blobID manifest →
  has_manifest p blobID manifest ∨
  ∃ r cs, act = ActUpload r ∧ blobID = blob_id r ∧ Split (blob_id r) (r_Body r) DefaultSize = Ok (cs, manifest).
Proof.
  destruct act as [a|i inp|g|g|id d|id healthy now|r|req segs d|]; cbn [proc_step].
  - destruct a as [|i|i|i|]; cbn [queue_step]; repeat case_match; intros [= <-]; by left.
  - repeat case_match; intros [= <-]; by left.
  - destruct (pr_go p !! g) as [gr|] eqn:Hg; [|done]. apply list_elem_of_lookup_2 in Hg.
    destruct (go_next _ _ gr) as [gr' s' sp| |] eqn:Hn; [|done|case_match; [|done]]; intros [= <-] Hm; left.
    + apply go_next_upload in Hn as (Hs'&Hgr'&Hsp). destruct Hm as [Hm|(g0&Hg0&Hu)].
      * cbn in Hm. destruct Hs' as [Hs'|(b&m&Hu&Hs')]; rewrite Hs' in Hm; [by left|].
        apply lookup_insert_Some in Hm as [[<- <-]|[_ Hm]]; [right; by exists gr|by left].
      * cbn in Hg0. apply elem_of_app in Hg0 as [[->|Hg0]%elem_of_insert_inv|Hg0]; [right..|].
        -- exists gr. split; [done|by apply Hgr'].
        -- by exists g0.
        -- by rewrite (Hsp _ Hg0) in Hu.
    + destruct Hm as [Hm|(g0&[->|Hg0]%elem_of_insert_inv&Hu)]; [by left|done|]. right. by exists g0.
  - destruct (pr_go p !! g) as [gr|] eqn:Hg; cbn [mbind option_bind]; [|done].
    destruct (fault_next gr) as [gr'|] eqn:Hf; [|done]. intros [= <-].
    intros [Hm|(g0&[->|Hg0]%elem_of_insert_inv&Hu)]; left; [by left| |right; by exists g0]. by destruct gr; inversion Hf; subst.
  - repeat case_match; intros [= <-]; by left.
  - destruct (pingPeer _ _ _ _) as [calls m]. intros [= <-] [Hm|(g0&[Hg0|Hg0]%elem_of_app&Hu)]; left; [by left|right; by exists g0|].
    apply list_elem_of_fmap in Hg0 as (cl&->&_). unfold call_goroutine in Hu. by destruct (call_target cl).
  - case_decide; [|done]. destruct (Split _ _ _) as [[cs m]|] eqn:HS; intros [= <-]; [|by left].
    intros [Hm|(g0&[Hg0| ->%list_elem_of_singleton]%elem_of_app&Hu)]; [left; by left|left; right; by exists g0|].
    right. injection Hu as <- <-. by exists r, cs.
  - intros [= <-] [Hm|(g0&[Hg0| ->]%append_go&Hu)]; left; [by left|right; by exists g0|].
    by destruct (put_begin_cases json_Manifest json_Status req segs d (pr_server p)) as [(id&_&_&Heq)|(st&_&Heq)]; rewrite Heq in Hu.
  - unfold main_step. repeat case_match; intros [= <-]; by left.
Qed.

Lemma pstep_Cold ids p p' : pstep p ids p' → Cold (pr_server p') = Cold (pr_server p).
Proof.
  intros [i pool job _ _|i job pool _ _|i pool _|i pc inp pc' os _ _|g gr gr' s sp _ Hn|g gr gr' _ _|id d d0 _|g
    |id healthy now|ids'|r chunks manifest _|req id d _|ids' req st _|ph|pool _]; try done. cbn.
  revert Hn. destruct gr; cbn [go_next upload_next handle_next repair_next]; unfold callback_next, enqueue_then;
    repeat case_match; by intros [= _ <- _].
Qed.

(** ** A download *)

(** The chunks that a download has still to write. *)
Definition pc_left (pc : DownloadPC) : option (list string) :=
  match pc with
  | NextChunk ids => Some ids
  | AtReplicas id ids | AtReplica id ids _ | AtRequest id ids _ _ _ | AtReply id ids _ _ _ _ _ _ | AtCold id ids
  | Fetched id _ ids => Some (id :: ids)
  | Returned Complete => Some []
  | Returned _ | Gone => None
  end.

(** What has been written are verified chunks, in the order of the manifest. *)
Record pieces_ok (d : Download) : Prop := {
  po_named : (ID <$> d_got d) `prefix_of` ChunkIDs (d_manifest d);
  po_written : rw_body (d_rw d) `prefix_of` concat (d_got d);
  po_status : sent_status (d_rw d) = 200%Z;
  po_left ids : pc_left (d_pc d) = Some ids →
    (ID <$> d_got d) ++ ids = ChunkIDs (d_manifest d) ∧ rw_body (d_rw d) = concat (d_got d);
}.

Lemma pieces_same d pc notes r :
  (∀ ids, pc_left pc = Some ids → pc_left (d_pc d) = Some ids) → pieces_ok d →
  pieces_ok (MkDownload (d_at d) (d_blobID d) (d_manifest d) pc (d_rw d) (d_got d) notes r).
Proof. intros Hl [Hn Hw Hs Hleft]. split; try done. intros ids Hids. by apply Hleft, Hl. Qed.

Lemma fetch_next_left (s : node_server) pc x pc' notes ids :
  fetch_next s pc x = Some (pc', notes) → pc_left pc' = Some ids → pc_left pc = Some ids.
Proof.
  destruct pc as [[]| | | | | | | |], x; cbn [fetch_next]; repeat case_match; intros [= <- <-]; cbn; by intros [= <-].
Qed.

(** A step of the handler is one of the fetch, the end of the loop, or a chunk verified and
    written. *)
Inductive download_step (s : node_server) (x : Reaction) (d : Download) : Download → Prop :=
| step_fetch pc notes :
    fetch_next s (d_pc d) x = Some (pc, notes) →
    download_step s x d (MkDownload (d_at d) (d_blobID d) (d_manifest d) pc (d_rw d) (d_got d) (d_notes d ++ notes)
      (ring_next s d))
| step_end :
    d_pc d = NextChunk [] → x = Proceed →
    download_step s x d (MkDownload (d_at d) (d_blobID d) (d_manifest d) (Returned Complete) (d_rw d) (d_got d) (d_notes d)
      (d_ring d))
| step_corrupt id data ids :
    d_pc d = Fetched id data ids → x = Proceed → ID data ≠ id →
    download_step s x d
      (MkDownload (d_at d) (d_blobID d) (d_manifest d) (Returned (Corrupt id)) (d_rw d) (d_got d) (d_notes d) (d_ring d))
| step_write id data ids rw :
    d_pc d = Fetched id data ids → x = Proceed → ID data = id → rw_Write (d_rw d) data = (None, rw) →
    download_step s x d (MkDownload (d_at d) (d_blobID d) (d_manifest d) (NextChunk ids) rw (d_got d ++ [data]) [] (d_ring d))
| step_cut id data ids err rw :
    d_pc d = Fetched id data ids → x = Proceed → ID data = id → rw_Write (d_rw d) data = (Some err, rw) →
    download_step s x d
      (MkDownload (d_at d) (d_blobID d) (d_manifest d) (Returned (NotWritten id err)) rw (d_got d ++ [data]) (d_notes d) (d_ring d)).

Lemma download_next_step (s : node_server) x d d' : download_next s x d = Some d' → download_step s x d d'.
Proof.
  unfold download_next. pose proof (step_fetch s x d) as Hfetch. unfold ring_next in *.
  destruct (d_pc d) as [[|id ids]|id ids|id ids ts|id ids ts n addr|id ids ts n addr st body rd|id ids|id data ids|e|] eqn:Hpc;
    try (destruct (fetch_next s _ x) as [[pc notes]|]; intros [= <-]; by apply Hfetch).
  - destruct x; try done. intros [= <-]. by apply step_end.
  - destruct x; try done. destruct (Verify id data) eqn:HV; cbn [negb].
    + apply Verify_true in HV. destruct (rw_Write (d_rw d) data) as [[err|] rw] eqn:Hw; intros [= <-].
      * by eapply step_cut.
      * by eapply step_write.
    + intros [= <-]. eapply step_corrupt; [done..|]. by apply bool_decide_eq_false in HV.
Qed.

Lemma pieces_step (s : node_server) x d d' : pieces_ok d → download_step s x d d' → pieces_ok d'.
Proof.
  intros Hok [pc notes Hn|Hpc _|id data ids Hpc _ _|id data ids rw Hpc _ HID Hw|id data ids err rw Hpc _ HID Hw].
  - apply pieces_same; [|done]. intros ids. by eapply fetch_next_left.
  - apply pieces_same; [|done]. by rewrite Hpc.
  - by apply pieces_same.
  - destruct Hok as [Hn Hpre Hs Hleft]. destruct (Hleft (id :: ids)) as [Hids Hbody]; [by rewrite Hpc|].
    assert ((ID <$> d_got d ++ [data]) ++ ids = ChunkIDs (d_manifest d)) as Hids'.
    { rewrite fmap_app, <-(assoc_L (++)). cbn. by rewrite HID. }
    assert (rw_body rw = concat (d_got d ++ [data])) as Hbody'.
    { rewrite concat_app. cbn. rewrite app_nil_r, <-Hbody. exact (write_ok _ _ _ Hw). }
    pose proof (rw_Write_sent (d_rw d) data Hs) as Hs'. rewrite Hw in Hs'.
    split; cbn [d_got d_manifest d_rw d_pc pc_left]; [by exists ids|by rewrite Hbody'|done|by intros ? [= <-]].
  - destruct Hok as [Hn Hpre Hs Hleft]. destruct (Hleft (id :: ids)) as [Hids Hbody]; [by rewrite Hpc|].
    pose proof (rw_Write_sent (d_rw d) data Hs) as Hs'. rewrite Hw in Hs'.
    split; cbn [d_got d_manifest d_rw d_pc pc_left]; [| |done|done].
    + exists ids. rewrite <-Hids, fmap_app, <-(assoc_L (++)). cbn. by rewrite HID.
    + change (w_write (d_rw d) data = (Some err, rw)) in Hw. destruct (write_err _ _ _ _ Hw) as [k Hk]. cbn in Hk. rewrite Hk, Hbody, concat_app. cbn.
      rewrite app_nil_r. apply prefix_app, prefix_take.
Qed.

(** ** Replicas passed over *)

Section replicas.
Context (c : NodeConfig).

(** Each of the nodes but this one has a note. *)
Definition noted (notes : list Note) (ns : list string) : Prop :=
  ∀ n, n ∈ ns → n ≠ c_nodeID c → ∃ why, (n, why) ∈ notes.

(** A note names the address of the flags, and a status that is no 200. *)
Definition note_ok (note : Note) : Prop :=
  match note.2 with
  | NotAlive => True
  | NoAnswer addr => address_of c note.1 = Some addr
  | Refused addr status _ => address_of c note.1 = Some addr ∧ status ≠ 200%Z
  | DiskFailed | ColdFailed => note.1 = c_nodeID c
  end.

(** The replicas a download has behind it have their notes; it asks the next one at its
    address; and it gives up on a chunk that the cold tier does not have either, or could
    not read. *)
Definition replicas_ok (d : Download) : Prop :=
  (∀ note, note ∈ d_notes d → note_ok note) ∧
  match d_pc d with
  | NextChunk _ => d_notes d = []
  | AtReplica id _ ts => ring_of c (d_ring d) ∧ ∃ before, TargetsFor (d_ring d) id = before ++ ts ∧ noted (d_notes d) before
  | AtRequest id _ ts n addr | AtReply id _ ts n addr _ _ _ =>
      ring_of c (d_ring d) ∧ (∃ before, TargetsFor (d_ring d) id = before ++ n :: ts ∧ noted (d_notes d) before) ∧
        address_of c n = Some addr
  | AtCold id _ => ring_of c (d_ring d) ∧ noted (d_notes d) (TargetsFor (d_ring d) id)
  | Returned (NotFetched id) =>
      id ∈ ChunkIDs (d_manifest d) ∧
      (∀ cold, c_cold c = Some cold → data cold !! id = None ∨ (c_nodeID c, ColdFailed) ∈ d_notes d) ∧
      ring_of c (d_ring d) ∧ noted (d_notes d) (TargetsFor (d_ring d) id)
  | _ => True
  end.

Lemma noted_snoc notes ns n why : noted notes ns → noted (notes ++ [(n, why)]) (ns ++ [n]).
Proof.
  intros Hn n' [Hin| ->%list_elem_of_singleton]%elem_of_app Hne.
  - destruct (Hn n' Hin Hne) as [why' ?]. exists why'. apply elem_of_app. by left.
  - exists why. apply elem_of_app. right. by left.
Qed.

Lemma noted_app notes more ns : noted notes ns → noted (notes ++ more) ns.
Proof. intros Hn n Hin Hne. destruct (Hn n Hin Hne) as [why ?]. exists why. apply elem_of_app. by left. Qed.

Lemma noted_self notes ns : noted notes ns → noted notes (ns ++ [c_nodeID c]).
Proof. intros Hn n' [Hin| ->%list_elem_of_singleton]%elem_of_app Hne; [by apply Hn|done]. Qed.

Lemma notes_snoc notes note :
  (∀ x, x ∈ notes → note_ok x) → note_ok note → ∀ x, x ∈ notes ++ [note] → note_ok x.
Proof. intros Hn Hnote x [?| ->%list_elem_of_singleton]%elem_of_app; [by apply Hn|done]. Qed.

Lemma alive_address (p : Process) n addr :
  static_ok c p → addrForNode (s_Membership (pr_server p)) n = Some addr → address_of c n = Some addr.
Proof.
  intros Hs. rewrite <-(so_addrs c p Hs n).
  destruct (address_lookups (s_Membership (pr_server p)) n (so_table c p Hs)) as [-> ->].
  destruct (peers _ !! n) as [q|]; cbn; [|done]. by case_decide.
Qed.

Lemma replicas_fetch given (p : Process) x d pc notes :
  proc_ok c given p → Cold (pr_server p) = c_cold c → pieces_ok d → replicas_ok d →
  fetch_next (pr_server p) (d_pc d) x = Some (pc, notes) →
  replicas_ok (MkDownload (d_at d) (d_blobID d) (d_manifest d) pc (d_rw d) (d_got d) (d_notes d ++ notes)
    (ring_next (pr_server p) d)).
Proof.
  intros [Hs _ _ _ _] Hcold Hpo [Hn Hpc]. pose proof (so_self c p Hs) as Hself.
  assert (∀ id ids, pc_left (d_pc d) = Some (id :: ids) → id ∈ ChunkIDs (d_manifest d)) as Hin.
  { intros id ids [<- _]%(po_left d Hpo). apply elem_of_app. right. by left. }
  unfold replicas_ok, ring_next.
  destruct (d_pc d) as [[|id ids]|id ids|id ids ts|id ids ts n addr|id ids ts n addr st body rd|id ids|id dt ids|e|], x;
    cbn [fetch_next]; try done; try (by destruct ts).
  - case_match; intros [= <- <-]; cbn; by rewrite app_nil_r.
  - intros [= <- <-]. cbn. split; [|done]. by apply notes_snoc.
  - intros [= <- <-]. cbn. rewrite app_nil_r. split; [done|]. split; [apply Hs|]. exists [].
    split; [done|]. by intros n ?%elem_of_nil.
  - destruct Hpc as (Hr&before&Ht&Hb). destruct ts as [|n ts].
    + intros [= <- <-]. cbn. rewrite app_nil_r. split; [done|]. by rewrite Ht, app_nil_r.
    + rewrite Hself. case_decide as Hne; [|destruct (addrForNode _ n) as [addr|] eqn:Ha]; intros [= <- <-];
        cbn [d_pc d_notes d_ring]; rewrite ?app_nil_r.
      * split; [done|]. split; [done|]. exists (before ++ [n]). rewrite <-(assoc_L (++)). split; [done|].
        subst n. by apply noted_self.
      * split; [done|]. split; [done|]. split; [by exists before|]. by eapply alive_address.
      * split; [by apply notes_snoc|]. split; [done|]. exists (before ++ [n]). rewrite <-(assoc_L (++)).
        split; [done|]. by apply noted_snoc.
  - destruct Hpc as (Hr&(before&Ht&Hb)&Ha). intros [= <- <-]. split; [by apply notes_snoc|]. cbn.
    split; [done|]. exists (before ++ [n]). rewrite <-(assoc_L (++)). split; [done|]. by apply noted_snoc.
  - intros [= <- <-]. cbn. by rewrite app_nil_r.
  - destruct Hpc as (Hr&(before&Ht&Hb)&Ha). destruct (Z.eqb_spec st StatusOK) as [|Hst]; intros [= <- <-];
      cbn [d_pc d_notes d_ring]; [by rewrite app_nil_r|]. split; [by apply notes_snoc|].
    split; [done|]. exists (before ++ [n]). rewrite <-(assoc_L (++)). split; [done|]. by apply noted_snoc.
  - destruct Hpc as (Hr&(before&Ht&Hb)&Ha). intros [= <- <-]. split; [by apply notes_snoc|]. cbn.
    split; [done|]. exists (before ++ [n]). rewrite <-(assoc_L (++)). split; [done|]. by apply noted_snoc.
  - rewrite Hcold. pose proof (Hin id ids eq_refl) as Hid.
    destruct (c_cold c) as [cold|]; [|intros [= <- <-]; cbn; by rewrite app_nil_r].
    change (b_Get id cold) with (Memory_Get id cold). unfold Memory_Get.
    destruct (data cold !! id) as [y|] eqn:Hy; intros [= <- <-]; cbn; rewrite app_nil_r; [done|].
    split; [done|]. split; [done|]. split; [|done]. intros cold' [= <-]. by left.
  - pose proof (Hin id ids eq_refl) as Hid. destruct (Cold (pr_server p)) as [cold|]; [|done]. intros [= <- <-]. cbn.
    split; [by apply notes_snoc|]. split; [done|]. split; [|split; [apply Hpc|by apply noted_app, Hpc]].
    intros cold' _. right. rewrite Hself. apply elem_of_app. right. by left.
Qed.

Lemma replicas_step given (p : Process) x d d' :
  proc_ok c given p → Cold (pr_server p) = c_cold c → pieces_ok d → replicas_ok d →
  download_step (pr_server p) x d d' → replicas_ok d'.
Proof.
  intros Hp Hcold Hpo Hok [pc notes Hn|_ _|id data ids _ _ _|id data ids rw _ _ _ _|id data ids err rw _ _ _ _];
    [by eapply replicas_fetch| | | |]; (split; [|done]); try apply Hok. by intros note ?%elem_of_nil.
Qed.
End replicas.

(** ** The invariant *)

Record download_ok (blobs : list (string * bytes)) (d : Download) : Prop := {
  dk_manifest : comes_from blobs (d_blobID d) (d_manifest d);
  dk_pieces : pieces_ok d;
  dk_replicas : ∃ c, cfg !! d_at d = Some c ∧ replicas_ok c d;
}.

Definition running (d : Download) : Prop :=
  match d_pc d with Returned _ | Gone => False | _ => True end.

Record world_ok (w : World) : Prop := {
  wk_sys : sys_ok cfg (w_sys w);
  wk_manifests a p blobID manifest :
    sy_nodes (w_sys w) !! a = Some (Up p) → has_manifest p blobID manifest →
    comes_from (w_blobs w) blobID manifest;
  wk_cold a p c :
    sy_nodes (w_sys w) !! a = Some (Up p) → cfg !! a = Some c → Cold (pr_server p) = c_cold c;
  wk_downloads d : d ∈ w_downloads w → download_ok (w_blobs w) d;
  wk_running d : d ∈ w_downloads w → running d → ∃ p, sy_nodes (w_sys w) !! d_at d = Some (Up p);
}.

Context (Hdistinct : ∀ a c, cfg !! a = Some c → distinct_points (known c)).

Lemma comes_from_app blobs more blobID manifest :
  comes_from blobs blobID manifest → comes_from (blobs ++ more) blobID manifest.
Proof. intros (body&cs&Hin&HS). exists body, cs. split; [|done]. apply elem_of_app. by left. Qed.

Lemma download_ok_app blobs more d : download_ok blobs d → download_ok (blobs ++ more) d.
Proof. intros [? ? ?]. split; [by apply comes_from_app|done..]. Qed.

Lemma still_running_ok blobs sy d : download_ok blobs d → download_ok blobs (still_running sy d).
Proof.
  intros [Hm Hp (c&Hc&Hn&Hr)]. unfold still_running.
  assert (download_ok blobs (MkDownload (d_at d) (d_blobID d) (d_manifest d) Gone (d_rw d) (d_got d) (d_notes d) (d_ring d))).
  { split; [done|by apply pieces_same|]. by exists c. }
  assert (download_ok blobs d) by (split; [done|done|by exists c]).
  by repeat case_match.
Qed.

Lemma still_running_up sy d :
  running (still_running sy d) → ∃ p, sy_nodes sy !! d_at (still_running sy d) = Some (Up p).
Proof.
  unfold still_running, running. repeat case_match; cbn; intros; simplify_eq; try done; eauto; congruence.
Qed.

Lemma boot_Cold c now local : Cold (pr_server (boot c now local)) = c_cold c.
Proof. unfold boot. by destruct (setup_peers _ _ _ now). Qed.

Lemma boot_manifest c now local damaged blobID manifest :
  ¬ has_manifest (mark damaged (boot c now local)) blobID manifest.
Proof.
  unfold boot. destruct (setup_peers _ _ _ now). intros [Hm|(g&Hg&_)].
  - cbn in Hm. by rewrite lookup_empty in Hm.
  - by apply elem_of_nil in Hg.
Qed.

Lemma world_ok_system act w w' : world_ok w → world_step (SystemDoes act) w = Some w' → world_ok w'.
Proof.
  intros Hok. cbn [world_step].
  destruct (sys_step _ _ _ act _) as [sy|] eqn:Hst; [|done]. intros [= <-].
  pose proof (λ a p', sys_step_process json_Manifest json_Status cfg act _ _ a p' Hst) as Hproc.
  split; cbn [w_sys w_downloads w_blobs].
  - exact (sys_step_ok _ _ cfg Hdistinct _ _ _ (wk_sys w Hok) Hst).
  - intros a p' b m Ha Hm. destruct (Hproc a p' Ha) as [(c&now&local&dm&_&->)|(p&Hp&[->|(pa&Hpa&Hr)])].
    + by apply boot_manifest in Hm.
    + apply comes_from_app. by eapply wk_manifests.
    + destruct (proc_step_manifest _ _ _ _ _ Hpa Hm) as [Hm'|(r&cs&->&->&HS)];
        [apply comes_from_app; by eapply wk_manifests|].
      rewrite (Hr r eq_refl). exists (r_Body r), cs. split; [|done]. apply elem_of_app. right. by left.
  - intros a p' c Ha Hc. destruct (Hproc a p' Ha) as [(c'&now&local&dm&Hc'&->)|(p&Hp&[->|(pa&Hpa&_)])].
    + rewrite Hc in Hc'. injection Hc' as <-. apply boot_Cold.
    + by eapply wk_cold.
    + rewrite (pstep_Cold _ _ _ (proc_step_rule _ _ _ _ _ Hpa)). by eapply wk_cold.
  - intros d' (d&->&Hd)%list_elem_of_fmap. by apply download_ok_app, still_running_ok, (wk_downloads w Hok).
  - intros d' (d&->&Hd)%list_elem_of_fmap. apply still_running_up.
Qed.

Lemma world_ok_downloads w ds :
  world_ok w → (∀ d, d ∈ ds → d ∈ w_downloads w ∨ download_ok (w_blobs w) d ∧
    ∃ p, sy_nodes (w_sys w) !! d_at d = Some (Up p)) →
  world_ok (MkWorld (w_sys w) ds (w_blobs w)).
Proof.
  intros [Hs Hm Hc Hd Hr] Hds. split; cbn [w_sys w_downloads w_blobs]; [done..| |].
  - intros d [?|[? _]]%Hds; [by apply Hd|done].
  - intros d [?|[_ ?]]%Hds Hrun; [by apply Hr|done].
Qed.

Lemma download_step_at (s : node_server) x d d' :
  download_step s x d d' → d_at d' = d_at d ∧ d_blobID d' = d_blobID d ∧ d_manifest d' = d_manifest d.
Proof. by intros []. Qed.

Lemma world_ok_download k x w w' : world_ok w → download_at k x w = Some w' → world_ok w'.
Proof.
  intros Hok (d&p&d'&Hk&Hp&Hn&->)%download_at_inv. apply download_next_step in Hn.
  pose proof (download_step_at _ _ _ _ Hn) as (Hat&Hb&Hm). apply list_elem_of_lookup_2 in Hk.
  apply world_ok_downloads; [done|]. intros d0 [->|?]%elem_of_insert_inv; [right|by left].
  destruct (wk_downloads w Hok d Hk) as [Hman Hpo (c&Hc&Hr)]. rewrite Hat. split; [|by exists p].
  destruct (sk_up cfg _ (wk_sys w Hok) _ _ Hp) as (c'&Hc'&Hpok). rewrite Hc in Hc'. injection Hc' as <-.
  split; [by rewrite Hb, Hm|by eapply pieces_step|]. exists c. rewrite Hat. split; [done|].
  eapply replicas_step; [exact Hpok| |done..]. by eapply wk_cold.
Qed.

Lemma world_step_ok act w w' : world_ok w → world_step act w = Some w' → world_ok w'.
Proof.
  intros Hok. destruct act as [act|a r room|k x|k rd]; [by apply world_ok_system|cbn [world_step]..].
  - destruct (sy_nodes (w_sys w) !! a) as [[|p]|] eqn:Ha; [done| |done]. case_decide; [|done].
    destruct (manifests (pr_server p) !! blob_id r) as [m|] eqn:Hm; intros [= <-]; [|done].
    apply world_ok_downloads; [done|]. intros d [?| ->%list_elem_of_singleton]%elem_of_app; [by left|]. right.
    destruct (sk_up cfg _ (wk_sys w Hok) _ _ Ha) as (c&Hc&_). split; [|by exists p]. split; cbn.
    + eapply wk_manifests; [done|exact Ha|by left].
    + split; cbn; [apply prefix_nil|done|done|by intros ids [= <-]].
    + exists c. split; [done|]. split; [by intros note ?%elem_of_nil|done].
  - destruct x; try done; by apply world_ok_download.
  - repeat case_match; try done; by apply world_ok_download.
Qed.

Lemma world_ok_init : world_ok world_init.
Proof.
  assert (∀ a p, sy_nodes (sys_init cfg) !! a ≠ Some (Up p)) as Hdown
    by (intros a p; cbn; rewrite lookup_fmap; by destruct (cfg !! a)).
  split; cbn [world_init w_sys w_downloads w_blobs].
  - apply sys_ok_init.
  - by intros a p b m Ha%Hdown.
  - by intros a p c Ha%Hdown.
  - by intros d ?%elem_of_nil.
  - by intros d ?%elem_of_nil.
Qed.

Definition reachable_world (w : World) : Prop := ∃ acts, world_run acts world_init = Some w.

Lemma reachable_world_ok w : reachable_world w → world_ok w.
Proof. intros [acts Hrun]. eapply world_run_inv; [exact world_step_ok|exact world_ok_init|exact Hrun]. Qed.

(** ** What clients receive *)

Lemma download_pieces blobs d :
  download_ok blobs d →
  ∃ body cs, (d_blobID d, content body) ∈ blobs ∧ Split (d_blobID d) body DefaultSize = Ok (cs, d_manifest d) ∧
    ((Z.of_nat (length (content body)) < 2 ^ 63)%Z →
     (∀ c x, c ∈ cs → x ∈ d_got d → ID x = ck_ID c → x = ck_Data c) →
     rw_body (d_rw d) `prefix_of` content body ∧
     (d_pc d = Returned Complete → rw_body (d_rw d) = content body)).
Proof.
  intros [(body&cs&Hin&HS) [Hn Hw _ Hleft] _]. exists body, cs. split; [done|]. split; [done|]. intros Hlen Hinj.
  rewrite Split_eq in HS by done. case_decide; [|done]. injection HS as Hcs Hm.
  set (ds := chop _ _) in *. rewrite <-Hm in Hn, Hleft. cbn [ChunkIDs] in Hn, Hleft.
  assert (concat ds = content body) as Hds by (apply chop_concat; pose proof (chunk_size_pos DefaultSize); lia).
  assert (d_got d `prefix_of` ds) as Hpre.
  { apply verified_are_pieces; [exact Hn|]. intros x y Hx Hy HID.
    destruct (number_elem 0 ds x Hx) as (c&Hc&<-&Hck). rewrite <-Hck in HID. rewrite Hcs in Hc. by apply Hinj. }
  rewrite <-Hds. split; [etrans; [exact Hw|by apply concat_prefix]|].
  intros Hpc. destruct (Hleft [] ltac:(by rewrite Hpc)) as [Hfull ->]. f_equal.
  rewrite app_nil_r in Hfull. apply (f_equal length) in Hfull. rewrite !length_fmap in Hfull.
  destruct Hpre as [k Hk]. rewrite Hk, length_app in Hfull. by rewrite Hk, (nil_length_inv k), app_nil_r by lia.
Qed.

(** ** What peers answer *)

Context (Hplain : ∀ a c n addr, cfg !! a = Some c → address_of c n = Some addr → plain_url_part addr).

(** What the disk at an address answers: the chunk, or that it has none, or that it could
    not be read. *)
Definition answer_of (sy : System) (addr id : string) (status : Z) (body : bytes) (readable : bool) : Prop :=
  (status = 200%Z ∧ disk_at sy addr !! id = Some body) ∨
  (status = 404%Z ∧ (readable = true → disk_at sy addr !! id = None)).

(** A GET of a chunk is answered from the disk at the address asked. *)
Lemma get_at_chunk addr x sy a segs rd status body :
  plain_url_part addr → parse_url (chunk_url addr (ID x)) = Some (a, segs) → get_at a segs rd sy = Some (status, body) →
  answer_of sy addr (ID x) status body rd.
Proof.
  intros Haddr. rewrite parse_push_plain by (done || apply plain_ID). intros [= <- <-]. unfold get_at, answer_of, disk_at.
  destruct (sy_nodes sy !! addr) as [[|p]|]; [done| |done]. cbn [node_disk].
  unfold ServeHTTP. cbn [r_Method r_Segments]. rewrite Routes_chunk, decide_False by done.
  change (is_get "GET") with true. cbn iota. unfold handleGetChunk. destruct rd.
  - change (b_Get (ID x) (Local (pr_server p))) with (Memory_Get (ID x) (Local (pr_server p))). unfold Memory_Get.
    destruct (data (Local (pr_server p)) !! ID x) as [d|]; intros [= <- <-]; [by left|by right].
  - intros [= <- <-]. by right.
Qed.

(** The names in a manifest are SHA-256 values. *)
Lemma manifest_names blobs blobID manifest id :
  comes_from blobs blobID manifest → id ∈ ChunkIDs manifest → ∃ x, id = ID x.
Proof.
  intros (body&cs&_&HS). apply Split_named in HS as [Hnamed ->].
  intros (c&->&Hc)%list_elem_of_fmap. rewrite Forall_forall in Hnamed. exists (ck_Data c). by apply Hnamed.
Qed.

(** What the request of a download is answered. *)
Lemma served_to w k d id ids ts n addr a segs rd status body :
  world_ok w → w_downloads w !! k = Some d → d_pc d = AtRequest id ids ts n addr →
  parse_url (chunk_url addr id) = Some (a, segs) → get_at a segs rd (w_sys w) = Some (status, body) →
  answer_of (w_sys w) addr id status body rd ∧
  ∃ c, cfg !! d_at d = Some c ∧ address_of c n = Some addr.
Proof.
  intros Hok Hk%list_elem_of_lookup_2 Hpc Hurl Hget. destruct (wk_downloads w Hok d Hk) as [Hm Hp (c&Hc&Hr)].
  destruct (po_left d Hp (id :: ids)) as [Hids _]; [by rewrite Hpc|].
  destruct (manifest_names _ _ _ id Hm) as [x ->]; [rewrite <-Hids; apply elem_of_app; right; by left|].
  destruct Hr as [_ Hr]. rewrite Hpc in Hr. destruct Hr as (_&_&Ha).
  split; [eapply get_at_chunk; [by eapply Hplain|done..]|by exists c].
Qed.

(** ** Damaged chunks *)

Context (Hcold : ∀ a c cold, cfg !! a = Some c → c_cold c = Some cold → addressed (data cold)).

(** The file at an address was damaged; if that disk was lost since, it may have been. *)
Definition blamed (sy : System) (id addr : string) : Prop := id ∈ damaged_at sy addr ∨ addr ∈ sy_lost sy.

Lemma lstep_blamed l l' a id :
  lstep l l' → (a ∈ l_lost l ∨ ∃ M, l_damaged l !! a = Some M ∧ id ∈ M) →
  a ∈ l_lost l' ∨ ∃ M, l_damaged l' !! a = Some M ∧ id ∈ M.
Proof.
  intros [ids|b H i d _ _ _|b M i Hb|b H M i d _ _ _ _|b H M _ Hb|b ps c i _ _|b ps _] Hh; cbn; try exact Hh;
    destruct Hh as [?|(M'&Ha&?)]; try (left; set_solver); (destruct (decide (b = a)) as [->|];
      [|right; exists M'; by rewrite lookup_insert_ne]).
  - right. exists (M ∪ {[i]}). rewrite lookup_insert_eq. split; [done|]. rewrite Hb in Ha. injection Ha as <-. set_solver.
  - left. set_solver.
Qed.

Lemma blamed_ledger sy id a :
  blamed sy id a ↔ a ∈ l_lost (ledger sy) ∨ ∃ M, l_damaged (ledger sy) !! a = Some M ∧ id ∈ M.
Proof.
  unfold blamed, damaged_at. cbn. rewrite lookup_fmap.
  destruct (sy_nodes sy !! a) as [n|]; cbn; [|rewrite elem_of_empty]; split; naive_solver.
Qed.

Lemma sys_step_blamed act sy sy' a id :
  sys_ok cfg sy → sys_step json_Manifest json_Status cfg act sy = Some sy' → blamed sy id a → blamed sy' id a.
Proof.
  intros Hok Hst. rewrite !blamed_ledger. pose proof (sys_step_sim _ _ _ Hdistinct _ _ _ Hok Hst) as Hsim.
  induction Hsim as [|l l1 l' Hl _ IH]; [done|]. intros Hh. apply IH. by eapply lstep_blamed.
Qed.

(** A file of the chunk was damaged, at the node itself or at one that its flags name. *)
Definition suspect (sy : System) (d : Download) (id : string) : Prop :=
  blamed sy id (d_at d) ∨ ∃ c n addr, cfg !! d_at d = Some c ∧ address_of c n = Some addr ∧ blamed sy id addr.

Definition sound (sy : System) (d : Download) : Prop :=
  match d_pc d with
  | Fetched id data _ => ID data = id ∨ suspect sy d id
  | AtReply id _ _ _ _ status body _ => status = 200%Z → ID body = id ∨ suspect sy d id
  | Returned (Corrupt id) => suspect sy d id
  | Returned (NotWritten _ _) => rw_room (d_rw d) = Some 0
  | _ => True
  end.

Lemma sound_mono sy sy' d : (∀ id a, blamed sy id a → blamed sy' id a) → sound sy d → sound sy' d.
Proof.
  intros Hb. assert (∀ id, suspect sy d id → suspect sy' d id) as Hs.
  { intros id [?|(c&n&addr&?&?&?)]; [left; by apply Hb|right]. exists c, n, addr. split_and!; [done..|by apply Hb]. }
  unfold sound. repeat case_match; naive_solver.
Qed.

Lemma rw_Write_cut w b err w' : rw_Write w b = (Some err, w') → rw_room w' = Some 0.
Proof. unfold rw_Write. repeat case_match; by intros [= _ <-]. Qed.

(** The data that a fetch comes back with, from wherever, is that of the chunk, or of a
    damaged file. *)
Lemma sound_step sy c (p : Process) x d d' :
  sys_ok cfg sy → sy_nodes sy !! d_at d = Some (Up p) → cfg !! d_at d = Some c → Cold (pr_server p) = c_cold c → sound sy d →
  (∀ id ids ts n addr status body rd, d_pc d = AtRequest id ids ts n addr → x = Serves status body rd →
     status = 200%Z → ID body = id ∨ suspect sy d id) →
  download_step (pr_server p) x d d' → sound sy d'.
Proof.
  intros Hsy Hp Hc Hco Hs Hx [pc notes Hn|_ _|id data ids Hpc _ HID|id data ids rw _ _ _ _|id data ids err rw _ _ _ Hw];
    unfold sound in *; cbn [d_pc d_rw]; [|done| |done|by eapply rw_Write_cut].
  - destruct (d_pc d) as [[|id ids]|id ids|id ids ts|id ids ts n addr|id ids ts n addr st body rd|id ids|id dt ids|e|], x;
      cbn [fetch_next] in Hn; try done; try (by destruct ts); try (by injection Hn as <- <-).
    + change (b_Get id (Local (pr_server p))) with (Memory_Get id (Local (pr_server p))) in Hn. unfold Memory_Get in Hn.
      destruct (data _ !! id) as [y|] eqn:Hy; injection Hn as <- <-; [|done].
      destruct (sk_disk cfg sy Hsy (d_at d) id y) as [_ [?|Hdm]]; [by rewrite (disk_at_node _ _ _ Hp)|by left|].
      right. left. by left.
    + destruct ts; [by injection Hn as <- <-|]. case_decide; [by injection Hn as <- <-|].
      destruct (addrForNode _ _); by injection Hn as <- <-.
    + injection Hn as <- <-. by eapply Hx.
    + destruct (Z.eqb_spec st StatusOK) as [Hst|]; injection Hn as <- <-; [by apply Hs|done].
    + rewrite Hco in Hn. destruct (c_cold c) as [cold|] eqn:Hcc; [|by injection Hn as <- <-].
      change (b_Get id cold) with (Memory_Get id cold) in Hn. unfold Memory_Get in Hn.
      destruct (data cold !! id) as [y|] eqn:Hy; injection Hn as <- <-; [|done]. left. by apply (Hcold (d_at d) c cold).
    + rewrite Hco in Hn. destruct (c_cold c); [by injection Hn as <- <-|done].
  - rewrite Hpc in Hs. by destruct Hs.
Qed.

Definition world_sound (w : World) : Prop := world_ok w ∧ ∀ d, d ∈ w_downloads w → sound (w_sys w) d.

(** A step of a download in the world, with what its peer answers. *)
Lemma world_step_download act w w' :
  world_ok w → world_step act w = Some w' → (∀ act', act ≠ SystemDoes act') →
  w' = w ∨
  (∃ d, w_downloads w' = w_downloads w ++ [d] ∧ ∃ ids, d_pc d = NextChunk ids) ∨
  ∃ k x d p d', w_downloads w !! k = Some d ∧ sy_nodes (w_sys w) !! d_at d = Some (Up p) ∧
    download_step (pr_server p) x d d' ∧ w_downloads w' = <[k := d']> (w_downloads w) ∧
    ∀ id ids ts n addr status body rd, d_pc d = AtRequest id ids ts n addr → x = Serves status body rd →
      answer_of (w_sys w) addr id status body rd ∧
      ∃ c, cfg !! d_at d = Some c ∧ address_of c n = Some addr.
Proof.
  intros Hok Hst Hact. destruct act as [act|a r room|k x|k rd]; [by destruct (Hact act)|cbn [world_step] in Hst..].
  - destruct (sy_nodes (w_sys w) !! a) as [[|p]|]; [done| |done]. case_decide; [|done].
    destruct (manifests (pr_server p) !! blob_id r); injection Hst as <-; [right; left|by left].
    eexists. split; [reflexivity|]. by eexists.
  - right. right. destruct x; try done; apply download_at_inv in Hst as (d&p&d'&Hk&Hp&Hn&->);
      (exists k; eexists; exists d, p, d'; split_and!; [done|done|by apply download_next_step|done|]);
      by intros id ids ts n addr st body rd _ [=].
  - right. right. destruct (w_downloads w !! k) as [d0|] eqn:Hk0; [|done]. cbn in Hst.
    destruct (d_pc d0) as [| | |id ids ts n addr| | | | |] eqn:Hpc0; try done.
    destruct (parse_url _) as [[a segs]|] eqn:Hurl; [|done].
    destruct (get_at a segs rd (w_sys w)) as [[st body]|] eqn:Hget; [|done].
    apply download_at_inv in Hst as (d&p&d'&Hk&Hp&Hn&->). rewrite Hk0 in Hk. injection Hk as <-.
    exists k, (Serves st body rd), d0, p, d'. split_and!; [done|done|by apply download_next_step|done|].
    intros id' ids' ts' n' addr' st' body' rd' Hpc [= <- <- <-]. rewrite Hpc0 in Hpc. injection Hpc as <- <- <- <- <-.
    by eapply served_to.
Qed.

Lemma world_sound_step act w w' : world_sound w → world_step act w = Some w' → world_sound w'.
Proof.
  intros [Hok Hs] Hst. split; [by eapply world_step_ok|]. destruct act as [act|a r room|k x|k rd].
  1: { cbn [world_step] in Hst. destruct (sys_step _ _ _ act _) as [sy|] eqn:Hsys; [|done]. injection Hst as <-.
    intros d' (d&->&Hd)%list_elem_of_fmap. cbn [w_sys].
    pose proof (sound_mono _ sy d (λ id a, sys_step_blamed _ _ _ a id (wk_sys w Hok) Hsys) (Hs d Hd)) as Hsd.
    unfold still_running. by repeat case_match. }
  all: rewrite (world_step_sys_same _ _ _ Hst) by done.
  all: apply world_step_download in Hst as [->|[(d0&->&ids&Hpc)|(j&y&d&p&d'&Hj&Hp&Hn&->&Hy)]]; [done| | |done|done].
  all: try (intros d [?| ->%list_elem_of_singleton]%elem_of_app; [by apply Hs|]; unfold sound; by rewrite Hpc).
  all: intros d0 [->|?]%elem_of_insert_inv; [|by apply Hs]; apply list_elem_of_lookup_2 in Hj.
  all: destruct (sk_up cfg _ (wk_sys w Hok) _ _ Hp) as (c&Hc&_).
  all: eapply (sound_step _ c p y d); [apply Hok|exact Hp|exact Hc|by eapply wk_cold|by apply Hs| |done].
  all: intros id ids ts n addr st body rd' Hpc -> ->.
  all: destruct (Hy id ids ts n addr 200%Z body rd' Hpc eq_refl) as [[[_ Hb]|[? _]] (c'&Hc'&Ha)]; [|done].
  all: destruct (sk_disk cfg _ (wk_sys w Hok) _ _ _ Hb) as [_ [?|?]]; [by left|].
  all: right; right; exists c', n, addr; split_and!; [done..|by left].
Qed.

Lemma reachable_sound w d : reachable_world w → d ∈ w_downloads w → sound (w_sys w) d.
Proof.
  intros [acts Hrun]. apply (world_run_inv world_sound _ _ _ world_sound_step) in Hrun; [apply Hrun|].
  split; [apply world_ok_init|]. by intros d' ?%elem_of_nil.
Qed.

(** ** Why a chunk is not found *)

Lemma ledger_lost l l' : rtc lstep l l' → l_lost l ⊆ l_lost l'.
Proof. intros Hrun. induction Hrun as [|l l1 l' Hst _ IH]; [done|]. etrans; [|exact IH]. destruct Hst; cbn; set_solver. Qed.

(** The chunk in hand. *)
Definition pc_chunk (pc : DownloadPC) : option string :=
  match pc with
  | AtReplicas id _ | AtReplica id _ _ | AtRequest id _ _ _ _ | AtReply id _ _ _ _ _ _ _ | AtCold id _
  | Returned (NotFetched id) => Some id
  | _ => None
  end.

(** A fetch that is still looking for a chunk has just missed it in its own store, or could
    not read that, or was looking for it before; it notes a refusal that it was answered,
    and what it is answered is what its peer served. *)
Lemma fetch_next_cases (s : node_server) pc x pc' notes id :
  fetch_next s pc x = Some (pc', notes) → pc_chunk pc' = Some id →
  (∃ ids, pc = NextChunk (id :: ids) ∧ pc' = AtReplicas id ids ∧
     (notes = [] ∧ data (Local s) !! id = None ∨ notes = [(SelfID s, DiskFailed)])) ∨
  (pc_chunk pc = Some id ∧
   (∀ n addr status rd, (n, Refused addr status rd) ∈ notes →
      ∃ ids ts body, pc = AtReply id ids ts n addr status body rd ∧ status ≠ 200%Z) ∧
   ∀ ids ts n addr status body rd, pc' = AtReply id ids ts n addr status body rd →
      pc = AtRequest id ids ts n addr ∧ x = Serves status body rd).
Proof.
  assert (∀ n addr status rd, (n, Refused addr status rd) ∉ ([] : list Note)) as Hnil
    by (intros n addr st rd; apply not_elem_of_nil).
  destruct pc as [[|i ids]|i ids|i ids ts|i ids ts n addr|i ids ts n addr st body rd|i ids|i dt ids|e|], x;
    cbn [fetch_next]; try done; try (by destruct ts).
  - change (b_Get i (Local s)) with (Memory_Get i (Local s)). unfold Memory_Get.
    destruct (data _ !! i) as [y|] eqn:Hy; intros [= <- <-]; [done|]. intros [= ->]. left. exists ids. auto.
  - intros [= <- <-] [= ->]. left. exists ids. auto.
  - intros [= <- <-] [= ->]. right. split_and!; [done| |done]. by intros n addr st rd ?%Hnil.
  - repeat case_match; intros [= <- <-] [= ->]; right;
      (split_and!; [done| |done]); intros n' addr st rd; rewrite ?list_elem_of_singleton, ?elem_of_nil; by intros ?.
  - intros [= <- <-] [= ->]. right. split_and!; [done| |done]. by intros n' addr' st rd [= ]%list_elem_of_singleton.
  - intros [= <- <-] [= ->]. right. split_and!; [done| |by intros ? ? ? ? ? ? ? [= -> -> -> -> -> -> ->]].
    by intros n' addr' st rd ?%Hnil.
  - destruct (Z.eqb_spec st StatusOK) as [|Hne]; intros [= <- <-]; [done|]. intros [= ->]. right. split_and!; [done| |done].
    intros n' addr' st' rd' [= -> -> -> ->]%list_elem_of_singleton. by exists ids, ts, body.
  - intros [= <- <-] [= ->]. right. split_and!; [done| |done]. by intros n' addr' st' rd' Hin%list_elem_of_singleton.
  - change (b_Get i) with (Memory_Get i). unfold Memory_Get. repeat case_match; intros [= <- <-]; try done;
      intros [= ->]; right; (split_and!; [done|by intros n addr st rd ?%Hnil|done]).
  - case_match; intros [= <- <-] [= ->]; right; (split_and!; [done| |done]).
    by intros n addr st rd ?%list_elem_of_singleton.
Qed.

Section held.
Context (id : string) (H : string → Prop) (old : nat).

(** A download that is looking for the chunk did not find it in its own store, was not
    refused it, and is not about to be, by any of the addresses [H] that hold it, unless
    the disk there was lost or could not be read. *)
Definition missed_ok (lost : gset string) (d : Download) : Prop :=
  pc_chunk (d_pc d) = Some id →
  (H (d_at d) → d_at d ∈ lost ∨ ∃ n, (n, DiskFailed) ∈ d_notes d) ∧
  (∀ n addr status, (n, Refused addr status true) ∈ d_notes d → H addr → addr ∈ lost) ∧
  ∀ ids ts n addr status body, d_pc d = AtReply id ids ts n addr status body true → status ≠ 200%Z → H addr → addr ∈ lost.

Definition found_ok (w : World) : Prop :=
  world_ok w ∧ (∀ addr, H addr → holds_or_lost (w_sys w) addr id) ∧
  ∀ k d, old ≤ k → w_downloads w !! k = Some d → missed_ok (sy_lost (w_sys w)) d.

Lemma missed_mono lost lost' d : lost ⊆ lost' → missed_ok lost d → missed_ok lost' d.
Proof.
  intros Hsub Hm Hpc. destruct (Hm Hpc) as (H1&H2&H3). split_and!.
  - intros Ha. destruct (H1 Ha); [left; by apply Hsub|by right].
  - intros n addr st Hn Ha. apply Hsub. by eapply H2.
  - intros ids ts n addr st body Hr Hst Ha. apply Hsub. by eapply H3.
Qed.

Lemma missed_step w (p : Process) x d d' :
  (∀ addr, H addr → holds_or_lost (w_sys w) addr id) → sy_nodes (w_sys w) !! d_at d = Some (Up p) →
  (∀ ids, d_pc d = NextChunk ids → d_notes d = []) → missed_ok (sy_lost (w_sys w)) d →
  (∀ i ids ts n addr status body rd, d_pc d = AtRequest i ids ts n addr → x = Serves status body rd →
     answer_of (w_sys w) addr i status body rd) →
  download_step (pr_server p) x d d' → missed_ok (sy_lost (w_sys w)) d'.
Proof.
  intros Hheld Hp Hnil Hm Hx Hst.
  assert (∀ addr, H addr → disk_at (w_sys w) addr !! id = None → addr ∈ sy_lost (w_sys w)) as Hgone.
  { intros addr Ha Hnone. destruct (Hheld addr Ha) as [?|[y Hy]]; [done|congruence]. }
  destruct Hst as [pc notes Hn|Hpc _|i data ids Hpc _ _|i data ids rw Hpc _ _ _|i data ids err rw Hpc _ _ _]; try done.
  intros Hpc. cbn [d_pc d_at d_notes] in *.
  destruct (fetch_next_cases _ _ _ _ _ _ Hn Hpc) as [(ids&Hnext&->&Hcase)|(Hat&Hrefused&Hreply)].
  - rewrite (Hnil _ Hnext). cbn [app]. split_and!; [| |done].
    + intros Ha. destruct Hcase as [[-> Hnone]| ->]; [left|right; eexists; by left].
      apply Hgone; [done|]. by rewrite (disk_at_node _ _ _ Hp).
    + intros n addr st. destruct Hcase as [[-> _]| ->]; [by intros ?%elem_of_nil|by intros ?%list_elem_of_singleton].
  - destruct (Hm Hat) as (H1&H2&H3). split_and!.
    + intros Ha. destruct (H1 Ha) as [?|[n ?]]; [by left|right]. exists n. apply elem_of_app. by left.
    + intros n addr st [?|Hr]%elem_of_app; [by eapply H2|].
      destruct (Hrefused n addr st true Hr) as (ids&ts&body&Hd&Hne). by eapply H3.
    + intros ids ts n addr st body Hr Hne Ha. apply Hreply in Hr as [Hd ->].
      destruct (Hx id ids ts n addr st body true Hd eq_refl) as [[? _]|[_ Hnone]]; [done|]. by apply Hgone, Hnone.
Qed.

Lemma found_step act w w' : found_ok w → world_step act w = Some w' → found_ok w'.
Proof.
  intros (Hok&Hheld&Hm) Hst. split; [by eapply world_step_ok|].
  assert ((∃ act', act = SystemDoes act') ∨ ∀ act', act ≠ SystemDoes act') as [[act' ->]|Hno]
    by (destruct act; eauto).
  - cbn [world_step] in Hst. destruct (sys_step _ _ _ act' _) as [sy|] eqn:Hs; [|done]. injection Hst as <-. cbn [w_sys w_downloads].
    pose proof (ledger_lost _ _ (sys_step_sim _ _ _ Hdistinct _ _ _ (wk_sys w Hok) Hs)) as Hsub.
    split; [intros addr Ha; eapply sys_step_keeps; [exact Hdistinct|apply Hok|exact Hs|by apply Hheld]|].
    intros k d' Hk Hd. rewrite list_lookup_fmap in Hd.
    destruct (w_downloads w !! k) as [d|] eqn:Hd0; [|done]. injection Hd as <-.
    pose proof (missed_mono _ (sy_lost sy) d Hsub (Hm k d Hk Hd0)) as Hmd. unfold still_running. by repeat case_match.
  - rewrite (world_step_sys_same act w w' Hst Hno). split; [done|]. intros k d' Hk Hd.
    destruct (world_step_download act w w' Hok Hst Hno) as [->|[(d0&Hds&ids&Hpc)|(j&x&d&p&d1&Hj&Hp&Hn&Hds&Hx)]];
      [by eapply Hm|rewrite Hds in Hd..].
    + apply lookup_app_Some in Hd as [Hd|[_ Hd]]; [by eapply Hm|]. apply list_lookup_singleton_Some in Hd as [_ <-].
      unfold missed_ok. by rewrite Hpc.
    + apply list_lookup_insert_Some in Hd as [(<-&<-&_)|[_ Hd]]; [|by eapply Hm].
      eapply missed_step; [exact Hheld|exact Hp| |by eapply Hm| |exact Hn].
      2: { intros i ids ts n addr st body rd Hpc Hxs. by destruct (Hx i ids ts n addr st body rd Hpc Hxs). }
      intros ids Hpc. apply list_elem_of_lookup_2 in Hj.
      destruct (wk_downloads w Hok d Hj) as [_ _ (c&_&_&Hr)]. by rewrite Hpc in Hr.
Qed.
End held.

(** ** The steps of a download *)

(** Bounds the steps of a download: at most 14 per chunk - one for the own store, one for
    the lookup of at most three replicas, three for each of them, and one each for the
    end of their list, the cold tier and the write - and one at the end. *)
Definition download_measure (pc : DownloadPC) : nat :=
  match pc with
  | NextChunk ids => 14 * length ids + 1
  | AtReplicas _ ids => 14 * length ids + 14
  | AtReplica _ ids ts => 14 * length ids + 3 * length ts + 4
  | AtRequest _ ids ts _ _ => 14 * length ids + 3 * length ts + 6
  | AtReply _ ids ts _ _ _ _ _ => 14 * length ids + 3 * length ts + 5
  | AtCold _ ids => 14 * length ids + 3
  | Fetched _ _ ids => 14 * length ids + 2
  | Returned _ | Gone => 0
  end.

Lemma replicas_length c r id : ring_of c r → length (TargetsFor r id) ≤ 3.
Proof. intros (S&Hr&_). unfold TargetsFor. rewrite (length_GetN _ S) by done. unfold Factor. lia. Qed.

Lemma fetch_next_measure c (s : node_server) pc x pc' notes :
  ring_of c (s_Ring s) → fetch_next s pc x = Some (pc', notes) → download_measure pc' < download_measure pc.
Proof.
  intros Hring. pose proof (λ id, replicas_length c (s_Ring s) id Hring) as Hlen. unfold TargetsFor in Hlen.
  destruct pc as [[|id ids]|id ids|id ids ts|id ids ts n addr|id ids ts n addr st body rd|id ids|id dt ids|e|], x;
    cbn [fetch_next]; repeat case_match; intros [= <- <-]; cbn [download_measure length]; try lia.
  specialize (Hlen id). lia.
Qed.

Lemma download_step_measure c (s : node_server) x d d' :
  ring_of c (s_Ring s) → download_step s x d d' → download_measure (d_pc d') < download_measure (d_pc d).
Proof.
  intros Hr [pc notes Hn|Hpc _|id data ids Hpc _ _|id data ids rw Hpc _ _ _|id data ids err rw Hpc _ _ _];
    [by eapply fetch_next_measure|rewrite Hpc; cbn; lia..].
Qed.

(** What a step does to a download: a step of its own, or nothing but the end of its node. *)
Definition is_download (k : nat) (act : WorldAct) : bool :=
  match act with DownloadDoes j _ | PeerServes j _ => bool_decide (j = k) | _ => false end.

Lemma world_step_at act w w' k d :
  world_step act w = Some w' → w_downloads w !! k = Some d →
  (is_download k act = true ∧ ∃ x p d', sy_nodes (w_sys w) !! d_at d = Some (Up p) ∧
     download_step (pr_server p) x d d' ∧ w_downloads w' !! k = Some d') ∨
  (is_download k act = false ∧ ∃ d', w_downloads w' !! k = Some d' ∧ (d' = d ∨ d_pc d' = Gone)).
Proof.
  intros Hst Hk.
  assert (∀ j x, download_at j x w = Some w' →
    (bool_decide (j = k) = true ∧ ∃ x p d', sy_nodes (w_sys w) !! d_at d = Some (Up p) ∧
      download_step (pr_server p) x d d' ∧ w_downloads w' !! k = Some d') ∨
    (bool_decide (j = k) = false ∧ ∃ d', w_downloads w' !! k = Some d' ∧ (d' = d ∨ d_pc d' = Gone))) as Hdl.
  { intros j x (d0&p&d'&Hj&Hp&Hn&->)%download_at_inv. cbn [w_downloads]. destruct (decide (j = k)) as [->|Hne].
    - left. rewrite Hk in Hj. injection Hj as <-. split; [by apply bool_decide_eq_true|]. exists x, p, d'.
      split_and!; [done|by apply download_next_step|]. apply list_lookup_insert_eq. by eapply lookup_lt_Some.
    - right. split; [by apply bool_decide_eq_false|]. exists d. rewrite list_lookup_insert_ne by done. auto. }
  destruct act as [act|a r room|j x|j rd]; cbn [world_step is_download] in *.
  - right. split; [done|]. destruct (sys_step _ _ _ act _); [|done]. injection Hst as <-. cbn [w_downloads].
    rewrite list_lookup_fmap, Hk. eexists. split; [reflexivity|]. unfold still_running. repeat case_match; auto.
  - right. split; [done|]. exists d. split; [|by left]. revert Hst. repeat case_match; intros [= <-]; [|done].
    cbn. by apply lookup_app_l_Some.
  - destruct x; [by eapply Hdl..|done].
  - repeat case_match; try done; by eapply Hdl.
Qed.

Lemma world_run_measure acts w w' k d :
  world_ok w → world_run acts w = Some w' → w_downloads w !! k = Some d →
  length (filter (is_download k) acts) ≤ download_measure (d_pc d).
Proof.
  revert w d. induction acts as [|act acts IH]; intros w d Hok Hrun Hk; [simpl; lia|].
  cbn [world_run] in Hrun. destruct (world_step act w) as [w1|] eqn:Hst; [|done].
  pose proof (world_step_ok _ _ _ Hok Hst) as Hok1.
  destruct (world_step_at _ _ _ _ _ Hst Hk) as [(Hact&x&p&d1&Hp&Hn&Hk1)|(Hact&d1&Hk1&Hd1)].
  - destruct (sk_up cfg _ (wk_sys w Hok) _ _ Hp) as (c&_&[Hs _ _ _ _]).
    pose proof (download_step_measure c _ _ _ _ (so_ring c p Hs) Hn).
    pose proof (IH w1 d1 Hok1 Hrun Hk1). rewrite filter_cons_True by (rewrite Hact; exact I). cbn [length]. lia.
  - pose proof (IH w1 d1 Hok1 Hrun Hk1) as Hle. rewrite filter_cons_False by (rewrite Hact; intros []).
    destruct Hd1 as [->|Hgone]; [done|]. rewrite Hgone in Hle. cbn in Hle. lia.
Qed.

Lemma measure_bound w d :
  world_ok w → d ∈ w_downloads w → download_measure (d_pc d) ≤ 14 * length (ChunkIDs (d_manifest d)) + 1.
Proof.
  intros Hok Hd. destruct (wk_downloads w Hok d Hd) as [_ [_ _ _ Hleft] (c&_&_&Hr)].
  assert (∀ ids, pc_left (d_pc d) = Some ids → length ids ≤ length (ChunkIDs (d_manifest d))) as Hle
    by (intros ids [<- _]%Hleft; rewrite length_app; lia).
  assert (∀ r id before ts, ring_of c r → TargetsFor r id = before ++ ts → length ts ≤ 3) as Hts.
  { intros r id before ts Hring Ht. pose proof (replicas_length c r id Hring) as Hlen. rewrite Ht, length_app in Hlen. lia. }
  destruct (d_pc d) as [ids|id ids|id ids ts|id ids ts n addr|id ids ts n addr st body rd|id ids|id dt ids|e|];
    cbn [download_measure]; try lia; try (specialize (Hle _ eq_refl); cbn [length] in Hle; try lia).
  - destruct Hr as (Hring&before&Ht&_). specialize (Hts _ _ _ _ Hring Ht). lia.
  - destruct Hr as (Hring&(before&Ht&_)&_). specialize (Hts _ _ _ _ Hring Ht). cbn [length] in Hts. lia.
  - destruct Hr as (Hring&(before&Ht&_)&_). specialize (Hts _ _ _ _ Hring Ht). cbn [length] in Hts. lia.
Qed.

(** The download waits for the answer to a request that no running node will give. *)
Definition waits_in_vain (w : World) (d : Download) : Prop :=
  ∃ id ids ts n addr, d_pc d = AtRequest id ids ts n addr ∧
    ∀ a segs q, parse_url (chunk_url addr id) = Some (a, segs) → sy_nodes (w_sys w) !! a ≠ Some (Up q).

(** A step of a download that is no failure. *)
Definition goes_on (k : nat) (act : WorldAct) : Prop := act = DownloadDoes k Proceed ∨ act = PeerServes k true.

Lemma download_progress w k d :
  world_ok w → w_downloads w !! k = Some d → running d →
  (∃ p, sy_nodes (w_sys w) !! d_at d = Some (Up p)) ∧
  ((∃ act w', goes_on k act ∧ world_step act w = Some w') ∨ waits_in_vain w d).
Proof.
  intros Hok Hk Hrun. destruct (wk_running w Hok d) as [p Hp]; [by eapply list_elem_of_lookup_2|done|].
  split; [by exists p|].
  assert (is_Some (download_next (pr_server p) Proceed d) ∨ ∃ id ids ts n addr, d_pc d = AtRequest id ids ts n addr) as [[d' Hn]|Hreq].
  { unfold download_next. unfold running in Hrun.
    destruct (d_pc d) as [[|id ids]|id ids|id ids ts|id ids ts n addr|id ids ts n addr st body rd|id ids|id dt ids|e|]; try done;
      try (left; cbn [fetch_next]; repeat case_match; done || by eexists).
    right. by exists id, ids, ts, n, addr. }
  - left. exists (DownloadDoes k Proceed). eexists. split; [by left|]. cbn [world_step]. unfold download_at. by rewrite Hk, Hp, Hn.
  - destruct Hreq as (id&ids&ts&n&addr&Hpc).
    destruct (parse_url (chunk_url addr id)) as [[a segs]|] eqn:Hurl.
    2: { right. exists id, ids, ts, n, addr. split; [done|]. intros a segs q. by rewrite Hurl. }
    destruct (sy_nodes (w_sys w) !! a) as [[dk dm|q]|] eqn:Ha.
    1, 3: right; exists id, ids, ts, n, addr; (split; [done|]); intros a' segs' q'; rewrite Hurl; intros [= <- <-]; by rewrite Ha.
    left. exists (PeerServes k true). cbn [world_step]. rewrite Hk. cbn [fmap option_fmap option_map]. rewrite Hpc, Hurl.
    unfold get_at. rewrite Ha. destruct (ServeHTTP _ _ _ _ _ _) as [[[rw j] s'] n']. unfold download_at. rewrite Hk, Hp.
    unfold download_next. rewrite Hpc. cbn [fetch_next fmap option_fmap option_map]. eexists. split; [by right|reflexivity].
Qed.

(** ** Where the replica set of a download comes from *)

(** The download is past the lookup of the replicas of its chunk. *)
Definition past_lookup (pc : DownloadPC) : option string :=
  match pc with
  | AtReplica id _ _ | AtRequest id _ _ _ _ | AtReply id _ _ _ _ _ _ _ | AtCold id _ | Returned (NotFetched id) => Some id
  | _ => None
  end.

Definition leads_to (w w' : World) : Prop := ∃ acts, world_run acts w = Some w'.

(** Between two states, download [k] was at the lookup of the replicas of the chunk, and
    the ring of its node was this. *)
Definition replicas_looked_up (w1 w2 : World) (k : nat) (id : string) (r : Ring) : Prop :=
  ∃ w d ids p, leads_to w1 w ∧ leads_to w w2 ∧ w_downloads w !! k = Some d ∧ d_pc d = AtReplicas id ids ∧
    sy_nodes (w_sys w) !! d_at d = Some (Up p) ∧ s_Ring (pr_server p) = r.

Lemma leads_to_step w1 w act w' : leads_to w1 w → world_step act w = Some w' → leads_to w1 w'.
Proof. intros [acts Hrun] Hst. exists (acts ++ [act]). rewrite world_run_app, Hrun. cbn. by rewrite Hst. Qed.

(** A step past the lookup keeps the chunk and the ring, but for the lookup itself. *)
Lemma download_step_ring (s : node_server) x d d' id :
  download_step s x d d' → past_lookup (d_pc d') = Some id →
  (past_lookup (d_pc d) = Some id ∧ d_ring d' = d_ring d) ∨ ∃ ids, d_pc d = AtReplicas id ids ∧ d_ring d' = s_Ring s.
Proof.
  intros [pc notes Hn|Hpc _|i data ids Hpc _ _|i data ids rw Hpc _ _ _|i data ids err rw Hpc _ _ _]; try done.
  cbn [d_pc d_ring]. unfold ring_next. revert Hn.
  destruct (d_pc d) as [[|i ids]|i ids|i ids ts|i ids ts n addr|i ids ts n addr st body rd|i ids|i dt ids|e|], x;
    cbn [fetch_next]; repeat case_match; intros [= <- <-]; cbn; try done; intros [= ->]; first [by left|right; by exists ids].
Qed.

Lemma replicas_looked_up_run w1 acts w2 k d id :
  length (w_downloads w1) ≤ k → world_run acts w1 = Some w2 → w_downloads w2 !! k = Some d →
  past_lookup (d_pc d) = Some id → replicas_looked_up w1 w2 k id (d_ring d).
Proof.
  intros Hk Hrun. revert d.
  refine (proj2 (world_run_inv (λ w, leads_to w1 w ∧ ∀ d, w_downloads w !! k = Some d → past_lookup (d_pc d) = Some id →
    replicas_looked_up w1 w k id (d_ring d)) acts w1 w2 _ _ Hrun)).
  - intros act w w' [Hl IH] Hst. split; [by eapply leads_to_step|]. intros d' Hd' Hpast.
    assert (∀ r, replicas_looked_up w1 w k id r → replicas_looked_up w1 w' k id r) as Hmore.
    { intros r (w0&d0&ids&p&?&?&?). exists w0, d0, ids, p. split; [done|]. split; [by eapply leads_to_step|done]. }
    destruct (w_downloads w !! k) as [d|] eqn:Hd.
    + destruct (world_step_at _ _ _ _ _ Hst Hd) as [(_&x&p&d1&Hp&Hn&Hd1)|(_&d1&Hd1&Hsame)]; rewrite Hd1 in Hd'; injection Hd' as ->.
      * destruct (download_step_ring _ _ _ _ _ Hn Hpast) as [[Hbefore ->]|(ids&Hpc&->)]; [by apply Hmore, IH|].
        exists w, d, ids, p. split; [done|]. split; [|done]. exists [act]. cbn. by rewrite Hst.
      * destruct Hsame as [->|Hgone]; [by apply Hmore, IH|]. by rewrite Hgone in Hpast.
    + exfalso. destruct act as [act|a r room|j x|j rd]; cbn [world_step] in Hst.
      * destruct (sys_step _ _ _ act _); [|done]. injection Hst as <-. cbn in Hd'. by rewrite list_lookup_fmap, Hd in Hd'.
      * repeat case_match; try done; injection Hst as <-; [|by rewrite Hd in Hd']. cbn in Hd'.
        apply lookup_app_Some in Hd' as [Hd'|[_ Hd']]; [by rewrite Hd in Hd'|].
        apply list_lookup_singleton_Some in Hd' as [_ <-]. done.
      * assert (download_at j x w = Some w') as Hst' by by destruct x.
        apply download_at_inv in Hst' as (d0&p&d1&Hj&_&_&->). cbn in Hd'.
        apply list_lookup_insert_Some in Hd' as [(->&_&_)|[_ Hd']]; [by rewrite Hd in Hj|by rewrite Hd in Hd'].
      * repeat case_match; try done. apply download_at_inv in Hst as (?&?&?&Hj&_&_&->). cbn in Hd'.
        apply list_lookup_insert_Some in Hd' as [(->&_&_)|[_ Hd']]; [by rewrite Hd in Hj|by rewrite Hd in Hd'].
  - split; [by exists []|]. intros d Hd. apply lookup_lt_Some in Hd. lia.
Qed.

(** Who has been told that a push of the chunk was stored at an address. *)
Definition confirmed (sy : System) (addr id : string) : Prop :=
  ∃ b p job, sy_nodes sy !! b = Some (Up p) ∧ (job, addr, Pushed) ∈ pr_outcomes p ∧ j_ChunkID job = id.

(** ** The theorems *)

(** [C4] What a client receives is what was uploaded: at every point of every download, in
    every interleaving of downloads with uploads, replication, repair, deaths and
    crashes, the answer so far has status 200 and is a prefix of the body of an upload
    under the name asked for - all of it if the download is complete - as long as SHA-256
    does not identify a chunk of the body with other data that was fetched. *)
Theorem download_is_an_upload w k d :
  reachable_world w → w_downloads w !! k = Some d →
  sent_status (d_rw d) = 200%Z ∧
  ∃ body cs, (d_blobID d, content body) ∈ w_blobs w ∧ Split (d_blobID d) body DefaultSize = Ok (cs, d_manifest d) ∧
    ((Z.of_nat (length (content body)) < 2 ^ 63)%Z →
     (∀ c x, c ∈ cs → x ∈ d_got d → ID x = ck_ID c → x = ck_Data c) →
     rw_body (d_rw d) `prefix_of` content body ∧
     (d_pc d = Returned Complete → rw_body (d_rw d) = content body)).
Proof.
  intros Hr Hk%list_elem_of_lookup_2. pose proof (wk_downloads w (reachable_world_ok w Hr) d Hk) as Hok.
  split; [apply (dk_pieces _ d Hok)|by apply download_pieces].
Qed.

(** [C5] Why a download fails.  At a damaged chunk: only if a file of the chunk was damaged,
    at the node itself or at one that its flags name (by Puts that overlapped or by the
    disk), or such a disk was lost.  If the write of a chunk fails, the client has stopped
    reading.  If a chunk is not found: its replica set was looked up at the ring that the
    node then had, the cold tier does not have the chunk or could not be read, and each
    other member of that set was passed over for a reason; where a push of the chunk was
    confirmed, or the chunk was on the disk, before the download began, and the disk was
    not lost, the reason is that the table did not hold the member alive at that moment,
    that the request or its answer was lost, or that the peer could not read its disk -
    never that the peer did not have the chunk; and the node itself had it only if it
    could not read its disk. *)
Theorem failed_download_explained w1 acts w2 k d e c :
  reachable_world w1 → world_run acts w1 = Some w2 → length (w_downloads w1) ≤ k →
  w_downloads w2 !! k = Some d → d_pc d = Returned e → cfg !! d_at d = Some c →
  match e with
  | Complete => True
  | Corrupt id => suspect (w_sys w2) d id
  | NotWritten _ _ => rw_room (d_rw d) = Some 0
  | NotFetched id =>
      let kept := λ addr, ((confirmed (w_sys w1) addr id ∨ is_Some (disk_at (w_sys w1) addr !! id)) ∧
        addr ∉ sy_lost (w_sys w2)) in
      id ∈ ChunkIDs (d_manifest d) ∧
      (∀ cold, c_cold c = Some cold → data cold !! id = None ∨ (c_nodeID c, ColdFailed) ∈ d_notes d) ∧
      (kept (d_at d) → (c_nodeID c, DiskFailed) ∈ d_notes d) ∧
      ∃ r, replicas_looked_up w1 w2 k id r ∧ ∀ n, n ∈ TargetsFor r id → n ≠ c_nodeID c →
        ∃ why, (n, why) ∈ d_notes d ∧ ∀ addr, address_of c n = Some addr → kept addr →
          why = NotAlive ∨ why = NoAnswer addr ∨ ∃ status, why = Refused addr status false
  end.
Proof.
  intros Hr Hrun Hold Hk Hpc Hc. pose proof Hr as [acts1 Hrun1].
  assert (reachable_world w2) as Hr2 by (exists (acts1 ++ acts); by rewrite world_run_app, Hrun1).
  pose proof (list_elem_of_lookup_2 _ _ _ Hk) as Hd.
  pose proof (reachable_sound w2 d Hr2 Hd) as Hs. unfold sound in Hs. rewrite Hpc in Hs.
  destruct e as [|id|id|id err]; [done| |done|done]. cbv zeta.
  pose proof (reachable_world_ok w1 Hr) as Hok1.
  set (H := λ addr, confirmed (w_sys w1) addr id ∨ is_Some (disk_at (w_sys w1) addr !! id)).
  assert (∀ addr, H addr → holds_or_lost (w_sys w1) addr id) as Hheld.
  { intros addr [(b&p&job&Hp&Hout&<-)|Hd1]; [|by right]. by eapply (sk_told cfg _ (wk_sys w1 Hok1)). }
  assert (found_ok id H (length (w_downloads w1)) w2) as (_&_&Hm).
  { eapply world_run_inv; [apply found_step| |exact Hrun]. split; [done|]. split; [done|].
    intros j d0 Hj Hd0. apply lookup_lt_Some in Hd0. lia. }
  destruct (Hm k d Hold Hk) as (Hown&Href&_); [by rewrite Hpc|].
  destruct (wk_downloads w2 (reachable_world_ok w2 Hr2) d Hd) as [_ _ (c'&Hc'&Hnotes&Hrep)].
  rewrite Hc in Hc'. injection Hc' as <-. rewrite Hpc in Hrep. destruct Hrep as (Hid&Hco&_&Hn).
  split; [done|]. split; [done|]. split.
  { intros [Hh Hl]. destruct (Hown Hh) as [?|[n Hdf]]; [done|]. pose proof (Hnotes _ Hdf) as Hself. cbn in Hself. by subst n. }
  exists (d_ring d). split; [eapply replicas_looked_up_run; [done|exact Hrun|exact Hk|by rewrite Hpc]|]. intros n Hin Hne.
  destruct (Hn n Hin Hne) as [why Hwhy]. exists why. split; [done|]. intros addr Ha [Hh Hl].
  pose proof (Hnotes _ Hwhy) as Hnote. destruct why as [|addr'|addr' st rd| |]; cbn in Hnote; try done; [by left|right; left; congruence|].
  destruct Hnote as [Ha' _]. rewrite Ha in Ha'. injection Ha' as <-. right. right. destruct rd; [|by exists st].
  destruct Hl. by eapply Href.
Qed.

(** [C12] Downloads end, unless a peer keeps them waiting: whatever else runs, the node of
    a download that has not returned is up, and the download has a step to make that is no
    failure - its own, or the answer of the running peer that it has asked - or it waits
    for an answer from an address with no running node behind it, where [http.Get], which
    has no time limit, may leave it; and it makes at most 14 steps for each chunk of the
    manifest and one more, three requests to a chunk. *)
Theorem download_terminates w k d :
  reachable_world w → w_downloads w !! k = Some d → running d →
  (∃ p, sy_nodes (w_sys w) !! d_at d = Some (Up p)) ∧
  ((∃ act w', goes_on k act ∧ world_step act w = Some w') ∨ waits_in_vain w d) ∧
  ∀ acts w', world_run acts w = Some w' →
    length (filter (is_download k) acts) ≤ 14 * length (ChunkIDs (d_manifest d)) + 1.
Proof.
  intros Hok%reachable_world_ok Hk Hrun. destruct (download_progress w k d Hok Hk Hrun) as [Hup Hgo].
  split; [exact Hup|]. split; [exact Hgo|]. intros acts w' Hacts.
  etrans; [by eapply world_run_measure|]. eapply measure_bound; [done|]. by eapply list_elem_of_lookup_2.
Qed.

(** The index of manifests is written and read with nothing between to order the two: an
    upload at its last statement and a request for the same blob can go in either order,
    and the answer depends on it. *)
Lemma manifests_race w a p g blobID manifest r room :
  sy_nodes (w_sys w) !! a = Some (Up p) → pr_phase p = Serving → pr_go p !! g = Some (Upload blobID manifest []) →
  blob_id r = blobID → manifests (pr_server p) !! blobID = None →
  ∃ w1 w2 d, world_run [SystemDoes (Own a (ActGo g)); ClientDownload a r room] w = Some w1 ∧
    world_run [ClientDownload a r room; SystemDoes (Own a (ActGo g))] w = Some w2 ∧
    w_sys w1 = w_sys w2 ∧ w_downloads w1 = w_downloads w2 ++ [d] ∧ d_manifest d = manifest.
Proof.
  intros Ha Hph Hg Hr Hnone. set (s1 := set_manifests (<[blobID := manifest]> (manifests (pr_server p))) (pr_server p)).
  set (p1 := set_go (<[g := Ended]> (pr_go p) ++ []) (set_server s1 (mark (overlap (pr_go p) (Upload blobID manifest [])) p))).
  set (w1 := MkWorld (set_node a (Up p1) (w_sys w)) (still_running (set_node a (Up p1) (w_sys w)) <$> w_downloads w)
    (w_blobs w ++ [])).
  assert (world_step (SystemDoes (Own a (ActGo g))) w = Some w1) as Hwrite.
  { cbn [world_step sys_step own_act]. unfold proc_at. rewrite Ha. cbn [proc_step]. by rewrite Hg. }
  assert (world_step (ClientDownload a r room) w = Some w) as Hread.
  { cbn [world_step]. by rewrite Ha, Hr, Hnone, decide_True. }
  eexists _, w1, _. cbn [world_run]. rewrite Hread, Hwrite. cbn [mbind option_bind]. rewrite Hwrite.
  cbn [world_step w1 w_sys set_node sy_nodes]. rewrite lookup_insert_eq, decide_True by done.
  change (manifests (pr_server p1)) with (<[blobID := manifest]> (manifests (pr_server p))).
  rewrite Hr, lookup_insert_eq. by split_and!.
Qed.
End world.

(** ** Witnesses: four nodes, of which two run *)

(** node-a is in no replica set of the chunk of the demo upload; node-e is first in it. *)
Definition far_config : NodeConfig := MkNodeConfig "node-a" "a:8080" "node-b=b:8080,node-d=d:8080,node-e=e:8080" 1 None.
Definition far_config_e : NodeConfig := MkNodeConfig "node-e" "e:8080" "" 1 None.
Definition far_cfg : gmap string NodeConfig := {["a:8080" := far_config; "e:8080" := far_config_e]}.
Definition far_nodes : gset string := {["node-a"; "node-b"; "node-d"; "node-e"]}.

Lemma far_distinct : distinct_points far_nodes.
Proof. apply (bool_decide_unpack _). by vm_compute. Qed.

Lemma far_cases a c : far_cfg !! a = Some c → c = far_config ∨ c = far_config_e.
Proof. unfold far_cfg. intros [[_ <-]|[_ [_ <-]%lookup_singleton_Some]]%lookup_insert_Some; [by left|by right]. Qed.

Lemma far_cfg_distinct a c : far_cfg !! a = Some c → distinct_points (known c).
Proof.
  intros [->| ->]%far_cases; (eapply distinct_points_subset; [|exact far_distinct]);
    apply (bool_decide_unpack _); vm_compute; exact I.
Qed.

Lemma far_plain a c n addr : far_cfg !! a = Some c → address_of c n = Some addr → plain_url_part addr.
Proof.
  assert (∀ x : string, x ∈ ["a:8080"; "b:8080"; "d:8080"; "e:8080"] → plain_url_part x) as Hp.
  { intros x. rewrite !elem_of_cons, elem_of_nil. intros [->|[->|[->|[->|[]]]]]; by vm_compute. }
  intros Hc. unfold address_of. case_decide; [done|]. intros Ha%elem_of_list_to_map_2. apply Hp.
  apply far_cases in Hc as [->| ->]; revert Ha; vm_compute parse_peers; rewrite !elem_of_cons, elem_of_nil; naive_solver.
Qed.

Lemma far_cold a c cold : far_cfg !! a = Some c → c_cold c = Some cold → addressed (data cold).
Proof. by intros [->| ->]%far_cases. Qed.

Abbreviation far_run := (world_run demo_json demo_json_status far_cfg).
Abbreviation own_a := (λ act, SystemDoes (Own "a:8080" act)).

(** node-a enqueues the chunk and pushes it to node-e. *)
Definition far_pushing : list WorldAct :=
  [own_a (ActGo 0); own_a (ActGo 0); own_a (ActGo 0); own_a (ActQueue (ActReceive 0)); own_a (ActWorker 0 Go);
   own_a (ActWorker 0 Go); SystemDoes (SendPush "a:8080" 0); SystemDoes (Deliver 0);
   SystemDoes (Own "e:8080" (ActGo 0)); SystemDoes (Own "e:8080" (ActGo 0)); SystemDoes (Respond "e:8080" 0);
   SystemDoes (Receive "a:8080" 0 200)].

(** The blob is read from node-a, which asks node-e; node-e crashes, and it is read again:
    nobody answers. *)
Definition far_get : Request := MkRequest "GET" ["blobs"; "layer"] (MkReader [] io_EOF true).
Definition far_reading : list WorldAct :=
  [ClientDownload "a:8080" far_get None; DownloadDoes 0 Proceed; DownloadDoes 0 Proceed; DownloadDoes 0 Proceed;
   PeerServes 0 true; DownloadDoes 0 Proceed; DownloadDoes 0 Proceed; DownloadDoes 0 Proceed].
Definition far_failing : list WorldAct :=
  [SystemDoes (Crash "e:8080"); ClientDownload "a:8080" far_get None;
   DownloadDoes 1 Proceed; DownloadDoes 1 Proceed; DownloadDoes 1 Proceed; DownloadDoes 1 Fails;
   DownloadDoes 1 Proceed; DownloadDoes 1 Fails; DownloadDoes 1 Proceed; DownloadDoes 1 Fails; DownloadDoes 1 Proceed; DownloadDoes 1 Proceed].

(** The upload that splits starts its handler. *)
Definition far_given (w : World) (p : Process) : World :=
  let sy := give (list_to_set (ck_ID <$> [demo_chunk]))
    (set_node "a:8080" (Up (set_go (pr_go p ++ [Upload "layer" demo_manifest [demo_chunk]]) p)) (w_sys w)) in
  MkWorld sy (still_running sy <$> w_downloads w) (w_blobs w ++ uploaded_by (ClientUpload "a:8080" demo_upload)).

Lemma far_upload w p :
  sy_nodes (w_sys w) !! "a:8080" = Some (Up p) → pr_phase p = Serving →
  far_run [SystemDoes (ClientUpload "a:8080" demo_upload)] w = Some (far_given w p).
Proof.
  intros Hp Hph. cbn [world_run world_step].
  rewrite (upload_step demo_json demo_json_status far_cfg "a:8080" (w_sys w) p demo_upload [demo_chunk] demo_manifest
    Hp Hph ltac:(done) demo_Split_ok). done.
Qed.

(** The scenario, with what is asked of its states, evaluated once. *)
Definition far_scenario : option (World * World * World * World * Process * Process) :=
  booted ← far_run [SystemDoes (Boot "a:8080" 0); SystemDoes (Boot "e:8080" 0)] (world_init far_cfg);
  p ← process_at "a:8080" (w_sys booted);
  w1 ← far_run far_pushing (far_given booted p);
  p1 ← process_at "a:8080" (w_sys w1);
  wm ← far_run (take 1 far_reading) w1;
  w2 ← far_run (drop 1 far_reading ++ far_failing) wm;
  Some (booted, w1, wm, w2, p, p1).

Definition far_read (o : option Download) : bool :=
  match o with
  | Some d =>
      match d_pc d with Returned Complete => bool_decide (rw_body (d_rw d) = demo_hello) | _ => false end
  | None => false
  end.
Definition far_failed (o : option Download) : bool :=
  match o with
  | Some d =>
      bool_decide (d_at d = "a:8080") &&
      match d_pc d with Returned (NotFetched id) => bool_decide (id = ID demo_hello) | _ => false end
  | None => false
  end.
Definition far_under_way (o : option Download) : bool :=
  match o with Some d => match d_pc d with NextChunk _ => true | _ => false end | None => false end.
Definition far_pushed (os : list (Job * string * PushOutcome)) : bool :=
  match os with
  | [(job, addr, Pushed)] => bool_decide (job = demo_job) && bool_decide (addr = "e:8080")
  | _ => false
  end.

Definition far_facts (o : option (World * World * World * World * Process * Process)) : bool :=
  match o with
  | Some (_, w1, wm, w2, p, p1) =>
      bool_decide (pr_phase p = Serving) && bool_decide (pr_phase p1 = Serving) &&
      bool_decide (ChunkIDs <$> manifests (pr_server p1) !! "layer" = Some [ID demo_hello]) &&
      far_pushed (pr_outcomes p1) && bool_decide (length (w_downloads w1) = 0) &&
      far_under_way (w_downloads wm !! 0) && far_read (w_downloads w2 !! 0) && far_failed (w_downloads w2 !! 1) &&
      bool_decide ("e:8080" ∉ sy_lost (w_sys w2))
  | None => false
  end.

Lemma far_facts_true : far_facts far_scenario = true.
Proof. by vm_compute. Qed.

Abbreviation far_reachable := (reachable_world demo_json demo_json_status far_cfg).

Lemma far_read_true o : far_read o = true → ∃ d, o = Some d ∧ d_pc d = Returned Complete ∧ rw_body (d_rw d) = demo_hello.
Proof.
  destruct o as [d|]; [|discriminate]. cbn. destruct (d_pc d) as [| | | | | | |[]|] eqn:Hpc; try discriminate.
  intros Hb%bool_decide_eq_true. by exists d.
Qed.

Lemma far_failed_true o :
  far_failed o = true → ∃ d, o = Some d ∧ d_at d = "a:8080" ∧ d_pc d = Returned (NotFetched (ID demo_hello)).
Proof.
  destruct o as [d|]; [|discriminate]. cbn. intros [Hat%bool_decide_eq_true Hpc]%andb_true_iff. exists d.
  destruct (d_pc d) as [| | | | | | |[|id| |]|]; try discriminate. apply bool_decide_eq_true in Hpc as ->. done.
Qed.

Lemma far_under_way_true o : far_under_way o = true → ∃ d, o = Some d ∧ running d.
Proof.
  destruct o as [d|]; [|discriminate]. cbn. intros Hd. exists d. split; [done|]. unfold running.
  by destruct (d_pc d).
Qed.

Lemma far_pushed_true os : far_pushed os = true → os = [(demo_job, "e:8080", Pushed)].
Proof.
  destruct os as [|[[job addr] []] []]; try discriminate. cbn.
  by intros [->%bool_decide_eq_true ->%bool_decide_eq_true]%andb_true_iff.
Qed.

(** The states of the scenario: the push confirmed, a download under way, and after the
    one that was complete and the one that failed. *)
Lemma far_states :
  ∃ w1 wm w2 p1 manifest acts d dc df,
    far_reachable w1 ∧ far_reachable wm ∧ far_reachable w2 ∧ far_run acts w1 = Some w2 ∧ length (w_downloads w1) = 0 ∧
    sy_nodes (w_sys w1) !! "a:8080" = Some (Up p1) ∧ pr_phase p1 = Serving ∧
    manifests (pr_server p1) !! "layer" = Some manifest ∧ pr_outcomes p1 = [(demo_job, "e:8080", Pushed)] ∧
    w_downloads wm !! 0 = Some d ∧ running d ∧
    w_downloads w2 !! 0 = Some dc ∧ d_pc dc = Returned Complete ∧ rw_body (d_rw dc) = demo_hello ∧
    w_downloads w2 !! 1 = Some df ∧ d_at df = "a:8080" ∧ d_pc df = Returned (NotFetched (ID demo_hello)) ∧
    "e:8080" ∉ sy_lost (w_sys w2).
Proof.
  pose proof far_facts_true as Hfacts. unfold far_facts in Hfacts.
  destruct far_scenario as [[[[[[booted w1] wm] w2] p] p1]|] eqn:Hsc; [|discriminate Hfacts].
  apply bind_Some in Hsc as (x1&Hb&(x2&Hp%process_at_up&Hsc)%bind_Some).
  apply bind_Some in Hsc as (x3&H1&(x4&Hp1%process_at_up&Hsc)%bind_Some).
  apply bind_Some in Hsc as (x5&Hm&(x6&H2&[= -> -> -> -> -> ->])%bind_Some).
  rewrite !andb_true_iff, !bool_decide_eq_true in Hfacts.
  destruct Hfacts as ((((((((Hph&Hph1)&Hman)&Hout)&Hlen)&Hway)&Hread)&Hfail)&Hlost).
  apply far_pushed_true in Hout. apply far_under_way_true in Hway as (d&Hd&Hrun).
  apply far_read_true in Hread as (dc&Hdc&Hpc&Hbody). apply far_failed_true in Hfail as (df&Hdf&Hat&Hpf).
  apply fmap_Some in Hman as (manifest&Hman&_). pose proof (far_upload booted p Hp Hph) as Hup.
  assert (∀ u v acts, far_reachable u → far_run acts u = Some v → far_reachable v) as Htrans.
  { intros u v acts [acts0 Hu] Hv. exists (acts0 ++ acts). rewrite world_run_app, Hu. exact Hv. }
  assert (far_reachable w1) as Hr1.
  { eapply Htrans; [|exact H1]. eapply Htrans; [|exact Hup]. eexists. exact Hb. }
  pose proof (Htrans _ _ _ Hr1 Hm) as Hrm. pose proof (Htrans _ _ _ Hrm H2) as Hr2.
  exists w1, wm, w2, p1, manifest, (take 1 far_reading ++ (drop 1 far_reading ++ far_failing)), d, dc, df.
  clear Hb H1 Hup. split_and!; try assumption. rewrite world_run_app, Hm. exact H2.
Qed.

Lemma far_cfg_a : far_cfg !! "a:8080" = Some far_config.
Proof. by vm_compute. Qed.

Lemma download_is_an_upload_witness :
  ∃ w d, w_downloads w !! 0 = Some d ∧ d_pc d = Returned Complete ∧ rw_body (d_rw d) = demo_hello ∧
    sent_status (d_rw d) = 200%Z ∧
    ∃ body cs, (d_blobID d, content body) ∈ w_blobs w ∧ Split (d_blobID d) body DefaultSize = Ok (cs, d_manifest d) ∧
      ((Z.of_nat (length (content body)) < 2 ^ 63)%Z →
       (∀ c x, c ∈ cs → x ∈ d_got d → ID x = ck_ID c → x = ck_Data c) →
       rw_body (d_rw d) `prefix_of` content body ∧ (d_pc d = Returned Complete → rw_body (d_rw d) = content body)).
Proof.
  destruct far_states as (w1&wm&w2&p1&m&acts&d&dc&df&_&_&Hr2&_&_&_&_&_&_&_&_&Hdc&Hpc&Hbody&_).
  exists w2, dc. split; [exact Hdc|]. split; [exact Hpc|]. split; [exact Hbody|].
  exact (download_is_an_upload demo_json demo_json_status far_cfg far_cfg_distinct w2 0 dc Hr2 Hdc).
Defined.

(** The failure after the crash of node-e, which had confirmed the push: of node-e, the
    note is that it did not answer. *)
Lemma failed_download_explained_witness :
  ∃ w1 w2 d, w_downloads w2 !! 1 = Some d ∧ d_pc d = Returned (NotFetched (ID demo_hello)) ∧
    confirmed (w_sys w1) "e:8080" (ID demo_hello) ∧ ("e:8080" ∉ sy_lost (w_sys w2)) ∧
    let kept := λ addr, ((confirmed (w_sys w1) addr (ID demo_hello) ∨ is_Some (disk_at (w_sys w1) addr !! ID demo_hello)) ∧
      addr ∉ sy_lost (w_sys w2)) in
    ID demo_hello ∈ ChunkIDs (d_manifest d) ∧
    (∀ cold, c_cold far_config = Some cold →
       data cold !! ID demo_hello = None ∨ (c_nodeID far_config, ColdFailed) ∈ d_notes d) ∧
    (kept (d_at d) → (c_nodeID far_config, DiskFailed) ∈ d_notes d) ∧
    ∃ r, replicas_looked_up demo_json demo_json_status far_cfg w1 w2 1 (ID demo_hello) r ∧
      ∀ n, n ∈ TargetsFor r (ID demo_hello) → n ≠ c_nodeID far_config →
      ∃ why, (n, why) ∈ d_notes d ∧ ∀ addr, address_of far_config n = Some addr → kept addr →
        why = NotAlive ∨ why = NoAnswer addr ∨ ∃ status, why = Refused addr status false.
Proof.
  destruct far_states as (w1&wm&w2&p1&m&acts&d&dc&df&Hr1&_&_&Hrun&Hlen&Hp1&_&_&Hout&_&_&_&_&_&Hdf&Hat&Hpf&Hlost).
  exists w1, w2, df. split; [exact Hdf|]. split; [exact Hpf|]. split.
  { exists "a:8080", p1, demo_job. rewrite Hout. split; [exact Hp1|]. split; [apply list_elem_of_here|reflexivity]. }
  split; [exact Hlost|].
  refine (failed_download_explained demo_json demo_json_status far_cfg far_cfg_distinct far_plain far_cold w1 acts w2 1 df
    (NotFetched (ID demo_hello)) far_config Hr1 Hrun _ Hdf Hpf _).
  - rewrite Hlen. apply Nat.le_0_l.
  - rewrite Hat. exact far_cfg_a.
Defined.

Lemma download_terminates_witness :
  ∃ w d, w_downloads w !! 0 = Some d ∧ running d ∧
    (∃ p, sy_nodes (w_sys w) !! d_at d = Some (Up p)) ∧
    ((∃ act w', goes_on 0 act ∧ world_step demo_json demo_json_status far_cfg act w = Some w') ∨ waits_in_vain w d) ∧
    ∀ acts w', far_run acts w = Some w' →
      length (filter (is_download 0) acts) ≤ 14 * length (ChunkIDs (d_manifest d)) + 1.
Proof.
  destruct far_states as (w1&wm&w2&p1&m&acts&d&dc&df&_&Hrm&_&_&_&_&_&_&_&Hd&Hrun&_).
  exists wm, d. split; [exact Hd|]. split; [exact Hrun|].
  exact (download_terminates demo_json demo_json_status far_cfg far_cfg_distinct wm 0 d Hrm Hd Hrun).
Defined.
