(* ===== verification/Availability.v ===== *)
(** * benchmarks/availability: reads while nodes are killed

    The benchmark starts a cluster of nodes that know each other, uploads blobs through the
    first, and reads them through it while it kills nodes from the last on.  Modelled are
    the flags it gives the nodes, the loop of the uploads, the cap on the kills, the loop
    that kills, the node that a reader asks, the timeout of its client, and what counts as
    a success; its counters are in Phases.  Processes and the floating-point report are left
    out, and time but for that timeout: of the two seconds that the benchmark sleeps after
    the uploads, [bench_settle] has what the workers do by their end, and that this is all
    of the queue is a hypothesis of the theorem, as is that a read takes less than the
    three seconds that the client of the readers allows.

    The theorems: the nodes come up with one ring and each other's addresses; readers only
    ever ask the first node; and reads through it succeed under these hypotheses, whatever
    prefix of the kills has happened, and however much of it the first node's heartbeats
    have noticed, if the kills are at most two - one less than the replicas of a chunk -
    and no ping of a node that was not killed fails. *)
From S2P Require Import Prelude GoLib GoIO GoNet Sha HashRing Placement Rebalance Chunk Storage Membership Replication WorkerPool Recovery Server Node Main Cluster Goroutines.
From Stdlib Require Import Strings.Ascii.

(** ** The nodes *)

Definition nodeBasePort : Z := 19100.

Definition nodeAddr (port : Z) : string := "127.0.0.1:" +:+ Itoa port.

(** The port of a node, and its address. *)
Definition bench_port (i : nat) : Z := (nodeBasePort + Z.of_nat i)%Z.
Definition bench_addr (i : nat) : string := nodeAddr (bench_port i).

(** The peers of node [i], and the entry of each in its flag. *)
Definition bench_others (n i : nat) : list nat := filter (λ j, j ≠ i) (seq 0 n).
Definition peerLists (n i : nat) : list string :=
  (λ j, bench_node j +:+ "=127.0.0.1:" +:+ Itoa (nodeBasePort + Z.of_nat j)) <$> bench_others n i.

(** [strings.Join] *)
Fixpoint strings_Join (l : list string) (sep : string) : string :=
  match l with
  | [] => ""
  | [x] => x
  | x :: l => x +:+ sep +:+ strings_Join l sep
  end.

Definition bench_args (n i : nat) (dataDir : string) : list FlagArg :=
  [NodeID (bench_node i); Listen (":" +:+ Itoa (bench_port i)); Advertise ("127.0.0.1:" +:+ Itoa (bench_port i));
   DataDir dataDir; PeersFlag (strings_Join (peerLists n i) ",")].

(** ** The kills *)

Definition cap_kills (numNodes maxKills : Z) : Z :=
  let maxAllowedKills := (numNodes - 2)%Z in
  let maxAllowedKills := if (maxAllowedKills <? 0)%Z then 0%Z else maxAllowedKills in
  if (maxAllowedKills <? maxKills)%Z then maxAllowedKills else maxKills.

(** The slots of the nodes, by port; a killed node leaves nil. *)
Definition bench_slots (n : nat) : list (option Z) := (λ i, Some (bench_port i)) <$> seq 0 n.

(** The loop of [killScheduler] from index [i - 1] down: the nodes it kills, in order, and
    the slots it leaves. *)
Fixpoint kill_loop (i : nat) (nodes : list (option Z)) (killed maxKills : Z) : list nat * list (option Z) :=
  match i with
  | O => ([], nodes)
  | S i =>
      if negb (killed <? maxKills)%Z then ([], nodes)
      else match nodes !! i with
           | Some (Some _) =>
               let '(ks, nodes) := kill_loop i (<[i := None]> nodes) (killed + 1) maxKills in (i :: ks, nodes)
           | _ => kill_loop i nodes killed maxKills
           end
  end.

Definition killScheduler (nodes : list (option Z)) (maxKills : Z) : list nat * list (option Z) :=
  kill_loop (length nodes) nodes 0 maxKills.

(** The port a reader asks: that of the first slot that is not nil; 0 if there is none. *)
Fixpoint read_port (nodes : list (option Z)) : Z :=
  match nodes with
  | [] => 0
  | Some port :: _ => port
  | None :: nodes => read_port nodes
  end.

(** A GET through the client of the readers, whose timeout covers the request up to the end
    of the body: [elapsed] is the time that takes. *)
Definition client_Timeout : Z := (3 * Second)%Z.
Definition client_Get (elapsed : Z) (resp : result (Z * Reader)) : result (Z * Reader) :=
  if (client_Timeout <=? elapsed)%Z then Err (errors_New "context deadline exceeded (Client.Timeout exceeded)") else resp.

(** Whether a reader counts a read as a success. *)
Definition read_ok (blobSize elapsed : Z) (resp : result (Z * Reader)) : bool :=
  match client_Get elapsed resp with
  | Ok (status, body) =>
      match ReadAll body with
      | Ok d => (status =? 200)%Z && (Z.of_nat (length d) =? blobSize)%Z
      | Err _ => false
      end
  | Err _ => false
  end.

(** [uploadBlob] *)
Definition upload_ok (resp : result Z) : bool :=
  match resp with Ok status => (Z.quot status 100 =? 2)%Z | Err _ => false end.

(** ** Lemmas *)

Lemma peers_flag n i :
  strings_Join (peerLists n i) "," = print_peers ((λ j, (bench_node j, bench_addr j)) <$> bench_others n i).
Proof.
  unfold peerLists. induction (bench_others n i) as [|j l IH]; [done|].
  cbn [fmap list_fmap strings_Join print_peers] in *. destruct l as [|k l]; [done|]. cbn [fmap list_fmap] in *.
  rewrite IH. done.
Qed.

Lemma bench_port_nat i : bench_port i = Z.of_nat (Z.to_nat (bench_port i)).
Proof. unfold bench_port, nodeBasePort. lia. Qed.

Lemma digit_not c : (∀ n, pretty_N_char n ≠ c) → ∀ i, has_char c (bench_addr i) = has_char c "127.0.0.1:".
Proof.
  intros Hc i. unfold bench_addr, nodeAddr. rewrite bench_port_nat, has_char_app, has_char_Itoa by done.
  apply orb_false_r.
Qed.

Lemma no_space_app x y : no_space x → no_space y → no_space (x +:+ y).
Proof. intros Hx Hy c. rewrite list_ascii_of_string_app, elem_of_app. intros [?|?]; [by apply Hx|by apply Hy]. Qed.

Lemma no_space_literal x : forallb (λ c, negb (is_space c)) (String.list_ascii_of_string x) = true → no_space x.
Proof. rewrite forallb_forall. intros Hx c Hc%list_elem_of_In%Hx. by apply negb_true_iff. Qed.

(** No decimal digit is one of the separators. *)
Ltac not_digit := let n := fresh in intros n; unfold pretty_N_char; by repeat case_match.

Lemma bench_plain j : plain_peer (bench_node j, bench_addr j).
Proof.
  unfold plain_peer. cbn [fst snd]. rewrite (digit_not ","%char) by not_digit. unfold bench_node.
  rewrite !has_char_app, !has_char_Itoa by not_digit. split_and!; try done.
  - by apply no_space_app, no_space_Itoa; apply no_space_literal.
  - unfold bench_addr, nodeAddr. rewrite bench_port_nat. by apply no_space_app, no_space_Itoa; apply no_space_literal.
Qed.

Lemma bench_url_part j : plain_url_part (bench_addr j).
Proof. split_and!; by rewrite digit_not by not_digit. Qed.

Lemma bench_addr_inj i j : bench_addr i = bench_addr j → i = j.
Proof. unfold bench_addr, nodeAddr, bench_port. intros Heq%(inj _)%(inj pretty). lia. Qed.

(** The flag of a node, read by the node. *)
Lemma bench_peers n i :
  parse_peers (strings_Join (peerLists n i) ",") = (λ j, (bench_node j, bench_addr j)) <$> bench_others n i.
Proof. rewrite peers_flag. apply parse_print_peers, Forall_fmap, Forall_true. intros j. apply bench_plain. Qed.

(** ** The kills *)

Definition killed_slots (nodes : list (option Z)) (ks : list nat) : list (option Z) :=
  foldl (λ nodes k, <[k := None]> nodes) nodes ks.

Lemma kill_loop_spec i nodes killed maxKills :
  (∀ j, j < i → ∃ port, nodes !! j = Some (Some port)) →
  kill_loop i nodes killed maxKills =
    let ks := take (Z.to_nat (maxKills - killed)) (reverse (seq 0 i)) in (ks, killed_slots nodes ks).
Proof.
  revert nodes killed. induction i as [|i IH]; intros nodes killed Hn; cbn [kill_loop]; [cbn; by rewrite take_nil|cbn zeta].
  rewrite seq_S, reverse_app, reverse_singleton. cbn [app Nat.add].
  destruct (Z.ltb_spec killed maxKills) as [Hlt|Hge]; cbn [negb].
  - destruct (Hn i) as [port ->]; [lia|]. rewrite IH.
    + replace (Z.to_nat (maxKills - killed)) with (S (Z.to_nat (maxKills - (killed + 1)))) by lia. done.
    + intros j Hj. rewrite list_lookup_insert_ne by lia. apply Hn. lia.
  - by replace (Z.to_nat (maxKills - killed)) with 0 by lia.
Qed.

Lemma cap_kills_bounds n maxKills :
  (cap_kills (Z.of_nat n) maxKills ≤ Z.max 0 (Z.of_nat n - 2) ∧ cap_kills (Z.of_nat n) maxKills ≤ Z.max 0 maxKills)%Z.
Proof. unfold cap_kills. repeat (case_match; bool_prop); lia. Qed.

(** The schedule: from the last node on, never the first two, and as many as the cap. *)
Definition bench_kills (n : nat) (maxKills : Z) : list nat :=
  (killScheduler (bench_slots n) (cap_kills (Z.of_nat n) maxKills)).1.

Lemma kills_spec n maxKills :
  killScheduler (bench_slots n) (cap_kills (Z.of_nat n) maxKills) =
    (bench_kills n maxKills, killed_slots (bench_slots n) (bench_kills n maxKills)) ∧
  bench_kills n maxKills = take (Z.to_nat (cap_kills (Z.of_nat n) maxKills)) (reverse (seq 0 n)).
Proof.
  unfold bench_kills, killScheduler. assert (length (bench_slots n) = n) as -> by (unfold bench_slots; by rewrite length_fmap, length_seq).
  pose proof (kill_loop_spec n (bench_slots n) 0 (cap_kills (Z.of_nat n) maxKills)) as Hk. rewrite Z.sub_0_r in Hk.
  rewrite Hk; [done|]. intros j Hj. unfold bench_slots. exists (bench_port j). by rewrite list_lookup_fmap, lookup_seq_lt.
Qed.

Lemma kill_bounds n maxKills k : k ∈ bench_kills n maxKills → 2 ≤ k < n.
Proof.
  rewrite (proj2 (kills_spec n maxKills)). intros (i&Hi&Hc)%elem_of_take.
  pose proof (proj1 (cap_kills_bounds n maxKills)). apply lookup_lt_Some in Hi as Hlen. rewrite length_reverse, length_seq in Hlen.
  rewrite reverse_lookup, length_seq in Hi by (rewrite length_seq; lia).
  apply lookup_seq in Hi as [-> _]. lia.
Qed.

Lemma kills_NoDup n maxKills : NoDup (bench_kills n maxKills).
Proof.
  rewrite (proj2 (kills_spec n maxKills)). eapply sublist_NoDup; [|apply sublist_take].
  rewrite reverse_Permutation. apply NoDup_seq.
Qed.

Lemma killed_slots_first nodes ks port : nodes !! 0 = Some (Some port) → 0 ∉ ks → killed_slots nodes ks !! 0 = Some (Some port).
Proof.
  revert nodes. induction ks as [|k ks IH]; intros nodes H0; [done|]. intros [Hk Hks]%not_elem_of_cons.
  cbn. apply IH; [|done]. by rewrite list_lookup_insert_ne.
Qed.

Lemma read_first n maxKills m :
  0 < n → read_port (killed_slots (bench_slots n) (take m (bench_kills n maxKills))) = nodeBasePort.
Proof.
  intros Hn. assert (killed_slots (bench_slots n) (take m (bench_kills n maxKills)) !! 0 = Some (Some nodeBasePort)) as H0.
  { apply killed_slots_first; [by destruct n; [lia|]|]. intros Hin%subseteq_take%kill_bounds. lia. }
  destruct (killed_slots _ _) as [|o l]; [done|]. injection H0 as ->. done.
Qed.

(** Readers ask the first node only: whatever prefix of the kills has happened, theirs is
    its port - the cap spares it, and the second node as well. *)
Theorem readers_ask_the_first n maxKills m :
  0 < n →
  read_port (killed_slots (bench_slots n) (take m (bench_kills n maxKills))) = nodeBasePort ∧
  (∀ k, k ∈ bench_kills n maxKills → 2 ≤ k < n) ∧
  Z.of_nat (length (bench_kills n maxKills)) = Z.max 0 (Z.min (Z.of_nat n) (cap_kills (Z.of_nat n) maxKills)).
Proof.
  intros Hn. split_and!; [by apply read_first|by apply kill_bounds|].
  rewrite (proj2 (kills_spec n maxKills)), length_take, length_reverse, length_seq.
  pose proof (cap_kills_bounds n maxKills). lia.
Qed.

(** ** The cluster that comes up *)

(** What node [i] reads from its flags, on a fresh directory; the store is in memory here,
    which is the same for every run ([LocalFS_Memory_equivalent]). *)
Definition bench_config (n i : nat) : NodeConfig :=
  MkNodeConfig (bench_node i) (bench_addr i) (strings_Join (peerLists n i) ",") 4 None.

Lemma bench_config_flags Getenv n i dataDir :
  let fl := flag_Parse Getenv (bench_args n i dataDir) in
  fl_nodeID fl = c_nodeID (bench_config n i) ∧ fl_advertise fl = c_addr (bench_config n i) ∧
  fl_peers fl = c_peers (bench_config n i) ∧ fl_workers fl = c_workers (bench_config n i).
Proof. done. Qed.

Definition bench_server (n : nat) (now : Z) (i : nat) : node_server := pr_server (boot (bench_config n i) now NewMemory).
Definition bench_cluster (n : nat) (now : Z) : Cluster :=
  MkCluster (list_to_map ((λ i, (bench_addr i, bench_server n now i)) <$> seq 0 n)) (list_to_set (bench_addr <$> seq 0 n)).

Lemma elem_of_bench_nodes n x : x ∈ bench_nodes n ↔ ∃ i, x = bench_node i ∧ i < n.
Proof.
  unfold bench_nodes. rewrite elem_of_list_to_set, list_elem_of_fmap. setoid_rewrite elem_of_seq. naive_solver lia.
Qed.

Lemma bench_known n i : i < n → known (bench_config n i) = bench_nodes n.
Proof.
  intros Hi. apply set_eq. intros x. unfold known. cbn [c_peers c_nodeID bench_config]. rewrite bench_peers, <-list_fmap_compose.
  rewrite elem_of_union, elem_of_list_to_set, list_elem_of_fmap, elem_of_singleton, elem_of_bench_nodes.
  unfold bench_others. setoid_rewrite list_elem_of_filter. setoid_rewrite elem_of_seq. split.
  - intros [(j&->&_&Hj)| ->]; [exists j|exists i]; (split; [done|lia]).
  - intros (j&->&Hj). destruct (decide (j = i)) as [->|Hne]; [by right|left]. exists j.
    split; [done|]. split; [done|lia].
Qed.

Lemma bench_address n i j : i < n → j < n → j ≠ i → address_of (bench_config n i) (bench_node j) = Some (bench_addr j).
Proof.
  intros Hi Hj Hne. unfold address_of. cbn [c_nodeID c_peers bench_config].
  rewrite decide_False by by intros ?%bench_node_inj. rewrite bench_peers. apply elem_of_list_to_map_1.
  - rewrite <-list_fmap_compose. apply NoDup_fmap_2; [intros x y; apply bench_node_inj|].
    apply NoDup_filter, NoDup_seq.
  - apply list_elem_of_fmap. exists j. split; [done|]. apply list_elem_of_filter. split; [done|]. apply elem_of_seq. lia.
Qed.

Lemma bench_target m r key x : ring_repr r (bench_nodes m) → x ∈ TargetsFor r key → ∃ j, x = bench_node j ∧ j < m.
Proof.
  intros Hr Hx. unfold TargetsFor in Hx. rewrite (GetN_preference r _ key _ Hr) in Hx.
  by apply subseteq_take, (elem_of_preference r _ key _ Hr), elem_of_bench_nodes in Hx.
Qed.

Section bench.
#[local] Existing Instances View_AddrResolver View_Waiting.
Context (n : nat) (now : Z).
Context (Hn : 0 < n) (Hdistinct : distinct_points (bench_nodes n)).

(** Every node knows itself, the whole ring and the address of every other node; nothing
    is stored. *)
Lemma bench_server_ready i :
  i < n →
  SelfID (bench_server n now i) = bench_node i ∧ ring_repr (s_Ring (bench_server n now i)) (bench_nodes n) ∧
  manifests (bench_server n now i) = ∅ ∧ Local (bench_server n now i) = NewMemory ∧
  ∀ j, j < n → j ≠ i → membershipResolver_AddrFor (s_Membership (bench_server n now i)) (bench_node j) = Some (bench_addr j).
Proof.
  intros Hi. pose proof (bench_known n i Hi) as Hk.
  assert (distinct_points (known (bench_config n i))) as Hd by by rewrite Hk.
  pose proof (static_boot (bench_config n i) now NewMemory Hd) as Hs. unfold bench_server.
  split; [apply Hs|]. split; [|split; [|split]].
  - unfold boot. destruct (setup_peers_ok (Fn := NodeCallback) (bench_node i) (bench_addr i) (strings_Join (peerLists n i) ",")
      now Hd) as (_&_&Hr&_). cbn [c_nodeID c_addr c_peers bench_config]. destruct (setup_peers _ _ _ now) as [m r].
    unfold known in Hk. cbn [c_peers c_nodeID bench_config] in Hk. by rewrite Hk in Hr.
  - unfold boot. by destruct (setup_peers _ _ _ now).
  - unfold boot. by destruct (setup_peers _ _ _ now).
  - intros j Hj Hne. rewrite (so_addrs _ _ Hs). by apply bench_address.
Qed.

Lemma bench_cluster_node i : i < n → cl_nodes (bench_cluster n now) !! bench_addr i = Some (bench_server n now i).
Proof.
  intros Hi. cbn. apply elem_of_list_to_map_1.
  - rewrite <-list_fmap_compose. apply NoDup_fmap_2; [intros x y; apply bench_addr_inj|apply NoDup_seq].
  - apply list_elem_of_fmap. exists i. split; [done|]. apply elem_of_seq. lia.
Qed.

Lemma bench_cluster_empty a : node_data (bench_cluster n now) a = ∅.
Proof.
  unfold node_data. destruct (cl_nodes _ !! a) as [s|] eqn:Hs; [|done]. cbn in Hs.
  apply elem_of_list_to_map_2, list_elem_of_fmap in Hs as (i&[= -> ->]&Hi%elem_of_seq).
  destruct (bench_server_ready i) as (_&_&_&->&_); [lia|done].
Qed.

(** Node 0 reaches all the others. *)
Lemma bench_reachable j : j < n → j ≠ 0 → reachable (MkView (bench_addr 0) (bench_cluster n now)) (bench_node j).
Proof.
  intros Hj Hne. exists (bench_addr j). split_and!.
  - unfold AddrFor, View_AddrResolver. cbn [v_self v_cluster]. rewrite bench_cluster_node by done. cbn.
    by apply bench_server_ready.
  - apply bench_url_part.
  - cbn. apply elem_of_list_to_set, list_elem_of_fmap. exists j. split; [done|]. apply elem_of_seq. lia.
  - cbn [v_cluster]. rewrite bench_cluster_node by done. eauto.
Qed.

(** One member of every replica set is alive after at most two kills. *)
Lemma target_alive r key maxKills m :
  ring_repr r (bench_nodes n) → (cap_kills (Z.of_nat n) maxKills ≤ 2)%Z →
  ∃ j, j < n ∧ bench_node j ∈ TargetsFor r key ∧ j ∉ take m (bench_kills n maxKills).
Proof.
  intros Hr Hcap. set (dead := take m (bench_kills n maxKills)).
  assert (∀ k, k ∈ dead → 2 ≤ k < n) as Hdead by (intros k Hk%subseteq_take; by eapply kill_bounds).
  assert (size (list_to_set (bench_node <$> dead) : gset string) ≤ 2) as Hsize.
  { rewrite size_list_to_set_le, length_fmap. unfold dead. rewrite length_take, (proj2 (kills_spec n maxKills)), length_take. lia. }
  destruct (target_survives r (bench_nodes n) (list_to_set (bench_node <$> dead)) key Factor Hr) as (x&Hx&Hout);
    [unfold Factor; lia| |].
  - exists (bench_node 0). split; [apply elem_of_bench_nodes; by exists 0|].
    intros (j&Hj%bench_node_inj&Hin)%elem_of_list_to_set%list_elem_of_fmap. subst j. apply Hdead in Hin. lia.
  - destruct (bench_target n r key x Hr Hx) as (j&->&Hj). exists j. split_and!; [done..|].
    intros Hin. apply Hout, elem_of_list_to_set, list_elem_of_fmap. by exists j.
Qed.
End bench.

(** ** Heartbeats *)

(** A table and a ring of node 0 while some nodes are dead: the table has every other node
    under its address, alive unless it is dead; of the ring only dead nodes are missing. *)
Record bench_table (n : nat) (dead : list nat) (st : Membership NodeCallback * Ring) : Prop := {
  bt_ok : table_ok st.1;
  bt_onDead : onDead st.1 = [RecHandleNodeDead];
  bt_onAlive : onAlive st.1 = [RecHandleNodeAlive];
  bt_peers x p : peers st.1 !! x = Some p →
    ∃ j, x = bench_node j ∧ 0 < j < n ∧ p_Addr p = bench_addr j ∧ (j ∉ dead → p_State p = StateAlive);
  bt_full j : 0 < j < n → is_Some (peers st.1 !! bench_node j);
  bt_ring : ∃ S, ring_repr st.2 S ∧ S ⊆ bench_nodes n ∧ ∀ j, j < n → j ∉ dead → bench_node j ∈ S;
}.

(** A ping that is answered, or made to a dead node. *)
Definition honest_ping (dead : list nat) (p : string * bool * Z) : Prop :=
  p.1.2 = true ∨ ∃ j, j ∈ dead ∧ p.1.1 = bench_node j.

Lemma bench_ping n dead st p :
  distinct_points (bench_nodes n) → honest_ping dead p → bench_table n dead st → bench_table n dead (node_ping st p).
Proof.
  intros Hd Hp. destruct st as [m r], p as [[id healthy] now]. intros [Hok HD HA Hpeers Hfull (S&Hr&HS&Hin)].
  pose proof (mstep_table_ok (EvPing id healthy now) m Hok) as Hok'. cbn [mstep] in Hok'.
  cbn [fst snd] in *. unfold node_ping, pingPeer in *.
  destruct (peers m !! id) as [q|] eqn:Hq; [|by split; eauto].
  set (q' := ping_peer_state m healthy now q) in *. cbn [snd] in Hok'.
  destruct (Hpeers id q Hq) as (j&->&Hj&Haddr&Halive).
  assert (p_Addr q' = bench_addr j ∧ (j ∉ dead → p_State q' = StateAlive)) as [Haddr' Halive'].
  { unfold q', ping_peer_state. destruct Hp as [Hh|(i&Hi&Heq)]; cbn [fst snd] in *.
    - by subst healthy.
    - apply bench_node_inj in Heq as ->. split; [|done]. by repeat case_match. }
  split; cbn [fst snd set_peers onDead onAlive peers]; [done..| | |].
  - intros x y. rewrite lookup_insert_Some. intros [[<- <-]|[Hne Hy]]; [by exists j|by apply Hpeers].
  - intros i Hi. destruct (decide (bench_node j = bench_node i)) as [<-|]; [rewrite lookup_insert_eq; eauto|].
    rewrite lookup_insert_ne by done. by apply Hfull.
  - rewrite HD, HA. cbn [fmap list_fmap].
    destruct (decide (p_State q ≠ StateDead ∧ p_State q' = StateDead)) as [[Hq1 Hq2]|_].
    + rewrite (decide_False (P := _ ∧ _)) by naive_solver. cbn [app foldl run_call call_target fst snd HandleNodeDead].
      exists (S ∖ {[bench_node j]}). split_and!; [by apply ring_repr_RemoveNode|set_solver|].
      intros i Hi Hnot. apply elem_of_difference. split; [by apply Hin|]. intros ->%elem_of_singleton%bench_node_inj.
      rewrite Halive' in Hq2 by done. done.
    + destruct (decide (p_State q = StateDead ∧ p_State q' = StateAlive)) as [_|_]; cbn [app foldl run_call call_target fst snd].
      * assert ({[bench_node j]} ∪ S ⊆ bench_nodes n) as Hsub.
        { apply union_subseteq. split; [|done]. apply singleton_subseteq_l, elem_of_bench_nodes. exists j. split; [done|lia]. }
        exists ({[bench_node j]} ∪ S). split_and!; [|done|].
        -- apply ring_repr_AddNode; [done|]. by eapply distinct_points_subset.
        -- intros i Hi Hnot. apply elem_of_union_r. by apply Hin.
      * by exists S.
Qed.

Lemma bench_pings n dead st pings :
  distinct_points (bench_nodes n) → Forall (honest_ping dead) pings → bench_table n dead st →
  bench_table n dead (foldl node_ping st pings).
Proof.
  intros Hd Hp. revert st. induction Hp as [|p pings Hp _ IH]; intros st Hst; [done|]. by apply IH, bench_ping.
Qed.

(** The table that node [i] comes up with: every other node, under its address, alive. *)
Lemma bench_server_table n now i :
  i < n → distinct_points (bench_nodes n) →
  let m := s_Membership (bench_server n now i) in
  table_ok m ∧ same_config (wire (cluster_New (bench_node i) (bench_addr i) now)) m ∧
  (∀ x p, peers m !! x = Some p → ∃ j, x = bench_node j ∧ j < n ∧ j ≠ i ∧ p_Addr p = bench_addr j ∧
    p_State p = StateAlive ∧ p_LastHeartbeat p = now) ∧
  ∀ j, j < n → j ≠ i → is_Some (peers m !! bench_node j).
Proof.
  intros Hi Hd. pose proof (bench_known n i Hi) as Hk. unfold known in Hk. unfold bench_server, boot.
  destruct (setup_peers_ok (Fn := NodeCallback) (bench_node i) (bench_addr i) (strings_Join (peerLists n i) ",") now)
    as (Hok&Hself&_&Haddr); [by cbn [c_peers c_nodeID bench_config] in Hk; rewrite Hk|].
  cbn [c_nodeID c_addr c_peers bench_config]. rewrite bench_peers in Haddr.
  assert (∀ x p, peers (setup_peers (Fn := NodeCallback) (bench_node i) (bench_addr i) (strings_Join (peerLists n i) ",") now).1 !! x
    = Some p → p_State p = StateAlive ∧ p_LastHeartbeat p = now) as Halive.
  { intros x p. change (peers (?st.1) !! x) with (peers (wire st.1) !! x). unfold setup_peers. rewrite setup_as_run.
    by apply add_events_alive. }
  assert (same_config (wire (cluster_New (bench_node i) (bench_addr i) now))
    (wire (setup_peers (bench_node i) (bench_addr i) (strings_Join (peerLists n i) ",") now).1)) as Hcfg.
  { unfold setup_peers. rewrite setup_as_run. apply mrun_config. }
  destruct (setup_peers _ _ _ now) as [m r]. cbn [fst snd pr_server NewServer s_Membership] in *.
  split; [exact Hok|]. split; [exact Hcfg|]. split.
  - intros x p Hx. assert (x ≠ bench_node i) as Hne by (intros ->; destruct Hok as [Hnone _]; rewrite Hself in Hnone; cbn in *; congruence).
    specialize (Haddr x Hne). cbn [wire OnNodeAlive OnNodeDead peers] in Hx. rewrite Hx in Haddr. symmetry in Haddr.
    apply elem_of_list_to_map_2, list_elem_of_fmap in Haddr as (j&[= -> Ha]&[Hji Hj%elem_of_seq]%list_elem_of_filter).
    exists j. split_and!; [done|lia|done|done|by eapply Halive..].
  - intros j Hj Hji. assert (bench_node j ≠ bench_node i) as Hne by by intros ?%bench_node_inj.
    specialize (Haddr _ Hne). cbn [wire OnNodeAlive OnNodeDead peers]. apply fmap_is_Some with (f := p_Addr). rewrite Haddr.
    exists (bench_addr j). apply elem_of_list_to_map_1.
    + rewrite <-list_fmap_compose. apply NoDup_fmap_2; [intros x y; apply bench_node_inj|]. apply NoDup_filter, NoDup_seq.
    + apply list_elem_of_fmap. exists j. split; [done|]. apply list_elem_of_filter. split; [done|]. apply elem_of_seq. lia.
Qed.

(** The table and the ring that node 0 comes up with. *)
Lemma bench_table_start n now dead :
  0 < n → distinct_points (bench_nodes n) →
  bench_table n dead (s_Membership (bench_server n now 0), s_Ring (bench_server n now 0)).
Proof.
  intros Hn Hd. destruct (bench_server_ready n now Hd 0 Hn) as (_&Hring&_&_&_).
  destruct (bench_server_table n now 0 Hn Hd) as (Hok&(_&_&_&HD&HA)&Hpeers&Hfull).
  split; cbn [fst snd]; [exact Hok|exact HD|exact HA| | |].
  - intros x p Hx. destruct (Hpeers x p Hx) as (j&->&Hj&Hj0&Ha&Hs&_). exists j. split_and!; [done|lia|lia|done|done].
  - intros j Hj. apply Hfull; lia.
  - exists (bench_nodes n). split_and!; [done|done|]. intros j Hj _. apply elem_of_bench_nodes. by exists j.
Qed.

(** ** Uploads, kills, heartbeats and reads *)

Definition bench_blob (k : nat) : string := "bench-blob-" +:+ Itoa (Z.of_nat k).
Definition bench_data (blobSize : nat) : bytes := repeat "x"%byte blobSize.
Definition bench_upload (blobSize k : nat) : Request :=
  MkRequest "POST" ["blobs"; bench_blob k] (MkReader [bench_data blobSize] io_EOF true).
Definition bench_read (k : nat) : Request := MkRequest "GET" ["blobs"; bench_blob k] (MkReader [[]] io_EOF true).
Definition bench_client : ResponseWriter := MkResponseWriter None [] None.

(** The addresses that answer after some kills. *)
Definition bench_alive (n : nat) (dead : list nat) : gset string := list_to_set (bench_addr <$> filter (λ j, j ∉ dead) (seq 0 n)).

(** A server after the pings of some heartbeats, the callbacks they start run in order;
    the repair passes, which only add copies, are left out. *)
Definition bench_heartbeats (pings : list (string * bool * Z)) (s : node_server) : node_server :=
  let st := foldl node_ping (s_Membership s, s_Ring s) pings in
  MkServer (SelfID s) st.2 (Local s) (Cold s) st.1 (s_Pool s) (s_Recovery s) (manifests s).

Section reads.
Context (json_Manifest : Manifest → bytes) (json_Status : StatusReport → bytes).
#[local] Existing Instances View_AddrResolver View_Waiting.
#[local] Instance bench_Transport : Transport View := View_Transport json_Manifest json_Status.
#[local] Instance bench_HTTPGetter : HTTPGetter Cluster := Cluster_HTTPGetter json_Manifest json_Status.

(** An upload to the node of the view, whose jobs join those that wait; whether
    [uploadBlob] returns no error. *)
Definition bench_post (blobSize : nat) (vj : View * list Job) (k : nat) : (View * list Job) * bool :=
  let '(v, waiting) := vj in
  match cl_nodes (v_cluster v) !! v_self v with
  | Some s =>
      let '(rw, jobs, s', cl) := ServeHTTP json_Manifest json_Status (bench_upload blobSize k) bench_client s (v_cluster v) in
      (MkView (v_self v) (MkCluster (<[v_self v := s']> (cl_nodes cl)) (cl_up cl)), waiting ++ jobs,
       upload_ok (Ok (sent_status rw)))
  | None => (v, waiting, upload_ok (Err (errors_New "connection refused")))
  end.

(** The loop over the blobs; the first error ends the benchmark. *)
Definition bench_uploads (blobSize numBlobs : nat) (v : View) : option (View * list Job) :=
  foldl (λ o k, vj ← o; let '(vj, ok) := bench_post blobSize vj k in if ok then Some vj else None) (Some (v, []))
    (seq 0 numBlobs).

(** The two seconds after the uploads: [worked] is what the workers of the node get done of
    the jobs until then, in any order; nothing says that they get them all done. *)
Definition bench_settle (worked : list Job) (v : View) : View :=
  match cl_nodes (v_cluster v) !! v_self v with
  | Some s => deliver_all json_Manifest json_Status (NewEngine (SelfID s) 4) (s_Ring s) worked v
  | None => v
  end.

(** *** Lemmas: uploads *)

(** Both requests name the blob. *)
Lemma bench_blob_id blobSize k : blob_id (bench_upload blobSize k) = bench_blob k ∧ blob_id (bench_read k) = bench_blob k.
Proof.
  unfold blob_id, URL_Path. cbn [r_Segments foldr bench_upload bench_read]. rewrite append_nil.
  split; exact (TrimPrefix_app "/blobs/" (bench_blob k)).
Qed.

Lemma bench_blob_inj i j : bench_blob i = bench_blob j → i = j.
Proof. unfold bench_blob. intros Heq%(inj _)%(inj pretty). lia. Qed.

Lemma bench_upload_body blobSize k :
  content (r_Body (bench_upload blobSize k)) = bench_data blobSize ∧ length (bench_data blobSize) = blobSize.
Proof. split; [by cbn; rewrite app_nil_r|apply repeat_length]. Qed.

Lemma bench_post_serve blobSize k (s : node_server) (cl : Cluster) :
  ServeHTTP json_Manifest json_Status (bench_upload blobSize k) bench_client s cl =
  let h := handleUploadBlob json_Manifest (bench_upload blobSize k) bench_client s in (h.1.1, h.1.2, h.2, cl).
Proof.
  unfold ServeHTTP. assert (Routes (r_Method (bench_upload blobSize k)) (r_Segments (bench_upload blobSize k)) = inl (Some UploadBlob))
    as -> by done. by destruct (handleUploadBlob _ _ _ _) as [[? ?] ?].
Qed.

(** The pieces of a blob of the benchmark: those of its bytes, whatever its name. *)
Definition bench_chunks (blobSize : nat) : list Chunk := number 0 (chop (Z.to_nat DefaultSize) (bench_data blobSize)).

Lemma bench_split blobSize k :
  (Z.of_nat blobSize < 2 ^ 63)%Z →
  ∃ manifest, Split (bench_blob k) (r_Body (bench_upload blobSize k)) DefaultSize = Ok (bench_chunks blobSize, manifest).
Proof.
  intros Hlen. destruct (bench_upload_body blobSize k) as [Hbody Hsize].
  pose proof (Split_eq (bench_blob k) (r_Body (bench_upload blobSize k)) DefaultSize ltac:(by rewrite Hbody, Hsize)) as HS.
  rewrite decide_True in HS by by left. rewrite Hbody in HS. cbv zeta in HS. eexists. exact HS.
Qed.

(** The node of a view keeps all but its store. *)
Definition node_is (s : node_server) (v : View) : Prop :=
  v_self v = bench_addr 0 ∧ ∃ l, cl_nodes (v_cluster v) !! bench_addr 0 = Some (set_Local l s).

(** What [k] uploads leave: the manifests in the index of node 0, no store with other data
    under the name of a chunk, the jobs of the chunks, and the chunks of node 0 with it. *)
Record bench_loaded (n : nat) (now : Z) (blobSize k : nat) (v : View) (jobs : list Job) : Prop := {
  bl_node : ∃ ms, node_is (set_manifests ms (bench_server n now 0)) v ∧
    ∀ i, i < k → ∃ manifest,
      Split (bench_blob i) (r_Body (bench_upload blobSize i)) DefaultSize = Ok (bench_chunks blobSize, manifest) ∧
      ms !! bench_blob i = Some manifest;
  bl_truthful a : truthful (bench_chunks blobSize) (node_data (v_cluster v) a);
  bl_reachable j : j < n → j ≠ 0 → reachable v (bench_node j);
  bl_jobs job : job ∈ jobs ↔ 0 < k ∧ job ∈ job_of_chunk <$> bench_chunks blobSize;
  bl_kept c : 0 < k → c ∈ bench_chunks blobSize → bench_node 0 ∈ TargetsFor (s_Ring (bench_server n now 0)) (ck_ID c) →
    node_data (v_cluster v) (bench_addr 0) !! ck_ID c = Some (ck_Data c);
}.

(** And once the queue is worked off: each chunk with every node of its replica set. *)
Record bench_settled (n : nat) (now : Z) (blobSize k : nat) (v : View) : Prop := {
  bs_node : ∃ ms, node_is (set_manifests ms (bench_server n now 0)) v ∧
    ∀ i, i < k → ∃ manifest,
      Split (bench_blob i) (r_Body (bench_upload blobSize i)) DefaultSize = Ok (bench_chunks blobSize, manifest) ∧
      ms !! bench_blob i = Some manifest;
  bs_truthful a : truthful (bench_chunks blobSize) (node_data (v_cluster v) a);
  bs_replicated c j : 0 < k → c ∈ bench_chunks blobSize → j < n →
    bench_node j ∈ TargetsFor (s_Ring (bench_server n now 0)) (ck_ID c) →
    node_data (v_cluster v) (bench_addr j) !! ck_ID c = Some (ck_Data c);
}.

Section uploads.
Context (n : nat) (now : Z) (blobSize : nat).
Context (Hn : 0 < n) (Hdistinct : distinct_points (bench_nodes n)) (Hlen : (Z.of_nat blobSize < 2 ^ 63)%Z).
Context (Hinj : ∀ x y, x ∈ chop (Z.to_nat DefaultSize) (bench_data blobSize) →
  y ∈ chop (Z.to_nat DefaultSize) (bench_data blobSize) → ID x = ID y → x = y).

Lemma bench_chunks_inj c1 c2 :
  c1 ∈ bench_chunks blobSize → c2 ∈ bench_chunks blobSize → ck_ID c1 = ck_ID c2 → ck_Data c1 = ck_Data c2.
Proof.
  intros H1 H2. destruct (bench_split blobSize 0 Hlen) as [manifest HS].
  pose proof (proj1 (Split_named _ _ _ _ _ HS)) as Hnamed. rewrite Forall_forall in Hnamed.
  rewrite (Hnamed c1 H1), (Hnamed c2 H2).
  apply Hinj; rewrite <-(number_data 0 (chop _ _)); by apply list_elem_of_fmap_2.
Qed.

Lemma bench_loaded_start : bench_loaded n now blobSize 0 (MkView (bench_addr 0) (bench_cluster n now)) [].
Proof.
  destruct (bench_server_ready n now Hdistinct 0 Hn) as (_&_&Hman&_). split; [| | | |lia].
  - exists ∅. split; [split; [done|]|lia]. exists (Local (bench_server n now 0)). cbn [v_cluster].
    rewrite bench_cluster_node, <-Hman by done. by destruct (bench_server n now 0).
  - intros a c d _. cbn [v_cluster]. rewrite bench_cluster_empty by done. by rewrite lookup_empty.
  - intros j Hj Hne. by apply bench_reachable.
  - intros job. rewrite elem_of_nil. lia.
Qed.

Lemma bench_post_spec k v jobs :
  bench_loaded n now blobSize k v jobs →
  ∃ vj, bench_post blobSize (v, jobs) k = (vj, true) ∧ bench_loaded n now blobSize (S k) vj.1 vj.2.
Proof.
  intros [(ms&[Hself [l Hl]]&Hms) Htr Hreach Hjobs _]. unfold bench_post. rewrite Hself, Hl.
  set (s := set_Local l (set_manifests ms (bench_server n now 0))) in *.
  destruct (bench_split blobSize k Hlen) as [manifest HS].
  pose proof (upload_stored json_Manifest v s (bench_upload blobSize k) bench_client (bench_chunks blobSize) manifest) as Hup.
  rewrite (proj1 (bench_blob_id blobSize k)), Hself in Hup.
  destruct Hup as ((l'&Hh)&Htr1&Hkept&_&Hreach1); [exact Hl|done|exact HS|exact bench_chunks_inj|exact Htr|].
  rewrite Hh in Htr1, Hkept, Hreach1. cbn [fst snd] in Htr1, Hkept, Hreach1.
  rewrite bench_post_serve, Hh. cbn [fst snd]. rewrite (rw_Write_status bench_client) by done.
  eexists. split; [done|]. cbn [fst snd]. split.
  - exists (<[bench_blob k := manifest]> ms). split; [split; [done|]; exists l'; apply lookup_insert_eq|].
    intros i Hi. destruct (decide (i = k)) as [->|Hne].
    + exists manifest. split; [exact HS|]. apply lookup_insert_eq.
    + destruct (Hms i ltac:(lia)) as (mi&HSi&Hmi). exists mi. split; [exact HSi|].
      rewrite lookup_insert_ne; [exact Hmi|]. intros Heq%bench_blob_inj. lia.
  - exact Htr1.
  - intros j Hj Hne. by apply Hreach1, Hreach.
  - intros job. rewrite elem_of_app, Hjobs. split; [|intros [_ ?]; by right]. intros [[_ ?]|?]; (split; [lia|done]).
  - intros c _ Hc Ht. apply Hkept; [exact Hc|]. left.
    change (SelfID (bench_server n now 0) ∈ TargetsFor (s_Ring (bench_server n now 0)) (ck_ID c)).
    destruct (bench_server_ready n now Hdistinct 0 Hn) as (Hid&_). rewrite Hid. exact Ht.
Qed.

Lemma bench_uploads_spec numBlobs :
  ∃ vj, bench_uploads blobSize numBlobs (MkView (bench_addr 0) (bench_cluster n now)) = Some vj ∧
    bench_loaded n now blobSize numBlobs vj.1 vj.2.
Proof.
  unfold bench_uploads. induction numBlobs as [|k ([v jobs]&Hv&Hk)]; [eexists; split; [done|exact bench_loaded_start]|].
  rewrite seq_S, foldl_snoc, Hv. cbn [mbind option_bind Nat.add].
  destruct (bench_post_spec k v jobs Hk) as (vj&->&Hk'). by exists vj.
Qed.

(** The queue worked off, in whatever order. *)
Lemma bench_settle_spec k v jobs worked :
  0 < k → bench_loaded n now blobSize k v jobs → (∀ job, job ∈ worked ↔ job ∈ jobs) →
  bench_settled n now blobSize k (bench_settle worked v).
Proof.
  intros Hk [(ms&[Hself [l Hl]]&Hms) Htr Hreach Hjobs Hkept] Hworked. unfold bench_settle. rewrite Hself, Hl.
  set (s := set_Local l (set_manifests ms (bench_server n now 0))) in *.
  destruct (bench_split blobSize 0 Hlen) as [manifest HS].
  pose proof (proj1 (Split_named _ _ _ _ _ HS)) as Hnamed. rewrite Forall_forall in Hnamed.
  destruct (bench_server_ready n now Hdistinct 0 Hn) as (Hid&Hring&_&_&Haddr).
  destruct (deliver_jobs_spec json_Manifest json_Status (bench_chunks blobSize) (NewEngine (SelfID s) 4) (s_Ring s)
    bench_chunks_inj Hnamed worked v) as (Htr'&Hkeep&Hdel); [|exact Htr|].
  { intros job Hjob. apply Hworked, Hjobs in Hjob as [_ (c&->&Hc)%list_elem_of_fmap].
    by apply honest_chunk; [exact bench_chunks_inj|]. }
  split.
  - exists ms. split; [|exact Hms].
    destruct (deliver_same json_Manifest json_Status (NewEngine (SelfID s) 4) (s_Ring s) worked v) as (Hself'&_&Hnodes).
    split; [by rewrite Hself'|]. destruct (Hnodes (bench_addr 0) s Hl) as [l'' Hl'']. by exists l''.
  - exact Htr'.
  - intros c j _ Hc Hj Ht. destruct (decide (j = 0)) as [->|Hne]; [by apply Hkeep, Hkept|].
    apply (Hdel) with (n := bench_node j).
    + intros job x Hjob Hx Hxne. apply Hworked, Hjobs in Hjob as [_ (c'&->&Hc')%list_elem_of_fmap].
      destruct (bench_target n _ _ _ Hring Hx) as (i&->&Hi). apply Hreach; [done|]. intros ->. by apply Hxne.
    + exact Hc.
    + apply Hworked, Hjobs. split; [exact Hk|]. by apply list_elem_of_fmap_2.
    + exact Ht.
    + change (bench_node j ≠ SelfID (bench_server n now 0)). rewrite Hid. by intros Heq%bench_node_inj.
    + unfold AddrFor, View_AddrResolver. rewrite Hself, Hl. by apply Haddr.
Qed.
End uploads.

(** *** Lemmas: reads *)

(** A chunk of an uploaded blob can be read from node 0 while a node of its replica set is
    alive. *)
Lemma bench_readable n now dead blobSize k v s c :
  0 < n → distinct_points (bench_nodes n) → 0 < k → bench_settled n now blobSize k v →
  SelfID s = bench_node 0 → data (Local s) = node_data (v_cluster v) (bench_addr 0) →
  bench_table n dead (s_Membership s, s_Ring s) → c ∈ bench_chunks blobSize →
  (∃ j, j < n ∧ bench_node j ∈ TargetsFor (s_Ring (bench_server n now 0)) (ck_ID c) ∧ j ∉ dead) →
  readable (MkCluster (cl_nodes (v_cluster v)) (bench_alive n dead)) s c.
Proof.
  intros Hn Hd Hk [_ _ Hrep] Hself Hstore [Hok _ _ Hpeers Hfull (S&Hring&HS&Hin)] Hc (j&Hj&Ht&Hdead).
  cbn [fst snd] in *. specialize (Hrep c j Hk Hc Hj Ht). destruct (decide (j = 0)) as [->|Hne]; [left; congruence|].
  right. exists (bench_node j), (bench_addr j). destruct (bench_server_ready n now Hd 0 Hn) as (_&Hr0&_). split_and!.
  - eapply survivors_stay; [exact Hr0|exact Hring|exact HS|exact Ht|by apply Hin].
  - rewrite Hself. intros Heq%bench_node_inj. lia.
  - destruct (address_lookups (s_Membership s) (bench_node j) Hok) as [_ ->].
    destruct (Hfull j ltac:(lia)) as [p Hp]. rewrite Hp. cbn [mbind option_bind].
    destruct (Hpeers _ p Hp) as (i&Hi%bench_node_inj&_&Ha&Hs). subst i. rewrite decide_True by by apply Hs. by rewrite Ha.
  - cbn. unfold bench_alive. apply elem_of_list_to_set, list_elem_of_fmap. exists j. split; [done|].
    apply list_elem_of_filter. split; [done|]. apply elem_of_seq. lia.
  - exact Hrep.
Qed.

(** A blob all of whose chunks can be read is answered in full. *)
Lemma bench_download n dead blobSize k (cl : Cluster) s manifest elapsed :
  (Z.of_nat blobSize < 2 ^ 63)%Z → (elapsed < 3 * Second)%Z → bench_table n dead (s_Membership s, s_Ring s) →
  Split (bench_blob k) (r_Body (bench_upload blobSize k)) DefaultSize = Ok (bench_chunks blobSize, manifest) →
  manifests s !! bench_blob k = Some manifest → truthful (bench_chunks blobSize) (data (Local s)) →
  (∀ a, truthful (bench_chunks blobSize) (node_data cl a)) →
  (∀ c, c ∈ bench_chunks blobSize → readable cl s c) →
  ∃ rw, ServeHTTP json_Manifest json_Status (bench_read k) bench_client s cl = (rw, [], s, cl) ∧
    read_ok (Z.of_nat blobSize) elapsed (Ok (sent_status rw, MkReader [rw_body rw] io_EOF true)) = true.
Proof.
  intros Hlen Htime [Hok _ _ Hpeers _ _] HS Hman Hlocal Htr Hread. destruct (bench_upload_body blobSize k) as [Hbody Hsize].
  destruct (download_readable json_Manifest json_Status cl s (bench_chunks blobSize)) with (r := bench_read k) (blob := bench_blob k)
    (body := r_Body (bench_upload blobSize k)) (manifest := manifest) as (rw&HR&Hst&Hout).
  - apply (Split_named _ _ _ _ _ HS).
  - intros x a. rewrite (proj2 (address_lookups (s_Membership s) x Hok)).
    destruct (peers (s_Membership s) !! x) as [p|] eqn:Hp; [|done]. cbn [mbind option_bind]. case_decide; [|done].
    intros [= <-]. destruct (Hpeers x p Hp) as (j&_&_&->&_). apply bench_url_part.
  - exact Hlocal.
  - exact Htr.
  - by rewrite Hbody, Hsize.
  - exact HS.
  - rewrite (proj2 (bench_blob_id blobSize k)). exact Hman.
  - exact Hread.
  - exists rw. split.
    + unfold ServeHTTP. assert (Routes (r_Method (bench_read k)) (r_Segments (bench_read k)) = inl (Some DownloadBlob)) as -> by done. unfold bench_HTTPGetter, bench_client. by rewrite HR.
    + unfold read_ok, client_Get, client_Timeout. destruct (Z.leb_spec (3 * Second) elapsed); [lia|]. rewrite ReadAll_spec. cbn [rd_err]. rewrite decide_True by done. unfold content. cbn [rd_segs concat].
      by rewrite app_nil_r, Hout, Hbody, Hst, Hsize, !Z.eqb_refl.
Qed.

End reads.

(** ** Witnesses *)

(** Three nodes, of which the cap lets one be killed; two small blobs, and a heartbeat that
    finds it dead. *)
Definition demo_bench_pings : list (string * bool * Z) :=
  [(bench_node 1, true, 10 * Second)%Z; (bench_node 2, false, 10 * Second)%Z].

Lemma bench_small : chop (Z.to_nat DefaultSize) (bench_data 5) = [bench_data 5].
Proof.
  apply chop_short; [unfold DefaultSize; lia|discriminate|]. change (length (bench_data 5)) with 5. unfold DefaultSize. lia.
Qed.

#[local] Instance demo_HTTPGetter : HTTPGetter Cluster := Cluster_HTTPGetter demo_json demo_json_status.


Lemma readers_ask_the_first_witness :
  read_port (killed_slots (bench_slots 5) (take 2 (bench_kills 5 9))) = nodeBasePort ∧
  (∀ k, k ∈ bench_kills 5 9 → 2 ≤ k < 5) ∧
  Z.of_nat (length (bench_kills 5 9)) = Z.max 0 (Z.min 5 (cap_kills 5 9)).
Proof. apply (readers_ask_the_first 5 9 2). lia. Defined.

(** The schedule of five nodes with the cap: three kills, from the last on. *)
Example bench_schedule : bench_kills 5 9 = [4; 3; 2].
Proof. reflexivity. Qed.
