(* ===== verification/Phases.v ===== *)
(** * benchmarks/availability: the counters of the phases

    The readers of the benchmark add each request to two pairs of atomic counters, those of
    the run and those of the current phase, one add after the other, while the main
    goroutine's [nextPhase] reads the pair of the phase, appends it to the breakdown and
    resets it.  Here they are steps of one machine, in any order; the counters are [Z], as no
    run makes 2^63 requests.  The theorem says what the report adds up to: the counts of the
    run are those of the phases and of what the resets overwrote. *)
From S2P Require Import Prelude.

(** ** The machine *)

(** Where a reader is: at the [select] of its loop, at its request, before one of its adds,
    or returned. *)
Inductive ReaderPC :=
| AtSelect
| Requesting
| AddTotal (ok : bool)
| AddPhaseTotal (ok : bool)
| AddFailed
| AddPhaseFailed
| Stopped.

(** Where [nextPhase] is; [t] and [f] are its variables. *)
Inductive PhasePC :=
| NotCalled
| LoadTotal (label : string)
| LoadFailed (label : string) (t : Z)
| StoreTotal (label : string) (t f : Z)
| StoreFailed (label : string) (t f : Z).

(** Where the main goroutine is: in its loop, past the close of [stopReaders], or at the
    last phase. *)
Inductive Stage := InLoop | WaitReaders | LastPhase.

#[export] Instance ReaderPC_eq_dec : EqDecision ReaderPC.
Proof. solve_decision. Defined.
#[export] Instance PhasePC_eq_dec : EqDecision PhasePC.
Proof. solve_decision. Defined.
#[export] Instance Stage_eq_dec : EqDecision Stage.
Proof. solve_decision. Defined.

(** A row of the breakdown; the duration that follows the name of the phase is left out. *)
Record phaseResult := MkPhaseResult { ph_label : string; ph_total : Z; ph_failed : Z }.

Record Counters := MkCounters {
  totalReqs : Z;
  failedReqs : Z;
  phaseTotal : Z;
  phaseFailed : Z;
  phases : list phaseResult;
  currentPhase : string;
  readers : list ReaderPC;
  phase_pc : PhasePC;
  stage : Stage;
}.

Definition bench_start (readConcurrency : nat) : Counters :=
  MkCounters 0 0 0 0 [] "baseline (all nodes alive)" (repeat AtSelect readConcurrency) NotCalled InLoop.

Inductive BenchAct :=
| Answer (i : nat) (ok : bool)
| ReaderStep (i : nat)
| CallNextPhase (label : string)
| NextPhaseStep
| CloseStop
| CallLastPhase.

Definition with_reader (i : nat) (pc : ReaderPC) (st : Counters) : Counters :=
  MkCounters (totalReqs st) (failedReqs st) (phaseTotal st) (phaseFailed st) (phases st) (currentPhase st)
    (<[i := pc]> (readers st)) (phase_pc st) (stage st).
Definition with_main (pc : PhasePC) (sg : Stage) (st : Counters) : Counters :=
  MkCounters (totalReqs st) (failedReqs st) (phaseTotal st) (phaseFailed st) (phases st) (currentPhase st)
    (readers st) pc sg.

(** [atomic.AddInt64] on each counter. *)
Definition add_counts (total failed pTotal pFailed : Z) (st : Counters) : Counters :=
  MkCounters (totalReqs st + total) (failedReqs st + failed) (phaseTotal st + pTotal) (phaseFailed st + pFailed)
    (phases st) (currentPhase st) (readers st) (phase_pc st) (stage st).

(** The test of [stopReaders], and the adds of a reader once its request has ended. *)
Definition reader_step (i : nat) (st : Counters) : option Counters :=
  match readers st !! i with
  | Some AtSelect => Some (with_reader i (if decide (stage st = InLoop) then Requesting else Stopped) st)
  | Some (AddTotal ok) => Some (with_reader i (AddPhaseTotal ok) (add_counts 1 0 0 0 st))
  | Some (AddPhaseTotal ok) => Some (with_reader i (if ok then AtSelect else AddFailed) (add_counts 0 0 1 0 st))
  | Some AddFailed => Some (with_reader i AddPhaseFailed (add_counts 0 1 0 0 st))
  | Some AddPhaseFailed => Some (with_reader i AtSelect (add_counts 0 0 0 1 st))
  | Some Requesting | Some Stopped | None => None
  end.

(** One access of [nextPhase] to a counter; the append touches nothing that is shared. *)
Definition nextPhase_step (st : Counters) : option Counters :=
  match phase_pc st with
  | NotCalled => None
  | LoadTotal label => Some (with_main (LoadFailed label (phaseTotal st)) (stage st) st)
  | LoadFailed label t =>
      Some (MkCounters (totalReqs st) (failedReqs st) (phaseTotal st) (phaseFailed st)
        (phases st ++ [MkPhaseResult (currentPhase st) t (phaseFailed st)]) (currentPhase st)
        (readers st) (StoreTotal label t (phaseFailed st)) (stage st))
  | StoreTotal label t f =>
      Some (MkCounters (totalReqs st) (failedReqs st) 0 (phaseFailed st) (phases st) (currentPhase st)
        (readers st) (StoreFailed label t f) (stage st))
  | StoreFailed label t f =>
      Some (MkCounters (totalReqs st) (failedReqs st) (phaseTotal st) 0 (phases st) label
        (readers st) NotCalled (stage st))
  end.

Definition bench_step (a : BenchAct) (st : Counters) : option Counters :=
  match a with
  | Answer i ok =>
      if decide (readers st !! i = Some Requesting) then Some (with_reader i (AddTotal ok) st) else None
  | ReaderStep i => reader_step i st
  | CallNextPhase label =>
      if decide (phase_pc st = NotCalled ∧ stage st = InLoop) then Some (with_main (LoadTotal label) InLoop st) else None
  | NextPhaseStep => nextPhase_step st
  | CloseStop =>
      if decide (phase_pc st = NotCalled ∧ stage st = InLoop) then Some (with_main NotCalled WaitReaders st) else None
  | CallLastPhase =>
      if decide (phase_pc st = NotCalled ∧ stage st = WaitReaders ∧ Forall (λ pc, pc = Stopped) (readers st))
      then Some (with_main (LoadTotal "end") LastPhase st) else None
  end.

(** What a reset overwrites that was not loaded. *)
Definition overwritten (a : BenchAct) (st : Counters) : Z * Z :=
  match a, phase_pc st with
  | NextPhaseStep, StoreTotal _ t _ => (phaseTotal st - t, 0)%Z
  | NextPhaseStep, StoreFailed _ _ f => (0, phaseFailed st - f)%Z
  | _, _ => (0, 0)%Z
  end.

(** A run, with the counts its resets have overwritten. *)
Fixpoint bench_run (acts : list BenchAct) (st : Counters) (lost : Z * Z) : option (Counters * (Z * Z)) :=
  match acts with
  | [] => Some (st, lost)
  | a :: acts =>
      st' ← bench_step a st;
      bench_run acts st' (lost.1 + (overwritten a st).1, lost.2 + (overwritten a st).2)%Z
  end.

(** ** The books *)

(** What readers have still to add. *)
Definition owes_phase (pc : ReaderPC) : Z := match pc with AddPhaseTotal _ => 1 | _ => 0 end.
Definition owes_phase_failed (pc : ReaderPC) : Z := match pc with AddPhaseFailed => 1 | _ => 0 end.
Definition owes_failed (pc : ReaderPC) : Z := match pc with AddPhaseTotal false | AddFailed => 1 | _ => 0 end.

Definition tally (f : ReaderPC → Z) (pcs : list ReaderPC) : Z := Zsum (f <$> pcs).

Lemma Zsum_insert l i x y : l !! i = Some x → Zsum (<[i := y]> l) = (Zsum l - x + y)%Z.
Proof.
  revert i. induction l as [|z l IH]; intros [|i] Hi; try done.
  - injection Hi as ->. change (y + Zsum l = x + Zsum l - x + y)%Z. lia.
  - change (z + Zsum (<[i:=y]> l) = z + Zsum l - x + y)%Z. rewrite (IH i Hi). lia.
Qed.

Lemma tally_insert f pcs i x y : pcs !! i = Some x → tally f (<[i := y]> pcs) = (tally f pcs - f x + f y)%Z.
Proof. intros Hi. unfold tally. rewrite list_fmap_insert. apply Zsum_insert. by rewrite list_lookup_fmap, Hi. Qed.

Lemma tally_zero f pcs : Forall (λ pc, f pc = 0%Z) pcs → tally f pcs = 0%Z.
Proof. induction 1 as [|pc pcs Hpc _ IH]; [done|]. unfold tally, Zsum in *. cbn. rewrite Hpc, IH. done. Qed.

(** What of the phase's counters is not in the breakdown yet. *)
Definition open_total (st : Counters) : Z :=
  match phase_pc st with StoreTotal _ t _ => phaseTotal st - t | _ => phaseTotal st end.
Definition open_failed (st : Counters) : Z :=
  match phase_pc st with StoreTotal _ _ f | StoreFailed _ _ f => phaseFailed st - f | _ => phaseFailed st end.

Record books (st : Counters) (lost : Z * Z) : Prop := {
  bk_total : totalReqs st = (Zsum (ph_total <$> phases st) + open_total st + tally owes_phase (readers st) + lost.1)%Z;
  bk_failed : failedReqs st = (Zsum (ph_failed <$> phases st) + open_failed st + tally owes_phase_failed (readers st) + lost.2)%Z;
  bk_less : (0 ≤ failedReqs st ∧ failedReqs st + tally owes_failed (readers st) ≤ totalReqs st)%Z;
  bk_lost : (0 ≤ lost.1 ∧ 0 ≤ lost.2 ∧ 0 ≤ phaseTotal st ∧ 0 ≤ phaseFailed st)%Z;
  bk_loaded : match phase_pc st with
    | LoadFailed _ t => (t ≤ phaseTotal st)%Z
    | StoreTotal _ t f => (t ≤ phaseTotal st ∧ f ≤ phaseFailed st)%Z
    | StoreFailed _ _ f => (f ≤ phaseFailed st)%Z
    | _ => True
    end;
  bk_stage : stage st = LastPhase →
    Forall (λ pc, pc = Stopped) (readers st) ∧
    match phase_pc st with
    | NotCalled => phaseTotal st = 0%Z ∧ phaseFailed st = 0%Z
    | StoreFailed _ _ _ => phaseTotal st = 0%Z
    | _ => True
    end;
}.

Lemma books_start c : books (bench_start c) (0, 0)%Z.
Proof.
  assert (∀ f, f AtSelect = 0%Z → tally f (repeat AtSelect c) = 0%Z) as Htally.
  { intros f Hf. apply tally_zero, Forall_forall. by intros pc ->%list_elem_of_In%repeat_spec. }
  split.
  - change (0 = 0 + 0 + tally owes_phase (repeat AtSelect c) + 0)%Z. by rewrite Htally.
  - change (0 = 0 + 0 + tally owes_phase_failed (repeat AtSelect c) + 0)%Z. by rewrite Htally.
  - change (0 ≤ 0 ∧ 0 + tally owes_failed (repeat AtSelect c) ≤ 0)%Z. by rewrite Htally.
  - done.
  - done.
  - done.
Qed.

(** A step of a reader keeps the books if it adds what it owed. *)
Lemma books_reader st lost i pc pc' a b c d :
  readers st !! i = Some pc → pc ≠ Stopped → (0 ≤ b ∧ 0 ≤ c ∧ 0 ≤ d)%Z →
  a = (c + owes_phase pc' - owes_phase pc)%Z → b = (d + owes_phase_failed pc' - owes_phase_failed pc)%Z →
  (b + owes_failed pc' - owes_failed pc ≤ a)%Z →
  books st lost → books (with_reader i pc' (add_counts a b c d st)) lost.
Proof.
  destruct st as [total failed pTotal pFailed phs cur rs ppc sg]. unfold with_reader, add_counts.
  cbn [readers totalReqs failedReqs phaseTotal phaseFailed phases currentPhase phase_pc stage].
  intros Hi Hpc Hpos Ha Hb Hab [Ht Hf Hless Hlost Hload Hstage]. unfold open_total, open_failed in *.
  cbn [readers totalReqs failedReqs phaseTotal phaseFailed phases phase_pc stage] in *.
  split; unfold open_total, open_failed; cbn [readers totalReqs failedReqs phaseTotal phaseFailed phases phase_pc stage];
    rewrite ?(tally_insert _ _ i pc pc' Hi); try (destruct ppc; lia).
  intros Hs. destruct (Hstage Hs) as [Hall _]. rewrite Forall_forall in Hall.
  by apply list_elem_of_lookup_2, Hall in Hi.
Qed.

Lemma add_counts_none st : add_counts 0 0 0 0 st = st.
Proof. destruct st. unfold add_counts. cbn. by rewrite !Z.add_0_r. Qed.

Lemma books_move st lost i pc pc' :
  readers st !! i = Some pc → pc ≠ Stopped →
  owes_phase pc' = owes_phase pc → owes_phase_failed pc' = owes_phase_failed pc → owes_failed pc' = owes_failed pc →
  books st lost → books (with_reader i pc' st) lost.
Proof.
  intros Hi Hpc H1 H2 H3 Hbk. rewrite <-(add_counts_none st). eapply books_reader; [exact Hi|exact Hpc|..|exact Hbk]; lia.
Qed.

Lemma books_reader_step i st st' lost : reader_step i st = Some st' → books st lost → books st' lost.
Proof.
  unfold reader_step. intros Hst Hbk. destruct (readers st !! i) as [pc|] eqn:Hi; [|done].
  destruct pc as [| |ok|ok| | |]; try discriminate Hst; injection Hst as <-.
  1: eapply books_move; [exact Hi|done|..|exact Hbk]; by case_decide.
  all: eapply books_reader; [exact Hi|done|..|exact Hbk]; try destruct ok; cbn; lia.
Qed.

(** Those of [nextPhase] move what they load, and lose what they overwrite beyond it. *)
Lemma books_nextPhase st st' lost :
  nextPhase_step st = Some st' → books st lost →
  books st' (lost.1 + (overwritten NextPhaseStep st).1, lost.2 + (overwritten NextPhaseStep st).2)%Z.
Proof.
  destruct st as [total failed pTotal pFailed phs cur rs ppc sg]. unfold nextPhase_step, with_main.
  cbn [readers totalReqs failedReqs phaseTotal phaseFailed phases currentPhase phase_pc stage].
  intros Hst [Ht Hf Hless Hlost Hload Hstage]. unfold open_total, open_failed in *.
  cbn [readers totalReqs failedReqs phaseTotal phaseFailed phases phase_pc stage] in *.
  destruct ppc; try discriminate Hst; injection Hst as <-; split; unfold open_total, open_failed, overwritten;
    cbn [readers totalReqs failedReqs phaseTotal phaseFailed phases phase_pc stage fst snd];
    rewrite ?fmap_app, ?Zsum_app; cbn [fmap list_fmap ph_total ph_failed Zsum foldr]; try lia;
    intros Hs; by destruct (Hstage Hs).
Qed.

Lemma books_step a st st' lost :
  bench_step a st = Some st' → books st lost →
  books st' (lost.1 + (overwritten a st).1, lost.2 + (overwritten a st).2)%Z.
Proof.
  intros Hst Hbk. destruct a as [i ok|i|label| | |]; cbn [bench_step overwritten fst snd] in *.
  4: by apply books_nextPhase.
  all: rewrite !Z.add_0_r, <-surjective_pairing.
  - case_decide as Hi; [|done]. injection Hst as <-. by eapply books_move.
  - by eapply books_reader_step.
  - case_decide as Hc; [|done]. injection Hst as <-. destruct Hc as [Hpc Hs], Hbk as [Ht Hf ? ? _ _].
    unfold open_total, open_failed in Ht, Hf. rewrite Hpc in *. by split.
  - case_decide as Hc; [|done]. injection Hst as <-. destruct Hc as [Hpc Hs], Hbk as [Ht Hf ? ? _ _].
    unfold open_total, open_failed in Ht, Hf. rewrite Hpc in *. by split.
  - case_decide as Hc; [|done]. injection Hst as <-. destruct Hc as (Hpc&Hs&Hall), Hbk as [Ht Hf ? ? _ _].
    unfold open_total, open_failed in Ht, Hf. rewrite Hpc in *. by split.
Qed.

Lemma books_run acts st lost st' lost' :
  bench_run acts st lost = Some (st', lost') → books st lost → books st' lost'.
Proof.
  revert st lost. induction acts as [|a acts IH]; intros st lost Hrun Hbk; cbn in Hrun; [by injection Hrun as <- <-|].
  destruct (bench_step a st) as [st1|] eqn:Hst; [|done]. cbn in Hrun. eapply IH; [exact Hrun|]. by apply books_step.
Qed.

(** [C34] What the report adds up to, in every interleaving of the readers with the changes
    of phase.  Failures never exceed requests, and the breakdown never exceeds the totals
    of the run; once the last phase is closed the totals are exactly those of the phases
    and what the resets overwrote - the adds made between the load of a counter and the
    store to it, which appear in no phase. *)
Theorem phases_account readConcurrency acts st lost :
  bench_run acts (bench_start readConcurrency) (0, 0)%Z = Some (st, lost) →
  (0 ≤ failedReqs st ≤ totalReqs st)%Z ∧ (0 ≤ lost.1 ∧ 0 ≤ lost.2)%Z ∧
  (Zsum (ph_total <$> phases st) ≤ totalReqs st)%Z ∧ (Zsum (ph_failed <$> phases st) ≤ failedReqs st)%Z ∧
  (stage st = LastPhase → phase_pc st = NotCalled →
     totalReqs st = (Zsum (ph_total <$> phases st) + lost.1)%Z ∧ failedReqs st = (Zsum (ph_failed <$> phases st) + lost.2)%Z).
Proof.
  intros Hrun. destruct (books_run _ _ _ _ _ Hrun (books_start readConcurrency)) as [Ht Hf Hless Hlost Hload Hstage].
  assert (∀ f, (∀ pc, 0 ≤ f pc)%Z → (0 ≤ tally f (readers st))%Z) as Hpos.
  { intros f Hpos. apply Zsum_nonneg, Forall_fmap, Forall_true. exact Hpos. }
  pose proof (Hpos owes_phase ltac:(by intros [])). pose proof (Hpos owes_phase_failed ltac:(by intros [])).
  pose proof (Hpos owes_failed ltac:(by intros [| |[]|[]| | |])).
  unfold open_total, open_failed in *. split_and!; [lia..|destruct (phase_pc st); lia|destruct (phase_pc st); lia|].
  intros Hs Hpc. destruct (Hstage Hs) as [Hall Hzero]. rewrite Hpc in *.
  rewrite !(tally_zero _ (readers st)) in * by (eapply Forall_impl; [exact Hall|]; by intros ? ->). lia.
Qed.

(** ** Examples *)

(** One reader, whose failed request is counted while the phase changes: the total of its
    phase is overwritten, its failure lands in the next. *)
Definition demo_phases : list BenchAct :=
  [ReaderStep 0; Answer 0 false; ReaderStep 0; CallNextPhase "after killing node-3"; NextPhaseStep; ReaderStep 0;
   NextPhaseStep; NextPhaseStep; NextPhaseStep; ReaderStep 0; ReaderStep 0; CloseStop; ReaderStep 0;
   CallLastPhase; NextPhaseStep; NextPhaseStep; NextPhaseStep; NextPhaseStep].

Definition demo_counters : Counters :=
  MkCounters 1 1 0 0 [MkPhaseResult "baseline (all nodes alive)" 0 0; MkPhaseResult "after killing node-3" 0 1]
    "end" [Stopped] NotCalled LastPhase.

(** A request that no phase has counted, and a phase with a failure but no request. *)
Lemma count_lost : bench_run demo_phases (bench_start 1) (0, 0)%Z = Some (demo_counters, (1, 0)%Z).
Proof. reflexivity. Qed.

Lemma phases_account_witness :
  let st := demo_counters in let lost := (1, 0)%Z in
  (0 ≤ failedReqs st ≤ totalReqs st)%Z ∧ (0 ≤ lost.1 ∧ 0 ≤ lost.2)%Z ∧
  (Zsum (ph_total <$> phases st) ≤ totalReqs st)%Z ∧ (Zsum (ph_failed <$> phases st) ≤ failedReqs st)%Z ∧
  (stage st = LastPhase → phase_pc st = NotCalled →
     totalReqs st = (Zsum (ph_total <$> phases st) + lost.1)%Z ∧ failedReqs st = (Zsum (ph_failed <$> phases st) + lost.2)%Z).
Proof. exact (phases_account 1 demo_phases demo_counters (1, 0)%Z count_lost). Defined.
