(* ===== verification/Healing.v ===== *)
(** * Outages and repair

    The cluster of Cluster.v over its life: uploads, and outages in which some nodes stop
    for good.  After an outage the survivors make heartbeat rounds - any of them, in any
    order, at any times that do not go back, so that a silent peer may be suspect for any
    number of rounds - whose pings are requests to the health endpoints of the others
    ([ping_answer]); a round runs the callbacks of the deaths it finds in any order, and
    then the repair passes they start, whose jobs the engine of the node works off
    ([heal], [heals]).  An outage ends when every survivor holds the lost nodes for dead
    ([noticed]); one that takes no node stands for rounds in which nothing happens.  [life]
    is the relation of such histories.

    The theorem: however many nodes fail in all, as long as no outage takes more than two
    and the survivors notice and repair in between, everything that was uploaded to a node
    that is still there can be read from it in full.  Its invariant is [sound]: every
    survivor has the ring of the survivors and finds the others alive under their
    addresses, and each chunk is with every member of its replica set; [mid] is its weaker
    form during an outage, when the survivors disagree on who is left.

    Not in a history: a node that comes back, an upload or a further loss while an outage is
    being noticed, and a ring that changes during a pass (for that see Goroutines.v). *)
From S2P Require Import Prelude GoLib GoIO GoNet Sha HashRing Placement Rebalance Chunk Storage Membership Replication WorkerPool Recovery Server Node Main Cluster Goroutines Availability.
From Stdlib Require Import Strings.Ascii.

(** ** A heartbeat round *)

Section round.
Context {Fn : Type}.

(** A round pings each peer once, so each is as its own ping leaves it. *)
Lemma round_spec (ids : list string) (ans : string → bool) now (m : Membership Fn) :
  NoDup ids →
  let res := heartbeatRound ((λ id, (id, ans id, now)) <$> ids) m in
  same_config m res.2 ∧ (table_ok m → table_ok res.2) ∧
  (∀ id, peers res.2 !! id =
    if decide (id ∈ ids) then ping_peer_state m (ans id) now <$> peers m !! id else peers m !! id) ∧
  res.1 = concat ((λ id, (pingPeer id (ans id) now m).1) <$> ids).
Proof.
  intros Hnd. cbn zeta. split; [apply mrun_config|].
  revert m. induction ids as [|i ids IH]; intros m; [by split_and!|].
  apply NoDup_cons in Hnd as [Hi Hnd]. specialize (IH Hnd (pingPeer i (ans i) now m).2) as (Htab&Hp&Hc).
  cbn [fmap list_fmap]. rewrite heartbeatRound_cons. cbn [fst snd].
  pose proof (mstep_config (EvPing i (ans i) now) m) as (_&Hs&Hd&_). cbn [mstep] in Hs, Hd.
  split; [|split].
  - intros Hm. apply Htab. exact (mstep_table_ok (EvPing i (ans i) now) m Hm).
  - intros id. rewrite Hp. assert (peers (pingPeer i (ans i) now m).2 !! id =
      if decide (id = i) then ping_peer_state m (ans i) now <$> peers m !! id else peers m !! id) as ->.
    { unfold pingPeer. destruct (peers m !! i) as [p|] eqn:Hpi; cbn [snd set_peers peers]; case_decide as Hid; try subst id.
      - by rewrite lookup_insert_eq, Hpi.
      - by rewrite lookup_insert_ne.
      - by rewrite Hpi.
      - done. }
    assert (∀ p, ping_peer_state (pingPeer i (ans i) now m).2 (ans id) now p = ping_peer_state m (ans id) now p) as Hsame
      by (intros p; unfold ping_peer_state; by rewrite Hs, Hd).
    destruct (decide (id = i)) as [->|Hne].
    + by rewrite decide_False, decide_True by (done || by left).
    + destruct (decide (id ∈ ids)) as [Hin|Hin].
      * rewrite decide_True by by right. destruct (peers m !! id); [|done]. cbn. by rewrite Hsame.
      * rewrite decide_False; [done|]. by intros [?|?]%elem_of_cons.
  - rewrite Hc. cbn [concat]. f_equal. f_equal. apply list_fmap_ext. intros k x Hx%list_elem_of_lookup_2.
    apply pingPeer_comm. intros ->. done.
Qed.
End round.

(** ** The survivors at work *)

Section healing.
Context (json_Manifest : Manifest → bytes) (json_Status : StatusReport → bytes).
#[local] Existing Instances View_AddrResolver View_Waiting.
#[local] Instance heal_Transport : Transport View := View_Transport json_Manifest json_Status.
#[local] Instance heal_HTTPGetter : HTTPGetter Cluster := Cluster_HTTPGetter json_Manifest json_Status.

(** What [pingPeer] finds of a peer: the request to its health endpoint, on the cluster. *)
Definition ping_answer (cl : Cluster) (m : Membership NodeCallback) (id : string) : bool :=
  match ping_url id m with
  | Some url => is_healthy (match (http_Get url cl).1 with Ok (status, _) => Ok status | Err e => Err e end)
  | None => false
  end.

(** The node with another table and ring. *)
Definition with_members (m : Membership NodeCallback) (r : Ring) (s : node_server) : node_server :=
  MkServer (SelfID s) r (Local s) (Cold s) m (s_Pool s) (s_Recovery s) (manifests s).

(** The node of the view replaced. *)
Definition with_node (s : node_server) (v : View) : View :=
  MkView (v_self v) (MkCluster (<[v_self v := s]> (cl_nodes (v_cluster v))) (cl_up (v_cluster v))).

(** A repair pass of the node of a view, nothing else changing its ring and store
    meanwhile, and its jobs worked off. *)
Definition repair_pass (workers : Z) (v : View) : View :=
  match cl_nodes (v_cluster v) !! v_self v with
  | Some s =>
      deliver_all json_Manifest json_Status (NewEngine (SelfID s) workers) (s_Ring s)
        (repairLocalChunks (SelfID s) (Local s) (quiet (s_Ring s) (Local s))) v
  | None => v
  end.

Definition is_death (c : Call NodeCallback) : bool := match c with CallDead _ _ => true | CallAlive _ _ => false end.

(** A node at work: a heartbeat round in any order, the callbacks it starts in any order,
    and a repair pass for each death. *)
Inductive heal (workers now : Z) (cl : Cluster) (a : string) : Cluster → Prop :=
| heal_round s ids calls m calls' :
    cl_nodes cl !! a = Some s →
    ids ≡ₚ (map_to_list (peers (s_Membership s))).*1 →
    heartbeatRound ((λ id, (id, ping_answer cl (s_Membership s) id, now)) <$> ids) (s_Membership s) = (calls, m) →
    calls' ≡ₚ calls →
    heal workers now cl a
      (v_cluster (Nat.iter (length (filter is_death calls')) (repair_pass workers)
        (with_node (with_members m (foldl (run_call m) (s_Ring s) calls') s) (MkView a cl)))).

(** The survivors [L] at work: rounds of any of them, at times that do not go back. *)
Inductive heals (workers : Z) (addr : string → string) (L : gset string) : Z → Cluster → Z → Cluster → Prop :=
| heals_done t cl : heals workers addr L t cl t cl
| heals_round t now cl x cl1 t' cl' :
    x ∈ L → (t ≤ now)%Z → heal workers now cl (addr x) cl1 → heals workers addr L now cl1 t' cl' →
    heals workers addr L t cl t' cl'.

(** The node [x] holds [d] dead. *)
Definition noticed (addr : string → string) (cl : Cluster) (x d : string) : Prop :=
  ∃ s p, cl_nodes cl !! addr x = Some s ∧ peers (s_Membership s) !! d = Some p ∧ p_State p = StateDead.

(** ** Histories *)

(** An upload to the node of a view, whose queue is worked off. *)
Definition upload_at (workers : Z) (r : Request) (v : View) : View :=
  match cl_nodes (v_cluster v) !! v_self v with
  | Some s =>
      let '(rw, jobs, s') := handleUploadBlob json_Manifest r (MkResponseWriter None [] None) s in
      deliver_all json_Manifest json_Status (NewEngine (SelfID s) workers) (s_Ring s) jobs (with_node s' v)
  | None => v
  end.

(** What can become of the nodes [S0]: those left, the time, the uploads so far - to whom and
    what, newest first - and the cluster. *)
Inductive life (workers : Z) (addr : string → string) (S0 : gset string) (t0 : Z) (cl0 : Cluster) :
    gset string → Z → list (string * Request) → Cluster → Prop :=
| life_start : life workers addr S0 t0 cl0 S0 t0 [] cl0
| life_upload S t ups cl x r cs manifest :
    life workers addr S0 t0 cl0 S t ups cl → x ∈ S → blob_id r ≠ "" →
    (Z.of_nat (length (content (r_Body r))) < 2 ^ 63)%Z → Split (blob_id r) (r_Body r) DefaultSize = Ok (cs, manifest) →
    life workers addr S0 t0 cl0 S t ((x, r) :: ups) (v_cluster (upload_at workers r (MkView (addr x) cl)))
| life_outage S t ups cl D t' cl' :
    life workers addr S0 t0 cl0 S t ups cl → D ⊆ S → size D ≤ 2 → S ∖ D ≠ ∅ →
    heals workers addr (S ∖ D) t (MkCluster (cl_nodes cl) (cl_up cl ∖ set_map addr D)) t' cl' →
    (∀ x d, x ∈ S ∖ D → d ∈ D → noticed addr cl' x d) →
    life workers addr S0 t0 cl0 (S ∖ D) t' ups cl'.

(** The latest upload of a blob to a node, and the chunks of uploads. *)
Fixpoint latest (ups : list (string * Request)) (x blob : string) : option Request :=
  match ups with
  | [] => None
  | (y, r) :: ups => if decide (y = x ∧ blob_id r = blob) then Some r else latest ups x blob
  end.

Definition upload_chunks (r : Request) : list Chunk :=
  match Split (blob_id r) (r_Body r) DefaultSize with Ok (cs, _) => cs | Err _ => [] end.
Definition uploaded (ups : list (string * Request)) : list Chunk := concat ((λ u, upload_chunks u.2) <$> ups).

Lemma upload_chunks_named r c : c ∈ upload_chunks r → ck_ID c = ID (ck_Data c).
Proof.
  unfold upload_chunks. destruct (Split (blob_id r) (r_Body r) DefaultSize) as [[cs m]|] eqn:HS; [|by intros ?%elem_of_nil].
  pose proof (proj1 (Split_named _ _ _ _ _ HS)) as Hnamed. rewrite Forall_forall in Hnamed. exact (Hnamed c).
Qed.

Lemma uploaded_named ups c : c ∈ uploaded ups → ck_ID c = ID (ck_Data c).
Proof.
  unfold uploaded. induction ups as [|[x r] ups IH]; [by intros ?%elem_of_nil|].
  cbn [fmap list_fmap concat snd]. intros [Hc|Hc]%elem_of_app; [by eapply upload_chunks_named|by apply IH].
Qed.

(** ** The invariant *)

Section invariant.
Context (known : gset string) (addr : string → string).

(** A node with the ring of [R] while the nodes [U] of it are down unnoticed: its table has
    every other node under its address, alive if it is up, dead if it is not on the ring,
    and the dead were last heard of nine seconds ago. *)
Record node_ok (R U : gset string) (t : Z) (x : string) (s : node_server) : Prop := {
  no_self : SelfID s = x;
  no_ring : ring_repr (s_Ring s) R;
  no_table : table_ok (s_Membership s);
  no_tself : p_ID (self (s_Membership s)) = x;
  no_onDead : onDead (s_Membership s) = [RecHandleNodeDead];
  no_after : suspectAfter (s_Membership s) = (3 * Second)%Z ∧ deadAfter (s_Membership s) = (9 * Second)%Z;
  no_peers y p : peers (s_Membership s) !! y = Some p → y ∈ known ∧ p_Addr p = addr y ∧ (p_LastHeartbeat p ≤ t)%Z;
  no_alive y p : peers (s_Membership s) !! y = Some p → y ∈ R → y ∉ U → p_State p = StateAlive;
  no_unnoticed y p : peers (s_Membership s) !! y = Some p → y ∈ U → p_State p ≠ StateDead;
  no_dead y p : peers (s_Membership s) !! y = Some p → y ∉ R → p_State p = StateDead;
  no_long y p : peers (s_Membership s) !! y = Some p → p_State p = StateDead → (p_LastHeartbeat p + 9 * Second ≤ t)%Z;
  no_full y : y ∈ known → y ≠ x → is_Some (peers (s_Membership s) !! y);
}.

(** Nodes that have just come up: all know each other, all answer, nothing is stored. *)
Record connected (t : Z) (cl : Cluster) : Prop := {
  cn_up x : x ∈ known → addr x ∈ cl_up cl;
  cn_node x : x ∈ known → ∃ s, cl_nodes cl !! addr x = Some s ∧ node_ok known ∅ t x s ∧ manifests s = ∅;
  cn_empty a : node_data cl a = ∅;
}.

(** The index of a node has the latest upload of each blob to it, and nothing else. *)
Definition indexed (ups : list (string * Request)) (x : string) (s : node_server) : Prop :=
  ∀ blob, match latest ups x blob with
    | Some r => ∃ manifest,
        Split blob (r_Body r) DefaultSize = Ok (upload_chunks r, manifest) ∧ manifests s !! blob = Some manifest ∧
        (Z.of_nat (length (content (r_Body r))) < 2 ^ 63)%Z ∧ ∀ c, c ∈ upload_chunks r → c ∈ uploaded ups
    | None => manifests s !! blob = None
    end.

Context (cs : list Chunk).

Definition holds (cl : Cluster) (x : string) (c : Chunk) : Prop := node_data cl (addr x) !! ck_ID c = Some (ck_Data c).

(** The cluster of the survivors [S]. *)
Record sound (S : gset string) (t : Z) (ups : list (string * Request)) (cl : Cluster) : Prop := {
  sd_known : S ⊆ known;
  sd_up x : x ∈ known → addr x ∈ cl_up cl ↔ x ∈ S;
  sd_node x : x ∈ S → ∃ s, cl_nodes cl !! addr x = Some s ∧ node_ok S ∅ t x s ∧ indexed ups x s;
  sd_truthful a : truthful cs (node_data cl a);
  sd_replicated c x r : c ∈ uploaded ups → ring_repr r S → x ∈ TargetsFor r (ck_ID c) → holds cl x c;
}.

(** The same while an outage of [D] is being noticed: a survivor has the dead off its ring
    that it has noticed, and once these are all it has repaired. *)
Record mid (S D : gset string) (t : Z) (ups : list (string * Request)) (cl : Cluster) : Prop := {
  md_up x : x ∈ known → addr x ∈ cl_up cl ↔ x ∈ S ∖ D;
  md_node x : x ∈ S ∖ D → ∃ s N, cl_nodes cl !! addr x = Some s ∧ N ⊆ D ∧ node_ok (S ∖ N) (D ∖ N) t x s ∧ indexed ups x s;
  md_truthful a : truthful cs (node_data cl a);
  md_old c x r : c ∈ uploaded ups → ring_repr r S → x ∈ TargetsFor r (ck_ID c) → x ∉ D → holds cl x c;
  md_new c x y s r r' : c ∈ uploaded ups → cl_nodes cl !! addr x = Some s → x ∈ S ∖ D → ring_repr (s_Ring s) (S ∖ D) →
    ring_repr r S → x ∈ TargetsFor r (ck_ID c) → ring_repr r' (S ∖ D) → y ∈ TargetsFor r' (ck_ID c) → holds cl y c;
}.

Context (Hplain : ∀ x, x ∈ known → plain_url_part (addr x)).
Context (Haddr : ∀ x y, x ∈ known → y ∈ known → addr x = addr y → x = y).
Context (Hinj : ∀ c1 c2, c1 ∈ cs → c2 ∈ cs → ck_ID c1 = ck_ID c2 → ck_Data c1 = ck_Data c2).
Context (Hnamed : ∀ c, c ∈ cs → ck_ID c = ID (ck_Data c)).

(** *** Heartbeats *)

(** The health endpoint of a node answers 200; a node that is down does not answer. *)
Lemma health_answer cl (x : string) :
  x ∈ known → (addr x ∈ cl_up cl → is_Some (cl_nodes cl !! addr x)) →
  is_healthy (match (http_Get ("http://" +:+ addr x +:+ "/healthz") cl).1 with Ok (status, _) => Ok status | Err e => Err e end) = true
  ↔ addr x ∈ cl_up cl.
Proof.
  intros Hx Hsome. destruct (Hplain x Hx) as (Ha&Ha1&Ha2&Ha3).
  assert (parse_url ("http://" +:+ addr x +:+ "/healthz") = Some (addr x, ["healthz"])) as Hurl.
  { unfold parse_url. rewrite HasPrefix_app, !has_char_app, Ha1, Ha2, Ha3. cbn [andb orb negb has_char].
    rewrite !bool_decide_eq_false_2 by done. cbn [andb orb negb]. rewrite TrimPrefix_app.
    change (addr x +:+ "/healthz") with (addr x +:+ String "/" "healthz"). by rewrite Split_char_first. }
  unfold http_Get, heal_HTTPGetter, Cluster_HTTPGetter, request_at. rewrite Hurl. unfold serve_at.
  destruct (cl_nodes cl !! addr x) as [s|] eqn:Hs.
  - case_decide as Hup; [by cbn|]. by cbn.
  - cbn. split; [done|]. intros Hup. by destruct (Hsome Hup).
Qed.

Lemma ping_answer_spec R U t x s cl id :
  node_ok R U t x s → id ∈ known → id ≠ x → (addr id ∈ cl_up cl → is_Some (cl_nodes cl !! addr id)) →
  ping_answer cl (s_Membership s) id = true ↔ addr id ∈ cl_up cl.
Proof.
  intros Hok Hid Hne Hsome. unfold ping_answer, ping_url. destruct (no_full _ _ _ _ _ Hok id Hid Hne) as [p Hp]. rewrite Hp.
  destruct (no_peers _ _ _ _ _ Hok id p Hp) as (_&->&_). by apply health_answer.
Qed.

(** A peer that was last heard of nine seconds ago or earlier. *)
Definition overdue (m : Membership NodeCallback) (now : Z) (id : string) : bool :=
  match peers m !! id with Some p => (9 * Second <=? time_Sub now (p_LastHeartbeat p))%Z | None => false end.

(** What a ping that is not answered makes of a peer: dead if it is overdue, and announced
    dead if it was not; else it stays as it was or is suspect. *)
Lemma ping_silent (m : Membership NodeCallback) id p now :
  suspectAfter m = (3 * Second)%Z → deadAfter m = (9 * Second)%Z → onDead m = [RecHandleNodeDead] → peers m !! id = Some p →
  let q := ping_peer_state m false now p in
  p_Addr q = p_Addr p ∧ p_LastHeartbeat q = p_LastHeartbeat p ∧ (overdue m now id = true → p_State q = StateDead) ∧
  (overdue m now id = false → p_State p ≠ StateDead → p_State q ≠ StateDead) ∧
  (p_State p ≠ StateDead → (pingPeer id false now m).1 = if overdue m now id then [CallDead RecHandleNodeDead id] else []) ∧
  (p_State p = StateDead → p_State q = StateDead → (pingPeer id false now m).1 = []).
Proof.
  intros Hs Hd Hon Hp q. unfold overdue, pingPeer. rewrite Hp. cbn [fst]. fold q. rewrite Hon. cbn [fmap list_fmap].
  assert (p_Addr q = p_Addr p ∧ p_LastHeartbeat q = p_LastHeartbeat p ∧
    ((9 * Second <=? time_Sub now (p_LastHeartbeat p))%Z = true → p_State q = StateDead) ∧
    ((9 * Second <=? time_Sub now (p_LastHeartbeat p))%Z = false → p_State p ≠ StateDead → p_State q ≠ StateDead)) as (H1&H2&H3&H4).
  { unfold q, ping_peer_state. rewrite Hd, Hs. case_match; [done|]. by case_match. }
  split_and!; [done..| |].
  - intros Hpd. destruct (Z.leb _ _) eqn:Hover.
    + rewrite (decide_True (P := p_State p ≠ StateDead ∧ _)) by (split; [done|by apply H3]).
      by rewrite decide_False by naive_solver.
    + rewrite (decide_False (P := p_State p ≠ StateDead ∧ _)) by (intros [_ ?]; by apply H4).
      by rewrite decide_False by naive_solver.
  - intros Hpd Hqd. rewrite !decide_False; [done| |]; rewrite ?Hpd, ?Hqd; naive_solver.
Qed.

(** One that is answered by a peer that is alive. *)
Lemma ping_answered (m : Membership NodeCallback) id p now :
  peers m !! id = Some p → p_State p = StateAlive →
  ping_peer_state m true now p = MkPeer (p_ID p) (p_Addr p) StateAlive now ∧ (pingPeer id true now m).1 = [].
Proof. intros Hp Hs. unfold pingPeer. rewrite Hp. cbn. by rewrite Hs. Qed.

Lemma overdue_time (m : Membership NodeCallback) now id p :
  peers m !! id = Some p → overdue m now id = true → (p_LastHeartbeat p + 9 * Second ≤ now)%Z.
Proof. unfold overdue. intros ->. unfold time_Sub, Second, min_int64, max_int64. lia. Qed.

Lemma time_overdue (m : Membership NodeCallback) now id p :
  peers m !! id = Some p → (p_LastHeartbeat p + 9 * Second ≤ now)%Z → overdue m now id = true.
Proof. unfold overdue. intros ->. unfold time_Sub, Second, min_int64, max_int64. lia. Qed.

(** The callbacks of deaths, in any order. *)
Lemma run_deaths (m : Membership NodeCallback) r S l :
  ring_repr r S → (∀ c, c ∈ l → ∃ id, c = CallDead RecHandleNodeDead id) →
  ring_repr (foldl (run_call m) r l) (S ∖ list_to_set (call_id <$> l)).
Proof.
  revert r S. induction l as [|c l IH]; intros r S Hr Hl.
  - cbn. by rewrite difference_empty_L.
  - destruct (Hl c) as [id ->]; [by left|]. cbn [foldl fmap list_fmap list_to_set foldr call_id].
    change (run_call m r (CallDead RecHandleNodeDead id)) with (RemoveNode r id).
    rewrite <-difference_difference_l_L. apply IH; [by apply ring_repr_RemoveNode|]. intros c Hc. apply Hl. by right.
Qed.

(** *** A round *)

Section notice.
Context (R U : gset string) (t now : Z) (x : string) (s : node_server) (ids : list string) (ans : string → bool).
Context (Hok : node_ok R U t x s) (HR : R ⊆ known) (HU : U ⊆ R) (HxU : x ∉ U) (Hnow : (t ≤ now)%Z).
Context (Hans : ∀ id, id ∈ known → id ≠ x → ans id = true ↔ id ∈ R ∖ U).
Context (Hids : ids ≡ₚ (map_to_list (peers (s_Membership s))).*1).

(** Those of [U] that the round finds dead. *)
Definition found : gset string := filter (λ id, overdue (s_Membership s) now id = true) U.

Lemma elem_of_found id : id ∈ found ↔ overdue (s_Membership s) now id = true ∧ id ∈ U.
Proof. unfold found. by rewrite elem_of_filter. Qed.

Lemma round_ids id : id ∈ ids ↔ is_Some (peers (s_Membership s) !! id).
Proof.
  rewrite Hids, list_elem_of_fmap. split.
  - intros ([? p]&->&Hp%elem_of_map_to_list). eauto.
  - intros [p Hp]. exists (id, p). by rewrite elem_of_map_to_list.
Qed.

Lemma peer_not_self id p : peers (s_Membership s) !! id = Some p → id ≠ x.
Proof.
  intros Hp ->. destruct (no_table _ _ _ _ _ Hok) as [Hnone _]. rewrite (no_tself _ _ _ _ _ Hok) in Hnone. congruence.
Qed.

(** What the round makes of a peer. *)
Lemma round_peer id p :
  peers (s_Membership s) !! id = Some p →
  let q := ping_peer_state (s_Membership s) (ans id) now p in
  p_Addr q = addr id ∧ (p_LastHeartbeat q ≤ now)%Z ∧ (id ∈ R → id ∉ U → p_State q = StateAlive) ∧
  (id ∈ U → id ∉ found → p_State q ≠ StateDead) ∧ (id ∉ R ∨ id ∈ found → p_State q = StateDead) ∧
  (p_State q = StateDead → (p_LastHeartbeat q + 9 * Second ≤ now)%Z) ∧
  (pingPeer id (ans id) now (s_Membership s)).1 = if decide (id ∈ found) then [CallDead RecHandleNodeDead id] else [].
Proof.
  intros Hp q. destruct (no_peers _ _ _ _ _ Hok id p Hp) as (Hid&Ha&Ht). destruct (no_after _ _ _ _ _ Hok) as [Hsus Hdead].
  specialize (Hans id Hid (peer_not_self id p Hp)).
  pose proof (elem_of_found id) as Hfound.
  destruct (decide (id ∈ R ∖ U)) as [Hup|Hdown].
  - assert (ans id = true) as Htrue by by apply Hans. apply elem_of_difference in Hup as [HidR HidU].
    destruct (ping_answered (s_Membership s) id p now Hp) as [Hq Hcalls]; [by eapply no_alive|].
    unfold q. rewrite Htrue, Hq, Hcalls. rewrite decide_False by tauto. cbn. split_and!; try done; try lia; naive_solver.
  - assert (ans id = false) as Hfalse by (apply not_true_iff_false; by rewrite Hans).
    destruct (ping_silent (s_Membership s) id p now Hsus Hdead (no_onDead _ _ _ _ _ Hok) Hp) as (H1&H2&H3&H4&H5&H6).
    unfold q. rewrite Hfalse. assert (id ∈ U ∨ id ∉ R) as [HidU|HidR] by (destruct (decide (id ∈ U)); set_solver).
    + pose proof (no_unnoticed _ _ _ _ _ Hok id p Hp HidU) as Hnd. rewrite H1, H2, H5 by done. specialize (HU id HidU).
      destruct (overdue (s_Membership s) now id) eqn:Hover.
      * rewrite decide_True by by apply Hfound. pose proof (overdue_time _ _ _ _ Hp Hover).
        split_and!; try done; try lia; naive_solver.
      * rewrite decide_False by (by intros [? _]%Hfound). split_and!; try done; try lia; [naive_solver..| |].
        -- intros [?|[? _]%Hfound]; done.
        -- intros Hq. by destruct (H4 eq_refl Hnd).
    + pose proof (no_dead _ _ _ _ _ Hok id p Hp HidR) as Hpd. pose proof (no_long _ _ _ _ _ Hok id p Hp Hpd) as Hlong.
      assert (overdue (s_Membership s) now id = true) as Hover by (eapply time_overdue; [exact Hp|lia]).
      rewrite H1, H2, H6 by auto. assert (id ∉ U) as HidU by set_solver. rewrite decide_False by tauto.
      split_and!; try done; try lia; naive_solver.
Qed.

Lemma round_calls call :
  call ∈ (heartbeatRound ((λ id, (id, ans id, now)) <$> ids) (s_Membership s)).1 ↔
  ∃ id, id ∈ found ∧ call = CallDead RecHandleNodeDead id.
Proof.
  assert (NoDup ids) as Hnd by (rewrite Hids; apply NoDup_fst_map_to_list).
  destruct (round_spec ids ans now (s_Membership s) Hnd) as (_&_&_&->).
  rewrite list_elem_of_In, in_concat. split.
  - intros (l&Hl&Hc). apply list_elem_of_In, list_elem_of_fmap in Hl as (id&->&Hid). apply list_elem_of_In in Hc.
    apply round_ids in Hid as [p Hp]. destruct (round_peer id p Hp) as (_&_&_&_&_&_&Hcalls). rewrite Hcalls in Hc.
    case_decide; [|by apply elem_of_nil in Hc]. exists id. split; [done|]. by apply list_elem_of_singleton in Hc.
  - intros (id&Hid&->). exists [CallDead RecHandleNodeDead id]. split; [|by left].
    pose proof Hid as [_ HidU]%elem_of_found. assert (id ≠ x) as Hne by (intros ->; done).
    destruct (no_full _ _ _ _ _ Hok id (HR _ (HU _ HidU)) Hne) as [p Hp].
    destruct (round_peer id p Hp) as (_&_&_&_&_&_&Hcalls). rewrite decide_True in Hcalls by done. rewrite <-Hcalls.
    apply list_elem_of_In, (list_elem_of_fmap_2 (λ id, (pingPeer id (ans id) now (s_Membership s)).1)).
    apply round_ids. eauto.
Qed.

(** After the round and its callbacks the node has those off its ring that it found dead,
    and has started a pass if there are any. *)
Lemma notice calls m calls' :
  heartbeatRound ((λ id, (id, ans id, now)) <$> ids) (s_Membership s) = (calls, m) → calls' ≡ₚ calls →
  node_ok (R ∖ found) (U ∖ found) now x (with_members m (foldl (run_call m) (s_Ring s) calls') s) ∧
  (found = ∅ ↔ filter is_death calls' = []).
Proof.
  intros Hrun Hperm. assert (NoDup ids) as Hnd by (rewrite Hids; apply NoDup_fst_map_to_list).
  pose proof (round_spec ids ans now (s_Membership s) Hnd) as (Hcfg&Htab&Hp&_). pose proof round_calls as Hcalls.
  rewrite Hrun in Hcfg, Htab, Hp, Hcalls. cbn [fst snd] in *. destruct Hcfg as (Hself&Hsus&Hdead&HoD&HoA).
  assert (∀ c, c ∈ calls' ↔ ∃ id, id ∈ found ∧ c = CallDead RecHandleNodeDead id) as Hcalls' by (intros c; by rewrite Hperm).
  assert (∀ y q, peers m !! y = Some q → ∃ p, peers (s_Membership s) !! y = Some p ∧ q = ping_peer_state (s_Membership s) (ans y) now p)
    as Hpeer.
  { intros y q. rewrite Hp. destruct (peers (s_Membership s) !! y) as [p|] eqn:Hy; [|by case_decide].
    rewrite decide_True by (apply round_ids; eauto). intros [= <-]. by exists p. }
  assert (found ⊆ U) as HfU by (intros id [_ ?]%elem_of_found; done).
  split.
  - split; cbn [with_members SelfID s_Ring s_Membership].
    + exact (no_self _ _ _ _ _ Hok).
    + replace (R ∖ found) with (R ∖ list_to_set (call_id <$> calls')).
      * apply run_deaths; [exact (no_ring _ _ _ _ _ Hok)|]. intros c (id&_&->)%Hcalls'. eauto.
      * f_equal. apply set_eq. intros id. rewrite elem_of_list_to_set, list_elem_of_fmap. split.
        -- by intros (c&->&(id'&Hid&->)%Hcalls').
        -- intros Hid. exists (CallDead RecHandleNodeDead id). split; [done|]. apply Hcalls'. eauto.
    + exact (Htab (no_table _ _ _ _ _ Hok)).
    + rewrite Hself. exact (no_tself _ _ _ _ _ Hok).
    + rewrite HoD. exact (no_onDead _ _ _ _ _ Hok).
    + rewrite Hsus, Hdead. exact (no_after _ _ _ _ _ Hok).
    + intros y q (p&Hy&->)%Hpeer. destruct (round_peer y p Hy) as (Ha&Ht&_). split_and!; [|done|done].
      by destruct (no_peers _ _ _ _ _ Hok y p Hy).
    + intros y q (p&Hy&->)%Hpeer HyR HyU. destruct (round_peer y p Hy) as (_&_&Halive&_). apply Halive; set_solver.
    + intros y q (p&Hy&->)%Hpeer HyU. destruct (round_peer y p Hy) as (_&_&_&Hun&_). apply Hun; set_solver.
    + intros y q (p&Hy&->)%Hpeer HyR. destruct (round_peer y p Hy) as (_&_&_&_&Hd&_). apply Hd.
      destruct (decide (y ∈ found)); set_solver.
    + intros y q (p&Hy&->)%Hpeer Hst. destruct (round_peer y p Hy) as (_&_&_&_&_&Hlong&_). by apply Hlong.
    + intros y Hy Hne. destruct (no_full _ _ _ _ _ Hok y Hy Hne) as [p Hpy]. rewrite Hp, Hpy. case_decide; cbn; eauto.
  - assert (∀ id, id ∈ found ↔ CallDead RecHandleNodeDead id ∈ filter is_death calls') as Hin.
    { intros id. rewrite list_elem_of_filter, Hcalls'. naive_solver. }
    split.
    + intros Hempty. destruct (filter is_death calls') as [|c l] eqn:Hf; [done|].
      assert (c ∈ filter is_death calls') as Hc by (rewrite Hf; by left).
      pose proof Hc as [_ (id&Hid&->)%Hcalls']%list_elem_of_filter. set_solver.
    + intros Hnil. apply elem_of_equiv_empty_L. intros id Hid%Hin. rewrite Hnil in Hid. by apply elem_of_nil in Hid.
Qed.
End notice.
(** *** Deliveries *)

Section deliver.
Context (R U L : gset string) (t : Z) (x : string) (s : node_server) (workers : Z).
Context (Hok : node_ok R U t x s) (HL : L ⊆ known).

(** A view of the node [x] from which every node of [L] answers. *)
Definition view_ok (v : View) : Prop :=
  v_self v = addr x ∧ (∃ l, cl_nodes (v_cluster v) !! addr x = Some (set_Local l s)) ∧
  (∀ y, y ∈ L → addr y ∈ cl_up (v_cluster v) ∧ is_Some (cl_nodes (v_cluster v) !! addr y)) ∧
  ∀ a, truthful cs (node_data (v_cluster v) a).

Lemma view_after cl :
  (∀ y, y ∈ L → addr y ∈ cl_up cl ∧ is_Some (cl_nodes cl !! addr y)) →
  (∀ a, truthful cs (node_data (v_cluster (with_node s (MkView (addr x) cl))) a)) →
  view_ok (with_node s (MkView (addr x) cl)).
Proof.
  intros Hup Htr. split; [done|]. split; [exists (Local s); rewrite set_Local_same; apply lookup_insert_eq|]. split; [|exact Htr].
  intros y Hy. destruct (Hup y Hy) as [? Hsy]. split; [done|]. cbn.
  destruct (decide (addr x = addr y)) as [->|Hne]; [rewrite lookup_insert_eq; eauto|by rewrite lookup_insert_ne].
Qed.

Lemma view_address v y : view_ok v → y ∈ L → y ≠ x → AddrFor y v = Some (addr y).
Proof.
  intros (Hself&(l&Hl)&_&_) Hy Hne. unfold AddrFor, View_AddrResolver. rewrite Hself, Hl. cbn.
  destruct (no_full _ _ _ _ _ Hok y (HL _ Hy) Hne) as [p Hp].
  rewrite (proj1 (address_lookups (s_Membership s) y (no_table _ _ _ _ _ Hok))), Hp. cbn. f_equal.
  by destruct (no_peers _ _ _ _ _ Hok y p Hp) as (_&?&_).
Qed.

Lemma view_reachable v y : view_ok v → y ∈ L → y ≠ x → reachable v y.
Proof.
  intros Hv Hy Hne. exists (addr y). split; [by apply view_address|]. destruct Hv as (_&_&Hup&_).
  split_and!; [apply Hplain, HL, Hy|by apply Hup..].
Qed.

Lemma deliver_ok jobs v :
  view_ok v → (∀ job, job ∈ jobs → honest cs job) →
  let v' := deliver_all json_Manifest json_Status (NewEngine (SelfID s) workers) (s_Ring s) jobs v in
  same_nodes v v' ∧ view_ok v' ∧ (∀ c y, c ∈ cs → holds (v_cluster v) y c → holds (v_cluster v') y c) ∧
  (R ⊆ L → ∀ c y, c ∈ cs → job_of_chunk c ∈ jobs → y ∈ TargetsFor (s_Ring s) (ck_ID c) → y ≠ x → holds (v_cluster v') y c).
Proof.
  intros Hv Hjobs v'. pose proof (deliver_same json_Manifest json_Status (NewEngine (SelfID s) workers) (s_Ring s) jobs v) as Hsame.
  pose proof (no_ring _ _ _ _ _ Hok) as Hring. pose proof (no_self _ _ _ _ _ Hok) as Hx.
  pose proof Hv as (Hself&(l&Hl)&Hup&Htr).
  destruct (deliver_jobs_spec json_Manifest json_Status cs (NewEngine (SelfID s) workers) (s_Ring s) Hinj Hnamed jobs v Hjobs Htr)
    as (Htr'&Hkeep&Hdel).
  fold v' in Htr', Hkeep, Hdel, Hsame. pose proof Hsame as (Hself'&Hup'&Hnodes). split; [exact Hsame|]. split.
  - split; [congruence|]. split; [destruct (Hnodes _ _ Hl) as [l' Hl']; by exists l'|]. split; [|exact Htr'].
    intros y Hy. rewrite Hup'. destruct (Hup y Hy) as [? [sy Hsy]]. split; [done|]. destruct (Hnodes _ _ Hsy) as [? ->]. eauto.
  - split; [intros c y Hc; by apply Hkeep|]. intros HRL c y Hc Hj Hy Hne.
    apply Hdel with (n := y); [|done|done|done|cbn; congruence|apply view_address; [done|by eapply HRL, GetN_members|done]].
    intros job n _ Hn Hne'. apply view_reachable; [done|by eapply HRL, GetN_members|]. cbn in Hne'. congruence.
Qed.

(** A pass hands every chunk that the node holds and is responsible for to the whole of
    its replica set, if that is up. *)
Lemma repair_pass_spec v :
  view_ok v →
  let v' := repair_pass workers v in
  same_nodes v v' ∧ view_ok v' ∧ (∀ c y, c ∈ cs → holds (v_cluster v) y c → holds (v_cluster v') y c) ∧
  (R ⊆ L → ∀ c y, c ∈ cs → holds (v_cluster v) x c → x ∈ TargetsFor (s_Ring s) (ck_ID c) →
    y ∈ TargetsFor (s_Ring s) (ck_ID c) → holds (v_cluster v') y c).
Proof.
  intros Hv. pose proof Hv as (Hself&(l&Hl)&_&Htr). unfold repair_pass. rewrite Hself, Hl. cbn [set_Local SelfID s_Ring Local].
  assert (node_data (v_cluster v) (addr x) = data l) as Hdata by (unfold node_data; by rewrite Hl).
  assert (∀ job, job ∈ repairLocalChunks (SelfID s) l (quiet (s_Ring s) l) ↔
    SelfID s ∈ TargetsFor (s_Ring s) (j_ChunkID job) ∧ data l !! j_ChunkID job = Some (j_Data job)) as Hrepair
    by (intros job; by apply repair_quiet).
  destruct (deliver_ok (repairLocalChunks (SelfID s) l (quiet (s_Ring s) l)) v Hv) as (Hsame&Hv'&Hkeep&Hdel).
  { intros job [_ Hjob]%Hrepair c Hc Heq. pose proof (Htr (addr x)) as Ht. rewrite Hdata in Ht. symmetry.
    apply (Ht c); [done|]. by rewrite Heq. }
  split; [exact Hsame|]. split; [exact Hv'|]. split; [exact Hkeep|].
  intros HRL c y Hc Hx Hxt Hyt. destruct (decide (y = x)) as [->|Hne]; [by apply Hkeep|].
  apply Hdel; [done|done| |done|done]. apply Hrepair. cbn [job_of_chunk j_ChunkID j_Data].
  rewrite (no_self _ _ _ _ _ Hok). split; [done|]. unfold holds in Hx. by rewrite Hdata in Hx.
Qed.

(** Any number of passes keeps what there is; one is enough. *)
Lemma repair_passes k v :
  view_ok v →
  let v' := Nat.iter k (repair_pass workers) v in
  same_nodes v v' ∧ view_ok v' ∧ (∀ c y, c ∈ cs → holds (v_cluster v) y c → holds (v_cluster v') y c) ∧
  (k ≠ 0 → R ⊆ L → ∀ c y, c ∈ cs → holds (v_cluster v) x c → x ∈ TargetsFor (s_Ring s) (ck_ID c) →
    y ∈ TargetsFor (s_Ring s) (ck_ID c) → holds (v_cluster v') y c).
Proof.
  intros Hv. cbn zeta. induction k as [|k (Hsame&Hvk&Hkeep&_)]; [split_and!; [apply same_nodes_refl|done..]|].
  change (Nat.iter (Datatypes.S k) (repair_pass workers) v) with (repair_pass workers (Nat.iter k (repair_pass workers) v)).
  destruct (repair_pass_spec _ Hvk) as (Hsame1&Hv1&Hkeep1&Hnew). split; [by etrans|]. split; [exact Hv1|]. split.
  - intros c y Hc Hy. by apply Hkeep1, Hkeep.
  - intros _ HRL c y Hc Hx. by apply Hnew, Hkeep.
Qed.
End deliver.

(** *** Outages *)

Lemma node_ok_later R U t t' x s : (t ≤ t')%Z → node_ok R U t x s → node_ok R U t' x s.
Proof.
  intros Ht [? ? ? ? ? ? Hp ? ? ? Hl ?]. split; [done..| |done|done|done| |done].
  - intros y p Hy. destruct (Hp y p Hy) as (?&?&?). split_and!; [done|done|lia].
  - intros y p Hy Hd. specialize (Hl y p Hy Hd). lia.
Qed.

Lemma node_ok_local R U t x s l : node_ok R U t x s → node_ok R U t x (set_Local l s).
Proof. by intros []. Qed.

Lemma with_node_data s s' cl a b :
  cl_nodes cl !! a = Some s → Local s' = Local s → node_data (v_cluster (with_node s' (MkView a cl))) b = node_data cl b.
Proof.
  intros Hs Hl. unfold node_data. cbn. destruct (decide (b = a)) as [->|Hne]; [by rewrite lookup_insert_eq, Hs, Hl|].
  by rewrite lookup_insert_ne.
Qed.

Section outage.
Context (S D : gset string) (ups : list (string * Request)) (workers : Z).
Context (HS : S ⊆ known) (HD : D ⊆ S) (Hups : ∀ c, c ∈ uploaded ups → c ∈ cs).

Lemma survivor_known x : x ∈ S ∖ D → x ∈ known.
Proof. set_solver. Qed.

(** The start of the outage. *)
Lemma mid_start t cl : sound S t ups cl → mid S D t ups (MkCluster (cl_nodes cl) (cl_up cl ∖ set_map addr D)).
Proof.
  intros [_ Hup Hnode Htr Hrep]. split.
  - intros x Hx. cbn [cl_up]. rewrite elem_of_difference, Hup, elem_of_map, elem_of_difference by done. split.
    + intros [Hin Hno]. split; [done|]. intros HxD. apply Hno. by exists x.
    + intros [Hin Hno]. split; [done|]. intros (y&Heq&HyD). apply Hno. by rewrite (Haddr x y) by (done || set_solver).
  - intros x Hx. apply elem_of_difference in Hx as [Hx _]. destruct (Hnode x Hx) as (s&Hs&Hok&Hidx). exists s, ∅.
    rewrite !difference_empty_L. split; [exact Hs|]. split; [set_solver|]. split; [|exact Hidx].
    destruct Hok as [? ? ? ? ? ? ? Ha ? ? ? ?]. split; [done..| | |done|done|done].
    + intros y q Hy HyS _. apply (Ha y q Hy HyS). set_solver.
    + intros y q Hy HyD. rewrite (Ha y q Hy) by set_solver. done.
  - intros a. exact (Htr a).
  - intros c x r Hc Hr Hx _. exact (Hrep c x r Hc Hr Hx).
  - intros c x y s r r' Hc Hs Hx Hr Hr0 _ Hr' Hy. cbn [cl_nodes] in Hs. apply elem_of_difference in Hx as [Hx _].
    destruct (Hnode x Hx) as (s0&Hs0&Hok&_). rewrite Hs in Hs0. injection Hs0 as <-.
    assert (S = S ∖ D) as HSD by (eapply ring_repr_inj; [exact (no_ring _ _ _ _ _ Hok)|exact Hr]).
    rewrite <-HSD in Hr'. exact (Hrep c y r' Hc Hr' Hy).
Qed.

(** Its end, when every survivor has noticed. *)
Lemma mid_end t cl r :
  ring_repr r S → S ∖ D ≠ ∅ → size D ≤ 2 → (∀ x d, x ∈ S ∖ D → d ∈ D → noticed addr cl x d) → mid S D t ups cl →
  sound (S ∖ D) t ups cl.
Proof.
  intros Hr Hne Hsize Hnoticed [Hup Hnode Htr _ Hnew].
  assert (∀ x, x ∈ S ∖ D → ∃ s, cl_nodes cl !! addr x = Some s ∧ node_ok (S ∖ D) ∅ t x s ∧ indexed ups x s) as Hnode'.
  { intros x Hx. destruct (Hnode x Hx) as (s&N&Hs&HN&Hok&Hidx). exists s. split; [exact Hs|]. split; [|exact Hidx].
    assert (N = D) as ->; [|by rewrite difference_diag_L in Hok].
    apply set_eq. intros d. split; [apply HN|]. intros Hd. destruct (decide (d ∈ N)) as [|HdN]; [done|exfalso].
    destruct (Hnoticed x d Hx Hd) as (s'&p&Hs'&Hp&Hdead). rewrite Hs in Hs'. injection Hs' as <-.
    by eapply (no_unnoticed _ _ _ _ _ Hok d p Hp); [set_solver|]. }
  split; [set_solver|exact Hup|exact Hnode'|exact Htr|].
  intros c y r' Hc Hr' Hy. destruct (target_survives r S D (ck_ID c) Factor Hr) as (x&Hx&HxD); [unfold Factor; lia| |].
  { apply set_choose_L in Hne as [x0 Hx0]. exists x0. set_solver. }
  assert (x ∈ S ∖ D) as HxS by (apply elem_of_difference; split; [by eapply GetN_members|done]).
  destruct (Hnode' x HxS) as (s&Hs&Hok&_). by apply (Hnew c x y s r r' Hc Hs HxS (no_ring _ _ _ _ _ Hok) Hr).
Qed.

(** The nodes after one of them has replaced itself and delivered. *)
Lemma mid_nodes t t' cl x s' N v1 :
  mid S D t ups cl → (t ≤ t')%Z → x ∈ S ∖ D → N ⊆ D → node_ok (S ∖ N) (D ∖ N) t' x s' → indexed ups x s' →
  same_nodes (with_node s' (MkView (addr x) cl)) v1 →
  ∀ y, y ∈ S ∖ D → ∃ s N, cl_nodes (v_cluster v1) !! addr y = Some s ∧ N ⊆ D ∧ node_ok (S ∖ N) (D ∖ N) t' y s ∧ indexed ups y s.
Proof.
  intros Hmid Ht Hx HN Hok' Hidx (_&_&Hnodes) y Hy. destruct (decide (y = x)) as [->|Hne].
  - destruct (Hnodes (addr x) s') as [l Hl]; [apply lookup_insert_eq|]. exists (set_Local l s'), N.
    split; [exact Hl|]. split; [exact HN|]. split; [by apply node_ok_local|exact Hidx].
  - destruct (md_node _ _ _ _ _ Hmid y Hy) as (sy&Ny&Hsy&HNy&Hoky&Hidxy). destruct (Hnodes (addr y) sy) as [l Hl].
    { cbn. rewrite lookup_insert_ne; [done|]. intros Heq. apply Hne. symmetry. by apply Haddr; [apply survivor_known..|]. }
    exists (set_Local l sy), Ny. split; [exact Hl|]. split; [exact HNy|]. split; [|exact Hidxy].
    apply node_ok_local. by eapply node_ok_later.
Qed.

(** What one survivor's work comes to: it has noticed [F] besides [N], all of them after
    nine seconds, and if there are any and it sees the survivors, repaired. *)
Lemma heal_facts t now cl x cl1 :
  mid S D t ups cl → x ∈ S ∖ D → (t ≤ now)%Z → heal workers now cl (addr x) cl1 →
  ∃ s s' N F v1, cl1 = v_cluster v1 ∧ cl_nodes cl !! addr x = Some s ∧ N ⊆ D ∧ F ⊆ D ∖ N ∧
    ring_repr (s_Ring s) (S ∖ N) ∧ indexed ups x s' ∧ node_ok (S ∖ (N ∪ F)) (D ∖ (N ∪ F)) now x s' ∧
    (t + 9 * Second ≤ now → D ⊆ N ∪ F)%Z ∧
    same_nodes (with_node s' (MkView (addr x) cl)) v1 ∧ (∀ a, truthful cs (node_data cl1 a)) ∧
    (∀ c y, c ∈ cs → holds cl y c → holds cl1 y c) ∧
    (F ≠ ∅ → S ∖ (N ∪ F) ⊆ S ∖ D → ∀ c y, c ∈ cs → holds cl x c → x ∈ TargetsFor (s_Ring s') (ck_ID c) →
      y ∈ TargetsFor (s_Ring s') (ck_ID c) → holds cl1 y c).
Proof.
  intros Hmid Hx Hnow Hheal. pose proof Hmid as [Hup Hnode Htr _ _].
  destruct Hheal as [s ids calls m calls' Hs Hids Hrun Hperm].
  destruct (Hnode x Hx) as (s0&N&Hs0&HN&Hok&Hidx). rewrite Hs in Hs0. injection Hs0 as <-.
  assert ((S ∖ N) ∖ (D ∖ N) = S ∖ D) as Hlive.
  { apply set_eq. intros y. rewrite !elem_of_difference. destruct (decide (y ∈ N)); set_solver. }
  assert (∀ id, id ∈ known → id ≠ x → ping_answer cl (s_Membership s) id = true ↔ id ∈ (S ∖ N) ∖ (D ∖ N)) as Hans.
  { intros id Hid Hne. rewrite Hlive, <-Hup by done. eapply ping_answer_spec; [exact Hok|done|done|].
    intros Hidup. apply Hup, Hnode in Hidup as (sy&?&->&_); [eauto|done]. }
  destruct (notice (S ∖ N) (D ∖ N) t now x s ids _ Hok ltac:(set_solver) ltac:(set_solver) ltac:(set_solver) Hnow Hans Hids calls m calls'
    Hrun Hperm) as [Hok' Hpasses].
  set (F := found (D ∖ N) now s) in *. set (s' := with_members _ _ s) in *. rewrite !difference_difference_l_L in Hok'.
  set (v0 := with_node s' (MkView (addr x) cl)).
  assert (∀ a, node_data (v_cluster v0) a = node_data cl a) as Hdata by (intros a; by apply (with_node_data s)).
  assert (view_ok (S ∖ D) x s' v0) as Hv0.
  { apply view_after; [|intros a; rewrite Hdata; apply Htr].
    intros y Hy. split; [by apply Hup; [apply survivor_known|]|]. destruct (Hnode y Hy) as (sy&?&->&_). eauto. }
  destruct (repair_passes _ _ (S ∖ D) now x s' workers Hok' (λ y Hy, survivor_known y Hy) (length (filter is_death calls')) v0 Hv0)
    as (Hsame&(_&_&_&Htr1)&Hkeep1&Hnew1).
  unfold holds in Hkeep1, Hnew1. setoid_rewrite Hdata in Hkeep1. setoid_rewrite Hdata in Hnew1.
  exists s, s', N, F, (Nat.iter (length (filter is_death calls')) (repair_pass workers) v0).
  split; [done|]. split; [exact Hs|]. split; [exact HN|]. split; [by intros d [_ ?]%elem_of_found|].
  split; [exact (no_ring _ _ _ _ _ Hok)|]. split; [exact Hidx|]. split; [exact Hok'|]. split.
  { intros Hlate d Hd. destruct (decide (d ∈ N)) as [|HdN]; [by apply elem_of_union_l|]. apply elem_of_union_r, elem_of_found.
    split; [|set_solver]. destruct (no_full _ _ _ _ _ Hok d) as [p Hp]; [set_solver|set_solver|].
    destruct (no_peers _ _ _ _ _ Hok d p Hp) as (_&_&Ht). eapply time_overdue; [exact Hp|lia]. }
  split; [exact Hsame|]. split; [exact Htr1|]. split; [exact Hkeep1|].
  intros HFne. apply Hnew1. intros Hlen. apply HFne, Hpasses. by apply nil_length_inv.
Qed.

Lemma mid_heal t now cl x cl1 :
  mid S D t ups cl → x ∈ S ∖ D → (t ≤ now)%Z → heal workers now cl (addr x) cl1 → mid S D now ups cl1.
Proof.
  intros Hmid Hx Hnow Hheal. pose proof Hmid as [Hup Hnode _ Hold Hnew].
  destruct (heal_facts t now cl x cl1 Hmid Hx Hnow Hheal) as (s&s'&N&F&v1&->&Hs&HN&HF&Hring&Hidx&Hok'&_&Hsame&Htr1&Hkeep&Hrep).
  split.
  - intros y Hy. destruct Hsame as (_&->&_). by apply Hup.
  - apply (mid_nodes t now cl x s' (N ∪ F)); [done|done|done|set_solver|exact Hok'|exact Hidx|exact Hsame].
  - exact Htr1.
  - intros c y r Hc Hr Hy HyD. apply Hkeep; [by apply Hups|]. by apply (Hold c y r).
  - intros c z y sz r r' Hc Hsz Hz Hrz Hr Hzt Hr' Hy. destruct Hsame as (_&_&Hnodes). pose proof (Hups c Hc) as Hcs.
    destruct (decide (z = x)) as [->|Hzx].
    + destruct (Hnodes (addr x) s') as [l Hl]; [apply lookup_insert_eq|]. rewrite Hl in Hsz. injection Hsz as <-.
      change (s_Ring (set_Local l s')) with (s_Ring s') in Hrz.
      pose proof (ring_repr_inj _ _ _ (no_ring _ _ _ _ _ Hok') Hrz) as HSD.
      destruct (decide (F = ∅)) as [HF0|HFne].
      * apply Hkeep; [done|]. apply (Hnew c x y s r r'); try done. by rewrite <-HSD, HF0, (right_id_L ∅ (∪)).
      * rewrite (ring_repr_unique r' (s_Ring s') _ Hr' Hrz) in Hy. apply Hrep; [done|by rewrite HSD|done| | |exact Hy].
        -- apply (Hold c x r Hc Hr Hzt). set_solver.
        -- eapply survivors_stay; [exact Hr|exact Hrz|set_solver|exact Hzt|exact Hx].
    + apply Hkeep; [done|]. destruct (Hnode z Hz) as (sz0&Nz&Hsz0&_). apply (Hnew c z y sz0 r r'); try done.
      destruct (Hnodes (addr z) sz0) as [l Hl]; [|rewrite Hl in Hsz; by injection Hsz as <-].
      cbn. rewrite lookup_insert_ne; [done|]. intros Heq. apply Hzx. symmetry. by apply Haddr; [apply survivor_known..|].
Qed.

(** Nine seconds after the others were last heard of, a round notices all the dead; and what
    others have noticed stays. *)
Lemma heal_notices t now cl x cl1 :
  mid S D t ups cl → x ∈ S ∖ D → (t ≤ now)%Z → heal workers now cl (addr x) cl1 →
  (t + 9 * Second ≤ now → ∀ d, d ∈ D → noticed addr cl1 x d)%Z ∧
  ∀ z d, z ∈ S ∖ D → z ≠ x → noticed addr cl z d → noticed addr cl1 z d.
Proof.
  intros Hmid Hx Hnow Hheal.
  destruct (heal_facts t now cl x cl1 Hmid Hx Hnow Hheal) as (s&s'&N&F&v1&->&Hs&_&_&_&_&Hok'&Hall&(_&_&Hnodes)&_). split.
  - intros Hlate d Hd. specialize (Hall Hlate d Hd). destruct (Hnodes (addr x) s') as [l Hl]; [apply lookup_insert_eq|].
    destruct (no_full _ _ _ _ _ Hok' d) as [p Hp]; [set_solver|set_solver|]. exists (set_Local l s'), p.
    split; [exact Hl|]. split; [exact Hp|]. apply (no_dead _ _ _ _ _ Hok' d p Hp). set_solver.
  - intros z d Hz Hzx (sz&p&Hsz&Hp&Hdead). destruct (Hnodes (addr z) sz) as [l Hl]; [|by exists (set_Local l sz), p].
    cbn. rewrite lookup_insert_ne; [done|]. intros Heq. apply Hzx. symmetry. by apply Haddr; [apply survivor_known..|].
Qed.

(** So the survivors can notice, each by a round of its own. *)
Lemma mid_heals_exists order t cl :
  mid S D t ups cl → NoDup order → (∀ x, x ∈ order → x ∈ S ∖ D) →
  ∃ t' cl', heals workers addr (S ∖ D) t cl t' cl' ∧ (∀ x d, x ∈ order → d ∈ D → noticed addr cl' x d) ∧
    ∀ x d, x ∈ S ∖ D → x ∉ order → noticed addr cl x d → noticed addr cl' x d.
Proof.
  revert t cl. induction order as [|x order IH]; intros t cl Hmid Hnd Hin.
  { exists t, cl. split; [constructor|]. split; [by intros x d ?%elem_of_nil|done]. }
  apply NoDup_cons in Hnd as [Hx Hnd]. assert (x ∈ S ∖ D) as HxS by (apply Hin; by left).
  destruct (md_node _ _ _ _ _ Hmid x HxS) as (s&_&Hs&_).
  destruct (heartbeatRound ((λ id, (id, ping_answer cl (s_Membership s) id, (t + 9 * Second)%Z)) <$>
    (map_to_list (peers (s_Membership s))).*1) (s_Membership s)) as [calls m] eqn:Hrun.
  pose proof (heal_round workers (t + 9 * Second) cl (addr x) s _ calls m calls Hs (reflexivity _) Hrun (reflexivity _)) as Hheal.
  set (cl1 := v_cluster _) in Hheal. clearbody cl1.
  assert (t ≤ t + 9 * Second)%Z as Ht by (unfold Second; lia).
  destruct (heal_notices t _ cl x cl1 Hmid HxS Ht Hheal) as [Hnow Hothers].
  destruct (IH _ cl1 (mid_heal t _ cl x cl1 Hmid HxS Ht Hheal) Hnd) as (t'&cl'&Hheals&Hnew&Hkeep); [intros y Hy; apply Hin; by right|].
  exists t', cl'. split; [by eapply heals_round|]. split.
  - intros y d [->|Hy]%elem_of_cons Hd; [apply Hkeep; [done|done|by apply Hnow]|by apply Hnew].
  - intros y d HyS [Hyx Hy]%not_elem_of_cons Hd. apply Hkeep; [done..|]. by apply Hothers.
Qed.

Lemma mid_heals t cl t' cl' : mid S D t ups cl → heals workers addr (S ∖ D) t cl t' cl' → mid S D t' ups cl'.
Proof.
  intros Hmid Hheals. induction Hheals as [|t now cl x cl1 t' cl' Hx Hnow Hheal _ IH]; [done|]. apply IH. by eapply mid_heal.
Qed.
End outage.

(** *** Uploads *)

(** What an upload does to the store of its node. *)
Lemma upload_store x (s s' : node_server) cl chunks :
  cl_nodes cl !! addr x = Some s → data (Local s') = put_chunks (filter (kept_here s) chunks) (data (Local s)) →
  (∀ c, c ∈ chunks → c ∈ cs) → (∀ a, truthful cs (node_data cl a)) →
  let cl' := v_cluster (with_node s' (MkView (addr x) cl)) in
  (∀ a, truthful cs (node_data cl' a)) ∧ (∀ c y, c ∈ cs → holds cl y c → holds cl' y c) ∧
  ∀ c, c ∈ chunks → kept_here s c → holds cl' x c.
Proof.
  intros Hs Hl Hsub Htr cl'. pose proof (Htr (addr x)) as Htx. unfold node_data in Htx. rewrite Hs in Htx.
  assert (∀ a, node_data cl' a = if decide (a = addr x) then put_chunks (filter (kept_here s) chunks) (data (Local s))
    else node_data cl a) as Hdata.
  { intros a. unfold node_data, cl'. cbn. case_decide as Ha; [subst a; by rewrite lookup_insert_eq, Hl|by rewrite lookup_insert_ne]. }
  assert (∀ c c', c ∈ cs → c' ∈ filter (kept_here s) chunks → ck_ID c' = ck_ID c → ck_Data c' = ck_Data c) as Hsame.
  { intros c c' Hc [_ Hc']%list_elem_of_filter. apply Hinj; [by apply Hsub|done]. }
  split_and!.
  - intros a. rewrite Hdata. case_decide; [|apply Htr].
    intros c d Hc [Hd|(c'&Hc'&Heq&<-)]%put_chunks_elem; [by eapply Htx|by apply Hsame].
  - intros c y Hc. unfold holds. rewrite Hdata. case_decide as Ha; [|done]. rewrite Ha. unfold node_data. rewrite Hs.
    intros Hd. apply put_chunks_lookup; [|by left]. intros c'. by apply Hsame.
  - intros c Hc Hk. unfold holds. rewrite Hdata, decide_True by done. apply put_chunks_lookup.
    + intros c' Hc'. apply Hsame; [by apply Hsub|done].
    + right. exists c. by rewrite list_elem_of_filter.
Qed.

(** The index after an upload. *)
Lemma indexed_upload ups x y r s ms manifest :
  indexed ups y s → (Z.of_nat (length (content (r_Body r))) < 2 ^ 63)%Z →
  Split (blob_id r) (r_Body r) DefaultSize = Ok (upload_chunks r, manifest) →
  (y = x → ms = <[blob_id r := manifest]> (manifests s)) → (y ≠ x → ms = manifests s) →
  ∀ s', manifests s' = ms → indexed ((x, r) :: ups) y s'.
Proof.
  intros Hidx Hlen HS Hx Hne s' Hs' blob. specialize (Hidx blob). cbn [latest]. case_decide as Hd.
  - destruct Hd as [-> <-]. exists manifest. split; [exact HS|]. rewrite Hs', Hx by done.
    split; [apply lookup_insert_eq|]. split; [exact Hlen|]. intros c Hc. apply elem_of_app. by left.
  - assert (manifests s' !! blob = manifests s !! blob) as Hsame.
    { rewrite Hs'. destruct (decide (y = x)) as [->|Hyx]; [|by rewrite Hne]. rewrite Hx, lookup_insert_ne by naive_solver. done. }
    destruct (latest ups y blob) as [r0|]; [|by rewrite Hsame].
    destruct Hidx as (m0&HS0&Hm0&Hlen0&Hsub). exists m0. rewrite Hsame. split; [exact HS0|]. split; [exact Hm0|].
    split; [exact Hlen0|]. intros c Hc. apply elem_of_app. right. by apply Hsub.
Qed.

(** The jobs of an upload delivered. *)
Lemma sound_deliver S t ups workers cl x r s s' chunks manifest :
  sound S t ups cl → x ∈ S → cl_nodes cl !! addr x = Some s → node_ok S ∅ t x s' →
  data (Local s') = put_chunks (filter (kept_here s) chunks) (data (Local s)) →
  manifests s' = <[blob_id r := manifest]> (manifests s) → (Z.of_nat (length (content (r_Body r))) < 2 ^ 63)%Z →
  Split (blob_id r) (r_Body r) DefaultSize = Ok (upload_chunks r, manifest) → upload_chunks r = chunks →
  (∀ c, c ∈ uploaded ((x, r) :: ups) → c ∈ cs) →
  sound S t ((x, r) :: ups) (v_cluster (deliver_all json_Manifest json_Status (NewEngine (SelfID s') workers) (s_Ring s')
    (job_of_chunk <$> chunks) (with_node s' (MkView (addr x) cl)))).
Proof.
  intros [HS Hup Hnode Htr Hrep] Hx Hs Hok' Hl' Hman Hlen Hsplit Hchunks Hups.
  destruct (Hnode x Hx) as (s1&Hs1&Hok&Hidx). rewrite Hs in Hs1. injection Hs1 as <-.
  assert (∀ c, c ∈ uploaded ((x, r) :: ups) ↔ c ∈ chunks ∨ c ∈ uploaded ups) as Hsplits.
  { intros c. rewrite <-Hchunks. apply elem_of_app. }
  assert (∀ c, c ∈ chunks → c ∈ cs) as Hsub by (intros c Hc; apply Hups, Hsplits; by left).
  destruct (upload_store x s s' cl chunks Hs Hl' Hsub Htr) as (Htr0&Hkeep0&Hnew0).
  assert (view_ok S x s' (with_node s' (MkView (addr x) cl))) as Hv0.
  { apply view_after; [|exact Htr0]. intros y Hy. split; [by apply Hup; [apply HS|]|].
    destruct (Hnode y Hy) as (sy&->&_). eauto. }
  destruct (deliver_ok S ∅ S t x s' workers Hok' HS (job_of_chunk <$> chunks) _ Hv0) as ((_&Hup1&Hnodes1)&(_&_&_&Htr1)&Hkeep1&Hdel1).
  { intros job (c&->&Hc)%list_elem_of_fmap. apply honest_chunk; [exact Hinj|by apply Hsub]. }
  set (v1 := deliver_all _ _ _ _ _ _) in *. clearbody v1. split.
  - exact HS.
  - intros y Hy. rewrite Hup1. by apply Hup.
  - intros y Hy. destruct (decide (y = x)) as [->|Hne].
    + destruct (Hnodes1 (addr x) s') as [l Hl]; [apply lookup_insert_eq|]. exists (set_Local l s').
      split; [exact Hl|]. split; [by apply node_ok_local|].
      by apply (indexed_upload ups x x r s (manifests s') manifest Hidx Hlen).
    + destruct (Hnode y Hy) as (sy&Hsy&Hoky&Hidxy). destruct (Hnodes1 (addr y) sy) as [l Hl].
      { cbn. rewrite lookup_insert_ne; [done|]. intros Heq. apply Hne. symmetry. apply Haddr; [by apply HS..|done]. }
      exists (set_Local l sy). split; [exact Hl|]. split; [by apply node_ok_local|].
      by apply (indexed_upload ups x y r sy (manifests sy) manifest Hidxy Hlen).
  - exact Htr1.
  - intros c y r' [Hc|Hc]%Hsplits Hr' Hy.
    + rewrite (ring_repr_unique r' (s_Ring s') _ Hr' (no_ring _ _ _ _ _ Hok')) in Hy.
      destruct (decide (y = x)) as [->|Hne].
      * apply Hkeep1; [by apply Hsub|]. apply Hnew0; [done|]. left. rewrite (no_self _ _ _ _ _ Hok).
        by rewrite (ring_repr_unique (s_Ring s) (s_Ring s') _ (no_ring _ _ _ _ _ Hok) (no_ring _ _ _ _ _ Hok')).
      * apply Hdel1; [done|by apply Hsub|by apply list_elem_of_fmap_2|done|done].
    + assert (c ∈ cs) as Hcs by (apply Hups, Hsplits; by right). apply Hkeep1, Hkeep0; [done..|].
      by apply (Hrep c y r').
Qed.

Lemma sound_upload S t ups workers cl x r chunks manifest :
  sound S t ups cl → x ∈ S → blob_id r ≠ "" → (Z.of_nat (length (content (r_Body r))) < 2 ^ 63)%Z →
  Split (blob_id r) (r_Body r) DefaultSize = Ok (chunks, manifest) → (∀ c, c ∈ uploaded ((x, r) :: ups) → c ∈ cs) →
  sound S t ((x, r) :: ups) (v_cluster (upload_at workers r (MkView (addr x) cl))).
Proof.
  intros Hsound Hx Hid Hlen Hsplit Hups. destruct (sd_node _ _ _ _ Hsound x Hx) as (s&Hs&Hok&_).
  assert (upload_chunks r = chunks) as Hchunks by (unfold upload_chunks; by rewrite Hsplit).
  destruct (upload_spec json_Manifest r (MkResponseWriter None [] None) s (data (Local s)) chunks manifest)
    as (l'&Hh&Hl'); [done|done|exact Hsplit|done|].
  unfold upload_at. cbn [v_cluster v_self]. rewrite Hs, Hh.
  apply (sound_deliver S t ups workers cl x r s (set_manifests (<[blob_id r := manifest]> (manifests s)) (set_Local l' s))
    chunks manifest Hsound Hx Hs); [by destruct Hok|exact Hl'|done|exact Hlen| |exact Hchunks|exact Hups].
  by rewrite Hchunks.
Qed.

(** *** Histories *)

Lemma sound_start t cl : connected t cl → sound known t [] cl.
Proof.
  intros [Hup Hnode Hempty]. split.
  - done.
  - intros x Hx. split; [done|]. intros _. by apply Hup.
  - intros x Hx. destruct (Hnode x Hx) as (s&Hs&Hok&Hidx). exists s. split; [exact Hs|]. split; [exact Hok|].
    intros blob. cbn. by rewrite Hidx, lookup_empty.
  - intros a c d _. by rewrite Hempty, lookup_empty.
  - by intros c x r ?%elem_of_nil.
Qed.

Lemma sound_outage S t ups workers cl D t' cl' :
  sound S t ups cl → D ⊆ S → size D ≤ 2 → S ∖ D ≠ ∅ → (∀ c, c ∈ uploaded ups → c ∈ cs) →
  heals workers addr (S ∖ D) t (MkCluster (cl_nodes cl) (cl_up cl ∖ set_map addr D)) t' cl' →
  (∀ x d, x ∈ S ∖ D → d ∈ D → noticed addr cl' x d) → sound (S ∖ D) t' ups cl'.
Proof.
  intros Hs HD Hsize Hne Hups Hheals Hnoticed. pose proof (sd_known _ _ _ _ Hs) as HS.
  destruct (set_choose_L _ Hne) as [x0 Hx0]. destruct (sd_node _ _ _ _ Hs x0) as (s0&_&Hok0&_); [set_solver|].
  eapply (mid_end S D ups); [..|eapply (mid_heals S D ups workers); [..|exact Hheals]]; try done.
  - exact (no_ring _ _ _ _ _ Hok0).
  - by apply mid_start.
Qed.

(** An outage can always be gone through. *)
Lemma sound_outage_exists S t ups workers cl D :
  sound S t ups cl → D ⊆ S → (∀ c, c ∈ uploaded ups → c ∈ cs) →
  ∃ t' cl', heals workers addr (S ∖ D) t (MkCluster (cl_nodes cl) (cl_up cl ∖ set_map addr D)) t' cl' ∧
    ∀ x d, x ∈ S ∖ D → d ∈ D → noticed addr cl' x d.
Proof.
  intros Hs HD Hups. pose proof (sd_known _ _ _ _ Hs) as HS.
  edestruct (mid_heals_exists S D ups workers) with (order := elements (S ∖ D)) as (t'&cl'&Hheals&Hnew&_); try done.
  - by apply mid_start.
  - apply NoDup_elements.
  - by intros x ?%elem_of_elements.
  - exists t', cl'. split; [exact Hheals|]. intros x d Hx. by apply Hnew, elem_of_elements.
Qed.

Lemma life_sound workers t0 cl0 S t ups cl :
  connected t0 cl0 → life workers addr known t0 cl0 S t ups cl → (∀ c, c ∈ uploaded ups → c ∈ cs) →
  sound S t ups cl.
Proof.
  intros Hc Hlife. induction Hlife as [|S t ups cl x r chunks manifest _ IH Hx Hid Hlen Hsplit|
    S t ups cl D t' cl' _ IH HD Hsize Hne Hheals Hnoticed]; intros Hups.
  - by apply sound_start.
  - apply (sound_upload S t ups workers cl x r chunks manifest); [|done..]. apply IH. intros c Hin. apply Hups, elem_of_app. by right.
  - by apply (sound_outage S t ups workers cl D t' cl'); [apply IH|..].
Qed.

(** A blob read from the node it was uploaded to. *)
Lemma sound_read S t ups cl x blob r r' :
  sound S t ups cl → x ∈ S → latest ups x blob = Some r → blob_id r' = blob → (∀ c, c ∈ uploaded ups → c ∈ cs) →
  ∃ s rw, cl_nodes cl !! addr x = Some s ∧
    handleDownloadBlob r' (MkResponseWriter None [] None) s cl = (rw, None, cl) ∧
    sent_status rw = 200%Z ∧ rw_body rw = content (r_Body r).
Proof.
  intros [HS Hup Hnode Htr Hrep] Hx Hlatest Hblob Hups. destruct (Hnode x Hx) as (s&Hs&Hok&Hidx).
  specialize (Hidx blob). rewrite Hlatest in Hidx. destruct Hidx as (manifest&HS1&Hman&Hlen&Hsub). pose proof Hok as [Hself Hring Htab _ _ _ Hpeers Halive _ _ _ Hfull].
  assert (∀ m, truthful cs m → truthful (upload_chunks r) m) as Hless by (intros m Hm c d Hc; by apply Hm, Hups, Hsub).
  assert (∀ n a, addrForNode (s_Membership s) n = Some a → ∃ p, peers (s_Membership s) !! n = Some p ∧ a = p_Addr p) as Haddrs.
  { intros n a. rewrite (proj2 (address_lookups (s_Membership s) n Htab)).
    destruct (peers (s_Membership s) !! n) as [p|]; [|done]. cbn. case_decide; [|done]. intros [= <-]. eauto. }
  destruct (download_readable json_Manifest json_Status cl s (upload_chunks r)) with (r := r') (blob := blob)
    (body := r_Body r) (manifest := manifest) as (rw&HR&Hst&Hout); [by apply (Split_named _ _ _ _ _ HS1)| | | |exact Hlen|exact HS1| | |].
  - intros n a (p&Hp&->)%Haddrs. destruct (Hpeers n p Hp) as (Hn&->&_). by apply Hplain.
  - pose proof (Htr (addr x)) as Ht. unfold node_data in Ht. rewrite Hs in Ht. by apply Hless.
  - intros a. apply Hless, Htr.
  - by rewrite Hblob.
  - intros c Hc. destruct (target_survives (s_Ring s) S ∅ (ck_ID c) Factor Hring) as (y&Hy&_);
      [rewrite size_empty; unfold Factor; lia|exists x; set_solver|].
    pose proof (Hrep c y (s_Ring s) (Hsub c Hc) Hring Hy) as Hholds. pose proof (GetN_members _ _ _ _ _ Hring Hy) as HyS.
    destruct (decide (y = x)) as [->|Hne].
    + left. unfold holds, node_data in Hholds. by rewrite Hs in Hholds.
    + right. exists y, (addr y). split; [exact Hy|]. split; [congruence|]. split; [|split; [by apply Hup; [apply HS|]|exact Hholds]].
      rewrite (proj2 (address_lookups (s_Membership s) y Htab)). destruct (Hfull y (HS _ HyS) Hne) as [p Hp]. rewrite Hp. cbn.
      destruct (Hpeers y p Hp) as (_&Ha&_). by rewrite decide_True, Ha by (by apply (Halive y p Hp)).
  - exists s, rw. by unfold heal_HTTPGetter.
Qed.

(** A name that was not uploaded to the node. *)
Lemma sound_unknown S t ups cl x blob r' :
  sound S t ups cl → x ∈ S → latest ups x blob = None → blob_id r' = blob →
  ∃ s rw, cl_nodes cl !! addr x = Some s ∧
    handleDownloadBlob r' (MkResponseWriter None [] None) s cl = (rw, None, cl) ∧ sent_status rw = 404%Z.
Proof.
  intros [_ _ Hnode _ _] Hx Hlatest Hblob. destruct (Hnode x Hx) as (s&Hs&_&Hidx).
  specialize (Hidx blob). rewrite Hlatest in Hidx. unfold handleDownloadBlob. change (TrimPrefix (URL_Path r') "/blobs/") with (blob_id r').
  rewrite Hblob. exists s. rewrite Hidx. by eexists.
Qed.
End invariant.

(** [C2] Self-healing keeps blobs for good.  Whatever happens to a cluster that has come up
    connected - uploads to any node, each with its queue worked off, and outages, however
    many, that take at most two nodes each for good and leave one, each noticed by the
    survivors in any heartbeat rounds before the next upload or outage - a node that is still there answers for every
    name: with the whole of what was last uploaded to it under the name, or 404 if
    nothing was uploaded to it, be it to another node. *)
Theorem blobs_outlive_nodes known addr workers t0 cl0 S t ups cl x blob r' :
  (∀ y, y ∈ known → plain_url_part (addr y)) → (∀ y z, y ∈ known → z ∈ known → addr y = addr z → y = z) →
  connected known addr t0 cl0 → life workers addr known t0 cl0 S t ups cl →
  (∀ c1 c2, c1 ∈ uploaded ups → c2 ∈ uploaded ups → ck_ID c1 = ck_ID c2 → ck_Data c1 = ck_Data c2) →
  x ∈ S → blob_id r' = blob →
  ∃ s rw err, cl_nodes cl !! addr x = Some s ∧
    handleDownloadBlob r' (MkResponseWriter None [] None) s cl = (rw, err, cl) ∧
    match latest ups x blob with
    | Some r => err = None ∧ sent_status rw = 200%Z ∧ rw_body rw = content (r_Body r)
    | None => sent_status rw = 404%Z
    end.
Proof.
  intros Hplain Haddr Hc Hlife Hinj Hx Hblob. pose proof (uploaded_named ups) as Hnamed.
  pose proof (life_sound known addr (uploaded ups) Hplain Haddr Hinj Hnamed workers t0 cl0 S t ups cl Hc Hlife (λ c Hin, Hin)) as Hs.
  destruct (latest ups x blob) as [r|] eqn:Hlatest.
  - destruct (sound_read known addr (uploaded ups) Hplain Haddr Hinj Hnamed S t ups cl x blob r r' Hs) as (s&rw&H1&H2&H3); [done..|].
    by exists s, rw, None.
  - destruct (sound_unknown known addr (uploaded ups) S t ups cl x blob r' Hs) as (s&rw&H1&H2&H3); [done..|].
    by exists s, rw, None.
Qed.
End healing.

(** ** The cluster of the benchmark *)

(** Where its nodes are. *)
Definition bench_where (n : nat) (x : string) : string :=
  default "" ((list_to_map ((λ j, (bench_node j, bench_addr j)) <$> seq 0 n) : gmap string string) !! x).

Lemma bench_where_node n j : j < n → bench_where n (bench_node j) = bench_addr j.
Proof.
  intros Hj. unfold bench_where. erewrite elem_of_list_to_map_1; [done| |].
  - rewrite <-list_fmap_compose. apply NoDup_fmap_2; [intros x y; apply bench_node_inj|apply NoDup_seq].
  - apply list_elem_of_fmap. exists j. split; [done|]. apply elem_of_seq. lia.
Qed.

Lemma bench_where_plain n x : x ∈ bench_nodes n → plain_url_part (bench_where n x).
Proof. intros (j&->&Hj)%elem_of_bench_nodes. rewrite bench_where_node by done. apply bench_url_part. Qed.

Lemma bench_where_inj n x y : x ∈ bench_nodes n → y ∈ bench_nodes n → bench_where n x = bench_where n y → x = y.
Proof.
  intros (i&->&Hi)%elem_of_bench_nodes (j&->&Hj)%elem_of_bench_nodes. rewrite !bench_where_node by done.
  by intros ->%bench_addr_inj.
Qed.

(** It comes up connected. *)
Lemma bench_connected n now :
  0 < n → distinct_points (bench_nodes n) → connected (bench_nodes n) (bench_where n) now (bench_cluster n now).
Proof.
  intros Hn Hd. split.
  - intros x (j&->&Hj)%elem_of_bench_nodes. rewrite bench_where_node by done. cbn. apply elem_of_list_to_set, list_elem_of_fmap.
    exists j. split; [done|]. apply elem_of_seq. lia.
  - intros x (j&->&Hj)%elem_of_bench_nodes. rewrite bench_where_node by done. exists (bench_server n now j).
    split; [by apply bench_cluster_node|].
    destruct (bench_server_ready n now Hd j Hj) as (Hself&Hring&Hman&_). destruct (bench_server_table n now j Hj Hd) as (Hok&Hcfg&Hpeers&Hfull).
    destruct Hcfg as (Hs&Hsus&Hdead&HD&_). split; [|exact Hman].
    assert (∀ y p, peers (s_Membership (bench_server n now j)) !! y = Some p →
      y ∈ bench_nodes n ∧ p_Addr p = bench_where n y ∧ p_State p = StateAlive ∧ p_LastHeartbeat p = now) as Hpeer.
    { intros y p (i&->&Hi&_&Ha&Hst&Ht)%Hpeers. rewrite bench_where_node by exact Hi.
      split_and!; [|exact Ha|exact Hst|exact Ht]. apply elem_of_bench_nodes. exists i. split; [reflexivity|exact Hi]. }
    split.
    + exact Hself.
    + exact Hring.
    + exact Hok.
    + rewrite Hs. reflexivity.
    + exact HD.
    + rewrite Hsus, Hdead. split; reflexivity.
    + intros y p (Hy&Ha&_&Ht)%Hpeer. split_and!; [exact Hy|exact Ha|lia].
    + intros y p (_&_&Hst&_)%Hpeer _ _. exact Hst.
    + intros y p _ Hy. by apply elem_of_empty in Hy.
    + intros y p (Hy&_)%Hpeer Hn'. by destruct Hn'.
    + intros y p (_&_&Hst&_)%Hpeer. rewrite Hst. by intros ?.
    + intros y (i&->&Hi)%elem_of_bench_nodes Hne. apply Hfull; [exact Hi|]. intros ->. by apply Hne.
  - intros a. by apply bench_cluster_empty.
Qed.

(** ** Witness *)

(** Three nodes; after an upload to the first the two others are lost. *)
Definition demo_ups : list (string * Request) := [(bench_node 0, demo_upload)].
Definition demo_lost : gset string := {[bench_node 1; bench_node 2]}.

Lemma demo_uploaded : upload_chunks demo_upload = [demo_chunk] ∧ uploaded demo_ups = [demo_chunk].
Proof.
  assert (upload_chunks demo_upload = [demo_chunk]) as Hc.
  { unfold upload_chunks. change (blob_id demo_upload) with "layer". by rewrite demo_Split_ok. }
  split; [exact Hc|]. unfold uploaded, demo_ups. cbn [fmap list_fmap concat snd]. by rewrite Hc.
Qed.

Lemma demo_uploaded_inj c1 c2 :
  c1 ∈ uploaded demo_ups → c2 ∈ uploaded demo_ups → ck_ID c1 = ck_ID c2 → ck_Data c1 = ck_Data c2.
Proof. rewrite (proj2 demo_uploaded). intros Hc1%list_elem_of_singleton Hc2%list_elem_of_singleton _. by rewrite Hc1, Hc2. Qed.

#[local] Instance demo_heal_getter : HTTPGetter Cluster := Cluster_HTTPGetter demo_json demo_json_status.

Lemma demo_lost_ok :
  demo_lost ⊆ bench_nodes 3 ∧ size demo_lost ≤ 2 ∧ bench_nodes 3 ∖ demo_lost ≠ ∅ ∧ bench_node 0 ∈ bench_nodes 3 ∖ demo_lost.
Proof. apply (bool_decide_unpack _). vm_compute. exact I. Qed.

(** The outage can be gone through. *)
Lemma demo_life :
  ∃ t cl, life demo_json demo_json_status 4 (bench_where 3) (bench_nodes 3) 0 (bench_cluster 3 0)
    (bench_nodes 3 ∖ demo_lost) t demo_ups cl.
Proof.
  pose proof (bench_connected 3 0 ltac:(lia) bench_three_distinct) as Hc. destruct demo_lost_ok as (Hsub&Hsize&Hleft&_).
  assert (bench_node 0 ∈ bench_nodes 3) as H0 by (apply elem_of_bench_nodes; exists 0; split; [done|lia]).
  pose proof (life_upload demo_json demo_json_status 4 (bench_where 3) (bench_nodes 3) 0 (bench_cluster 3 0) (bench_nodes 3) 0 []
    (bench_cluster 3 0) (bench_node 0) demo_upload [demo_chunk] demo_manifest (life_start _ _ _ _ _ _ _) H0
    ltac:(done) ltac:(done) demo_Split_ok) as Hlife.
  destruct (sound_outage_exists demo_json demo_json_status (bench_nodes 3) (bench_where 3) (uploaded demo_ups) (bench_where_plain 3)
    (bench_where_inj 3) demo_uploaded_inj (uploaded_named demo_ups) (bench_nodes 3) 0 demo_ups 4 _ demo_lost
    (life_sound demo_json demo_json_status (bench_nodes 3) (bench_where 3) (uploaded demo_ups) (bench_where_plain 3)
      (bench_where_inj 3) demo_uploaded_inj (uploaded_named demo_ups) 4 0 _ _ _ _ _ Hc Hlife (λ c Hin, Hin))
    Hsub (λ c Hin, Hin)) as (t&cl&Hheals&Hnoticed).
  exists t, cl. eapply life_outage; [exact Hlife|exact Hsub|exact Hsize|exact Hleft|exact Hheals|exact Hnoticed].
Qed.

(** What the survivor then answers. *)
Lemma blobs_outlive_nodes_witness :
  ∃ t cl s rw, life demo_json demo_json_status 4 (bench_where 3) (bench_nodes 3) 0 (bench_cluster 3 0)
      (bench_nodes 3 ∖ demo_lost) t demo_ups cl ∧
    cl_nodes cl !! bench_where 3 (bench_node 0) = Some s ∧
    handleDownloadBlob (demo_request "GET" ["blobs"; "layer"] []) (MkResponseWriter None [] None) s cl = (rw, None, cl) ∧
    sent_status rw = 200%Z ∧ rw_body rw = demo_hello.
Proof.
  destruct demo_life as (t&cl&Hlife).
  destruct (blobs_outlive_nodes demo_json demo_json_status (bench_nodes 3) (bench_where 3) 4 0 (bench_cluster 3 0)
    (bench_nodes 3 ∖ demo_lost) t demo_ups cl (bench_node 0) "layer" (demo_request "GET" ["blobs"; "layer"] [])
    (bench_where_plain 3) (bench_where_inj 3) (bench_connected 3 0 ltac:(lia) bench_three_distinct) Hlife demo_uploaded_inj)
    as (s&rw&err&Hs&HR&Hout); [apply demo_lost_ok|reflexivity|].
  change (latest demo_ups (bench_node 0) "layer") with (Some demo_upload) in Hout. destruct Hout as (->&Hst&Hbody).
  exists t, cl, s, rw. split; [exact Hlife|]. split; [exact Hs|]. split; [exact HR|]. split; [exact Hst|exact Hbody].
Defined.
